(* ===== verification/_CoqProject ===== *)
-Q . S2P
Prelude.v
GoErrors.v
IO.v
Varint.v
QlogEvent.v
Qlogger.v
Options.v
SyncMap.v
Connection.v
RTPSendStream.v
PacketBuffer.v
Deadline.v
ReceiveFlow.v
ReadStream.v
FlowSteps.v
FlowChannel.v
SendFlow.v
ReceiveFlowBuffer.v
Session.v
SessionSpec.v
SessionMoves.v
SessionSteps.v
SessionConcurrent.v
SessionRaces.v
SessionShutdown.v
SessionIntake.v
SessionOutput.v
System.v
SessionProps.v
QUICGo.v
Tracer.v
EndToEnd.v
Delivery.v
Media.v
InteropSender.v
FileWriter.v
InteropReceiver.v
InteropMain.v
SaveToDisk.v
PlayFromDisk.v
