(* ===== verification/Prelude.v ===== *)
(** * Verification of mengelbart/roq: RTP over QUIC in Go

    roq sends and receives RTP and RTCP packets over a QUIC connection. Packets
    belong to flows, named by a flow ID. A [Session] (session.go) owns the
    connection. On the send side a [SendFlow] (send_flow.go) sends a packet as a
    datagram behind the flow ID, or on an [RTPSendStream] (rtp_send_stream.go),
    which writes the flow ID once and then frames: a varint length and the packet.
    On the receive side the session reads the flow ID of every datagram and stream
    and hands the payload to the [ReceiveFlow] (receive_flow.go) of that ID, whose
    queue the application reads; packets for a flow it has not asked for yet go to
    flows kept in a bounded buffer (receive_flow_buffer.go). Around these are the
    options (options.go), the session error (errors.go), a locked map
    (sync_map.go) and qlog events (qlogger.go, qlog/).

    ** Files

    - Prelude: Go calls that may panic ([outcome], a monad), machine integers,
      bytes, slices, tactics and hints.
    - GoErrors: errors.go, and error values with [errors.Is], [errors.As] and
      [errors.Join]. IO: the loops of [io.ReadFull], [io.LimitReader] and
      [bytes.Buffer.ReadFrom] the receive path runs on.
    - Varint: the interface of quic-go's quicvarint ([QuicVarint]) with the laws the
      library relies on ([QuicVarintLaws]), and Module [RFC9000], an implementation
      that satisfies them.
    - QlogEvent: qlog/event.go. Qlogger: qlogger.go, and the [effect]s the receive
      side has on its surroundings. Options: options.go. SyncMap: sync_map.go.
    - Connection: the interfaces of session.go that a connection implements, as a
      type class, with laws about its call log and about the calls that wait
      ([ConnectionReturns]); what arrives is an event that changes the connection.
      [stubConn], a connection with scripted writes, satisfies them.
    - RTPSendStream, SendFlow: the send side.
    - PacketBuffer, Deadline, ReceiveFlow, ReadStream: receive_flow.go, split into the
      packet channel with its buffer pool, the read deadline with its channels and
      timers, the methods, and the reader of a stream. FlowSteps interleaves their
      critical sections; FlowChannel is the abstract channel they implement.
    - ReceiveFlowBuffer: receive_flow_buffer.go.
    - QUICGo: the adapters of quic_connection.go, over an interface of quic-go; they
      are shown to satisfy the laws of a connection.
    - Session: session.go; SessionSpec: its invariant and what each operation does
      to it; SessionMoves: what every operation leaves as it was, also in the middle
      of a shutdown. SessionSteps: the goroutines of a session, a call being one
      step; SessionConcurrent: the same with calls and [close] cut where they release
      a lock, and with reads that block. SessionRaces, SessionShutdown, SessionProps,
      EndToEnd: properties.
    - SessionIntake, SessionOutput: records of what a session was given and what it
      made of it, along the steps of SessionConcurrent, on the receive side and on
      the send side; System: two sessions with a network between them.
    - Tracer: qlog/qlog.go.
    - Delivery: what datagrams and streams for one flow leave in its queue, however
      the goroutines that receive them take turns, for the programs below.
    - The programs under examples/: Media has the interfaces of the media packages
      they use; InteropSender is sender.go and ivf_frame_reader.go of
      examples/interop, FileWriter its file_writer.go, InteropReceiver its
      receiver.go and InteropMain its main.go; SaveToDisk and PlayFromDisk are
      examples/savetodisk and examples/playfromdisk.

    ** Modelling

    A struct is a record with the fields of the source; objects the application and
    the library share (flows, streams) are places in a list, and tables hold
    places, so that aliasing is that of the code. A method that runs under a lock is
    one function on the state; a method that takes the lock several times is
    the composition of its parts, and the parts are steps where interleaving
    matters (FlowSteps, SessionConcurrent). Panics of the
    Go runtime (closing a closed channel, sending on one, slices out of bounds, an
    index into an empty queue, a varint of more than 62 bits) are results, so that
    theorems can say that they do not occur. The order of a [range] over a map, the
    buffer a [sync.Pool] hands out, the ready case a [select] picks, the bytes a
    write accepts, the chunks a stream is read in and the time are arbitrary.

    Loops that are not structural have fuel: [readStream_loop] gets one more than
    the bytes of the stream and is shown to return within it (every iteration
    consumes a byte); [io_ReadFull] and [Buffer_ReadFrom] likewise get enough for
    the chunks and bytes there are; [Read] needs one iteration when nothing
    interferes. In the example programs the sender's loop needs an iteration per
    frame and one more, the loop of [fileWriter.Write] one more than the jitter
    buffer holds packets, [receive] one iteration per queued packet and one more, and
    the player a tick per frame and one more; each is shown to be enough.

    ** Theorems

    - The system (System): however the goroutines of two sessions and their
      applications interleave and whatever the network loses or reorders, the packets
      on a flow of the receiver are packets given to the flow with the same ID of the
      sender, unchanged and not repeated. Its halves: everything a receiving session
      queues has arrived for that flow (SessionIntake), and what a sending session
      puts on the wire is the flow IDs and frames of the packets it was given
      (SessionOutput).
    - End to end (EndToEnd): packets written to a stream or sent as datagrams reach
      the queue of the flow with the same ID, whole and in order; datagrams go to
      their flow and no other; packets that arrive early are kept.
    - Life of a session (SessionProps): a session is made exactly from a connection
      and valid options, and is well formed; closing tears down the registered
      flows; in every state the application can bring about with whole calls no call
      with an ID that fits a varint panics, and the connection is closed once, with
      the first error.
    - Concurrent calls on a session (SessionRaces): the same for every interleaving
      of the parts of the calls with each other and with a shutdown, the one panic
      being that of [NewSendFlow] with an ID of more than 62 bits; only flows
      and streams whose creation races with the shutdown survive it; the qlog recorder
      is closed after all goroutines; the whole calls are sequences of the parts.
    - Completing a shutdown (SessionShutdown): if the connection returns from
      its calls once their context is cancelled, everything in progress can end, with
      the help of [CancelRead], and all [Close] calls return, except for readers of
      streams that stay open and that the shutdown does not cancel.
    - Concurrency of a receive flow (FlowSteps, FlowChannel): no panic, no missed
      wake-up, no premature or forgotten deadline, no stream that outlives [Close];
      with all its recycled buffers the flow is a bounded channel of packets.
    - Components: framing under partial writes and the returned count
      (RTPSendStream), the reader against a reference parser (ReadStream), [Read],
      [Close] and the bounded queue (ReceiveFlow), the buffer of unknown flows
      against a bounded first-in first-out map (ReceiveFlowBuffer), [SendFlow], the
      options, the JSON of the qlog events and its round trip.
    - Example programs: what the interop sender sends arrives whatever its mode
      (datagrams, a stream per frame, one stream) and however the goroutines of the
      receiving session take turns, in the order of the video or, with a stream per
      frame, in the order within each frame; the receiver writes the packets in the
      order of the queue; the loops end; the session is closed however the programs
      return.
    - Behaviour that differs from what is documented or meant, for all inputs that
      lead to it: a flow ID in a longer encoding leaks into the packet, a truncated
      frame is delivered, a short count is ambiguous, a second [Close] of a send flow
      unregisters another flow, [NewSendFlow] panics instead of returning an error,
      and flow creation races with the shutdown; by a concrete run: an open stream of
      an unknown flow holds up [Close]. An event is recorded after the recorder was
      closed; in the
      programs a nil TLS configuration is written to, a failed send is reported as
      success, a writer returns more than it was given, and the frame interval is cut
      to whole milliseconds.

    ** Not modelled

    The implementation of QUIC and of quicvarint, jsontext and qlogwriter, of the
    media packages, and of the operating system and TLS the programs call, none of
    which is part of the repository: each is a class of operations, with the laws
    relied on and an instance that satisfies them. Contexts other than their
    cancellation; what log records say beyond level and message; the capacity of the
    buffer an [RTPSendStream] starts with. In SessionConcurrent a critical section
    of an inner lock is one step, so that a call of the connection made in it, like
    closing a stream, does not block, and a push or a [Read] of a receive flow is one
    step; FlowSteps has their parts. An accepted stream is a
    reader with all it is going to deliver and the error it is going to end with,
    which are arbitrary, and chosen when it is accepted: a [Read] that finds no bytes
    left blocks while the connection says that the stream has not ended
    ([Read_waits]) and nobody has cancelled it, and then gets that error, also after a
    [CancelRead]. An error other than [io.EOF] that comes along with the last bytes
    ([rd_wf]), which [io.Reader] allows and quic-go does not do, is left out. A range
    over a map has an arbitrary order, but the same one for the same contents.
    Deadlines are exact, where [time.Until] cuts a duration at 292 years. The payload
    of a datagram is counted as arrived for its flow (SessionIntake) where the code
    cuts it, behind the minimal encoding of the ID; EndToEnd has what this means for
    another encoding. The interop sender runs with nothing else on its session between
    its calls. *)

From Stdlib Require Export ZArith Lia.
From stdpp Require Export base gmap strings pretty numbers tactics.
From stdpp Require Export list.
From Stdlib Require Strings.Byte.

#[global] Set Default Goal Selector "!".

(** ** Outcomes: Go computations that may panic *)

(** The run-time panics the modelled code could run into. *)
Inductive panic :=
  | PanicClosedChannelClose   (* close of closed channel *)
  | PanicClosedChannelSend    (* send on closed channel *)
  | PanicSliceBounds          (* slice bounds out of range *)
  | PanicIndex                (* index out of range *)
  | PanicMakeChan             (* makechan: size out of range *)
  | PanicVarintRange          (* quicvarint: value does not fit into 62 bits *)
  | PanicNilDereference       (* invalid memory address *)
  | PanicTicker.              (* non-positive interval for NewTicker *)

(** A Go call either returns or panics. *)
Inductive outcome (A : Type) :=
  | Ret (a : A)
  | Panic (p : panic).
Arguments Ret {_} _.
Arguments Panic {_} _.

#[global] Instance outcome_ret : MRet outcome := @Ret.
#[global] Instance outcome_bind : MBind outcome := λ A B f m,
  match m with Ret a => f a | Panic p => Panic p end.
#[global] Instance outcome_fmap : FMap outcome := λ A B f m,
  match m with Ret a => Ret (f a) | Panic p => Panic p end.

(** [returns m] says that the call [m] does not panic. *)
Definition returns {A} (m : outcome A) : Prop := ∃ a, m = Ret a.

(** ** Machine integers *)

(** Go's conversions to [uint64] and [int64] wrap around. *)
Definition uint64 (z : Z) : Z := z mod 2 ^ 64.
Definition int64 (z : Z) : Z := (z + 2 ^ 63) mod 2 ^ 64 - 2 ^ 63.

(** ** Bytes *)

Abbreviation byte := Corelib.Init.Byte.byte.

(** The value of a byte and the byte of an integer, truncated to 8 bits. *)
Definition byte_val (b : byte) : Z := Z.of_N (Byte.to_N b).
Definition byte_of (z : Z) : byte := default Byte.x00 (Byte.of_N (Z.to_N (z mod 2 ^ 8))).

(** A byte sequence by its values. *)
Definition bytes (zs : list Z) : list byte := byte_of <$> zs.

#[global] Instance byte_eq_decision : EqDecision byte := Stdlib.Strings.Byte.byte_eq_dec.

(** ** Slices *)

(** [bs[n:]], which panics unless [0 <= n <= len(bs)]. *)
Definition slice_from {A} (bs : list A) (n : Z) : outcome (list A) :=
  if decide (0 ≤ n ≤ Z.of_nat (length bs))%Z then Ret (drop (Z.to_nat n) bs)
  else Panic PanicSliceBounds.

(** ** Tactics and hints *)

Create HintDb roq.
#[export] Hint Extern 4 (_ ≤ _)%nat => lia : roq.
#[export] Hint Extern 4 (_ < _)%nat => lia : roq.
#[export] Hint Extern 4 (_ ≤ _)%Z => lia : roq.
#[export] Hint Extern 4 (_ < _)%Z => lia : roq.

(** Runs the next call of a sequence whose result is known. *)
Ltac bind_simpl := cbn [mbind outcome_bind].

(** ** Lemmas on lists *)

Lemma elem_of_delete_ne {A} (l : list A) i j x : l !! j = Some x → j ≠ i → x ∈ delete i l.
Proof.
  intros Hj Hne. apply list_elem_of_lookup. destruct (decide (j < i)).
  - exists j. by rewrite list_lookup_delete_lt.
  - exists (pred j). rewrite list_lookup_delete_ge by lia. by replace (S (pred j)) with j by lia.
Qed.

Lemma submseteq_Forall {A} (P : A → Prop) (l k : list A) : l ⊆+ k → Forall P k → Forall P l.
Proof. intros Hsub. rewrite !Forall_forall. intros Hk x Hx. apply Hk. by eapply elem_of_submseteq. Qed.

Lemma submseteq_NoDup {A} (l k : list A) : l ⊆+ k → NoDup k → NoDup l.
Proof. intros [k' ->]%submseteq_Permutation. by intros [? _]%NoDup_app. Qed.

(** ** Lemmas on outcomes *)

Lemma bind_ret_inv {A B} (m : outcome A) (f : A → outcome B) b :
  m ≫= f = Ret b → ∃ a, m = Ret a ∧ f a = Ret b.
Proof. destruct m; [eauto | discriminate]. Qed.

(** ** Lemmas on bytes and integers *)

Lemma byte_val_range b : (0 ≤ byte_val b < 256)%Z.
Proof.
  unfold byte_val. pose proof (Byte.to_N_bounded b). lia.
Qed.

Lemma byte_val_inj b1 b2 : byte_val b1 = byte_val b2 → b1 = b2.
Proof.
  unfold byte_val. intros H%N2Z.inj.
  pose proof (Byte.of_to_N b1) as E1. pose proof (Byte.of_to_N b2) as E2.
  rewrite H in E1. congruence.
Qed.

Lemma byte_val_of z : byte_val (byte_of z) = (z mod 256)%Z.
Proof.
  unfold byte_val, byte_of. change (2 ^ 8)%Z with 256%Z.
  pose proof (Z.mod_pos_bound z 256 eq_refl) as Hz.
  destruct (Byte.of_N (Z.to_N (z mod 256))) as [b|] eqn:E; simpl.
  - apply Byte.to_of_N in E. rewrite E. lia.
  - apply Byte.of_N_None_iff in E. lia.
Qed.

Lemma byte_of_val b : byte_of (byte_val b) = b.
Proof.
  apply byte_val_inj. rewrite byte_val_of.
  apply Z.mod_small, byte_val_range.
Qed.

Lemma uint64_small z : (0 ≤ z < 2 ^ 64)%Z → uint64 z = z.
Proof. apply Z.mod_small. Qed.

Lemma int64_small z : (- 2 ^ 63 ≤ z < 2 ^ 63)%Z → int64 z = z.
Proof. unfold int64. intros. rewrite Z.mod_small; lia. Qed.


(** ** Lemmas on slices *)

Lemma slice_from_ok {A} (bs : list A) n :
  (0 ≤ n ≤ Z.of_nat (length bs))%Z → slice_from bs n = Ret (drop (Z.to_nat n) bs).
Proof. intros. unfold slice_from. by rewrite decide_True. Qed.
