(* ===== verification/GoErrors.v ===== *)
(** * Errors: errors.go and the Go error values the library inspects

    [goerror] collects the error values that flow through the library: its own
    sentinels and [SessionError] (errors.go), the standard library's sentinels
    it returns or tests for, the stream errors of quic-go, errors of the
    connection ([EOther]), and the two ways errors are composed: wrapping with
    [%w] and [errors.Join]. [errors_Is] and [errors_AsStreamError] walk that
    tree the way [errors.Is] and [errors.As] do. *)

From S2P Require Import Prelude.

(** ** Error codes *)

Definition ErrRoQNoError : Z := 0.
Definition ErrRoQGeneralError : Z := 1.
Definition ErrRoQInternalError : Z := 2.
Definition ErrRoQPacketError : Z := 3.
Definition ErrRoQStreamCreationError : Z := 4.
Definition ErrRoQFrameCancelled : Z := 5.
Definition ErrRoQUnknownFlowID : Z := 6.
Definition ErrRoQExpectationUnmet : Z := 7.

(** ** SessionError *)

Record SessionError := mkSessionError { code : Z; reason : string }.

Definition Code (e : SessionError) : Z := code e.
Definition Reason (e : SessionError) : string := reason e.

(** [fmt.Sprintf("roq session error %v: %v", e.code, e.reason)] *)
Definition Error (e : SessionError) : string :=
  "roq session error " +:+ pretty (code e) +:+ ": " +:+ reason e.

(** ** Error values *)

Inductive goerror :=
  (* errors.go *)
  | errClosed
  | errNilConnection
  | errInvalidOption
  | errDuplicateFlowID
  | ESession (e : SessionError)
  (* standard library *)
  | EOF
  | ErrUnexpectedEOF
  | ErrShortWrite
  | ErrShortBuffer
  | ErrDeadlineExceeded
  | ContextCanceled
  (* quic-go's stream error, and any other error of the connection *)
  | EStream (code : Z)
  | EOther (msg : string)
  (* fmt.Errorf with %w, errors.Join *)
  | EWrap (msg : string) (e : goerror)
  | EJoin (es : list goerror).

(** The sentinels are compared by identity ([==]). *)
Definition same_sentinel (e target : goerror) : bool :=
  match e, target with
  | errClosed, errClosed | errNilConnection, errNilConnection
  | errInvalidOption, errInvalidOption | errDuplicateFlowID, errDuplicateFlowID
  | EOF, EOF | ErrUnexpectedEOF, ErrUnexpectedEOF | ErrShortWrite, ErrShortWrite
  | ErrShortBuffer, ErrShortBuffer | ErrDeadlineExceeded, ErrDeadlineExceeded
  | ContextCanceled, ContextCanceled => true
  | _, _ => false
  end.

(** [err == io.EOF], without unwrapping. *)
Definition is_EOF (e : goerror) : bool := same_sentinel e EOF.

(** [errors.Is(err, target)] for a sentinel target. *)
Fixpoint errors_Is (e target : goerror) : bool :=
  same_sentinel e target ||
  match e with
  | EWrap _ e' => errors_Is e' target
  | EJoin es => existsb (λ e', errors_Is e' target) es
  | _ => false
  end.

(** [errors.As(err, &streamErr)]: the first stream error of the tree. *)
Fixpoint errors_AsStreamError (e : goerror) : option Z :=
  match e with
  | EStream c => Some c
  | EWrap _ e' => errors_AsStreamError e'
  | EJoin es =>
      (fix first es := match es with
       | [] => None
       | e' :: es' => match errors_AsStreamError e' with
                      | Some c => Some c
                      | None => first es'
                      end
       end) es
  | _ => None
  end.

(** [errors.Join]: nil errors are discarded, and joining only nils is nil. *)
Definition errors_Join (errs : list (option goerror)) : option goerror :=
  match omap id errs with
  | [] => None
  | es => Some (EJoin es)
  end.

(** ** Lemmas *)

Lemma is_EOF_spec e : is_EOF e = true ↔ e = EOF.
Proof. split; [destruct e; done | by intros ->]. Qed.

Lemma errors_Join_None errs :
  errors_Join errs = None ↔ Forall (λ e, e = None) errs.
Proof.
  unfold errors_Join. induction errs as [|[e|] errs IH]; simpl.
  - done.
  - split; [done | by inversion 1].
  - rewrite IH, Forall_cons. intuition.
Qed.

(** Every error that was joined is found by [errors.Is] in the result. *)
Lemma errors_Join_Is errs e target :
  Some e ∈ errs → errors_Is e target = true →
  ∃ je, errors_Join errs = Some je ∧ errors_Is je target = true.
Proof.
  intros Hin His. unfold errors_Join.
  assert (e ∈ omap id errs) as Hin' by (apply list_elem_of_omap; eauto).
  destruct (omap id errs) as [|e0 es] eqn:Heq; [by apply not_elem_of_nil in Hin'|].
  eexists; split; [done|].
  change (existsb (λ e', errors_Is e' target) (e0 :: es) = true). apply existsb_exists.
  exists e. by rewrite <- list_elem_of_In.
Qed.
