(* ===== verification/IO.v ===== *)
(** * The parts of Go's io and bytes packages the receive path runs on

    A [reader] is what [io.Reader] promises of a QUIC receive stream: the bytes
    still to come, in the chunks in which successive [Read] calls find them, and
    the error every call returns once they are exhausted. [rd_eager] covers the
    latitude [io.Reader] leaves an implementation, to return that error together
    with the last bytes (quic-go does so for [io.EOF]) or by a call of its own.

    [io_ReadFull], [lr_Read] and [Buffer_ReadFrom] are the loops of
    [io.ReadFull], [io.LimitReader] and [bytes.Buffer.ReadFrom]; the lemmas show
    that what they return depends on the bytes and the error alone, not on the
    chunks, which is the equivalence [rd_equiv]. *)

From S2P Require Import Prelude GoErrors.

Record reader := mkReader {
  rd_chunks : list (list byte);
  rd_eager : bool;
  rd_err : goerror
}.

(** The bytes a reader still delivers. *)
Definition rd_data (r : reader) : list byte := concat (rd_chunks r).

(** Only [io.EOF] is reported along with bytes, as quic-go does. *)
Definition rd_wf (r : reader) : Prop := rd_eager r = true → rd_err r = EOF.

(** [r.Read(p)] for a slice of [p] bytes: the bytes read, the error, and the
    reader afterwards. *)
Definition rd_Read (p : nat) (r : reader) : list byte * option goerror * reader :=
  match rd_chunks r with
  | [] => ([], Some (rd_err r), r)
  | c :: cs =>
      if decide (length c ≤ p) then
        (c,
         match cs with
         | [] => if rd_eager r then Some (rd_err r) else None
         | _ => None
         end,
         mkReader cs (rd_eager r) (rd_err r))
      else (take p c, None, mkReader (drop p c :: cs) (rd_eager r) (rd_err r))
  end.

(** The loop of [io.ReadAtLeast(r, buf, len(buf))]; [acc] holds [buf[:n]]. *)
Fixpoint ReadAtLeast_loop (fuel : nat) (need : nat) (acc : list byte) (r : reader)
    : list byte * option goerror * reader :=
  match fuel with
  | 0 => (acc, None, r)
  | S fuel =>
      if decide (length acc < need) then
        let '(bs, err, r') := rd_Read (need - length acc) r in
        match err with
        | Some e => (acc ++ bs, Some e, r')
        | None => ReadAtLeast_loop fuel need (acc ++ bs) r'
        end
      else (acc, None, r)
  end.

(** [io.ReadFull(r, buf)] for a [buf] of [need] bytes. *)
Definition io_ReadFull (need : nat) (r : reader) : list byte * option goerror * reader :=
  let '(got, err, r') := ReadAtLeast_loop (S (length (rd_chunks r))) need [] r in
  if decide (need ≤ length got) then (got, None, r')
  else match err with
       | Some e =>
           if is_EOF e && bool_decide (got ≠ []) then (got, Some ErrUnexpectedEOF, r')
           else (got, Some e, r')
       | None => (got, None, r')
       end.

(** [io.LimitReader(r, n)]. *)
Record limitedReader := mkLimited { lr_R : reader; lr_N : Z }.

Definition lr_Read (p : nat) (l : limitedReader) : list byte * option goerror * limitedReader :=
  if decide (lr_N l ≤ 0)%Z then ([], Some EOF, l)
  else
    let p' := Z.to_nat (Z.min (Z.of_nat p) (lr_N l)) in
    let '(bs, err, r') := rd_Read p' (lr_R l) in
    (bs, err, mkLimited r' (lr_N l - Z.of_nat (length bs))%Z).

(** The least room [bytes.Buffer.ReadFrom] offers to each [Read]. *)
Definition bytes_MinRead : nat := Z.to_nat 512.

(** The loop of [ReadFrom] of [bytes.Buffer]; [acc] is what it has appended. *)
Fixpoint ReadFrom_loop (fuel : nat) (acc : list byte) (l : limitedReader)
    : list byte * option goerror * limitedReader :=
  match fuel with
  | 0 => (acc, None, l)
  | S fuel =>
      let '(bs, err, l') := lr_Read bytes_MinRead l in
      match err with
      | None => ReadFrom_loop fuel (acc ++ bs) l'
      | Some e =>
          if is_EOF e then (acc ++ bs, None, l') else (acc ++ bs, Some e, l')
      end
  end.

Definition Buffer_ReadFrom (l : limitedReader) : list byte * option goerror * limitedReader :=
  ReadFrom_loop (S (length (rd_data (lr_R l)) + length (rd_chunks (lr_R l)))) [] l.

(** ** What the loops return, in terms of the bytes alone *)

(** Two readers that deliver the same bytes and then the same error. *)
#[global] Instance rd_equiv : Equiv reader := λ r1 r2,
  rd_data r1 = rd_data r2 ∧ rd_err r1 = rd_err r2 ∧ rd_wf r1 ∧ rd_wf r2.

(** [rd_rest r d r']: [r'] is [r] with [d] left to deliver. *)
Definition rd_rest (r : reader) (d : list byte) (r' : reader) : Prop :=
  rd_data r' = d ∧ rd_err r' = rd_err r ∧ rd_wf r'.

Lemma rd_rest_trans r d r' d' r'' : rd_rest r d r' → rd_rest r' d' r'' → rd_rest r d' r''.
Proof. intros (_ & H1 & _) (? & H2 & ?). split_and!; [done|congruence|done]. Qed.

Lemma rd_rest_refl r : rd_wf r → rd_rest r (rd_data r) r.
Proof. done. Qed.
#[export] Hint Resolve rd_rest_trans rd_rest_refl : roq.

(** One [Read] takes a prefix of the bytes. An error comes once they are
    exhausted, and either some chunk is used up or the slice is filled. *)
Lemma rd_Read_spec p r bs err r' :
  rd_wf r → rd_Read p r = (bs, err, r') →
  length bs ≤ p ∧ rd_data r = bs ++ rd_data r' ∧ rd_rest r (rd_data r') r' ∧
  match err with
  | Some e => e = rd_err r ∧ rd_data r' = [] ∧ (bs = [] ∨ e = EOF)
  | None => length (rd_chunks r') < length (rd_chunks r) ∨
            (length bs = p ∧ length (rd_chunks r') = length (rd_chunks r) ∧
             0 < length (rd_chunks r))
  end.
Proof.
  unfold rd_Read, rd_rest, rd_data, rd_wf. intros Hwf.
  destruct (rd_chunks r) as [|c cs] eqn:Hcs; simpl.
  - intros [= <- <- <-]. rewrite Hcs. simpl. auto 10 with roq.
  - case_decide as Hle; intros [= <- <- <-]; simpl.
    + split_and!; [done..|].
      destruct cs; [destruct (rd_eager r)|]; simpl; auto with roq.
    + rewrite app_assoc, take_drop, length_take. split_and!; auto with roq.
      right. lia.
Qed.

(** The error of [io.ReadFull] on a reader that ends early. *)
Definition short_read_error (got : list byte) (e : goerror) : goerror :=
  if is_EOF e && bool_decide (got ≠ []) then ErrUnexpectedEOF else e.

Lemma ReadAtLeast_loop_spec fuel need acc r got err r' :
  rd_wf r → length acc ≤ need → length (rd_chunks r) < fuel →
  ReadAtLeast_loop fuel need acc r = (got, err, r') →
  got = acc ++ take (need - length acc) (rd_data r) ∧
  rd_rest r (drop (need - length acc) (rd_data r)) r' ∧
  (length got < need → err = Some (rd_err r)).
Proof.
  revert acc r. induction fuel as [|fuel IH]; intros acc r Hwf Hacc Hfuel; [lia|].
  simpl. case_decide as Hlt.
  2:{ intros [= <- <- <-]. replace (need - length acc) with 0 by lia.
      rewrite take_0, drop_0, app_nil_r. split_and!; [done|auto with roq|lia]. }
  destruct (rd_Read _ r) as [[bs e] r1] eqn:Hrd.
  destruct (rd_Read_spec _ _ _ _ _ Hwf Hrd) as (Hlen & Hd & Hrest & He).
  assert (rd_wf r1) as Hwf1 by apply Hrest.
  rewrite Hd, take_app_ge, drop_app_ge by lia.
  destruct e as [e|].
  - intros [= <- <- <-]. destruct He as (-> & Hnil & _).
    rewrite Hnil in *. rewrite take_nil, drop_nil, app_nil_r. auto.
  - intros Hloop. destruct He as [Hc|(Hp & Hc & Hc')].
    + apply IH in Hloop as (-> & Hr & Herr); [|auto|rewrite length_app; lia|lia].
      replace (need - length (acc ++ bs)) with (need - length acc - length bs) in *
        by (rewrite length_app; lia).
      rewrite <- app_assoc in *. destruct (Hrest) as (_ & <- & _).
      split_and!; eauto with roq.
    + destruct fuel; [lia|]. simpl in Hloop. rewrite decide_False in Hloop
        by (rewrite length_app; lia). injection Hloop as <- <- <-.
      replace (need - length acc - length bs) with 0 by lia.
      rewrite take_0, drop_0, app_nil_r, length_app. split_and!; [done..|lia].
Qed.

(** [io.ReadFull] returns the next [need] bytes, or all of them with an error. *)
Lemma io_ReadFull_spec need r got err r' :
  rd_wf r → io_ReadFull need r = (got, err, r') →
  got = take need (rd_data r) ∧ rd_rest r (drop need (rd_data r)) r' ∧
  err = if decide (need ≤ length (rd_data r)) then None
        else Some (short_read_error (rd_data r) (rd_err r)).
Proof.
  unfold io_ReadFull, short_read_error. intros Hwf.
  destruct (ReadAtLeast_loop _ _ _ _) as [[g e] r1] eqn:Hloop.
  apply ReadAtLeast_loop_spec in Hloop as (-> & Hr & Herr); [|auto|simpl; lia..].
  simpl in *. rewrite Nat.sub_0_r, length_take in *.
  case_decide as Hn; [intros [= <- <- <-]; rewrite decide_True by lia; auto|].
  rewrite Herr, (decide_False (P := need ≤ _)), take_ge by lia.
  destruct (_ && _); intros [= <- <- <-]; auto.
Qed.

Lemma lr_Read_spec p l bs err l' :
  0 < p → rd_wf (lr_R l) → (0 ≤ lr_N l)%Z → lr_Read p l = (bs, err, l') →
  rd_data (lr_R l) = bs ++ rd_data (lr_R l') ∧
  rd_rest (lr_R l) (rd_data (lr_R l')) (lr_R l') ∧
  lr_N l' = (lr_N l - Z.of_nat (length bs))%Z ∧ (0 ≤ lr_N l')%Z ∧
  match err with
  | Some e => (lr_N l' = 0%Z ∧ e = EOF) ∨
              (e = rd_err (lr_R l) ∧ rd_data (lr_R l') = [] ∧
               (e = EOF ∨ (bs = [] ∧ (0 < lr_N l)%Z)))
  | None => length (rd_data (lr_R l')) + length (rd_chunks (lr_R l')) <
            length (rd_data (lr_R l)) + length (rd_chunks (lr_R l))
  end.
Proof.
  unfold lr_Read. intros Hp Hwf HN. case_decide as H0.
  { intros [= <- <- <-]. simpl. split_and!; auto with roq; [lia|]. left. split; [lia|done]. }
  destruct (rd_Read _ _) as [[g e] r1] eqn:Hrd.
  apply rd_Read_spec in Hrd as (Hlen & Hd & Hrest & He); [|done].
  intros [= <- <- <-]; simpl. split_and!; try done; [lia|].
  destruct e as [e|]; [intuition auto with roq|]. rewrite Hd, length_app. lia.
Qed.

Lemma ReadFrom_loop_spec fuel acc l got err l' :
  rd_wf (lr_R l) → (0 ≤ lr_N l)%Z →
  length (rd_data (lr_R l)) + length (rd_chunks (lr_R l)) < fuel →
  ReadFrom_loop fuel acc l = (got, err, l') →
  got = acc ++ take (Z.to_nat (lr_N l)) (rd_data (lr_R l)) ∧
  rd_rest (lr_R l) (drop (Z.to_nat (lr_N l)) (rd_data (lr_R l))) (lr_R l') ∧
  err = if decide (lr_N l ≤ Z.of_nat (length (rd_data (lr_R l))))%Z then None
        else if is_EOF (rd_err (lr_R l)) then None else Some (rd_err (lr_R l)).
Proof.
  revert acc l. induction fuel as [|fuel IH]; intros acc l Hwf HN Hfuel; [lia|].
  simpl. destruct (lr_Read _ l) as [[bs e] l1] eqn:Hrd.
  apply lr_Read_spec in Hrd as (Hd & Hrest & HN1 & HN1' & He); [|unfold bytes_MinRead; lia|done..].
  assert (rd_wf (lr_R l1) ∧ rd_err (lr_R l1) = rd_err (lr_R l)) as [Hwf1 Herr1]
    by (destruct Hrest as (? & ? & ?); done).
  rewrite Hd, take_app_ge, drop_app_ge, length_app by lia.
  replace (Z.to_nat (lr_N l) - length bs) with (Z.to_nat (lr_N l1)) by lia.
  destruct e as [e|].
  - intros Heq. destruct He as [[HN0 ->]|(-> & Hnil & Hbs)].
    + simpl in Heq. injection Heq as <- <- <-. rewrite HN0, take_0, drop_0, app_nil_r.
      rewrite decide_True by lia. auto.
    + rewrite Hnil in *. rewrite take_nil, drop_nil, app_nil_r. simpl.
      destruct (is_EOF _) eqn:E; injection Heq as <- <- <-.
      * case_decide; auto.
      * destruct Hbs as [Hbs|[-> HN0]]; [by rewrite Hbs in E|].
        rewrite decide_False by (simpl; lia). auto.
  - intros Hloop. apply IH in Hloop as (-> & Hr & ->); [|auto|auto|lia].
    rewrite <- app_assoc, Herr1. split_and!; [done|eauto with roq|].
    do 2 case_decide; try done; lia.
Qed.

(** [ReadFrom] of a reader limited to [N] bytes appends the next [N] bytes, or
    as many as there are: running into [io.EOF] early is not an error. *)
Lemma Buffer_ReadFrom_spec r N got err l' :
  rd_wf r → (0 ≤ N)%Z → Buffer_ReadFrom (mkLimited r N) = (got, err, l') →
  got = take (Z.to_nat N) (rd_data r) ∧
  rd_rest r (drop (Z.to_nat N) (rd_data r)) (lr_R l') ∧
  err = if decide (N ≤ Z.of_nat (length (rd_data r)))%Z then None
        else if is_EOF (rd_err r) then None else Some (rd_err r).
Proof. intros Hwf HN H. apply ReadFrom_loop_spec in H; simpl in *; auto with roq. Qed.
