(* ===== verification/Varint.v ===== *)
(** * QUIC variable-length integers: the interface of quic-go's quicvarint

    The library calls the package quicvarint of quic-go, which is not part of
    this repository: [QuicVarint] is its interface and [QuicVarintLaws] what
    RFC 9000, Section 16, and the package's documentation promise of it. All
    theorems about the library are proved against the interface.

    Module [RFC9000] is an implementation of Section 16 that satisfies the laws;
    the concrete runs of the library's code use it. *)

From S2P Require Import Prelude GoErrors IO.

Local Open Scope Z_scope.

(** Values are encoded in 1, 2, 4 or 8 bytes and are less than [2^62]. *)
Definition varint_ok (v : Z) : Prop := 0 ≤ v < 2 ^ 62.

(** The two most significant bits of the first byte give the length. *)
Definition varint_size (first : byte) : nat :=
  Z.to_nat (Z.shiftl 1 (Z.shiftr (byte_val first) 6)).

Class QuicVarint := {
  quicvarint_Len : Z → outcome nat;
  quicvarint_Append : list byte → Z → outcome (list byte);
  quicvarint_Parse : list byte → (Z * nat) + goerror;
  quicvarint_Read : reader → (Z + goerror) * reader;
  quicvarint_ReadByte : reader → (byte + goerror) * reader
}.

Class QuicVarintLaws `{!QuicVarint} : Prop := {
  (* Append writes an encoding of v, of length Len(v), which Parse reads back,
     whatever follows it; a value of more than 62 bits panics *)
  Append_ok v : varint_ok v → ∃ e, (∀ b, quicvarint_Append b v = Ret (b ++ e)) ∧
    quicvarint_Len v = Ret (length e) ∧
    (∀ rest, quicvarint_Parse (e ++ rest) = inl (v, length e));
  Append_panics b v : 2 ^ 62 ≤ v < 2 ^ 64 →
    quicvarint_Append b v = Panic PanicVarintRange;
  Len_panics v : 2 ^ 62 ≤ v < 2 ^ 64 → quicvarint_Len v = Panic PanicVarintRange;
  (* Parse consumes as many bytes as the first one says, and fails only if there
     are fewer *)
  Parse_nil : ∃ e, quicvarint_Parse [] = inr e;
  Parse_short b d : (length (b :: d) < varint_size b)%nat →
    ∃ e, quicvarint_Parse (b :: d) = inr e;
  Parse_long b d : (varint_size b ≤ length (b :: d))%nat →
    ∃ v, varint_ok v ∧ quicvarint_Parse (b :: d) = inl (v, varint_size b) ∧
      quicvarint_Parse (take (varint_size b) (b :: d)) = inl (v, varint_size b);
  (* Len is the least number of bytes that encode the value; an encoding may be
     longer than that *)
  Len_least d v n : quicvarint_Parse d = inl (v, n) →
    ∃ k, quicvarint_Len v = Ret k ∧ (k ≤ n)%nat;
  (* the ByteReader of NewReader reads the next byte and nothing ahead of it *)
  ReadByte_ok r res r' : rd_wf r → quicvarint_ReadByte r = (res, r') →
    match rd_data r with
    | [] => res = inr (rd_err r) ∧ rd_rest r [] r'
    | b :: d => res = inl b ∧ rd_rest r d r'
    end;
  (* Read reads the encoding of a varint off a ByteReader, and no more *)
  Read_ok r res r' : rd_wf r → quicvarint_Read r = (res, r') →
    match quicvarint_Parse (rd_data r) with
    | inl (v, n) => res = inl v ∧ rd_rest r (drop n (rd_data r)) r'
    | inr _ => ∃ e, res = inr e
    end
}.

(** ** Consequences of the laws *)

Lemma varint_size_cases b :
  (byte_val b < 64 ∧ varint_size b = 1%nat) ∨
  (64 ≤ byte_val b < 128 ∧ varint_size b = 2%nat) ∨
  (128 ≤ byte_val b < 192 ∧ varint_size b = 4%nat) ∨
  (192 ≤ byte_val b ∧ varint_size b = 8%nat).
Proof.
  pose proof (byte_val_range b) as Hb. unfold varint_size.
  rewrite Z.shiftl_1_l, Z.shiftr_div_pow2 by lia.
  assert (byte_val b / 2 ^ 6 = 0 ∧ byte_val b < 64 ∨
    byte_val b / 2 ^ 6 = 1 ∧ 64 ≤ byte_val b < 128 ∨
    byte_val b / 2 ^ 6 = 2 ∧ 128 ≤ byte_val b < 192 ∨
    byte_val b / 2 ^ 6 = 3 ∧ 192 ≤ byte_val b) as Hd
    by (change (2 ^ 6) with 64; Z.to_euclidean_division_equations; lia).
  destruct Hd as [[-> ?]|[[-> ?]|[[-> ?]|[-> ?]]]]; auto.
Qed.

Lemma varint_size_pos b : (0 < varint_size b ≤ 8)%nat.
Proof. pose proof (varint_size_cases b). lia. Qed.

Section laws.
Context `{QuicVarintLaws}.

Lemma Len_ok v n : quicvarint_Len v = Ret n → varint_ok v →
  ∃ e, length e = n ∧ (∀ b, quicvarint_Append b v = Ret (b ++ e)) ∧
    (∀ rest, quicvarint_Parse (e ++ rest) = inl (v, n)).
Proof.
  intros Hn (e & He & Hl & Hp)%Append_ok. rewrite Hl in Hn. injection Hn as <-. eauto.
Qed.

(** A successful parse names the first byte and determines the length. *)
Lemma Parse_inv d v n : quicvarint_Parse d = inl (v, n) →
  ∃ b d', d = b :: d' ∧ n = varint_size b ∧ (n ≤ length d)%nat ∧ varint_ok v ∧
    quicvarint_Parse (take n d) = inl (v, n).
Proof.
  intros Hp. destruct d as [|b d'].
  { destruct Parse_nil as [e He]. congruence. }
  destruct (decide (varint_size b ≤ length (b :: d'))%nat) as [Hl|Hl].
  - destruct (Parse_long _ _ Hl) as (v' & Hv & Hp' & Ht). rewrite Hp in Hp'.
    injection Hp' as <- ->. eauto 10.
  - destruct (Parse_short b d') as [e He]; [lia|congruence].
Qed.

Lemma Parse_inr d e : quicvarint_Parse d = inr e →
  d = [] ∨ ∃ b d', d = b :: d' ∧ (length d < varint_size b)%nat.
Proof.
  destruct d as [|b d']; [auto|]. intros Hp. right. exists b, d'. split; [done|].
  destruct (decide (varint_size b ≤ length (b :: d'))%nat) as [Hl|]; [|lia].
  destruct (Parse_long _ _ Hl) as (v' & _ & Hp' & _). congruence.
Qed.

(** Parsing does not depend on what follows the encoding. *)
Lemma Parse_app d v n rest : quicvarint_Parse d = inl (v, n) →
  quicvarint_Parse (take n d ++ rest) = inl (v, n).
Proof.
  intros (b & d' & -> & -> & Hl & Hv & Ht)%Parse_inv.
  pose proof (varint_size_pos b).
  destruct (varint_size b) as [|n] eqn:Hn; [lia|]. simpl in *.
  destruct (Parse_long b (take n d' ++ rest)) as (v' & _ & Hp & Ht').
  { simpl. rewrite length_app, length_take. lia. }
  rewrite Hn in *. simpl in Ht'. rewrite take_app_le, take_take in Ht'
    by (rewrite length_take; lia).
  rewrite Nat.min_id in Ht'. congruence.
Qed.
End laws.

(** ** An implementation of RFC 9000, Section 16 *)

Module RFC9000.
(** The [n] least significant bytes of [w], most significant first. *)
Fixpoint be_bytes (n : nat) (w : Z) : list byte :=
  match n with
  | O => []
  | S n => byte_of (Z.shiftr w (8 * Z.of_nat n)) :: be_bytes n w
  end.

Definition be_val (bs : list byte) : Z :=
  foldl (λ acc b, Z.lor (Z.shiftl acc 8) (byte_val b)) 0 bs.

(** The two length bits and the number of bytes of an encoding. *)
Definition form (v : Z) : option (Z * nat) :=
  if decide (v < 2 ^ 6) then Some (0, 1%nat)
  else if decide (v < 2 ^ 14) then Some (1, 2%nat)
  else if decide (v < 2 ^ 30) then Some (2, 4%nat)
  else if decide (v < 2 ^ 62) then Some (3, 8%nat)
  else None.

Definition Len (v : Z) : outcome nat :=
  match form v with
  | Some (_, n) => Ret n
  | None => Panic PanicVarintRange
  end.

Definition Append (b : list byte) (v : Z) : outcome (list byte) :=
  match form v with
  | Some (k, n) => Ret (b ++ be_bytes n (Z.lor v (Z.shiftl k (8 * Z.of_nat n - 2))))
  | None => Panic PanicVarintRange
  end.

Definition Parse (d : list byte) : (Z * nat) + goerror :=
  match d with
  | [] => inr EOF
  | first :: _ =>
      let n := varint_size first in
      if decide (length d < n)%nat then inr ErrUnexpectedEOF
      else inl (be_val (take n d) mod 2 ^ (8 * Z.of_nat n - 2), n)
  end.

Definition ReadByte (r : reader) : (byte + goerror) * reader :=
  let '(got, err, r') := io_ReadFull 1 r in
  match got with
  | b :: _ => (inl b, r')
  | [] => (inr (default EOF err), r')
  end.

Definition Read (r : reader) : (Z + goerror) * reader :=
  match ReadByte r with
  | (inr e, r') => (inr e, r')
  | (inl first, r1) =>
      let '(got, err, r2) := io_ReadFull (varint_size first - 1) r1 in
      match err, Parse (first :: got) with
      | Some e, _ | _, inr e => (inr e, r2)
      | None, inl (v, _) => (inl v, r2)
      end
  end.

#[global] Instance rfc9000 : QuicVarint := {|
  quicvarint_Len := Len; quicvarint_Append := Append; quicvarint_Parse := Parse;
  quicvarint_Read := Read; quicvarint_ReadByte := ReadByte |}.

Lemma length_be_bytes n w : length (be_bytes n w) = n.
Proof. induction n; simpl; auto. Qed.

Lemma lor_shiftl x y k : 0 ≤ k → 0 ≤ y < 2 ^ k → Z.lor y (Z.shiftl x k) = x * 2 ^ k + y.
Proof.
  intros Hk Hy. rewrite Z.shiftl_mul_pow2 by done.
  assert (Z.land (x * 2 ^ k) y = 0) as Hland.
  { apply Z.bits_inj'. intros n Hn. rewrite Z.land_spec, Z.bits_0.
    destruct (decide (n < k)); [by rewrite Z.mul_pow2_bits_low|].
    rewrite <- (Z.mod_small y (2 ^ k)), Z.mod_pow2_bits_high, andb_false_r by lia. done. }
  rewrite Z.lor_comm, <- Z.lxor_lor, <- Z.add_nocarry_lxor by done. done.
Qed.

Lemma foldl_be_bytes n w acc : 0 ≤ w →
  foldl (λ acc b, Z.lor (Z.shiftl acc 8) (byte_val b)) acc (be_bytes n w) =
  acc * 2 ^ (8 * Z.of_nat n) + w mod 2 ^ (8 * Z.of_nat n).
Proof.
  intros Hw. revert acc. induction n as [|n IH]; intros acc; simpl be_bytes.
  { simpl. rewrite Z.mod_1_r. lia. }
  simpl foldl. rewrite IH, byte_val_of, Z.lor_comm, lor_shiftl
    by (try apply Z.mod_pos_bound; lia).
  rewrite Z.shiftr_div_pow2 by lia.
  replace (8 * Z.of_nat (S n)) with (8 * Z.of_nat n + 8) by lia.
  rewrite Z.pow_add_r, (Z.rem_mul_r w) by lia. change (2 ^ 8) with 256. lia.
Qed.

Lemma be_val_bytes n w : 0 ≤ w < 2 ^ (8 * Z.of_nat n) → be_val (be_bytes n w) = w.
Proof.
  intros Hw. unfold be_val. rewrite foldl_be_bytes by lia. rewrite Z.mod_small; lia.
Qed.

(** The encoding [form] chooses fits the value and announces its own length. *)
Lemma form_ok v : varint_ok v → ∃ k n,
  form v = Some (k, n) ∧ (0 < n)%nat ∧ 0 ≤ v < 2 ^ (8 * Z.of_nat n - 2) ∧
  0 ≤ k < 4 ∧ Z.of_nat n = 2 ^ k.
Proof.
  unfold varint_ok, form. intros Hv.
  repeat case_decide; [do 2 eexists; (split; [reflexivity|]); simpl; lia..|lia].
Qed.

Lemma be_bytes_head k n v d :
  (0 < n)%nat → 0 ≤ v < 2 ^ (8 * Z.of_nat n - 2) → 0 ≤ k < 4 → Z.of_nat n = 2 ^ k →
  be_bytes n (Z.lor v (Z.shiftl k (8 * Z.of_nat n - 2))) = d →
  ∃ b d', d = b :: d' ∧ varint_size b = n.
Proof.
  intros Hn Hv Hk Hnk <-. destruct n as [|n]; [lia|]. simpl. eexists _, _; split; [done|].
  unfold varint_size. rewrite byte_val_of, lor_shiftl, !Z.shiftr_div_pow2 by lia.
  replace (8 * Z.of_nat (S n) - 2) with (8 * Z.of_nat n + 6) in * by lia.
  rewrite Z.pow_add_r in * by lia. set (p := 2 ^ (8 * Z.of_nat n)) in *.
  assert (0 < p) by (apply Z.pow_pos_nonneg; lia).
  assert ((k * (p * 2 ^ 6) + v) / p = 64 * k + v / p) as ->.
  { replace (k * (p * 2 ^ 6) + v) with (v + (64 * k) * p) by lia.
    rewrite Z.div_add by lia. lia. }
  assert (0 ≤ v / p < 64) as Hvp.
  { split; [apply Z.div_pos; lia|]. apply Z.div_lt_upper_bound; lia. }
  rewrite Z.mod_small by lia.
  replace ((64 * k + v / p) / 2 ^ 6) with k
    by (change (2 ^ 6) with 64; Z.to_euclidean_division_equations; lia).
  rewrite Z.shiftl_1_l. lia.
Qed.

Lemma Append_spec v : varint_ok v → ∃ e, (∀ b, Append b v = Ret (b ++ e)) ∧
  Len v = Ret (length e) ∧ (∀ rest, Parse (e ++ rest) = inl (v, length e)).
Proof.
  intros (k & n & Hf & Hn & Hv & Hk & Hnk)%form_ok. unfold Append, Len. rewrite Hf.
  eexists; split; [done|]. rewrite length_be_bytes. split; [done|]. intros rest.
  set (w := Z.lor v _). destruct (be_bytes_head k n v _ Hn Hv Hk Hnk eq_refl) as (b & d' & Hd & Hb).
  assert (length (be_bytes n w) = n) as Hl by apply length_be_bytes.
  assert (Parse (be_bytes n w ++ rest) =
    inl (be_val (be_bytes n w) mod 2 ^ (8 * Z.of_nat n - 2), n)) as ->.
  { unfold w in *. unfold Parse. rewrite Hd in *. simpl app. cbv iota.
    rewrite Hb, decide_False by (simpl in *; rewrite length_app; lia).
    by rewrite app_comm_cons, take_app_length' by done. }
  unfold w. do 2 f_equal. rewrite lor_shiftl by lia. rewrite be_val_bytes.
  - rewrite Z.add_comm, Z.mod_add, Z.mod_small by lia. done.
  - assert (2 ^ (8 * Z.of_nat n) = 4 * 2 ^ (8 * Z.of_nat n - 2)) as ->; [|nia].
    rewrite <- (Z.pow_add_r 2 2) by lia. f_equal. lia.
Qed.

Lemma ReadByte_spec r res r' : rd_wf r → ReadByte r = (res, r') →
  match rd_data r with
  | [] => res = inr (rd_err r) ∧ rd_rest r [] r'
  | b :: d => res = inl b ∧ rd_rest r d r'
  end.
Proof.
  intros Hwf. unfold ReadByte. destruct (io_ReadFull 1 r) as [[got err] r1] eqn:Hr.
  apply io_ReadFull_spec in Hr as (-> & Hr & ->); [|done].
  destruct (rd_data r) as [|b d]; simpl in *; intros [= <- <-]; split; auto.
  unfold short_read_error. by rewrite andb_false_r.
Qed.

Lemma rfc_Read_spec r res r' : rd_wf r → Read r = (res, r') →
  match Parse (rd_data r) with
  | inl (v, n) => res = inl v ∧ rd_rest r (drop n (rd_data r)) r'
  | inr _ => ∃ e, res = inr e
  end.
Proof.
  intros Hwf. unfold Read. destruct (ReadByte r) as [[b|e] r1] eqn:Hb;
    apply ReadByte_spec in Hb; [|done| |done]; destruct (rd_data r) as [|b0 d];
    destruct Hb as [Hb Hr1]; try discriminate Hb.
  2:{ intros [= <- <-]. simpl. eauto. }
  injection Hb as <-. destruct (io_ReadFull _ r1) as [[got err] r2] eqn:Hf.
  apply io_ReadFull_spec in Hf as (-> & Hr2 & ->); [|apply Hr1].
  destruct Hr1 as (Hd1 & He1 & Hw1). rewrite Hd1 in *.
  pose proof (varint_size_pos b). unfold Parse.
  assert (length (b :: take (varint_size b - 1) d) = S ((varint_size b - 1) `min` length d)) as Hl
    by (simpl; by rewrite length_take).
  rewrite Hl. simpl length. repeat case_decide; try lia; intros [= <- <-]; eauto.
  destruct (varint_size b) as [|n]; [lia|]. simpl in *. rewrite Nat.sub_0_r in *.
  rewrite take_take, Nat.min_id. split; [done|].
  destruct Hr2 as (? & ? & ?). split_and!; [done|congruence|done].
Qed.

Lemma Len_least_spec d v n : Parse d = inl (v, n) → ∃ k, Len v = Ret k ∧ (k ≤ n)%nat.
Proof.
  unfold Parse. destruct d as [|b d]; [done|]. case_decide; [done|]. intros [= <- <-].
  unfold Len, form. set (w := be_val _).
  assert (2 ^ (8 * Z.of_nat (varint_size b) - 2) > 0) as Hpos
    by (destruct (varint_size_cases b) as [[_ ->]|[[_ ->]|[[_ ->]|[_ ->]]]]; done).
  pose proof (Z_mod_lt w _ Hpos) as Hw. revert Hw.
  destruct (varint_size_cases b) as [[_ ->]|[[_ ->]|[[_ ->]|[_ ->]]]]; simpl Z.of_nat;
    intros Hw; repeat case_decide; try (eexists; split; [done|lia]); exfalso; simpl in *; lia.
Qed.

#[global] Instance rfc9000_laws : QuicVarintLaws.
Proof.
  split; simpl.
  - apply Append_spec.
  - intros b v Hv. unfold Append, form. repeat case_decide; done || lia.
  - intros v Hv. unfold Len, form. repeat case_decide; done || lia.
  - eauto.
  - intros b d Hl. rewrite decide_True by done. eauto.
  - intros b d Hl. rewrite decide_False by lia. pose proof (varint_size_pos b).
    eexists; split_and!; [|done|].
    + unfold varint_ok. destruct (varint_size_cases b) as [[_ ->]|[[_ ->]|[[_ ->]|[_ ->]]]];
        simpl; match goal with |- context [?x mod ?y] =>
          pose proof (Z.mod_pos_bound x y eq_refl) end; lia.
    + destruct (varint_size b) as [|n] eqn:Hn; [lia|]. simpl in *.
      rewrite Hn, decide_False by (simpl; rewrite length_take; lia).
      simpl. by rewrite take_take, Nat.min_id.
  - apply Len_least_spec.
  - apply ReadByte_spec.
  - apply rfc_Read_spec.
Qed.
End RFC9000.
