(* ===== verification/QlogEvent.v ===== *)
(** * qlog/event.go: the RoQ qlog events and their JSON encoding

    An event is written token by token to a [jsontext.Encoder] of quic-go, which
    is a parameter here ([JsonEncoder]): any state with a [WriteToken] that may
    fail. [encoderHelper] remembers the first error and drops later tokens; the
    [encode] functions below are the methods of the same names.

    The reference is [event_json], the JSON object an event stands for, and
    [tokens], the token sequence of a JSON value. *)

From Stdlib Require Import Ascii.
From S2P Require Import Prelude GoErrors.

Local Open Scope Z_scope.
Local Open Scope string_scope.

(** ** Data *)

Definition EventSchema : string := "urn:ietf:params:qlog:events:roq-01".

Record RawInfo := mkRawInfo {
  ri_Length : Z;
  ri_PayloadLength : Z;
  ri_Data : list byte
}.

Record Packet := mkPacket {
  pk_FlowID : Z;
  pk_Length : Z;
  pk_Raw : RawInfo
}.

Inductive Event :=
  | StreamOpened (FlowID StreamID : Z)
  | StreamPacketCreated (StreamID : Z) (packet : Packet)
  | StreamPacketParsed (StreamID : Z) (packet : Packet)
  | DatagramPacketCreated (packet : Packet)
  | DatagramPacketParsed (packet : Packet).

Definition Name (e : Event) : string :=
  match e with
  | StreamOpened _ _ => "roq:stream_opened"
  | StreamPacketCreated _ _ => "roq:stream_packet_created"
  | StreamPacketParsed _ _ => "roq:stream_packet_parsed"
  | DatagramPacketCreated _ => "roq:datagram_packet_created"
  | DatagramPacketParsed _ => "roq:datagram_packet_parsed"
  end.

(** ** hex.EncodeToString *)

Definition hex_digit (z : Z) : ascii :=
  ascii_of_nat (Z.to_nat (if decide (z < 10) then 48 + z else 87 + z)).

Fixpoint hex_EncodeToString (bs : list byte) : string :=
  match bs with
  | [] => ""
  | b :: bs' =>
      String (hex_digit (Z.shiftr (byte_val b) 4))
        (String (hex_digit (Z.land (byte_val b) 15)) (hex_EncodeToString bs'))
  end.

(** ** The encoder *)

Inductive Token :=
  | BeginObject
  | EndObject
  | TString (s : string)
  | TUint (n : Z).

Class JsonEncoder (E : Type) := WriteToken : Token → E → option goerror * E.

Section encode.
Context {E : Type} `{!JsonEncoder E}.

Record encoderHelper := mkHelper { h_enc : E; h_err : option goerror }.

Definition helper_WriteToken (t : Token) (h : encoderHelper) : encoderHelper :=
  match h_err h with
  | Some _ => h
  | None => let '(err, enc) := WriteToken t (h_enc h) in mkHelper enc err
  end.

(** [if h.err == nil { h.err = encode(enc) }] *)
Definition helper_nested (encode : E → option goerror * E) (h : encoderHelper)
    : encoderHelper :=
  match h_err h with
  | Some _ => h
  | None => let '(err, enc) := encode (h_enc h) in mkHelper enc err
  end.

Definition helper_return (h : encoderHelper) : option goerror * E := (h_err h, h_enc h).

Definition RawInfo_HasValues (i : RawInfo) : bool :=
  bool_decide (ri_Length i ≠ 0) || bool_decide (ri_PayloadLength i ≠ 0)
  || bool_decide (0 < length (ri_Data i))%nat.

Definition RawInfo_encode (i : RawInfo) (enc : E) : option goerror * E :=
  let h := mkHelper enc None in
  let h := helper_WriteToken BeginObject h in
  let h := if bool_decide (ri_Length i ≠ 0) then
             let h := helper_WriteToken (TString "length") h in
             helper_WriteToken (TUint (ri_Length i)) h
           else h in
  let h := if bool_decide (ri_PayloadLength i ≠ 0) then
             let h := helper_WriteToken (TString "payload_length") h in
             helper_WriteToken (TUint (ri_PayloadLength i)) h
           else h in
  let h := if bool_decide (0 < length (ri_Data i))%nat then
             let h := helper_WriteToken (TString "data") h in
             helper_WriteToken (TString (hex_EncodeToString (ri_Data i))) h
           else h in
  let h := helper_WriteToken EndObject h in
  helper_return h.

Definition Packet_encode (p : Packet) (enc : E) : option goerror * E :=
  let h := mkHelper enc None in
  let h := helper_WriteToken BeginObject h in
  let h := helper_WriteToken (TString "flow_id") h in
  let h := helper_WriteToken (TUint (pk_FlowID p)) h in
  let h := helper_WriteToken (TString "length") h in
  let h := helper_WriteToken (TUint (pk_Length p)) h in
  let h := if RawInfo_HasValues (pk_Raw p) then
             let h := helper_WriteToken (TString "raw") h in
             helper_nested (RawInfo_encode (pk_Raw p)) h
           else h in
  let h := helper_WriteToken EndObject h in
  helper_return h.

Definition encodeStreamOpened (flowID streamID : Z) (enc : E) : option goerror * E :=
  let h := mkHelper enc None in
  let h := helper_WriteToken BeginObject h in
  let h := helper_WriteToken (TString "flow_id") h in
  let h := helper_WriteToken (TUint flowID) h in
  let h := helper_WriteToken (TString "stream_id") h in
  let h := helper_WriteToken (TUint streamID) h in
  let h := helper_WriteToken EndObject h in
  helper_return h.

Definition encodeStreamPacket (streamID : Z) (packet : Packet) (enc : E)
    : option goerror * E :=
  let h := mkHelper enc None in
  let h := helper_WriteToken BeginObject h in
  let h := helper_WriteToken (TString "stream_id") h in
  let h := helper_WriteToken (TUint streamID) h in
  let h := helper_WriteToken (TString "packet") h in
  let h := helper_nested (Packet_encode packet) h in
  let h := helper_WriteToken EndObject h in
  helper_return h.

Definition encodeDatagramPacket (packet : Packet) (enc : E) : option goerror * E :=
  let h := mkHelper enc None in
  let h := helper_WriteToken BeginObject h in
  let h := helper_WriteToken (TString "packet") h in
  let h := helper_nested (Packet_encode packet) h in
  let h := helper_WriteToken EndObject h in
  helper_return h.

(** The [Encode] method of each event type. *)
Definition Encode (e : Event) (enc : E) : option goerror * E :=
  match e with
  | StreamOpened flowID streamID => encodeStreamOpened flowID streamID enc
  | StreamPacketCreated streamID packet => encodeStreamPacket streamID packet enc
  | StreamPacketParsed streamID packet => encodeStreamPacket streamID packet enc
  | DatagramPacketCreated packet => encodeDatagramPacket packet enc
  | DatagramPacketParsed packet => encodeDatagramPacket packet enc
  end.
End encode.
Arguments encoderHelper : clear implicits.

(** ** Reference: the JSON object of an event *)

Inductive json :=
  | JString (s : string)
  | JUint (n : Z)
  | JObject (fields : list (string * json)).

Fixpoint tokens (j : json) : list Token :=
  match j with
  | JString s => [TString s]
  | JUint n => [TUint n]
  | JObject fields =>
      BeginObject :: flat_map (λ '(k, v), TString k :: tokens v) fields ++ [EndObject]
  end.

(** A field that is omitted when it has no value. *)
Definition optional (present : bool) (k : string) (v : json) : list (string * json) :=
  if present then [(k, v)] else [].

Definition raw_json (i : RawInfo) : json :=
  JObject (optional (bool_decide (ri_Length i ≠ 0)) "length" (JUint (ri_Length i))
    ++ optional (bool_decide (ri_PayloadLength i ≠ 0)) "payload_length"
         (JUint (ri_PayloadLength i))
    ++ optional (bool_decide (0 < length (ri_Data i))%nat) "data"
         (JString (hex_EncodeToString (ri_Data i)))).

Definition packet_json (p : Packet) : json :=
  JObject ([("flow_id", JUint (pk_FlowID p)); ("length", JUint (pk_Length p))]
    ++ optional (RawInfo_HasValues (pk_Raw p)) "raw" (raw_json (pk_Raw p))).

Definition event_json (e : Event) : json :=
  match e with
  | StreamOpened flowID streamID =>
      JObject [("flow_id", JUint flowID); ("stream_id", JUint streamID)]
  | StreamPacketCreated streamID p | StreamPacketParsed streamID p =>
      JObject [("stream_id", JUint streamID); ("packet", packet_json p)]
  | DatagramPacketCreated p | DatagramPacketParsed p =>
      JObject [("packet", packet_json p)]
  end.

(** Writes tokens up to the first one the encoder fails on. *)
Fixpoint feed {E} `{!JsonEncoder E} (ts : list Token) (enc : E) : option goerror * E :=
  match ts with
  | [] => (None, enc)
  | t :: ts => match WriteToken t enc with
               | (None, enc') => feed ts enc'
               | (Some err, enc') => (Some err, enc')
               end
  end.

(** ** The encode methods write the reference tokens *)

Section encode_correct.
Context {E : Type} `{!JsonEncoder E}.

(** A run of helper writes. *)
Definition helper_feed (ts : list Token) (h : encoderHelper E) : encoderHelper E :=
  foldl (λ h t, helper_WriteToken t h) h ts.

Lemma helper_feed_err ts h err : h_err h = Some err → helper_feed ts h = h.
Proof.
  intros He. induction ts as [|t ts IH]; simpl; [done|].
  assert (helper_WriteToken t h = h) as -> by (unfold helper_WriteToken; by rewrite He). done.
Qed.

Lemma helper_feed_app ts1 ts2 h :
  helper_feed (ts1 ++ ts2) h = helper_feed ts2 (helper_feed ts1 h).
Proof. apply foldl_app. Qed.

Lemma helper_feed_cons t ts h :
  helper_feed (t :: ts) h = helper_feed ts (helper_WriteToken t h).
Proof. done. Qed.

Lemma helper_feed_feed ts enc :
  helper_return (helper_feed ts (mkHelper enc None)) = feed ts enc.
Proof.
  revert enc. induction ts as [|t ts IH]; intros enc; simpl; [done|].
  unfold helper_WriteToken; simpl. destruct (WriteToken t enc) as [[err|] enc'].
  - by erewrite helper_feed_err.
  - apply IH.
Qed.

Lemma helper_nested_feed ts h : helper_nested (feed ts) h = helper_feed ts h.
Proof.
  destruct h as [enc [err|]]; unfold helper_nested; simpl.
  - by erewrite helper_feed_err.
  - rewrite <- helper_feed_feed. unfold helper_return.
    by destruct (helper_feed ts _).
Qed.

Lemma helper_nested_ext f g h : (∀ enc : E, f enc = g enc) → helper_nested f h = helper_nested g h.
Proof. intros Hfg. unfold helper_nested. by rewrite Hfg. Qed.

Lemma RawInfo_encode_feed i (enc : E) : RawInfo_encode i enc = feed (tokens (raw_json i)) enc.
Proof.
  unfold RawInfo_encode, raw_json, optional. rewrite <- helper_feed_feed.
  repeat case_match; reflexivity.
Qed.

Lemma Packet_encode_feed p (enc : E) : Packet_encode p enc = feed (tokens (packet_json p)) enc.
Proof.
  unfold Packet_encode, packet_json, optional. rewrite <- helper_feed_feed.
  case_match; [|reflexivity].
  rewrite (helper_nested_ext _ _ _ (RawInfo_encode_feed (pk_Raw p))), helper_nested_feed.
  generalize (raw_json (pk_Raw p)). intros j. f_equal. simpl tokens.
  rewrite app_nil_r, !helper_feed_cons, helper_feed_app. reflexivity.
Qed.

Lemma Encode_feed e (enc : E) : Encode e enc = feed (tokens (event_json e)) enc.
Proof.
  rewrite <- helper_feed_feed.
  destruct e as [flowID streamID|streamID packet|streamID packet|packet|packet]; [reflexivity|..];
    unfold Encode, encodeStreamPacket, encodeDatagramPacket; simpl event_json;
    rewrite (helper_nested_ext _ _ _ (Packet_encode_feed packet)), helper_nested_feed;
    generalize (packet_json packet); intros j; simpl tokens;
    rewrite app_nil_r, !helper_feed_cons, helper_feed_app; reflexivity.
Qed.
End encode_correct.

(** ** Reading an encoded event back *)

Section json_ind.
Context (P : json → Prop).
Context (HString : ∀ s, P (JString s)) (HUint : ∀ n, P (JUint n)).
Context (HObject : ∀ fields, Forall (λ kv, P kv.2) fields → P (JObject fields)).

Fixpoint json_nested_ind (j : json) : P j :=
  match j with
  | JString s => HString s
  | JUint n => HUint n
  | JObject fields => HObject fields
      ((fix go fields : Forall (λ kv, P kv.2) fields :=
         match fields with
         | [] => Forall_nil_2 _
         | kv :: fields' => Forall_cons_2 _ _ _ (json_nested_ind kv.2) (go fields')
         end) fields)
  end.
End json_ind.

(** A parser of token sequences. Each call consumes a token, so the number of
    tokens is enough fuel. *)
Fixpoint parse_json (fuel : nat) (ts : list Token) : option (json * list Token) :=
  match fuel, ts with
  | S fuel, TString s :: ts => Some (JString s, ts)
  | S fuel, TUint n :: ts => Some (JUint n, ts)
  | S fuel, BeginObject :: ts =>
      '(fields, ts) ← parse_fields fuel ts; Some (JObject fields, ts)
  | _, _ => None
  end
with parse_fields (fuel : nat) (ts : list Token) : option (list (string * json) * list Token) :=
  match fuel, ts with
  | S fuel, EndObject :: ts => Some ([], ts)
  | S fuel, TString k :: ts =>
      '(v, ts) ← parse_json fuel ts;
      '(fields, ts) ← parse_fields fuel ts; Some ((k, v) :: fields, ts)
  | _, _ => None
  end.

Definition unhex_digit (c : ascii) : option Z :=
  let n := Z.of_nat (nat_of_ascii c) in
  if decide (48 ≤ n < 58) then Some (n - 48)
  else if decide (97 ≤ n < 103) then Some (n - 87) else None.

Fixpoint unhex (s : string) : option (list byte) :=
  match s with
  | EmptyString => Some []
  | String hi (String lo s') =>
      hi ← unhex_digit hi; lo ← unhex_digit lo; bs ← unhex s'; Some (byte_of (16 * hi + lo) :: bs)
  | _ => None
  end.

Definition field (k : string) (j : json) : option json :=
  match j with
  | JObject fields => snd <$> List.find (λ kv, String.eqb k kv.1) fields
  | _ => None
  end.

Definition uint_or_zero (j : option json) : Z :=
  match j with Some (JUint n) => n | _ => 0 end.

Definition data_or_nil (j : option json) : list byte :=
  match j with Some (JString s) => default [] (unhex s) | _ => [] end.

Definition raw_of_json (j : option json) : RawInfo :=
  mkRawInfo (uint_or_zero (j ≫= field "length")) (uint_or_zero (j ≫= field "payload_length"))
    (data_or_nil (j ≫= field "data")).

Definition packet_of_json (j : option json) : Packet :=
  mkPacket (uint_or_zero (j ≫= field "flow_id")) (uint_or_zero (j ≫= field "length"))
    (raw_of_json (j ≫= field "raw")).

Definition event_of_json (name : string) (j : json) : option Event :=
  let streamID := uint_or_zero (field "stream_id" j) in
  let packet := packet_of_json (field "packet" j) in
  if String.eqb name "roq:stream_opened" then
    Some (StreamOpened (uint_or_zero (field "flow_id" j)) streamID)
  else if String.eqb name "roq:stream_packet_created" then Some (StreamPacketCreated streamID packet)
  else if String.eqb name "roq:stream_packet_parsed" then Some (StreamPacketParsed streamID packet)
  else if String.eqb name "roq:datagram_packet_created" then Some (DatagramPacketCreated packet)
  else if String.eqb name "roq:datagram_packet_parsed" then Some (DatagramPacketParsed packet)
  else None.

Definition decode_event (name : string) (ts : list Token) : option Event :=
  '(j, rest) ← parse_json (length ts) ts;
  match rest with [] => event_of_json name j | _ => None end.

Lemma unhex_hex_digit z : 0 ≤ z < 16 → unhex_digit (hex_digit z) = Some z.
Proof.
  intros Hz. unfold unhex_digit, hex_digit.
  rewrite nat_ascii_embedding by (case_decide; lia).
  repeat case_decide; f_equal; lia.
Qed.

Lemma unhex_hex bs : unhex (hex_EncodeToString bs) = Some bs.
Proof.
  induction bs as [|b bs IH]; [done|]. simpl.
  pose proof (byte_val_range b). change 15 with (Z.ones 4).
  rewrite Z.land_ones, Z.shiftr_div_pow2, !unhex_hex_digit, IH
    by (change (2 ^ 4) with 16; Z.to_euclidean_division_equations; lia).
  simpl. change (2 ^ 4) with 16. rewrite <- Z.div_mod by lia. by rewrite byte_of_val.
Qed.
#[local] Arguments unhex : simpl never.
#[local] Arguments hex_EncodeToString : simpl never.

Lemma parse_tokens j fuel rest :
  (length (tokens j) ≤ fuel)%nat → parse_json fuel (tokens j ++ rest) = Some (j, rest).
Proof.
  revert fuel rest. induction j as [s|n|fields IH] using json_nested_ind; intros fuel rest Hf;
    (destruct fuel as [|fuel]; [simpl in Hf; lia|]); simpl in *; [done..|].
  assert (∀ fuel rest, (length (flat_map (λ '(k, v), TString k :: tokens v) fields ++ [EndObject])
      ≤ fuel)%nat → parse_fields fuel
      ((flat_map (λ '(k, v), TString k :: tokens v) fields ++ [EndObject]) ++ rest)
      = Some (fields, rest)) as Hfields.
  { clear Hf fuel rest. induction IH as [|[k v] fields Hv _ IH]; intros [|fuel] rest Hf;
      simpl in *; try lia; [done|].
    rewrite !length_app in Hf.
    rewrite <- (app_assoc (tokens v)), <- (app_assoc (tokens v)), Hv by lia. simpl.
    rewrite IH; [done|rewrite length_app; lia]. }
  rewrite Hfields by lia. done.
Qed.

Lemma raw_of_raw_json i : raw_of_json (Some (raw_json i)) = i.
Proof.
  destruct i as [l pl d]. unfold raw_of_json, raw_json, optional. simpl.
  destruct (bool_decide_reflect (l ≠ 0)) as [|Hl], (bool_decide_reflect (pl ≠ 0)) as [|Hpl],
    (bool_decide_reflect (0 < length d)%nat) as [|Hd]; simpl; rewrite ?unhex_hex;
    f_equal; try (destruct d; simpl in *; done || lia); lia.
Qed.

Lemma packet_of_packet_json p : packet_of_json (Some (packet_json p)) = p.
Proof.
  destruct p as [f l i]. unfold packet_of_json, packet_json, optional. simpl.
  destruct (RawInfo_HasValues i) eqn:Hv; simpl; f_equal.
  - apply raw_of_raw_json.
  - destruct i as [l' pl d]. unfold RawInfo_HasValues in Hv. simpl in Hv.
    apply orb_false_iff in Hv as [[Hl Hpl]%orb_false_iff Hd].
    rewrite bool_decide_eq_false in Hl, Hpl, Hd.
    destruct d; simpl in *; [|lia]. unfold raw_of_json. simpl. f_equal; lia.
Qed.

Lemma event_of_event_json e : event_of_json (Name e) (event_json e) = Some e.
Proof.
  destruct e; simpl; unfold event_of_json; simpl; rewrite ?packet_of_packet_json; done.
Qed.

(** ** Properties *)

(** C34: [Encode] of every event writes exactly the tokens of its JSON object, in
    order, to whatever encoder it is given, stops at the first token the encoder
    rejects and returns that error: nothing is written after an error, nested
    objects included. *)
Theorem Encode_writes_event_json (E : Type) (enc_ops : JsonEncoder E) (e : Event) (enc : E) :
  Encode e enc = feed (tokens (event_json e)) enc.
Proof. apply Encode_feed. Qed.

(** An encoder that records tokens; it fails once it holds [limit] of them. *)
Record recorder := mkRecorder { limit : nat; recorded : list Token }.

#[global] Instance recorder_encoder : JsonEncoder recorder := λ t r,
  if decide (length (recorded r) < limit r)%nat
  then (None, mkRecorder (limit r) (recorded r ++ [t]))
  else (Some (EOther "write failed"), r).

Lemma feed_recorder ts r :
  (length (recorded r) + length ts ≤ limit r)%nat →
  feed ts r = (None, mkRecorder (limit r) (recorded r ++ ts)).
Proof.
  revert r. induction ts as [|t ts IH]; intros [l rec] Hl; simpl in *.
  - by rewrite app_nil_r.
  - unfold WriteToken, recorder_encoder; simpl. rewrite decide_True by lia.
    rewrite IH by (simpl; rewrite length_app; simpl; lia). simpl. by rewrite <- app_assoc.
Qed.

(** C35: encoding loses nothing. Decoding what [Encode] wrote, under the event's
    name, gives the event back: flow, stream and packet lengths, and the packet
    bytes through their hex form, although zero lengths, empty data and an empty
    raw object are left out of the JSON. *)
Theorem Encode_decode_roundtrip (e : Event) (n : nat)
    (Hn : (length (tokens (event_json e)) ≤ n)%nat) :
  ∃ r, Encode e (mkRecorder n []) = (None, r) ∧ decode_event (Name e) (recorded r) = Some e.
Proof.
  eexists. rewrite Encode_feed, feed_recorder by done. split; [done|]. simpl.
  unfold decode_event. rewrite <- (app_nil_r (tokens _)) at 2.
  rewrite parse_tokens by done. apply event_of_event_json.
Qed.

Lemma Encode_decode_roundtrip_witness :
  ∃ r, Encode (DatagramPacketParsed (mkPacket 1 5
      (mkRawInfo 5 4 (bytes [1; 222; 173; 190; 239]%Z)))) (mkRecorder 20 []) = (None, r) ∧
    decode_event "roq:datagram_packet_parsed" (recorded r) =
      Some (DatagramPacketParsed (mkPacket 1 5
        (mkRawInfo 5 4 (bytes [1; 222; 173; 190; 239]%Z)))).
Proof.
  apply (Encode_decode_roundtrip (DatagramPacketParsed (mkPacket 1 5
    (mkRawInfo 5 4 (bytes [1; 222; 173; 190; 239]%Z)))) 20).
  vm_compute. lia.
Defined.
