(* ===== verification/Qlogger.v ===== *)
(** * qlogger.go, and the effects the library has on its surroundings

    A [qlogger] hands events to a recorder of the qlog trace. What the receive
    side does to its surroundings is collected in a list of [effect]s, in
    order: recorded events, log records, and streams it cancels. *)

From S2P Require Import Prelude GoErrors QlogEvent.

Record qlogger := mkQlogger { logData : bool; dataLimit : Z }.

(** [rawData] copies the bytes to log, or none of them. *)
Definition rawData (q : qlogger) (b : list byte) : list byte :=
  if negb (logData q) then []
  else
    let b := if bool_decide (0 < dataLimit q)%Z && bool_decide (dataLimit q < Z.of_nat (length b))%Z
             then take (Z.to_nat (dataLimit q)) b else b in
    [] ++ b.

Inductive logLevel := Debug | Warn.

Inductive effect :=
  | ERecord (e : Event)                      (* q.recorder.RecordEvent(e) *)
  | ECloseRecorder                           (* q.recorder.Close() *)
  | ELog (level : logLevel) (msg : string)   (* logger.Debug, logger.Warn *)
  | ECancelRead (streamID : Z) (code : Z).   (* rs.CancelRead(code) *)

(** [if q != nil { q.record(e) }], where the event may depend on [q]. *)
Definition record (q : option qlogger) (e : qlogger → Event) : list effect :=
  match q with
  | Some q => [ERecord (e q)]
  | None => []
  end.

(** [if q != nil { q.close() }] *)
Definition close_qlog (q : option qlogger) : list effect :=
  match q with
  | Some _ => [ECloseRecorder]
  | None => []
  end.

(** The streams cancelled by a list of effects. *)
Definition cancelled (es : list effect) : list (Z * Z) :=
  omap (λ e, match e with ECancelRead s c => Some (s, c) | _ => None end) es.

Lemma cancelled_app es1 es2 : cancelled (es1 ++ es2) = cancelled es1 ++ cancelled es2.
Proof. apply omap_app. Qed.

Lemma rawData_prefix q b : rawData q b `prefix_of` b.
Proof.
  unfold rawData. destruct (negb _); [apply prefix_nil|]. destruct (_ && _); simpl.
  - exists (drop (Z.to_nat (dataLimit q)) b). by rewrite take_drop.
  - done.
Qed.

(** ** Properties *)

(** The packet bytes an event carries are a prefix of the wire image: nothing
    without packet data logging, the whole packet with limit zero, and otherwise
    exactly the first [dataLimit] bytes, or all of a shorter packet. *)
Theorem rawData_spec (q : qlogger) (b : list byte) (Hl : (0 ≤ dataLimit q)%Z) :
  rawData q b =
    if logData q then
      if decide (dataLimit q = 0)%Z then b else take (Z.to_nat (dataLimit q)) b
    else [].
Proof.
  unfold rawData. destruct (logData q); simpl; [|done].
  case_decide as H0; [by rewrite bool_decide_false by lia|].
  rewrite (bool_decide_true (0 < _)%Z) by lia. simpl.
  case_bool_decide; [done|]. rewrite take_ge by lia. done.
Qed.

Lemma rawData_spec_witness :
  rawData (mkQlogger true 2) (bytes [7; 8; 9]%Z) = bytes [7; 8]%Z.
Proof. rewrite rawData_spec by (simpl; lia). reflexivity. Defined.
