(* ===== verification/Options.v ===== *)
(** * options.go: the session configuration

    Options are functions on the configuration, as in the source; [None] in an
    option list is a nil option. *)

From S2P Require Import Prelude GoErrors.

Local Open Scope string_scope.
Local Open Scope Z_scope.

Definition defaultReceiveBufferSize : Z := 1024.
Definition defaultUnknownFlowBufferSize : Z := 16.

(** A [*slog.Logger]: the discarding one, or one the application passed in. *)
Inductive slogger := discardLogger | appLogger (id : Z).

(** A [qlogwriter.Trace] of quic-go: all that is asked of it is which event
    schemas it supports. *)
Record Trace := mkTrace { trace_id : Z; SupportsSchemas : string → bool }.

Record sessionConfig := mkConfig {
  receiveBufferSize : Z;
  unknownFlowBufferSize : Z;
  logger : slogger;
  qlogTrace : option Trace;
  qlogPacketData : bool;
  qlogPacketDataLimit : Z
}.

(** An option updates the configuration it is given and may fail. *)
Definition Option : Type := sessionConfig → sessionConfig * option goerror.

(** [fmt.Errorf("%w: ...", errInvalidOption)] *)
Definition invalidOption (msg : string) : goerror := EWrap msg errInvalidOption.

Definition defaultConfig : sessionConfig :=
  mkConfig defaultReceiveBufferSize defaultUnknownFlowBufferSize discardLogger None false 0.

Fixpoint applyOptions (opts : list (option Option)) (c : sessionConfig) : sessionConfig + goerror :=
  match opts with
  | [] => inl c
  | None :: _ => inr (invalidOption "option must not be nil")
  | Some opt :: opts' =>
      match opt c with
      | (_, Some err) => inr err
      | (c', None) => applyOptions opts' c'
      end
  end.

Definition newSessionConfig (opts : list (option Option)) : sessionConfig + goerror :=
  applyOptions opts defaultConfig.

Definition WithReceiveBufferSize (packets : Z) : Option := λ c,
  if decide (packets ≤ 0) then
    (c, Some (invalidOption ("receive buffer size must be greater than zero, got " +:+ pretty packets)))
  else (mkConfig packets (unknownFlowBufferSize c) (logger c) (qlogTrace c) (qlogPacketData c)
          (qlogPacketDataLimit c), None).

Definition WithUnknownFlowBufferSize (flows : Z) : Option := λ c,
  if decide (flows ≤ 0) then
    (c, Some (invalidOption ("unknown flow buffer size must be greater than zero, got " +:+ pretty flows)))
  else (mkConfig (receiveBufferSize c) flows (logger c) (qlogTrace c) (qlogPacketData c)
          (qlogPacketDataLimit c), None).

Definition WithQlogTrace (t : option Trace) : Option := λ c,
  (mkConfig (receiveBufferSize c) (unknownFlowBufferSize c) (logger c) t (qlogPacketData c)
     (qlogPacketDataLimit c), None).

Definition WithQlogPacketData (maxBytes : Z) : Option := λ c,
  if decide (maxBytes < 0) then
    (c, Some (invalidOption ("qlog packet data limit must not be negative, got " +:+ pretty maxBytes)))
  else (mkConfig (receiveBufferSize c) (unknownFlowBufferSize c) (logger c) (qlogTrace c) true
          maxBytes, None).

(** A nil logger is [None]. *)
Definition WithLogger (l : option slogger) : Option := λ c,
  match l with
  | None => (c, Some (invalidOption "logger must not be nil"))
  | Some l => (mkConfig (receiveBufferSize c) (unknownFlowBufferSize c) l (qlogTrace c)
                 (qlogPacketData c) (qlogPacketDataLimit c), None)
  end.

(** ** The options of the package and which of them are valid *)

Inductive library_option : Option → bool → Prop :=
  | lo_receive n : library_option (WithReceiveBufferSize n) (bool_decide (0 < n))
  | lo_unknown n : library_option (WithUnknownFlowBufferSize n) (bool_decide (0 < n))
  | lo_trace t : library_option (WithQlogTrace t) true
  | lo_data n : library_option (WithQlogPacketData n) (bool_decide (0 ≤ n))
  | lo_logger l : library_option (WithLogger l) (bool_decide (is_Some l)).

(** An element of an option list, valid or not; nil is not. *)
Inductive option_arg : option Option → bool → Prop :=
  | oa_nil : option_arg None false
  | oa_option o v : library_option o v → option_arg (Some o) v.

(** What the rest of the library relies on. *)
Definition config_ok (c : sessionConfig) : Prop :=
  0 < receiveBufferSize c ∧ 0 < unknownFlowBufferSize c ∧ 0 ≤ qlogPacketDataLimit c.

Lemma defaultConfig_ok : config_ok defaultConfig.
Proof. split_and!; vm_compute; done. Qed.

Lemma library_option_spec o v c : library_option o v → config_ok c →
  if v then ∃ c', o c = (c', None) ∧ config_ok c'
  else ∃ c' msg, o c = (c', Some (invalidOption msg)).
Proof.
  unfold config_ok. intros [n|n|t|n|[l|]] Hc;
    unfold WithReceiveBufferSize, WithUnknownFlowBufferSize, WithQlogPacketData, WithLogger;
    repeat (case_bool_decide || case_decide); try lia; eauto;
    try (eexists; split; [done|]; simpl; lia).
  - by destruct H.
  - by destruct H.
Qed.

Lemma applyOptions_spec opts vs c : Forall2 option_arg opts vs → config_ok c →
  if forallb id vs then ∃ c', applyOptions opts c = inl c' ∧ config_ok c'
  else ∃ msg, applyOptions opts c = inr (invalidOption msg).
Proof.
  intros Hall. revert c. induction Hall as [|o v opts vs Ho _ IH]; intros c Hc; simpl; [eauto|].
  destruct Ho as [|o v Ho]; [simpl; eauto|]. apply (library_option_spec _ _ c) in Ho; [|done].
  destruct v; simpl.
  - destruct Ho as (c' & -> & Hc'). by apply IH.
  - destruct Ho as (c' & msg & ->). eauto.
Qed.

(** The last [WithReceiveBufferSize] and [WithUnknownFlowBufferSize] win. *)
Lemma applyOptions_app opts1 opts2 c :
  applyOptions (opts1 ++ opts2) c =
    match applyOptions opts1 c with inl c' => applyOptions opts2 c' | inr e => inr e end.
Proof.
  revert c. induction opts1 as [|[o|] opts1 IH]; intros c; simpl; [done| |done].
  destruct (o c) as [c' [err|]]; [done|apply IH].
Qed.

(** ** Properties *)

(** A list of package options is accepted exactly if every one of them is
    valid. An accepted list gives a configuration whose buffer sizes are
    positive and whose data limit is not negative; a rejected one reports an
    error that wraps [errInvalidOption], also for a nil option. *)
Theorem newSessionConfig_spec (opts : list (option Option)) (vs : list bool)
    (Hopts : Forall2 option_arg opts vs) :
  match newSessionConfig opts with
  | inl c => forallb id vs = true ∧ config_ok c
  | inr e => forallb id vs = false ∧ errors_Is e errInvalidOption = true
  end.
Proof.
  pose proof (applyOptions_spec opts vs defaultConfig Hopts defaultConfig_ok) as H.
  unfold newSessionConfig. destruct (forallb id vs).
  - by destruct H as (c' & -> & Hc').
  - by destruct H as (msg & ->).
Qed.

Lemma newSessionConfig_spec_witness :
  match newSessionConfig [Some (WithReceiveBufferSize 4); Some (WithLogger None)] with
  | inl c => forallb id [true; false] = true ∧ config_ok c
  | inr e => forallb id [true; false] = false ∧ errors_Is e errInvalidOption = true
  end.
Proof.
  apply (newSessionConfig_spec _ [true; false]). constructor; [|constructor; [|constructor]].
  - apply (oa_option _ _ (lo_receive 4)).
  - apply (oa_option _ _ (lo_logger None)).
Defined.
