(* ===== verification/SyncMap.v ===== *)
(** * sync_map.go: a map that is locked per operation

    Each method is one critical section, so one function on the map. Go iterates
    over a map in an unspecified order: [GoMapOrder] is that order, an arbitrary
    permutation of the entries (though the same one for the same entries), and
    everything proved about the iterations of the library holds for each choice of
    it. *)

From S2P Require Import Prelude.

(** The order in which [range] visits the entries of a map. *)
Class GoMapOrder := {
  go_range {V : Type} : gmap Z V → list (Z * V);
  go_range_perm {V : Type} (m : gmap Z V) : go_range m ≡ₚ map_to_list m
}.

Program Definition ascending_order : GoMapOrder := {| go_range V m := map_to_list m |}.
Next Obligation. done. Qed.

Lemma elem_of_go_range `{!GoMapOrder} {V} (m : gmap Z V) k v :
  (k, v) ∈ go_range m ↔ m !! k = Some v.
Proof. by rewrite go_range_perm, elem_of_map_to_list. Qed.

Lemma NoDup_go_range `{!GoMapOrder} {V} (m : gmap Z V) : NoDup (go_range m).*1.
Proof. rewrite go_range_perm. apply NoDup_fst_map_to_list. Qed.

Record syncMap (V : Type) := mkSyncMap { elements : gmap Z V }.
Arguments mkSyncMap {V} _.
Arguments elements {V} _.

(** The methods; the module keeps their short names apart from the maps' own. *)
Module smap.
Section syncMap.
Context {V : Type}.
Implicit Types (m : syncMap V) (k : Z) (v : V).

Definition newSyncMap : syncMap V := mkSyncMap ∅.

Definition getOrInsert k v m : (V * bool) * syncMap V :=
  match elements m !! k with
  | Some old => ((old, false), m)
  | None => ((v, true), mkSyncMap (<[k := v]> (elements m)))
  end.

Definition set k v m : syncMap V := mkSyncMap (<[k := v]> (elements m)).

Definition get k m : option V := elements m !! k.

Definition delete k m : syncMap V := mkSyncMap (base.delete k (elements m)).

(** [rangeFn] calls [f] on a snapshot of the entries; [S] is the state [f] acts
    on, of which the live map may be a part. *)
Definition rangeFn {S : Type} `{!GoMapOrder} (f : Z → V → S → S) m (s : S) : S :=
  foldl (λ s '(k, v), f k v s) s (go_range (elements m)).

Lemma getOrInsert_inserted k v m r m' :
  getOrInsert k v m = ((r, true), m') →
  get k m = None ∧ r = v ∧ m' = set k v m.
Proof. unfold getOrInsert, get. destruct (elements m !! k); by intros [= <- <-]. Qed.

Lemma getOrInsert_found k v m r m' :
  getOrInsert k v m = ((r, false), m') → get k m = Some r ∧ m' = m.
Proof. unfold getOrInsert, get. destruct (elements m !! k); by intros [= <- <-]. Qed.

Lemma get_set k k' v m : get k' (set k v m) = if decide (k = k') then Some v else get k' m.
Proof. unfold get, set. simpl. by rewrite lookup_insert. Qed.

Lemma get_delete k k' m : get k' (delete k m) = if decide (k = k') then None else get k' m.
Proof. unfold get, delete. simpl. by rewrite lookup_delete. Qed.
End syncMap.
End smap.
