(* ===== verification/Connection.v ===== *)
(** * The interfaces of session.go a connection implements

    [Connection] lists the operations of the Go interfaces [Connection],
    [SendStream] and [PrioritySendStream] the library calls, on a state [C] that
    stands for the QUIC connection with all its streams; send streams are named
    by handles, a [ReceiveStream] is its ID and what it delivers, with [Read_waits]
    for whether it has ended. The implementation is not part of this repository: it is
    a parameter of every definition that uses one. Between the calls the peer and the network change a
    connection ([conn_event]).

    [ConnectionLaws] is what the library relies on: every call that sends is found
    in the log [calls], a [Write] accepts a prefix of what it is given, as
    [io.Writer] requires, and accepted streams are readers as [io.Reader] requires.
    Nothing is said about how much a [Write] accepts or which calls fail.
    [ConnectionReturns] is about the calls that wait: once their context is
    cancelled they return, and after finitely many results with an error.
    [stubConn] is a connection like the one of the tests, with scripted writes. *)

From S2P Require Import Prelude GoErrors IO.

(** A receive stream: its ID and the bytes it delivers. *)
Record ReceiveStream := mkReceiveStream { rs_ID : Z; rs_reader : reader }.

(** What happens to a connection: something arrives, or it fails. *)
Inductive conn_event :=
  | EvDatagram (d : list byte)
  | EvStream (rs : ReceiveStream)
  | EvError (err : goerror).

(** [ReceiveDatagram] and [AcceptUniStream] are told whether their context is
    cancelled, and give no result while they wait. A receive stream that has no bytes
    left may be one that has not ended: while [Read_waits] says so its [Read] blocks,
    until the peer or the connection ends the stream or it is cancelled. *)
Class Connection (C : Type) := {
  conn_handle : conn_event → C → C;
  SendDatagram : list byte → C → option goerror * C;
  ReceiveDatagram : bool → C → option ((list byte + goerror) * C);
  OpenUniStreamSync : C → (nat + goerror) * C;
  AcceptUniStream : bool → C → option ((ReceiveStream + goerror) * C);
  (* whether Read of the receive stream with this ID waits when it has no bytes left *)
  Read_waits : Z → C → bool;
  CloseWithError : Z → string → C → option goerror * C;
  SendStream_ID : nat → Z;
  SendStream_Write : nat → list byte → C → (Z * option goerror) * C;
  SendStream_Close : nat → C → option goerror * C;
  SendStream_CancelWrite : nat → Z → C → C;
  (* whether the stream implements PrioritySendStream *)
  is_PrioritySendStream : nat → bool;
  SetPriority : nat → Z → C → C;
  SetIncremental : nat → bool → C → C
}.

(** A call on the connection or one of its streams; a write with the number of
    bytes it accepted. *)
Inductive call :=
  | CSendDatagram (payload : list byte)
  | COpenUniStream (opened : option nat)
  | CCloseWithError (code : Z) (reason : string)
  | CWrite (h : nat) (p : list byte) (n : Z)
  | CClose (h : nat)
  | CCancelWrite (h : nat) (code : Z)
  | CSetPriority (h : nat) (p : Z)
  | CSetIncremental (h : nat) (b : bool).

Class ConnectionLaws (C : Type) `{!Connection C} := {
  calls : C → list call;
  calls_handle ev c : calls (conn_handle ev c) = calls c;
  calls_ReceiveDatagram ctx c res c' : ReceiveDatagram ctx c = Some (res, c') → calls c' = calls c;
  calls_AcceptUniStream ctx c res c' : AcceptUniStream ctx c = Some (res, c') →
    calls c' = calls c ∧ ∀ rs, res = inl rs → rd_wf (rs_reader rs);
  calls_SendDatagram p c e c' : SendDatagram p c = (e, c') →
    calls c' = calls c ++ [CSendDatagram p];
  calls_Open c res c' : OpenUniStreamSync c = (res, c') →
    calls c' = calls c ++ [COpenUniStream (match res with inl h => Some h | inr _ => None end)];
  calls_CloseWithError code reason c e c' : CloseWithError code reason c = (e, c') →
    calls c' = calls c ++ [CCloseWithError code reason];
  calls_Write h p c n e c' : SendStream_Write h p c = ((n, e), c') →
    (0 ≤ n ≤ Z.of_nat (length p))%Z ∧ calls c' = calls c ++ [CWrite h p n];
  calls_Close h c e c' : SendStream_Close h c = (e, c') → calls c' = calls c ++ [CClose h];
  calls_CancelWrite h code c : calls (SendStream_CancelWrite h code c) = calls c ++ [CCancelWrite h code];
  calls_SetPriority h p c : is_PrioritySendStream h = true →
    calls (SetPriority h p c) = calls c ++ [CSetPriority h p];
  calls_SetIncremental h b c : is_PrioritySendStream h = true →
    calls (SetIncremental h b c) = calls c ++ [CSetIncremental h b]
}.

(** [datagrams_left] and [streams_left] count what a connection still has for calls
    whose context is cancelled. *)
Class ConnectionReturns (C : Type) `{!Connection C} := {
  datagrams_left : C → nat;
  streams_left : C → nat;
  ReceiveDatagram_returns c : ∃ res c', ReceiveDatagram true c = Some (res, c') ∧
    ∀ d, res = inl d → datagrams_left c' < datagrams_left c;
  AcceptUniStream_returns c : ∃ res c', AcceptUniStream true c = Some (res, c') ∧
    ∀ rs, res = inl rs → streams_left c' < streams_left c
}.

(** The connection has the datagrams [ds] and the streams [rss] for the receive loops,
    and nothing more, in whatever order they ask for them. *)
Inductive delivering {C} `{!Connection C} : list (list byte) → list ReceiveStream → C → Prop :=
  | delivering_intro ds rss c :
      (ds = [] → ReceiveDatagram false c = None) →
      (∀ d ds', ds = d :: ds' → ∃ c', ReceiveDatagram false c = Some (inl d, c') ∧ delivering ds' rss c') →
      (rss = [] → AcceptUniStream false c = None) →
      (∀ rs rss', rss = rs :: rss' → ∃ c', AcceptUniStream false c = Some (inl rs, c') ∧ delivering ds rss' c') →
      delivering ds rss c.

(** [c'] is [c] when [ds] and [rss] have arrived, and nothing more. *)
Definition has_arrived {C} `{ConnectionLaws C} (ds : list (list byte)) (rss : list ReceiveStream) (c c' : C) : Prop :=
  calls c' = calls c ∧ delivering ds rss c'.

(** The bytes stream [h] has accepted, in order: what its peer will read. *)
Definition written (h : nat) (k : call) : list byte :=
  match k with
  | CWrite h' p n => if decide (h = h') then take (Z.to_nat n) p else []
  | _ => []
  end.

Definition wire (h : nat) (ks : list call) : list byte := flat_map (written h) ks.

Lemma wire_app h ks1 ks2 : wire h (ks1 ++ ks2) = wire h ks1 ++ wire h ks2.
Proof. unfold wire. by rewrite flat_map_app. Qed.

Lemma wire_write h ks p n : wire h (ks ++ [CWrite h p n]) = wire h ks ++ take (Z.to_nat n) p.
Proof. rewrite wire_app. simpl. rewrite decide_True by done. by rewrite app_nil_r. Qed.

Lemma wire_write_ne h h' ks p n : h ≠ h' → wire h (ks ++ [CWrite h' p n]) = wire h ks.
Proof. intros. rewrite wire_app. simpl. rewrite decide_False by done. by rewrite app_nil_r. Qed.

(** The datagrams sent on a connection. *)
Definition datagrams (ks : list call) : list (list byte) :=
  omap (λ k, match k with CSendDatagram p => Some p | _ => None end) ks.

(** The calls that close the connection, and those that close a stream. *)
Definition conn_closes (ks : list call) : list (Z * string) :=
  omap (λ k, match k with CCloseWithError c r => Some (c, r) | _ => None end) ks.

Definition stream_closes (ks : list call) : list nat :=
  omap (λ k, match k with CClose h => Some h | _ => None end) ks.

(** The streams that were opened, in order. *)
Definition opened (ks : list call) : list nat :=
  omap (λ k, match k with COpenUniStream (Some h) => Some h | _ => None end) ks.

(** The stream a call is about. *)
Definition call_stream (k : call) : option nat :=
  match k with
  | CWrite h _ _ | CClose h | CCancelWrite h _ | CSetPriority h _ | CSetIncremental h _ => Some h
  | COpenUniStream o => o
  | CSendDatagram _ | CCloseWithError _ _ => None
  end.

(** Every stream that was opened was a new one. *)
Definition fresh_opens (ks : list call) : Prop :=
  ∀ ks1 h ks2, ks = ks1 ++ COpenUniStream (Some h) :: ks2 → Forall (λ k, call_stream k ≠ Some h) ks1.

(** A test for it. *)
Fixpoint fresh_from (seen ks : list call) : bool :=
  match ks with
  | [] => true
  | k :: ks =>
      match k with
      | COpenUniStream (Some h) => forallb (λ k', bool_decide (call_stream k' ≠ Some h)) seen
      | _ => true
      end && fresh_from (seen ++ [k]) ks
  end.

Lemma fresh_from_spec seen ks : fresh_from seen ks = true →
  ∀ ks1 h ks2, ks = ks1 ++ COpenUniStream (Some h) :: ks2 →
    Forall (λ k, call_stream k ≠ Some h) (seen ++ ks1).
Proof.
  revert seen. induction ks as [|k ks IH]; intros seen Hf ks1 h ks2 Heq; [by destruct ks1|].
  simpl in Hf. apply andb_prop in Hf as [Hk Hf]. destruct ks1 as [|k1 ks1]; simplify_eq/=.
  - rewrite app_nil_r. apply Forall_forall. intros k Hin. rewrite forallb_forall in Hk.
    specialize (Hk k). rewrite <- list_elem_of_In in Hk. by apply bool_decide_eq_true in Hk.
  - rewrite cons_middle, app_assoc. by eapply IH.
Qed.

Lemma fresh_opens_test ks : fresh_from [] ks = true → fresh_opens ks.
Proof. intros Hf ks1 h ks2 Heq. by apply (fresh_from_spec [] ks Hf ks1 h ks2). Qed.

Lemma opened_app ks1 ks2 : opened (ks1 ++ ks2) = opened ks1 ++ opened ks2.
Proof. apply omap_app. Qed.

Lemma datagrams_app ks1 ks2 : datagrams (ks1 ++ ks2) = datagrams ks1 ++ datagrams ks2.
Proof. apply omap_app. Qed.

Lemma stream_closes_app ks1 ks2 : stream_closes (ks1 ++ ks2) = stream_closes ks1 ++ stream_closes ks2.
Proof. apply omap_app. Qed.

Lemma fresh_opens_prefix ks ks' : ks `prefix_of` ks' → fresh_opens ks' → fresh_opens ks.
Proof.
  intros [ks3 ->] Hf ks1 h ks2 ->. apply (Hf ks1 h (ks2 ++ ks3)). by rewrite <- app_assoc.
Qed.

Lemma wire_unused h ks : Forall (λ k, call_stream k ≠ Some h) ks → wire h ks = [].
Proof.
  induction 1 as [|k ks Hk _ IH]; [done|]. unfold wire in *. simpl. rewrite IH, app_nil_r.
  destruct k; simpl in *; try done. case_decide; congruence.
Qed.

(** ** A connection with scripted writes *)

(** [script] says what successive writes accept and return, as in the tests'
    [acceptor]; past its end everything is accepted. [incoming] and [accepting] are
    what has arrived; the receive streams in [parking] stay open until they are
    cancelled, like a [stubReceiveStream] of the tests without [eof]. *)
Record stubConn := mkStub {
  stub_calls : list call;
  script : list (Z * option goerror);
  nextHandle : nat;
  sendCloseErr : option goerror;
  closeErr : option goerror;
  incoming : list (list byte + goerror);
  accepting : list (ReceiveStream + goerror);
  parking : list Z
}.

Definition newStubConn (sc : list (Z * option goerror)) : stubConn := mkStub [] sc 0 None None [] [] [].

Definition stub_log (k : call) (c : stubConn) : stubConn :=
  mkStub (stub_calls c ++ [k]) (script c) (nextHandle c) (sendCloseErr c) (closeErr c)
    (incoming c) (accepting c) (parking c).

Definition stub_write (h : nat) (p : list byte) (c : stubConn) : (Z * option goerror) * stubConn :=
  let '(resp, rest) := match script c with
                       | [] => ((Z.of_nat (length p), None), [])
                       | (n, e) :: rest => ((Z.max 0 (Z.min n (Z.of_nat (length p))), e), rest)
                       end in
  (resp, mkStub (stub_calls c ++ [CWrite h p resp.1]) rest (nextHandle c) (sendCloseErr c)
           (closeErr c) (incoming c) (accepting c) (parking c)).

Definition stub_arrived incoming accepting (c : stubConn) : stubConn :=
  mkStub (stub_calls c) (script c) (nextHandle c) (sendCloseErr c) (closeErr c) incoming accepting (parking c).

Definition stub_handle (ev : conn_event) (c : stubConn) : stubConn :=
  match ev with
  | EvDatagram d => stub_arrived (incoming c ++ [inl d]) (accepting c) c
  | EvStream rs => stub_arrived (incoming c) (accepting c ++ [inl rs]) c
  | EvError err => stub_arrived (incoming c ++ [inr err]) (accepting c ++ [inr err]) c
  end.

(** The first result that waits, else the error of the context. *)
Definition stub_next {A} (ctxDone : bool) (l : list (A + goerror)) : option ((A + goerror) * list (A + goerror)) :=
  match l with
  | x :: l => Some (x, l)
  | [] => if ctxDone then Some (inr ContextCanceled, []) else None
  end.

(** Only [io.EOF] comes together with data. *)
Definition stub_stream (rs : ReceiveStream) : ReceiveStream :=
  let r := rs_reader rs in
  mkReceiveStream (rs_ID rs) (mkReader (rd_chunks r) (rd_eager r && is_EOF (rd_err r)) (rd_err r)).

#[export] Instance stub_connection : Connection stubConn := {|
  conn_handle := stub_handle;
  SendDatagram p c := (None, stub_log (CSendDatagram p) c);
  ReceiveDatagram ctxDone c :=
    '(res, l) ← stub_next ctxDone (incoming c); Some (res, stub_arrived l (accepting c) c);
  OpenUniStreamSync c :=
    (inl (nextHandle c), mkStub (stub_calls c ++ [COpenUniStream (Some (nextHandle c))]) (script c)
       (S (nextHandle c)) (sendCloseErr c) (closeErr c) (incoming c) (accepting c) (parking c));
  AcceptUniStream ctxDone c :=
    '(res, l) ← stub_next ctxDone (accepting c);
    Some (match res with inl rs => inl (stub_stream rs) | inr err => inr err end,
          stub_arrived (incoming c) l c);
  Read_waits id c := bool_decide (id ∈ parking c);
  CloseWithError code reason c := (closeErr c, stub_log (CCloseWithError code reason) c);
  SendStream_ID h := Z.of_nat h;
  SendStream_Write := stub_write;
  SendStream_Close h c := (sendCloseErr c, stub_log (CClose h) c);
  SendStream_CancelWrite h code c := stub_log (CCancelWrite h code) c;
  is_PrioritySendStream h := false;
  SetPriority h p c := stub_log (CSetPriority h p) c;
  SetIncremental h b c := stub_log (CSetIncremental h b) c
|}.

#[export] Program Instance stub_laws : ConnectionLaws stubConn := {| calls := stub_calls |}.
Next Obligation. by intros []. Qed.
Next Obligation. simpl. intros ctx c res c'. destruct (stub_next _ _) as [[]|]; simpl; [|done]. by intros [= <- <-]. Qed.
Next Obligation.
  simpl. intros ctx c res c'. destruct (stub_next _ _) as [[[rs|err] l]|]; simpl; [| |done];
    intros [= <- <-]; (split; [done|]); [|done].
  intros ? [= <-]. unfold rd_wf. simpl. by intros [_ ?%is_EOF_spec]%andb_prop.
Qed.
Next Obligation. by intros ???? [= <- <-]. Qed.
Next Obligation. by intros ??? [= <- <-]. Qed.
Next Obligation. by intros ????? [= <- <-]. Qed.
Next Obligation.
  intros h p c n e c'. simpl. unfold stub_write.
  destruct (script c) as [|[n' e'] rest]; intros [= <- <- <-]; simpl; split; done || lia.
Qed.
Next Obligation. by intros ???? [= <- <-]. Qed.
Next Obligation. done. Qed.
Next Obligation. done. Qed.
Next Obligation. done. Qed.

#[export] Program Instance stub_returns : ConnectionReturns stubConn := {|
  datagrams_left c := length (incoming c);
  streams_left c := length (accepting c)
|}.
Next Obligation.
  intros c. simpl. destruct (incoming c) as [|x l]; simpl; eexists _, _; (split; [done|]); [done|].
  intros d _. simpl. lia.
Qed.
Next Obligation.
  intros c. simpl. destruct (accepting c) as [|x l]; simpl; eexists _, _; (split; [done|]); [done|].
  intros d _. simpl. lia.
Qed.

Definition ex_arrived (ds : list (list byte)) (rss : list ReceiveStream) (c : stubConn) : stubConn :=
  stub_arrived (inl <$> ds) (inl <$> rss) c.

Lemma ex_arrived_has ds rss c : Forall (λ rs, stub_stream rs = rs) rss →
  has_arrived ds rss c (ex_arrived ds rss c).
Proof.
  intros Hrss. split; [done|]. revert rss Hrss. induction ds as [|d ds IHd]; intros rss Hrss;
    induction Hrss as [|rs rss Hrs Hrss IH]; constructor; try done.
  - intros ? ? [= <- <-]. eexists. simpl. rewrite Hrs. by split.
  - intros ? ? [= <- <-]. eexists. split; [done|]. by apply IHd.
  - intros ? ? [= <- <-]. eexists. split; [done|]. apply IHd. by constructor.
  - intros ? ? [= <- <-]. eexists. simpl. rewrite Hrs. by split.
Qed.
