(* ===== verification/RTPSendStream.v ===== *)
(** * rtp_send_stream.go: framing packets on a QUIC stream

    A frame is the length of a packet, as a varint, followed by the packet; the
    flow ID goes ahead of the first frame. [Write] on the stream may accept only
    a part of a frame: the tail is kept in [pending] and written first by the
    next call. [WriteRTPBytes] and [flush] run under the lock of the stream, so
    each is one function on the struct and the connection. *)

From S2P Require Import Prelude GoErrors IO Varint QlogEvent Qlogger Connection.

Record RTPSendStream := mkRTPSendStream {
  stream : nat;
  flowID : Z;
  flowIDBytes : list byte;
  ss_qlog : option qlogger;
  sentFlowID : bool;
  buffer : list byte;
  pending : list byte
}.

Definition newRTPSendStream (stream : nat) (flowID : Z) (flowIDBytes : list byte)
    (qlog : option qlogger) : RTPSendStream + goerror :=
  inl (mkRTPSendStream stream flowID flowIDBytes qlog false [] []).

Definition set_pending (p : list byte) (s : RTPSendStream) : RTPSendStream :=
  mkRTPSendStream (stream s) (flowID s) (flowIDBytes s) (ss_qlog s) (sentFlowID s) (buffer s) p.

Definition set_buffer (sent : bool) (b : list byte) (s : RTPSendStream) : RTPSendStream :=
  mkRTPSendStream (stream s) (flowID s) (flowIDBytes s) (ss_qlog s) sent b (pending s).

Section RTPSendStream.
Context `{!QuicVarint} {C : Type} `{!Connection C}.

Definition flush (s : RTPSendStream) (c : C) : outcome (option goerror * RTPSendStream * C) :=
  let '((n, err), c) := SendStream_Write (stream s) (pending s) c in
  tail ← slice_from (pending s) n;
  let s := set_pending tail s in
  let err := match err with
             | None => if decide (0 < length (pending s)) then Some ErrShortWrite else None
             | Some e => Some e
             end in
  Ret (err, s, c).

Definition WriteRTPBytes (packet : list byte) (s : RTPSendStream) (c : C)
    : outcome ((Z * option goerror) * RTPSendStream * C * list effect) :=
  (* nothing may go on the wire ahead of the tail of an earlier frame *)
  '(ferr, s, c) ← (if decide (0 < length (pending s)) then flush s c else Ret (None, s, c));
  match ferr with
  | Some err => Ret ((0%Z, Some err), s, c, [])
  | None =>
      let s := set_buffer (sentFlowID s) [] s in
      let '(s, frameStart) :=
        if negb (sentFlowID s) then
          let s := set_buffer true (buffer s ++ flowIDBytes s) s in (s, length (buffer s))
        else (s, 0) in
      b ← quicvarint_Append (buffer s) (uint64 (Z.of_nat (length packet)));
      let headerLen := length b in
      let s := set_buffer (sentFlowID s) (b ++ packet) s in
      let '((n, err), c) := SendStream_Write (stream s) (buffer s) c in
      '(s, err) ← (if decide (n < Z.of_nat (length (buffer s)))%Z then
                     tail ← slice_from (buffer s) n;
                     Ret (set_pending tail s,
                          match err with None => Some ErrShortWrite | Some e => Some e end)
                   else Ret (s, err));
      let framed := uint64 (Z.of_nat (length (buffer s)) - Z.of_nat frameStart) in
      let evs := record (ss_qlog s) (λ q,
        StreamPacketCreated (uint64 (SendStream_ID (stream s)))
          (mkPacket (flowID s) framed
             (mkRawInfo framed (uint64 (Z.of_nat (length packet)))
                (rawData q (drop frameStart (buffer s)))))) in
      Ret ((Z.min (Z.max (n - Z.of_nat headerLen) 0) (Z.of_nat (length packet)), err), s, c, evs)
  end.

Definition CancelStream (errorCode : Z) (s : RTPSendStream) (c : C) : C :=
  SendStream_CancelWrite (stream s) errorCode c.

Definition Close (s : RTPSendStream) (c : C) : option goerror * C :=
  SendStream_Close (stream s) c.

(** A sequence of [WriteRTPBytes] calls and what each of them returned. *)
Fixpoint WriteAll (packets : list (list byte)) (s : RTPSendStream) (c : C)
    : outcome (list (Z * option goerror) * RTPSendStream * C) :=
  match packets with
  | [] => Ret ([], s, c)
  | p :: ps =>
      '(res, s, c, _) ← WriteRTPBytes p s c;
      '(rs, s, c) ← WriteAll ps s c;
      Ret (res :: rs, s, c)
  end.

(** The bytes of a packet's frame. *)
Definition frame (packet : list byte) : list byte :=
  match quicvarint_Append [] (Z.of_nat (length packet)) with
  | Ret b => b ++ packet
  | Panic _ => []
  end.

(** The bytes of a stream that carries [ps]. *)
Definition stream_bytes (enc : list byte) (ps : list (list byte)) : list byte :=
  if decide (ps = []) then [] else enc ++ concat (frame <$> ps).

(** The flow ID, if it still has to go ahead of the next frame. *)
Definition flow_prefix (s : RTPSendStream) : list byte :=
  if sentFlowID s then [] else flowIDBytes s.

Lemma stream_bytes_snoc enc ps p :
  stream_bytes enc (ps ++ [p]) = stream_bytes enc ps ++ (if decide (ps = []) then enc else []) ++ frame p.
Proof.
  unfold stream_bytes. rewrite decide_False by (by destruct ps).
  rewrite fmap_app, concat_app. simpl. rewrite app_nil_r. case_decide as Hps; [by subst|].
  by rewrite <- app_assoc.
Qed.
End RTPSendStream.

(** ** What one call does *)

Section correctness.
Context `{QuicVarintLaws} {C : Type} `{ConnectionLaws C}.
Implicit Types (s : RTPSendStream) (c : C).

(** Every byte ever framed is on the wire or pending, in order. *)
Definition sent_bytes s c : list byte := wire (stream s) (calls c) ++ pending s.

(** The fields that never change. *)
Definition same_stream s s' : Prop :=
  stream s' = stream s ∧ flowID s' = flowID s ∧ flowIDBytes s' = flowIDBytes s ∧
  ss_qlog s' = ss_qlog s.

Lemma flush_spec s c : ∃ err s' c',
  flush s c = Ret (err, s', c') ∧ same_stream s s' ∧ sentFlowID s' = sentFlowID s ∧
  sent_bytes s' c' = sent_bytes s c ∧ (err = None → pending s' = []) ∧
  (∀ h, h ≠ stream s → wire h (calls c') = wire h (calls c)).
Proof.
  unfold flush. destruct (SendStream_Write _ _ _) as [[n err] c'] eqn:Hw.
  apply calls_Write in Hw as [Hn Hc]. rewrite slice_from_ok by done. simpl.
  eexists _, _, _. split; [done|]. unfold same_stream, sent_bytes; simpl.
  rewrite Hc, wire_write, <- app_assoc, take_drop. split_and!; try done.
  - destruct err; [done|]. case_decide as Hd; [done|]. intros _.
    apply nil_length_inv. lia.
  - intros h Hh. by rewrite wire_write_ne.
Qed.

(** What a call that got past the flush has done. [res] is its result. *)
Definition framed (packet : list byte) (res : Z * option goerror) s c s' c' : Prop :=
  sent_bytes s' c' = sent_bytes s c ++ flow_prefix s ++ frame packet ∧ sentFlowID s' = true ∧
  (res.2 = None → pending s' = [] ∧ res.1 = Z.of_nat (length packet)) ∧
  (0 ≤ res.1 ≤ Z.of_nat (length packet))%Z ∧
  (pending s' = [] → res.1 = Z.of_nat (length packet)) ∧
  (pending s' ≠ [] → res.1 = Z.max 0 (Z.of_nat (length packet) - Z.of_nat (length (pending s')))%Z).

Lemma frame_eq packet : varint_ok (Z.of_nat (length packet)) → ∃ e,
  (∀ b, quicvarint_Append b (uint64 (Z.of_nat (length packet))) = Ret (b ++ e)) ∧
  frame packet = e ++ packet ∧
  (∀ rest, quicvarint_Parse (e ++ rest) = inl (Z.of_nat (length packet), length e)).
Proof.
  intros Hl. rewrite uint64_small by (unfold varint_ok in Hl; lia).
  destruct (Append_ok _ Hl) as (e & He & _ & Hp). exists e.
  unfold frame. rewrite He. auto.
Qed.

(** With nothing pending the call frames the packet. *)
Lemma WriteRTPBytes_framed packet s c :
  varint_ok (Z.of_nat (length packet)) → pending s = [] →
  ∃ res s' c' evs, WriteRTPBytes packet s c = Ret (res, s', c', evs) ∧ same_stream s s' ∧
    (∀ h, h ≠ stream s → wire h (calls c') = wire h (calls c)) ∧ framed packet res s c s' c'.
Proof.
  intros Hl Hp. destruct (frame_eq packet Hl) as (e & He & Hf & _).
  unfold WriteRTPBytes. rewrite decide_False by (rewrite Hp; simpl; lia). simpl.
  set (s1 := if negb (sentFlowID s) then _ else _).
  destruct s1 as [s1' start] eqn:Hs1. rewrite He. simpl.
  assert (buffer s1' = flow_prefix s ∧ stream s1' = stream s ∧ same_stream s s1' ∧
    sentFlowID s1' = true ∧ pending s1' = []) as (Hb & Hst & Hsame & Hsent & Hpend).
  { unfold same_stream, flow_prefix. subst s1. destruct (sentFlowID s) eqn:?;
      simpl in Hs1; injection Hs1 as <- <-; by simpl. }
  rewrite Hb, <- app_assoc, <- Hf.
  destruct (SendStream_Write _ _ _) as [[n err] c'] eqn:Hw.
  apply calls_Write in Hw as [Hn Hc]. rewrite Hst in Hc.
  assert (length (frame packet) = length e + length packet) as Hlen
    by (rewrite Hf; apply length_app).
  rewrite length_app in *.
  destruct (decide (n < _)%Z) as [Hlt|Hlt]; simpl; rewrite length_app in Hlt.
  - rewrite slice_from_ok by (rewrite length_app; lia). simpl.
    eexists _, _, _, _. split; [done|]. split; [done|].
    split. { intros h Hh. by rewrite Hc, wire_write_ne. }
    unfold framed, sent_bytes; simpl. rewrite Hst, Hc, Hp, wire_write, app_nil_r.
    rewrite <- app_assoc, take_drop. rewrite length_drop, !length_app. split_and!; try done.
    + by destruct err.
    + lia.
    + lia.
    + intros Hnil%(f_equal length). rewrite length_drop, length_app in Hnil. simpl in Hnil. lia.
    + intros _. lia.
  - eexists _, _, _, _. split; [done|]. split; [done|].
    split. { intros h Hh. by rewrite Hc, wire_write_ne. }
    unfold framed, sent_bytes; simpl. rewrite Hst, Hc, Hp, Hpend, wire_write, !app_nil_r.
    rewrite take_ge by (rewrite length_app; lia).
    split_and!; try done; try lia. intros _. split; [done|lia].
Qed.

(** The stream takes only a part of the frame. *)
Lemma WriteRTPBytes_short packet s c n err c' :
  varint_ok (Z.of_nat (length packet)) → pending s = [] →
  let b := flow_prefix s ++ frame packet in
  SendStream_Write (stream s) b c = ((n, Some err), c') → (n < Z.of_nat (length b))%Z →
  ∃ s' evs, WriteRTPBytes packet s c =
      Ret ((Z.max 0 (n - (Z.of_nat (length b) - Z.of_nat (length packet))), Some err), s', c', evs) ∧
    same_stream s s' ∧ sentFlowID s' = true ∧ pending s' = drop (Z.to_nat n) b.
Proof.
  intros Hl Hp b Hw Hlt. destruct (frame_eq packet Hl) as (e & He & Hf & _).
  unfold WriteRTPBytes. rewrite decide_False by (rewrite Hp; simpl; lia). simpl.
  set (s1 := if negb (sentFlowID s) then _ else _). destruct s1 as [s1' start] eqn:Hs1. rewrite He. simpl.
  assert (buffer s1' = flow_prefix s ∧ same_stream s s1' ∧ sentFlowID s1' = true) as (Hb & Hsame & Hsent).
  { unfold same_stream, flow_prefix. subst s1. destruct (sentFlowID s) eqn:?;
      simpl in Hs1; injection Hs1 as <- <-; by simpl. }
  destruct Hsame as (Hst & Hrest). rewrite Hst, Hb, <- app_assoc, <- Hf. fold b. rewrite Hw.
  apply calls_Write in Hw as [Hn _]. rewrite decide_True, slice_from_ok by lia. simpl.
  assert (length b = length (flow_prefix s ++ e) + length packet) as Hlen
    by (unfold b; rewrite Hf, !length_app; lia).
  replace (Z.max 0 (n - (_ - _))) with (Z.min (Z.max (n - Z.of_nat (length (flow_prefix s ++ e))) 0) (Z.of_nat (length packet))) by lia.
  eexists _, _. split; [done|]. by unfold same_stream.
Qed.

(** The flush of the tail fails. *)
Lemma WriteRTPBytes_blocked packet s c n err c' : pending s ≠ [] →
  SendStream_Write (stream s) (pending s) c = ((n, Some err), c') →
  WriteRTPBytes packet s c = Ret ((0%Z, Some err), set_pending (drop (Z.to_nat n) (pending s)) s, c', []).
Proof.
  intros Hp Hw. unfold WriteRTPBytes, flush. rewrite decide_True by (destruct (pending s); simpl; done || lia).
  rewrite Hw. apply calls_Write in Hw as [Hn _]. by rewrite slice_from_ok.
Qed.

Lemma WriteRTPBytes_flushed packet s c s1 c1 :
  pending s ≠ [] → flush s c = Ret (None, s1, c1) → pending s1 = [] →
  WriteRTPBytes packet s c = WriteRTPBytes packet s1 c1.
Proof.
  intros Hp Hf Hp1. unfold WriteRTPBytes.
  rewrite decide_True by (destruct (pending s); simpl; done || lia).
  rewrite Hf, decide_False by (rewrite Hp1; simpl; lia). done.
Qed.

Lemma WriteRTPBytes_cases packet s c :
  varint_ok (Z.of_nat (length packet)) →
  ∃ res s' c' evs, WriteRTPBytes packet s c = Ret (res, s', c', evs) ∧ same_stream s s' ∧
    (∀ h, h ≠ stream s → wire h (calls c') = wire h (calls c)) ∧
    ((∃ err, res = (0%Z, Some err) ∧ pending s ≠ [] ∧ sentFlowID s' = sentFlowID s ∧
      sent_bytes s' c' = sent_bytes s c ∧ evs = []) ∨
     framed packet res s c s' c').
Proof.
  intros Hl. destruct (decide (pending s = [])) as [Hp|Hp].
  { destruct (WriteRTPBytes_framed packet s c Hl Hp) as (res & s' & c' & evs & ? & ? & ? & ?).
    eauto 10. }
  destruct (flush_spec s c) as (err & s1 & c1 & Hf & Hsame & Hsent & Hbytes & Hnil & Hoth).
  destruct err as [err|].
  - eexists _, _, _, _. unfold WriteRTPBytes.
    rewrite decide_True by (destruct (pending s); simpl; done || lia).
    rewrite Hf. simpl. split; [done|]. eauto 10.
  - rewrite (WriteRTPBytes_flushed _ _ _ s1 c1) by auto.
    destruct (WriteRTPBytes_framed packet s1 c1 Hl) as (res & s' & c' & evs & -> & Hs' & Ho & Hfr);
      [auto|]. eexists _, _, _, _. split; [done|].
    destruct Hsame as (E1 & E2 & E3 & E4).
    split; [unfold same_stream in *; intuition congruence|].
    split. { intros h Hh. rewrite Ho, Hoth by congruence. done. }
    right. unfold framed, flow_prefix in *. rewrite <- Hbytes, <- Hsent, <- E3. done.
Qed.

(** The only calls on the connection are writes to the stream. *)
Definition stream_writes (h : nat) (ks : list call) : Prop :=
  Forall (λ k, ∃ p n, k = CWrite h p n) ks.

Lemma flush_calls s c err s' c' : flush s c = Ret (err, s', c') →
  stream s' = stream s ∧ ∃ p n, calls c' = calls c ++ [CWrite (stream s) p n].
Proof.
  unfold flush. destruct (SendStream_Write _ _ _) as [[n e] c1] eqn:Hw.
  apply calls_Write in Hw as [_ Hc]. destruct (slice_from _ _); [|done]. simpl.
  intros [= <- <- <-]. eauto.
Qed.

Lemma WriteRTPBytes_calls packet s c res s' c' evs :
  WriteRTPBytes packet s c = Ret (res, s', c', evs) →
  ∃ ks, calls c' = calls c ++ ks ∧ stream_writes (stream s) ks.
Proof.
  unfold WriteRTPBytes. intros Hrun. apply bind_ret_inv in Hrun as ([[ferr s1] c1] & Hf & Hrun).
  assert (stream s1 = stream s ∧ ∃ ks, calls c1 = calls c ++ ks ∧ stream_writes (stream s) ks)
    as (Hst & ks & Hks & Hw).
  { case_decide; [|injection Hf as <- <- <-; split; [done|]; exists [];
      split; [by rewrite app_nil_r|constructor]].
    apply flush_calls in Hf as (? & p & n & ?). split; [done|]. eexists; split; [done|].
    repeat constructor. eauto. }
  destruct ferr; [injection Hrun as <- <- <- <-; eauto|]. cbv zeta in Hrun.
  destruct (if negb (sentFlowID _) then _ else _) as [s2 start] eqn:Hs2.
  assert (stream s2 = stream s) as Hst2
    by (destruct (negb _); injection Hs2 as <- <-; done).
  apply bind_ret_inv in Hrun as (b & _ & Hrun).
  destruct (SendStream_Write _ _ c1) as [[n e] c2] eqn:Hwr. apply calls_Write in Hwr as [_ Hc].
  apply bind_ret_inv in Hrun as ([s3 e3] & _ & Hrun). injection Hrun as <- <- <- <-.
  exists (ks ++ [CWrite (stream s) (b ++ packet) n]). simpl in Hc. rewrite Hst2 in Hc.
  rewrite Hc, Hks, app_assoc. split; [done|]. apply Forall_app. split; [done|]. repeat constructor. eauto.
Qed.

(** The packets whose call reported success. *)
Definition reported_sent (results : list (Z * option goerror)) (packets : list (list byte))
    : list (list byte) :=
  omap (λ '(r, p), match snd r with None => Some p | Some _ => None end) (zip results packets).

(** If every call succeeded, every packet was accepted. *)
Lemma reported_all_accepted results packets acc :
  Forall (λ r, snd r = None) results → length results = length packets →
  reported_sent results packets `sublist_of` acc → acc `sublist_of` packets → acc = packets.
Proof.
  intros Hall Hlen. assert (reported_sent results packets = packets) as ->.
  { revert packets Hlen. induction Hall as [|[n e] rs Hr _ IH]; intros [|p ps] Hl; try done.
    simpl in *. subst e. unfold reported_sent in *. simpl. f_equal. apply IH. lia. }
  intros ? ?. by apply (anti_symm sublist).
Qed.

Lemma WriteAll_bytes packets s c :
  Forall (λ p, varint_ok (Z.of_nat (length p))) packets →
  ∃ results s' c' accepted, WriteAll packets s c = Ret (results, s', c') ∧
    same_stream s s' ∧ length results = length packets ∧
    reported_sent results packets `sublist_of` accepted ∧ accepted `sublist_of` packets ∧
    sentFlowID s' = sentFlowID s || bool_decide (accepted ≠ []) ∧
    sent_bytes s' c' = sent_bytes s c ++ (if decide (accepted = []) then [] else flow_prefix s)
      ++ concat (frame <$> accepted) ∧
    (Forall (λ r, snd r = None) results → pending s = [] ∨ packets ≠ [] → pending s' = []).
Proof.
  intros Hok. revert s c. induction Hok as [|p packets Hp _ IH]; intros s c; simpl.
  { exists [], s, c, []. simpl. rewrite orb_false_r, app_nil_r. split_and!; try done.
    by intros _ [?|?]. }
  destruct (WriteRTPBytes_cases p s c Hp) as (res & s1 & c1 & evs & -> & Hs1 & _ & Hcase).
  simpl. destruct (IH s1 c1) as (results & s' & c' & acc & -> & Hs' & Hlen & Hrep & Hsub & Hsent & Hb & Hpend).
  simpl. assert (same_stream s s') by (unfold same_stream in *; intuition congruence).
  destruct Hcase as [(err & -> & Hne & Hst & Hby & _)|(Hby & Hst & Herr & _)].
  - exists ((0%Z, Some err) :: results), s', c', acc. unfold flow_prefix in *.
    destruct Hs1 as (_ & _ & Hfb & _). rewrite Hst, Hfb, Hby in *.
    split_and!; auto.
    + simpl. lia.
    + by apply sublist_cons.
    + intros [? _]%Forall_cons. done.
  - exists (res :: results), s', c', (p :: acc). split_and!; auto.
    + simpl. lia.
    + unfold reported_sent in *. simpl. destruct (snd res) eqn:E; [by apply sublist_cons|].
      by apply sublist_skip.
    + by apply sublist_skip.
    + rewrite Hsent, Hst, (bool_decide_true (p :: acc ≠ [])), orb_true_r by done. done.
    + unfold flow_prefix in Hb. rewrite Hb, Hst, Hby, (decide_False (P := p :: acc = [])) by done.
      simpl. rewrite <- !app_assoc. by destruct (decide (acc = [])).
    + intros [Hr Hrs]%Forall_cons _. apply Hpend; [done|]. left. by destruct Herr.
Qed.
End correctness.

(** ** Properties *)

Section properties.
Context `{QuicVarintLaws} {C : Type} `{ConnectionLaws C}.

(** C16: whatever part of each write the stream accepts and whichever writes
    fail, a sequence of [WriteRTPBytes] calls on a new stream does not panic,
    and what is on the wire followed by what is pending is the flow ID, once,
    ahead of whole frames, one for each of a subsequence of the packets that
    contains every packet reported as sent. If every call succeeds, exactly the
    flow ID and the frames of all packets are on the wire. *)
Theorem WriteAll_framing (h : nat) (id : Z) (idBytes : list byte) (q : option qlogger)
    (packets : list (list byte)) (s : RTPSendStream) (c : C)
    (Hs : newRTPSendStream h id idBytes q = inl s) (Hh : wire h (calls c) = [])
    (Hok : Forall (λ p, varint_ok (Z.of_nat (length p))) packets) :
  ∃ results s' c' accepted, WriteAll packets s c = Ret (results, s', c') ∧
    reported_sent results packets `sublist_of` accepted ∧ accepted `sublist_of` packets ∧
    wire h (calls c') ++ pending s' =
      (if decide (accepted = []) then [] else idBytes) ++ concat (frame <$> accepted) ∧
    (Forall (λ r, snd r = None) results →
     pending s' = [] ∧ wire h (calls c') =
       (if decide (packets = []) then [] else idBytes) ++ concat (frame <$> packets)).
Proof.
  injection Hs as <-. set (s := mkRTPSendStream _ _ _ _ _ _ _).
  destruct (WriteAll_bytes packets s c Hok)
    as (results & s' & c' & acc & -> & Hs' & Hlen & Hrep & Hsub & _ & Hb & Hpend).
  exists results, s', c', acc. unfold sent_bytes in Hb. destruct Hs' as (Hst & _).
  simpl in Hb, Hst. rewrite Hst, Hh in Hb. split_and!; auto. intros Hall.
  assert (acc = packets) as -> by (by eapply reported_all_accepted).
  rewrite (Hpend Hall (or_introl eq_refl)), app_nil_r in Hb. auto.
Qed.

(** C23: the count [WriteRTPBytes] returns. The call never panics and returns
    between zero and [len(packet)]. Either the flush of an earlier tail failed:
    then it returns zero and an error and the packet is not queued; or the
    packet was framed: then the count is the number of its bytes that are not
    pending, the whole length exactly if nothing is pending, and without an
    error nothing is. *)
Theorem WriteRTPBytes_count (packet : list byte) (s : RTPSendStream) (c : C)
    (Hl : varint_ok (Z.of_nat (length packet))) :
  ∃ n err s' c' evs, WriteRTPBytes packet s c = Ret ((n, err), s', c', evs) ∧
    (0 ≤ n ≤ Z.of_nat (length packet))%Z ∧
    ((pending s ≠ [] ∧ n = 0%Z ∧ err ≠ None ∧ sent_bytes s' c' = sent_bytes s c) ∨
     (sent_bytes s' c' = sent_bytes s c ++ flow_prefix s ++ frame packet ∧
      n = Z.max 0 (Z.of_nat (length packet) - Z.of_nat (length (pending s'))) ∧
      (err = None → pending s' = [] ∧ n = Z.of_nat (length packet)))).
Proof.
  destruct (WriteRTPBytes_cases packet s c Hl) as ([n err] & s' & c' & evs & -> & _ & _ & Hcase).
  exists n, err, s', c', evs. split; [done|].
  destruct Hcase as [(e & [= -> ->] & Hp & _ & Hb & _)|(Hb & _ & He & Hn & Hz & Hnz)]; simpl in *.
  { split; [lia|]. left. split_and!; done. }
  split; [done|]. right. split_and!; auto.
  destruct (decide (pending s' = [])) as [Hp|Hp]; [|by apply Hnz].
  rewrite Hz, Hp by done. simpl. lia.
Qed.

(** C39: a short count does not say what became of the packet. The documentation
    of [WriteRTPBytes] tells callers never to re-send a packet reported short, because
    its unsent bytes are written by the next call. On any stream with nothing pending,
    let the connection fail one write after taking nothing of the packet [p1], and then
    the write of what is left of its frame, with the same error. The calls for [p1] and
    for the next packet [p2] return the same, zero and that error. But the frame of [p1]
    is on the wire or pending, while [p2] is nowhere: once later calls succeed, the
    frame of [p1] and theirs are on the wire, and [p2] never is. *)
Theorem short_count_is_ambiguous (p1 p2 : list byte) (later : list (list byte)) (st : RTPSendStream)
    (c c1 c2 : C) (n1 n2 : Z) (err : goerror) (Hp : pending st = [])
    (Hok : Forall (λ p, varint_ok (Z.of_nat (length p))) (p1 :: later)) :
  let bytes1 := flow_prefix st ++ frame p1 in
  SendStream_Write (stream st) bytes1 c = ((n1, Some err), c1) →
  (n1 + Z.of_nat (length p1) ≤ Z.of_nat (length bytes1))%Z → (n1 < Z.of_nat (length bytes1))%Z →
  SendStream_Write (stream st) (drop (Z.to_nat n1) bytes1) c1 = ((n2, Some err), c2) →
  ∃ st1 st2 evs, WriteRTPBytes p1 st c = Ret ((0%Z, Some err), st1, c1, evs) ∧
    WriteRTPBytes p2 st1 c1 = Ret ((0%Z, Some err), st2, c2, []) ∧
    sent_bytes st1 c1 = sent_bytes st c ++ bytes1 ∧ sent_bytes st2 c2 = sent_bytes st1 c1 ∧
    ∃ results st' c', WriteAll later st2 c2 = Ret (results, st', c') ∧
      (Forall (λ r, snd r = None) results → later ≠ [] → pending st' = [] ∧
         wire (stream st) (calls c') = wire (stream st) (calls c) ++ bytes1 ++ concat (frame <$> later)).
Proof.
  intros bytes1 Hw1 Hhdr Htail Hw2. apply Forall_cons in Hok as [Hok1 Hok].
  destruct (WriteRTPBytes_short p1 st c n1 err c1 Hok1 Hp Hw1 Htail) as (st1 & evs & Hrun1 & Hs1 & Hsent1 & Hp1).
  fold bytes1 in Hrun1, Hp1. rewrite Z.max_l in Hrun1 by lia. pose proof Hs1 as (Hst1 & _).
  apply calls_Write in Hw1 as [Hn1 Hc1]. set (st2 := set_pending (drop (Z.to_nat n2) (pending st1)) st1).
  assert (WriteRTPBytes p2 st1 c1 = Ret ((0%Z, Some err), st2, c2, [])) as Hrun2.
  { apply WriteRTPBytes_blocked; [|by rewrite Hst1, Hp1].
    rewrite Hp1. intros Hnil%(f_equal length). rewrite length_drop in Hnil. simpl in Hnil. lia. }
  apply calls_Write in Hw2 as [Hn2 Hc2]. exists st1, st2, evs.
  assert (sent_bytes st1 c1 = sent_bytes st c ++ bytes1) as Hb1.
  { unfold sent_bytes. rewrite Hst1, Hp1, Hc1, Hp, wire_write, app_nil_r, <- app_assoc. by rewrite take_drop. }
  assert (sent_bytes st2 c2 = sent_bytes st1 c1) as Hb2.
  { unfold sent_bytes. simpl. rewrite Hst1, Hp1, Hc2, wire_write, <- app_assoc. by rewrite take_drop. }
  split_and!; try done.
  destruct (WriteAll_bytes later st2 c2 Hok) as (results & st' & c' & acc & Hrun & (Hst' & _) & Hlen & Hrep & Hsub & _ & Hb & Hpend).
  exists results, st', c'. split; [done|]. intros Hall Hne.
  assert (acc = later) as -> by (by eapply reported_all_accepted). specialize (Hpend Hall (or_intror Hne)).
  split; [done|]. unfold flow_prefix in Hb. simpl in Hb. rewrite Hsent1, Hb2, Hb1 in Hb. unfold sent_bytes in Hb.
  simpl in Hst'. rewrite Hpend, Hp, Hst', Hst1, !app_nil_r in Hb. rewrite Hb, decide_False by done. by rewrite <- app_assoc.
Qed.
End properties.

Section witnesses.
Import RFC9000.

(** Three packets on a stream that takes 4 bytes of the first frame and none
    of the tail, so that the second call fails in the flush. *)
Definition ex_conn : stubConn := newStubConn [(4, Some (EOther "write failed")); (0, Some (EOther "write failed"))]%Z.
Definition ex_packets : list (list byte) := replicate 8 <$> (bytes [170; 187; 204]%Z).
Definition ex_stream : RTPSendStream :=
  mkRTPSendStream 0 1000 (bytes [67; 232]%Z) None false [] [].

Lemma WriteAll_framing_witness :
  ∃ results s' c' accepted, WriteAll ex_packets ex_stream ex_conn = Ret (results, s', c') ∧
    reported_sent results ex_packets `sublist_of` accepted ∧ accepted `sublist_of` ex_packets ∧
    wire 0 (calls c') ++ pending s' =
      (if decide (accepted = []) then [] else bytes [67; 232]%Z) ++ concat (frame <$> accepted) ∧
    (Forall (λ r, snd r = None) results →
     pending s' = [] ∧ wire 0 (calls c') =
       (if decide (ex_packets = []) then [] else bytes [67; 232]%Z)
       ++ concat (frame <$> ex_packets)).
Proof.
  apply (WriteAll_framing 0 1000 (bytes [67; 232]%Z) None ex_packets ex_stream ex_conn).
  - reflexivity.
  - reflexivity.
  - repeat constructor; vm_compute; done.
Defined.

Lemma WriteRTPBytes_count_witness :
  ∃ n err s' c' evs, WriteRTPBytes (replicate 8 Byte.xaa) ex_stream ex_conn = Ret ((n, err), s', c', evs) ∧
    (0 ≤ n ≤ 8)%Z ∧
    ((pending ex_stream ≠ [] ∧ n = 0%Z ∧ err ≠ None ∧ sent_bytes s' c' = sent_bytes ex_stream ex_conn) ∨
     (sent_bytes s' c' = sent_bytes ex_stream ex_conn ++ flow_prefix ex_stream ++ frame (replicate 8 Byte.xaa) ∧
      n = Z.max 0 (8 - Z.of_nat (length (pending s'))) ∧
      (err = None → pending s' = [] ∧ n = 8%Z))).
Proof.
  apply (WriteRTPBytes_count (replicate 8 Byte.xaa) ex_stream ex_conn). vm_compute; done.
Defined.

(** Three packets of a byte. The stream takes the flow ID but nothing of the frame,
    twice; the third call succeeds. *)
Lemma short_count_is_ambiguous_witness :
  ∃ st1 st2 c1 c2 evs, WriteRTPBytes [Byte.x01] ex_stream (newStubConn [(2, Some ErrShortWrite); (0, Some ErrShortWrite)]%Z) =
      Ret ((0%Z, Some ErrShortWrite), st1, c1, evs) ∧
    WriteRTPBytes [Byte.x02] st1 c1 = Ret ((0%Z, Some ErrShortWrite), st2, c2, []) ∧
    ∃ results st' c', WriteAll [[Byte.x03]] st2 c2 = Ret (results, st', c') ∧
      wire 0 (calls c') = bytes [67; 232; 1; 1; 1; 3]%Z.
Proof.
  destruct (short_count_is_ambiguous [Byte.x01] [Byte.x02] [[Byte.x03]] ex_stream
    (newStubConn [(2, Some ErrShortWrite); (0, Some ErrShortWrite)]%Z)
    (mkStub [CWrite 0 (bytes [67; 232; 1; 1]%Z) 2] [(0, Some ErrShortWrite)]%Z 0 None None [] [] [])
    (mkStub [CWrite 0 (bytes [67; 232; 1; 1]%Z) 2; CWrite 0 (bytes [1; 1]%Z) 0] [] 0 None None [] [] [])
    2 0 ErrShortWrite) as (st1 & st2 & evs & H1 & H2 & _ & _ & results & st' & c' & H3 & Hall).
  - reflexivity.
  - repeat constructor; vm_compute; done.
  - reflexivity.
  - vm_compute. discriminate.
  - vm_compute. reflexivity.
  - reflexivity.
  - exists st1, st2. eexists _, _, evs. split; [exact H1|]. split; [exact H2|].
    exists results, st', c'. split; [exact H3|].
    pose proof H1 as H1'. vm_compute in H1'. injection H1' as <- _.
    pose proof H2 as H2'. vm_compute in H2'. injection H2' as <-.
    pose proof H3 as H3'. vm_compute in H3'. injection H3' as <- <- <-.
    destruct Hall as [_ Hw]; [repeat constructor|discriminate|]. etransitivity; [exact Hw|]. vm_compute. reflexivity.
Defined.
End witnesses.
