(* ===== verification/PacketBuffer.v ===== *)
(** * The packet queue and the buffer pool of a receive flow

    A [ReceiveFlow] owns a channel of [*bytes.Buffer] and a [sync.Pool] of them.
    Buffers are shared by reference, so the model keeps them in a store
    [pb_bufs], and the queue and the pool hold references into it. [sync.Pool]
    may hand out any pooled buffer or a new one: [GoPool] is that choice.

    [owned pb held] is the ownership discipline the code follows: no buffer is
    queued, pooled or held by a goroutine twice. The lemmas show that each
    operation keeps it, and that filling a buffer one holds leaves the queued
    packets alone. *)

From S2P Require Import Prelude GoErrors.

(** Which pooled buffer [Get] takes, if any. *)
Class GoPool := {
  pool_pick : list nat → option nat;
  pool_pick_in p b : pool_pick p = Some b → b ∈ p
}.

(** A pool that hands out the buffer that was put back last. *)
Program Definition lifo_pool : GoPool := {| pool_pick := head |}.
Next Obligation. intros [|b p] b'; simpl; [done|]. intros [= <-]. apply list_elem_of_here. Qed.

Record packetBuffer := mkPacketBuffer {
  pb_cap : nat;                (* cap(f.buffer) *)
  pb_queue : list nat;         (* the buffers in the channel, oldest first *)
  pb_closed : bool;            (* whether the channel is closed *)
  pb_pool : list nat;          (* the buffers in the pool *)
  pb_bufs : list (list byte)   (* the unread bytes of every buffer allocated *)
}.

Definition set_queue q pb := mkPacketBuffer (pb_cap pb) q (pb_closed pb) (pb_pool pb) (pb_bufs pb).
Definition set_pool p pb := mkPacketBuffer (pb_cap pb) (pb_queue pb) (pb_closed pb) p (pb_bufs pb).
Definition set_bufs bs pb := mkPacketBuffer (pb_cap pb) (pb_queue pb) (pb_closed pb) (pb_pool pb) bs.

(** [make(chan *bytes.Buffer, n)] and an empty pool. *)
Definition newPacketBuffer (n : Z) : outcome packetBuffer :=
  if decide (n < 0)%Z then Panic PanicMakeChan
  else Ret (mkPacketBuffer (Z.to_nat n) [] false [] []).

(** [f.bufferPool.Get()]: a pooled buffer, or a new, empty one. *)
Definition pool_Get `{!GoPool} (pb : packetBuffer) : nat * packetBuffer :=
  match pool_pick (pb_pool pb) with
  | Some b => (b, set_pool (list_difference (pb_pool pb) [b]) pb)
  | None => (length (pb_bufs pb), set_bufs (pb_bufs pb ++ [[]]) pb)
  end.

(** [f.bufferPool.Put(b)] *)
Definition pool_Put (b : nat) (pb : packetBuffer) : packetBuffer :=
  set_pool (b :: pb_pool pb) pb.

(** [b.Bytes()], [b.Reset()], [b.Write(bs)] and [b.Next(n)]. *)
Definition buf_Bytes (b : nat) (pb : packetBuffer) : list byte := default [] (pb_bufs pb !! b).
Definition buf_set (b : nat) (bs : list byte) (pb : packetBuffer) : packetBuffer :=
  set_bufs (<[b := bs]> (pb_bufs pb)) pb.
Definition buf_Reset (b : nat) (pb : packetBuffer) : packetBuffer := buf_set b [] pb.
Definition buf_Write (b : nat) (bs : list byte) (pb : packetBuffer) : packetBuffer :=
  buf_set b (buf_Bytes b pb ++ bs) pb.
Definition buf_Next (b : nat) (n : nat) (pb : packetBuffer) : packetBuffer :=
  buf_set b (drop n (buf_Bytes b pb)) pb.

(** [select { case f.buffer <- b: ... default: ... }]: whether the channel took
    the buffer. Sending on a closed channel panics. *)
Definition chan_trySend (b : nat) (pb : packetBuffer) : outcome (bool * packetBuffer) :=
  if pb_closed pb then Panic PanicClosedChannelSend
  else if decide (length (pb_queue pb) < pb_cap pb) then
    Ret (true, set_queue (pb_queue pb ++ [b]) pb)
  else Ret (false, pb).

(** What a receive from the channel finds. *)
Inductive received :=
  | RecvBlocked
  | RecvClosed
  | RecvPacket (b : nat) (pb : packetBuffer).

Definition chan_recv (pb : packetBuffer) : received :=
  match pb_queue pb with
  | b :: q => RecvPacket b (set_queue q pb)
  | [] => if pb_closed pb then RecvClosed else RecvBlocked
  end.

(** [close(f.buffer)] *)
Definition chan_close (pb : packetBuffer) : outcome packetBuffer :=
  if pb_closed pb then Panic PanicClosedChannelClose
  else Ret (mkPacketBuffer (pb_cap pb) (pb_queue pb) true (pb_pool pb) (pb_bufs pb)).

(** The queued packets, oldest first. *)
Definition contents (pb : packetBuffer) : list (list byte) :=
  (λ b, buf_Bytes b pb) <$> pb_queue pb.

(** ** Ownership *)

Definition owned (pb : packetBuffer) (held : list nat) : Prop :=
  NoDup (pb_queue pb ++ pb_pool pb ++ held) ∧
  Forall (λ b, b < length (pb_bufs pb)) (pb_queue pb ++ pb_pool pb ++ held).

(** The operations that leave the queue alone. *)
Definition same_queue (pb pb' : packetBuffer) : Prop :=
  pb_cap pb' = pb_cap pb ∧ pb_queue pb' = pb_queue pb ∧ pb_closed pb' = pb_closed pb ∧
  contents pb' = contents pb.

Lemma same_queue_trans pb1 pb2 pb3 : same_queue pb1 pb2 → same_queue pb2 pb3 → same_queue pb1 pb3.
Proof. unfold same_queue. intuition congruence. Qed.

(** Taking out one of several distinct buffers. *)
Lemma held_split (b : nat) (held : list nat) :
  NoDup held → b ∈ held → held ≡ₚ b :: list_difference held [b].
Proof.
  intros Hnd Hb. apply NoDup_Permutation; [done| |].
  - apply NoDup_cons. rewrite list_elem_of_difference. split; [set_solver|].
    by apply NoDup_list_difference.
  - intros x. rewrite elem_of_cons, list_elem_of_difference, list_elem_of_singleton.
    destruct (decide (x = b)); naive_solver.
Qed.

Section ownership.
Implicit Types (pb : packetBuffer) (b : nat) (held : list nat).

Lemma owned_perm pb held held' : held ≡ₚ held' → owned pb held → owned pb held'.
Proof. intros Hp [Hn Hf]. split; by rewrite <- Hp. Qed.

Lemma owned_moved pb pb' held held' :
  pb_queue pb' ++ pb_pool pb' ++ held' ≡ₚ pb_queue pb ++ pb_pool pb ++ held →
  length (pb_bufs pb') = length (pb_bufs pb) → owned pb held → owned pb' held'.
Proof. intros Hp Hl [Hn Hf]. split; rewrite Hp; [done|]. by rewrite Hl. Qed.

Lemma held_first pb b held :
  pb_queue pb ++ pb_pool pb ++ b :: held ≡ₚ b :: pb_queue pb ++ pb_pool pb ++ held.
Proof. rewrite !app_assoc. symmetry. apply Permutation_middle. Qed.

Lemma owned_weaken pb b held : owned pb (b :: held) → owned pb held.
Proof. unfold owned. rewrite held_first, NoDup_cons, Forall_cons. tauto. Qed.

Lemma owned_held_NoDup pb held : owned pb held → NoDup held.
Proof. intros [Hn _]. by apply NoDup_app in Hn as (_ & _ & (_ & _ & ?)%NoDup_app). Qed.

Lemma owned_bound pb b held : owned pb held → b ∈ held → b < length (pb_bufs pb).
Proof.
  intros [_ Hf] Hb. rewrite Forall_forall in Hf. apply Hf. set_solver.
Qed.

Lemma owned_not_queued pb b held : owned pb held → b ∈ held → b ∉ pb_queue pb.
Proof. intros [Hn _] Hb Hq. apply NoDup_app in Hn as (_ & Hd & _). apply (Hd b); set_solver. Qed.

Lemma buf_Bytes_set_ne b b' bs pb : b ≠ b' → buf_Bytes b' (buf_set b bs pb) = buf_Bytes b' pb.
Proof. intros. unfold buf_Bytes. simpl. by rewrite list_lookup_insert_ne. Qed.

Lemma buf_Bytes_set b bs pb : b < length (pb_bufs pb) → buf_Bytes b (buf_set b bs pb) = bs.
Proof. intros. unfold buf_Bytes. simpl. by rewrite list_lookup_insert_eq. Qed.

Lemma buf_set_set b bs bs' pb : buf_set b bs' (buf_set b bs pb) = buf_set b bs' pb.
Proof. unfold buf_set. simpl. by rewrite list_insert_insert_eq. Qed.

(** A buffer that is reset and then written to. *)
Lemma buf_fill b bs pb : b < length (pb_bufs pb) → buf_Write b bs (buf_Reset b pb) = buf_set b bs pb.
Proof.
  intros Hb. unfold buf_Write, buf_Reset. by rewrite buf_Bytes_set, buf_set_set.
Qed.

Lemma buf_Write_set b bs bs' pb :
  b < length (pb_bufs pb) → buf_Write b bs' (buf_set b bs pb) = buf_set b (bs ++ bs') pb.
Proof. intros Hb. unfold buf_Write. by rewrite buf_Bytes_set, buf_set_set. Qed.

Lemma buf_Next_set b bs n pb :
  b < length (pb_bufs pb) → buf_Next b n (buf_set b bs pb) = buf_set b (drop n bs) pb.
Proof. intros Hb. unfold buf_Next. by rewrite buf_Bytes_set, buf_set_set. Qed.

(** Writing to a buffer one holds. *)
Lemma buf_set_owned b bs pb held :
  owned pb held → b ∈ held → owned (buf_set b bs pb) held ∧ same_queue pb (buf_set b bs pb).
Proof.
  intros Ho Hb. split.
  - apply (owned_moved pb _ held held); [done| |done]. simpl. by rewrite length_insert.
  - split_and!; [done..|]. unfold contents. simpl. apply list_fmap_ext. intros i b' Hi.
    apply buf_Bytes_set_ne. intros ->. eapply owned_not_queued; [done..|].
    by eapply list_elem_of_lookup_2.
Qed.

Lemma pool_Get_owned `{!GoPool} pb held b pb' :
  owned pb held → pool_Get pb = (b, pb') → owned pb' (b :: held) ∧ same_queue pb pb'.
Proof.
  intros Ho. unfold pool_Get. destruct (pool_pick _) as [b0|] eqn:Hp; intros [= <- <-].
  - apply pool_pick_in in Hp. split; [|done].
    assert (NoDup (pb_pool pb)) as Hnd.
    { destruct Ho as [Hn _]. apply NoDup_app in Hn as (_ & _ & [Hn _]%NoDup_app). done. }
    apply (owned_moved pb _ held); [|done..]. simpl. f_equiv.
    rewrite <- Permutation_middle, app_comm_cons. f_equiv.
    symmetry. by apply held_split.
  - destruct Ho as [Hn Hf]. split.
    + assert (length (pb_bufs pb) ∉ pb_queue pb ++ pb_pool pb ++ held) as Hfresh.
      { intros Hin. rewrite Forall_forall in Hf. apply Hf in Hin. lia. }
      split; simpl; rewrite held_first; [by apply NoDup_cons|]. rewrite length_app; simpl.
      apply Forall_cons. split; [lia|]. eapply Forall_impl; [done|]. simpl. lia.
    + split_and!; [done..|]. unfold contents. simpl. apply list_fmap_ext. intros i b Hi.
      unfold buf_Bytes. simpl. rewrite lookup_app_l; [done|].
      rewrite Forall_forall in Hf. apply Hf, elem_of_app. left.
      by eapply list_elem_of_lookup_2.
Qed.

Lemma pool_Put_owned b pb held :
  owned pb (b :: held) → owned (pool_Put b pb) held ∧ same_queue pb (pool_Put b pb).
Proof.
  intros Ho. split; [|done]. apply (owned_moved pb _ (b :: held)); [|done..]. simpl. f_equiv.
  by rewrite Permutation_middle.
Qed.

Lemma send_owned b pb held pb' :
  owned pb (b :: held) → chan_trySend b pb = Ret (true, pb') →
  owned pb' held ∧ contents pb' = contents pb ++ [buf_Bytes b pb] ∧
  length (pb_queue pb) < pb_cap pb ∧ pb_queue pb' = pb_queue pb ++ [b] ∧
  pb_cap pb' = pb_cap pb ∧ pb_closed pb' = pb_closed pb.
Proof.
  unfold chan_trySend. intros Ho. destruct (pb_closed pb) eqn:Hc; [done|].
  case_decide; [|done]. intros [= <-]. split_and!; try done.
  - apply (owned_moved pb _ (b :: held)); [|done..]. simpl.
    rewrite <- app_assoc. f_equiv. simpl. apply Permutation_middle.
  - unfold contents. simpl. by rewrite fmap_app.
Qed.

Lemma recv_owned pb held b pb' :
  owned pb held → chan_recv pb = RecvPacket b pb' →
  owned pb' (b :: held) ∧ contents pb = buf_Bytes b pb' :: contents pb' ∧
  pb_queue pb = b :: pb_queue pb' ∧ pb_cap pb' = pb_cap pb ∧ pb_closed pb' = pb_closed pb.
Proof.
  unfold chan_recv, contents. intros Ho. destruct (pb_queue pb) as [|b0 q] eqn:Hq.
  { by destruct (pb_closed pb). }
  intros [= <- <-]. split_and!; try done.
  apply (owned_moved pb _ held); [|done..]. simpl. rewrite Hq. simpl.
  rewrite !app_assoc. symmetry. apply Permutation_middle.
Qed.
End ownership.
