(* ===== verification/Deadline.v ===== *)
(** * The read deadline of a receive flow

    [deadline] groups the fields [deadlineCh], [deadlineExpired] and
    [deadlineTimer] of [ReceiveFlow] with the run-time objects they refer to: the
    channels made so far, each open or closed, the armed timers, and the timer
    functions that have started and wait for the lock of the flow. [Timer.Stop]
    cannot take back a function that has started, so such a function may run
    after its deadline was replaced; it then finds another channel in
    [deadlineCh] and does nothing.

    [dl_ok] is the invariant that excludes a double close and a missed wake-up:
    the current channel is closed exactly if the deadline is reported expired, and
    all earlier channels are closed. [dl_time] ties expiry to the clock, for the
    deadline [cur] that was set last. *)

From S2P Require Import Prelude.

Record deadline := mkDeadline {
  deadlineCh : nat;
  deadlineExpired : bool;
  deadlineTimer : option nat;
  dl_chans : list bool;             (* the channels made, and which are closed *)
  dl_timers : gmap nat (Z * nat);   (* armed timers: when, and for which channel *)
  dl_nextTimer : nat;
  dl_fired : list nat               (* timer functions that wait for the lock *)
}.

(** [deadlineCh: make(chan struct{})], and zero values for the rest. *)
Definition newDeadline : deadline := mkDeadline 0 false None [false] ∅ 0 [].

Definition set_expired b d := mkDeadline (deadlineCh d) b (deadlineTimer d) (dl_chans d)
  (dl_timers d) (dl_nextTimer d) (dl_fired d).
Definition set_chans cs d := mkDeadline (deadlineCh d) (deadlineExpired d) (deadlineTimer d) cs
  (dl_timers d) (dl_nextTimer d) (dl_fired d).

(** [close(ch)] *)
Definition close_ch (ch : nat) (d : deadline) : outcome deadline :=
  match dl_chans d !! ch with
  | Some false => Ret (set_chans (<[ch := true]> (dl_chans d)) d)
  | Some true => Panic PanicClosedChannelClose
  | None => Panic PanicNilDereference
  end.

(** [if f.deadlineTimer != nil { f.deadlineTimer.Stop(); f.deadlineTimer = nil }] *)
Definition stopTimer (d : deadline) : deadline :=
  match deadlineTimer d with
  | Some t => mkDeadline (deadlineCh d) (deadlineExpired d) None (dl_chans d)
                (delete t (dl_timers d)) (dl_nextTimer d) (dl_fired d)
  | None => d
  end.

(** [f.deadlineCh = make(chan struct{})] *)
Definition make_deadlineCh (d : deadline) : deadline :=
  mkDeadline (length (dl_chans d)) (deadlineExpired d) (deadlineTimer d) (dl_chans d ++ [false])
    (dl_timers d) (dl_nextTimer d) (dl_fired d).

(** [f.deadlineTimer = time.AfterFunc(...)], due at [when]. *)
Definition afterFunc (when : Z) (ch : nat) (d : deadline) : deadline :=
  mkDeadline (deadlineCh d) (deadlineExpired d) (Some (dl_nextTimer d)) (dl_chans d)
    (<[dl_nextTimer d := (when, ch)]> (dl_timers d)) (S (dl_nextTimer d)) (dl_fired d).

Definition expireDeadline (ch : nat) (d : deadline) : outcome deadline :=
  if decide (deadlineCh d ≠ ch) then Ret d
  else if deadlineExpired d then Ret d
  else close_ch ch (set_expired true d).

(** [SetReadDeadline(t)] at time [now]; [None] is the zero time. The duration is exact:
    [time.Until] cuts it at the largest [time.Duration], 292 years. *)
Definition SetReadDeadline (t : option Z) (now : Z) (d : deadline) : outcome deadline :=
  let d := stopTimer d in
  d ← (if negb (deadlineExpired d) then close_ch (deadlineCh d) d else Ret d);
  let d := make_deadlineCh d in
  let d := set_expired false d in
  match t with
  | None => Ret d
  | Some t =>
      let dur := (t - now)%Z in
      if decide (dur ≤ 0)%Z then expireDeadline (deadlineCh d) d
      else let ch := deadlineCh d in Ret (afterFunc (now + dur) ch d)
  end.

(** The runtime starts the function of a timer that is due. *)
Definition fireTimer (id : nat) (now : Z) (d : deadline) : option deadline :=
  match dl_timers d !! id with
  | Some (when, ch) =>
      if decide (when ≤ now)%Z then
        Some (mkDeadline (deadlineCh d) (deadlineExpired d) (deadlineTimer d) (dl_chans d)
                (delete id (dl_timers d)) (dl_nextTimer d) (dl_fired d ++ [ch]))
      else None
  | None => None
  end.

(** The function of a timer gets the lock and runs. *)
Definition timerFunc (d : deadline) : option (outcome deadline) :=
  match dl_fired d with
  | ch :: fired =>
      Some (expireDeadline ch (mkDeadline (deadlineCh d) (deadlineExpired d) (deadlineTimer d)
              (dl_chans d) (dl_timers d) (dl_nextTimer d) fired))
  | [] => None
  end.

(** Whether a receive from channel [ch] is ready. *)
Definition ch_closed (ch : nat) (d : deadline) : bool := default false (dl_chans d !! ch).

(** ** Invariants *)

Definition dl_ok (d : deadline) : Prop :=
  dl_chans d !! deadlineCh d = Some (deadlineExpired d) ∧
  (∀ ch b, dl_chans d !! ch = Some b → ch ≠ deadlineCh d → b = true).

(** The deadline set last, if any, has passed. *)
Definition passed (cur : option Z) (now : Z) : Prop := ∃ t, cur = Some t ∧ (t ≤ now)%Z.

Definition dl_time (cur : option Z) (now : Z) (d : deadline) : Prop :=
  (deadlineExpired d = true → passed cur now) ∧
  (∀ id when ch, dl_timers d !! id = Some (when, ch) →
     ch < length (dl_chans d) ∧ (ch = deadlineCh d → passed cur when)) ∧
  Forall (λ ch, ch < length (dl_chans d) ∧ (ch = deadlineCh d → passed cur now)) (dl_fired d).

(** A deadline that has not been reported yet will be: its timer is armed, or
    its function has started. [live] is false once closing the flow stopped the
    timer. *)
Definition dl_armed (cur : option Z) (live : bool) (d : deadline) : Prop :=
  (∀ id, is_Some (dl_timers d !! id) → id < dl_nextTimer d) ∧
  (∀ t, live = true → cur = Some t → deadlineExpired d = true ∨ deadlineCh d ∈ dl_fired d ∨
     ∃ id, deadlineTimer d = Some id ∧ dl_timers d !! id = Some (t, deadlineCh d)).

Record dl_inv (cur : option Z) (live : bool) (now : Z) (d : deadline) : Prop := {
  dl_inv_ok : dl_ok d;
  dl_inv_time : dl_time cur now d;
  dl_inv_armed : dl_armed cur live d
}.

Lemma passed_mono cur now now' : (now ≤ now')%Z → passed cur now → passed cur now'.
Proof. intros ? (t & ? & ?). exists t. split; [done|lia]. Qed.

Lemma newDeadline_inv now : dl_inv None true now newDeadline.
Proof.
  split.
  - split; [done|]. intros [|ch] b; simpl; [done|]. by rewrite lookup_nil.
  - split_and!; [done| |done]. intros id when ch. simpl. by rewrite lookup_empty.
  - split; [|done]. intros id [x Hx]. simpl in Hx. by rewrite lookup_empty in Hx.
Qed.

Lemma dl_ok_bound d : dl_ok d → deadlineCh d < length (dl_chans d).
Proof. intros [H _]. by apply lookup_lt_Some in H. Qed.

(** Expiry closes the current channel, once. *)
Lemma expireDeadline_spec ch d : dl_ok d →
  expireDeadline ch d = Ret (
    if decide (deadlineCh d = ch ∧ deadlineExpired d = false)
    then set_chans (<[ch := true]> (dl_chans d)) (set_expired true d) else d).
Proof.
  intros [Hch _]. unfold expireDeadline, close_ch.
  case_decide as Hne; [by rewrite decide_False by (intros [? ?]; congruence)|].
  assert (deadlineCh d = ch) as <- by (by destruct (decide (deadlineCh d = ch))).
  destruct (deadlineExpired d) eqn:He; [by rewrite decide_False by (intros [? ?]; congruence)|].
  simpl. by rewrite Hch, decide_True by done.
Qed.

Lemma expireDeadline_inv cur live now ch d :
  dl_inv cur live now d → (ch = deadlineCh d → passed cur now) →
  ∃ d', expireDeadline ch d = Ret d' ∧ dl_inv cur live now d' ∧ deadlineCh d' = deadlineCh d ∧
    (ch = deadlineCh d → deadlineExpired d' = true) ∧
    (∀ ch', ch_closed ch' d = true → ch_closed ch' d' = true).
Proof.
  intros [Hok (Ht1 & Ht2 & Ht3) [Ha1 Ha2]] Hp. rewrite expireDeadline_spec by done.
  eexists; split; [done|]. case_decide as Hd.
  2:{ split_and!; [split; done|done| |done]. intros ->.
      destruct (deadlineExpired d) eqn:?; [done|]. by destruct Hd. }
  destruct Hd as [Hch He]. subst ch. pose proof (dl_ok_bound _ Hok). destruct Hok as [Hc Hcl].
  split_and!; [|done..|].
  - split.
    + split; simpl; [by rewrite list_lookup_insert_eq|].
      intros ch' b Hch' Hne. rewrite list_lookup_insert_ne in Hch' by done. eauto.
    + split_and!; simpl; rewrite ?length_insert; auto.
    + split; simpl; auto.
  - intros ch'. unfold ch_closed. simpl. destruct (decide (ch' = deadlineCh d)) as [->|].
    + by rewrite list_lookup_insert_eq.
    + by rewrite list_lookup_insert_ne.
Qed.

(** Closing the flow stops the timer. *)
Lemma stopTimer_inv cur live now d : dl_inv cur live now d → dl_inv cur false now (stopTimer d).
Proof.
  intros [Hok (Ht1 & Ht2 & Ht3) [Ha1 _]]. unfold stopTimer.
  destruct (deadlineTimer d) as [id|]; [|done].
  split; [done|split_and!; simpl; auto|split; simpl; [|done]].
  - intros id' when ch [_ ?]%lookup_delete_Some. eauto.
  - intros id' [x [_ ?]%lookup_delete_Some]. eauto.
Qed.

(** Waking the readers of the current deadline leaves no channel open. *)
Lemma wake_spec d : dl_ok d → ∃ cs,
  (if negb (deadlineExpired d) then close_ch (deadlineCh d) d else Ret d) = Ret (set_chans cs d) ∧
  length cs = length (dl_chans d) ∧ Forall (λ b, b = true) cs.
Proof.
  intros Hok. pose proof (dl_ok_bound _ Hok) as Hlt. destruct Hok as [Hc Hcl].
  destruct (deadlineExpired d) eqn:He; simpl.
  - exists (dl_chans d). split_and!; [by destruct d|done|].
    apply Forall_lookup. intros ch b Hch. destruct (decide (ch = deadlineCh d)); [|eauto].
    subst. congruence.
  - exists (<[deadlineCh d := true]> (dl_chans d)). unfold close_ch. rewrite Hc.
    split_and!; [done|by rewrite length_insert|].
    apply Forall_lookup. intros ch b [(? & ? & ?)|[? ?]]%list_lookup_insert_Some; subst; eauto.
Qed.

(** A fresh, unexpired deadline channel after all the others were closed. *)
Definition renewed (cs : list bool) (d : deadline) : deadline :=
  set_expired false (make_deadlineCh (set_chans cs d)).

Lemma renewed_ok cs d : Forall (λ b, b = true) cs → dl_ok (renewed cs d).
Proof.
  intros Hcs. split; simpl; [by rewrite lookup_app_r, Nat.sub_diag|].
  intros ch b Hch Hne. apply lookup_app_Some in Hch as [Hch|[Hge Hch]].
  - by eapply Forall_lookup_1 in Hcs.
  - apply lookup_lt_Some in Hch as Hlt. simpl in Hlt. lia.
Qed.

Lemma renewed_time cur t now cs d :
  length cs = length (dl_chans d) → dl_time cur now d → dl_time t now (renewed cs d).
Proof.
  intros Hl (_ & Ht2 & Ht3). split_and!; simpl; [done|..]; rewrite length_app, Hl; simpl.
  - intros id when ch [? _]%Ht2. split; [lia|]. intros ->. lia.
  - eapply Forall_impl; [done|]. simpl. intros ch [? _]. split; [lia|]. intros ->. lia.
Qed.

Lemma expireDeadline_ok ch d : dl_ok d → ∃ d', expireDeadline ch d = Ret d' ∧ dl_ok d'.
Proof.
  intros Hok. rewrite expireDeadline_spec by done. eexists; split; [done|].
  case_decide as Hd; [|done]. destruct Hd as [<- _]. pose proof (dl_ok_bound _ Hok).
  destruct Hok as [Hc Hcl]. split; simpl; [by rewrite list_lookup_insert_eq|].
  intros ch b Hch Hne. rewrite list_lookup_insert_ne in Hch by done. eauto.
Qed.

Lemma SetReadDeadline_ok t now d : dl_ok d → ∃ d', SetReadDeadline t now d = Ret d' ∧ dl_ok d'.
Proof.
  intros Hok. assert (dl_ok (stopTimer d)) as Hok1 by (unfold stopTimer; by destruct (deadlineTimer d)).
  unfold SetReadDeadline. destruct (wake_spec _ Hok1) as (cs & -> & _ & Hcs). simpl.
  fold (renewed cs (stopTimer d)). pose proof (renewed_ok cs (stopTimer d) Hcs) as Hok'.
  destruct t as [t|]; [|by eexists]. case_decide; [by apply expireDeadline_ok|by eexists].
Qed.

(** Setting a deadline never panics. It wakes everyone who waits on the old
    channel: all channels but the new one are closed. *)
Lemma SetReadDeadline_inv cur live now t d : dl_inv cur live now d →
  ∃ d', SetReadDeadline t now d = Ret d' ∧ dl_inv t true now d' ∧
    (∀ ch, ch < length (dl_chans d) → ch_closed ch d' = true) ∧
    (deadlineExpired d' = true ↔ passed t now).
Proof.
  intros Hd%stopTimer_inv. assert (dl_chans (stopTimer d) = dl_chans d) as <-
    by (unfold stopTimer; by destruct (deadlineTimer d)).
  unfold SetReadDeadline. revert Hd. generalize (stopTimer d). clear d. intros d [Hok Ht [Ha _]].
  destruct (wake_spec d Hok) as (cs & -> & Hl & Hcs). simpl.
  fold (renewed cs d). pose proof (renewed_ok cs d Hcs) as Hok'.
  assert (∀ ch, ch < length (dl_chans d) → ch_closed ch (renewed cs d) = true) as Hwoken.
  { intros ch Hch. unfold ch_closed. simpl. rewrite lookup_app_l by lia.
    destruct (lookup_lt_is_Some_2 cs ch) as [b Hb]; [lia|]. rewrite Hb.
    by eapply Forall_lookup_1 in Hcs. }
  destruct t as [t|]; [case_decide as Hdur|].
  - pose proof (renewed_time cur (Some t) now cs d Hl Ht) as Ht'.
    rewrite expireDeadline_spec, decide_True by done. eexists; split; [done|].
    split_and!.
    + split; [|split_and!; simpl|split; simpl; auto].
      * split; simpl; [by rewrite list_lookup_insert_eq by (rewrite length_app; simpl; lia)|].
        intros ch b Hch Hne. rewrite list_lookup_insert_ne in Hch by done. by apply Hok' in Hch.
      * intros _. exists t. split; [done|lia].
      * rewrite length_insert. apply Ht'.
      * rewrite length_insert. apply Ht'.
    + intros ch Hch. unfold ch_closed in *. simpl.
      rewrite list_lookup_insert_ne by lia. by apply Hwoken.
    + simpl. split; [|done]. intros _. exists t. split; [done|lia].
  - pose proof (renewed_time cur (Some t) now cs d Hl Ht) as (_ & Ht2 & Ht3).
    eexists; split; [done|]. replace (now + (t - now))%Z with t by lia. split_and!; [|done|].
    + split; [done|split_and!; simpl|split; simpl].
      * done.
      * intros id when ch [[<- [= <- <-]]|[Hne Hid]]%lookup_insert_Some; [|by apply (Ht2 id)].
        rewrite length_app. simpl. split; [lia|]. intros _. exists t. split; [done|lia].
      * done.
      * intros id Hid. destruct (decide (id = dl_nextTimer d)) as [->|]; [lia|].
        rewrite lookup_insert_ne in Hid by done. apply Ha in Hid. lia.
      * intros ? _ [= <-]. right. right. eexists. split; [done|]. by rewrite lookup_insert_eq.
    + simpl. split; [done|]. intros (t' & [= <-] & ?). lia.
  - eexists; split; [done|]. split_and!; [|done|].
    + split; [done|by eapply renewed_time|split; simpl; [done|]]. done.
    + simpl. split; [done|]. by intros (t' & ? & _).
Qed.

(** The clock, and the functions of timers. *)
Lemma dl_inv_later cur live now now' d : (now ≤ now')%Z → dl_inv cur live now d → dl_inv cur live now' d.
Proof.
  intros Hle [Hok (Ht1 & Ht2 & Ht3) Ha]. split; [done| |done]. split_and!; eauto using passed_mono.
  eapply Forall_impl; [done|]. simpl. intros ch [? ?]. eauto using passed_mono.
Qed.

Lemma fireTimer_inv cur live now id d d' :
  dl_inv cur live now d → fireTimer id now d = Some d' → dl_inv cur live now d' ∧
  dl_chans d' = dl_chans d ∧ deadlineCh d' = deadlineCh d.
Proof.
  unfold fireTimer. intros [Hok (Ht1 & Ht2 & Ht3) [Ha1 Ha2]].
  destruct (dl_timers d !! id) as [[when ch]|] eqn:Hid; [|done].
  case_decide as Hw; [|done]. intros [= <-]. split; [|done].
  split; [done|split_and!; simpl|split; simpl].
  - done.
  - intros id' when' ch' [_ ?]%lookup_delete_Some. eauto.
  - apply Forall_app. split; [done|]. apply Forall_singleton.
    destruct (Ht2 _ _ _ Hid). split; [done|]. intros ?. eapply passed_mono; eauto.
  - intros id' [x [_ ?]%lookup_delete_Some]. eauto.
  - intros t Hlive Hcur. destruct (Ha2 t Hlive Hcur) as [?|[?|(id' & ? & Hid')]]; [auto|set_solver|].
    destruct (decide (id = id')) as [->|]; [|right; right; exists id'; by rewrite lookup_delete_ne].
    rewrite Hid in Hid'. injection Hid' as -> ->. set_solver.
Qed.

Lemma timerFunc_inv cur live now d m :
  dl_inv cur live now d → timerFunc d = Some m →
  ∃ d', m = Ret d' ∧ dl_inv cur live now d' ∧ deadlineCh d' = deadlineCh d ∧
    (∀ ch, ch_closed ch d = true → ch_closed ch d' = true).
Proof.
  unfold timerFunc. intros [Hok (Ht1 & Ht2 & Ht3) [Ha1 Ha2]].
  destruct (dl_fired d) as [|ch fired] eqn:Hf; [done|]. intros [= <-].
  apply Forall_cons in Ht3 as [[Hch Hp] Ht3]. set (d0 := mkDeadline _ _ _ _ _ _ fired).
  assert (dl_inv cur false now d0) as Hd0 by (split; [done|by split_and!|by split]).
  destruct (expireDeadline_inv cur false now ch d0 Hd0 Hp) as (d' & He & [Hok' Ht' _] & Hc & Hexp & Hcl).
  exists d'. split_and!; [done| |done|done]. split; [done..|].
  rewrite expireDeadline_spec in He by done. injection He as He.
  split; [|intros t Hlive Hcur]; case_decide as Hd; subst d'; simpl; auto.
  destruct (Ha2 t Hlive Hcur) as [?|[Hin|?]]; auto. rewrite elem_of_cons in Hin.
  destruct Hin as [<-|Hin]; [|auto]. left. by apply Hexp.
Qed.
