(* ===== verification/ReceiveFlow.v ===== *)
(** * receive_flow.go: a flow of received packets

    [ReceiveFlow] is the struct: its packet queue and buffer pool are a
    [packetBuffer] and its deadline fields a [deadline]. Every critical section
    of the source, from taking [f.lock] to releasing it, is one function here:
    [push], [closeWithError], [closeBuffer], [SetReadDeadline] and [Read_lock];
    [Close] and [Read] compose them. FlowSteps.v interleaves them. *)

From S2P Require Import Prelude GoErrors IO Qlogger Options SyncMap Connection PacketBuffer.
From S2P Require Import Deadline.

Record ReceiveFlow := mkReceiveFlow {
  rf_id : Z;
  rf_buffer : packetBuffer;               (* buffer, bufferPool *)
  rf_ctxDone : bool;                      (* whether ctx is cancelled *)
  rf_streams : gmap Z ReceiveStream;
  rf_closed : bool;
  rf_deadline : deadline;                 (* deadlineCh, deadlineExpired, deadlineTimer *)
  rf_qlog : option qlogger;
  rf_logger : slogger
}.

Definition set_rf_buffer pb f := mkReceiveFlow (rf_id f) pb (rf_ctxDone f) (rf_streams f)
  (rf_closed f) (rf_deadline f) (rf_qlog f) (rf_logger f).
Definition set_rf_ctxDone b f := mkReceiveFlow (rf_id f) (rf_buffer f) b (rf_streams f)
  (rf_closed f) (rf_deadline f) (rf_qlog f) (rf_logger f).
Definition set_rf_streams ss f := mkReceiveFlow (rf_id f) (rf_buffer f) (rf_ctxDone f) ss
  (rf_closed f) (rf_deadline f) (rf_qlog f) (rf_logger f).
Definition set_rf_closed b f := mkReceiveFlow (rf_id f) (rf_buffer f) (rf_ctxDone f) (rf_streams f)
  b (rf_deadline f) (rf_qlog f) (rf_logger f).
Definition set_rf_deadline d f := mkReceiveFlow (rf_id f) (rf_buffer f) (rf_ctxDone f) (rf_streams f)
  (rf_closed f) d (rf_qlog f) (rf_logger f).

(** A nil logger is replaced by the discarding one. *)
Definition newReceiveFlow (id receiveBufferSize : Z) (qlog : option qlogger)
    (logger : option slogger) : outcome ReceiveFlow :=
  pb ← newPacketBuffer receiveBufferSize;
  Ret (mkReceiveFlow id pb false ∅ false newDeadline qlog (default discardLogger logger)).

(** [push] queues a packet, or hands its buffer back to the pool. *)
Definition push (packet : nat) (f : ReceiveFlow) : outcome ReceiveFlow :=
  if rf_closed f then Ret (set_rf_buffer (pool_Put packet (rf_buffer f)) f)
  else
    '(sent, pb) ← chan_trySend packet (rf_buffer f);
    if (sent : bool) then Ret (set_rf_buffer pb f)
    else Ret (set_rf_buffer (pool_Put packet pb) f).

Definition ReceiveFlow_ID (f : ReceiveFlow) : Z := rf_id f.

(** [f.ctx.Err()] *)
Definition ctx_Err (f : ReceiveFlow) : option goerror :=
  if rf_ctxDone f then Some ContextCanceled else None.

(** ** Read *)

(** What a [Read] call returns: the count, the error, and the caller's buffer. *)
Abbreviation read_result := (Z * option goerror * list byte)%type.

(** [copyPacket(buf, packet)] *)
Definition copyPacket (buf : list byte) (packet : nat) (f : ReceiveFlow) : read_result * ReceiveFlow :=
  let data := buf_Bytes packet (rf_buffer f) in
  let f' := set_rf_buffer (pool_Put packet (rf_buffer f)) f in
  if decide (length buf < length data) then ((0%Z, Some ErrShortBuffer, buf), f')
  else ((Z.of_nat (length data), None, data ++ drop (length data) buf), f').

(** The first part of an iteration: under the lock, either the deadline has
    expired, or the channel to wait on is read. *)
Definition Read_lock (f : ReceiveFlow) : goerror + nat :=
  if deadlineExpired (rf_deadline f) then inl ErrDeadlineExceeded
  else inr (deadlineCh (rf_deadline f)).

(** The second part: a [select] between the packet queue and the channel. The
    result of a case, if it is ready. *)
Inductive select_case := SelPacket | SelDeadline.

Inductive read_step :=
  | ReadReturn (r : read_result) (f : ReceiveFlow)
  | ReadAgain.

Definition Read_select (cs : select_case) (ch : nat) (buf : list byte) (f : ReceiveFlow)
    : option read_step :=
  match cs with
  | SelPacket =>
      match chan_recv (rf_buffer f) with
      | RecvBlocked => None
      | RecvClosed => Some (ReadReturn (0%Z, ctx_Err f, buf) f)
      | RecvPacket packet pb =>
          let '(r, f') := copyPacket buf packet (set_rf_buffer pb f) in Some (ReadReturn r f')
      end
  | SelDeadline => if ch_closed ch (rf_deadline f) then Some ReadAgain else None
  end.

(** [Read] with no other goroutine in between; [None] if it blocks. [prefer] is
    the case Go picks when both are ready; [fuel] bounds the iterations. *)
Fixpoint Read (fuel : nat) (prefer : select_case) (buf : list byte) (f : ReceiveFlow)
    : option (read_result * ReceiveFlow) :=
  match fuel with
  | 0 => None
  | S fuel =>
      match Read_lock f with
      | inl err => Some ((0%Z, Some err, buf), f)
      | inr ch =>
          let other := match prefer with SelPacket => SelDeadline | SelDeadline => SelPacket end in
          let ready := match Read_select prefer ch buf f with
                       | Some r => Some r
                       | None => Read_select other ch buf f
                       end in
          match ready with
          | Some (ReadReturn r f') => Some (r, f')
          | Some ReadAgain => Read fuel prefer buf f
          | None => None
          end
      end
  end.

Definition ReceiveFlow_SetReadDeadline (t : option Z) (now : Z) (f : ReceiveFlow) : outcome ReceiveFlow :=
  d ← SetReadDeadline t now (rf_deadline f); Ret (set_rf_deadline d f).

(** ** Close *)

Definition cancelCtx (f : ReceiveFlow) : ReceiveFlow := set_rf_ctxDone true f.

Definition closeBuffer (f : ReceiveFlow) : outcome ReceiveFlow :=
  if rf_closed f then Ret f
  else
    let f := set_rf_closed true f in
    let f := set_rf_deadline (stopTimer (rf_deadline f)) f in
    pb ← chan_close (rf_buffer f);
    Ret (set_rf_buffer pb f).

(** [closeWithError] cancels the streams of the flow, in the order in which Go
    ranges over the map. *)
Definition closeWithError `{!GoMapOrder} (code : Z) (f : ReceiveFlow) : list effect :=
  (λ '(_, s), ECancelRead (rs_ID s) code) <$> go_range (rf_streams f).

Definition Close `{!GoMapOrder} (f : ReceiveFlow) : outcome (option goerror * ReceiveFlow * list effect) :=
  let f := cancelCtx f in
  f ← closeBuffer f;
  Ret (None, f, closeWithError ErrRoQNoError f).

(** ** Invariant *)

(** The queued packets. *)
Definition rf_packets (f : ReceiveFlow) : list (list byte) := contents (rf_buffer f).

(** [held] are the buffers goroutines have taken from the pool or the queue. *)
Record rf_inv (held : list nat) (f : ReceiveFlow) : Prop := {
  rf_inv_owned : owned (rf_buffer f) held;
  rf_inv_chan : pb_closed (rf_buffer f) = rf_closed f;
  rf_inv_cap : length (pb_queue (rf_buffer f)) ≤ pb_cap (rf_buffer f);
  rf_inv_ctx : rf_closed f = true → rf_ctxDone f = true;
  rf_inv_deadline : dl_ok (rf_deadline f);
  rf_inv_streams : map_Forall (λ k s, rs_ID s = k) (rf_streams f)
}.

Lemma newReceiveFlow_inv id size q l f :
  newReceiveFlow id size q l = Ret f → rf_inv [] f ∧ rf_packets f = [].
Proof.
  unfold newReceiveFlow, newPacketBuffer. case_decide; [done|]. simpl. intros [= <-].
  split; [|done]. split; simpl; try done.
  - split; simpl; [apply NoDup_nil_2|apply Forall_nil_2].
  - lia.
  - split; [done|]. intros [|ch] b; simpl; [done|]. by rewrite lookup_nil.
Qed.

Section ops.
Context `{!GoMapOrder}.
Implicit Types (f : ReceiveFlow) (held : list nat).

Lemma rf_packets_length f : length (rf_packets f) = length (pb_queue (rf_buffer f)).
Proof. apply length_fmap. Qed.

(** [push] keeps the queue FIFO and bounded: the packet goes to its end if there
    is room and the flow is open, and is dropped otherwise. *)
Lemma push_spec b held f : rf_inv (b :: held) f →
  ∃ f', push b f = Ret f' ∧ rf_inv held f' ∧
    rf_packets f' =
      (if negb (rf_closed f) && bool_decide (length (rf_packets f) < pb_cap (rf_buffer f))
       then rf_packets f ++ [buf_Bytes b (rf_buffer f)] else rf_packets f) ∧
    rf_closed f' = rf_closed f ∧ rf_ctxDone f' = rf_ctxDone f ∧
    pb_cap (rf_buffer f') = pb_cap (rf_buffer f) ∧ rf_streams f' = rf_streams f ∧
    rf_deadline f' = rf_deadline f ∧ rf_id f' = rf_id f ∧ rf_qlog f' = rf_qlog f.
Proof.
  intros [Ho Hch Hcap Hctx Hd Hs]. rewrite rf_packets_length. unfold push.
  destruct (pool_Put_owned _ _ _ Ho) as [Hput (Hc1 & Hq1 & Hcl1 & Hcon1)].
  destruct (rf_closed f) eqn:Hcl; simpl.
  { eexists; split; [done|]. split; [|done]. split; simpl; auto; congruence. }
  destruct (chan_trySend b (rf_buffer f)) as [[sent pb]|p] eqn:Hsend.
  2:{ unfold chan_trySend in Hsend. rewrite Hch in Hsend. by case_decide. }
  simpl. destruct sent.
  - pose proof (send_owned _ _ _ _ Ho Hsend) as (Ho' & Hcon & Hlt & Hq & Hcap' & Hcl').
    eexists; split; [done|]. rewrite bool_decide_true by done. split_and!; try done.
    split; simpl; try done.
    + congruence.
    + rewrite Hq, length_app, Hcap'. simpl. lia.
    + congruence.
  - unfold chan_trySend in Hsend. rewrite Hch in Hsend. case_decide; [done|].
    injection Hsend as <-. eexists; split; [done|]. rewrite bool_decide_false by done.
    split_and!; try done. split; simpl; try done; congruence.
Qed.

(** What [Read] returns for the packet [p] and the buffer [buf]. *)
Definition read_packet (p buf : list byte) : read_result :=
  if decide (length buf < length p) then (0%Z, Some ErrShortBuffer, buf)
  else (Z.of_nat (length p), None, p ++ drop (length p) buf).

Lemma Read_select_packet held ch buf f p ps :
  rf_inv held f → rf_packets f = p :: ps →
  ∃ f', Read_select SelPacket ch buf f = Some (ReadReturn (read_packet p buf) f') ∧
    rf_inv held f' ∧ rf_packets f' = ps ∧ rf_closed f' = rf_closed f ∧
    rf_ctxDone f' = rf_ctxDone f ∧ rf_deadline f' = rf_deadline f ∧ rf_streams f' = rf_streams f.
Proof.
  intros [Ho Hch Hcap Hctx Hd Hs] Hp. unfold Read_select.
  destruct (chan_recv (rf_buffer f)) as [| |b pb] eqn:Hr.
  1-2: exfalso; revert Hr Hp; unfold chan_recv, rf_packets, contents;
    destruct (pb_queue (rf_buffer f)); simpl; [by destruct (pb_closed _)|done].
  destruct (recv_owned _ _ _ _ Ho Hr) as (Ho' & Hcon & Hq & Hcap' & Hcl').
  destruct (pool_Put_owned _ _ _ Ho') as [Hput Hsame].
  unfold rf_packets in Hp. rewrite Hp in Hcon. injection Hcon as -> ->.
  unfold copyPacket, read_packet. simpl.
  assert (rf_inv held (set_rf_buffer (pool_Put b pb) f)) as Hinv.
  { split; simpl; auto; [congruence|]. rewrite Hcap', Hq in *. simpl in *. lia. }
  case_decide; eexists; (split; [done|]); split_and!; done.
Qed.

Lemma Read_select_empty held ch buf f :
  rf_inv held f → rf_packets f = [] →
  Read_select SelPacket ch buf f =
    if rf_closed f then Some (ReadReturn (0%Z, Some ContextCanceled, buf) f) else None.
Proof.
  intros [Ho Hch Hcap Hctx Hd Hs] Hp. unfold Read_select, chan_recv.
  unfold rf_packets, contents in Hp. apply fmap_nil_inv in Hp. rewrite Hp, Hch.
  destruct (rf_closed f) eqn:Hcl; [|done]. unfold ctx_Err. by rewrite Hctx.
Qed.

Lemma Read_select_waiting held buf f :
  rf_inv held f → deadlineExpired (rf_deadline f) = false →
  Read_select SelDeadline (deadlineCh (rf_deadline f)) buf f = None.
Proof.
  intros [_ _ _ _ [Hd _] _] He. unfold Read_select, ch_closed. by rewrite Hd, He.
Qed.

Lemma Read_spec held fuel prefer buf f :
  rf_inv held f →
  if deadlineExpired (rf_deadline f) then
    Read (S fuel) prefer buf f = Some ((0%Z, Some ErrDeadlineExceeded, buf), f)
  else match rf_packets f with
  | p :: ps => ∃ f', Read (S fuel) prefer buf f = Some (read_packet p buf, f') ∧
      rf_inv held f' ∧ rf_packets f' = ps ∧ rf_closed f' = rf_closed f ∧
      rf_ctxDone f' = rf_ctxDone f ∧ rf_deadline f' = rf_deadline f ∧ rf_streams f' = rf_streams f
  | [] => Read (S fuel) prefer buf f =
      if rf_closed f then Some ((0%Z, Some ContextCanceled, buf), f) else None
  end.
Proof.
  intros Hinv. simpl. unfold Read_lock.
  destruct (deadlineExpired (rf_deadline f)) eqn:He; [done|].
  pose proof (Read_select_waiting held buf f Hinv He) as Hwait.
  destruct (rf_packets f) as [|p ps] eqn:Hp.
  - destruct prefer; rewrite ?Hwait, (Read_select_empty held) by done; by destruct (rf_closed f).
  - destruct (Read_select_packet held (deadlineCh (rf_deadline f)) buf f p ps Hinv Hp)
      as (f' & Hsel & Hrest).
    exists f'. split; [|done]. destruct prefer; rewrite ?Hwait, Hsel; done.
Qed.

(** [Read] changes nothing but the queue. *)
Lemma Read_keeps held prefer buf f res f' : rf_inv held f → Read 1 prefer buf f = Some (res, f') →
  rf_inv held f' ∧ rf_id f' = rf_id f ∧ rf_closed f' = rf_closed f ∧
  rf_ctxDone f' = rf_ctxDone f ∧ rf_streams f' = rf_streams f.
Proof.
  intros Hinv Hr. assert (rf_id f' = rf_id f) as Hid.
  { revert Hr. simpl. destruct (Read_lock f) as [|ch]; [by intros [= <- <-]|].
    unfold Read_select, copyPacket. destruct prefer; repeat case_match; naive_solver. }
  pose proof (Read_spec held 0 prefer buf f Hinv) as HR. rewrite Hr in HR.
  destruct (deadlineExpired _); [by injection HR as -> ->|].
  destruct (rf_packets f) as [|p ps].
  - destruct (rf_closed f) eqn:?; [|done]. by injection HR as -> ->.
  - destruct HR as (f1 & [= -> ->] & ? & _ & ? & ? & _ & ?). done.
Qed.

Lemma closeBuffer_spec held f :
  rf_inv held f → rf_ctxDone f = true →
  ∃ f', closeBuffer f = Ret f' ∧ rf_inv held f' ∧ rf_closed f' = true ∧
    rf_ctxDone f' = true ∧ rf_packets f' = rf_packets f ∧ rf_streams f' = rf_streams f ∧
    (rf_deadline f' = rf_deadline f ∨ rf_deadline f' = stopTimer (rf_deadline f)).
Proof.
  intros [Ho Hch Hcap Hctx Hd Hs] Hdone. unfold closeBuffer.
  destruct (rf_closed f) eqn:Hcl; [eexists; split_and!; try done; [split; try done; congruence|auto]|].
  simpl. unfold chan_close. rewrite Hch. simpl. eexists; split; [done|].
  split_and!; auto. split; simpl; auto. unfold stopTimer. by destruct (deadlineTimer _).
Qed.

Lemma elem_of_cancelled_streams code f k code' :
  map_Forall (λ k s, rs_ID s = k) (rf_streams f) →
  (k, code') ∈ cancelled (closeWithError code f) ↔ code' = code ∧ is_Some (rf_streams f !! k).
Proof.
  intros Hids. unfold cancelled, closeWithError. rewrite list_elem_of_omap. split.
  - intros (e & He & Hk). apply list_elem_of_fmap in He as ([k' s] & -> & Hin).
    injection Hk as <- <-. apply elem_of_go_range in Hin. rewrite (Hids _ _ Hin). eauto.
  - intros [-> [s Hs]]. exists (ECancelRead (rs_ID s) code).
    split; [|by rewrite (Hids _ _ Hs)].
    apply list_elem_of_fmap. exists (k, s). split; [done|]. by apply elem_of_go_range.
Qed.

Lemma Close_spec held f :
  rf_inv held f →
  ∃ f' es, Close f = Ret (None, f', es) ∧ rf_inv held f' ∧ rf_closed f' = true ∧
    rf_ctxDone f' = true ∧ rf_packets f' = rf_packets f ∧ rf_streams f' = rf_streams f ∧
    (∀ k, is_Some (rf_streams f !! k) → (k, ErrRoQNoError) ∈ cancelled es) ∧
    deadlineExpired (rf_deadline f') = deadlineExpired (rf_deadline f).
Proof.
  intros [Ho Hch Hcap Hctx Hd Hs]. unfold Close.
  destruct (closeBuffer_spec held (cancelCtx f)) as (f' & -> & Hinv & Hcl & Hdone & Hp & Hst & Hdl);
    [by split|done|].
  simpl. eexists _, _. split; [done|]. split_and!; auto.
  - intros k Hk. apply elem_of_cancelled_streams; [apply Hinv|]. by rewrite Hst.
  - destruct Hdl as [->| ->]; [done|]. unfold stopTimer. simpl. by destruct (deadlineTimer _).
Qed.
End ops.

(** ** Properties *)

(** [n] calls of [Read] with buffers like [buf], as long as none blocks. *)
Fixpoint ReadMany (n : nat) (prefer : select_case) (buf : list byte) (f : ReceiveFlow)
    : list read_result * ReceiveFlow :=
  match n with
  | 0 => ([], f)
  | S n => match Read 1 prefer buf f with
           | None => ([], f)
           | Some (r, f) => let '(rs, f) := ReadMany n prefer buf f in (r :: rs, f)
           end
  end.

Section properties.
Context `{!GoMapOrder}.

Lemma ReadMany_closed held k prefer buf f :
  rf_inv held f → rf_closed f = true → deadlineExpired (rf_deadline f) = false →
  fst (ReadMany (length (rf_packets f) + k) prefer buf f) =
    ((λ p, read_packet p buf) <$> rf_packets f) ++ replicate k (0%Z, Some ContextCanceled, buf).
Proof.
  remember (rf_packets f) as ps eqn:Hps. revert f Hps.
  induction ps as [|p ps IH]; intros f Hps Hinv Hcl He.
  - induction k as [|k IHk]; [done|]. pose proof (Read_spec held 0 prefer buf f Hinv) as Hr.
    rewrite He, <- Hps, Hcl in Hr. simpl length in *. cbn [Nat.add ReadMany]. rewrite Hr.
    simpl in IHk |- *. rewrite <- IHk. by destruct (ReadMany k prefer buf f).
  - pose proof (Read_spec held 0 prefer buf f Hinv) as Hr. rewrite He, <- Hps in Hr.
    destruct Hr as (f' & Hr & Hinv' & Hp' & Hcl' & _ & Hd' & _).
    cbn [length Nat.add ReadMany]. rewrite Hr, fmap_cons, <- app_comm_cons.
    rewrite <- (IH f') by congruence. by destruct (ReadMany (length ps + k) prefer buf f').
Qed.

(** C27: [Read], whichever ready case the select picks, does what it documents on
    every branch, and terminates within one iteration when nothing interferes:
    an expired deadline wins even over queued packets; otherwise the oldest
    packet is handed out whole, or dropped with [io.ErrShortBuffer] and a count
    of zero if the caller's buffer is too small; a drained closed flow reports
    [context.Canceled]; an open empty flow blocks. *)
Theorem Read_behaviour (held : list nat) (fuel : nat) (prefer : select_case) (buf : list byte)
    (f : ReceiveFlow) (Hinv : rf_inv held f) :
  if deadlineExpired (rf_deadline f) then
    Read (S fuel) prefer buf f = Some ((0%Z, Some ErrDeadlineExceeded, buf), f)
  else match rf_packets f with
  | p :: ps => ∃ f',
      Read (S fuel) prefer buf f = Some (
        if decide (length buf < length p) then (0%Z, Some ErrShortBuffer, buf)
        else (Z.of_nat (length p), None, p ++ drop (length p) buf), f') ∧
      rf_packets f' = ps ∧ rf_inv held f'
  | [] => Read (S fuel) prefer buf f =
      if rf_closed f then Some ((0%Z, Some ContextCanceled, buf), f) else None
  end.
Proof.
  pose proof (Read_spec held fuel prefer buf f Hinv) as HR.
  destruct (deadlineExpired _); [done|]. destruct (rf_packets f) as [|p ps]; [done|].
  destruct HR as (f' & Hr & Hi & Hp & _). exists f'. done.
Qed.

(** C28: [Close] never panics, however often it is called, cancels every
    registered stream and loses no packet: the following reads return the queued
    packets in order, each by the rules of [Read], and from then on every read
    reports [context.Canceled]. *)
Theorem Close_then_drain (held : list nat) (k : nat) (prefer : select_case) (buf : list byte)
    (f : ReceiveFlow) (Hinv : rf_inv held f) (Hexp : deadlineExpired (rf_deadline f) = false) :
  ∃ f' es, Close f = Ret (None, f', es) ∧ rf_inv held f' ∧
    (∀ id, is_Some (rf_streams f !! id) → (id, ErrRoQNoError) ∈ cancelled es) ∧
    fst (ReadMany (length (rf_packets f) + k) prefer buf f') =
      ((λ p, read_packet p buf) <$> rf_packets f) ++ replicate k (0%Z, Some ContextCanceled, buf).
Proof.
  destruct (Close_spec held f Hinv) as (f' & es & -> & Hinv' & Hcl & _ & Hp & _ & Hc & He).
  exists f', es. split_and!; try done. rewrite <- Hp.
  apply (ReadMany_closed held); congruence || done.
Qed.

(** C29: [push] keeps the queue first-in first-out and bounded by the configured
    size: a packet goes to the end of the queue exactly if the flow is open and
    has room, and is dropped otherwise; the send never hits a closed channel, and
    the buffer of a dropped packet goes to the pool, so that no buffer is ever in
    the queue and in the pool, or queued twice. *)
Theorem push_bounded_fifo (b : nat) (held : list nat) (f : ReceiveFlow) (Hinv : rf_inv (b :: held) f) :
  ∃ f', push b f = Ret f' ∧ rf_inv held f' ∧
    rf_packets f' =
      (if negb (rf_closed f) && bool_decide (length (rf_packets f) < pb_cap (rf_buffer f))
       then rf_packets f ++ [buf_Bytes b (rf_buffer f)] else rf_packets f) ∧
    (b ∈ pb_queue (rf_buffer f') ↔ ¬ b ∈ pb_pool (rf_buffer f')).
Proof.
  destruct (push_spec b held f Hinv) as (f' & Hpush & Hinv' & Hp & _).
  exists f'. split_and!; [done..|]. clear Hp.
  destruct (rf_inv_owned _ _ Hinv') as [Hnd _]. apply NoDup_app in Hnd as (_ & Hdis & _).
  split; [intros Hq Hpool; apply (Hdis b); set_solver|]. revert Hpush. unfold push, chan_trySend.
  destruct (rf_closed f); [intros [= <-]; simpl; set_solver|].
  destruct (pb_closed _); [done|]. case_decide; simpl; intros [= <-]; simpl; set_solver.
Qed.
End properties.

Section witnesses.
#[local] Existing Instance lifo_pool.
#[local] Existing Instance ascending_order.

(** A flow with room for two packets, one of them queued, a buffer in use by a
    producer and a registered stream. *)
Definition ex_flow : ReceiveFlow :=
  mkReceiveFlow 1 (mkPacketBuffer 2 [0] false [] [[Byte.x42]; [Byte.x07; Byte.x08]]) false
    {[ 5%Z := mkReceiveStream 5 (mkReader [] false EOF) ]} false newDeadline None discardLogger.

Lemma ex_flow_inv : rf_inv [1] ex_flow.
Proof.
  split; simpl; try done.
  - split; simpl; [apply (bool_decide_unpack _); vm_compute; exact I|].
    repeat constructor.
  - lia.
  - split; [done|]. intros [|ch] b; simpl; [done|]. by rewrite lookup_nil.
  - by apply map_Forall_singleton.
Qed.

Lemma Read_behaviour_witness :
  ∃ f', Read 1 SelDeadline [Byte.x00; Byte.x01] ex_flow =
      Some ((1%Z, None, [Byte.x42; Byte.x01]), f') ∧ rf_packets f' = [] ∧ rf_inv [1] f'.
Proof.
  exact (Read_behaviour [1] 0 SelDeadline [Byte.x00; Byte.x01] ex_flow ex_flow_inv).
Defined.

Lemma Close_then_drain_witness :
  ∃ f' es, Close ex_flow = Ret (None, f', es) ∧ rf_inv [1] f' ∧
    (∀ id, is_Some (rf_streams ex_flow !! id) → (id, ErrRoQNoError) ∈ cancelled es) ∧
    fst (ReadMany 3 SelPacket [Byte.x00] f') =
      [(1%Z, None, [Byte.x42]); (0%Z, Some ContextCanceled, [Byte.x00]);
       (0%Z, Some ContextCanceled, [Byte.x00])].
Proof.
  exact (Close_then_drain [1] 2 SelPacket [Byte.x00] ex_flow ex_flow_inv eq_refl).
Defined.

Lemma push_bounded_fifo_witness :
  ∃ f', push 1 ex_flow = Ret f' ∧ rf_inv [] f' ∧
    rf_packets f' = [[Byte.x42]; [Byte.x07; Byte.x08]] ∧
    (1 ∈ pb_queue (rf_buffer f') ↔ ¬ 1 ∈ pb_pool (rf_buffer f')).
Proof. exact (push_bounded_fifo 1 [] ex_flow ex_flow_inv). Defined.
End witnesses.
