(* ===== verification/ReadStream.v ===== *)
(** * readStream and readVarint of receive_flow.go: from a stream to packets

    [readStream] registers a stream, splits what it delivers into frames until it
    ends, queues their packets and unregisters the stream. The loop is run here
    with no other goroutine in between; each critical section in it ([push], the
    registration, the unregistration) is a step of FlowSteps.v as well.

    [parse_frames] is the reference: the frames of a byte sequence. *)

From S2P Require Import Prelude GoErrors IO Varint QlogEvent Qlogger Options SyncMap.
From S2P Require Import Connection RTPSendStream PacketBuffer Deadline ReceiveFlow.

Section readStream.
Context `{!QuicVarint, !GoPool}.

(** [readVarint(r, buf)]: the value and the bytes it was encoded in. *)
Definition readVarint (r : reader) : ((Z * list byte) + goerror) * reader :=
  match quicvarint_ReadByte r with
  | (inr err, r) => (inr err, r)
  | (inl firstByte, r) =>
      (* the first two bits of the first byte encode the length *)
      let n := varint_size firstByte in
      let '(rest, err, r) :=
        if decide (1 < n) then io_ReadFull (n - 1) r else ([], None, r) in
      match err with
      | Some err => (inr err, r)
      | None =>
          let buf := firstByte :: rest in
          match quicvarint_Parse buf with
          | inl (v, _) => (inl (v, buf), r)
          | inr err => (inr err, r)
          end
      end
  end.

Definition log_length_error (err : goerror) : list effect :=
  if errors_Is err EOF then []
  else match errors_AsStreamError err with
       | Some _ => [ELog Debug "got stream error while reading length"]
       | None => [ELog Warn "got unexpected error while reading length"]
       end.

Definition log_payload_error (err : goerror) : list effect :=
  match errors_AsStreamError err with
  | Some _ => [ELog Debug "got stream error while reading payload"]
  | None => [ELog Warn "got unexpected error while reading payload"]
  end.

(** One iteration of the loop. The reader to go on with, or [None] on return. *)
Definition readStream_iter (streamID : Z) (r : reader) (f : ReceiveFlow)
    : outcome (option reader * ReceiveFlow * list effect) :=
  match readVarint r with
  | (inr err, r) => Ret (None, f, log_length_error err)
  | (inl (length_, encodedLength), r) =>
      let lr := mkLimited r (int64 length_) in
      let '(b, pb) := pool_Get (rf_buffer f) in
      let pb := buf_Reset b pb in
      let pb := buf_Write b encodedLength pb in
      let '(got, err, lr) := Buffer_ReadFrom lr in
      let pb := buf_Write b got pb in
      match err with
      | Some err => Ret (None, set_rf_buffer pb f, log_payload_error err)
      | None =>
          let wireLength := uint64 (Z.of_nat (length (buf_Bytes b pb))) in
          let evs := record (rf_qlog f) (λ q,
            StreamPacketParsed (uint64 streamID)
              (mkPacket (rf_id f) wireLength
                 (mkRawInfo wireLength length_ (rawData q (buf_Bytes b pb))))) in
          let pb := buf_Next b (length encodedLength) pb in
          f ← push b (set_rf_buffer pb f);
          Ret (Some (lr_R lr), f, evs)
      end
  end.

(** The loop; the boolean says whether it returned within the fuel. *)
Fixpoint readStream_loop (fuel : nat) (streamID : Z) (r : reader) (f : ReceiveFlow)
    : outcome (bool * ReceiveFlow * list effect) :=
  match fuel with
  | 0 => Ret (false, f, [])
  | S fuel =>
      '(next, f, es) ← readStream_iter streamID r f;
      match next with
      | None => Ret (true, f, es)
      | Some r =>
          '(fin, f, es') ← readStream_loop fuel streamID r f;
          Ret (fin, f, es ++ es')
      end
  end.

(** The first critical section: a closed flow rejects the stream. *)
Definition register (rs : ReceiveStream) (f : ReceiveFlow) : bool * ReceiveFlow * list effect :=
  if rf_ctxDone f then (false, f, [ECancelRead (rs_ID rs) ErrRoQNoError])
  else (true, set_rf_streams (<[rs_ID rs := rs]> (rf_streams f)) f, []).

(** The deferred critical section. *)
Definition unregister (rs : ReceiveStream) (f : ReceiveFlow) : ReceiveFlow :=
  set_rf_streams (delete (rs_ID rs) (rf_streams f)) f.

Definition readStream (rs : ReceiveStream) (f : ReceiveFlow)
    : outcome (bool * ReceiveFlow * list effect) :=
  match register rs f with
  | (false, f, es) => Ret (true, f, es)
  | (true, f, es) =>
      '(fin, f, es') ← readStream_loop (S (length (rd_data (rs_reader rs)))) (rs_ID rs)
                         (rs_reader rs) f;
      Ret (fin, unregister rs f, es ++ es')
  end.

(** ** Reference *)

(** How a byte sequence ends after its last whole frame: within a length
    prefix, of which the bytes [d] are there (none of them: it ends cleanly),
    or within a payload, of which [body] is there after the prefix [enc]. *)
Inductive stream_end :=
  | EndInLength (d : list byte)
  | EndInPayload (enc body : list byte) (announced : Z).

Fixpoint parse_frames (fuel : nat) (d : list byte) : list (list byte * list byte) * stream_end :=
  match fuel with
  | 0 => ([], EndInLength d)
  | S fuel =>
      match quicvarint_Parse d with
      | inr _ => ([], EndInLength d)
      | inl (v, n) =>
          let body := drop n d in
          if decide (Z.of_nat (length body) < v)%Z then ([], EndInPayload (take n d) body v)
          else
            let '(fs, e) := parse_frames fuel (drop (Z.to_nat v) body) in
            ((take n d, take (Z.to_nat v) body) :: fs, e)
      end
  end.

(** The packets [readStream] hands to the flow. A stream that ends with [io.EOF]
    within a payload delivers what there is of it. *)
Definition delivered (d : list byte) (err : goerror) : list (list byte) :=
  let '(fs, e) := parse_frames (S (length d)) d in
  fs.*2 ++ match e with
           | EndInPayload _ body _ => if is_EOF err then [body] else []
           | EndInLength _ => []
           end.
End readStream.

(** ** The code computes the reference *)

Section correctness.
Context `{QuicVarintLaws, !GoPool}.
Implicit Types (r : reader) (f : ReceiveFlow) (held : list nat).

(** The error of a stream that ends within a length prefix. *)
Definition length_error (d : list byte) (err : goerror) : goerror :=
  match d with
  | [] => err
  | _ :: d' => short_read_error d' err
  end.

Lemma readVarint_spec r res r' :
  rd_wf r → readVarint r = (res, r') →
  match quicvarint_Parse (rd_data r) with
  | inl (v, n) => res = inl (v, take n (rd_data r)) ∧ rd_rest r (drop n (rd_data r)) r'
  | inr _ => res = inr (length_error (rd_data r) (rd_err r))
  end.
Proof.
  intros Hwf. unfold readVarint. destruct (quicvarint_ReadByte r) as [[b|e] r1] eqn:Hb;
    apply ReadByte_ok in Hb; [|done| |done]; destruct (rd_data r) as [|b0 d];
    destruct Hb as [Hb Hr1]; try discriminate Hb.
  2:{ injection Hb as <-. intros [= <- <-]. by destruct Parse_nil as [e' ->]. }
  injection Hb as <-. destruct (Hr1) as (Hd1 & He1 & Hw1).
  pose proof (varint_size_pos b) as Hpos.
  assert (∃ r2, (if decide (1 < varint_size b) then io_ReadFull (varint_size b - 1) r1
    else ([], None, r1)) = (take (varint_size b - 1) d,
      (if decide (varint_size b - 1 ≤ length d) then None
       else Some (short_read_error d (rd_err r))), r2) ∧
    rd_rest r (drop (varint_size b - 1) d) r2) as (r2 & -> & Hr2).
  { case_decide.
    - destruct (io_ReadFull _ r1) as [[got err] r2] eqn:Hf.
      apply io_ReadFull_spec in Hf as (-> & Hr2 & ->); [|done].
      rewrite Hd1, He1 in *. eauto with roq.
    - replace (varint_size b - 1) with 0 by lia. exists r1. split; [|done].
      by rewrite decide_True by lia. }
  case_decide as Hl.
  - destruct (Parse_long b d) as (v & _ & Hp & Ht); [simpl; lia|].
    assert (take (varint_size b) (b :: d) = b :: take (varint_size b - 1) d) as Htake
      by (destruct (varint_size b); [lia|]; simpl; by rewrite Nat.sub_0_r).
    rewrite Hp, Htake in *. rewrite Ht. intros [= <- <-]. split; [done|].
    destruct (varint_size b); [lia|]. simpl in *. by rewrite Nat.sub_0_r in Hr2.
  - destruct (Parse_short b d) as [e ->]; [simpl; lia|]. by intros [= <- <-].
Qed.

(** [f'] is [f] with the packets [ps] pushed, as far as there was room. *)
Definition flow_pushed (ps : list (list byte)) f f' : Prop :=
  rf_packets f' = (if rf_closed f then rf_packets f
                   else take (pb_cap (rf_buffer f)) (rf_packets f ++ ps)) ∧
  pb_cap (rf_buffer f') = pb_cap (rf_buffer f) ∧
  rf_id f' = rf_id f ∧ rf_ctxDone f' = rf_ctxDone f ∧ rf_streams f' = rf_streams f ∧
  rf_closed f' = rf_closed f ∧ rf_deadline f' = rf_deadline f ∧ rf_qlog f' = rf_qlog f.

Lemma flow_pushed_nil held f : rf_inv held f → flow_pushed [] f f.
Proof.
  intros Hinv. split_and!; try done. rewrite app_nil_r. destruct (rf_closed f); [done|].
  rewrite take_ge; [done|]. rewrite rf_packets_length. apply Hinv.
Qed.

Lemma flow_pushed_trans ps1 ps2 f1 f2 f3 :
  flow_pushed ps1 f1 f2 → flow_pushed ps2 f2 f3 → flow_pushed (ps1 ++ ps2) f1 f3.
Proof.
  intros (Hp1 & Hc1 & ? & ? & ? & Hcl & ? & ?) (Hp2 & ? & ? & ? & ? & ? & ? & ?).
  split_and!; try congruence. rewrite Hp2, Hcl, Hp1, Hc1. destruct (rf_closed f1); [done|].
  rewrite app_assoc. generalize (rf_packets f1 ++ ps1), (pb_cap (rf_buffer f1)). intros l n.
  destruct (decide (n ≤ length l)).
  - rewrite (take_app_le (take n l)), (take_app_le l) by (rewrite ?length_take; lia).
    rewrite take_take. by rewrite Nat.min_id.
  - by rewrite (take_ge l) by lia.
Qed.

(** The qlog event of a frame, which holds [body] where [v] bytes are announced. *)
Definition parsed_event (q : option qlogger) (streamID id : Z) (enc body : list byte) (v : Z)
    : list effect :=
  record q (λ q, let n := uint64 (Z.of_nat (length (enc ++ body))) in
    StreamPacketParsed (uint64 streamID)
      (mkPacket id n (mkRawInfo n v (rawData q (enc ++ body))))).

(** A buffer from the pool that is filled and pushed. *)
Lemma push_filled held f b pb bs :
  rf_inv held f → pool_Get (rf_buffer f) = (b, pb) →
  b < length (pb_bufs pb) ∧
  rf_inv (b :: held) (set_rf_buffer (buf_set b bs pb) f) ∧
  rf_packets (set_rf_buffer (buf_set b bs pb) f) = rf_packets f ∧
  pb_cap (buf_set b bs pb) = pb_cap (rf_buffer f) ∧
  ∃ f', push b (set_rf_buffer (buf_set b bs pb) f) = Ret f' ∧ rf_inv held f' ∧ flow_pushed [bs] f f'.
Proof.
  intros Hinv Hget. destruct (Hinv) as [Ho Hch Hcap Hctx Hd Hs].
  destruct (pool_Get_owned _ _ _ _ Ho Hget) as [Ho1 Hq1].
  assert (b < length (pb_bufs pb)) as Hb by (eapply owned_bound; [done|set_solver]).
  destruct (buf_set_owned b bs pb (b :: held) Ho1) as [Ho2 Hq2]; [set_solver|].
  destruct (same_queue_trans _ _ _ Hq1 Hq2) as (Hcap' & Hq & Hcl & Hcon).
  assert (rf_inv (b :: held) (set_rf_buffer (buf_set b bs pb) f)) as Hinv'
    by (split; simpl in *; rewrite ?Hcl, ?Hq, ?Hcap'; auto).
  split_and!; try done.
  destruct (push_spec b held _ Hinv') as (f' & Hpush & Hi & Hp & Hc1 & Hc2 & Hc3 & Hst & Hdl & Hid & Hql).
  exists f'. split_and!; [done..|]. unfold flow_pushed. split_and!; try done.
  2:{ simpl in Hc3. by rewrite Hc3. }
  change (rf_packets (set_rf_buffer (buf_set b bs pb) f)) with (contents (buf_set b bs pb)) in Hp.
  simpl in Hp. rewrite Hp, Hcon, (buf_Bytes_set b bs pb Hb). fold (rf_packets f). clear Hp.
  change (pb_cap pb) with (pb_cap (buf_set b bs pb)). rewrite Hcap'.
  rewrite <- rf_packets_length in Hcap. destruct (rf_closed f); simpl; [done|].
  case_bool_decide as Hlt.
  - rewrite take_ge; [done|]. rewrite length_app. simpl. lia.
  - rewrite take_app_le by lia. by rewrite take_ge by lia.
Qed.

(** What one iteration does, by the bytes and the error of the reader. *)
Lemma readStream_iter_spec held streamID r f :
  rf_inv held f → rd_wf r →
  match quicvarint_Parse (rd_data r) with
  | inr _ => readStream_iter streamID r f =
      Ret (None, f, log_length_error (length_error (rd_data r) (rd_err r)))
  | inl (v, n) =>
      let enc := take n (rd_data r) in
      let body := drop n (rd_data r) in
      if bool_decide (Z.of_nat (length body) < v)%Z && negb (is_EOF (rd_err r)) then
        ∃ f', readStream_iter streamID r f = Ret (None, f', log_payload_error (rd_err r)) ∧
          rf_inv held f' ∧ flow_pushed [] f f'
      else
        ∃ r' f', readStream_iter streamID r f = Ret (Some r', f',
            parsed_event (rf_qlog f) streamID (rf_id f) enc (take (Z.to_nat v) body) v) ∧
          rd_rest r (drop (Z.to_nat v) body) r' ∧
          rf_inv held f' ∧ flow_pushed [take (Z.to_nat v) body] f f'
  end.
Proof.
  intros Hinv Hwf. unfold readStream_iter.
  destruct (readVarint r) as [res r1] eqn:Hv. apply readVarint_spec in Hv; [|done].
  destruct (quicvarint_Parse (rd_data r)) as [[v n]|e] eqn:Hp; [|by subst res].
  destruct Hv as [-> Hr1]. destruct (Hr1) as (Hd1 & He1 & Hw1).
  apply Parse_inv in Hp as (b0 & d' & Hd & Hn & Hle & Hvok & _).
  rewrite int64_small by (unfold varint_ok in Hvok; lia).
  destruct (pool_Get (rf_buffer f)) as [b pb] eqn:Hget.
  destruct (Buffer_ReadFrom _) as [[got err] lr'] eqn:Hrf.
  apply Buffer_ReadFrom_spec in Hrf as (-> & Hr2 & ->); [|done|apply Hvok].
  rewrite Hd1, He1 in *. set (body := drop n (rd_data r)) in *. set (enc := take n (rd_data r)) in *.
  destruct (push_filled held f b pb (enc ++ take (Z.to_nat v) body) Hinv Hget)
    as (Hb & Hinv1 & Hp1 & Hc1 & _).
  destruct (push_filled held f b pb (take (Z.to_nat v) body) Hinv Hget)
    as (_ & _ & _ & _ & f' & Hpush & Hinv' & Hpushed).
  rewrite buf_fill, buf_Write_set by done.
  assert (∀ e : goerror, (if bool_decide (Z.of_nat (length body) < v)%Z && negb (is_EOF (rd_err r)) then Some e else None) =
    (if decide (v ≤ Z.of_nat (length body))%Z then None
     else if is_EOF (rd_err r) then None else Some e)) as Hcase.
  { intros e. case_bool_decide; case_decide; try lia; simpl; [by destruct (is_EOF _)|done]. }
  rewrite <- (Hcase (rd_err r)). destruct (_ && _).
  - eexists; split; [done|]. split.
    + destruct Hinv1. split; try done. by eapply owned_weaken.
    + apply (flow_pushed_trans [] [] _ f); [by eapply flow_pushed_nil|].
      split_and!; try done. rewrite app_nil_r, Hp1. destruct (rf_closed f); [done|].
      rewrite take_ge; [done|]. rewrite rf_packets_length. apply Hinv.
  - exists (lr_R lr'), f'. rewrite buf_Next_set, drop_app_length, Hpush by done. simpl.
    rewrite buf_Bytes_set by done. split_and!; eauto with roq.
Qed.

(** The packets and the effects of a parsed stream that ends with [err]. *)
Definition frames_packets (p : list (list byte * list byte) * stream_end) (err : goerror)
    : list (list byte) :=
  p.1.*2 ++ match p.2 with
            | EndInPayload _ body _ => if is_EOF err then [body] else []
            | EndInLength _ => []
            end.

Definition frames_effects (q : option qlogger) (streamID id : Z)
    (p : list (list byte * list byte) * stream_end) (err : goerror) : list effect :=
  concat ((λ '(enc, body), parsed_event q streamID id enc body (Z.of_nat (length body))) <$> p.1) ++
  match p.2 with
  | EndInPayload enc body v =>
      if is_EOF err then parsed_event q streamID id enc body v else log_payload_error err
  | EndInLength d => log_length_error (length_error d err)
  end.

Lemma readStream_loop_spec fuel held streamID r f :
  rf_inv held f → rd_wf r → length (rd_data r) < fuel →
  ∃ f', readStream_loop fuel streamID r f = Ret (true, f',
      frames_effects (rf_qlog f) streamID (rf_id f) (parse_frames fuel (rd_data r)) (rd_err r)) ∧
    rf_inv held f' ∧
    flow_pushed (frames_packets (parse_frames fuel (rd_data r)) (rd_err r)) f f'.
Proof.
  revert r f. induction fuel as [|fuel IH]; intros r f Hinv Hwf Hfuel; [lia|].
  pose proof (readStream_iter_spec held streamID r f Hinv Hwf) as Hiter. cbn [readStream_loop parse_frames].
  destruct (quicvarint_Parse (rd_data r)) as [[v n]|e] eqn:Hp.
  2:{ rewrite Hiter. simpl. eexists; split; [done|]. split; [done|]. by eapply flow_pushed_nil. }
  apply Parse_inv in Hp as (b0 & d' & Hd & Hn & Hle & Hvok & _).
  pose proof (varint_size_pos b0). unfold varint_ok in Hvok.
  cbv zeta in Hiter. set (enc := take n (rd_data r)) in *. set (body := drop n (rd_data r)) in *.
  assert (length body < length (rd_data r)) as Hbody by (unfold body; rewrite length_drop; lia).
  destruct (decide (Z.of_nat (length body) < v)%Z) as [Hlt|Hge].
  - rewrite bool_decide_true in Hiter by done. simpl in Hiter.
    destruct (is_EOF (rd_err r)) eqn:HE; simpl in Hiter.
    + destruct Hiter as (r' & f1 & -> & (Hd' & He' & Hw') & Hinv1 & Hpush). simpl.
      rewrite take_ge, drop_ge in * by lia.
      destruct (IH r' f1) as (f' & -> & Hinv' & Hpush'); [done..|rewrite Hd'; simpl; lia|].
      rewrite Hd', He' in *. destruct fuel; [simpl in Hfuel; lia|]. simpl in Hpush' |- *.
      destruct Parse_nil as [e0 Hnil]. rewrite Hnil in *. simpl in *. eexists.
      unfold frames_effects, frames_packets. simpl. rewrite HE.
      apply is_EOF_spec in HE as HE'. rewrite HE'. simpl. rewrite app_nil_r.
      split; [done|]. split; [done|]. by apply (flow_pushed_trans [body] [] _ f1).
    + destruct Hiter as (f1 & -> & Hinv1 & Hpush). simpl. eexists.
      unfold frames_effects, frames_packets. simpl. rewrite HE. done.
  - rewrite bool_decide_false in Hiter by done. simpl in Hiter.
    destruct Hiter as (r' & f1 & -> & (Hd' & He' & Hw') & Hinv1 & Hpush). simpl.
    destruct (IH r' f1) as (f' & -> & Hinv' & Hpush'); [done..| |].
    { rewrite Hd', length_drop. lia. }
    rewrite Hd', He' in *. destruct (Hpush) as (_ & _ & Hid & _ & _ & _ & _ & Hq).
    rewrite Hid, Hq in *. simpl. destruct (parse_frames fuel _) as [fs e].
    eexists. unfold frames_effects, frames_packets in *. simpl in *.
    rewrite length_take, Nat.min_l, Z2Nat.id, <- app_assoc by lia.
    split; [done|]. split; [done|]. by apply (flow_pushed_trans [_] _ _ f1).
Qed.

Lemma readStream_closed rs f : rf_ctxDone f = true →
  readStream rs f = Ret (true, f, [ECancelRead (rs_ID rs) ErrRoQNoError]).
Proof. intros Hd. unfold readStream, register. by rewrite Hd. Qed.

Lemma readStream_open held rs f :
  rf_inv held f → rf_ctxDone f = false → rd_wf (rs_reader rs) →
  ∃ f' es, readStream rs f = Ret (true, f', es) ∧ rf_inv held f' ∧
    es = frames_effects (rf_qlog f) (rs_ID rs) (rf_id f)
      (parse_frames (S (length (rd_data (rs_reader rs)))) (rd_data (rs_reader rs)))
      (rd_err (rs_reader rs)) ∧
    rf_packets f' = take (pb_cap (rf_buffer f))
      (rf_packets f ++ delivered (rd_data (rs_reader rs)) (rd_err (rs_reader rs))) ∧
    rf_streams f' = delete (rs_ID rs) (rf_streams f) ∧
    rf_closed f' = rf_closed f ∧ rf_ctxDone f' = rf_ctxDone f ∧
    pb_cap (rf_buffer f') = pb_cap (rf_buffer f) ∧ rf_id f' = rf_id f.
Proof.
  intros [Ho Hch Hcap Hctx Hd Hs] Hopen Hwf. unfold readStream, register. rewrite Hopen.
  set (f0 := set_rf_streams _ f).
  assert (rf_inv held f0) as Hinv0.
  { split; try done. simpl. by apply map_Forall_insert_2. }
  edestruct readStream_loop_spec as (f' & Hloop & [Ho' Hch' Hcap' Hctx' Hd' Hs'] & Hpush);
    [exact Hinv0|exact Hwf|apply Nat.lt_succ_diag_r|].
  rewrite Hloop. bind_simpl. destruct Hpush as (Hp & Hc & Hid & Hx & Hst & Hcl & _ & _).
  assert (rf_closed f = false) as Hncl by (destruct (rf_closed f); [by rewrite Hctx in Hopen|done]).
  eexists _, _. split; [done|]. split_and!; try done.
  - split; try done. simpl. rewrite Hst. simpl. apply map_Forall_delete. by apply map_Forall_insert_2.
  - change (rf_packets (unregister rs f')) with (rf_packets f'). rewrite Hp.
    change (rf_closed f0) with (rf_closed f). rewrite Hncl.
    unfold delivered, frames_packets. by destruct (parse_frames _ _).
  - simpl. rewrite Hst. simpl. apply delete_insert_eq.
  - simpl. by rewrite Hx.
Qed.

(** More fuel than bytes is enough. *)
Lemma parse_frames_fuel fuel fuel' d : length d < fuel → length d < fuel' →
  parse_frames fuel d = parse_frames fuel' d.
Proof.
  revert fuel' d. induction fuel as [|fuel IH]; intros [|fuel'] d Hf Hf'; try lia. cbn [parse_frames].
  destruct (quicvarint_Parse d) as [[v n]|e] eqn:Hp; [|done].
  apply Parse_inv in Hp as (b0 & d' & -> & Hn & Hle & _). pose proof (varint_size_pos b0).
  case_decide; [done|]. rewrite (IH fuel'); [done|..]; rewrite !length_drop; simpl in *; lia.
Qed.

(** The packets of a stream, frame by frame. *)
Lemma delivered_unfold d err : delivered d err =
  match quicvarint_Parse d with
  | inr _ => []
  | inl (v, n) =>
      let body := drop n d in
      if decide (Z.of_nat (length body) < v)%Z then if is_EOF err then [body] else []
      else take (Z.to_nat v) body :: delivered (drop (Z.to_nat v) body) err
  end.
Proof.
  unfold delivered at 1. cbn [parse_frames]. destruct (quicvarint_Parse d) as [[v n]|e] eqn:Hp; [|done].
  apply Parse_inv in Hp as (b0 & d' & -> & Hn & Hle & _). pose proof (varint_size_pos b0). cbv zeta.
  case_decide; [done|]. unfold delivered. set (rest := drop (Z.to_nat v) _).
  rewrite (parse_frames_fuel _ (S (length rest)) rest); [|unfold rest; rewrite !length_drop; simpl in *; lia|lia].
  by destruct (parse_frames (S (length rest)) rest) as [fs e].
Qed.

(** Frames written by the sender are read back as the packets they hold. *)
Lemma parse_frames_app packets : Forall (λ p, varint_ok (Z.of_nat (length p))) packets →
  ∃ encs, length encs = length packets ∧ ∀ fuel rest,
    parse_frames (length packets + fuel) (concat (frame <$> packets) ++ rest) =
      (let '(fs, e) := parse_frames fuel rest in (zip encs packets ++ fs, e)).
Proof.
  induction 1 as [|p packets Hp _ (encs & Hl & IH)].
  - exists []. split; [done|]. intros fuel rest. simpl. by destruct (parse_frames fuel rest).
  - destruct (frame_eq p Hp) as (enc & _ & Hfr & Hparse). exists (enc :: encs). split; [simpl; lia|].
    intros fuel rest. rewrite fmap_cons, concat_cons, <- app_assoc. cbn [length Nat.add parse_frames].
    rewrite Hfr, <- app_assoc, Hparse, drop_app_length, decide_False by (rewrite length_app; lia).
    rewrite take_app_length, Nat2Z.id, take_app_length, drop_app_length, IH.
    by destruct (parse_frames fuel rest).
Qed.

Lemma parse_frames_frames fuel packets :
  Forall (λ p, varint_ok (Z.of_nat (length p))) packets → length packets < fuel →
  ∃ encs, parse_frames fuel (concat (frame <$> packets)) = (zip encs packets, EndInLength []) ∧
    length encs = length packets.
Proof.
  intros Hok Hfuel. destruct (parse_frames_app packets Hok) as (encs & Hl & Happ). exists encs. split; [|done].
  specialize (Happ (S (fuel - length packets - 1)) []). rewrite app_nil_r in Happ.
  replace (length packets + _) with fuel in Happ by lia. rewrite Happ. simpl.
  destruct Parse_nil as [e ->]. by rewrite app_nil_r.
Qed.

Lemma frame_nonempty p : varint_ok (Z.of_nat (length p)) → 0 < length (frame p).
Proof.
  intros Hl. destruct (frame_eq p Hl) as (enc & _ & -> & Hp). rewrite length_app.
  specialize (Hp []). destruct enc; simpl; [|lia]. destruct Parse_nil as [e He]. simpl in Hp. congruence.
Qed.

Lemma length_frames packets : Forall (λ p, varint_ok (Z.of_nat (length p))) packets →
  length packets ≤ length (concat (frame <$> packets)).
Proof.
  induction 1 as [|p packets Hp _ IH]; [done|]. rewrite fmap_cons. simpl.
  rewrite length_app. pose proof (frame_nonempty p Hp). lia.
Qed.

Lemma delivered_frames packets err :
  Forall (λ p, varint_ok (Z.of_nat (length p))) packets →
  delivered (concat (frame <$> packets)) err = packets.
Proof.
  intros Hok. unfold delivered.
  destruct (parse_frames_frames (S (length (concat (frame <$> packets)))) packets Hok)
    as (encs & -> & Hl); [pose proof (length_frames packets Hok); lia|].
  rewrite app_nil_r. change (zip encs packets).*2 with (snd <$> zip encs packets).
  rewrite snd_zip; [done|lia].
Qed.

(** Whole frames, and the beginning of one more. *)
Lemma parse_frames_truncated packets v enc part :
  Forall (λ p, varint_ok (Z.of_nat (length p))) packets → quicvarint_Parse enc = inl (v, length enc) →
  (Z.of_nat (length part) < v)%Z → let d := concat (frame <$> packets) ++ enc ++ part in
  ∃ fs, parse_frames (S (length d)) d = (fs, EndInPayload enc part v) ∧ fs.*2 = packets.
Proof.
  intros Hok Henc Hlt d. destruct (parse_frames_app packets Hok) as (encs & Hl & Happ).
  exists (zip encs packets). split; [|change (zip encs packets).*2 with (snd <$> zip encs packets); apply snd_zip; lia].
  specialize (Happ (S (length d - length packets)) (enc ++ part)).
  replace (length packets + _) with (S (length d)) in Happ
    by (unfold d; rewrite length_app; pose proof (length_frames packets Hok); lia).
  fold d in Happ. rewrite Happ. cbn [parse_frames].
  pose proof (Parse_app enc v (length enc) part Henc) as Hp. rewrite firstn_all in Hp.
  by rewrite Hp, drop_app_length, decide_True, take_app_length, app_nil_r.
Qed.
End correctness.

(** ** Properties *)

Section properties.
Context `{QuicVarintLaws, !GoPool}.

(** C17: [readStream] on an open flow terminates without a panic and computes the
    reference parse of what the stream delivers: independent of how the stream
    chunks its bytes, the flow gets the packets of the frames in order, up to the
    room in its queue, and nothing else of it changes; the stream is unregistered
    again. A closed flow cancels the stream and reads nothing. *)
Theorem readStream_refines_parse (held : list nat) (rs : ReceiveStream) (f : ReceiveFlow)
    (Hinv : rf_inv held f) (Hwf : rd_wf (rs_reader rs)) :
  if rf_ctxDone f then
    readStream rs f = Ret (true, f, [ECancelRead (rs_ID rs) ErrRoQNoError])
  else ∃ f' es, readStream rs f = Ret (true, f', es) ∧ rf_inv held f' ∧
    rf_packets f' = take (pb_cap (rf_buffer f))
      (rf_packets f ++ delivered (rd_data (rs_reader rs)) (rd_err (rs_reader rs))) ∧
    rf_streams f' = delete (rs_ID rs) (rf_streams f) ∧
    es = frames_effects (rf_qlog f) (rs_ID rs) (rf_id f)
      (parse_frames (S (length (rd_data (rs_reader rs)))) (rd_data (rs_reader rs)))
      (rd_err (rs_reader rs)).
Proof.
  destruct (rf_ctxDone f) eqn:Hd; [by apply readStream_closed|].
  destruct (readStream_open held rs f Hinv Hd Hwf) as (f' & es & ? & ? & ? & ? & ? & _).
  exists f', es. auto.
Qed.

(** A receiver reads back what the sender framed: the frames of a list of
    packets, delivered in any chunks and followed by any end of the stream, put
    exactly those packets in the queue of an open flow with enough room, in
    order, and a stream that ends cleanly is not reported in the log. *)
Theorem frames_roundtrip (held : list nat) (rs : ReceiveStream) (f : ReceiveFlow)
    (packets : list (list byte)) (Hinv : rf_inv held f) (Hopen : rf_ctxDone f = false)
    (Hwf : rd_wf (rs_reader rs))
    (Hdata : rd_data (rs_reader rs) = concat (frame <$> packets))
    (Hok : Forall (λ p, varint_ok (Z.of_nat (length p))) packets)
    (Hroom : length (rf_packets f) + length packets ≤ pb_cap (rf_buffer f)) :
  ∃ f' es, readStream rs f = Ret (true, f', es) ∧ rf_packets f' = rf_packets f ++ packets ∧
    (rd_err (rs_reader rs) = EOF → rf_qlog f = None → es = []).
Proof.
  destruct (readStream_open held rs f Hinv Hopen Hwf)
    as (f' & es & Hrun & _ & Hes & Hp & _).
  exists f', es. split; [done|]. rewrite Hdata in *. split.
  - rewrite Hp, delivered_frames, take_ge by (rewrite ?length_app; done || lia). done.
  - intros He Hq. rewrite Hes, He, Hq.
    destruct (parse_frames_frames (S (length (concat (frame <$> packets)))) packets Hok)
      as (encs & -> & Hl); [pose proof (length_frames packets Hok); lia|].
    unfold frames_effects. simpl. rewrite app_nil_r.
    generalize (zip encs packets). intros l. induction l as [|[??] l IH]; [done|]. simpl. apply IH.
Qed.


(** [readVarint] reads one varint off the stream, minimal or not, and keeps
    the bytes it was encoded in: on success it consumes exactly those bytes and
    they parse to the value; it fails only if the stream ends before them, with
    the error of the stream, [io.ErrUnexpectedEOF] if the end is an [io.EOF] that
    comes after the second byte was read. *)
Theorem readVarint_correct (r : reader) (Hwf : rd_wf r) :
  match readVarint r with
  | (inl (v, enc), r') => quicvarint_Parse enc = inl (v, length enc) ∧ varint_ok v ∧
      rd_data r = enc ++ rd_data r' ∧ rd_err r' = rd_err r
  | (inr e, r') => e = length_error (rd_data r) (rd_err r) ∧
      (rd_data r = [] ∨ ∃ b d, rd_data r = b :: d ∧ length (rd_data r) < varint_size b)
  end.
Proof.
  destruct (readVarint r) as [res r'] eqn:Hr. apply readVarint_spec in Hr; [|done].
  destruct (quicvarint_Parse (rd_data r)) as [[v n]|e] eqn:Hp.
  - destruct Hr as [-> (Hd & He & _)]. pose proof (Parse_inv _ _ _ Hp) as (b & d & _ & _ & Hl & Hv & Ht).
    rewrite Hd, take_drop, length_take, Nat.min_l by done. done.
  - subst res. split; [done|]. by eapply Parse_inr.
Qed.
End properties.

Section witnesses.
Import RFC9000.
#[local] Existing Instance lifo_pool.
#[local] Existing Instance ascending_order.

Definition ex_open_flow : ReceiveFlow :=
  mkReceiveFlow 1 (mkPacketBuffer 2 [] false [] []) false ∅ false newDeadline None discardLogger.

Lemma ex_open_flow_inv : rf_inv [] ex_open_flow.
Proof.
  assert (newReceiveFlow 1 2 None None = Ret ex_open_flow) as Hf by done.
  by apply newReceiveFlow_inv in Hf as [? _].
Qed.

(** Two frames, the second with a length prefix of four bytes, in odd chunks. *)
Definition ex_stream_in : ReceiveStream :=
  mkReceiveStream 3 (mkReader [bytes [2; 10]%Z; []; bytes [11; 128; 0]%Z; bytes [0; 1; 12]%Z] true EOF).

Lemma readStream_refines_parse_witness :
  ∃ f' es, readStream ex_stream_in ex_open_flow = Ret (true, f', es) ∧ rf_inv [] f' ∧
    rf_packets f' = [bytes [10; 11]%Z; bytes [12]%Z] ∧ rf_streams f' = ∅ ∧
    es = [].
Proof.
  destruct (readStream_refines_parse [] ex_stream_in ex_open_flow ex_open_flow_inv (λ _, eq_refl))
    as (f' & es & Hrun & Hinv & Hp & Hs & He).
  exists f', es. split; [exact Hrun|]. split; [exact Hinv|].
  rewrite Hp, Hs, He. split; [|split]; vm_compute; reflexivity.
Defined.

Lemma frames_roundtrip_witness :
  ∃ f' es, readStream (mkReceiveStream 3 (mkReader [frame [Byte.x01] ++ frame []] false EOF))
      ex_open_flow = Ret (true, f', es) ∧ rf_packets f' = [[Byte.x01]; []] ∧
    (EOF = EOF → None = (None : option qlogger) → es = []).
Proof.
  apply (frames_roundtrip [] (mkReceiveStream 3 (mkReader [frame [Byte.x01] ++ frame []] false EOF))
    ex_open_flow [[Byte.x01]; []]).
  - apply ex_open_flow_inv.
  - reflexivity.
  - intros Hf. discriminate Hf.
  - reflexivity.
  - repeat constructor; vm_compute; discriminate.
  - vm_compute. lia.
Defined.

Lemma readVarint_correct_witness :
  readVarint (mkReader [bytes [64]%Z; bytes [1; 9]%Z] false EOF) =
    (inl (1%Z, bytes [64; 1]%Z), mkReader [[Byte.x09]] false EOF) ∧
  match readVarint (mkReader [bytes [64]%Z; bytes [1; 9]%Z] false EOF) with
  | (inl (v, enc), r') => quicvarint_Parse enc = inl (v, length enc) ∧ varint_ok v ∧
      bytes [64; 1; 9]%Z = enc ++ rd_data r' ∧ rd_err r' = EOF
  | (inr e, r') => True ∧ True
  end.
Proof.
  pose proof (readVarint_correct (mkReader [bytes [64]%Z; bytes [1; 9]%Z] false EOF)) as Hr.
  split; [reflexivity|]. apply Hr. intros Hf. discriminate Hf.
Defined.

End witnesses.
