(* ===== verification/FlowSteps.v ===== *)
(** * Interleavings of the goroutines that share a receive flow

    Producers ([HandleDatagram], [readStream]), readers ([Read]), [SetReadDeadline],
    timers, [Close] calls and the eviction of the flow run concurrently. The
    critical sections of ReceiveFlow.v are the atomic steps: [fexec] says what each
    does to a configuration, or that it cannot happen now ([None]). A
    configuration holds, beside the flow, where the goroutines stand: the buffers
    they hold, the channels that blocked [Read] calls wait on, and how far the
    [Close] calls got. [fc_cur], [fc_live] and [fc_cancelled] are history: the
    deadline set last, whether closing has stopped its timer, and the streams
    cancelled so far. *)

From S2P Require Import Prelude GoErrors IO Varint Qlogger Options SyncMap Connection PacketBuffer.
From S2P Require Import Deadline ReceiveFlow ReadStream.

Record fconfig := mkConfigF {
  fc_flow : ReceiveFlow;
  fc_now : Z;
  fc_cur : option Z;
  fc_live : bool;
  fc_held : list nat;       (* buffers that producers fill *)
  fc_reading : list nat;    (* buffers that Read calls have received *)
  fc_waiting : list nat;
  fc_cancelling : nat;      (* Close calls past cancelCtx *)
  fc_closing : nat;         (* Close calls past closeBuffer *)
  fc_done : nat;            (* Close calls that have returned *)
  fc_cancelled : list (Z * Z)
}.

Inductive label :=
  | LGet                                      (* f.bufferPool.Get() *)
  | LFill (b : nat) (bs : list byte)          (* Reset, Write of a buffer one holds *)
  | LPush (b : nat)                           (* push *)
  | LRegister (rs : ReceiveStream)            (* readStream, first section *)
  | LUnregister (rs : ReceiveStream)          (* readStream, deferred section *)
  | LReadLock                                 (* an iteration of Read begins *)
  | LReadPacket (i : nat)                     (* waiting Read i selects the queue *)
  | LReadCopy (b : nat) (buf : list byte)     (* copyPacket of what it has received *)
  | LReadWake (i : nat)                       (* waiting Read i selects its channel *)
  | LSetDeadline (t : option Z)
  | LTick (now : Z)                           (* time passes *)
  | LFire (id : nat)                          (* the runtime starts a timer function *)
  | LTimerFunc                                (* which gets the lock and runs *)
  | LCancelCtx | LCloseBuffer | LCloseStreams (* the three parts of Close *)
  | LEvict.                                   (* closeWithError by receiveFlowBuffer *)

(** Shorthands for the updates of a configuration. *)
Definition with_flow f c := mkConfigF f (fc_now c) (fc_cur c) (fc_live c) (fc_held c)
  (fc_reading c) (fc_waiting c) (fc_cancelling c) (fc_closing c) (fc_done c) (fc_cancelled c).
Definition with_held h c := mkConfigF (fc_flow c) (fc_now c) (fc_cur c) (fc_live c) h
  (fc_reading c) (fc_waiting c) (fc_cancelling c) (fc_closing c) (fc_done c) (fc_cancelled c).
Definition with_reading r c := mkConfigF (fc_flow c) (fc_now c) (fc_cur c) (fc_live c) (fc_held c)
  r (fc_waiting c) (fc_cancelling c) (fc_closing c) (fc_done c) (fc_cancelled c).
Definition with_waiting w c := mkConfigF (fc_flow c) (fc_now c) (fc_cur c) (fc_live c) (fc_held c)
  (fc_reading c) w (fc_cancelling c) (fc_closing c) (fc_done c) (fc_cancelled c).
Definition with_deadline cur live now c := mkConfigF (fc_flow c) now cur live (fc_held c)
  (fc_reading c) (fc_waiting c) (fc_cancelling c) (fc_closing c) (fc_done c) (fc_cancelled c).
Definition with_closers n1 n2 n3 c := mkConfigF (fc_flow c) (fc_now c) (fc_cur c) (fc_live c)
  (fc_held c) (fc_reading c) (fc_waiting c) n1 n2 n3 (fc_cancelled c).
Definition with_cancelled es c := mkConfigF (fc_flow c) (fc_now c) (fc_cur c) (fc_live c)
  (fc_held c) (fc_reading c) (fc_waiting c) (fc_cancelling c) (fc_closing c) (fc_done c)
  (fc_cancelled c ++ cancelled es).

Section steps.
Context `{!GoPool, !GoMapOrder}.

Definition fexec (l : label) (c : fconfig) : option (outcome fconfig) :=
  let f := fc_flow c in
  match l with
  | LGet =>
      let '(b, pb) := pool_Get (rf_buffer f) in
      Some (Ret (with_held (b :: fc_held c) (with_flow (set_rf_buffer pb f) c)))
  | LFill b bs =>
      if decide (b ∈ fc_held c) then
        let pb := buf_Write b bs (buf_Reset b (rf_buffer f)) in
        Some (Ret (with_flow (set_rf_buffer pb f) c))
      else None
  | LPush b =>
      if decide (b ∈ fc_held c) then
        Some (f ← push b f;
              Ret (with_held (list_difference (fc_held c) [b]) (with_flow f c)))
      else None
  | LRegister rs =>
      let '(_, f, es) := register rs f in Some (Ret (with_cancelled es (with_flow f c)))
  | LUnregister rs => Some (Ret (with_flow (unregister rs f) c))
  | LReadLock =>
      match Read_lock f with
      | inl _ => Some (Ret c)
      | inr ch => Some (Ret (with_waiting (fc_waiting c ++ [ch]) c))
      end
  | LReadPacket i =>
      _ ← fc_waiting c !! i;
      let c := with_waiting (delete i (fc_waiting c)) c in
      match chan_recv (rf_buffer f) with
      | RecvBlocked => None
      | RecvClosed => Some (Ret c)
      | RecvPacket b pb =>
          Some (Ret (with_reading (b :: fc_reading c) (with_flow (set_rf_buffer pb f) c)))
      end
  | LReadCopy b buf =>
      if decide (b ∈ fc_reading c) then
        let '(_, f) := copyPacket buf b f in
        Some (Ret (with_reading (list_difference (fc_reading c) [b]) (with_flow f c)))
      else None
  | LReadWake i =>
      ch ← fc_waiting c !! i;
      match Read_select SelDeadline ch [] f with
      | Some ReadAgain => Some (Ret (with_waiting (delete i (fc_waiting c)) c))
      | _ => None
      end
  | LSetDeadline t =>
      Some (f ← ReceiveFlow_SetReadDeadline t (fc_now c) f;
            Ret (with_deadline t true (fc_now c) (with_flow f c)))
  | LTick now =>
      if decide (fc_now c ≤ now)%Z then Some (Ret (with_deadline (fc_cur c) (fc_live c) now c))
      else None
  | LFire id =>
      d ← fireTimer id (fc_now c) (rf_deadline f);
      Some (Ret (with_flow (set_rf_deadline d f) c))
  | LTimerFunc =>
      m ← timerFunc (rf_deadline f);
      Some (d ← m; Ret (with_flow (set_rf_deadline d f) c))
  | LCancelCtx =>
      Some (Ret (with_closers (S (fc_cancelling c)) (fc_closing c) (fc_done c)
                   (with_flow (cancelCtx f) c)))
  | LCloseBuffer =>
      match fc_cancelling c with
      | S n =>
          let live := if rf_closed f then fc_live c else false in
          Some (f ← closeBuffer f;
                Ret (with_closers n (S (fc_closing c)) (fc_done c)
                       (with_deadline (fc_cur c) live (fc_now c) (with_flow f c))))
      | 0 => None
      end
  | LCloseStreams =>
      match fc_closing c with
      | S n => Some (Ret (with_closers (fc_cancelling c) n (S (fc_done c))
                            (with_cancelled (closeWithError ErrRoQNoError f) c)))
      | 0 => None
      end
  | LEvict => Some (Ret (with_cancelled (closeWithError ErrRoQUnknownFlowID f) c))
  end.

Definition fstep (c c' : fconfig) : Prop := ∃ l, fexec l c = Some (Ret c').

(** The steps of the timers: nobody calls a method of the flow. *)
Definition timer_label (l : label) : bool := match l with LFire _ | LTimerFunc => true | _ => false end.
Definition timer_step (c c' : fconfig) : Prop := ∃ l, timer_label l = true ∧ fexec l c = Some (Ret c').

(** A new flow, before anything happens to it. *)
Definition finit (f : ReceiveFlow) (now : Z) : fconfig := mkConfigF f now None true [] [] [] 0 0 0 [].

Definition freachable (c : fconfig) : Prop := ∃ id size q l f now,
  newReceiveFlow id size q l = Ret f ∧ rtc fstep (finit f now) c.

(** ** The invariant *)

Record fc_inv (c : fconfig) : Prop := {
  fi_flow : rf_inv (fc_reading c ++ fc_held c) (fc_flow c);
  fi_deadline : dl_inv (fc_cur c) (fc_live c) (fc_now c) (rf_deadline (fc_flow c));
  fi_waiting : Forall (λ ch, ch < length (dl_chans (rf_deadline (fc_flow c)))) (fc_waiting c);
  fi_ctx : 0 < fc_cancelling c + fc_closing c + fc_done c → rf_ctxDone (fc_flow c) = true;
  fi_closed : 0 < fc_closing c + fc_done c → rf_closed (fc_flow c) = true;
  fi_done : 0 < fc_done c → ∀ id, is_Some (rf_streams (fc_flow c) !! id) →
    (id, ErrRoQNoError) ∈ fc_cancelled c
}.

(** What the goroutines of [fi_ctx], [fi_closed] and [fi_done] look at. *)
Definition same_control (f f' : ReceiveFlow) : Prop :=
  rf_deadline f' = rf_deadline f ∧ rf_streams f' = rf_streams f ∧
  rf_closed f' = rf_closed f ∧ rf_ctxDone f' = rf_ctxDone f.

Lemma finit_inv id size q l f now : newReceiveFlow id size q l = Ret f → fc_inv (finit f now).
Proof.
  intros Hf. destruct (newReceiveFlow_inv _ _ _ _ _ Hf) as [Hinv _].
  split; simpl; try done; try lia. revert Hf. unfold newReceiveFlow.
  destruct (newPacketBuffer size); [|done]. intros [= <-]. apply newDeadline_inv.
Qed.

(** Steps that move packets, and the end of a wait. *)
Lemma fc_inv_packets c held reading f w :
  fc_inv c → rf_inv (reading ++ held) f → same_control (fc_flow c) f → w ⊆ fc_waiting c →
  fc_inv (with_waiting w (with_held held (with_reading reading (with_flow f c)))).
Proof.
  intros [Hf Hd Hw Hctx Hcl Hdone] Hinv (Ed & Es & Ec & Ex) Hsub.
  split; simpl; rewrite ?Ed, ?Es, ?Ec, ?Ex; auto.
  apply Forall_forall. intros ch Hch. eapply Forall_forall in Hw; eauto.
Qed.

(** Steps that touch the deadline only. *)
Lemma fc_inv_deadline c cur live now d :
  fc_inv c → dl_inv cur live now d →
  length (dl_chans (rf_deadline (fc_flow c))) ≤ length (dl_chans d) →
  fc_inv (with_deadline cur live now (with_flow (set_rf_deadline d (fc_flow c)) c)).
Proof.
  intros [[Ho Hch Hcap Hx Hdl Hs] Hd Hw Hctx Hcl Hdone] Hinv Hle.
  split; simpl; auto.
  - split; auto. apply Hinv.
  - eapply Forall_impl; [done|]. simpl. lia.
Qed.

Lemma expireDeadline_chans ch d d' :
  expireDeadline ch d = Ret d' → length (dl_chans d') = length (dl_chans d).
Proof.
  unfold expireDeadline, close_ch. case_decide; [by intros [= <-]|].
  destruct (deadlineExpired d); [by intros [= <-]|]. simpl.
  destruct (dl_chans d !! ch) as [[]|]; [done| |done]. intros [= <-]. apply length_insert.
Qed.

Lemma SetReadDeadline_chans t now d d' :
  dl_ok d → SetReadDeadline t now d = Ret d' → length (dl_chans d') = S (length (dl_chans d)).
Proof.
  intros Hok. unfold SetReadDeadline.
  assert (dl_ok (stopTimer d) ∧ dl_chans (stopTimer d) = dl_chans d) as [Hok' <-]
    by (unfold stopTimer; by destruct (deadlineTimer d)).
  destruct (wake_spec _ Hok') as (cs & -> & Hl & _). simpl.
  assert (length (cs ++ [false]) = S (length (dl_chans (stopTimer d)))) as E
    by (rewrite length_app; simpl; lia).
  destruct t as [t|]; [case_decide|].
  - intros Hx%expireDeadline_chans. by rewrite Hx.
  - by intros [= <-].
  - by intros [= <-].
Qed.

(** A buffer leaves the queue, or a [Read] call. *)
Lemma rf_inv_recv held f b pb : rf_inv held f → chan_recv (rf_buffer f) = RecvPacket b pb →
  rf_inv (b :: held) (set_rf_buffer pb f) ∧ rf_packets f = buf_Bytes b pb :: rf_packets (set_rf_buffer pb f).
Proof.
  intros [Ho Hch Hcap Hx Hdl Hs] Hr. destruct (recv_owned _ _ _ _ Ho Hr) as (Ho' & Hcon & Hq & Hc & Hcl).
  split; [|done]. split; simpl; auto; [congruence|]. rewrite Hq, Hc in *. simpl in *. lia.
Qed.

Lemma rf_inv_copy held f b buf res f' : rf_inv (b :: held) f → copyPacket buf b f = (res, f') →
  rf_inv held f' ∧ res = read_packet (buf_Bytes b (rf_buffer f)) buf ∧
  f' = set_rf_buffer (pool_Put b (rf_buffer f)) f.
Proof.
  intros [Ho Hch Hcap Hx Hdl Hs] Hc. destruct (pool_Put_owned _ _ _ Ho) as [Ho' _].
  unfold copyPacket, read_packet in *. case_decide; injection Hc as <- <-; (split; [by split|done]).
Qed.

Lemma reading_split c b : fc_inv c → b ∈ fc_reading c →
  rf_inv (b :: list_difference (fc_reading c) [b] ++ fc_held c) (fc_flow c).
Proof.
  intros Hc Hb. destruct (fi_flow _ Hc) as [Ho Hch Hcap Hx Hdl Hs]. split; auto. eapply owned_perm; [|exact Ho].
  rewrite app_comm_cons. f_equiv. apply held_split; [|done]. by apply owned_held_NoDup, NoDup_app in Ho as [? _].
Qed.

Lemma held_split_inv c b : fc_inv c → b ∈ fc_held c →
  rf_inv (b :: fc_reading c ++ list_difference (fc_held c) [b]) (fc_flow c).
Proof.
  intros Hc Hb. destruct (fi_flow _ Hc) as [Ho Hch Hcap Hx Hdl Hs]. split; auto. eapply owned_perm; [|exact Ho].
  rewrite Permutation_middle. f_equiv. apply held_split; [|done].
  by apply owned_held_NoDup, NoDup_app in Ho as (_ & _ & ?).
Qed.

Lemma fexec_inv_packets l c m :
  fc_inv c → fexec l c = Some m →
  match l with
  | LGet | LFill _ _ | LPush _ | LReadLock | LReadPacket _ | LReadCopy _ _ | LReadWake _ => True
  | _ => False
  end → ∃ c', m = Ret c' ∧ fc_inv c'.
Proof.
  intros Hc He Hl. pose proof (fi_flow _ Hc) as [Ho Hch Hcap Hx Hdl Hs].
  destruct l; try contradiction; cbn [fexec] in He; clear Hl.
  - destruct (pool_Get _) as [b pb] eqn:Hg. injection He as <-. eexists; split; [done|].
    destruct (pool_Get_owned _ _ _ _ Ho Hg) as [Ho' (? & Eq & ? & ?)].
    apply (fc_inv_packets c (b :: fc_held c) (fc_reading c) (set_rf_buffer pb (fc_flow c)) (fc_waiting c));
      [done|split; simpl; auto; try congruence|done|done].
    eapply owned_perm; [|done]. by rewrite Permutation_middle.
  - case_decide as Hb; [|done]. injection He as <-. eexists; split; [done|].
    assert (b ∈ fc_reading c ++ fc_held c) as Hb' by (apply elem_of_app; by right).
    rewrite buf_fill by (by eapply owned_bound). destruct (buf_set_owned b bs _ _ Ho Hb') as [Ho' _].
    apply (fc_inv_packets c (fc_held c) (fc_reading c) (set_rf_buffer (buf_set b bs (rf_buffer (fc_flow c)))
      (fc_flow c)) (fc_waiting c)); [done|split; simpl; auto|done|done].
  - case_decide as Hb; [|done]. injection He as <-.
    destruct (push_spec _ _ _ (held_split_inv c b Hc Hb)) as (f' & -> & Hinv' & _ & ? & ? & _ & ? & ? & _).
    eexists; split; [done|].
    by apply (fc_inv_packets c (list_difference (fc_held c) [b]) (fc_reading c) f' (fc_waiting c)).
  - unfold Read_lock in He. destruct (deadlineExpired _); injection He as <-;
      (eexists; split; [done|]); [done|]. destruct Hc as [? ? Hw ? ? ?].
    split; simpl; auto. apply Forall_app. split; [done|]. apply Forall_singleton.
    by apply dl_ok_bound.
  - destruct (fc_waiting c !! i) as [ch|] eqn:Hi; [|done]. cbn [mbind option_bind] in He.
    destruct (chan_recv (rf_buffer (fc_flow c))) as [| |b pb] eqn:Hr; [done|..]; injection He as <-;
      (eexists; split; [done|]).
    + apply (fc_inv_packets c (fc_held c) (fc_reading c) (fc_flow c)); [done|apply Hc|done|].
      apply list_subseteq_delete.
    + destruct (rf_inv_recv _ _ _ _ (fi_flow _ Hc) Hr) as [Hinv' _].
      apply (fc_inv_packets c (fc_held c) (b :: fc_reading c) (set_rf_buffer pb (fc_flow c)));
        [done..|apply list_subseteq_delete].
  - case_decide as Hb; [|done]. destruct (copyPacket buf b (fc_flow c)) as [res f'] eqn:Hcopy.
    injection He as <-. eexists; split; [done|].
    destruct (rf_inv_copy _ _ _ _ _ _ (reading_split c b Hc Hb) Hcopy) as (Hinv' & _ & ->).
    by apply (fc_inv_packets c (fc_held c) (list_difference (fc_reading c) [b]) _ (fc_waiting c)).
  - destruct (fc_waiting c !! i) as [ch|] eqn:Hi; [|done].
    cbn [mbind option_bind] in He.
    unfold Read_select in He. destruct (ch_closed _ _); [|done]. injection He as <-. eexists; split; [done|].
    apply (fc_inv_packets c (fc_held c) (fc_reading c) (fc_flow c)); [done|apply Hc|done|]. apply list_subseteq_delete.
Qed.

Lemma with_cancelled_inv c es : fc_inv c → fc_inv (with_cancelled es c).
Proof.
  intros [? ? ? ? ? Hdone]. split; simpl; auto. intros ? id ?. apply elem_of_app. eauto.
Qed.

Lemma fexec_inv_streams l c m :
  fc_inv c → fexec l c = Some m →
  match l with LRegister _ | LUnregister _ | LEvict => True | _ => False end →
  ∃ c', m = Ret c' ∧ fc_inv c'.
Proof.
  intros Hc He Hl. pose proof Hc as [[Ho Hch Hcap Hx Hdl Hs] Hd Hw Hctx Hcl Hdone].
  destruct l; try contradiction; cbn [fexec] in He; clear Hl.
  - unfold register in He. destruct (rf_ctxDone (fc_flow c)) eqn:Hxd; injection He as <-;
      (eexists; split; [done|]; apply with_cancelled_inv); [by destruct c|].
    assert (fc_cancelling c + fc_closing c + fc_done c = 0) as Hnone.
    { destruct (fc_cancelling c + fc_closing c + fc_done c); [done|]. discriminate Hctx. lia. }
    split; simpl; auto; try lia.
    split; simpl; auto; [by intros ?%Hx|by apply map_Forall_insert_2].
  - injection He as <-. eexists; split; [done|]. split; simpl; auto.
    + split; simpl; auto. by apply map_Forall_delete.
    + intros Hpos id [x [_ ?]%lookup_delete_Some]. eauto.
  - injection He as <-. eexists; split; [done|]. by apply with_cancelled_inv.
Qed.

Lemma fexec_inv_deadline l c m :
  fc_inv c → fexec l c = Some m →
  match l with LSetDeadline _ | LTick _ | LFire _ | LTimerFunc => True | _ => False end →
  ∃ c', m = Ret c' ∧ fc_inv c'.
Proof.
  intros Hc He Hl. pose proof (fi_deadline _ Hc) as Hd.
  destruct l; try contradiction; cbn [fexec] in He; clear Hl.
  - injection He as <-. unfold ReceiveFlow_SetReadDeadline.
    destruct (SetReadDeadline_inv _ _ _ t _ Hd) as (d' & Hset & Hinv & _). rewrite Hset.
    eexists; split; [done|]. apply fc_inv_deadline; [done..|].
    apply SetReadDeadline_chans in Hset; [lia|apply Hd].
  - case_decide as Hle; [|done]. injection He as <-. eexists; split; [done|].
    destruct Hc as [? ? ? ? ? ?]. split; simpl; auto. by eapply dl_inv_later.
  - destruct (fireTimer _ _ _) as [d'|] eqn:Hf; [|done]. injection He as <-.
    eexists; split; [done|]. destruct (fireTimer_inv _ _ _ _ _ _ Hd Hf) as (Hinv & Hlen & _).
    apply (fc_inv_deadline c (fc_cur c) (fc_live c) (fc_now c) d'); [done..|by rewrite Hlen].
  - destruct (timerFunc _) as [m'|] eqn:Hf; [|done]. injection He as <-.
    destruct (timerFunc_inv _ _ _ _ _ Hd Hf) as (d' & -> & Hinv & _).
    eexists; split; [done|].
    apply (fc_inv_deadline c (fc_cur c) (fc_live c) (fc_now c) d'); [done..|].
    revert Hf. unfold timerFunc. destruct (dl_fired _); [done|].
    intros [= Hx%expireDeadline_chans]. by rewrite Hx.
Qed.

Lemma fexec_inv_close l c m :
  fc_inv c → fexec l c = Some m →
  match l with LCancelCtx | LCloseBuffer | LCloseStreams => True | _ => False end →
  ∃ c', m = Ret c' ∧ fc_inv c'.
Proof.
  intros Hc He Hl. pose proof Hc as [[Ho Hch Hcap Hx Hdl Hs] Hd Hw Hctx Hcl Hdone].
  destruct l; try contradiction; cbn [fexec] in He; clear Hl.
  - injection He as <-. eexists; split; [done|]. split; simpl; auto. split; simpl; auto.
  - destruct (fc_cancelling c) as [|n] eqn:Hn; [done|]. injection He as <-.
    destruct (closeBuffer_spec (fc_reading c ++ fc_held c) (fc_flow c)) as
      (f' & Hclose & Hinv & Hcl' & Hctx' & _ & Hst & _); [apply Hc|apply Hctx; lia|].
    assert (dl_inv (fc_cur c) (if rf_closed (fc_flow c) then fc_live c else false) (fc_now c)
              (rf_deadline f') ∧ dl_chans (rf_deadline f') = dl_chans (rf_deadline (fc_flow c)))
      as [Hd' Hlen].
    { revert Hclose. unfold closeBuffer. destruct (rf_closed (fc_flow c)); [by intros [= <-]|].
      unfold chan_close. simpl. destruct (pb_closed _); [done|]. intros [= <-]. simpl.
      split; [by eapply stopTimer_inv|]. unfold stopTimer. by destruct (deadlineTimer _). }
    rewrite Hclose. eexists; split; [done|]. split; simpl; auto.
    + by rewrite Hlen.
    + by rewrite Hst.
  - destruct (fc_closing c) as [|n] eqn:Hn; [done|]. injection He as <-.
    eexists; split; [done|]. split; simpl; auto; [apply Hc|..].
    + intros _. apply Hctx. lia.
    + intros _. apply Hcl. lia.
    + intros _ id Hid. apply elem_of_app. right. by apply elem_of_cancelled_streams.
Qed.

Lemma fexec_inv l c m : fc_inv c → fexec l c = Some m → ∃ c', m = Ret c' ∧ fc_inv c'.
Proof.
  intros Hc He. destruct l;
    first [exact (fexec_inv_packets _ _ _ Hc He I) | exact (fexec_inv_streams _ _ _ Hc He I)
          | exact (fexec_inv_deadline _ _ _ Hc He I) | exact (fexec_inv_close _ _ _ Hc He I)].
Qed.

Lemma freachable_inv c : freachable c → fc_inv c.
Proof.
  intros (id & size & q & l & f & now & Hf & Hsteps).
  assert (fc_inv (finit f now)) as Hinit by (by eapply finit_inv). clear Hf. revert Hsteps Hinit.
  generalize (finit f now). intros c0 Hsteps Hinit.
  induction Hsteps as [|c1 c2 c3 [lb Hstep] _ IH]; [done|]. apply IH; clear IH.
  destruct (fexec_inv lb c1 _ Hinit Hstep) as (c' & [= <-] & ?). done.
Qed.

(** The runtime can report a deadline that has passed: it starts the function
    of its timer, if it has not yet, and the functions that wait run. *)
Lemma fired_run c : fc_inv c → deadlineCh (rf_deadline (fc_flow c)) ∈ dl_fired (rf_deadline (fc_flow c)) →
  ∃ c', rtc timer_step c c' ∧ deadlineExpired (rf_deadline (fc_flow c')) = true.
Proof.
  remember (dl_fired (rf_deadline (fc_flow c))) as fired eqn:Hf. revert c Hf.
  induction fired as [|ch fired IH]; intros c Hf Hc Hin; [by apply not_elem_of_nil in Hin|].
  set (d := rf_deadline (fc_flow c)) in *.
  assert (fexec LTimerFunc c = Some (
    d' ← expireDeadline ch (mkDeadline (deadlineCh d) (deadlineExpired d) (deadlineTimer d)
           (dl_chans d) (dl_timers d) (dl_nextTimer d) fired);
    Ret (with_flow (set_rf_deadline d' (fc_flow c)) c))) as Hstep.
  { simpl. fold d. unfold timerFunc. by rewrite <- Hf. }
  destruct (fexec_inv _ _ _ Hc Hstep) as (c' & Hret & Hc'). rewrite Hret in Hstep.
  apply bind_ret_inv in Hret as (d' & Hexp & [= <-]).
  rewrite expireDeadline_spec in Hexp by apply Hc. injection Hexp as Hd'. simpl in Hd'.
  destruct (deadlineExpired d') eqn:He'; [by eexists; split; [eapply rtc_once; by exists LTimerFunc|]|].
  case_decide as Hd; [by subst d'|].
  destruct (decide (deadlineCh d = ch)) as [Hch|Hch].
  { destruct Hd. split; [done|]. by subst d'. }
  destruct (IH (with_flow (set_rf_deadline d' (fc_flow c)) c)) as (c'' & Hsteps & Hfin).
  - by subst d'.
  - done.
  - subst d'. simpl. rewrite elem_of_cons in Hin. by destruct Hin.
  - exists c''. split; [|done]. eapply rtc_l; [by exists LTimerFunc|done].
Qed.

Lemma deadline_runs c t :
  fc_inv c → fc_live c = true → fc_cur c = Some t → (t ≤ fc_now c)%Z →
  ∃ c', rtc timer_step c c' ∧ deadlineExpired (rf_deadline (fc_flow c')) = true.
Proof.
  intros Hc Hlive Hcur Hle. pose proof (fi_deadline _ Hc) as [_ _ [_ Harm]].
  destruct (Harm t Hlive Hcur) as [He|[Hin|(id & _ & Hid)]].
  - exists c. split; [apply rtc_refl|done].
  - by apply fired_run.
  - assert (∃ c1, fexec (LFire id) c = Some (Ret c1) ∧
      deadlineCh (rf_deadline (fc_flow c1)) ∈ dl_fired (rf_deadline (fc_flow c1))) as (c1 & Hs & Hin).
    { simpl. unfold fireTimer. rewrite Hid, decide_True by done. simpl. eexists; split; [done|].
      simpl. set_solver. }
    destruct (fexec_inv _ _ _ Hc Hs) as (? & [= <-] & Hc1).
    destruct (fired_run c1 Hc1 Hin) as (c' & Hr & He). exists c'. split; [|done].
    eapply rtc_l; [by exists (LFire id)|done].
Qed.
End steps.

(** ** Properties *)

Section properties.
Context `{!GoPool, !GoMapOrder}.

(** Whether some select of the waiting [Read] [i] is ready. *)
Definition read_ready (i : nat) (c : fconfig) : bool :=
  match fexec (LReadPacket i) c, fexec (LReadWake i) c with
  | None, None => false
  | _, _ => true
  end.

(** C11: however pushes, reads, stream registrations, deadline changes, timers,
    evictions and any number of [Close] calls are interleaved, no step panics: no
    channel is closed twice, nothing is sent on the closed packet channel. *)
Theorem interleavings_never_panic (c : fconfig) (l : label) (m : outcome fconfig)
    (Hc : freachable c) (He : fexec l c = Some m) : returns m.
Proof.
  destruct (fexec_inv l c m (freachable_inv c Hc) He) as (c' & -> & _). by exists c'.
Qed.

(** C12: no wake-up is missed: in every reachable state, a blocked [Read] stays
    blocked exactly if no packet is queued, the flow is open, and the channel it
    waits on is that of the deadline in force, which has not expired. *)
Theorem no_missed_wakeup (c : fconfig) (i ch : nat) (Hc : freachable c)
    (Hi : fc_waiting c !! i = Some ch) :
  read_ready i c = false ↔
    rf_packets (fc_flow c) = [] ∧ rf_closed (fc_flow c) = false ∧
    ch = deadlineCh (rf_deadline (fc_flow c)) ∧ deadlineExpired (rf_deadline (fc_flow c)) = false.
Proof.
  apply freachable_inv in Hc. pose proof (fi_flow _ Hc) as Hf.
  pose proof (fi_waiting _ Hc) as Hw. eapply Forall_lookup_1 in Hw; [|exact Hi]. simpl in Hw.
  assert (ch_closed ch (rf_deadline (fc_flow c)) = false ↔
    ch = deadlineCh (rf_deadline (fc_flow c)) ∧ deadlineExpired (rf_deadline (fc_flow c)) = false)
    as Hch.
  { destruct (rf_inv_deadline _ _ Hf) as [Hcur Hold]. unfold ch_closed.
    apply lookup_lt_is_Some_2 in Hw as [b Hb]. rewrite Hb. simpl.
    destruct (decide (ch = deadlineCh (rf_deadline (fc_flow c)))) as [->|Hne]; [naive_solver|].
    rewrite (Hold ch b) by done. naive_solver. }
  rewrite <- Hch. clear Hch. unfold read_ready. cbn [fexec]. rewrite Hi.
  cbn [mbind option_bind Read_select]. pose proof (rf_inv_chan _ _ Hf) as Hcl.
  unfold chan_recv, rf_packets, contents in *. destruct (pb_queue (rf_buffer (fc_flow c))) as [|b q]; simpl.
  - rewrite Hcl. destruct (rf_closed _), (ch_closed _ _); naive_solver.
  - naive_solver.
Qed.

(** C13: a deadline error is never premature and never forgotten. [Read] reports
    an expired deadline only if the deadline set last has passed, in particular
    never after it was extended or cleared. Once that deadline has passed, and unless
    closing the flow has stopped its timer, the timers alone get it reported, with no
    further call on the flow: as long as it is not reported a timer function can start
    or run, and such steps lead to a state in which [Read] reports it. *)
Theorem deadline_sound_and_live (c : fconfig) (Hc : freachable c) :
  (Read_lock (fc_flow c) = inl ErrDeadlineExceeded → passed (fc_cur c) (fc_now c)) ∧
  (passed (fc_cur c) (fc_now c) → fc_live c = true →
   (Read_lock (fc_flow c) ≠ inl ErrDeadlineExceeded → ∃ c', timer_step c c') ∧
   ∃ c', rtc timer_step c c' ∧ Read_lock (fc_flow c') = inl ErrDeadlineExceeded).
Proof.
  apply freachable_inv in Hc. split.
  - pose proof (fi_deadline _ Hc) as [_ (Ht & _) _]. unfold Read_lock.
    destruct (deadlineExpired _); [auto|done].
  - intros (t & Hcur & Hle) Hlive. destruct (deadline_runs c t Hc Hlive Hcur Hle) as (c' & Hsteps & He).
    assert (Read_lock (fc_flow c') = inl ErrDeadlineExceeded) as Hend by (unfold Read_lock; by rewrite He).
    split; [|by exists c']. intros Hne. inversion Hsteps; subst; [done|by eexists].
Qed.

(** C14: no stream outlives [Close]: once a [Close] call has returned, every
    stream still registered with the flow was cancelled, and from the moment it
    cancelled the context a stream that arrives is cancelled instead of
    registered. *)
Theorem no_stream_survives_Close (c : fconfig) (Hc : freachable c) :
  (0 < fc_done c → ∀ id, is_Some (rf_streams (fc_flow c) !! id) →
     (id, ErrRoQNoError) ∈ fc_cancelled c) ∧
  (0 < fc_cancelling c + fc_closing c + fc_done c → ∀ rs,
     ∃ c', fexec (LRegister rs) c = Some (Ret c') ∧ fc_flow c' = fc_flow c ∧
       fc_cancelled c' = fc_cancelled c ++ [(rs_ID rs, ErrRoQNoError)]).
Proof.
  apply freachable_inv in Hc as [_ _ _ Hctx _ Hdone]. split; [done|]. intros Hpos rs.
  cbn [fexec]. unfold register. rewrite Hctx by done. by eexists.
Qed.
End properties.

Section witnesses.
#[local] Existing Instance lifo_pool.
#[local] Existing Instance ascending_order.

(** The configuration after a sequence of steps. *)
Definition frun (ls : list label) (c : fconfig) : option fconfig :=
  foldl (λ mc l, c ← mc; match fexec l c with Some (Ret c') => Some c' | _ => None end) (Some c) ls.

Lemma frun_None ls : foldl (λ mc l, c ← mc;
  match fexec l c with Some (Ret c') => Some c' | _ => None end) None ls = None.
Proof. by induction ls. Qed.

Lemma frun_steps ls c c' : frun ls c = Some c' → rtc fstep c c'.
Proof.
  unfold frun. revert c. induction ls as [|l ls IH]; intros c; simpl.
  - intros [= <-]. apply rtc_refl.
  - destruct (fexec l c) as [[c1|p]|] eqn:He; rewrite ?frun_None; [|done..].
    intros H. eapply rtc_l; [by exists l|]. by apply IH.
Qed.

Definition ex_new : ReceiveFlow :=
  mkReceiveFlow 7 (mkPacketBuffer 2 [] false [] []) false ∅ false newDeadline None discardLogger.

(** A stream is registered, a packet arrives and is read; a second [Read] blocks
    while the deadline is set to 10, wakes, and blocks again. *)
Definition ex_script : list label :=
  [LRegister (mkReceiveStream 3 (mkReader [] false EOF)); LGet; LFill 0 [Byte.x42]; LPush 0;
   LReadLock; LReadPacket 0; LReadCopy 0 [Byte.x00]; LReadLock; LSetDeadline (Some 10%Z); LReadWake 0; LReadLock].

Definition ex_run (ls : list label) : fconfig :=
  default (finit ex_new 0) (frun (ex_script ++ ls) (finit ex_new 0)).

Lemma ex_run_reachable ls :
  bool_decide (is_Some (frun (ex_script ++ ls) (finit ex_new 0))) = true → freachable (ex_run ls).
Proof.
  intros [c Hc]%bool_decide_eq_true. unfold ex_run. rewrite Hc. simpl.
  exists 7%Z, 2%Z, None, None, ex_new, 0%Z. split; [done|]. by eapply frun_steps.
Qed.

(** Two [Close] calls race; the second one closes the buffer. *)
Lemma interleavings_never_panic_witness :
  ∃ m, fexec LCloseBuffer (ex_run [LCancelCtx; LCancelCtx; LCloseBuffer]) = Some m ∧ returns m.
Proof.
  eexists; split; [vm_compute; reflexivity|].
  apply (interleavings_never_panic (ex_run [LCancelCtx; LCancelCtx; LCloseBuffer]) LCloseBuffer);
    [apply ex_run_reachable; vm_compute; reflexivity|vm_compute; reflexivity].
Defined.

Lemma no_missed_wakeup_witness :
  read_ready 0 (ex_run []) = false ∧ read_ready 0 (ex_run [LSetDeadline None]) = true.
Proof.
  split.
  - apply (no_missed_wakeup (ex_run []) 0 1);
      [apply ex_run_reachable; vm_compute; reflexivity|vm_compute; reflexivity|].
    vm_compute. repeat split.
  - destruct (read_ready 0 (ex_run [LSetDeadline None])) eqn:E; [reflexivity|].
    apply (no_missed_wakeup (ex_run [LSetDeadline None]) 0 1) in E;
      [|apply ex_run_reachable; vm_compute; reflexivity|vm_compute; reflexivity].
    destruct E as (_ & _ & E & _). vm_compute in E. discriminate E.
Defined.

Lemma deadline_sound_and_live_witness :
  ∃ c', rtc timer_step (ex_run [LTick 12]) c' ∧ Read_lock (fc_flow c') = inl ErrDeadlineExceeded.
Proof.
  apply (deadline_sound_and_live (ex_run [LTick 12]));
    [apply ex_run_reachable; vm_compute; reflexivity| |vm_compute; reflexivity].
  exists 10%Z. split; [vm_compute; reflexivity|vm_compute; discriminate].
Defined.

Lemma no_stream_survives_Close_witness :
  (3%Z, ErrRoQNoError) ∈ fc_cancelled (ex_run [LCancelCtx; LCloseBuffer; LCloseStreams]).
Proof.
  apply (no_stream_survives_Close (ex_run [LCancelCtx; LCloseBuffer; LCloseStreams]));
    [apply ex_run_reachable; vm_compute; reflexivity|vm_compute; lia|].
  eexists. vm_compute. reflexivity.
Defined.
End witnesses.
