(* ===== verification/FlowChannel.v ===== *)
(** * A receive flow is a channel of packets

    Inside a receive flow packets travel in buffers that are recycled: a producer
    takes one from the pool, fills it and queues it, a [Read] call receives it,
    copies the bytes out and puts it back, while other goroutines do the same. To
    its users the flow is a bounded channel of packets: [cstep] is that
    specification, in which a packet is a value and nothing is shared. [abstract]
    says which channel a configuration of FlowSteps.v stands for, and every step of
    the flow is a step of the channel with the same [event]. *)

From S2P Require Import Prelude GoErrors IO Varint Qlogger Options SyncMap Connection PacketBuffer.
From S2P Require Import Deadline ReceiveFlow ReadStream FlowSteps.

(** ** The specification *)

(** Producers and readers are known by tokens. [cn_filled] is what each producer
    has written, [cn_reading] what each reader has received. *)
Record channel := mkChannel {
  cn_cap : nat;
  cn_queue : list (list byte);
  cn_closed : bool;
  cn_filled : gmap nat (list byte);
  cn_reading : gmap nat (list byte)
}.

Inductive event :=
  | EvGet (b : nat) (p : list byte)                    (* a producer begins *)
  | EvFill (b : nat) (p : list byte)                   (* and writes its packet *)
  | EvPush (b : nat) (p : list byte) (accepted : bool)
  | EvReceive (b : nat) (p : list byte)                (* a reader gets a packet *)
  | EvDrained                                          (* or is told that there are no more *)
  | EvCopy (b : nat) (p buf : list byte) (res : read_result)
  | EvClose
  | EvInternal.

Inductive cstep : channel → event → channel → Prop :=
  | cs_get cap q cl fs rs b p : fs !! b = None → rs !! b = None →
      cstep (mkChannel cap q cl fs rs) (EvGet b p) (mkChannel cap q cl (<[b := p]> fs) rs)
  | cs_fill cap q cl fs rs b p : is_Some (fs !! b) →
      cstep (mkChannel cap q cl fs rs) (EvFill b p) (mkChannel cap q cl (<[b := p]> fs) rs)
  | cs_push cap q fs rs b p : fs !! b = Some p → length q < cap →
      cstep (mkChannel cap q false fs rs) (EvPush b p true)
            (mkChannel cap (q ++ [p]) false (delete b fs) rs)
  | cs_drop cap q cl fs rs b p : fs !! b = Some p → cl = true ∨ length q = cap →
      cstep (mkChannel cap q cl fs rs) (EvPush b p false) (mkChannel cap q cl (delete b fs) rs)
  | cs_receive cap p q cl fs rs b : rs !! b = None →
      cstep (mkChannel cap (p :: q) cl fs rs) (EvReceive b p) (mkChannel cap q cl fs (<[b := p]> rs))
  | cs_drained cap fs rs :
      cstep (mkChannel cap [] true fs rs) EvDrained (mkChannel cap [] true fs rs)
  | cs_copy cap q cl fs rs b p buf : rs !! b = Some p →
      cstep (mkChannel cap q cl fs rs) (EvCopy b p buf (read_packet p buf))
            (mkChannel cap q cl fs (delete b rs))
  | cs_close cap q cl fs rs :
      cstep (mkChannel cap q cl fs rs) EvClose (mkChannel cap q true fs rs)
  | cs_internal a : cstep a EvInternal a.

Inductive ctrace (a0 : channel) : list event → channel → Prop :=
  | ct_nil : ctrace a0 [] a0
  | ct_step evs a ev a' : ctrace a0 evs a → cstep a ev a' → ctrace a0 (evs ++ [ev]) a'.

(** The packets that were queued, received and copied out, in order. *)
Definition pushed (evs : list event) : list (list byte) :=
  omap (λ ev, match ev with EvPush _ p true => Some p | _ => None end) evs.
Definition got (evs : list event) : list (list byte) :=
  omap (λ ev, match ev with EvReceive _ p => Some p | _ => None end) evs.
Definition copied (evs : list event) : list (list byte) :=
  omap (λ ev, match ev with EvCopy _ p _ _ => Some p | _ => None end) evs.

(** What the holder of [b] wrote last. *)
Definition last_written (b : nat) (evs : list event) : option (list byte) :=
  foldl (λ o ev, match ev with
                 | EvGet b' p | EvFill b' p => if decide (b = b') then Some p else o
                 | _ => o
                 end) None evs.

(** A push carries what its producer wrote last, a copy gives the reader the packet
    as far as it fits. *)
Definition event_ok (evs : list event) (ev : event) : Prop :=
  match ev with
  | EvPush b p _ => last_written b evs = Some p
  | EvCopy _ p buf res => res = read_packet p buf
  | _ => True
  end.

(** ** What the specification guarantees *)

Record channel_ok (evs : list event) (a : channel) : Prop := {
  co_queue : pushed evs = got evs ++ cn_queue a;
  co_reading : got evs ≡ₚ copied evs ++ (map_to_list (cn_reading a)).*2;
  co_filled b p : cn_filled a !! b = Some p → last_written b evs = Some p;
  co_events evs1 ev evs2 : evs = evs1 ++ ev :: evs2 → event_ok evs1 ev
}.

Lemma pushed_snoc evs ev : pushed (evs ++ [ev]) = pushed evs ++ pushed [ev].
Proof. apply omap_app. Qed.
Lemma received_snoc evs ev : got (evs ++ [ev]) = got evs ++ got [ev].
Proof. apply omap_app. Qed.
Lemma copied_snoc evs ev : copied (evs ++ [ev]) = copied evs ++ copied [ev].
Proof. apply omap_app. Qed.
Lemma last_written_snoc b evs ev : last_written b (evs ++ [ev]) =
  match ev with
  | EvGet b' p | EvFill b' p => if decide (b = b') then Some p else last_written b evs
  | _ => last_written b evs
  end.
Proof. unfold last_written. by rewrite foldl_app. Qed.

Lemma snoc_split {A} (l l1 : list A) x y l2 : l ++ [x] = l1 ++ y :: l2 →
  l = l1 ∧ x = y ∨ ∃ l2', l = l1 ++ y :: l2'.
Proof.
  destruct l2 as [|z l2' _] using rev_ind.
  - intros [-> [= ->]]%app_inj_tail. by left.
  - rewrite app_comm_cons, app_assoc. intros [-> _]%app_inj_tail. right. by exists l2'.
Qed.

Lemma values_insert (m : gmap nat (list byte)) b p : m !! b = None →
  (map_to_list (<[b := p]> m)).*2 ≡ₚ (map_to_list m).*2 ++ [p].
Proof. intros Hb. rewrite map_to_list_insert by done. simpl. by rewrite Permutation_cons_append. Qed.

Lemma values_delete (m : gmap nat (list byte)) b p : m !! b = Some p →
  (map_to_list m).*2 ≡ₚ p :: (map_to_list (delete b m)).*2.
Proof. intros Hb. by rewrite <- (map_to_list_delete m b p Hb). Qed.

Lemma event_ok_step evs a ev a' : (∀ b p, cn_filled a !! b = Some p → last_written b evs = Some p) →
  cstep a ev a' → event_ok evs ev.
Proof. intros Hf Hs. destruct Hs; simpl in *; auto. Qed.

Lemma channel_ok_step evs a ev a' : channel_ok evs a → cstep a ev a' → channel_ok (evs ++ [ev]) a'.
Proof.
  intros [Hq Hr Hf He] Hs. split.
  - rewrite pushed_snoc, received_snoc, Hq. destruct Hs; simpl; rewrite ?app_nil_r, <- ?app_assoc; done.
  - rewrite received_snoc, copied_snoc.
    destruct Hs; simpl in *; rewrite ?app_nil_r; try done; rewrite Hr.
    + by rewrite values_insert, app_assoc.
    + rewrite <- app_assoc. simpl. f_equiv. by rewrite values_delete.
  - intros b0 p0. rewrite last_written_snoc. destruct Hs; simpl in *; auto.
    + rewrite lookup_insert. case_decide; case_decide; naive_solver.
    + rewrite lookup_insert. case_decide; case_decide; naive_solver.
    + intros [_ ?]%lookup_delete_Some. auto.
    + intros [_ ?]%lookup_delete_Some. auto.
  - intros evs1 ev0 evs2 [[-> ->]|[evs2' ->]]%snoc_split; [by eapply event_ok_step|by eapply He].
Qed.

Definition new_channel (cap : nat) : channel := mkChannel cap [] false ∅ ∅.

Lemma ctrace_ok cap evs a : ctrace (new_channel cap) evs a → channel_ok evs a.
Proof.
  induction 1 as [|evs a ev a' _ IH Hs]; [|by eapply channel_ok_step].
  split; simpl; try done. by intros [].
Qed.

(** ** The flow implements it *)

Definition tokens (g : nat → list byte) (bs : list nat) : gmap nat (list byte) :=
  list_to_map ((λ b, (b, g b)) <$> bs).

Lemma lookup_tokens g bs b : tokens g bs !! b = if decide (b ∈ bs) then Some (g b) else None.
Proof.
  unfold tokens. induction bs as [|b' bs IH].
  { case_decide as Hb; [by apply not_elem_of_nil in Hb|done]. }
  rewrite fmap_cons, list_to_map_cons, lookup_insert, IH. destruct (decide (b' = b)) as [->|Hne].
  - rewrite decide_True; [done|apply list_elem_of_here].
  - case_decide as Hb; case_decide as Hb'; rewrite elem_of_cons in Hb'; naive_solver.
Qed.

Lemma tokens_ext g g' bs : (∀ b, b ∈ bs → g' b = g b) → tokens g' bs = tokens g bs.
Proof. intros Hg. apply map_eq. intros b. rewrite !lookup_tokens. case_decide; [by rewrite Hg|done]. Qed.

Lemma tokens_difference g bs b : tokens g (list_difference bs [b]) = delete b (tokens g bs).
Proof.
  apply map_eq. intros b'. rewrite lookup_tokens, lookup_delete, lookup_tokens.
  destruct (decide (b = b')) as [->|Hne]; case_decide as Hb; rewrite list_elem_of_difference, list_elem_of_singleton in Hb.
  - naive_solver.
  - done.
  - rewrite decide_True by naive_solver. done.
  - rewrite decide_False by naive_solver. done.
Qed.

Lemma tokens_fill g g' bs b : b ∈ bs → (∀ b', b ≠ b' → g' b' = g b') →
  tokens g' bs = <[b := g' b]> (tokens g bs).
Proof.
  intros Hb Hg. apply map_eq. intros b'. rewrite lookup_insert, !lookup_tokens.
  destruct (decide (b = b')) as [->|Hne]; [by rewrite decide_True|]. case_decide; [by rewrite Hg|done].
Qed.

Definition abstract (c : fconfig) : channel :=
  let f := fc_flow c in
  let bytes_of b := buf_Bytes b (rf_buffer f) in
  mkChannel (pb_cap (rf_buffer f)) (rf_packets f) (rf_closed f)
    (tokens bytes_of (fc_held c)) (tokens bytes_of (fc_reading c)).

Section refinement.
Context `{!GoPool, !GoMapOrder}.

(** What a step of the flow is to its users. *)
Definition event_of (l : label) (c : fconfig) : event :=
  let f := fc_flow c in
  let pb := rf_buffer f in
  match l with
  | LGet => let '(b, pb) := pool_Get pb in EvGet b (buf_Bytes b pb)
  | LFill b bs => EvFill b bs
  | LPush b => EvPush b (buf_Bytes b pb)
                 (negb (rf_closed f) && bool_decide (length (pb_queue pb) < pb_cap pb))
  | LReadPacket _ => match chan_recv pb with
                     | RecvPacket b pb => EvReceive b (buf_Bytes b pb)
                     | RecvClosed | RecvBlocked => EvDrained
                     end
  | LReadCopy b buf => EvCopy b (buf_Bytes b pb) buf (copyPacket buf b f).1
  | LCloseBuffer => EvClose
  | _ => EvInternal
  end.

Inductive ftrace (c0 : fconfig) : list event → fconfig → Prop :=
  | ft_nil : ftrace c0 [] c0
  | ft_step evs c l c' : ftrace c0 evs c → fexec l c = Some (Ret c') →
      ftrace c0 (evs ++ [event_of l c]) c'.

Lemma pool_Get_bytes pb held b pb' b' : owned pb held → pool_Get pb = (b, pb') → b' ∈ held →
  buf_Bytes b' pb' = buf_Bytes b' pb.
Proof.
  intros Ho Hg Hb'. pose proof (owned_bound _ _ _ Ho Hb'). revert Hg. unfold pool_Get.
  destruct (pool_pick _); intros [= <- <-]; [done|]. unfold buf_Bytes. simpl. by rewrite lookup_app_l.
Qed.

Lemma push_buffer b f f' : push b f = Ret f' → pb_bufs (rf_buffer f') = pb_bufs (rf_buffer f).
Proof.
  unfold push. destruct (rf_closed f); [by intros [= <-]|]. unfold chan_trySend.
  destruct (pb_closed _); [done|]. case_decide; by intros [= <-].
Qed.

Lemma abstract_same_bufs c c' : pb_bufs (rf_buffer (fc_flow c')) = pb_bufs (rf_buffer (fc_flow c)) →
  ∀ b, buf_Bytes b (rf_buffer (fc_flow c')) = buf_Bytes b (rf_buffer (fc_flow c)).
Proof. intros Hb b. unfold buf_Bytes. by rewrite Hb. Qed.

(** Steps that do not touch the buffers. *)
Lemma abstract_internal c c' : rf_buffer (fc_flow c') = rf_buffer (fc_flow c) →
  rf_closed (fc_flow c') = rf_closed (fc_flow c) → fc_held c' = fc_held c → fc_reading c' = fc_reading c →
  abstract c' = abstract c.
Proof. intros Hb Hc Hh Hr. unfold abstract, rf_packets. by rewrite Hb, Hc, Hh, Hr. Qed.

Lemma step_get c c' : fc_inv c → fexec LGet c = Some (Ret c') → cstep (abstract c) (event_of LGet c) (abstract c').
Proof.
  intros Hc. cbn [fexec event_of]. destruct (pool_Get (rf_buffer (fc_flow c))) as [b pb] eqn:Hg. intros [= <-].
  pose proof (rf_inv_owned _ _ (fi_flow _ Hc)) as Ho. destruct (pool_Get_owned _ _ _ _ Ho Hg) as [Ho' (Ecap & Eq & Ecl & Econ)].
  assert (b ∉ fc_reading c ++ fc_held c) as Hnew.
  { by apply owned_held_NoDup, NoDup_cons in Ho' as [? _]. }
  rewrite elem_of_app in Hnew. unfold abstract. simpl. unfold rf_packets. simpl. rewrite Ecap, Econ.
  rewrite (tokens_ext (λ b, buf_Bytes b (rf_buffer (fc_flow c)))  (λ b, buf_Bytes b pb) (fc_reading c)).
  2:{ intros b' Hb'. eapply pool_Get_bytes; [done..|]. apply elem_of_app. by left. }
  rewrite <- (tokens_ext (λ b, buf_Bytes b (rf_buffer (fc_flow c))) (λ b, buf_Bytes b pb) (fc_held c)).
  2:{ intros b' Hb'. eapply pool_Get_bytes; [done..|]. apply elem_of_app. by right. }
  apply cs_get; rewrite lookup_tokens, decide_False; tauto.
Qed.

Lemma step_fill c b bs c' : fc_inv c → fexec (LFill b bs) c = Some (Ret c') →
  cstep (abstract c) (event_of (LFill b bs) c) (abstract c').
Proof.
  intros Hc. cbn [fexec event_of]. case_decide as Hb; [|done]. intros [= <-].
  pose proof (rf_inv_owned _ _ (fi_flow _ Hc)) as Ho.
  assert (b ∈ fc_reading c ++ fc_held c) as Hb' by (apply elem_of_app; by right).
  pose proof (owned_bound _ _ _ Ho Hb') as Hlt. rewrite buf_fill by done.
  destruct (buf_set_owned b bs _ _ Ho Hb') as [_ (_ & _ & _ & Econ)].
  unfold abstract. simpl. unfold rf_packets. simpl. rewrite Econ.
  set (pb := rf_buffer (fc_flow c)) in *.
  rewrite (tokens_ext (λ b, buf_Bytes b pb) (λ b0, buf_Bytes b0 (buf_set b bs pb)) (fc_reading c)).
  2:{ intros b' Hin. apply buf_Bytes_set_ne. intros ->.
    apply owned_held_NoDup, NoDup_app in Ho as (_ & Hd & _). by apply (Hd b'). }
  rewrite (tokens_fill (λ b, buf_Bytes b pb) (λ b0, buf_Bytes b0 (buf_set b bs pb)) (fc_held c) b Hb).
  2:{ intros b' Hne. by apply buf_Bytes_set_ne. }
  simpl. rewrite buf_Bytes_set by done. apply cs_fill. rewrite lookup_tokens, decide_True by done. by eexists.
Qed.

Lemma step_push c b c' : fc_inv c → fexec (LPush b) c = Some (Ret c') →
  cstep (abstract c) (event_of (LPush b) c) (abstract c').
Proof.
  intros Hc. cbn [fexec event_of]. case_decide as Hb; [|done].
  destruct (push_spec _ _ _ (held_split_inv c b Hc Hb)) as (f' & Hp & _ & Hpk & Hcl & _ & Hcap & _).
  rewrite Hp. intros [= <-]. pose proof (push_buffer _ _ _ Hp) as Hbufs.
  pose proof (rf_inv_cap _ _ (fi_flow _ Hc)) as Hle. rewrite rf_packets_length in Hpk.
  unfold abstract. simpl. rewrite Hcl, Hcap, tokens_difference.
  rewrite !(tokens_ext (λ b, buf_Bytes b (rf_buffer (fc_flow c))) (λ b, buf_Bytes b (rf_buffer f'))).
  2,3: intros b' _; unfold buf_Bytes; by rewrite Hbufs.
  assert (tokens (λ b, buf_Bytes b (rf_buffer (fc_flow c))) (fc_held c) !! b =
    Some (buf_Bytes b (rf_buffer (fc_flow c)))) as Hlook by (by rewrite lookup_tokens, decide_True).
  rewrite Hpk. destruct (rf_closed (fc_flow c)) eqn:Hclosed; simpl; [by apply cs_drop; [|left]|].
  case_bool_decide as Hlt; [by apply cs_push; [|rewrite rf_packets_length]|].
  apply cs_drop; [done|]. right. rewrite rf_packets_length. lia.
Qed.

Lemma step_receive c i c' : fc_inv c → fexec (LReadPacket i) c = Some (Ret c') →
  cstep (abstract c) (event_of (LReadPacket i) c) (abstract c').
Proof.
  intros Hc. cbn [fexec event_of]. destruct (fc_waiting c !! i); [|done]. cbn [mbind option_bind].
  pose proof (rf_inv_chan _ _ (fi_flow _ Hc)) as Hch.
  destruct (chan_recv (rf_buffer (fc_flow c))) as [| |b pb] eqn:Hr; [done|..]; intros [= <-].
  - unfold abstract. simpl. unfold chan_recv in Hr. unfold rf_packets, contents.
    destruct (pb_queue _); [|done]. destruct (pb_closed _); [|done]. rewrite <- Hch. simpl. apply cs_drained.
  - destruct (rf_inv_recv _ _ _ _ (fi_flow _ Hc) Hr) as [Hinv Hp].
    assert (b ∉ fc_reading c ++ fc_held c) as Hnew.
    { by apply rf_inv_owned, owned_held_NoDup, NoDup_cons in Hinv as [? _]. }
    rewrite elem_of_app in Hnew. unfold abstract. simpl. rewrite Hp. unfold chan_recv in Hr.
    destruct (pb_queue (rf_buffer (fc_flow c))) as [|b0 q]; [by destruct (pb_closed _)|]. injection Hr as -> <-. simpl.
    apply cs_receive. rewrite lookup_tokens, decide_False; tauto.
Qed.

Lemma step_copy c b buf c' : fc_inv c → fexec (LReadCopy b buf) c = Some (Ret c') →
  cstep (abstract c) (event_of (LReadCopy b buf) c) (abstract c').
Proof.
  intros Hc. cbn [fexec event_of]. case_decide as Hb; [|done].
  destruct (copyPacket buf b (fc_flow c)) as [res f'] eqn:Hcopy. intros [= <-].
  destruct (rf_inv_copy _ _ _ _ _ _ (reading_split c b Hc Hb) Hcopy) as (_ & -> & ->).
  unfold abstract. simpl. rewrite tokens_difference. apply cs_copy. by rewrite lookup_tokens, decide_True.
Qed.

Lemma step_refines l c c' : fc_inv c → fexec l c = Some (Ret c') →
  cstep (abstract c) (event_of l c) (abstract c').
Proof.
  intros Hc He. destruct l; try by
    first [apply step_get|apply step_fill|apply step_push|apply (step_receive c i c')|apply (step_copy c b buf c')].
  all: cbn [event_of].
  10:{ revert He. cbn [fexec]. destruct (fc_cancelling c); [done|]. unfold closeBuffer.
    destruct (rf_closed (fc_flow c)) eqn:Hcl; [intros [= <-]|].
    - unfold abstract. simpl. rewrite Hcl. apply cs_close.
    - unfold chan_close. simpl. destruct (pb_closed _); [done|]. intros [= <-]. unfold abstract. simpl. apply cs_close. }
  all: assert (abstract c' = abstract c) as ->; [|apply cs_internal].
  all: revert He; cbn [fexec]; unfold register, Read_lock, ReceiveFlow_SetReadDeadline.
  - destruct (rf_ctxDone _); intros [= <-]; by apply abstract_internal.
  - intros [= <-]. by apply abstract_internal.
  - destruct (deadlineExpired _); intros [= <-]; by apply abstract_internal.
  - destruct (fc_waiting c !! i); [|done]. cbn [mbind option_bind Read_select].
    destruct (ch_closed _ _); [|done]. intros [= <-]. by apply abstract_internal.
  - destruct (SetReadDeadline _ _ _); [|done]. intros [= <-]. by apply abstract_internal.
  - case_decide; [|done]. intros [= <-]. by apply abstract_internal.
  - destruct (fireTimer _ _ _); [|done]. intros [= <-]. by apply abstract_internal.
  - destruct (timerFunc _) as [[d|]|]; [|done..]. intros [= <-]. by apply abstract_internal.
  - intros [= <-]. by apply abstract_internal.
  - destruct (fc_closing c); [done|]. intros [= <-]. by apply abstract_internal.
  - intros [= <-]. by apply abstract_internal.
Qed.

Lemma ftrace_refines id size q l f now evs c : newReceiveFlow id size q l = Ret f →
  ftrace (finit f now) evs c → fc_inv c ∧ ctrace (new_channel (Z.to_nat size)) evs (abstract c).
Proof.
  intros Hf Ht. induction Ht as [|evs c lb c' _ [Hc IH] Hstep].
  - split; [by eapply finit_inv|]. revert Hf. unfold newReceiveFlow, newPacketBuffer. case_decide; [done|].
    intros [= <-]. apply ct_nil.
  - destruct (fexec_inv _ _ _ Hc Hstep) as (c2 & [= <-] & Hc2). split; [done|].
    eapply ct_step; [done|]. by apply step_refines.
Qed.
End refinement.

(** ** Properties *)

Section properties.
Context `{!GoPool, !GoMapOrder}.

Lemma tokens_values g bs : NoDup bs → (map_to_list (tokens g bs)).*2 ≡ₚ g <$> bs.
Proof.
  intros Hnd. unfold tokens. rewrite map_to_list_to_map; rewrite <- list_fmap_compose; [done|].
  by rewrite list_fmap_id.
Qed.

(** C15: a receive flow is a bounded channel of packets, although its goroutines share
    recycled buffers. Whatever pushes, reads, closes and other calls are interleaved,
    each step is a step of the channel with the same event; so the packets that were
    accepted are those received followed by those queued, in order, none lost,
    duplicated or changed; what was received has been copied out or is being copied;
    a push carries what its own producer wrote last, whoever had the buffer before or
    after, and a [Read] returns the whole packet, or reports that it does not fit. *)
Theorem flow_refines_channel (id size : Z) (q : option qlogger) (l : option slogger) (f : ReceiveFlow)
    (now : Z) (evs : list event) (c : fconfig) (Hf : newReceiveFlow id size q l = Ret f)
    (Ht : ftrace (finit f now) evs c) :
  let bytes_of b := buf_Bytes b (rf_buffer (fc_flow c)) in
  ctrace (new_channel (Z.to_nat size)) evs (abstract c) ∧
  pushed evs = got evs ++ rf_packets (fc_flow c) ∧
  got evs ≡ₚ copied evs ++ (bytes_of <$> fc_reading c) ∧
  (∀ evs1 b p acc evs2, evs = evs1 ++ EvPush b p acc :: evs2 → last_written b evs1 = Some p) ∧
  (∀ evs1 b p buf res evs2, evs = evs1 ++ EvCopy b p buf res :: evs2 → res = read_packet p buf).
Proof.
  intros bytes_of. destruct (ftrace_refines _ _ _ _ _ _ _ _ Hf Ht) as [Hc Hct].
  pose proof (ctrace_ok _ _ _ Hct) as [Hq Hr _ He]. split_and!; try done.
  - rewrite Hr. f_equiv. apply tokens_values.
    by apply fi_flow, rf_inv_owned, owned_held_NoDup, NoDup_app in Hc as [? _].
  - intros evs1 b p acc evs2 E. exact (He _ _ _ E).
  - intros evs1 b p buf res evs2 E. exact (He _ _ _ E).
Qed.
End properties.

Section witnesses.
#[local] Existing Instance lifo_pool.
#[local] Existing Instance ascending_order.

(** The events of a run, and where it ends. *)
Fixpoint fevents (ls : list label) (evs : list event) (c : fconfig) : option (list event * fconfig) :=
  match ls with
  | [] => Some (evs, c)
  | l :: ls => match fexec l c with
               | Some (Ret c') => fevents ls (evs ++ [event_of l c]) c'
               | _ => None
               end
  end.

Lemma fevents_trace c0 ls evs c evs' c' : ftrace c0 evs c → fevents ls evs c = Some (evs', c') → ftrace c0 evs' c'.
Proof.
  revert evs c. induction ls as [|l ls IH]; intros evs c Ht; simpl; [by intros [= <- <-]|].
  destruct (fexec l c) as [[c1|]|] eqn:He; [|done..]. apply IH. by eapply ft_step.
Qed.

(** Two producers and a reader, whose buffer a third producer gets next. *)
Definition ex_sharing : list label :=
  [LGet; LGet; LFill 1 [Byte.x0b]; LFill 0 [Byte.x0a]; LPush 1; LReadLock; LReadPacket 0; LPush 0;
   LReadCopy 1 [Byte.x00; Byte.x00]; LGet; LFill 1 [Byte.x0c]].

Lemma flow_refines_channel_witness :
  ∃ evs c, fevents ex_sharing [] (finit ex_new 0) = Some (evs, c) ∧
    pushed evs = [[Byte.x0b]; [Byte.x0a]] ∧ pushed evs = [[Byte.x0b]] ++ rf_packets (fc_flow c).
Proof.
  eexists _, _. split; [vm_compute; reflexivity|]. split; [reflexivity|].
  eapply (flow_refines_channel 7 2 None None ex_new 0); [reflexivity|].
  eapply (fevents_trace (finit ex_new 0) ex_sharing []); [constructor|vm_compute; reflexivity].
Defined.
End witnesses.
