(* ===== verification/SendFlow.v ===== *)
(** * send_flow.go: a flow of sent packets

    A [SendFlow] refers to its streams by their places in the list of all streams
    opened so far: the application holds references to the same streams and writes
    to them. The struct's [conn] is the connection every operation is given, and
    its [onClose] is the function [Close] is given: the session passes the one
    that forgets the flow.

    [NewSendStream] takes the lock of the flow twice, and opens the stream in
    between: [isClosed], [NewSendStream_open] and [NewSendStream_append] are its
    three parts. *)

From S2P Require Import Prelude GoErrors IO Varint QlogEvent Qlogger Options.
From S2P Require Import Connection RTPSendStream.

Record SendFlow := mkSendFlow {
  sf_id : Z;
  sf_flowID : list byte;
  sf_streams : list nat;
  sf_closedErr : option goerror;
  sf_qlog : option qlogger;
  sf_logger : slogger
}.

Definition set_sf_streams ss f :=
  mkSendFlow (sf_id f) (sf_flowID f) ss (sf_closedErr f) (sf_qlog f) (sf_logger f).
Definition set_sf_closedErr e f :=
  mkSendFlow (sf_id f) (sf_flowID f) (sf_streams f) e (sf_qlog f) (sf_logger f).

Section SendFlow.
Context `{!QuicVarint} {C : Type} `{!Connection C}.

Definition newFlow (id : Z) (qlog : option qlogger) (logger : option slogger) : outcome SendFlow :=
  _ ← quicvarint_Len id;
  flowID ← quicvarint_Append [] id;
  Ret (mkSendFlow id flowID [] None qlog (default discardLogger logger)).

Definition isClosed (f : SendFlow) : option goerror := sf_closedErr f.

Definition SendFlow_ID (f : SendFlow) : Z := sf_id f.

(** A packet goes out as a datagram behind the flow ID; [WriteRTPBytes] looks at
    [isClosed] first, and sends without the lock. *)
Definition WriteRTPBytes_send (packet : list byte) (f : SendFlow) (c : C)
    : option goerror * C * list effect :=
  let buf := sf_flowID f ++ packet in
  let evs := record (sf_qlog f) (λ q,
    DatagramPacketCreated
      (mkPacket (sf_id f) (uint64 (Z.of_nat (length buf)))
         (mkRawInfo (uint64 (Z.of_nat (length buf))) (uint64 (Z.of_nat (length packet)))
            (rawData q buf)))) in
  let '(err, c) := SendDatagram buf c in
  (err, c, evs).

Definition SendFlow_WriteRTPBytes (packet : list byte) (f : SendFlow) (c : C)
    : option goerror * C * list effect :=
  match isClosed f with
  | Some err => (Some err, c, [])
  | None => WriteRTPBytes_send packet f c
  end.

(** Opens a stream and prepares it, without the lock. *)
Definition NewSendStream_open (priority : Z) (incremental : bool) (f : SendFlow) (c : C)
    : (RTPSendStream + goerror) * C * list effect :=
  match OpenUniStreamSync c with
  | (inr err, c) => (inr err, c, [])
  | (inl s, c) =>
      let '(c, log) :=
        if is_PrioritySendStream s then
          (SetIncremental s incremental (SetPriority s priority c),
           [ELog Debug "setting stream priority"])
        else (c, []) in
      match newRTPSendStream s (sf_id f) (sf_flowID f) (sf_qlog f) with
      | inr err => (inr err, c, log)
      | inl stream =>
          let evs := record (sf_qlog f) (λ _, StreamOpened (sf_id f) (uint64 (SendStream_ID s))) in
          (inl stream, c, log ++ evs)
      end
  end.

(** Adds the stream, which becomes number [length streams] of all. *)
Definition NewSendStream_append (stream : RTPSendStream) (f : SendFlow)
    (streams : list RTPSendStream) : nat * SendFlow * list RTPSendStream :=
  (length streams, set_sf_streams (sf_streams f ++ [length streams]) f, streams ++ [stream]).

Definition NewSendStream (priority : Z) (incremental : bool) (f : SendFlow)
    (streams : list RTPSendStream) (c : C)
    : (nat + goerror) * SendFlow * list RTPSendStream * C * list effect :=
  match isClosed f with
  | Some err => (inr err, f, streams, c, [])
  | None =>
      match NewSendStream_open priority incremental f c with
      | (inr err, c, es) => (inr err, f, streams, c, es)
      | (inl stream, c, es) =>
          let '(r, f, streams) := NewSendStream_append stream f streams in
          (inl r, f, streams, c, es)
      end
  end.

(** The loop of [Close]: every stream is closed, and every error collected. *)
Fixpoint closeStreams (refs : list nat) (streams : list RTPSendStream) (c : C)
    : outcome (list (option goerror) * C) :=
  match refs with
  | [] => Ret ([], c)
  | r :: refs =>
      match streams !! r with
      | None => Panic PanicNilDereference
      | Some s =>
          let '(err, c) := RTPSendStream.Close s c in
          '(errs, c) ← closeStreams refs streams c;
          Ret (err :: errs, c)
      end
  end.

(** [x] is what [onClose] acts on. *)
Definition SendFlow_Close {X} (onClose : X → X) (f : SendFlow) (streams : list RTPSendStream)
    (c : C) (x : X) : outcome (option goerror * SendFlow * C * X) :=
  '(errs, c) ← closeStreams (sf_streams f) streams c;
  let x := onClose x in
  Ret (errors_Join errs, set_sf_closedErr (Some errClosed) f, c, x).
End SendFlow.

(** ** What the operations do *)

(** The handles of a flow's streams. *)
Definition sf_handles (f : SendFlow) (streams : list RTPSendStream) : list nat :=
  omap (λ r, stream <$> streams !! r) (sf_streams f).

(** The streams of a flow exist and carry its flow ID. *)
Definition sf_inv `{!QuicVarint} (streams : list RTPSendStream) (f : SendFlow) : Prop :=
  quicvarint_Append [] (sf_id f) = Ret (sf_flowID f) ∧ varint_ok (sf_id f) ∧
  Forall (λ r, ∃ s, streams !! r = Some s ∧ flowIDBytes s = sf_flowID f ∧ flowID s = sf_id f)
    (sf_streams f).

(** Closing the streams [hs] one after the other returns [errs]. *)
Inductive close_each {C} `{!Connection C} : list nat → C → list (option goerror) → C → Prop :=
  | close_none c : close_each [] c [] c
  | close_next h hs c e c1 errs c' :
      SendStream_Close h c = (e, c1) → close_each hs c1 errs c' →
      close_each (h :: hs) c (e :: errs) c'.

Section correctness.
Context `{QuicVarintLaws} {C : Type} `{ConnectionLaws C}.
Implicit Types (f : SendFlow) (c : C) (streams : list RTPSendStream).

Lemma newFlow_spec id q l : varint_ok id → ∃ f, newFlow id q l = Ret f ∧
  sf_id f = id ∧ sf_streams f = [] ∧ sf_closedErr f = None ∧ sf_qlog f = q ∧ sf_inv [] f.
Proof.
  intros Hid. destruct (Append_ok id Hid) as (e & He & Hl & _). unfold newFlow.
  rewrite Hl. simpl. rewrite He. simpl. eexists; split; [done|].
  split_and!; done.
Qed.

(** An ID of more than 62 bits is not rejected. *)
Lemma newFlow_panics id q l : (2 ^ 62 ≤ id < 2 ^ 64)%Z → newFlow id q l = Panic PanicVarintRange.
Proof. intros Hid. unfold newFlow. by rewrite Len_panics. Qed.

Lemma sf_inv_grow streams streams' f :
  streams `prefix_of` streams' → sf_inv streams f → sf_inv streams' f.
Proof.
  intros Hp (? & ? & Hs). split_and!; [done..|]. eapply Forall_impl; [done|]. simpl.
  intros r (s & Hr & ? & ?). exists s. split; [|done]. by eapply prefix_lookup_Some.
Qed.

Lemma close_each_calls hs c errs c' :
  close_each hs c errs c' → calls c' = calls c ++ (CClose <$> hs) ∧ length errs = length hs.
Proof.
  induction 1 as [|h hs c e c1 errs c' Hc _ [IH Hl]]; simpl; [by rewrite app_nil_r|].
  apply calls_Close in Hc. rewrite IH, Hc, <- app_assoc, Hl. done.
Qed.

Lemma closeStreams_spec refs streams c :
  Forall (λ r, is_Some (streams !! r)) refs →
  ∃ errs c', closeStreams refs streams c = Ret (errs, c') ∧
    close_each (omap (λ r, stream <$> streams !! r) refs) c errs c'.
Proof.
  intros Hall. revert c. induction Hall as [|r refs [s Hs] _ IH]; intros c; simpl.
  { exists [], c. split; [done|constructor]. }
  rewrite Hs. simpl. destruct (RTPSendStream.Close s c) as [err c1] eqn:Hc.
  destruct (IH c1) as (errs & c' & -> & Heach). simpl. eexists _, _. split; [done|].
  by econstructor.
Qed.

Lemma SendFlow_Close_spec {X} (onClose : X → X) f streams c x :
  sf_inv streams f →
  ∃ errs c', SendFlow_Close onClose f streams c x =
      Ret (errors_Join errs, set_sf_closedErr (Some errClosed) f, c', onClose x) ∧
    close_each (sf_handles f streams) c errs c'.
Proof.
  intros (_ & _ & Hs). unfold SendFlow_Close.
  destruct (closeStreams_spec (sf_streams f) streams c) as (errs & c' & -> & Hc).
  { eapply Forall_impl; [done|]. simpl. intros r (s & -> & _). done. }
  simpl. eauto.
Qed.
End correctness.

(** ** Properties *)

Section properties.
Context `{QuicVarintLaws} {C : Type} `{ConnectionLaws C}.

(** C31: [Close] closes every stream of the flow, in order, whichever of them
    fail; it reports an error exactly if one of them failed, and [errors.Is] finds
    each of the errors in it. The flow is forgotten by [onClose] in either case,
    and from then on it sends no datagram and opens no stream, but reports
    [errClosed]. *)
Theorem SendFlow_Close_closes_all {X : Type} (onClose : X → X) (f : SendFlow)
    (streams : list RTPSendStream) (c : C) (x : X) (Hinv : sf_inv streams f) :
  ∃ err f' c' errs, SendFlow_Close onClose f streams c x = Ret (err, f', c', onClose x) ∧
    close_each (sf_handles f streams) c errs c' ∧ length (sf_handles f streams) = length (sf_streams f) ∧
    calls c' = calls c ++ (CClose <$> sf_handles f streams) ∧
    (err = None ↔ Forall (λ e, e = None) errs) ∧
    (∀ e target, Some e ∈ errs → errors_Is e target = true →
       ∃ je, err = Some je ∧ errors_Is je target = true) ∧
    (∀ packet c2, SendFlow_WriteRTPBytes packet f' c2 = (Some errClosed, c2, [])) ∧
    (∀ p i c2, NewSendStream p i f' streams c2 = (inr errClosed, f', streams, c2, [])).
Proof.
  destruct (SendFlow_Close_spec onClose f streams c x Hinv) as (errs & c' & -> & Heach).
  eexists _, _, c', errs. split; [done|]. destruct (close_each_calls _ _ _ _ Heach) as [Hcalls Hl].
  split_and!; try done.
  - destruct Hinv as (_ & _ & Hs). unfold sf_handles. clear -Hs.
    induction Hs as [|r refs (s & Hs & _) _ IH]; simpl; [done|]. rewrite Hs. simpl. by f_equal.
  - apply errors_Join_None.
  - intros e target. apply errors_Join_Is.
Qed.

(** A packet sent on an open flow is one datagram: the flow ID as a varint,
    of its minimal length, followed by the packet unchanged; the result is that
    of the connection, and the qlog event tells the lengths of the datagram and
    of the packet in it. *)
Theorem SendFlow_WriteRTPBytes_datagram (packet : list byte) (streams : list RTPSendStream)
    (f : SendFlow) (c : C) (Hinv : sf_inv streams f) (Hopen : sf_closedErr f = None)
    (Hlen : (Z.of_nat (length packet) < 2 ^ 63)%Z) :
  ∃ enc err c' es, SendFlow_WriteRTPBytes packet f c = (err, c', es) ∧
    SendDatagram (enc ++ packet) c = (err, c') ∧ calls c' = calls c ++ [CSendDatagram (enc ++ packet)] ∧
    quicvarint_Len (sf_id f) = Ret (length enc) ∧
    quicvarint_Parse (enc ++ packet) = inl (sf_id f, length enc) ∧
    es = record (sf_qlog f) (λ q, DatagramPacketCreated (mkPacket (sf_id f)
           (Z.of_nat (length enc + length packet))
           (mkRawInfo (Z.of_nat (length enc + length packet)) (Z.of_nat (length packet))
              (rawData q (enc ++ packet))))).
Proof.
  destruct Hinv as (Ha & Hid & _). destruct (Append_ok _ Hid) as (e & He & Hl & Hp).
  rewrite He in Ha. simpl in Ha. injection Ha as Hf.
  assert (length e ≤ 8) as He8.
  { specialize (Hp []). apply Parse_inv in Hp as (b & _ & _ & -> & _).
    apply varint_size_pos. }
  exists e. unfold SendFlow_WriteRTPBytes, WriteRTPBytes_send, isClosed. rewrite Hopen, <- Hf, length_app, !uint64_small by lia.
  destruct (SendDatagram (e ++ packet) c) as [err c'] eqn:Hs.
  eexists err, c', _. split; [done|]. apply calls_SendDatagram in Hs as Hcalls.
  split_and!; try done.
Qed.
End properties.

Section witnesses.
Import RFC9000.

(** Two streams; closing a stream fails on this connection. *)
Definition ex_sf_streams : list RTPSendStream :=
  [mkRTPSendStream 4 1000 (bytes [67; 232]%Z) None true [] [];
   mkRTPSendStream 9 1000 (bytes [67; 232]%Z) None false [] []].
Definition ex_send_flow : SendFlow := mkSendFlow 1000 (bytes [67; 232]%Z) [0; 1] None None discardLogger.
Definition ex_failing : stubConn := mkStub [] [] 10 (Some ErrShortWrite) None [] [] [].

Lemma ex_send_flow_inv : sf_inv ex_sf_streams ex_send_flow.
Proof.
  split_and!; [reflexivity|vm_compute; done..|]. repeat constructor; eexists; done.
Qed.

Lemma SendFlow_Close_closes_all_witness :
  ∃ je f' c', SendFlow_Close (λ n : nat, S n) ex_send_flow ex_sf_streams ex_failing 0 =
      Ret (Some je, f', c', 1) ∧
    calls c' = [CClose 4; CClose 9] ∧ errors_Is je ErrShortWrite = true.
Proof.
  destruct (SendFlow_Close_closes_all (λ n : nat, S n) ex_send_flow ex_sf_streams ex_failing 0
    ex_send_flow_inv) as (err & f' & c' & errs & Hrun & Heach & _ & Hcalls & _ & His & _).
  vm_compute in Heach. inversion Heach as [|? ? ? ? ? ? ? Hc]. vm_compute in Hc.
  injection Hc as <- <-. subst errs.
  destruct (His ErrShortWrite ErrShortWrite) as (je & -> & Hje);
    [apply list_elem_of_here|reflexivity|].
  exists je, f', c'. split; [exact Hrun|]. split; [exact Hcalls|exact Hje].
Defined.

Lemma SendFlow_WriteRTPBytes_datagram_witness :
  ∃ enc err c' es, SendFlow_WriteRTPBytes [Byte.x2a] ex_send_flow ex_failing = (err, c', es) ∧
    calls c' = [CSendDatagram (enc ++ [Byte.x2a])] ∧
    RFC9000.Len 1000 = Ret (length enc) ∧ RFC9000.Parse (enc ++ [Byte.x2a]) = inl (1000%Z, length enc).
Proof.
  destruct (SendFlow_WriteRTPBytes_datagram [Byte.x2a] ex_sf_streams ex_send_flow ex_failing
    ex_send_flow_inv eq_refl eq_refl) as (enc & err & c' & es & Hrun & _ & Hcalls & Hl & Hp & _).
  exists enc, err, c', es. auto.
Defined.
End witnesses.
