(* ===== verification/ReceiveFlowBuffer.v ===== *)
(** * receive_flow_buffer.go: flows the application has not asked for yet

    The buffer refers to flows by their places in the list of all receive flows
    created so far. [unknown_flows] is its abstract content, the flows oldest
    first: [getOrCreate] and [pop] are shown to implement a bounded
    first-in first-out map on it. *)

From S2P Require Import Prelude GoErrors IO Qlogger Options SyncMap Connection PacketBuffer.
From S2P Require Import Deadline ReceiveFlow.

Record receiveFlowBuffer := mkFlowBuffer {
  maxLen : Z;
  fb_buffer : gmap Z nat;
  fb_queue : list Z
}.

Definition newReceiveFlowBuffer (maxLen : Z) : receiveFlowBuffer := mkFlowBuffer maxLen ∅ [].

Section operations.
Context `{!GoMapOrder}.

(** The eviction loop; [b.queue[0]] panics on an empty queue. *)
Fixpoint evict (max : Z) (queue : list Z) (buffer : gmap Z nat) (flows : list ReceiveFlow)
    : outcome (list Z * gmap Z nat * list effect) :=
  if decide (max ≤ Z.of_nat (length queue))%Z then
    match queue with
    | [] => Panic PanicIndex
    | front :: queue =>
        es ← match buffer !! front with
             | Some r => match flows !! r with
                         | Some flow => Ret (closeWithError ErrRoQUnknownFlowID flow)
                         | None => Panic PanicNilDereference
                         end
             | None => Ret []
             end;
        '(queue, buffer, es') ← evict max queue (delete front buffer) flows;
        Ret (queue, buffer, es ++ es')
    end
  else Ret (queue, buffer, []).

(** The flow for [id]; a new one becomes number [length flows] of all. *)
Definition getOrCreate (id receiveBufferSize : Z) (qlog : option qlogger) (logger : option slogger)
    (b : receiveFlowBuffer) (flows : list ReceiveFlow)
    : outcome (nat * receiveFlowBuffer * list ReceiveFlow * list effect) :=
  match fb_buffer b !! id with
  | Some r => Ret (r, b, flows, [])
  | None =>
      '(queue, buffer, es) ← evict (maxLen b) (fb_queue b) (fb_buffer b) flows;
      f ← newReceiveFlow id receiveBufferSize qlog logger;
      let r := length flows in
      Ret (r, mkFlowBuffer (maxLen b) (<[id := r]> buffer) (queue ++ [id]), flows ++ [f], es)
  end.

(** [slices.Delete(b.queue, i, i+1)] at the first place [i] of [id], if any. *)
Fixpoint delete_first (id : Z) (queue : list Z) : list Z :=
  match queue with
  | [] => []
  | k :: queue => if decide (k = id) then queue else k :: delete_first id queue
  end.

Definition pop (id : Z) (b : receiveFlowBuffer) : option nat * receiveFlowBuffer :=
  let queue := delete_first id (fb_queue b) in
  match fb_buffer b !! id with
  | None => (None, mkFlowBuffer (maxLen b) (fb_buffer b) queue)
  | Some r => (Some r, mkFlowBuffer (maxLen b) (delete id (fb_buffer b)) queue)
  end.
End operations.

(** ** Invariant and abstract content *)

Record fb_inv (flows : list ReceiveFlow) (b : receiveFlowBuffer) : Prop := {
  fb_positive : (0 < maxLen b)%Z;
  fb_bounded : (Z.of_nat (length (fb_queue b)) ≤ maxLen b)%Z;
  fb_nodup : NoDup (fb_queue b);
  fb_dom id : is_Some (fb_buffer b !! id) ↔ id ∈ fb_queue b;
  fb_flows id r : fb_buffer b !! id = Some r → ∃ f, flows !! r = Some f ∧ rf_id f = id
}.

Definition entries (m : gmap Z nat) (queue : list Z) : list (Z * nat) :=
  omap (λ id, pair id <$> m !! id) queue.

Definition unknown_flows (b : receiveFlowBuffer) : list (Z * nat) :=
  entries (fb_buffer b) (fb_queue b).

(** The bounded first-in first-out map: a new entry displaces the oldest one of
    a full map. *)
Definition fifo_add (max : Z) (e : Z * nat) (l : list (Z * nat)) : list (Z * nat) :=
  (if decide (Z.of_nat (length l) < max)%Z then l else tail l) ++ [e].

Definition fifo_remove (id : Z) (l : list (Z * nat)) : list (Z * nat) :=
  filter (λ '(k, _), k ≠ id) l.

Section correctness.
Context `{!GoMapOrder}.
Implicit Types (b : receiveFlowBuffer) (flows : list ReceiveFlow).

Lemma newReceiveFlowBuffer_inv n flows : (0 < n)%Z → fb_inv flows (newReceiveFlowBuffer n).
Proof.
  intros. split; simpl; [lia|lia|apply NoDup_nil_2|..].
  - intros id. rewrite lookup_empty, elem_of_nil. split; [by intros [? ?]|done].
  - intros id r. by rewrite lookup_empty.
Qed.

Lemma fb_inv_flows flows flows' b :
  (∀ r f, flows !! r = Some f → ∃ f', flows' !! r = Some f' ∧ rf_id f' = rf_id f) →
  fb_inv flows b → fb_inv flows' b.
Proof.
  intros Hsub [? ? ? ? Hf]. split; auto. intros id r (f & Hr & <-)%Hf. eauto.
Qed.

Lemma unknown_flows_keys flows b : fb_inv flows b → (unknown_flows b).*1 = fb_queue b.
Proof.
  intros Hinv. unfold unknown_flows.
  assert (Forall (λ id, is_Some (fb_buffer b !! id)) (fb_queue b)) as Hall
    by (apply Forall_forall; intros id; apply (fb_dom _ _ Hinv)).
  induction Hall as [|id q [r Hr] _ IH]; [done|]. simpl. rewrite Hr. simpl. by f_equal.
Qed.

Lemma elem_of_unknown_flows flows b id r :
  fb_inv flows b → (id, r) ∈ unknown_flows b ↔ fb_buffer b !! id = Some r.
Proof.
  intros Hinv. unfold unknown_flows, entries. rewrite list_elem_of_omap. split.
  - intros (k & _ & Hk). destruct (fb_buffer b !! k) eqn:?; [|done]. by injection Hk as <- <-.
  - intros Hr. exists id. rewrite Hr. split; [|done]. apply (fb_dom _ _ Hinv). by rewrite Hr.
Qed.

Lemma entries_cons m k q : entries m (k :: q) =
  match m !! k with Some r => (k, r) :: entries m q | None => entries m q end.
Proof. unfold entries. simpl. by destruct (m !! k). Qed.

Lemma entries_ext m m' q : (∀ k, k ∈ q → m !! k = m' !! k) → entries m q = entries m' q.
Proof.
  induction q as [|k q IH]; intros Hk; [done|]. rewrite !entries_cons, Hk, IH by set_solver. done.
Qed.

Lemma entries_app m q1 q2 : entries m (q1 ++ q2) = entries m q1 ++ entries m q2.
Proof. apply omap_app. Qed.

Lemma unknown_flows_length flows b : fb_inv flows b → length (unknown_flows b) = length (fb_queue b).
Proof. intros Hinv. rewrite <- (unknown_flows_keys flows b Hinv). by rewrite length_fmap. Qed.

(** The loop runs at most once: it makes room for one flow. *)
Lemma evict_spec flows b : fb_inv flows b →
  if decide (Z.of_nat (length (fb_queue b)) < maxLen b)%Z then
    evict (maxLen b) (fb_queue b) (fb_buffer b) flows = Ret (fb_queue b, fb_buffer b, [])
  else ∃ front r f, head (unknown_flows b) = Some (front, r) ∧ flows !! r = Some f ∧
    evict (maxLen b) (fb_queue b) (fb_buffer b) flows =
      Ret (tail (fb_queue b), delete front (fb_buffer b), closeWithError ErrRoQUnknownFlowID f).
Proof.
  intros [Hpos Hle Hnd Hdom Hfl]. unfold unknown_flows. case_decide as Hlt.
  { destruct (fb_queue b); simpl in *; by rewrite decide_False by lia. }
  destruct (fb_queue b) as [|front q] eqn:Hq; [simpl in *; lia|].
  destruct (proj2 (Hdom front)) as [r Hr]; [set_solver|].
  destruct (Hfl _ _ Hr) as (f & Hf & _). exists front, r, f. simpl in Hle, Hlt.
  rewrite entries_cons, Hr. split_and!; [done..|]. simpl evict.
  case_decide; [|lia]. rewrite Hr, Hf. simpl. assert (evict (maxLen b) q (delete front (fb_buffer b)) flows =
    Ret (q, delete front (fb_buffer b), [])) as ->; [|by simpl; rewrite app_nil_r].
  destruct q; simpl in *; by rewrite decide_False by lia.
Qed.

(** [tail] of the queue, without the evicted entry in the map. *)
Lemma fb_inv_evicted flows b front :
  fb_inv flows b → head (fb_queue b) = Some front →
  fb_inv flows (mkFlowBuffer (maxLen b) (delete front (fb_buffer b)) (tail (fb_queue b))) ∧
  entries (delete front (fb_buffer b)) (tail (fb_queue b)) = tail (unknown_flows b).
Proof.
  intros [Hpos Hle Hnd Hdom Hfl] Hh. unfold unknown_flows.
  destruct (fb_queue b) as [|k q] eqn:Hq; [done|]. injection Hh as ->. simpl in *.
  apply NoDup_cons in Hnd as [Hk Hnd]. destruct (proj2 (Hdom front)) as [r Hr]; [set_solver|].
  rewrite Hr. simpl. split.
  - split; simpl; auto; [lia|..].
    + intros id. destruct (decide (id = front)) as [->|].
      * rewrite lookup_delete_eq. split; [by intros [? ?]|done].
      * rewrite lookup_delete_ne, Hdom by done. set_solver.
    + intros id r' [_ ?]%lookup_delete_Some. eauto.
  - apply entries_ext. intros k Hin. rewrite lookup_delete_ne; [done|]. by intros ->.
Qed.

Lemma fb_inv_add flows flows' b id f :
  fb_inv flows b → id ∉ fb_queue b → (Z.of_nat (length (fb_queue b)) < maxLen b)%Z → rf_id f = id →
  flows' = flows ++ [f] →
  let b' := mkFlowBuffer (maxLen b) (<[id := length flows]> (fb_buffer b)) (fb_queue b ++ [id]) in
  fb_inv flows' b' ∧ unknown_flows b' = unknown_flows b ++ [(id, length flows)].
Proof.
  intros [Hpos Hle Hnd Hdom Hfl] Hid Hlt Hf -> b'. split.
  - split; simpl; auto.
    + rewrite length_app. simpl. lia.
    + apply NoDup_app. split_and!; [done|set_solver|apply NoDup_singleton].
    + intros k. destruct (decide (k = id)) as [->|].
      * rewrite lookup_insert_eq. set_solver.
      * rewrite lookup_insert_ne, Hdom by done. set_solver.
    + intros k r [[<- <-]|[_ Hr]]%lookup_insert_Some.
      * exists f. by rewrite lookup_app_r, Nat.sub_diag.
      * apply Hfl in Hr as (f' & ? & ?). exists f'. split; [by apply lookup_app_l_Some|done].
  - unfold unknown_flows. simpl. rewrite entries_app. f_equal.
    + apply entries_ext. intros k Hk. rewrite lookup_insert_ne; [done|]. by intros ->.
    + unfold entries. simpl. by rewrite lookup_insert_eq.
Qed.

Lemma getOrCreate_spec id size q l b flows : fb_inv flows b → (0 ≤ size)%Z →
  ∃ r b' flows' es, getOrCreate id size q l b flows = Ret (r, b', flows', es) ∧
    fb_inv flows' b' ∧ maxLen b' = maxLen b ∧
    match fb_buffer b !! id with
    | Some r0 => r = r0 ∧ b' = b ∧ flows' = flows ∧ es = []
    | None => ∃ f, newReceiveFlow id size q l = Ret f ∧ r = length flows ∧ flows' = flows ++ [f] ∧
        unknown_flows b' = fifo_add (maxLen b) (id, r) (unknown_flows b) ∧
        if decide (Z.of_nat (length (unknown_flows b)) < maxLen b)%Z then es = []
        else ∃ front r0 f0, head (unknown_flows b) = Some (front, r0) ∧ flows !! r0 = Some f0 ∧
          es = closeWithError ErrRoQUnknownFlowID f0
    end.
Proof.
  intros Hinv Hsize. unfold getOrCreate. destruct (fb_buffer b !! id) as [r0|] eqn:Hb.
  { eexists _, _, _, _. by split. }
  assert (∃ f, newReceiveFlow id size q l = Ret f ∧ rf_id f = id) as (f & Hf & Hfid).
  { unfold newReceiveFlow, newPacketBuffer. rewrite decide_False by lia. simpl. by eexists. }
  assert (id ∉ fb_queue b) as Hid.
  { intros Hin%(fb_dom _ _ Hinv). rewrite Hb in Hin. by destruct Hin. }
  pose proof (evict_spec flows b Hinv) as Hev. unfold fifo_add.
  rewrite (unknown_flows_length flows b Hinv). case_decide as Hlt.
  - rewrite Hev, Hf. simpl. destruct (fb_inv_add flows _ b id f Hinv Hid Hlt Hfid eq_refl) as [Hi Hu].
    eexists _, _, _, _. split; [done|]. split_and!; [done..|]. by exists f.
  - destruct Hev as (front & r0 & f0 & Hh & Hr0 & ->). simpl. rewrite Hf. simpl.
    assert (head (fb_queue b) = Some front) as Hhq.
    { rewrite <- (unknown_flows_keys flows b Hinv). destruct (unknown_flows b); [done|]. by injection Hh as ->. }
    destruct (fb_inv_evicted flows b front Hinv Hhq) as [Hinv' Ht].
    assert ((id ∉ tail (fb_queue b)) ∧ (Z.of_nat (length (tail (fb_queue b))) < maxLen b)%Z) as [Hid' Hlt'].
    { pose proof (fb_bounded _ _ Hinv). destruct (fb_queue b); simpl in *; [done|]. split; [set_solver|lia]. }
    destruct (fb_inv_add flows _ _ id f Hinv' Hid' Hlt' Hfid eq_refl) as [Hi Hu].
    eexists _, _, _, _. split; [done|]. split_and!; [done..|]. exists f. split_and!; try done.
    + simpl in Hu. rewrite Hu. unfold unknown_flows at 1. simpl. by rewrite Ht.
    + by exists front, r0, f0.
Qed.

Lemma delete_first_filter id q : NoDup q → delete_first id q = filter (λ k, k ≠ id) q.
Proof.
  induction 1 as [|k q Hk _ IH]; [done|]. simpl. rewrite filter_cons. case_decide as Hd; subst.
  - rewrite decide_False by (intros Hne; by apply Hne).
    clear IH. induction q as [|k q IH]; [done|]. apply not_elem_of_cons in Hk as [? ?].
    rewrite filter_cons, decide_True by done. f_equal. auto.
  - rewrite decide_True by done. by rewrite IH.
Qed.

Lemma entries_filter m id q :
  entries (delete id m) (filter (λ k, k ≠ id) q) = fifo_remove id (entries m q).
Proof.
  unfold fifo_remove. induction q as [|k q IH]; [done|]. rewrite filter_cons, (entries_cons m).
  case_decide as Hk.
  - rewrite entries_cons, lookup_delete_ne by done. destruct (m !! k); [|done].
    rewrite filter_cons, decide_True by done. by rewrite IH.
  - assert (k = id) as -> by (by destruct (decide (k = id))).
    destruct (m !! id); [|done]. rewrite filter_cons, decide_False; [done|].
    intros Hne. by apply Hne.
Qed.

Lemma pop_spec id b flows : fb_inv flows b →
  ∃ b', pop id b = (fb_buffer b !! id, b') ∧ fb_inv flows b' ∧ maxLen b' = maxLen b ∧
    unknown_flows b' = fifo_remove id (unknown_flows b) ∧ fb_buffer b' = delete id (fb_buffer b).
Proof.
  intros [Hpos Hle Hnd Hdom Hfl]. unfold pop, unknown_flows.
  exists (mkFlowBuffer (maxLen b) (delete id (fb_buffer b)) (delete_first id (fb_queue b))).
  split. { destruct (fb_buffer b !! id) eqn:Hb; [done|]. by rewrite delete_id. }
  rewrite delete_first_filter by done. split_and!; [|done| |done]; [split; simpl; auto|].
  - pose proof (length_filter (λ k, k ≠ id) (fb_queue b)). lia.
  - by apply NoDup_filter.
  - intros k. rewrite list_elem_of_filter. destruct (decide (k = id)) as [->|].
    + rewrite lookup_delete_eq. split; [by intros [? ?]|naive_solver].
    + rewrite lookup_delete_ne, Hdom by done. naive_solver.
  - intros k r [_ ?]%lookup_delete_Some. eauto.
  - simpl. apply entries_filter.
Qed.
End correctness.

(** ** Properties *)

Section properties.
Context `{!GoMapOrder}.

(** C30: the buffer of unknown flows implements a bounded first-in first-out map.
    [getOrCreate] returns without a panic: the flow it holds for the ID, with
    nothing changed, or a new flow with an empty queue, for which the oldest flow,
    and no other, makes room if the buffer is full, with all streams that flow is
    reading cancelled. The buffer never holds more than [maxLen] flows, and a
    second call for the same ID returns the same flow. *)
Theorem getOrCreate_refines_fifo (id size : Z) (q : option qlogger) (l : option slogger)
    (b : receiveFlowBuffer) (flows : list ReceiveFlow)
    (Hinv : fb_inv flows b) (Hsize : (0 ≤ size)%Z) :
  ∃ r b' flows' es, getOrCreate id size q l b flows = Ret (r, b', flows', es) ∧ fb_inv flows' b' ∧
    (Z.of_nat (length (unknown_flows b')) ≤ maxLen b)%Z ∧
    unknown_flows b' =
      (if decide (id ∈ (unknown_flows b).*1) then unknown_flows b
       else fifo_add (maxLen b) (id, r) (unknown_flows b)) ∧
    (id ∉ (unknown_flows b).*1 → ∃ f, flows' = flows ++ [f] ∧ rf_packets f = [] ∧ rf_id f = id) ∧
    (∀ k c, (k, c) ∈ cancelled es → c = ErrRoQUnknownFlowID) ∧
    (∀ id0 r0 f0, flows !! r0 = Some f0 → map_Forall (λ k s, rs_ID s = k) (rf_streams f0) →
       (id0, r0) ∈ unknown_flows b → (id0, r0) ∉ unknown_flows b' →
       ∀ k, is_Some (rf_streams f0 !! k) → (k, ErrRoQUnknownFlowID) ∈ cancelled es) ∧
    getOrCreate id size q l b' flows' = Ret (r, b', flows', []).
Proof.
  destruct (getOrCreate_spec id size q l b flows Hinv Hsize)
    as (r & b' & flows' & es & -> & Hinv' & Hmax & Hcase).
  exists r, b', flows', es. split; [done|]. split; [done|]. split.
  { rewrite (unknown_flows_length flows' b' Hinv'), <- Hmax. apply Hinv'. }
  rewrite (unknown_flows_keys flows b Hinv).
  destruct (fb_buffer b !! id) as [r0|] eqn:Hb.
  { destruct Hcase as (-> & -> & -> & ->).
    assert (id ∈ fb_queue b) as Hq by (apply (fb_dom _ _ Hinv); by rewrite Hb).
    rewrite decide_True by done. unfold getOrCreate. rewrite Hb. split_and!; try done.
    by intros k c ?%not_elem_of_nil. }
  assert (id ∉ fb_queue b) as Hq.
  { intros Hin%(fb_dom _ _ Hinv). rewrite Hb in Hin. by destruct Hin. }
  destruct Hcase as (f & Hf & -> & -> & Hu & Hes). rewrite decide_False by done.
  split_and!; try done.
  - intros _. exists f. destruct (newReceiveFlow_inv _ _ _ _ _ Hf) as [_ Hp]. split_and!; [done..|].
    revert Hf. unfold newReceiveFlow. destruct (newPacketBuffer size); [|done]. by intros [= <-].
  - intros k c. case_decide; [subst es; by intros ?%not_elem_of_nil|].
    destruct Hes as (front & r0 & f0 & _ & _ & ->). unfold cancelled, closeWithError.
    rewrite list_elem_of_omap. intros (e & He & Hk). apply list_elem_of_fmap in He as ([k' s] & -> & _).
    by injection Hk as <- <-.
  - intros id0 r0 f0 Hr0 Hids Hin Hout k Hk. rewrite Hu in Hout. unfold fifo_add in Hout.
    case_decide; [exfalso; set_solver|].
    destruct Hes as (front & r1 & f1 & Hh & Hr1 & ->).
    assert ((id0, r0) = (front, r1)) as [= -> ->].
    { destruct (unknown_flows b) as [|e l']; [done|]. injection Hh as ->. simpl in Hout. set_solver. }
    rewrite Hr1 in Hr0. injection Hr0 as ->. by apply elem_of_cancelled_streams.
  - assert (fb_buffer b' !! id = Some (length flows)) as Hb'.
    { apply (elem_of_unknown_flows _ _ _ _ Hinv'). rewrite Hu. unfold fifo_add. set_solver. }
    unfold getOrCreate. by rewrite Hb'.
Qed.

(** C20: [pop] returns the flow the buffer holds for the ID, or nil, and removes
    it from the map and from the eviction queue and no other: it can no longer be
    evicted, and a later [getOrCreate] for the ID makes another flow. *)
Theorem pop_refines_fifo (id : Z) (b : receiveFlowBuffer) (flows : list ReceiveFlow)
    (Hinv : fb_inv flows b) :
  ∃ res b', pop id b = (res, b') ∧ fb_inv flows b' ∧
    unknown_flows b' = fifo_remove id (unknown_flows b) ∧
    (∀ r, res = Some r ↔ (id, r) ∈ unknown_flows b) ∧ (id ∉ fb_queue b').
Proof.
  destruct (pop_spec id b flows Hinv) as (b' & -> & Hinv' & _ & Hu & Hbuf).
  eexists _, b'. split; [done|]. split_and!; [done..| |].
  - intros r. symmetry. by eapply elem_of_unknown_flows.
  - intros Hin%(fb_dom _ _ Hinv'). rewrite Hbuf, lookup_delete_eq in Hin. by destruct Hin.
Qed.
End properties.

Section witnesses.
#[local] Existing Instance ascending_order.

(** A buffer with room for one flow, which is reading a stream. *)
Definition ex_unknown : ReceiveFlow :=
  mkReceiveFlow 4 (mkPacketBuffer 2 [] false [] []) false
    {[ 5%Z := mkReceiveStream 5 (mkReader [] false EOF) ]} false newDeadline None discardLogger.
Definition ex_fb : receiveFlowBuffer := mkFlowBuffer 1 {[ 4%Z := 0 ]} [4%Z].

Lemma ex_fb_inv : fb_inv [ex_unknown] ex_fb.
Proof.
  split; simpl; [lia|lia|apply NoDup_singleton|..].
  - intros id. rewrite list_elem_of_singleton. split.
    + by intros [r [<- _]%lookup_singleton_Some].
    + intros ->. by rewrite lookup_singleton_eq.
  - intros id r [<- <-]%lookup_singleton_Some. by exists ex_unknown.
Qed.

Lemma getOrCreate_refines_fifo_witness :
  ∃ r b' flows' es, getOrCreate 9 2 None None ex_fb [ex_unknown] = Ret (r, b', flows', es) ∧
    unknown_flows b' = [(9%Z, r)] ∧ (5%Z, ErrRoQUnknownFlowID) ∈ cancelled es.
Proof.
  destruct (getOrCreate_refines_fifo 9 2 None None ex_fb [ex_unknown] ex_fb_inv)
    as (r & b' & flows' & es & Hrun & _ & _ & Hu & _ & _ & Hev & _); [lia|].
  exists r, b', flows', es. split; [exact Hrun|]. split; [exact Hu|].
  apply (Hev 4%Z 0 ex_unknown); [reflexivity|..].
  - by apply map_Forall_singleton.
  - apply list_elem_of_here.
  - rewrite Hu. intros Hx. change ((4%Z, 0) ∈ [(9%Z, r)]) in Hx.
    apply list_elem_of_singleton in Hx. discriminate Hx.
  - by eexists.
Defined.

Lemma pop_refines_fifo_witness :
  ∃ b', pop 4 ex_fb = (Some 0, b') ∧ fb_inv [ex_unknown] b' ∧ unknown_flows b' = [] ∧ (4%Z ∉ fb_queue b').
Proof.
  destruct (pop_refines_fifo 4 ex_fb [ex_unknown] ex_fb_inv) as (res & b' & Hrun & Hi & Hu & Hr & Hq).
  exists b'. injection Hrun as <- <-. auto.
Defined.
End witnesses.
