(* ===== verification/Session.v ===== *)
(** * session.go: the session

    The state of a session is the struct, with the connection in it, and the
    objects its tables refer to: the send flows, send streams and receive flows
    created so far, each named by its place in its list. The application holds
    references to the same objects. [s_effects] is what the session did to its
    surroundings besides calling the connection, in order.

    The operations are the methods; SessionSteps.v runs them from several
    goroutines. *)

From S2P Require Import Prelude GoErrors IO Varint QlogEvent Qlogger Options SyncMap Connection.
From S2P Require Import RTPSendStream SendFlow PacketBuffer Deadline ReceiveFlow ReadStream.
From S2P Require Import ReceiveFlowBuffer.

Record Session (C : Type) := mkSession {
  s_receiveBufferSize : Z;
  s_acceptDatagrams : bool;
  s_conn : C;
  s_sendFlows : syncMap nat;
  s_receiveFlows : syncMap nat;
  s_receiveFlowBuffer : receiveFlowBuffer;
  s_closedErr : option SessionError;
  s_connCloseErr : option goerror;
  s_ctxDone : bool;
  s_qlog : option qlogger;
  s_qlogClosed : bool;             (* closeQlogOnce *)
  s_logger : slogger;
  (* the objects *)
  s_sfs : list SendFlow;
  s_streams : list RTPSendStream;
  s_rfs : list ReceiveFlow;
  s_effects : list effect
}.
Arguments mkSession {C} _ _ _ _ _ _ _ _ _ _ _ _ _ _ _ _.
Arguments s_receiveBufferSize {C} _.
Arguments s_acceptDatagrams {C} _.
Arguments s_conn {C} _.
Arguments s_sendFlows {C} _.
Arguments s_receiveFlows {C} _.
Arguments s_receiveFlowBuffer {C} _.
Arguments s_closedErr {C} _.
Arguments s_connCloseErr {C} _.
Arguments s_ctxDone {C} _.
Arguments s_qlog {C} _.
Arguments s_qlogClosed {C} _.
Arguments s_logger {C} _.
Arguments s_sfs {C} _.
Arguments s_streams {C} _.
Arguments s_rfs {C} _.
Arguments s_effects {C} _.

Section updates.
Context {C : Type}.
Implicit Types (s : Session C).

(** The send side: the connection, the table, the flows and the streams. *)
Definition set_send c m fs ss (s : Session C) : Session C := mkSession (s_receiveBufferSize s) (s_acceptDatagrams s) c m
  (s_receiveFlows s) (s_receiveFlowBuffer s) (s_closedErr s) (s_connCloseErr s) (s_ctxDone s)
  (s_qlog s) (s_qlogClosed s) (s_logger s) fs ss (s_rfs s) (s_effects s).

(** The connection alone. *)
Definition set_conn c (s : Session C) : Session C :=
  set_send c (s_sendFlows s) (s_sfs s) (s_streams s) s.

(** The receive side: the tables and the flows. *)
Definition set_receive m b fs (s : Session C) : Session C := mkSession (s_receiveBufferSize s) (s_acceptDatagrams s)
  (s_conn s) (s_sendFlows s) m b (s_closedErr s) (s_connCloseErr s) (s_ctxDone s) (s_qlog s)
  (s_qlogClosed s) (s_logger s) (s_sfs s) (s_streams s) fs (s_effects s).

Definition set_closed c err cerr ctx (s : Session C) : Session C := mkSession (s_receiveBufferSize s) (s_acceptDatagrams s)
  c (s_sendFlows s) (s_receiveFlows s) (s_receiveFlowBuffer s) err cerr ctx (s_qlog s)
  (s_qlogClosed s) (s_logger s) (s_sfs s) (s_streams s) (s_rfs s) (s_effects s).

Definition set_qlogClosed b (s : Session C) : Session C := mkSession (s_receiveBufferSize s) (s_acceptDatagrams s)
  (s_conn s) (s_sendFlows s) (s_receiveFlows s) (s_receiveFlowBuffer s) (s_closedErr s)
  (s_connCloseErr s) (s_ctxDone s) (s_qlog s) b (s_logger s) (s_sfs s) (s_streams s) (s_rfs s)
  (s_effects s).

Definition emit es (s : Session C) : Session C := mkSession (s_receiveBufferSize s) (s_acceptDatagrams s)
  (s_conn s) (s_sendFlows s) (s_receiveFlows s) (s_receiveFlowBuffer s) (s_closedErr s)
  (s_connCloseErr s) (s_ctxDone s) (s_qlog s) (s_qlogClosed s) (s_logger s) (s_sfs s)
  (s_streams s) (s_rfs s) (s_effects s ++ es).

Definition set_rf (r : nat) f (s : Session C) : Session C :=
  set_receive (s_receiveFlows s) (s_receiveFlowBuffer s) (<[r := f]> (s_rfs s)) s.

(** Following a reference. *)
Definition deref {A} (l : list A) (r : nat) : outcome A :=
  match l !! r with Some a => Ret a | None => Panic PanicNilDereference end.
End updates.

(** ** Construction *)

(** [connTrace] is the trace of the connection: [None] if it is no
    [QlogConnection], [Some None] if its trace is nil. *)
Definition newQlogger (connTrace : option (option Trace)) (config : sessionConfig) : option qlogger :=
  let trace := match qlogTrace config with
               | Some t => Some t
               | None => match connTrace with Some t => t | None => None end
               end in
  match trace with
  | Some t => if SupportsSchemas t EventSchema
              then Some (mkQlogger (qlogPacketData config) (qlogPacketDataLimit config)) else None
  | None => None
  end.

Definition newSession {C} (conn : C) (connTrace : option (option Trace)) (acceptDatagrams : bool)
    (config : sessionConfig) : Session C :=
  mkSession (receiveBufferSize config) acceptDatagrams conn smap.newSyncMap smap.newSyncMap
    (newReceiveFlowBuffer (unknownFlowBufferSize config)) None None false
    (newQlogger connTrace config) false (logger config) [] [] [] [].

(** [NewSessionWithAppHandledConn]; a nil connection is [None]. *)
Definition NewSessionWithAppHandledConn {C} (conn : option C) (connTrace : option (option Trace))
    (acceptDatagrams : bool) (opts : list (option Option)) : Session C + goerror :=
  match conn with
  | None => inr errNilConnection
  | Some conn =>
      match newSessionConfig opts with
      | inr err => inr err
      | inl config => inl (newSession conn connTrace acceptDatagrams config)
      end
  end.

(** The goroutines [start] spawns. *)
Inductive loop := LoopDatagrams | LoopUniStreams.

Definition start {C} (s : Session C) : list loop :=
  (if s_acceptDatagrams s then [LoopDatagrams] else []) ++ [LoopUniStreams].

Definition NewSession {C} (conn : option C) (connTrace : option (option Trace))
    (acceptDatagrams : bool) (opts : list (option Option)) : (Session C * list loop) + goerror :=
  match conn with
  | None => inr errNilConnection
  | Some conn =>
      match newSessionConfig opts with
      | inr err => inr err
      | inl config =>
          let s := newSession conn connTrace acceptDatagrams config in
          inl (s, start s)
      end
  end.

(** ** Operations *)

Section operations.
Context `{!QuicVarint, !GoPool, !GoMapOrder} {C : Type} `{!Connection C}.
Implicit Types (s : Session C).

Definition Session_isClosed s : option goerror := ESession <$> s_closedErr s.

(** [NewSendFlow] after its check that the session is open. *)
Definition NewSendFlow_insert (id : Z) s : outcome ((nat + goerror) * Session C) :=
  f ← newFlow id (s_qlog s) (Some (s_logger s));
  let r := length (s_sfs s) in
  let '((_, inserted), m) := smap.getOrInsert id r (s_sendFlows s) in
  let s := set_send (s_conn s) m (s_sfs s ++ [f]) (s_streams s) s in
  if inserted then Ret (inl r, s) else Ret (inr errDuplicateFlowID, s).

Definition NewSendFlow (id : Z) s : outcome ((nat + goerror) * Session C) :=
  match Session_isClosed s with
  | Some err => Ret (inr err, s)
  | None => NewSendFlow_insert id s
  end.

(** [NewReceiveFlow] under [receiveFlowsMutex], after its check that the session
    is open. *)
Definition NewReceiveFlow_insert (id : Z) s : outcome ((nat + goerror) * Session C) :=
  match smap.get id (s_receiveFlows s) with
  | Some _ => Ret (inr errDuplicateFlowID, s)
  | None =>
      let '(popped, b) := pop id (s_receiveFlowBuffer s) in
      '(r, fs) ← match popped with
                 | Some r => Ret (r, s_rfs s)
                 | None => f ← newReceiveFlow id (s_receiveBufferSize s) (s_qlog s)
                                  (Some (s_logger s));
                           Ret (length (s_rfs s), s_rfs s ++ [f])
                 end;
      Ret (inl r, set_receive (smap.set id r (s_receiveFlows s)) b fs s)
  end.

Definition NewReceiveFlow (id : Z) s : outcome ((nat + goerror) * Session C) :=
  match Session_isClosed s with
  | Some err => Ret (inr err, s)
  | None => NewReceiveFlow_insert id s
  end.

(** [Close] of the send flow [r], whose [onClose] deletes its ID. *)
Definition closeSendFlow (r : nat) s : outcome (option goerror * Session C) :=
  f ← deref (s_sfs s) r;
  '(err, f, c, m) ← SendFlow_Close (smap.delete (sf_id f)) f (s_streams s) (s_conn s) (s_sendFlows s);
  Ret (err, set_send c m (<[r := f]> (s_sfs s)) (s_streams s) s).

(** [Close] of the receive flow [r]. *)
Definition closeReceiveFlow (r : nat) s : outcome (option goerror * Session C) :=
  f ← deref (s_rfs s) r;
  '(err, f, es) ← ReceiveFlow.Close f;
  Ret (err, emit es (set_rf r f s)).

(** The three critical sections of [Close] of the receive flow [r]. *)
Definition flow_cancelCtx (r : nat) s : outcome (Session C) :=
  f ← deref (s_rfs s) r; Ret (set_rf r (cancelCtx f) s).

Definition flow_closeBuffer (r : nat) s : outcome (Session C) :=
  f ← deref (s_rfs s) r; f ← closeBuffer f; Ret (set_rf r f s).

Definition flow_closeStreams (r : nat) s : outcome (Session C) :=
  f ← deref (s_rfs s) r; Ret (emit (closeWithError ErrRoQNoError f) s).

Definition Session_close (code : Z) (reason : string) s : outcome (Session C) :=
  match s_closedErr s with
  | Some _ => Ret s
  | None =>
      let s := set_closed (s_conn s) (Some (mkSessionError code reason)) (s_connCloseErr s)
                 (s_ctxDone s) s in
      s ← smap.rangeFn (λ _ r m, s ← m; '(_, s) ← closeSendFlow r s; Ret s) (s_sendFlows s) (Ret s);
      s ← smap.rangeFn (λ _ r m, s ← m; '(_, s) ← closeReceiveFlow r s; Ret s) (s_receiveFlows s) (Ret s);
      let '(cerr, c) := CloseWithError code reason (s_conn s) in
      Ret (set_closed c (s_closedErr s) cerr true s)
  end.

Definition Session_closeWithError := Session_close.

(** What [Close] does once its goroutines have returned. *)
Definition Close_finish s : option goerror * Session C :=
  let s := if s_qlogClosed s then s
           else match s_qlog s with
                | Some _ => set_qlogClosed true (emit (close_qlog (s_qlog s)) s)
                | None => s
                end in
  (s_connCloseErr s, s).

(** [Close] on a session without goroutines; with them, SessionSteps.v has the
    wait between its two parts. *)
Definition Session_Close s : outcome (option goerror * Session C) :=
  s ← Session_close ErrRoQNoError "" s; Ret (Close_finish s).

Definition receiveFlow (flowID : Z) s : outcome (nat * Session C) :=
  match smap.get flowID (s_receiveFlows s) with
  | Some r => Ret (r, s)
  | None =>
      '(r, b, fs, es) ← getOrCreate flowID (s_receiveBufferSize s) (s_qlog s) (Some (s_logger s))
                          (s_receiveFlowBuffer s) (s_rfs s);
      Ret (r, emit es (set_receive (s_receiveFlows s) b fs s))
  end.

(** [HandleDatagram] once it has found the flow, number [r]. *)
Definition HandleDatagram_deliver (flowID : Z) (datagram : list byte) (r : nat) s : outcome (Session C) :=
  f ← deref (s_rfs s) r;
  let '(b, pb) := pool_Get (rf_buffer f) in
  let pb := buf_Reset b pb in
  l ← quicvarint_Len flowID;
  payload ← slice_from datagram (Z.of_nat l);
  let pb := buf_Write b payload pb in
  f ← push b (set_rf_buffer pb f);
  Ret (set_rf r f s).

(** [HandleDatagram] of a datagram with a valid flow ID of [n] bytes, until it has
    found the flow. *)
Definition HandleDatagram_lookup (flowID : Z) (n : nat) (datagram : list byte) s
    : outcome (nat * Session C) :=
  let len := Z.of_nat (length datagram) in
  let s := emit (record (s_qlog s) (λ q,
    DatagramPacketParsed (mkPacket flowID (uint64 len)
      (mkRawInfo (uint64 len) (uint64 (len - Z.of_nat n)) (rawData q datagram))))) s in
  receiveFlow flowID s.

Definition HandleDatagram (datagram : list byte) s : outcome (Session C) :=
  match quicvarint_Parse datagram with
  | inr _ => Session_closeWithError ErrRoQPacketError "invalid flow ID" s
  | inl (flowID, n) =>
      '(r, s) ← HandleDatagram_lookup flowID n datagram s;
      HandleDatagram_deliver flowID datagram r s
  end.

(** [readStream] on the flow [r]. The boolean says whether its fuel was enough. *)
Definition flow_readStream (rs : ReceiveStream) (r : nat) s : outcome (bool * Session C) :=
  f ← deref (s_rfs s) r;
  '(fin, f, es) ← readStream rs f;
  Ret (fin, emit es (set_rf r f s)).

(** Its parts: the registration, an iteration of the loop, the deferred function. *)
Definition flow_register (rs : ReceiveStream) (r : nat) s : outcome (bool * Session C) :=
  f ← deref (s_rfs s) r;
  let '(ok, f, es) := register rs f in
  Ret (ok, emit es (set_rf r f s)).

Definition flow_readFrame (streamID : Z) (rd : reader) (r : nat) s : outcome (option reader * Session C) :=
  f ← deref (s_rfs s) r;
  '(next, f, es) ← readStream_iter streamID rd f;
  Ret (next, emit es (set_rf r f s)).

Definition flow_unregister (rs : ReceiveStream) (r : nat) s : outcome (Session C) :=
  f ← deref (s_rfs s) r; Ret (set_rf r (unregister rs f) s).

Definition HandleUniStream_lookup (flowID : Z) (rs : ReceiveStream) s : outcome (nat * Session C) :=
  let s := emit (record (s_qlog s) (λ _, StreamOpened flowID (uint64 (rs_ID rs)))) s in
  receiveFlow flowID s.

Definition HandleUniStreamWithFlowID (flowID : Z) (rs : ReceiveStream) s : outcome (bool * Session C) :=
  '(r, s) ← HandleUniStream_lookup flowID rs s;
  flow_readStream rs r s.

Definition handleUniStream (rs : ReceiveStream) s : outcome (bool * Session C) :=
  match quicvarint_Read (rs_reader rs) with
  | (inr _, _) => Ret (true, emit [ECancelRead (rs_ID rs) ErrRoQPacketError] s)
  | (inl flowID, r) => HandleUniStreamWithFlowID flowID (mkReceiveStream (rs_ID rs) r) s
  end.

(** [s.conn.ReceiveDatagram(s.ctx)] and [s.conn.AcceptUniStream(s.ctx)]; [None]
    while they wait. *)
Definition conn_ReceiveDatagram s : option ((list byte + goerror) * Session C) :=
  '(res, c) ← ReceiveDatagram (s_ctxDone s) (s_conn s); Some (res, set_conn c s).

Definition conn_AcceptUniStream s : option ((ReceiveStream + goerror) * Session C) :=
  '(res, c) ← AcceptUniStream (s_ctxDone s) (s_conn s); Some (res, set_conn c s).

(** The loop of [receiveDatagrams], until it returns an error; no error while it
    waits for another datagram, or after [fuel] of them. *)
Fixpoint receiveDatagrams (fuel : nat) s : outcome (option goerror * Session C) :=
  match fuel with
  | 0 => Ret (None, s)
  | S fuel =>
      match conn_ReceiveDatagram s with
      | None => Ret (None, s)
      | Some (inr err, s) => Ret (Some err, s)
      | Some (inl dgram, s) => s ← HandleDatagram dgram s; receiveDatagrams fuel s
      end
  end.

(** The loop of [receiveUniStreams], with the streams it spawns a [handleUniStream]
    goroutine for. *)
Fixpoint receiveUniStreams (fuel : nat) s : option goerror * list ReceiveStream * Session C :=
  match fuel with
  | 0 => (None, [], s)
  | S fuel =>
      match conn_AcceptUniStream s with
      | None => (None, [], s)
      | Some (inr err, s) => (Some err, [], s)
      | Some (inl rs, s) =>
          let '(err, spawned, s) := receiveUniStreams fuel s in (err, rs :: spawned, s)
      end
  end.

(** ** Operations of the application on the flows of a session *)

Definition app_WriteDatagram (r : nat) (packet : list byte) s : outcome (option goerror * Session C) :=
  f ← deref (s_sfs s) r;
  let '(err, c, es) := SendFlow_WriteRTPBytes packet f (s_conn s) in
  Ret (err, emit es (set_send c (s_sendFlows s) (s_sfs s) (s_streams s) s)).

(** The parts of [WriteRTPBytes] and [NewSendStream] of a send flow after their
    check that the flow is open. *)
Definition app_WriteDatagram_send (r : nat) (packet : list byte) s : outcome (option goerror * Session C) :=
  f ← deref (s_sfs s) r;
  let '(err, c, es) := WriteRTPBytes_send packet f (s_conn s) in
  Ret (err, emit es (set_send c (s_sendFlows s) (s_sfs s) (s_streams s) s)).

Definition app_NewSendStream_open (r : nat) (priority : Z) (incremental : bool) s
    : outcome ((RTPSendStream + goerror) * Session C) :=
  f ← deref (s_sfs s) r;
  let '(res, c, es) := NewSendStream_open priority incremental f (s_conn s) in
  Ret (res, emit es (set_send c (s_sendFlows s) (s_sfs s) (s_streams s) s)).

Definition app_NewSendStream_append (r : nat) (stream : RTPSendStream) s : outcome (nat * Session C) :=
  f ← deref (s_sfs s) r;
  let '(i, f, ss) := NewSendStream_append stream f (s_streams s) in
  Ret (i, set_send (s_conn s) (s_sendFlows s) (<[r := f]> (s_sfs s)) ss s).

Definition app_NewSendStream (r : nat) (priority : Z) (incremental : bool) s
    : outcome ((nat + goerror) * Session C) :=
  f ← deref (s_sfs s) r;
  let '(res, f, ss, c, es) := NewSendStream priority incremental f (s_streams s) (s_conn s) in
  Ret (res, emit es (set_send c (s_sendFlows s) (<[r := f]> (s_sfs s)) ss s)).

Definition app_WriteStream (r : nat) (packet : list byte) s
    : outcome ((Z * option goerror) * Session C) :=
  st ← deref (s_streams s) r;
  '(res, st, c, es) ← RTPSendStream.WriteRTPBytes packet st (s_conn s);
  Ret (res, emit es (set_send c (s_sendFlows s) (s_sfs s) (<[r := st]> (s_streams s)) s)).

Definition app_CloseStream (r : nat) s : outcome (option goerror * Session C) :=
  st ← deref (s_streams s) r;
  let '(err, c) := RTPSendStream.Close st (s_conn s) in
  Ret (err, set_send c (s_sendFlows s) (s_sfs s) (s_streams s) s).

Definition app_Read (r : nat) (prefer : select_case) (buf : list byte) s
    : outcome (option (read_result * Session C)) :=
  f ← deref (s_rfs s) r;
  Ret ('(res, f) ← ReceiveFlow.Read 1 prefer buf f; Some (res, set_rf r f s)).

Definition app_SetReadDeadline (r : nat) (t : option Z) (now : Z) s : outcome (Session C) :=
  f ← deref (s_rfs s) r;
  f ← ReceiveFlow_SetReadDeadline t now f;
  Ret (set_rf r f s).
End operations.
