(* ===== verification/SessionSpec.v ===== *)
(** * The invariant of a session, and what its operations do to it

    [tables_inv] is about the tables of the session and the objects they refer to;
    it holds at every moment, also halfway through a shutdown. [status_inv] ties
    the state of the connection and of the registered flows to the recorded
    session error; it holds between operations. *)

From S2P Require Import Prelude GoErrors IO Varint QlogEvent Qlogger Options SyncMap Connection.
From S2P Require Import RTPSendStream SendFlow PacketBuffer Deadline ReceiveFlow ReadStream.
From S2P Require Import ReceiveFlowBuffer Session.

Section invariant.
Context `{!QuicVarint} {C : Type} `{ConnectionLaws C}.

Record tables_inv (s : Session C) : Prop := {
  ti_size : (0 ≤ s_receiveBufferSize s)%Z;
  ti_sfs : Forall (sf_inv (s_streams s)) (s_sfs s);
  ti_rfs : Forall (rf_inv []) (s_rfs s);
  ti_unknown : fb_inv (s_rfs s) (s_receiveFlowBuffer s);
  ti_send k r : smap.get k (s_sendFlows s) = Some r →
    ∃ f, s_sfs s !! r = Some f ∧ sf_id f = k ∧ sf_closedErr f = None;
  ti_receive k r : smap.get k (s_receiveFlows s) = Some r →
    ∃ f, s_rfs s !! r = Some f ∧ rf_id f = k;
  ti_disjoint k : is_Some (smap.get k (s_receiveFlows s)) →
    fb_buffer (s_receiveFlowBuffer s) !! k = None
}.

Definition status_inv (s : Session C) : Prop :=
  match s_closedErr s with
  | None => s_ctxDone s = false ∧ conn_closes (calls (s_conn s)) = []
  | Some e => s_ctxDone s = true ∧ conn_closes (calls (s_conn s)) = [(code e, reason e)] ∧
      (∀ k, smap.get k (s_sendFlows s) = None) ∧
      (∀ k r f, smap.get k (s_receiveFlows s) = Some r → s_rfs s !! r = Some f → rf_closed f = true)
  end.

Definition sess_inv (s : Session C) : Prop := tables_inv s ∧ status_inv s.

Lemma ti_sf s r f : tables_inv s → s_sfs s !! r = Some f → sf_inv (s_streams s) f.
Proof. intros Ht. apply Forall_lookup_1, Ht. Qed.

Lemma ti_rf s r f : tables_inv s → s_rfs s !! r = Some f → rf_inv [] f.
Proof. intros Ht. apply Forall_lookup_1, Ht. Qed.

(** Without the ID of a flow the table has no reference to it. *)
Lemma ti_send_delete s r f k r0 : tables_inv s → s_sfs s !! r = Some f →
  smap.get k (smap.delete (sf_id f) (s_sendFlows s)) = Some r0 →
  smap.get k (s_sendFlows s) = Some r0 ∧ r0 ≠ r.
Proof.
  intros Ht Hr. rewrite smap.get_delete. case_decide as Hk; [done|]. intros Hg. split; [done|].
  intros ->. destruct (ti_send s Ht k r Hg) as (f' & Hr' & <- & _). congruence.
Qed.
End invariant.

Section closing.
Context `{QuicVarintLaws, !GoPool, !GoMapOrder} {C : Type} `{ConnectionLaws C}.
Implicit Types (s : Session C) (c : C).

Lemma conn_closes_app ks1 ks2 : conn_closes (ks1 ++ ks2) = conn_closes ks1 ++ conn_closes ks2.
Proof. apply omap_app. Qed.

Lemma conn_closes_CClose hs : conn_closes (CClose <$> hs) = [].
Proof. by induction hs. Qed.

(** *** Send flows *)

(** [fs'] is [fs] with some flows closed. *)
Definition sfs_closed (fs fs' : list SendFlow) : Prop :=
  Forall2 (λ f f', f' = f ∨ f' = set_sf_closedErr (Some errClosed) f) fs fs'.

Lemma sfs_closed_refl fs : sfs_closed fs fs.
Proof. apply Forall_Forall2_diag, Forall_true. auto. Qed.

Lemma sfs_closed_trans fs1 fs2 fs3 : sfs_closed fs1 fs2 → sfs_closed fs2 fs3 → sfs_closed fs1 fs3.
Proof.
  unfold sfs_closed. intros H12. revert fs3. induction H12 as [|f1 f2 fs1 fs2 H12 _ IH];
    intros fs3 H23; inversion H23 as [|? f3 ? ? Hf]; subst; constructor; auto.
  destruct H12, Hf; subst; auto.
Qed.

Lemma sfs_closed_one fs r f : fs !! r = Some f →
  sfs_closed fs (<[r := set_sf_closedErr (Some errClosed) f]> fs).
Proof.
  intros Hr. apply Forall2_same_length_lookup_2; [by rewrite length_insert|].
  intros i f1 f2 Hi Hi'. destruct (decide (i = r)) as [->|].
  - rewrite list_lookup_insert_eq in Hi' by (by eapply lookup_lt_Some). right. congruence.
  - rewrite list_lookup_insert_ne in Hi' by done. left. congruence.
Qed.

Lemma sfs_closed_lookup fs fs' r f : sfs_closed fs fs' → fs !! r = Some f →
  ∃ f', fs' !! r = Some f' ∧ (f' = f ∨ f' = set_sf_closedErr (Some errClosed) f).
Proof. intros Hc Hr. by eapply Forall2_lookup_l in Hc. Qed.

Lemma closeSendFlow_spec r f s : tables_inv s → s_sfs s !! r = Some f →
  ∃ errs c', closeSendFlow r s = Ret (errors_Join errs,
      set_send c' (smap.delete (sf_id f) (s_sendFlows s))
        (<[r := set_sf_closedErr (Some errClosed) f]> (s_sfs s)) (s_streams s) s) ∧
    close_each (sf_handles f (s_streams s)) (s_conn s) errs c'.
Proof.
  intros Hinv Hr. unfold closeSendFlow, deref. rewrite Hr. simpl.
  destruct (SendFlow_Close_spec (smap.delete (sf_id f)) f (s_streams s) (s_conn s) (s_sendFlows s)
    (ti_sf _ _ _ Hinv Hr)) as (errs & c' & -> & He). simpl. eauto.
Qed.

Lemma tables_inv_sfs_closed s c m fs :
  tables_inv s → sfs_closed (s_sfs s) fs →
  (∀ k r, smap.get k m = Some r → smap.get k (s_sendFlows s) = Some r ∧ fs !! r = s_sfs s !! r) →
  tables_inv (set_send c m fs (s_streams s) s).
Proof.
  intros [Hsz Hsf Hrf Hfb Hsend Hrecv Hdis] Hcl Hm. split; simpl; auto.
  - apply Forall_lookup. intros r f Hr. eapply Forall2_lookup_r in Hcl as (f0 & Hr0 & Hf); [|done].
    eapply Forall_lookup_1 in Hsf; [|exact Hr0]. by destruct Hf as [->| ->].
  - intros k r [Hk Hr]%Hm. rewrite Hr. auto.
Qed.

(** Closing the flows of the table in any order. *)
Lemma closeSendFlows_spec l s :
  tables_inv s → NoDup l.*1 → (∀ k r, (k, r) ∈ l → smap.get k (s_sendFlows s) = Some r) →
  ∃ c' m' fs', foldl (λ m '(_, r), s ← m; '(_, s) ← closeSendFlow r s; Ret s) (Ret s) l =
      Ret (set_send c' m' fs' (s_streams s) s) ∧
    tables_inv (set_send c' m' fs' (s_streams s) s) ∧ sfs_closed (s_sfs s) fs' ∧
    (∀ k, smap.get k m' = if decide (k ∈ l.*1) then None else smap.get k (s_sendFlows s)) ∧
    conn_closes (calls c') = conn_closes (calls (s_conn s)) ∧
    calls (s_conn s) `prefix_of` calls c' ∧
    (∀ k r f, (k, r) ∈ l → s_sfs s !! r = Some f →
       fs' !! r = Some (set_sf_closedErr (Some errClosed) f) ∧
       ∀ h, h ∈ sf_handles f (s_streams s) → h ∈ stream_closes (calls c')).
Proof.
  revert s. induction l as [|[k r] l IH]; intros s Hinv Hnd Hl; simpl.
  { exists (s_conn s), (s_sendFlows s), (s_sfs s). split_and!; try done.
    - by destruct s.
    - by destruct s.
    - apply sfs_closed_refl.
    - intros k r f Hin. by apply not_elem_of_nil in Hin. }
  apply NoDup_cons in Hnd as [Hk Hnd].
  destruct (ti_send s Hinv k r) as (f & Hr & Hid & Hopen); [apply Hl; set_solver|].
  destruct (closeSendFlow_spec r f s Hinv Hr) as (errs & c1 & -> & Heach). simpl.
  destruct (close_each_calls _ _ _ _ Heach) as [Hcalls _]. rewrite Hid.
  set (m1 := smap.delete k (s_sendFlows s)).
  set (fs1 := <[r := set_sf_closedErr (Some errClosed) f]> (s_sfs s)).
  assert (∀ k' r', smap.get k' m1 = Some r' → smap.get k' (s_sendFlows s) = Some r' ∧ r' ≠ r) as Hm1.
  { intros k' r'. unfold m1. rewrite <- Hid. by apply ti_send_delete. }
  assert (tables_inv (set_send c1 m1 fs1 (s_streams s) s)) as Hinv1.
  { apply tables_inv_sfs_closed; [done|by apply sfs_closed_one|].
    intros k' r' [? ?]%Hm1. split; [done|]. unfold fs1. by rewrite list_lookup_insert_ne. }
  destruct (IH _ Hinv1 Hnd) as (c' & m' & fs' & -> & Hinv' & Hcl & Hm' & Hcc & Hpre & Hdone).
  { intros k' r' Hin. simpl. unfold m1. rewrite smap.get_delete, decide_False; [apply Hl; set_solver|].
    intros ->. apply Hk. apply list_elem_of_fmap. by exists (k', r'). }
  simpl in *. exists c', m', fs'. split; [done|]. split; [done|].
  assert (sfs_closed (s_sfs s) fs') as Hcl'.
  { eapply sfs_closed_trans; [|done]. by apply sfs_closed_one. }
  split_and!; try done.
  - intros k'. rewrite Hm'. unfold m1. rewrite smap.get_delete.
    repeat case_decide; try done; set_solver.
  - rewrite Hcc, Hcalls, conn_closes_app, conn_closes_CClose. by rewrite app_nil_r.
  - etrans; [|done]. rewrite Hcalls. by apply prefix_app_r.
  - intros k0 r0 f0 Hin Hr0. rewrite elem_of_cons in Hin. destruct Hin as [[= -> ->]|Hin].
    + assert (fs1 !! r = Some (set_sf_closedErr (Some errClosed) f)) as Hf1
        by (apply list_lookup_insert_eq; by eapply lookup_lt_Some).
      rewrite Hr in Hr0. injection Hr0 as <-. split.
      * destruct (sfs_closed_lookup _ _ _ _ Hcl Hf1) as (f' & -> & [->| ->]); done.
      * intros h Hh. destruct Hpre as [ks ->]. rewrite Hcalls. unfold stream_closes.
        rewrite !omap_app. apply elem_of_app. left. apply elem_of_app. right.
        apply list_elem_of_omap. exists (CClose h). split; [|done]. by apply list_elem_of_fmap_2.
    + apply (Hdone k0 r0 f0 Hin). unfold fs1. rewrite list_lookup_insert_ne; [done|].
      intros ->. apply Hk. destruct (Hm1 k0 r0) as [_ Hne]; [|done].
      unfold m1. rewrite smap.get_delete, decide_False; [apply Hl; set_solver|].
      intros ->. apply Hk. apply list_elem_of_fmap. by exists (k0, r0).
Qed.

(** *** Receive flows *)

(** [fs'] is [fs] with the flows [rs] closed: no packet is lost. *)
Definition closed_flow (f f' : ReceiveFlow) : Prop :=
  rf_inv [] f' ∧ rf_id f' = rf_id f ∧ rf_packets f' = rf_packets f ∧ rf_closed f' = true ∧
  rf_streams f' = rf_streams f.

Lemma Close_id f r f' es : ReceiveFlow.Close f = Ret (r, f', es) → rf_id f' = rf_id f.
Proof.
  unfold ReceiveFlow.Close, closeBuffer. simpl. destruct (rf_closed f); simpl; [by intros [= <- <- <-]|].
  destruct (chan_close _); [|done]. simpl. by intros [= <- <- <-].
Qed.

Lemma closeReceiveFlow_spec r f s : tables_inv s → s_rfs s !! r = Some f →
  ∃ f' es, closeReceiveFlow r s = Ret (None, emit es (set_rf r f' s)) ∧ closed_flow f f' ∧
    (∀ k, is_Some (rf_streams f !! k) → (k, ErrRoQNoError) ∈ cancelled es).
Proof.
  intros Hinv Hr. unfold closeReceiveFlow, deref. rewrite Hr. simpl.
  destruct (Close_spec [] f (ti_rf _ _ _ Hinv Hr)) as (f' & es & Hc & ? & ? & _ & ? & ? & ? & _).
  rewrite Hc. simpl. apply Close_id in Hc. exists f', es. split_and!; try done.
Qed.

(** Replacing a flow by another one with its ID. *)
Lemma tables_inv_set_rf s r f f' es : tables_inv s → s_rfs s !! r = Some f → rf_inv [] f' →
  rf_id f' = rf_id f → tables_inv (emit es (set_rf r f' s)).
Proof.
  intros [Hsz Hsf Hrf Hfb Hsend Hrecv Hdis] Hr Hf' Hid.
  assert (∀ r0 f0, s_rfs s !! r0 = Some f0 →
    ∃ f1, <[r := f']> (s_rfs s) !! r0 = Some f1 ∧ rf_id f1 = rf_id f0) as Hsub.
  { intros r0 f0 Hr0. destruct (decide (r0 = r)) as [->|].
    - exists f'. rewrite list_lookup_insert_eq by (by eapply lookup_lt_Some). split; [done|congruence].
    - exists f0. by rewrite list_lookup_insert_ne. }
  split; simpl; auto.
  - by apply Forall_insert.
  - by eapply fb_inv_flows.
  - intros k r0 (f0 & (f1 & ? & ?)%Hsub & ?)%Hrecv. exists f1. split; [done|congruence].
Qed.

Lemma closeReceiveFlows_spec l s :
  tables_inv s → NoDup l.*1 → (∀ k r, (k, r) ∈ l → smap.get k (s_receiveFlows s) = Some r) →
  ∃ fs' es, foldl (λ m '(_, r), s ← m; '(_, s) ← closeReceiveFlow r s; Ret s) (Ret s) l =
      Ret (emit es (set_receive (s_receiveFlows s) (s_receiveFlowBuffer s) fs' s)) ∧
    tables_inv (emit es (set_receive (s_receiveFlows s) (s_receiveFlowBuffer s) fs' s)) ∧
    (∀ r, r ∉ l.*2 → fs' !! r = s_rfs s !! r) ∧
    (∀ k r f, (k, r) ∈ l → s_rfs s !! r = Some f →
       (∃ f', fs' !! r = Some f' ∧ closed_flow f f') ∧
       ∀ i, is_Some (rf_streams f !! i) → (i, ErrRoQNoError) ∈ cancelled es).
Proof.
  revert s. induction l as [|[k r] l IH]; intros s Hinv Hnd Hl; simpl.
  { exists (s_rfs s), []. assert (emit [] (set_receive (s_receiveFlows s) (s_receiveFlowBuffer s)
      (s_rfs s) s) = s) as -> by (destruct s; unfold emit; simpl; by rewrite app_nil_r).
    split_and!; try done. intros k r f Hin. by apply not_elem_of_nil in Hin. }
  apply NoDup_cons in Hnd as [Hk Hnd].
  destruct (ti_receive s Hinv k r) as (f & Hr & Hid); [apply Hl; set_solver|].
  destruct (closeReceiveFlow_spec r f s Hinv Hr) as (f1 & es1 & -> & Hcl1 & Hes1). simpl.
  assert (tables_inv (emit es1 (set_rf r f1 s))) as Hinv1
    by (destruct Hcl1 as (? & ? & _); by eapply tables_inv_set_rf).
  destruct (IH _ Hinv1 Hnd) as (fs' & es & -> & Hinv' & Hsame & Hdone).
  { intros k' r' Hin. apply Hl. set_solver. }
  assert (r ∉ l.*2) as Hrl.
  { intros ([k' ?] & -> & Hin)%list_elem_of_fmap. simpl in *. apply Hk.
    destruct (ti_receive s Hinv k' n) as (f' & Hr' & Hid'); [apply Hl; set_solver|].
    assert (k = k') as -> by congruence. apply list_elem_of_fmap. by exists (k', n). }
  exists fs', (es1 ++ es). unfold emit in *; simpl in *. rewrite <- app_assoc in *. split_and!; try done.
  - intros r' Hr'. rewrite Hsame by set_solver. rewrite list_lookup_insert_ne by set_solver. done.
  - intros k0 r0 f0 Hin Hr0. setoid_rewrite cancelled_app. rewrite elem_of_cons in Hin.
    destruct Hin as [[= -> ->]|Hin].
    + rewrite Hr in Hr0. injection Hr0 as <-. split.
      * exists f1. rewrite Hsame by done. rewrite list_lookup_insert_eq by (by eapply lookup_lt_Some). done.
      * intros i Hi. apply elem_of_app. auto.
    + destruct (Hdone k0 r0 f0 Hin) as [? Hc].
      { rewrite list_lookup_insert_ne; [done|]. intros ->. apply Hrl, list_elem_of_fmap. by exists (k0, r0). }
      split; [done|]. intros i Hi. apply elem_of_app. auto.
Qed.

(** *** The whole shutdown *)

Definition shut_down (code : Z) (reason : string) s s' : Prop :=
  s_closedErr s' = Some (mkSessionError code reason) ∧ s_ctxDone s' = true ∧
  calls (s_conn s) `prefix_of` calls (s_conn s') ∧
  conn_closes (calls (s_conn s')) = conn_closes (calls (s_conn s)) ++ [(code, reason)] ∧
  (∀ k, smap.get k (s_sendFlows s') = None) ∧
  (∀ k r f, smap.get k (s_sendFlows s) = Some r → s_sfs s !! r = Some f →
     s_sfs s' !! r = Some (set_sf_closedErr (Some errClosed) f) ∧
     ∀ h, h ∈ sf_handles f (s_streams s) → h ∈ stream_closes (calls (s_conn s'))) ∧
  s_receiveFlows s' = s_receiveFlows s ∧ s_receiveFlowBuffer s' = s_receiveFlowBuffer s ∧
  s_streams s' = s_streams s ∧
  ∃ es, s_effects s' = s_effects s ++ es ∧
    (∀ k r f, smap.get k (s_receiveFlows s) = Some r → s_rfs s !! r = Some f →
       (∃ f', s_rfs s' !! r = Some f' ∧ closed_flow f f') ∧
       ∀ i, is_Some (rf_streams f !! i) → (i, ErrRoQNoError) ∈ cancelled es) ∧
    (∀ r, (∀ k, smap.get k (s_receiveFlows s) ≠ Some r) → s_rfs s' !! r = s_rfs s !! r).

Lemma Session_close_closed code reason s e :
  s_closedErr s = Some e → Session_close code reason s = Ret s.
Proof. intros He. unfold Session_close. by rewrite He. Qed.

Lemma tables_inv_set_closed c err cerr ctx s : tables_inv s → tables_inv (set_closed c err cerr ctx s).
Proof. intros [? ? ? ? ? ? ?]. by split. Qed.

Lemma Session_close_open code reason s : tables_inv s → s_closedErr s = None →
  ∃ s', Session_close code reason s = Ret s' ∧ tables_inv s' ∧ shut_down code reason s s'.
Proof.
  intros Hinv Hopen. unfold Session_close. rewrite Hopen. unfold smap.rangeFn.
  apply (tables_inv_set_closed (s_conn s) (Some (mkSessionError code reason)) (s_connCloseErr s)
    (s_ctxDone s)) in Hinv as Hinv0. set (s0 := set_closed _ _ _ _ s) in *.
  destruct (closeSendFlows_spec (go_range (elements (s_sendFlows s0))) s0 Hinv0 (NoDup_go_range _))
    as (c1 & m1 & fs1 & -> & Hinv1 & _ & Hm1 & Hcc1 & Hpre1 & Hdone1).
  { intros k r Hin. by apply elem_of_go_range in Hin. }
  bind_simpl. set (s1 := set_send c1 m1 fs1 _ s0) in *.
  destruct (closeReceiveFlows_spec (go_range (elements (s_receiveFlows s1))) s1 Hinv1 (NoDup_go_range _))
    as (fs2 & es2 & -> & Hinv2 & Hsame2 & Hdone2).
  { intros k r Hin. by apply elem_of_go_range in Hin. }
  bind_simpl. set (s2 := emit es2 _) in *.
  destruct (CloseWithError code reason (s_conn s2)) as [cerr c'] eqn:Hclose.
  apply calls_CloseWithError in Hclose. simpl in Hclose.
  eexists; split; [done|]. split; [by apply tables_inv_set_closed|].
  split_and!; simpl in *; try done.
  - rewrite Hclose. by apply prefix_app_r.
  - rewrite Hclose, conn_closes_app, Hcc1. done.
  - intros k. rewrite Hm1. case_decide as Hk; [done|].
    destruct (smap.get k (s_sendFlows s)) as [r|] eqn:Hg; [|done]. exfalso. apply Hk.
    apply list_elem_of_fmap. exists (k, r). split; [done|]. by apply elem_of_go_range.
  - intros k r f Hg Hr. destruct (Hdone1 k r f) as [? Hh]; [by apply elem_of_go_range|done|].
    split; [done|]. intros h Hin. rewrite Hclose. unfold stream_closes. rewrite omap_app.
    apply elem_of_app. left. by apply Hh.
  - exists es2. split_and!; [done| |].
    + intros k r f Hg Hr. apply (Hdone2 k r f); [by apply elem_of_go_range|done].
    + intros r Hr. apply Hsame2. intros ([k r'] & -> & Hin)%list_elem_of_fmap.
      apply elem_of_go_range in Hin. by apply (Hr k).
Qed.

Lemma Session_close_inv code reason s : sess_inv s →
  ∃ s', Session_close code reason s = Ret s' ∧ sess_inv s' ∧
    (s_closedErr s = None → shut_down code reason s s') ∧ (s_closedErr s ≠ None → s' = s).
Proof.
  intros [Hinv Hst]. destruct (s_closedErr s) as [e|] eqn:He.
  { exists s. rewrite (Session_close_closed _ _ _ e) by done. by split_and!. }
  destruct (Session_close_open code reason s Hinv He) as (s' & Hrun & Hinv' & Hsd).
  exists s'. split_and!; try done. split; [done|].
  destruct Hsd as (Hcl & Hctx & _ & Hcc & Hsend & _ & Hrf & _ & _ & es & _ & Hclosed & _).
  unfold status_inv in *. rewrite He in Hst. rewrite Hcl. destruct Hst as [_ Hst].
  rewrite Hcc, Hst. split_and!; try done. rewrite Hrf. intros k r f' Hg Hr'.
  destruct (ti_receive s Hinv k r Hg) as (f & Hr & _).
  destruct (Hclosed k r f Hg Hr) as [(f'' & Hr'' & (_ & _ & _ & ? & _)) _]. congruence.
Qed.
End closing.

(** ** The other operations *)

(** The flow packets for [id] go to: the registered one, or the buffered one. *)
Definition flow_ref {C} (id : Z) (s : Session C) : option nat :=
  match smap.get id (s_receiveFlows s) with
  | Some r => Some r
  | None => fb_buffer (s_receiveFlowBuffer s) !! id
  end.

Definition flow_for {C} (id : Z) (s : Session C) : option ReceiveFlow :=
  flow_ref id s ≫= λ r, s_rfs s !! r.

(** The packets that are queued for [id]. *)
Definition packets_for {C} (id : Z) (s : Session C) : list (list byte) :=
  default [] (rf_packets <$> flow_for id s).

Section operations.
Context `{QuicVarintLaws, !GoPool, !GoMapOrder} {C : Type} `{ConnectionLaws C}.
Implicit Types (s : Session C) (c : C).

Lemma emit_nil s : emit [] s = s.
Proof. destruct s. unfold emit. simpl. by rewrite app_nil_r. Qed.

Lemma tables_inv_emit es s : tables_inv s → tables_inv (emit es s).
Proof. intros [? ? ? ? ? ? ?]. by split. Qed.

Lemma sess_inv_emit es s : sess_inv s → sess_inv (emit es s).
Proof. intros [? ?]. split; [by apply tables_inv_emit|done]. Qed.

Lemma sess_inv_set_rf s r f f' es : sess_inv s → s_rfs s !! r = Some f → rf_inv [] f' →
  rf_id f' = rf_id f → (rf_closed f = true → rf_closed f' = true) →
  sess_inv (emit es (set_rf r f' s)).
Proof.
  intros [Hinv Hst] Hr Hf' Hid Hcl. split; [by eapply tables_inv_set_rf|].
  unfold status_inv in *. simpl. destruct (s_closedErr s); [|done].
  destruct Hst as (? & ? & ? & Hrecv). split_and!; try done.
  intros k r0 f0 Hg. rewrite list_lookup_insert_Some. intros [(<- & <- & _)|[_ ?]]; eauto.
Qed.

(** Streams may be appended, or changed without touching their IDs. *)
Definition streams_grow (ss ss' : list RTPSendStream) : Prop :=
  ∀ r st, ss !! r = Some st → ∃ st', ss' !! r = Some st' ∧ same_stream st st'.

Lemma sf_inv_streams ss ss' f : streams_grow ss ss' → sf_inv ss f → sf_inv ss' f.
Proof.
  intros Hg (? & ? & Hs). split_and!; [done..|]. eapply Forall_impl; [done|]. simpl.
  intros r (st & (st' & ? & _ & ? & ? & _)%Hg & ? & ?). exists st'. split_and!; congruence.
Qed.

(** The send side changes, and the connection is not closed. *)
Lemma tables_inv_set_send s c m fs ss es :
  tables_inv s → Forall (sf_inv ss) fs →
  (∀ k r, smap.get k m = Some r → ∃ f, fs !! r = Some f ∧ sf_id f = k ∧ sf_closedErr f = None) →
  tables_inv (emit es (set_send c m fs ss s)).
Proof. intros [? ? ? ? ? ? ?] Hfs Hm. by split. Qed.

Lemma sess_inv_set_send s c m fs ss es :
  sess_inv s → Forall (sf_inv ss) fs → conn_closes (calls c) = conn_closes (calls (s_conn s)) →
  (s_closedErr s = None ∨ ∀ k r, smap.get k m = Some r → smap.get k (s_sendFlows s) = Some r) →
  (∀ k r, smap.get k m = Some r → ∃ f, fs !! r = Some f ∧ sf_id f = k ∧ sf_closedErr f = None) →
  sess_inv (emit es (set_send c m fs ss s)).
Proof.
  intros [Ht Hst] Hfs Hcc Hm Hopen. split; [by apply tables_inv_set_send|].
  unfold status_inv in *. simpl. rewrite Hcc. destruct (s_closedErr s); [|done].
  destruct Hm as [?|Hm]; [done|]. destruct Hst as (? & ? & Hnone & ?). split_and!; try done.
  intros k. destruct (smap.get k m) as [r|] eqn:Hk; [|done]. apply Hm in Hk. by rewrite Hnone in Hk.
Qed.

Lemma newSession_inv c tr acc config : config_ok config → conn_closes (calls c) = [] →
  sess_inv (newSession c tr acc config).
Proof.
  intros (Hs & Hu & _) Hc. split; [split; simpl|by split]; try lia; try (by constructor).
  - by apply newReceiveFlowBuffer_inv.
  - intros k r. unfold smap.get. simpl. by rewrite lookup_empty.
  - intros k r. unfold smap.get. simpl. by rewrite lookup_empty.
Qed.

(** *** Creating flows *)

Lemma NewSendFlow_insert_spec id s : tables_inv s → varint_ok id →
  ∃ f m res s', NewSendFlow_insert id s = Ret (res, s') ∧ tables_inv s' ∧
    s' = set_send (s_conn s) m (s_sfs s ++ [f]) (s_streams s) s ∧
    sf_id f = id ∧ sf_closedErr f = None ∧ sf_streams f = [] ∧
    match smap.get id (s_sendFlows s) with
    | Some _ => res = inr errDuplicateFlowID ∧ m = s_sendFlows s
    | None => res = inl (length (s_sfs s)) ∧ m = smap.set id (length (s_sfs s)) (s_sendFlows s)
    end.
Proof.
  intros Hinv Hid. unfold NewSendFlow_insert.
  destruct (newFlow_spec id (s_qlog s) (Some (s_logger s)) Hid) as (f & -> & Hfid & Hfs & Hfo & _ & Hfi).
  simpl. unfold smap.getOrInsert. unfold smap.get at 1. pose proof Hinv as [? Hsf ? ? Hsend ? ?].
  assert (Forall (sf_inv (s_streams s)) (s_sfs s ++ [f])) as Hall.
  { apply Forall_app. split; [done|]. apply Forall_singleton. eapply sf_inv_streams; [|done].
    intros r st. by rewrite lookup_nil. }
  assert (∀ k r f0, smap.get k (s_sendFlows s) = Some r → s_sfs s !! r = Some f0 →
    (s_sfs s ++ [f]) !! r = Some f0) as Hold by (intros; by apply lookup_app_l_Some).
  destruct (elements (s_sendFlows s) !! id) as [r0|] eqn:Hg; simpl.
  - eexists f, _, _, _. split; [done|]. split; [|done].
    rewrite <- emit_nil. apply tables_inv_set_send; try done.
    intros k r Hk. destruct (Hsend k r Hk) as (f0 & ? & ?). exists f0. eauto.
  - eexists f, _, _, _. split; [done|]. split; [|done].
    rewrite <- emit_nil. apply tables_inv_set_send; try done.
    change (mkSyncMap _) with (smap.set id (length (s_sfs s)) (s_sendFlows s)).
    intros k r. rewrite smap.get_set. case_decide as Hk; [intros [= <-]; subst k|].
    + exists f. by rewrite lookup_app_r, Nat.sub_diag.
    + intros Hkr. destruct (Hsend k r Hkr) as (f0 & ? & ?). exists f0. eauto.
Qed.

Lemma NewSendFlow_spec id s : sess_inv s → varint_ok id →
  ∃ res s', NewSendFlow id s = Ret (res, s') ∧ sess_inv s' ∧
    match s_closedErr s, smap.get id (s_sendFlows s) with
    | Some e, _ => res = inr (ESession e) ∧ s' = s
    | None, Some _ => res = inr errDuplicateFlowID ∧ s_sendFlows s' = s_sendFlows s
    | None, None => ∃ r f, res = inl r ∧ s_sfs s' = s_sfs s ++ [f] ∧ r = length (s_sfs s) ∧
        sf_id f = id ∧ sf_closedErr f = None ∧ sf_streams f = [] ∧
        s_sendFlows s' = smap.set id r (s_sendFlows s)
    end.
Proof.
  intros [Hinv Hst] Hid. unfold NewSendFlow, Session_isClosed.
  destruct (s_closedErr s) as [e|] eqn:He; simpl; [by eexists _, _|].
  destruct (NewSendFlow_insert_spec id s Hinv Hid) as (f & m & res & s' & -> & Hinv' & -> & ? & ? & ? & Hcase).
  eexists _, _. split; [done|]. split.
  { split; [done|]. unfold status_inv in *. simpl. by rewrite He in *. }
  destruct (smap.get id (s_sendFlows s)); destruct Hcase as [-> ->]; [done|by eexists _, f].
Qed.

(** Flows are created, and the tables of received flows change. *)
Lemma tables_inv_set_receive s m b new es :
  tables_inv s → Forall (rf_inv []) new → fb_inv (s_rfs s ++ new) b →
  (∀ k r, smap.get k m = Some r → ∃ f, (s_rfs s ++ new) !! r = Some f ∧ rf_id f = k) →
  (∀ k, is_Some (smap.get k m) → fb_buffer b !! k = None) →
  tables_inv (emit es (set_receive m b (s_rfs s ++ new) s)).
Proof. intros [? ? ? ? ? ? ?] Hnew Hb Hm Hd. split; simpl; auto. by apply Forall_app. Qed.

(** The registered flows stay, and new ones are created. *)
Lemma status_inv_new_flows s b new es : tables_inv s → status_inv s →
  status_inv (emit es (set_receive (s_receiveFlows s) b (s_rfs s ++ new) s)).
Proof.
  intros Ht Hst. unfold status_inv in *. simpl. destruct (s_closedErr s); [|done].
  destruct Hst as (? & ? & ? & Hclosed). split_and!; try done.
  intros k r f Hg Hr. destruct (ti_receive s Ht k r Hg) as (f0 & Hr0 & _).
  rewrite lookup_app_l in Hr by (by eapply lookup_lt_Some). eauto.
Qed.

Lemma newReceiveFlow_ok id size q l : (0 ≤ size)%Z →
  ∃ f, newReceiveFlow id size q l = Ret f ∧ rf_inv [] f ∧ rf_packets f = [] ∧ rf_id f = id ∧
    rf_closed f = false ∧ rf_ctxDone f = false ∧ rf_streams f = ∅ ∧ rf_qlog f = q ∧
    Z.of_nat (pb_cap (rf_buffer f)) = size ∧ deadlineExpired (rf_deadline f) = false.
Proof.
  intros Hs. assert (∃ f, newReceiveFlow id size q l = Ret f) as [f Hf].
  { unfold newReceiveFlow, newPacketBuffer. rewrite decide_False by lia. by eexists. }
  exists f. split; [done|]. destruct (newReceiveFlow_inv _ _ _ _ _ Hf) as [? ?].
  revert Hf. unfold newReceiveFlow, newPacketBuffer. rewrite decide_False by lia. simpl.
  intros [= <-]. simpl. split_and!; try done. lia.
Qed.

(** A flow that is asked for keeps the packets that came before. *)
Lemma NewReceiveFlow_insert_spec id s : tables_inv s →
  ∃ res s', NewReceiveFlow_insert id s = Ret (res, s') ∧ tables_inv s' ∧
    match smap.get id (s_receiveFlows s) with
    | Some _ => res = inr errDuplicateFlowID ∧ s' = s
    | None => ∃ r b new f, res = inl r ∧
        s' = set_receive (smap.set id r (s_receiveFlows s)) b (s_rfs s ++ new) s ∧
        unknown_flows b = fifo_remove id (unknown_flows (s_receiveFlowBuffer s)) ∧
        (s_rfs s ++ new) !! r = Some f ∧ rf_id f = id ∧
        match flow_for id s with
        | Some f0 => f = f0 ∧ new = []
        | None => new = [f] ∧ newReceiveFlow id (s_receiveBufferSize s) (s_qlog s)
                                (Some (s_logger s)) = Ret f
        end
    end.
Proof.
  intros Hinv. unfold NewReceiveFlow_insert.
  destruct (smap.get id (s_receiveFlows s)) as [r0|] eqn:Hg; [by eexists _, _|].
  pose proof Hinv as [Hsz Hsf Hrf Hfb Hsend Hrecv Hdis].
  destruct (pop_spec id _ _ Hfb) as (b' & -> & Hfb' & Hmax & Hu & Hbuf).
  unfold flow_for, flow_ref. rewrite Hg.
  assert (∃ r new f, match fb_buffer (s_receiveFlowBuffer s) !! id with
      | Some r => Ret (r, s_rfs s)
      | None => f ← newReceiveFlow id (s_receiveBufferSize s) (s_qlog s) (Some (s_logger s));
                Ret (length (s_rfs s), s_rfs s ++ [f])
      end = Ret (r, s_rfs s ++ new) ∧ Forall (rf_inv []) new ∧
      (s_rfs s ++ new) !! r = Some f ∧ rf_id f = id ∧
      match fb_buffer (s_receiveFlowBuffer s) !! id ≫= λ r, s_rfs s !! r with
      | Some f0 => f = f0 ∧ new = []
      | None => new = [f] ∧ newReceiveFlow id (s_receiveBufferSize s) (s_qlog s)
                              (Some (s_logger s)) = Ret f
      end) as (r & new & f & -> & Hnew & Hr & Hid & Hcase).
  { destruct (fb_buffer _ !! id) as [r|] eqn:Hb.
    - destruct (fb_flows _ _ Hfb _ _ Hb) as (f & Hr & Hid). exists r, [], f.
      simpl. rewrite Hr, app_nil_r. done.
    - destruct (newReceiveFlow_ok id (s_receiveBufferSize s) (s_qlog s) (Some (s_logger s)) Hsz)
        as (f & Hf & Hfi & _ & Hid & _). exists (length (s_rfs s)), [f], f. rewrite Hf. simpl.
      rewrite lookup_app_r, Nat.sub_diag by done. split_and!; try done. by apply Forall_singleton. }
  simpl. eexists _, _. split; [done|]. split; [|by exists r, b', new, f].
  rewrite <- emit_nil. apply tables_inv_set_receive; try done.
  - eapply fb_inv_flows; [|exact Hfb']. intros r1 f1 ?. exists f1. split; [|done]. by apply lookup_app_l_Some.
  - intros k r1. rewrite smap.get_set. case_decide as Hk; [intros [= <-]; subst k; eauto|].
    intros (f1 & ? & ?)%Hrecv. exists f1. split; [|done]. by apply lookup_app_l_Some.
  - intros k. rewrite smap.get_set, Hbuf. case_decide as Hk; [subst k; by rewrite lookup_delete_eq|].
    intros ?%Hdis. by rewrite lookup_delete_ne.
Qed.

Lemma NewReceiveFlow_spec id s : sess_inv s →
  ∃ res s', NewReceiveFlow id s = Ret (res, s') ∧ sess_inv s' ∧
    match s_closedErr s, smap.get id (s_receiveFlows s) with
    | Some e, _ => res = inr (ESession e) ∧ s' = s
    | None, Some _ => res = inr errDuplicateFlowID ∧ s' = s
    | None, None => ∃ r new f, res = inl r ∧ s_receiveFlows s' = smap.set id r (s_receiveFlows s) ∧
        unknown_flows (s_receiveFlowBuffer s') = fifo_remove id (unknown_flows (s_receiveFlowBuffer s)) ∧
        s_rfs s' = s_rfs s ++ new ∧ s_rfs s' !! r = Some f ∧ rf_id f = id ∧
        match flow_for id s with
        | Some f0 => f = f0 ∧ new = []
        | None => new = [f] ∧ newReceiveFlow id (s_receiveBufferSize s) (s_qlog s)
                                (Some (s_logger s)) = Ret f
        end
    end.
Proof.
  intros [Hinv Hst]. unfold NewReceiveFlow, Session_isClosed.
  destruct (s_closedErr s) as [e|] eqn:He; simpl; [by eexists _, _|].
  destruct (NewReceiveFlow_insert_spec id s Hinv) as (res & s' & -> & Hinv' & Hcase).
  eexists _, _. split; [done|]. destruct (smap.get id (s_receiveFlows s)).
  { by destruct Hcase as [-> ->]. }
  destruct Hcase as (r & b & new & f & -> & -> & ? & ? & ? & ?). split; [|by exists r, new, f].
  split; [done|]. unfold status_inv in *. simpl. by rewrite He in *.
Qed.

Lemma receiveFlow_tables_spec id s : tables_inv s →
  ∃ r f s', receiveFlow id s = Ret (r, s') ∧ tables_inv s' ∧ flow_ref id s' = Some r ∧
    s_rfs s' !! r = Some f ∧ rf_id f = id ∧
    match flow_ref id s with
    | Some _ => s' = s
    | None => newReceiveFlow id (s_receiveBufferSize s) (s_qlog s) (Some (s_logger s)) = Ret f ∧
        ∃ b es, s' = emit es (set_receive (s_receiveFlows s) b (s_rfs s ++ [f]) s) ∧
        unknown_flows b = fifo_add (maxLen b) (id, r) (unknown_flows (s_receiveFlowBuffer s)) ∧
        maxLen b = maxLen (s_receiveFlowBuffer s) ∧ r = length (s_rfs s)
    end.
Proof.
  intros Hinv. unfold receiveFlow, flow_ref.
  pose proof Hinv as [Hsz Hsf Hrf Hfb Hsend Hrecv Hdis].
  destruct (smap.get id (s_receiveFlows s)) as [r|] eqn:Hg.
  { destruct (Hrecv id r Hg) as (f & Hr & Hid). exists r, f, s. by rewrite Hg. }
  destruct (getOrCreate_spec id (s_receiveBufferSize s) (s_qlog s) (Some (s_logger s)) _ _ Hfb Hsz)
    as (r & b & fs & es & -> & Hfb' & Hmax & Hcase). simpl.
  destruct (fb_buffer (s_receiveFlowBuffer s) !! id) as [r0|] eqn:Hb.
  { destruct Hcase as (-> & -> & -> & ->). destruct (fb_flows _ _ Hfb _ _ Hb) as (f & Hr & Hid).
    exists r0, f, s. assert (emit [] (set_receive (s_receiveFlows s) (s_receiveFlowBuffer s) (s_rfs s) s)
      = s) as -> by (by rewrite emit_nil; destruct s). by rewrite Hg, Hb. }
  destruct Hcase as (f & Hf & -> & -> & Hu & _).
  assert (fb_buffer b !! id = Some (length (s_rfs s))) as Hb'.
  { apply (elem_of_unknown_flows _ _ _ _ Hfb'). rewrite Hu. unfold fifo_add. set_solver. }
  destruct (newReceiveFlow_ok id _ (s_qlog s) (Some (s_logger s)) Hsz) as (? & Hf' & Hfi & _ & Hid & _).
  rewrite Hf in Hf'. injection Hf' as <-. eexists _, f, _. split; [done|].
  split; [|split_and!; simpl; try done; [by rewrite Hg|by rewrite lookup_app_r, Nat.sub_diag|]].
  2:{ exists b, es. by rewrite Hmax. }
  apply tables_inv_set_receive; try done; [by apply Forall_singleton|..].
  - intros k r1 (f1 & ? & ?)%Hrecv. exists f1. split; [|done]. by apply lookup_app_l_Some.
  - intros k Hk. destruct (fb_buffer b !! k) as [r1|] eqn:Hbk; [|done]. exfalso.
    assert ((k, r1) ∈ unknown_flows b) as Hin by (by eapply elem_of_unknown_flows).
    rewrite Hu in Hin. unfold fifo_add in Hin. apply elem_of_app in Hin as [Hin|[= -> ->]%list_elem_of_singleton].
    + assert ((k, r1) ∈ unknown_flows (s_receiveFlowBuffer s)) as Hin'.
      { case_decide; [done|]. destruct (unknown_flows (s_receiveFlowBuffer s)); simpl in Hin; [done|].
        apply elem_of_cons. by right. }
      eapply elem_of_unknown_flows in Hin'; [|done]. rewrite Hdis in Hin' by done. done.
    + rewrite Hg in Hk. by destruct Hk.
Qed.

Lemma receiveFlow_spec id s : sess_inv s →
  ∃ r f s', receiveFlow id s = Ret (r, s') ∧ sess_inv s' ∧ flow_ref id s' = Some r ∧
    s_rfs s' !! r = Some f ∧ rf_id f = id ∧
    match flow_ref id s with
    | Some _ => s' = s
    | None => newReceiveFlow id (s_receiveBufferSize s) (s_qlog s) (Some (s_logger s)) = Ret f ∧
        ∃ b es, s' = emit es (set_receive (s_receiveFlows s) b (s_rfs s ++ [f]) s) ∧
        unknown_flows b = fifo_add (maxLen b) (id, r) (unknown_flows (s_receiveFlowBuffer s)) ∧
        maxLen b = maxLen (s_receiveFlowBuffer s) ∧ r = length (s_rfs s)
    end.
Proof.
  intros [Hinv Hst]. destruct (receiveFlow_tables_spec id s Hinv)
    as (r & f & s' & Hrun & Hinv' & Href & Hr & Hid & Hcase).
  exists r, f, s'. split_and!; try done. split; [done|]. destruct (flow_ref id s); [by subst|].
  destruct Hcase as (_ & b & es & -> & _). by apply status_inv_new_flows.
Qed.

(** *** Receiving *)

Lemma flow_ref_lookup s id r : tables_inv s → flow_ref id s = Some r →
  ∃ f, s_rfs s !! r = Some f ∧ rf_id f = id ∧ rf_inv [] f.
Proof.
  intros [Hsz Hsf Hrf Hfb Hsend Hrecv Hdis]. unfold flow_ref. intros Hr.
  assert (∃ f, s_rfs s !! r = Some f ∧ rf_id f = id) as (f & Hf & Hid).
  { destruct (smap.get id (s_receiveFlows s)) eqn:Hg; [injection Hr as ->; eauto|].
    by eapply fb_flows. }
  exists f. split_and!; try done. by eapply Forall_lookup_1 in Hrf.
Qed.

Lemma flow_ref_inj s id1 id2 r : tables_inv s →
  flow_ref id1 s = Some r → flow_ref id2 s = Some r → id1 = id2.
Proof.
  intros Hinv (f1 & ? & <- & _)%flow_ref_lookup (f2 & ? & <- & _)%flow_ref_lookup; [|done..].
  congruence.
Qed.

(** The flows other packets go to do not change with a flow. *)
Lemma flow_for_set_rf s id id' r f : tables_inv s → flow_ref id s = Some r →
  flow_for id' (set_rf r f s) = if decide (id' = id) then Some f else flow_for id' s.
Proof.
  intros Hinv Hr. unfold flow_for. change (flow_ref id' (set_rf r f s)) with (flow_ref id' s).
  case_decide as Hid; [subst; rewrite Hr; simpl|].
  - apply list_lookup_insert_eq. destruct (flow_ref_lookup s id r Hinv Hr) as (f0 & ? & _).
    by eapply lookup_lt_Some.
  - destruct (flow_ref id' s) as [r'|] eqn:Hr'; [simpl|done].
    apply list_lookup_insert_ne. intros ->. apply Hid. by eapply flow_ref_inj.
Qed.

(** The oldest flow of a full buffer. *)
Definition next_evicted s : option Z :=
  if decide (Z.of_nat (length (unknown_flows (s_receiveFlowBuffer s))) <
               maxLen (s_receiveFlowBuffer s))%Z then None
  else fst <$> head (unknown_flows (s_receiveFlowBuffer s)).

(** Making room for one flow affects no other but the oldest. *)
Lemma fifo_add_others flows flows' b b' id id' r : fb_inv flows b → fb_inv flows' b' → id' ≠ id →
  unknown_flows b' = fifo_add (maxLen b) (id, r) (unknown_flows b) →
  fb_buffer b' !! id' = fb_buffer b !! id' ∨
  (fb_buffer b' !! id' = None ∧ ¬ (Z.of_nat (length (unknown_flows b)) < maxLen b)%Z ∧
   fst <$> head (unknown_flows b) = Some id').
Proof.
  intros Hb Hb' Hne Hu. pose proof (λ r1, elem_of_unknown_flows _ _ id' r1 Hb) as Hold.
  pose proof (λ r1, elem_of_unknown_flows _ _ id' r1 Hb') as Hnew. rewrite Hu in Hnew.
  unfold fifo_add in Hnew. setoid_rewrite elem_of_app in Hnew. setoid_rewrite list_elem_of_singleton in Hnew.
  pose proof (fb_nodup _ _ Hb) as Hnd. rewrite <- (unknown_flows_keys flows b Hb) in Hnd.
  case_decide as Hlt.
  { left. apply option_eq. intros r1. rewrite <- Hold, <- Hnew. naive_solver. }
  destruct (unknown_flows b) as [|[k0 r0] us]; simpl in *.
  { left. apply option_eq. intros r1. rewrite <- Hold, <- Hnew. naive_solver. }
  apply NoDup_cons in Hnd as [Hk0 _]. destruct (decide (id' = k0)) as [->|Hk].
  - right. split_and!; try done. apply eq_None_not_Some.
    intros [r1 [Hin|?]%Hnew]; [|naive_solver]. apply Hk0, list_elem_of_fmap. by exists (k0, r1).
  - left. apply option_eq. intros r1. rewrite <- Hold, <- Hnew, elem_of_cons. naive_solver.
Qed.

Lemma receiveFlow_others id id' s r s1 : sess_inv s → receiveFlow id s = Ret (r, s1) → id' ≠ id →
  flow_for id' s1 = flow_for id' s ∨
  (flow_for id' s1 = None ∧ flow_ref id s = None ∧ next_evicted s = Some id').
Proof.
  intros Hinv Hrun Hne. destruct (receiveFlow_spec id s Hinv) as (r' & f & s' & Hrun' & Hinv' & _ & _ & _ & Hcase).
  rewrite Hrun in Hrun'. injection Hrun' as <- <-. pose proof Hinv as [Ht _]. pose proof Hinv' as [Ht' _].
  destruct (flow_ref id s) as [r0|] eqn:Hr0; [left; by subst|].
  destruct Hcase as (_ & b & es & -> & Hu & Hmax & _). rewrite Hmax in Hu.
  assert (∀ r1, flow_ref id' s = Some r1 → (s_rfs s ++ [f]) !! r1 = s_rfs s !! r1) as Hlook.
  { intros r1 (f1 & Hf1 & _)%flow_ref_lookup; [|done].
    by rewrite lookup_app_l by (by eapply lookup_lt_Some). }
  unfold flow_for, flow_ref, next_evicted in *. simpl in *.
  destruct (smap.get id' (s_receiveFlows s)) as [r1|] eqn:Hg; [left; simpl; by apply Hlook|].
  destruct (fifo_add_others _ _ _ _ _ id' _ (ti_unknown _ Ht) (ti_unknown _ Ht') Hne Hu)
    as [Hsame|(Hnone & Hfull & Hhead)]; simpl in *.
  - left. rewrite Hsame. destruct (fb_buffer _ !! id') as [r1|]; [simpl; by apply Hlook|done].
  - right. rewrite Hnone, decide_False by done. done.
Qed.

(** A datagram with a valid flow ID. *)
Lemma HandleDatagram_spec d s id n : sess_inv s → quicvarint_Parse d = inl (id, n) →
  ∃ k es r f f' s1, quicvarint_Len id = Ret k ∧ k ≤ n ∧ receiveFlow id (emit es s) = Ret (r, s1) ∧
    sess_inv s1 ∧ flow_ref id s1 = Some r ∧ s_rfs s1 !! r = Some f ∧
    HandleDatagram d s = Ret (set_rf r f' s1) ∧ flow_pushed [drop k d] f f' ∧ rf_inv [] f' ∧
    sess_inv (set_rf r f' s1).
Proof.
  intros Hinv Hp. unfold HandleDatagram, HandleDatagram_lookup, HandleDatagram_deliver. rewrite Hp. set (es := record _ _).
  destruct (Len_least _ _ _ Hp) as (k & Hk & Hkn). apply Parse_inv in Hp as (_ & _ & _ & _ & Hn & _).
  destruct (receiveFlow_spec id (emit es s) (sess_inv_emit es s Hinv))
    as (r & f & s1 & Hrf & Hinv1 & Href & Hr & _). rewrite Hrf. bind_simpl.
  unfold deref. rewrite Hr. bind_simpl.
  destruct (pool_Get (rf_buffer f)) as [b pb] eqn:Hget. rewrite Hk. bind_simpl.
  rewrite slice_from_ok, Nat2Z.id by lia. bind_simpl.
  destruct (flow_ref_lookup s1 id r) as (f0 & Hr0 & _ & Hfi); [apply Hinv1|done|].
  rewrite Hr in Hr0. injection Hr0 as <-.
  destruct (push_filled [] f b pb (drop k d) Hfi Hget) as (Hb & _ & _ & _ & f' & Hpush & Hfi' & Hfp).
  rewrite buf_fill, Hpush by done. bind_simpl.
  exists k, es, r, f, f', s1. split_and!; try done.
  rewrite <- emit_nil. destruct Hfp as (_ & _ & Hid & _ & _ & Hcl & _).
  eapply sess_inv_set_rf; try done. by rewrite Hcl.
Qed.

(** A stream with its flow ID read off. *)
Lemma HandleUniStream_spec id rs s : sess_inv s → rd_wf (rs_reader rs) →
  ∃ es r f f' s1 es1, receiveFlow id (emit es s) = Ret (r, s1) ∧ sess_inv s1 ∧
    flow_ref id s1 = Some r ∧ s_rfs s1 !! r = Some f ∧
    HandleUniStreamWithFlowID id rs s = Ret (true, emit es1 (set_rf r f' s1)) ∧
    readStream rs f = Ret (true, f', es1) ∧ rf_inv [] f' ∧ rf_closed f' = rf_closed f ∧
    sess_inv (emit es1 (set_rf r f' s1)).
Proof.
  intros Hinv Hwf. unfold HandleUniStreamWithFlowID, HandleUniStream_lookup, flow_readStream. set (es := record _ _).
  destruct (receiveFlow_spec id (emit es s) (sess_inv_emit es s Hinv))
    as (r & f & s1 & Hrf & Hinv1 & Href & Hr & Hid & _). rewrite Hrf. bind_simpl.
  unfold deref. rewrite Hr. bind_simpl.
  destruct (flow_ref_lookup s1 id r) as (f0 & Hr0 & _ & Hfi); [apply Hinv1|done|].
  rewrite Hr in Hr0. injection Hr0 as <-.
  assert (∃ f' es1, readStream rs f = Ret (true, f', es1) ∧ rf_inv [] f' ∧ rf_closed f' = rf_closed f ∧
    rf_id f' = rf_id f) as (f' & es1 & Hrs & Hfi' & Hcl & Hid').
  { destruct (rf_ctxDone f) eqn:Hd; [rewrite readStream_closed by done; eauto 10|].
    destruct (readStream_open [] rs f Hfi Hd Hwf) as (f' & es' & ? & ? & _ & _ & _ & ? & _ & _ & ?).
    eauto 10. }
  rewrite Hrs. bind_simpl. exists es, r, f, f', s1, es1. split_and!; try done.
  eapply sess_inv_set_rf; try done. by rewrite Hcl.
Qed.
End operations.
