(* ===== verification/SessionMoves.v ===== *)
(** * What a step of a session leaves as it was

    [moves] is what every operation on a session or on one of its flows has in
    common, apart from the shutdown itself: the session error and the result of
    closing the connection stay, the connection is not closed, objects stay what
    they are and closed ones stay closed. The lists are the places of what the step
    registers: send flows, receive flows, and streams appended to a flow that is
    closed already. An operation that needs only [tables_inv] can run in the middle
    of a shutdown; [moves_status] carries it over to [sess_inv]. *)

From S2P Require Import Prelude GoErrors IO Varint QlogEvent Qlogger Options SyncMap Connection.
From S2P Require Import RTPSendStream SendFlow PacketBuffer Deadline ReceiveFlow ReadStream.
From S2P Require Import ReceiveFlowBuffer Session SessionSpec.

Section moves.
Context `{!QuicVarint} {C : Type} `{ConnectionLaws C}.
Implicit Types (s : Session C).

(** The streams of closed send flows are closed, but for those in [late]. *)
Definition closed_streams (late : list nat) s : Prop := ∀ r f i st,
  s_sfs s !! r = Some f → sf_closedErr f ≠ None → i ∈ sf_streams f → s_streams s !! i = Some st →
  i ∈ late ∨ stream st ∈ stream_closes (calls (s_conn s)).

(** A closed receive flow stays closed; one whose context is cancelled stays so and
    gets no new streams. *)
Definition flow_moves (f f' : ReceiveFlow) : Prop :=
  (rf_closed f = true → rf_closed f' = true) ∧
  (rf_ctxDone f = true → rf_ctxDone f' = true ∧ rf_streams f' ⊆ rf_streams f).

Record moves (newS newR newT : list nat) s s' : Prop := {
  mv_closedErr : s_closedErr s' = s_closedErr s;
  mv_connCloseErr : s_connCloseErr s' = s_connCloseErr s;
  mv_ctxDone : s_ctxDone s' = s_ctxDone s;
  mv_qlogClosed : s_qlogClosed s' = s_qlogClosed s;
  mv_calls : ∃ ks, calls (s_conn s') = calls (s_conn s) ++ ks ∧ conn_closes ks = [];
  mv_sfs r f : s_sfs s !! r = Some f → ∃ f', s_sfs s' !! r = Some f' ∧ sf_id f' = sf_id f ∧
    sf_flowID f' = sf_flowID f ∧ (sf_closedErr f ≠ None → sf_closedErr f' ≠ None);
  mv_rfs r f : s_rfs s !! r = Some f → ∃ f', s_rfs s' !! r = Some f' ∧ flow_moves f f';
  mv_effects : s_effects s `prefix_of` s_effects s';
  mv_streams : streams_grow (s_streams s) (s_streams s');
  mv_send k r : smap.get k (s_sendFlows s') = Some r → smap.get k (s_sendFlows s) = Some r ∨ r ∈ newS;
  mv_receive k r : smap.get k (s_receiveFlows s') = Some r →
    smap.get k (s_receiveFlows s) = Some r ∨ r ∈ newR;
  mv_closed late : closed_streams late s → closed_streams (newT ++ late) s'
}.

Definition quiet := moves [] [] [].

Lemma streams_grow_prefix ss ss' : ss `prefix_of` ss' → streams_grow ss ss'.
Proof. intros Hp r st Hr. exists st. split; [by eapply prefix_lookup_Some|done]. Qed.

Lemma streams_grow_refl ss : streams_grow ss ss.
Proof. by apply streams_grow_prefix. Qed.

Lemma streams_grow_trans ss1 ss2 ss3 :
  streams_grow ss1 ss2 → streams_grow ss2 ss3 → streams_grow ss1 ss3.
Proof.
  intros H12 H23 r st (st2 & (st3 & ? & Hs)%H23 & Hs')%H12. exists st3. split; [done|].
  unfold same_stream in *. intuition congruence.
Qed.

Lemma streams_grow_insert ss r st st' : ss !! r = Some st → same_stream st st' →
  streams_grow ss (<[r := st']> ss).
Proof.
  intros Hr Hs r0 st0 Hr0. destruct (decide (r0 = r)) as [->|].
  - exists st'. rewrite list_lookup_insert_eq by (by eapply lookup_lt_Some). split; [done|congruence].
  - exists st0. by rewrite list_lookup_insert_ne.
Qed.

Lemma flow_moves_refl f : flow_moves f f.
Proof. by split. Qed.

Lemma flow_moves_trans f1 f2 f3 : flow_moves f1 f2 → flow_moves f2 f3 → flow_moves f1 f3.
Proof.
  intros [Hc1 Hx1] [Hc2 Hx2]. split; [auto|]. intros [Hd Hs]%Hx1. destruct (Hx2 Hd). split; [done|by etrans].
Qed.

Lemma flow_moves_same f f' : rf_closed f' = rf_closed f → rf_ctxDone f' = rf_ctxDone f →
  rf_streams f' = rf_streams f → flow_moves f f'.
Proof. intros Hc Hx Hs. split; [congruence|]. rewrite Hx, Hs. done. Qed.

Lemma quiet_refl s : quiet s s.
Proof.
  split; try done; eauto using streams_grow_refl.
  - exists []. by rewrite app_nil_r.
  - intros r f Hr. exists f. split; [done|apply flow_moves_refl].
Qed.

Lemma quiet_trans s1 s2 s3 : quiet s1 s2 → quiet s2 s3 → quiet s1 s3.
Proof.
  intros M1 M2. split.
  - by rewrite (mv_closedErr _ _ _ _ _ M2), (mv_closedErr _ _ _ _ _ M1).
  - by rewrite (mv_connCloseErr _ _ _ _ _ M2), (mv_connCloseErr _ _ _ _ _ M1).
  - by rewrite (mv_ctxDone _ _ _ _ _ M2), (mv_ctxDone _ _ _ _ _ M1).
  - by rewrite (mv_qlogClosed _ _ _ _ _ M2), (mv_qlogClosed _ _ _ _ _ M1).
  - destruct (mv_calls _ _ _ _ _ M1) as (ks1 & Hk1 & Hc1), (mv_calls _ _ _ _ _ M2) as (ks2 & Hk2 & Hc2).
    exists (ks1 ++ ks2). by rewrite Hk2, Hk1, app_assoc, conn_closes_app, Hc1, Hc2.
  - intros r f (f2 & (f3 & ? & ? & ? & ?)%(mv_sfs _ _ _ _ _ M2) & ? & ? & ?)%(mv_sfs _ _ _ _ _ M1).
    exists f3. split_and!; [done|congruence..|auto].
  - intros r f (f2 & (f3 & ? & ?)%(mv_rfs _ _ _ _ _ M2) & ?)%(mv_rfs _ _ _ _ _ M1).
    exists f3. split; [done|]. by eapply flow_moves_trans.
  - etrans; [apply (mv_effects _ _ _ _ _ M1)|apply (mv_effects _ _ _ _ _ M2)].
  - eapply streams_grow_trans; [apply (mv_streams _ _ _ _ _ M1)|apply (mv_streams _ _ _ _ _ M2)].
  - intros k r [Hg|Hin]%(mv_send _ _ _ _ _ M2); [by apply (mv_send _ _ _ _ _ M1)|by right].
  - intros k r [Hg|Hin]%(mv_receive _ _ _ _ _ M2); [by apply (mv_receive _ _ _ _ _ M1)|by right].
  - intros late Hcl. by apply (mv_closed _ _ _ _ _ M2), (mv_closed _ _ _ _ _ M1).
Qed.

(** Whatever holds of a closed session between operations still does. *)
Lemma moves_status newT s s' : tables_inv s → moves [] [] newT s s' → status_inv s → status_inv s'.
Proof.
  intros Ht [Hce _ Hctx _ (ks & Hk & Hcc) _ Hrfs _ _ Hsend Hrecv _]. unfold status_inv.
  rewrite Hce, Hctx, Hk, conn_closes_app, Hcc, app_nil_r. destruct (s_closedErr s); [|done].
  intros (? & ? & Hnone & Hclosed). split_and!; try done.
  - intros k. destruct (smap.get k (s_sendFlows s')) as [r|] eqn:Hg; [|done].
    apply Hsend in Hg as [Hg|Hin]; [by rewrite Hnone in Hg|by apply not_elem_of_nil in Hin].
  - intros k r f' [Hg|Hin]%Hrecv Hr'; [|by apply not_elem_of_nil in Hin].
    destruct (ti_receive s Ht k r Hg) as (f & Hr & _). destruct (Hrfs r f Hr) as (f2 & Hr2 & Hcl & _).
    simplify_eq. eauto.
Qed.

(** ** Steps that are quiet *)

Lemma quiet_emit es s : quiet s (emit es s).
Proof. destruct (quiet_refl s). split; try done. by apply prefix_app_r. Qed.

(** A closed flow whose streams stay has them closed still. *)
Lemma closed_streams_keep late s c m fs ss : tables_inv s → streams_grow (s_streams s) ss →
  calls (s_conn s) `prefix_of` calls c →
  (∀ r f', fs !! r = Some f' → sf_closedErr f' ≠ None →
     ∃ f, s_sfs s !! r = Some f ∧ sf_closedErr f ≠ None ∧ sf_streams f' = sf_streams f) →
  closed_streams late s → closed_streams late (set_send c m fs ss s).
Proof.
  intros Ht Hg [ks Hk] Hfs Hcl r f' i st' Hr' Hc' Hi Hst'. simpl in *.
  destruct (Hfs r f' Hr' Hc') as (f & Hr & Hc & Heq). rewrite Heq in Hi.
  destruct (ti_sf _ _ _ Ht Hr) as (_ & _ & Hall). rewrite Forall_forall in Hall.
  destruct (Hall i Hi) as (st & Hst & _). destruct (Hg i st Hst) as (st2 & Hst2 & Hsame & _).
  simplify_eq. destruct (Hcl r f i st Hr Hc Hi Hst) as [?|Hin]; [by left|right].
  rewrite Hsame, Hk, stream_closes_app. apply elem_of_app. by left.
Qed.

(** Calls on the connection. *)
Lemma quiet_conn s c ss es ks : tables_inv s → calls c = calls (s_conn s) ++ ks → conn_closes ks = [] →
  streams_grow (s_streams s) ss → quiet s (emit es (set_send c (s_sendFlows s) (s_sfs s) ss s)).
Proof.
  intros Ht Hk Hcc Hg. split; simpl; eauto using flow_moves_refl; [by apply prefix_app_r|].
  intros late Hcl. apply (closed_streams_keep late s c (s_sendFlows s) (s_sfs s) ss); try done.
  - rewrite Hk. by apply prefix_app_r.
  - eauto.
Qed.

(** A receive flow is replaced. *)
Lemma quiet_set_rf s r f f' es : s_rfs s !! r = Some f → flow_moves f f' →
  quiet s (emit es (set_rf r f' s)).
Proof.
  intros Hr Hcl. destruct (quiet_refl s). split; simpl in *; try done; [|by apply prefix_app_r].
  intros r0 f0 Hr0. destruct (decide (r0 = r)) as [->|].
  - exists f'. rewrite list_lookup_insert_eq by (by eapply lookup_lt_Some). by simplify_eq.
  - exists f0. rewrite list_lookup_insert_ne by done. split; [done|apply flow_moves_refl].
Qed.

(** Receive flows are created. *)
Lemma moves_new_rfs newR s m b new es :
  (∀ k r, smap.get k m = Some r → smap.get k (s_receiveFlows s) = Some r ∨ r ∈ newR) →
  moves [] newR [] s (emit es (set_receive m b (s_rfs s ++ new) s)).
Proof.
  intros Hm. destruct (quiet_refl s). split; simpl in *; try done; [|by apply prefix_app_r].
  intros r f Hr. exists f. split; [by apply lookup_app_l_Some|apply flow_moves_refl].
Qed.

(** A send flow is created. *)
Lemma moves_new_sf newS s m f : tables_inv s → sf_closedErr f = None →
  (∀ k r, smap.get k m = Some r → smap.get k (s_sendFlows s) = Some r ∨ r ∈ newS) →
  moves newS [] [] s (set_send (s_conn s) m (s_sfs s ++ [f]) (s_streams s) s).
Proof.
  intros Ht Hf Hm. destruct (quiet_refl s). split; simpl in *; try done.
  - intros r f0 Hr. exists f0. split; [by apply lookup_app_l_Some|done].
  - intros late. apply closed_streams_keep; try done. intros r f' [?|[_ Hr]]%lookup_app_Some Hc; [by exists f'|].
    apply list_lookup_singleton_Some in Hr as [_ <-]. done.
Qed.
End moves.

Section operations.
Context `{QuicVarintLaws, !GoPool, !GoMapOrder} {C : Type} `{ConnectionLaws C}.
Implicit Types (s : Session C).

Lemma deref_lt {A} (l : list A) r : r < length l → ∃ a, l !! r = Some a ∧ deref l r = Ret a.
Proof. intros [a Ha]%lookup_lt_is_Some_2. exists a. unfold deref. by rewrite Ha. Qed.

Lemma sf_inv_all ss ss' fs : streams_grow ss ss' → Forall (sf_inv ss) fs → Forall (sf_inv ss') fs.
Proof. intros Hg Hfs. eapply Forall_impl; [done|]. intros f. by apply sf_inv_streams. Qed.

Lemma tables_inv_conn s c ss es : tables_inv s → streams_grow (s_streams s) ss →
  tables_inv (emit es (set_send c (s_sendFlows s) (s_sfs s) ss s)).
Proof.
  intros Ht Hg. apply tables_inv_set_send; [done| |apply (ti_send s Ht)].
  eapply sf_inv_all; [done|apply Ht].
Qed.

(** *** What the connection does by itself, and its receive calls *)

Lemma set_conn_moves s c : tables_inv s → calls c = calls (s_conn s) →
  tables_inv (set_conn c s) ∧ quiet s (set_conn c s).
Proof.
  intros Ht Hc. unfold set_conn. rewrite <- (emit_nil (set_send _ _ _ _ s)).
  split; [by apply tables_inv_conn, streams_grow_refl|].
  eapply (quiet_conn s c _ _ []); [done|by rewrite app_nil_r|done|apply streams_grow_refl].
Qed.

Lemma conn_handle_moves ev s : tables_inv s →
  tables_inv (set_conn (conn_handle ev (s_conn s)) s) ∧ quiet s (set_conn (conn_handle ev (s_conn s)) s).
Proof. intros Ht. apply set_conn_moves; [done|]. apply calls_handle. Qed.

Lemma conn_ReceiveDatagram_moves s res s' : tables_inv s → conn_ReceiveDatagram s = Some (res, s') →
  tables_inv s' ∧ quiet s s'.
Proof.
  intros Ht. unfold conn_ReceiveDatagram. destruct (ReceiveDatagram _ _) as [[res0 c]|] eqn:Hr; [|done].
  intros [= <- <-]. apply set_conn_moves; [done|]. by eapply calls_ReceiveDatagram.
Qed.

Lemma conn_AcceptUniStream_moves s res s' : tables_inv s → conn_AcceptUniStream s = Some (res, s') →
  tables_inv s' ∧ quiet s s' ∧ ∀ rs, res = inl rs → rd_wf (rs_reader rs).
Proof.
  intros Ht. unfold conn_AcceptUniStream. destruct (AcceptUniStream _ _) as [[res0 c]|] eqn:Hr; [|done].
  intros [= <- <-]. apply calls_AcceptUniStream in Hr as [Hc Hwf]. destruct (set_conn_moves s c Ht Hc). done.
Qed.

Lemma conn_closes_writes h ks : stream_writes h ks → conn_closes ks = [].
Proof. by induction 1 as [|k ks (p & n & ->) _ IH]. Qed.

(** *** Send flows *)

Lemma closeSendFlow_moves r s : tables_inv s → r < length (s_sfs s) →
  ∃ err s', closeSendFlow r s = Ret (err, s') ∧ tables_inv s' ∧ quiet s s' ∧
    (∀ k, smap.get k (s_sendFlows s') ≠ Some r) ∧
    s_receiveFlows s' = s_receiveFlows s ∧ s_rfs s' = s_rfs s.
Proof.
  intros Ht Hr. apply lookup_lt_is_Some_2 in Hr as [f Hr].
  destruct (closeSendFlow_spec r f s Ht Hr) as (errs & c' & -> & Heach).
  destruct (close_each_calls _ _ _ _ Heach) as [Hcalls _].
  pose proof (λ k r0, ti_send_delete s r f k r0 Ht Hr) as Hm.
  eexists _, _. split; [done|]. split.
  { apply tables_inv_sfs_closed; [done|by apply sfs_closed_one|].
    intros k r0 [? ?]%Hm. by rewrite list_lookup_insert_ne. }
  split; [|split_and!; try done; by intros k [_ ?]%Hm].
  destruct (quiet_refl s). split; simpl in *; try done.
  - exists (CClose <$> sf_handles f (s_streams s)). by rewrite conn_closes_CClose.
  - intros r0 f0 Hr0. destruct (decide (r0 = r)) as [->|].
    + eexists. rewrite list_lookup_insert_eq by (by eapply lookup_lt_Some). split; [done|]. by simplify_eq.
    + exists f0. by rewrite list_lookup_insert_ne.
  - intros k r0 [? _]%Hm. by left.
  - intros late Hcl r0 f0 i st Hr0 Hc Hi Hst. simpl in *. rewrite Hcalls, stream_closes_app, elem_of_app.
    destruct (decide (r0 = r)) as [->|].
    + rewrite list_lookup_insert_eq in Hr0 by (by eapply lookup_lt_Some). simplify_eq. simpl in Hi.
      right. right. apply list_elem_of_omap. exists (CClose (stream st)). split; [|done].
      apply list_elem_of_fmap_2, list_elem_of_omap. exists i. by rewrite Hst.
    + rewrite list_lookup_insert_ne in Hr0 by done. destruct (Hcl r0 f0 i st Hr0 Hc Hi Hst); auto.
Qed.

Lemma app_WriteDatagram_send_moves r p s : tables_inv s → r < length (s_sfs s) →
  ∃ err s', app_WriteDatagram_send r p s = Ret (err, s') ∧ tables_inv s' ∧ quiet s s'.
Proof.
  intros Ht (f & Hr & Hd)%deref_lt. unfold app_WriteDatagram_send, WriteRTPBytes_send. rewrite Hd. simpl.
  destruct (SendDatagram _ _) as [err c'] eqn:Hs. apply calls_SendDatagram in Hs. simpl.
  eexists _, _. split; [done|]. split; [by apply tables_inv_conn, streams_grow_refl|].
  eapply quiet_conn; [done..|apply streams_grow_refl].
Qed.

Lemma app_WriteDatagram_parts r p s f : s_sfs s !! r = Some f →
  app_WriteDatagram r p s = match isClosed f with
                            | Some err => Ret (Some err, s)
                            | None => app_WriteDatagram_send r p s
                            end.
Proof.
  intros Hr. unfold app_WriteDatagram, app_WriteDatagram_send, SendFlow_WriteRTPBytes, deref. rewrite Hr. simpl.
  destruct (isClosed f); [|done]. rewrite emit_nil. by destruct s.
Qed.

Lemma app_WriteStream_moves r p s : tables_inv s → r < length (s_streams s) →
  varint_ok (Z.of_nat (length p)) →
  ∃ res s', app_WriteStream r p s = Ret (res, s') ∧ tables_inv s' ∧ quiet s s'.
Proof.
  intros Ht (st & Hr & Hd)%deref_lt Hl. unfold app_WriteStream. rewrite Hd. simpl.
  destruct (WriteRTPBytes_cases p st (s_conn s) Hl) as (res & st' & c' & evs & Hw & Hsame & _).
  rewrite Hw. simpl. apply WriteRTPBytes_calls in Hw as (ks & Hc & Hks%conn_closes_writes).
  assert (streams_grow (s_streams s) (<[r := st']> (s_streams s))) by (by eapply streams_grow_insert).
  eexists _, _. split; [done|]. split; [by apply tables_inv_conn|by eapply quiet_conn].
Qed.

Lemma app_NewSendStream_open_moves r p i s : tables_inv s → r < length (s_sfs s) →
  ∃ res s', app_NewSendStream_open r p i s = Ret (res, s') ∧ tables_inv s' ∧ quiet s s' ∧
    s_sfs s' = s_sfs s ∧ s_streams s' = s_streams s ∧
    (∀ st, res = inl st → ∃ f, s_sfs s !! r = Some f ∧ flowIDBytes st = sf_flowID f ∧ flowID st = sf_id f).
Proof.
  intros Ht (f & Hr & Hd)%deref_lt. unfold app_NewSendStream_open. rewrite Hd. simpl.
  destruct (NewSendStream_open p i f (s_conn s)) as [[res c'] es] eqn:Hn.
  assert ((∃ ks, calls c' = calls (s_conn s) ++ ks ∧ conn_closes ks = []) ∧
    (∀ st, res = inl st → flowIDBytes st = sf_flowID f ∧ flowID st = sf_id f)) as [(ks & Hk & Hcc) Hst].
  { revert Hn. unfold NewSendStream_open.
    destruct (OpenUniStreamSync (s_conn s)) as [[h|e] c1] eqn:Ho; apply calls_Open in Ho.
    2:{ intros [= <- <- <-]. split; [by eexists|done]. }
    destruct (is_PrioritySendStream h) eqn:Hprio; simpl; intros [= <- <- <-].
    - rewrite calls_SetIncremental, calls_SetPriority, Ho, <- !app_assoc by done.
      split; [by eexists|by intros st [= <-]].
    - split; [by eexists|by intros st [= <-]]. }
  eexists _, _. split; [done|]. split_and!; try done.
  - by apply tables_inv_conn, streams_grow_refl.
  - eapply quiet_conn; [done..|apply streams_grow_refl].
  - intros st Hres. exists f. split; [done|]. auto.
Qed.

(** Appending a stream to a flow that was closed meanwhile leaves it open. *)
Lemma app_NewSendStream_append_moves r f st s : tables_inv s → s_sfs s !! r = Some f →
  flowIDBytes st = sf_flowID f → flowID st = sf_id f →
  ∃ s', app_NewSendStream_append r st s = Ret (length (s_streams s), s') ∧ tables_inv s' ∧
    moves [] [] (match isClosed f with Some _ => [length (s_streams s)] | None => [] end) s s'.
Proof.
  intros Ht Hr Hst Hid. pose proof Hr as Hlt%lookup_lt_Some.
  unfold app_NewSendStream_append, deref. rewrite Hr. simpl. set (f' := set_sf_streams _ f).
  assert (streams_grow (s_streams s) (s_streams s ++ [st])) as Hg by (by apply streams_grow_prefix, prefix_app_r).
  assert (sf_inv (s_streams s ++ [st]) f') as Hf'.
  { destruct (sf_inv_streams _ _ _ Hg (ti_sf _ _ _ Ht Hr)) as (? & ? & Hall). split_and!; [done..|].
    simpl. apply Forall_app. split; [done|]. apply Forall_singleton. exists st.
    by rewrite lookup_app_r, Nat.sub_diag. }
  eexists. split; [done|]. split.
  { rewrite <- emit_nil. apply tables_inv_set_send; [done| |].
    - apply Forall_insert; [|done]. eapply sf_inv_all; [done|apply Ht].
    - intros k r0 (f0 & Hr0 & Hk & Ho)%(ti_send s Ht). destruct (decide (r0 = r)) as [->|].
      + exists f'. rewrite list_lookup_insert_eq by done. by simplify_eq.
      + exists f0. by rewrite list_lookup_insert_ne. }
  destruct (quiet_refl s). split; simpl in *; try done.
  - intros r0 f0 Hr0. destruct (decide (r0 = r)) as [->|].
    + exists f'. rewrite list_lookup_insert_eq by done. by simplify_eq.
    + exists f0. by rewrite list_lookup_insert_ne.
  - intros late Hcl r0 f0 i st0 Hr0 Hc Hi Hst0. simpl in *.
    assert (∃ f1, s_sfs s !! r0 = Some f1 ∧ sf_closedErr f1 ≠ None ∧
      (i ∈ sf_streams f1 ∨ (i = length (s_streams s) ∧ isClosed f ≠ None))) as (f1 & Hr1 & Hc1 & Hi1).
    { destruct (decide (r0 = r)) as [->|].
      - rewrite list_lookup_insert_eq in Hr0 by done. simplify_eq. exists f. split_and!; [done..|].
        simpl in Hi. apply elem_of_app in Hi as [?| ->%list_elem_of_singleton]; [by left|by right].
      - rewrite list_lookup_insert_ne in Hr0 by done. exists f0. auto. }
    destruct Hi1 as [Hi1|[-> Hclf]].
    2:{ left. destruct (isClosed f); [|done]. apply list_elem_of_here. }
    destruct (ti_sf _ _ _ Ht Hr1) as (_ & _ & Hall). rewrite Forall_forall in Hall.
    destruct (Hall i Hi1) as (st1 & Hst1 & _). rewrite (lookup_app_l_Some _ _ _ _ Hst1) in Hst0.
    simplify_eq. destruct (Hcl r0 f1 i st0 Hr1 Hc1 Hi1 Hst1); [left; apply elem_of_app; by right|by right].
Qed.

Lemma app_NewSendStream_parts r p i s f : s_sfs s !! r = Some f →
  app_NewSendStream r p i s = match isClosed f with
    | Some err => Ret (inr err, s)
    | None => '(res, s) ← app_NewSendStream_open r p i s;
              match res with
              | inr err => Ret (inr err, s)
              | inl st => '(n, s) ← app_NewSendStream_append r st s; Ret (inl n, s)
              end
    end.
Proof.
  intros Hr. unfold app_NewSendStream, app_NewSendStream_open, NewSendStream, deref. rewrite Hr. simpl.
  destruct (isClosed f) as [err|].
  { rewrite emit_nil, list_insert_id by done. by destruct s. }
  destruct (NewSendStream_open p i f (s_conn s)) as [[[st|err] c] es]; simpl.
  - unfold app_NewSendStream_append, deref. simpl. by rewrite Hr.
  - by rewrite list_insert_id.
Qed.

(** *** Receive flows *)

Lemma set_rf_emit_moves s r f f' es : tables_inv s → s_rfs s !! r = Some f → rf_inv [] f' →
  rf_id f' = rf_id f → flow_moves f f' →
  tables_inv (emit es (set_rf r f' s)) ∧ quiet s (emit es (set_rf r f' s)).
Proof. intros. split; [by eapply tables_inv_set_rf|by eapply quiet_set_rf]. Qed.

Lemma set_rf_moves s r f f' : tables_inv s → s_rfs s !! r = Some f → rf_inv [] f' →
  rf_id f' = rf_id f → flow_moves f f' →
  tables_inv (set_rf r f' s) ∧ quiet s (set_rf r f' s).
Proof. intros. rewrite <- (emit_nil (set_rf r f' s)). by eapply set_rf_emit_moves. Qed.

Lemma app_Read_moves r prefer buf s : tables_inv s → r < length (s_rfs s) →
  ∃ res, app_Read r prefer buf s = Ret res ∧
    ∀ x s', res = Some (x, s') → tables_inv s' ∧ quiet s s'.
Proof.
  intros Ht (f & Hr & Hd)%deref_lt. unfold app_Read. rewrite Hd. bind_simpl.
  pose proof (ti_rf _ _ _ Ht Hr) as Hfi. eexists; split; [done|]. intros x s'.
  destruct (ReceiveFlow.Read 1 prefer buf f) as [[res f']|] eqn:Hread; [|done]. intros [= <- <-].
  destruct (Read_keeps [] prefer buf f res f' Hfi Hread) as (? & ? & ? & ? & ?).
  eapply set_rf_moves; [done..|by apply flow_moves_same].
Qed.

Lemma app_SetReadDeadline_moves r t now s : tables_inv s → r < length (s_rfs s) →
  ∃ s', app_SetReadDeadline r t now s = Ret s' ∧ tables_inv s' ∧ quiet s s'.
Proof.
  intros Ht (f & Hr & Hd)%deref_lt. unfold app_SetReadDeadline, ReceiveFlow_SetReadDeadline.
  rewrite Hd. simpl. destruct (ti_rf _ _ _ Ht Hr) as [Ho Hch Hcap Hctx Hdl Hs].
  destruct (SetReadDeadline_ok t now (rf_deadline f) Hdl) as (d' & -> & Hdl'). simpl.
  eexists; split; [done|]. eapply set_rf_moves; [done..| |done|by apply flow_moves_same]. by split.
Qed.

(** *** The parts of [Close] *)

Lemma closed_ctx s r f : tables_inv s → s_rfs s !! r = Some f → rf_closed f = true → rf_ctxDone f = true.
Proof. intros Ht Hr. apply (rf_inv_ctx _ _ (ti_rf _ _ _ Ht Hr)). Qed.

Lemma set_rf_lookup r f' s : r < length (s_rfs s) → s_rfs (set_rf r f' s) !! r = Some f'.
Proof. intros Hr. simpl. by apply list_lookup_insert_eq. Qed.

Lemma flow_cancelCtx_moves r s : tables_inv s → r < length (s_rfs s) →
  ∃ s' f', flow_cancelCtx r s = Ret s' ∧ tables_inv s' ∧ quiet s s' ∧
    s_rfs s' !! r = Some f' ∧ rf_ctxDone f' = true.
Proof.
  intros Ht Hlt. destruct (deref_lt _ _ Hlt) as (f & Hr & Hd). unfold flow_cancelCtx. rewrite Hd. simpl.
  destruct (ti_rf _ _ _ Ht Hr). edestruct (set_rf_moves s r f (cancelCtx f)) as [? ?]; [done..|by split; simpl|done|by split|].
  eexists _, (cancelCtx f). split_and!; [done..| |done]. by apply set_rf_lookup.
Qed.

Lemma flow_closeBuffer_moves r f s : tables_inv s → s_rfs s !! r = Some f → rf_ctxDone f = true →
  ∃ s' f', flow_closeBuffer r s = Ret s' ∧ tables_inv s' ∧ quiet s s' ∧
    s_rfs s' !! r = Some f' ∧ rf_closed f' = true.
Proof.
  intros Ht Hr Hx. unfold flow_closeBuffer, deref. rewrite Hr. simpl.
  destruct (closeBuffer_spec [] f (ti_rf _ _ _ Ht Hr) Hx) as (f' & Hc & ? & ? & ? & _ & Hs & _).
  assert (rf_id f' = rf_id f) as Hid.
  { revert Hc. unfold closeBuffer. destruct (rf_closed f); [by intros [= <-]|]. simpl.
    destruct (chan_close _); [|done]. by intros [= <-]. }
  rewrite Hc. simpl. edestruct (set_rf_moves s r f f') as [? ?]; [done..| |].
  { split; [done|]. by rewrite Hs. }
  eexists _, f'. split_and!; [done..| |done]. by eapply set_rf_lookup, lookup_lt_Some.
Qed.

(** The streams registered with [f] have been cancelled. *)
Definition streams_cancelled s f : Prop :=
  ∀ k, is_Some (rf_streams f !! k) → (k, ErrRoQNoError) ∈ cancelled (s_effects s).

Lemma flow_closeStreams_moves r f s : tables_inv s → s_rfs s !! r = Some f →
  ∃ s', flow_closeStreams r s = Ret s' ∧ tables_inv s' ∧ quiet s s' ∧ s_rfs s' = s_rfs s ∧
    streams_cancelled s' f.
Proof.
  intros Ht Hr. unfold flow_closeStreams, deref. rewrite Hr. simpl. eexists. split_and!;
    [done|by apply tables_inv_emit|apply quiet_emit|done|].
  intros k Hk. simpl. unfold cancelled. rewrite omap_app. apply elem_of_app. right.
  apply elem_of_cancelled_streams; [|done]. apply (ti_rf _ _ _ Ht Hr).
Qed.

Lemma deref_set_rf r f' s es : r < length (s_rfs s) → deref (s_rfs (emit es (set_rf r f' s))) r = Ret f'.
Proof. intros Hr. unfold deref. change (s_rfs (emit es _)) with (s_rfs (set_rf r f' s)). by rewrite set_rf_lookup. Qed.

Lemma set_rf_again r f1 f2 s es1 es2 :
  emit es2 (set_rf r f2 (emit es1 (set_rf r f1 s))) = emit (es1 ++ es2) (set_rf r f2 s).
Proof. unfold emit, set_rf, set_receive. simpl. by rewrite list_insert_insert_eq, app_assoc. Qed.

Lemma closeReceiveFlow_parts r s : r < length (s_rfs s) → closeReceiveFlow r s =
  (s ← flow_cancelCtx r s; s ← flow_closeBuffer r s; s ← flow_closeStreams r s; Ret (None, s)).
Proof.
  intros Hr. destruct (deref_lt _ _ Hr) as (f & _ & Hd).
  unfold closeReceiveFlow, flow_cancelCtx, flow_closeBuffer, flow_closeStreams, ReceiveFlow.Close. rewrite Hd. bind_simpl.
  rewrite <- (emit_nil (set_rf r (cancelCtx f) s)), deref_set_rf by done. bind_simpl.
  destruct (closeBuffer (cancelCtx f)) as [f'|]; [|done]. bind_simpl.
  rewrite <- (emit_nil (set_rf r f' (emit _ _))), set_rf_again, deref_set_rf by done. bind_simpl.
  by rewrite emit_nil.
Qed.

Lemma closeReceiveFlow_moves r s : tables_inv s → r < length (s_rfs s) →
  ∃ err s', closeReceiveFlow r s = Ret (err, s') ∧ tables_inv s' ∧ quiet s s'.
Proof.
  intros Ht Hr. rewrite closeReceiveFlow_parts by done.
  destruct (flow_cancelCtx_moves r s Ht Hr) as (s1 & f1 & -> & Ht1 & Hq1 & Hr1 & Hx1). bind_simpl.
  destruct (flow_closeBuffer_moves r f1 s1 Ht1 Hr1 Hx1) as (s2 & f2 & -> & Ht2 & Hq2 & Hr2 & _). bind_simpl.
  destruct (flow_closeStreams_moves r f2 s2 Ht2 Hr2) as (s3 & -> & Ht3 & Hq3 & _). bind_simpl.
  eexists _, _. split_and!; [done..|]. eauto using quiet_trans.
Qed.

Lemma receiveFlow_moves id s : tables_inv s →
  ∃ r s', receiveFlow id s = Ret (r, s') ∧ tables_inv s' ∧ quiet s s' ∧ r < length (s_rfs s').
Proof.
  intros Ht. destruct (receiveFlow_tables_spec id s Ht) as (r & f & s' & -> & Ht' & _ & Hr & _ & Hcase).
  exists r, s'. split_and!; [done..| |by eapply lookup_lt_Some].
  destruct (flow_ref id s); [subst; apply quiet_refl|]. destruct Hcase as (_ & b & es & -> & _).
  apply moves_new_rfs. by left.
Qed.

Lemma HandleDatagram_deliver_moves id n d r s : tables_inv s → r < length (s_rfs s) →
  quicvarint_Parse d = inl (id, n) →
  ∃ s', HandleDatagram_deliver id d r s = Ret s' ∧ tables_inv s' ∧ quiet s s'.
Proof.
  intros Ht (f & Hr & Hd)%deref_lt Hp. unfold HandleDatagram_deliver. rewrite Hd. bind_simpl.
  destruct (Len_least _ _ _ Hp) as (k & Hk & Hkn). apply Parse_inv in Hp as (_ & _ & _ & _ & Hn & _).
  destruct (pool_Get (rf_buffer f)) as [b pb] eqn:Hget. rewrite Hk. bind_simpl.
  rewrite slice_from_ok, Nat2Z.id by lia. bind_simpl. pose proof (ti_rf _ _ _ Ht Hr) as Hfi.
  destruct (push_filled [] f b pb (drop k d) Hfi Hget) as (Hb & _ & _ & _ & f' & Hpush & Hfi' & Hfp).
  rewrite buf_fill, Hpush by done. bind_simpl. destruct Hfp as (_ & _ & ? & ? & ? & ? & _).
  eexists; split; [done|]. eapply set_rf_moves; [done..|by apply flow_moves_same].
Qed.

(** *** The parts of [readStream] *)

Lemma flow_register_moves rs r s : tables_inv s → r < length (s_rfs s) →
  ∃ ok s', flow_register rs r s = Ret (ok, s') ∧ tables_inv s' ∧ quiet s s'.
Proof.
  intros Ht (f & Hr & Hd)%deref_lt. unfold flow_register. rewrite Hd. simpl.
  pose proof (ti_rf _ _ _ Ht Hr) as [Ho Hch Hcap Hx Hdl Hs].
  unfold register. destruct (rf_ctxDone f) eqn:Hctx; eexists _, _; (split; [done|]);
    (eapply set_rf_emit_moves; [done..| |done|]); [by split; rewrite ?Hctx|apply flow_moves_refl| |].
  - split; simpl; auto; [by intros ?%Hx|by apply map_Forall_insert_2].
  - split; simpl; [done|]. by rewrite Hctx.
Qed.

Lemma flow_readFrame_moves streamID rd r s : tables_inv s → r < length (s_rfs s) → rd_wf rd →
  ∃ next s', flow_readFrame streamID rd r s = Ret (next, s') ∧ tables_inv s' ∧ quiet s s' ∧
    (∀ rd', next = Some rd' → rd_wf rd' ∧ length (rd_data rd') < length (rd_data rd)).
Proof.
  intros Ht (f & Hr & Hd)%deref_lt Hwf. unfold flow_readFrame. rewrite Hd. simpl.
  pose proof (readStream_iter_spec [] streamID rd f (ti_rf _ _ _ Ht Hr) Hwf) as Hiter.
  destruct (quicvarint_Parse (rd_data rd)) as [[v n]|e] eqn:Hp.
  2:{ rewrite Hiter. simpl. eexists _, _. split; [done|]. apply and_assoc. split; [|done].
    eapply set_rf_emit_moves; [done..|by eapply ti_rf|done|apply flow_moves_refl]. }
  apply Parse_inv in Hp as (b0 & d' & Hdata & Hn & Hle & Hvok & _). pose proof (varint_size_pos b0).
  cbv zeta in Hiter. destruct (_ && _).
  - destruct Hiter as (f' & -> & Hfi & Hfp). simpl. destruct Hfp as (_ & _ & ? & ? & ? & ? & _).
    eexists _, _. split; [done|]. apply and_assoc. split; [|done].
    eapply set_rf_emit_moves; [done..|by apply flow_moves_same].
  - destruct Hiter as (rd' & f' & -> & (Hd' & _ & Hwf') & Hfi & Hfp). simpl.
    destruct Hfp as (_ & _ & ? & ? & ? & ? & _).
    eexists _, _. split; [done|]. apply and_assoc. split.
    + eapply set_rf_emit_moves; [done..|by apply flow_moves_same].
    + intros rd0 [= <-]. split; [done|]. rewrite Hd', !length_drop. lia.
Qed.

Lemma flow_unregister_moves rs r s : tables_inv s → r < length (s_rfs s) →
  ∃ s', flow_unregister rs r s = Ret s' ∧ tables_inv s' ∧ quiet s s'.
Proof.
  intros Ht (f & Hr & Hd)%deref_lt. unfold flow_unregister. rewrite Hd. simpl.
  pose proof (ti_rf _ _ _ Ht Hr) as [Ho Hch Hcap Hx Hdl Hs]. eexists. split; [done|].
  eapply set_rf_moves; [done..| |done|].
  - split; simpl; auto. by apply map_Forall_delete.
  - split; [done|]. intros Hc. split; [done|]. simpl. apply delete_subseteq.
Qed.
End operations.
