(* ===== verification/SessionSteps.v ===== *)
(** * The goroutines of a session

    A configuration is a session with the goroutines of its wait group: the
    receive loops that still run and the [handleUniStream] calls they spawned.
    Beside them the application calls the methods of the session and of its flows
    and streams ([op]), and [Close], which waits for the goroutines. [sexec] says
    what each step does, or that it cannot happen now: a method needs a reference
    the application was given, [Close] returns only when no goroutine is left.

    A step is a whole call, so that a stream is handled here only when it ends; the
    goroutines of streams run in any order. [NewSendFlow] takes any 64-bit ID, and
    panics if it has no encoding. SessionConcurrent.v cuts the calls into their
    critical sections, and what calls on the same receive flow do to each other is in
    FlowSteps.v. *)

From S2P Require Import Prelude GoErrors IO Varint QlogEvent Qlogger Options SyncMap Connection.
From S2P Require Import RTPSendStream SendFlow PacketBuffer Deadline ReceiveFlow ReadStream.
From S2P Require Import ReceiveFlowBuffer Session SessionSpec SessionMoves.

Inductive op :=
  | ONewSendFlow (id : Z)
  | ONewReceiveFlow (id : Z)
  | OWriteDatagram (r : nat) (packet : list byte)
  | ONewSendStream (r : nat) (priority : Z) (incremental : bool)
  | OWriteStream (r : nat) (packet : list byte)
  | OCloseStream (r : nat)
  | OCancelStream (r : nat) (code : Z)
  | OCloseSendFlow (r : nat)
  | ORead (r : nat) (prefer : select_case) (buf : list byte)
  | OSetReadDeadline (r : nat) (t : option Z) (now : Z)
  | OCloseReceiveFlow (r : nat)
  | OHandleDatagram (d : list byte)
  | OHandleUniStream (id : Z) (rs : ReceiveStream).

(** The calls that are one critical section, and so can happen at any moment of a
    shutdown. *)
Definition op_single (o : op) : bool :=
  match o with
  | OWriteStream _ _ | OCloseStream _ | OCancelStream _ _ | OCloseSendFlow _
  | ORead _ _ _ | OSetReadDeadline _ _ _ => true
  | OCloseReceiveFlow _ | ONewSendFlow _ | ONewReceiveFlow _ | OWriteDatagram _ _ | ONewSendStream _ _ _
  | OHandleDatagram _ | OHandleUniStream _ _ => false
  end.

Section ops.
Context `{!QuicVarint, !GoPool, !GoMapOrder} {C : Type} `{!Connection C}.
Implicit Types (s : Session C).

(** The arguments are ones the application can have: a [uint64] as the ID of a send
    flow, a packet of less than [2^62] bytes, a reference to an object that exists; a
    stream the call handles as a whole is one that ends. *)
Definition op_ok (o : op) s : bool :=
  match o with
  | ONewSendFlow id => bool_decide (0 ≤ id < 2 ^ 64)%Z
  | OWriteDatagram r _ | ONewSendStream r _ _ | OCloseSendFlow r => bool_decide (r < length (s_sfs s))
  | OWriteStream r p =>
      bool_decide (r < length (s_streams s)) && bool_decide (Z.of_nat (length p) < 2 ^ 62)%Z
  | OCloseStream r | OCancelStream r _ => bool_decide (r < length (s_streams s))
  | ORead r _ _ | OSetReadDeadline r _ _ | OCloseReceiveFlow r => bool_decide (r < length (s_rfs s))
  | OHandleUniStream _ rs =>
      (negb (rd_eager (rs_reader rs)) || is_EOF (rd_err (rs_reader rs))) &&
      negb (Read_waits (rs_ID rs) (s_conn s))
  | ONewReceiveFlow _ | OHandleDatagram _ => true
  end.

(** But [NewSendFlow] does not check that the ID fits into a varint. *)
Definition op_fits (o : op) : bool :=
  match o with ONewSendFlow id => bool_decide (id < 2 ^ 62)%Z | _ => true end.

Definition on_stream (r : nat) (g : RTPSendStream → C → C) s : outcome (Session C) :=
  st ← deref (s_streams s) r;
  Ret (set_send (g st (s_conn s)) (s_sendFlows s) (s_sfs s) (s_streams s) s).

Definition run_op (o : op) s : outcome (Session C) :=
  match o with
  | ONewSendFlow id => snd <$> NewSendFlow id s
  | ONewReceiveFlow id => snd <$> NewReceiveFlow id s
  | OWriteDatagram r p => snd <$> app_WriteDatagram r p s
  | ONewSendStream r p i => snd <$> app_NewSendStream r p i s
  | OWriteStream r p => snd <$> app_WriteStream r p s
  | OCloseStream r => on_stream r (λ st c, snd (RTPSendStream.Close st c)) s
  | OCancelStream r code => on_stream r (RTPSendStream.CancelStream code) s
  | OCloseSendFlow r => snd <$> closeSendFlow r s
  | ORead r prefer buf =>
      (λ res, match res with Some (_, s') => s' | None => s end) <$> app_Read r prefer buf s
  | OSetReadDeadline r t now => app_SetReadDeadline r t now s
  | OCloseReceiveFlow r => snd <$> closeReceiveFlow r s
  | OHandleDatagram d => HandleDatagram d s
  | OHandleUniStream id rs => snd <$> HandleUniStreamWithFlowID id rs s
  end.
End ops.

Record sconfig (C : Type) := mkConfigS {
  sc_sess : Session C;
  sc_loops : list loop;
  sc_handlers : list ReceiveStream;      (* handleUniStream calls that have not run *)
  sc_closing : nat;                      (* Close calls in wg.Wait *)
  sc_returned : list (option goerror)    (* what Close calls have returned *)
}.
Arguments mkConfigS {C} _ _ _ _ _.
Arguments sc_sess {C} _.
Arguments sc_loops {C} _.
Arguments sc_handlers {C} _.
Arguments sc_closing {C} _.
Arguments sc_returned {C} _.

Inductive slabel :=
  | LOp (o : op)
  | LNetwork (ev : conn_event)           (* something happens to the connection *)
  | LReceiveDatagram                     (* an iteration of receiveDatagrams *)
  | LAcceptStream                        (* an iteration of receiveUniStreams *)
  | LHandler (i : nat)                   (* a handleUniStream goroutine runs *)
  | LClose                               (* Close has run close and waits *)
  | LCloseReturn.                        (* and returns *)

#[global] Instance loop_eq_dec : EqDecision loop.
Proof. solve_decision. Defined.

Section steps.
Context `{!QuicVarint, !GoPool, !GoMapOrder} {C : Type} `{!Connection C}.

Definition sexec (l : slabel) (c : sconfig C) : option (outcome (sconfig C)) :=
  let '(mkConfigS s loops handlers closing returned) := c in
  match l with
  | LOp o =>
      if op_ok o s then Some (s ← run_op o s; Ret (mkConfigS s loops handlers closing returned))
      else None
  | LNetwork ev =>
      Some (Ret (mkConfigS (set_conn (conn_handle ev (s_conn s)) s) loops handlers closing returned))
  | LReceiveDatagram =>
      if decide (LoopDatagrams ∈ loops) then
        '(res, s) ← conn_ReceiveDatagram s;
        Some (match res with
              | inl d => s ← HandleDatagram d s; Ret (mkConfigS s loops handlers closing returned)
              | inr _ => Ret (mkConfigS s (list_difference loops [LoopDatagrams]) handlers closing returned)
              end)
      else None
  | LAcceptStream =>
      if decide (LoopUniStreams ∈ loops) then
        '(res, s) ← conn_AcceptUniStream s;
        Some (Ret (match res with
                   | inl rs => mkConfigS s loops (handlers ++ [rs]) closing returned
                   | inr _ => mkConfigS s (list_difference loops [LoopUniStreams]) handlers closing returned
                   end))
      else None
  | LHandler i =>
      rs ← handlers !! i;
      if Read_waits (rs_ID rs) (s_conn s) then None
      else
        Some ('(_, s) ← handleUniStream rs s;
              Ret (mkConfigS s loops (delete i handlers) closing returned))
  | LClose =>
      Some (s ← Session_close ErrRoQNoError "" s; Ret (mkConfigS s loops handlers (S closing) returned))
  | LCloseReturn =>
      match closing, loops, handlers with
      | S closing, [], [] =>
          let '(err, s) := Close_finish s in
          Some (Ret (mkConfigS s [] [] closing (returned ++ [err])))
      | _, _, _ => None
      end
  end.

Definition sstep (c c' : sconfig C) : Prop := ∃ l, sexec l c = Some (Ret c').

(** Reachable from a session that [NewSession] or [NewSessionWithAppHandledConn]
    made on a connection that is open. *)
Definition sreachable `{!ConnectionLaws C} (c : sconfig C) : Prop :=
  ∃ conn tr acc config loops, config_ok config ∧ conn_closes (calls conn) = [] ∧
    (loops = [] ∨ loops = start (newSession conn tr acc config)) ∧
    rtc sstep (mkConfigS (newSession conn tr acc config) loops [] 0 []) c.
End steps.

Section invariant.
Context `{QuicVarintLaws, !GoPool, !GoMapOrder} {C : Type} `{ConnectionLaws C}.
Implicit Types (s : Session C).

(** What a closed session reports never changes. *)
Definition stable s s' : Prop :=
  s_closedErr s ≠ None → s_closedErr s' = s_closedErr s ∧ s_connCloseErr s' = s_connCloseErr s.

(** A quiet step keeps the invariant. *)
Lemma quiet_sess s s' : sess_inv s → tables_inv s' → quiet s s' → sess_inv s' ∧ stable s s'.
Proof.
  intros [Ht Hst] Ht' Hq. split; [split; [done|exact (moves_status [] s s' Ht Hq Hst)]|].
  intros _. split; [apply Hq|apply Hq].
Qed.

(** Steps that only call the connection. *)
Lemma sess_inv_conn s (c' : C) ss es : sess_inv s → conn_closes (calls c') = conn_closes (calls (s_conn s)) →
  streams_grow (s_streams s) ss → sess_inv (emit es (set_send c' (s_sendFlows s) (s_sfs s) ss s)).
Proof.
  intros Hinv Hcc Hg. pose proof Hinv as [[? Hsf ? ? Hsend ? ?] _].
  apply sess_inv_set_send; try done; [|by right]. by eapply sf_inv_all.
Qed.

Lemma closeSendFlow_inv r s : sess_inv s → r < length (s_sfs s) →
  ∃ err s', closeSendFlow r s = Ret (err, s') ∧ sess_inv s' ∧ stable s s'.
Proof.
  intros Hinv Hr. destruct (closeSendFlow_moves r s (proj1 Hinv) Hr) as (err & s' & ? & ? & ? & _).
  exists err, s'. split; [done|by apply quiet_sess].
Qed.

Lemma app_WriteDatagram_inv r p s : sess_inv s → r < length (s_sfs s) →
  ∃ err s', app_WriteDatagram r p s = Ret (err, s') ∧ sess_inv s' ∧ stable s s'.
Proof.
  intros Hinv Hlt. destruct (deref_lt _ _ Hlt) as (f & Hr & _). rewrite (app_WriteDatagram_parts r p s f Hr).
  destruct (isClosed f) as [err|]; [by eexists _, _|].
  destruct (app_WriteDatagram_send_moves r p s (proj1 Hinv) Hlt) as (err & s' & -> & ? & ?).
  exists err, s'. split; [done|by apply quiet_sess].
Qed.

Lemma app_WriteStream_inv r p s : sess_inv s → r < length (s_streams s) →
  varint_ok (Z.of_nat (length p)) →
  ∃ res s', app_WriteStream r p s = Ret (res, s') ∧ sess_inv s' ∧ stable s s'.
Proof.
  intros Hinv Hr Hl. destruct (app_WriteStream_moves r p s (proj1 Hinv) Hr Hl) as (res & s' & ? & ? & ?).
  exists res, s'. split; [done|by apply quiet_sess].
Qed.

Lemma on_stream_moves r g s : tables_inv s → r < length (s_streams s) →
  (∀ st c', ∃ ks, calls (g st c') = calls c' ++ ks ∧ conn_closes ks = []) →
  ∃ s', on_stream r g s = Ret s' ∧ tables_inv s' ∧ quiet s s'.
Proof.
  intros Ht (st & Hr & Hd)%deref_lt Hg. unfold on_stream. rewrite Hd. simpl.
  destruct (Hg st (s_conn s)) as (ks & Hk & Hcc). eexists; split; [done|].
  rewrite <- (emit_nil (set_send _ _ _ _ s)).
  split; [by apply tables_inv_conn, streams_grow_refl|]. eapply quiet_conn; [done..|apply streams_grow_refl].
Qed.

Lemma CloseStream_calls st (c : C) : ∃ ks,
  calls (snd (RTPSendStream.Close st c)) = calls c ++ ks ∧ conn_closes ks = [].
Proof. destruct (RTPSendStream.Close st c) as [e c1] eqn:Hc. apply calls_Close in Hc. by eexists. Qed.

Lemma CancelStream_calls code st (c : C) : ∃ ks,
  calls (CancelStream code st c) = calls c ++ ks ∧ conn_closes ks = [].
Proof. unfold CancelStream. rewrite calls_CancelWrite. by eexists. Qed.

Lemma app_NewSendStream_inv r p i s : sess_inv s → r < length (s_sfs s) →
  ∃ res s', app_NewSendStream r p i s = Ret (res, s') ∧ sess_inv s' ∧ stable s s'.
Proof.
  intros Hinv Hlt. destruct (deref_lt _ _ Hlt) as (f & Hr & _). rewrite (app_NewSendStream_parts r p i s f Hr).
  destruct (isClosed f) as [err|] eqn:Hcl; [by eexists _, _|].
  destruct (app_NewSendStream_open_moves r p i s (proj1 Hinv) Hlt)
    as ([st|err] & s1 & -> & Ht1 & Hq1 & Hsfs & _ & Hst); bind_simpl.
  2:{ eexists _, _. split; [done|by apply quiet_sess]. }
  destruct (Hst st eq_refl) as (f0 & Hr0 & ? & ?). rewrite <- Hsfs in Hr0, Hr. simplify_eq.
  destruct (app_NewSendStream_append_moves r f st s1 Ht1 Hr) as (s2 & -> & Ht2 & Hq2); [done..|].
  rewrite Hcl in Hq2. bind_simpl. eexists _, _. split; [done|].
  apply quiet_sess; [done..|]. by eapply quiet_trans.
Qed.

Lemma app_Read_inv r prefer buf s : sess_inv s → r < length (s_rfs s) →
  ∃ res, app_Read r prefer buf s = Ret res ∧
    ∀ x s', res = Some (x, s') → sess_inv s' ∧ stable s s'.
Proof.
  intros Hinv Hr. destruct (app_Read_moves r prefer buf s (proj1 Hinv) Hr) as (res & ? & Hres).
  exists res. split; [done|]. intros x s' [? ?]%Hres. by apply quiet_sess.
Qed.

Lemma closeReceiveFlow_inv r s : sess_inv s → r < length (s_rfs s) →
  ∃ err s', closeReceiveFlow r s = Ret (err, s') ∧ sess_inv s' ∧ stable s s'.
Proof.
  intros Hinv Hr. destruct (closeReceiveFlow_moves r s (proj1 Hinv) Hr) as (err & s' & ? & ? & ?).
  exists err, s'. split; [done|by apply quiet_sess].
Qed.

Lemma receiveFlow_keeps id s r s1 : receiveFlow id s = Ret (r, s1) →
  s_closedErr s1 = s_closedErr s ∧ s_connCloseErr s1 = s_connCloseErr s ∧ s_conn s1 = s_conn s.
Proof.
  unfold receiveFlow. destruct (smap.get id _); [by intros [= <- <-]|].
  intros ([[[r0 b] fs] es] & _ & [= <- <-])%bind_ret_inv. done.
Qed.

Lemma receiveFlow_tables id s r s1 : receiveFlow id s = Ret (r, s1) →
  s_receiveFlows s1 = s_receiveFlows s ∧ s_closedErr s1 = s_closedErr s.
Proof.
  unfold receiveFlow. destruct (smap.get id _); [by intros [= <- <-]|].
  intros ([[[r0 b] fs] es] & _ & [= <- <-])%bind_ret_inv. done.
Qed.

Lemma HandleDatagram_inv d s : sess_inv s →
  ∃ s', HandleDatagram d s = Ret s' ∧ sess_inv s' ∧ stable s s'.
Proof.
  intros Hinv. destruct (quicvarint_Parse d) as [[id n]|e] eqn:Hp.
  - destruct (HandleDatagram_spec d s id n Hinv Hp)
      as (k & es & r & f & f' & s1 & _ & _ & (? & ? & _)%receiveFlow_keeps & _ & _ & _ & -> & _ & _ & ?).
    by eexists.
  - unfold HandleDatagram, Session_closeWithError. rewrite Hp.
    destruct (Session_close_inv ErrRoQPacketError "invalid flow ID" s Hinv) as (s' & -> & ? & _ & Hst).
    eexists; split_and!; try done. intros Hcl. by rewrite Hst.
Qed.

Lemma HandleUniStream_inv id rs s : sess_inv s → rd_wf (rs_reader rs) →
  ∃ s', HandleUniStreamWithFlowID id rs s = Ret (true, s') ∧ sess_inv s' ∧ stable s s'.
Proof.
  intros Hinv Hwf. destruct (HandleUniStream_spec id rs s Hinv Hwf)
    as (es & r & f & f' & s1 & es1 & (? & ? & _)%receiveFlow_keeps & _ & _ & _ & -> & _ & _ & _ & ?).
  by eexists.
Qed.

Lemma handleUniStream_inv rs s : sess_inv s → rd_wf (rs_reader rs) →
  ∃ s', handleUniStream rs s = Ret (true, s') ∧ sess_inv s' ∧ stable s s'.
Proof.
  intros Hinv Hwf. unfold handleUniStream.
  destruct (quicvarint_Read (rs_reader rs)) as [res r'] eqn:Hr. apply Read_ok in Hr; [|done].
  destruct (quicvarint_Parse _) as [[v n]|e].
  - destruct Hr as [-> (_ & _ & Hwf')]. by apply HandleUniStream_inv.
  - destruct Hr as [e' ->]. eexists; split_and!; try done. by apply sess_inv_emit.
Qed.

Lemma rd_wf_bool r : negb (rd_eager r) || is_EOF (rd_err r) = true → rd_wf r.
Proof. intros Hb He. rewrite He in Hb. by apply is_EOF_spec. Qed.

Lemma run_single_moves o s : op_single o = true → tables_inv s → op_ok o s = true →
  ∃ s', run_op o s = Ret s' ∧ tables_inv s' ∧ quiet s s'.
Proof.
  intros Hs Ht Hok. destruct o; simpl in *; try done; rewrite ?andb_true_iff, ?bool_decide_eq_true in Hok.
  - destruct Hok as [Hr Hl]. destruct (app_WriteStream_moves r packet s Ht Hr) as (? & s' & -> & ?);
      [unfold varint_ok; lia|by exists s'].
  - by apply on_stream_moves, CloseStream_calls.
  - by apply on_stream_moves, CancelStream_calls.
  - destruct (closeSendFlow_moves r s Ht Hok) as (? & s' & -> & ? & ? & _). by exists s'.
  - destruct (app_Read_moves r prefer buf s Ht Hok) as ([[x s']|] & -> & Hres); simpl.
    + exists s'. split; [done|]. by eapply Hres.
    + exists s. split_and!; [done..|apply quiet_refl].
  - by apply app_SetReadDeadline_moves.
Qed.

(** Calls that send do not touch the receive flows. *)
Lemma send_ops_rfs o s s' : run_op o s = Ret s' →
  match o with
  | ONewSendFlow _ | OWriteDatagram _ _ | ONewSendStream _ _ _ | OWriteStream _ _ | OCloseStream _
  | OCancelStream _ _ | OCloseSendFlow _ => s_rfs s' = s_rfs s
  | _ => True
  end.
Proof.
  intros Hrun. destruct o as [id|id|r p|r p i|r p|r|r code|r|r pr buf|r t now|r|d|id rs]; try done; simpl in Hrun.
  - unfold NewSendFlow in Hrun. destruct (Session_isClosed s); [by injection Hrun as <-|].
    unfold NewSendFlow_insert in Hrun. destruct (newFlow _ _ _); [|done]. simpl in Hrun.
    destruct (smap.getOrInsert _ _ _) as [[v ins] m]. by destruct ins; injection Hrun as <-.
  - unfold app_WriteDatagram in Hrun. destruct (deref _ r); [|done]. simpl in Hrun.
    destruct (SendFlow_WriteRTPBytes _ _ _) as [[? ?] ?]. by injection Hrun as <-.
  - unfold app_NewSendStream in Hrun. destruct (deref _ r); [|done]. simpl in Hrun.
    destruct (NewSendStream _ _ _ _ _) as [[[[? ?] ?] ?] ?]. by injection Hrun as <-.
  - unfold app_WriteStream in Hrun. destruct (deref _ r); [|done]. simpl in Hrun.
    destruct (WriteRTPBytes _ _ _) as [[[[? ?] ?] ?]|]; [|done]. by injection Hrun as <-.
  - unfold on_stream in Hrun. destruct (deref _ r); [|done]. by injection Hrun as <-.
  - unfold on_stream in Hrun. destruct (deref _ r); [|done]. by injection Hrun as <-.
  - unfold closeSendFlow in Hrun. destruct (deref _ r); [|done]. simpl in Hrun.
    destruct (SendFlow_Close _ _ _ _ _) as [[[[? ?] ?] ?]|]; [|done]. by injection Hrun as <-.
Qed.

(** Every call returns and keeps the invariant. *)
Lemma run_op_inv o s : sess_inv s → op_ok o s = true → op_fits o = true →
  ∃ s', run_op o s = Ret s' ∧ sess_inv s' ∧ stable s s'.
Proof.
  intros Hinv Hok Hfit. destruct (op_single o) eqn:Hsingle.
  { destruct (run_single_moves o s Hsingle (proj1 Hinv) Hok) as (s' & ? & ? & ?).
    exists s'. split; [done|by apply quiet_sess]. }
  destruct o; simpl in *; try done; rewrite ?andb_true_iff, ?bool_decide_eq_true in Hok.
  - apply bool_decide_eq_true in Hfit.
    destruct (NewSendFlow_spec id s Hinv (conj (proj1 Hok) Hfit)) as (res & s' & -> & ? & Hc). exists s'. split_and!; try done.
    intros Hcl. destruct (s_closedErr s) eqn:Hce; [|done]. by destruct Hc as [_ ->].
  - destruct (NewReceiveFlow_spec id s Hinv) as (res & s' & -> & ? & Hc). exists s'. split_and!; try done.
    intros Hcl. destruct (s_closedErr s) eqn:Hce; [|done]. by destruct Hc as [_ ->].
  - destruct (app_WriteDatagram_inv r packet s Hinv Hok) as (? & s' & -> & ?). by exists s'.
  - destruct (app_NewSendStream_inv r priority incremental s Hinv Hok) as (? & s' & -> & ?). by exists s'.
  - destruct (closeReceiveFlow_inv r s Hinv Hok) as (? & s' & -> & ?). by exists s'.
  - by apply HandleDatagram_inv.
  - destruct Hok as [Hwf _].
    destruct (HandleUniStream_inv id rs s Hinv) as (s' & -> & ?); [by apply rd_wf_bool|by exists s'].
Qed.

(** The exception: an open session panics. *)
Lemma NewSendFlow_overlong id s : (2 ^ 62 ≤ id < 2 ^ 64)%Z → NewSendFlow_insert id s = Panic PanicVarintRange.
Proof. intros Hid. unfold NewSendFlow_insert. by rewrite newFlow_panics. Qed.

Lemma run_op_overlong o s : op_ok o s = true → op_fits o = false →
  ∃ id, o = ONewSendFlow id ∧ (2 ^ 62 ≤ id)%Z ∧
    match s_closedErr s with
    | None => run_op o s = Panic PanicVarintRange
    | Some _ => run_op o s = Ret s
    end.
Proof.
  destruct o; try done. simpl. rewrite bool_decide_eq_true, bool_decide_eq_false. intros Hok Hfit.
  exists id. split_and!; [done|lia|]. unfold NewSendFlow, Session_isClosed.
  destruct (s_closedErr s); [done|]. simpl. rewrite NewSendFlow_overlong; [done|lia].
Qed.

Lemma run_op_cases o s m : sess_inv s → op_ok o s = true → run_op o s = m →
  (∃ s', m = Ret s' ∧ sess_inv s' ∧ stable s s') ∨ op_fits o = false ∧ m = Panic PanicVarintRange.
Proof.
  intros Hinv Hok <-. destruct (op_fits o) eqn:Hfit; [left; by apply run_op_inv|].
  destruct (run_op_overlong o s Hok Hfit) as (id & -> & _ & Hm).
  destruct (s_closedErr s) eqn:He; [left; exists s; by rewrite Hm|by right].
Qed.

Record sc_inv (c : sconfig C) : Prop := {
  ci_sess : sess_inv (sc_sess c);
  ci_handlers : Forall (λ rs, rd_wf (rs_reader rs)) (sc_handlers c);
  ci_closing : 0 < sc_closing c ∨ sc_returned c ≠ [] → s_closedErr (sc_sess c) ≠ None;
  ci_returned : Forall (λ e, e = s_connCloseErr (sc_sess c)) (sc_returned c)
}.

(** Another session state in the same configuration. *)
Lemma sc_inv_step s s' loops loops' hs hs' n ret :
  sc_inv (mkConfigS s loops hs n ret) → sess_inv s' → stable s s' → hs' ⊆ hs →
  sc_inv (mkConfigS s' loops' hs' n ret).
Proof.
  intros [Hs Hh Hc Hr] Hs' Hst Hsub. simpl in *. split; simpl; try done.
  - apply Forall_forall. intros rs Hin. rewrite Forall_forall in Hh. auto.
  - intros Hcl. destruct (Hst (Hc Hcl)) as [-> _]. auto.
  - destruct ret as [|e ret]; [constructor|]. destruct Hst as [_ ->]; [|done]. apply Hc. by right.
Qed.

Lemma stable_trans s1 s2 s3 : stable s1 s2 → stable s2 s3 → stable s1 s3.
Proof.
  intros H12 H23 Hne. destruct (H12 Hne) as [E1 E2]. destruct H23 as [E3 E4]; [congruence|].
  split; congruence.
Qed.

Lemma Close_finish_spec s : sess_inv s →
  ∃ s', Close_finish s = (s_connCloseErr s, s') ∧ sess_inv s' ∧ stable s s' ∧
    s_connCloseErr s' = s_connCloseErr s.
Proof.
  intros Hinv. unfold Close_finish. destruct (s_qlogClosed s); [by exists s|].
  destruct (s_qlog s) as [q|]; [|by exists s]. eexists; split_and!; try done.
  destruct (sess_inv_emit (close_qlog (Some q)) s Hinv) as [[? ? ? ? ? ? ?] Hst]. split; [by split|done].
Qed.

(** An iteration of a receive loop. *)
Lemma receive_datagram_ok s loops hs n ret m : sc_inv (mkConfigS s loops hs n ret) →
  sexec LReceiveDatagram (mkConfigS s loops hs n ret) = Some m → ∃ c', m = Ret c' ∧ sc_inv c' ∧ stable s (sc_sess c').
Proof.
  intros Hc He. pose proof (ci_sess _ Hc) as Hinv. simpl in Hinv. cbn [sexec] in He. case_decide; [|done].
  destruct (conn_ReceiveDatagram s) as [[res s1]|] eqn:Hr; [|done]. injection He as <-.
  destruct (conn_ReceiveDatagram_moves s res s1 (proj1 Hinv) Hr) as [Ht Hq].
  destruct (quiet_sess s s1 Hinv Ht Hq) as [Hinv1 Hst1]. destruct res as [d|err].
  - destruct (HandleDatagram_inv d s1 Hinv1) as (s' & -> & ? & Hst2). eexists; split; [done|].
    pose proof (stable_trans s s1 s' Hst1 Hst2). split; [by eapply sc_inv_step|done].
  - eexists; split; [done|]. split; [by eapply sc_inv_step|done].
Qed.

Lemma accept_stream_ok s loops hs n ret m : sc_inv (mkConfigS s loops hs n ret) →
  sexec LAcceptStream (mkConfigS s loops hs n ret) = Some m → ∃ c', m = Ret c' ∧ sc_inv c' ∧ stable s (sc_sess c').
Proof.
  intros Hc He. pose proof (ci_sess _ Hc) as Hinv. simpl in Hinv. cbn [sexec] in He. case_decide; [|done].
  destruct (conn_AcceptUniStream s) as [[res s1]|] eqn:Hr; [|done]. injection He as <-.
  destruct (conn_AcceptUniStream_moves s res s1 (proj1 Hinv) Hr) as (Ht & Hq & Hwf).
  destruct (quiet_sess s s1 Hinv Ht Hq) as [Hinv1 Hst1]. destruct res as [rs|err].
  - eexists; split; [done|]. split; [|done].
    assert (sc_inv (mkConfigS s1 loops hs n ret)) as [? Hh ? ?] by (by eapply sc_inv_step).
    split; simpl; try done. apply Forall_app. split; [done|]. apply Forall_singleton. auto.
  - eexists; split; [done|]. split; [by eapply sc_inv_step|done].
Qed.

(** [NewSendFlow] with an ID that does not fit. *)
Definition label_fits (l : slabel) : bool := match l with LOp o => op_fits o | _ => true end.

Lemma sexec_cases l (c : sconfig C) m : sc_inv c → sexec l c = Some m →
  (∃ c', m = Ret c' ∧ sc_inv c' ∧ stable (sc_sess c) (sc_sess c')) ∨
  label_fits l = false ∧ m = Panic PanicVarintRange.
Proof.
  destruct c as [s loops hs n ret]. intros Hc He. pose proof (ci_sess _ Hc) as Hinv. simpl in Hinv.
  destruct l; cbn [sexec] in He.
  - destruct (op_ok o s) eqn:Hok; [|done]. injection He as <-.
    destruct (run_op_cases o s _ Hinv Hok eq_refl) as [(s' & -> & ? & ?)|[? ->]]; [left|by right].
    eexists; split; [done|]. split; [by eapply sc_inv_step|done].
  - left. injection He as <-. destruct (conn_handle_moves ev s (proj1 Hinv)) as [Ht Hq].
    destruct (quiet_sess s _ Hinv Ht Hq). eexists; split; [done|]. split; [by eapply sc_inv_step|done].
  - left. by apply (receive_datagram_ok s loops hs n ret m).
  - left. by apply (accept_stream_ok s loops hs n ret m).
  - left. destruct (hs !! i) as [rs|] eqn:Hi; [|done]. cbn [mbind option_bind] in He.
    destruct (Read_waits _ _); [done|]. injection He as <-.
    pose proof (ci_handlers _ Hc) as Hh. simpl in Hh.
    destruct (handleUniStream_inv rs s Hinv (Forall_lookup_1 _ _ _ _ Hh Hi)) as (s' & -> & ? & ?).
    eexists; split; [done|]. split; [|done]. eapply sc_inv_step; eauto.
    intros x. by apply list_elem_of_delete_inv.
  - left. injection He as <-. destruct (Session_close_inv ErrRoQNoError "" s Hinv) as (s' & -> & Hinv' & Hsd & Hst).
    eexists; split; [done|]. split; [|intros Hne; by rewrite Hst].
    destruct Hc as [? Hh Hcl Hr]. simpl in *. split; simpl; try done.
    + intros _. destruct (s_closedErr s) eqn:Hce; [rewrite Hst by done; congruence|].
      destruct (Hsd eq_refl) as [-> _]. done.
    + destruct ret; [constructor|]. rewrite Hst; [done|]. apply Hcl. by right.
  - left. destruct n as [|n]; [done|]. destruct loops; [|done]. destruct hs; [|done].
    destruct (Close_finish_spec s Hinv) as (s' & Hf & Hinv' & Hst & Hcce). rewrite Hf in He.
    injection He as <-. eexists; split; [done|]. split; [|done]. destruct Hc as [? Hh Hcl Hr]. simpl in *.
    assert (s_closedErr s ≠ None) as Hne by (apply Hcl; left; lia).
    split; simpl; try done.
    + intros _. by destruct (Hst Hne) as [-> _].
    + rewrite Hcce. apply Forall_app. split; [done|]. by apply Forall_singleton.
Qed.

Lemma sexec_spec l (c : sconfig C) m : sc_inv c → label_fits l = true → sexec l c = Some m →
  ∃ c', m = Ret c' ∧ sc_inv c' ∧ stable (sc_sess c) (sc_sess c').
Proof. intros Hc Hfit He. destruct (sexec_cases l c m Hc He) as [?|[? _]]; [done|congruence]. Qed.

Lemma sexec_ret l (c c' : sconfig C) : sc_inv c → sexec l c = Some (Ret c') →
  sc_inv c' ∧ stable (sc_sess c) (sc_sess c').
Proof. intros Hc He. by destruct (sexec_cases l c _ Hc He) as [(? & [= <-] & ?)|[_ ?]]. Qed.

Lemma sreachable_inv (c : sconfig C) : sreachable c → sc_inv c.
Proof.
  intros (conn & tr & acc & config & loops & Hok & Hcc & _ & Hsteps).
  assert (sc_inv (mkConfigS (newSession conn tr acc config) loops [] 0 [])) as Hinit.
  { split; simpl; [by apply newSession_inv|constructor| |constructor]. intros [?|?]; [lia|done]. }
  clear Hok Hcc. revert Hsteps Hinit. generalize (mkConfigS (newSession conn tr acc config) loops [] 0 []).
  intros c0 Hsteps Hinit. induction Hsteps as [|c1 c2 c3 [l Hstep] _ IH]; [done|]. apply IH; clear IH.
  by destruct (sexec_ret l c1 c2 Hinit Hstep).
Qed.
End invariant.
