(* ===== verification/SessionConcurrent.v ===== *)
(** * Concurrent calls on a session, step by step

    In SessionSteps.v a call is one step. Here the calls that take more than one
    lock are cut where they release one, so that other goroutines run in between: a
    call is a [task] that stands somewhere in the code, and [close] is a [closer] in
    one of its phases. A step is a critical section of an inner lock (of a table, of
    a flow, of a stream) with what follows it up to the next one. The reader of a
    stream is cut into its registration, the frames it reads and its end, [Close] of
    a receive flow into its three sections; that a push fills its buffer outside the
    lock, and a [Read] waits and copies outside it, is in FlowSteps.v.

    A goroutine that reads a stream is blocked while there is no whole frame, or no flow
    ID, and the stream has neither ended nor been cancelled. The handlers of streams
    begin in any order. [NewSendFlow] takes any 64-bit ID, and panics if it has no
    encoding.

    [close] holds the mutex of the session all the time, so that there is one closer
    at most, and [isClosed] waits for it. The mutex keeps nobody from the tables: a
    call that looked at [isClosed] before registers its flow whatever [close] is
    doing. [xc_lateS], [xc_lateR] and [xc_lateT] record what was registered too late:
    send and receive flows of a closed session, and streams of a closed send flow. *)

From S2P Require Import Prelude GoErrors IO Varint QlogEvent Qlogger Options SyncMap Connection.
From S2P Require Import RTPSendStream SendFlow PacketBuffer Deadline ReceiveFlow ReadStream.
From S2P Require Import ReceiveFlowBuffer Session SessionSpec SessionMoves SessionSteps.

(** Where a call stands. *)
Inductive task :=
  | TNewSendFlow (id : Z)                          (* past isClosed *)
  | TNewReceiveFlow (id : Z)                       (* past isClosed *)
  | TWriteDatagram (r : nat) (packet : list byte)  (* past isClosed of the flow *)
  | TOpenStream (r : nat) (priority : Z) (incremental : bool)  (* past isClosed of the flow *)
  | TAppendStream (r : nat) (stream : RTPSendStream)           (* has opened the stream *)
  | TDeliver (flowID : Z) (d : list byte) (r : nat)            (* HandleDatagram has its flow *)
  | TRegister (rs : ReceiveStream) (r : nat)                   (* the stream has its flow *)
  | TReadFrame (rs : ReceiveStream) (rd : reader) (r : nat)    (* readStream, in its loop *)
  | TUnregister (rs : ReceiveStream) (r : nat)                 (* and at its end *)
  | TCloseBuffer (r : nat)                                     (* Close of a receive flow *)
  | TCloseStreams (r : nat).

(** The goroutine a call runs on: one of the application, [receiveDatagrams], or one
    of a [handleUniStream]. *)
Inductive owner := ByApp | ByLoop | ByHandler.

#[global] Instance owner_eq_dec : EqDecision owner.
Proof. solve_decision. Defined.

(** Where [close] stands, with the flows of its snapshots it has not closed yet. *)
Inductive phase :=
  | PSnapshot                      (* closedErr is set *)
  | PSend (l : list (Z * nat))
  | PReceive (l : list (Z * nat))
  | PCloseBuffer (r : nat) (l : list (Z * nat))    (* the context of r is cancelled *)
  | PCloseStreams (r : nat) (l : list (Z * nat))   (* its buffer is closed *)
  | PCancel.                       (* the connection is closed *)

(** [cl_owner] is [None] for the [close] of [Session.Close]. *)
Record closer := mkCloser {
  cl_code : Z;
  cl_reason : string;
  cl_phase : phase;
  cl_owner : option owner
}.

Record xconfig (C : Type) := mkConfigX {
  xc_sess : Session C;
  xc_closer : option closer;
  xc_tasks : list (owner * task);
  xc_loops : list loop;
  xc_handlers : list ReceiveStream;
  xc_waiting : nat;                      (* Close calls in wg.Wait *)
  xc_returned : list (option goerror);   (* what Close calls have returned *)
  xc_lateS : list nat;
  xc_lateR : list nat;
  xc_lateT : list nat
}.
Arguments mkConfigX {C} _ _ _ _ _ _ _ _ _ _.
Arguments xc_sess {C} _.
Arguments xc_closer {C} _.
Arguments xc_tasks {C} _.
Arguments xc_loops {C} _.
Arguments xc_handlers {C} _.
Arguments xc_waiting {C} _.
Arguments xc_returned {C} _.
Arguments xc_lateS {C} _.
Arguments xc_lateR {C} _.
Arguments xc_lateT {C} _.

Inductive xlabel :=
  | XNewSendFlow (id : Z)
  | XNewReceiveFlow (id : Z)
  | XWriteDatagram (r : nat) (packet : list byte)
  | XNewSendStream (r : nat) (priority : Z) (incremental : bool)
  | XCloseReceiveFlow (r : nat)
  | XOp (o : op)                          (* a call that is one critical section *)
  | XHandleDatagram (d : list byte)
  | XHandleUniStream (id : Z) (rs : ReceiveStream)
  | XTask (i : nat)                       (* a call goes on *)
  | XClose                                (* Close begins *)
  | XCloseStep                            (* close goes on *)
  | XCloseReturn                          (* Close returns *)
  | XNetwork (ev : conn_event)            (* something happens to the connection *)
  | XReceiveDatagram                      (* receiveDatagrams gets a result *)
  | XAcceptStream                         (* receiveUniStreams gets a result *)
  | XHandler (i : nat).                   (* a handleUniStream goroutine begins *)

(** Updates of a configuration. *)
Definition xwith_sess {C} (s : Session C) (c : xconfig C) : xconfig C :=
  mkConfigX s (xc_closer c) (xc_tasks c) (xc_loops c) (xc_handlers c) (xc_waiting c) (xc_returned c)
    (xc_lateS c) (xc_lateR c) (xc_lateT c).
Definition xwith_closer {C} cl (c : xconfig C) : xconfig C :=
  mkConfigX (xc_sess c) cl (xc_tasks c) (xc_loops c) (xc_handlers c) (xc_waiting c) (xc_returned c)
    (xc_lateS c) (xc_lateR c) (xc_lateT c).
Definition xwith_tasks {C} ts (c : xconfig C) : xconfig C :=
  mkConfigX (xc_sess c) (xc_closer c) ts (xc_loops c) (xc_handlers c) (xc_waiting c) (xc_returned c)
    (xc_lateS c) (xc_lateR c) (xc_lateT c).
Definition xwith_goroutines {C} loops handlers (c : xconfig C) : xconfig C :=
  mkConfigX (xc_sess c) (xc_closer c) (xc_tasks c) loops handlers (xc_waiting c) (xc_returned c)
    (xc_lateS c) (xc_lateR c) (xc_lateT c).
Definition xwith_waiting {C} n ret (c : xconfig C) : xconfig C :=
  mkConfigX (xc_sess c) (xc_closer c) (xc_tasks c) (xc_loops c) (xc_handlers c) n ret
    (xc_lateS c) (xc_lateR c) (xc_lateT c).
Definition xwith_late {C} newS newR newT (c : xconfig C) : xconfig C :=
  mkConfigX (xc_sess c) (xc_closer c) (xc_tasks c) (xc_loops c) (xc_handlers c) (xc_waiting c)
    (xc_returned c) (newS ++ xc_lateS c) (newR ++ xc_lateR c) (newT ++ xc_lateT c).

Section steps.
Context `{!QuicVarint, !GoPool, !GoMapOrder} {C : Type} `{!Connection C}.
Implicit Types (s : Session C) (c : xconfig C).

(** A new call, at its first task. *)
Definition spawn (who : owner) (t : task) c : xconfig C := xwith_tasks (xc_tasks c ++ [(who, t)]) c.

(** [receiveDatagrams] is inside [HandleDatagram]. *)
Definition loop_busy c : bool :=
  existsb (λ t, bool_decide (t.1 = ByLoop)) (xc_tasks c) ||
  match xc_closer c with Some cl => bool_decide (cl_owner cl = Some ByLoop) | None => false end.

(** [wg.Wait] returns: no goroutine of the session is left. *)
Definition goroutines_done c : bool :=
  bool_decide (xc_loops c = []) && match xc_handlers c with [] => true | _ => false end &&
  forallb (λ t, bool_decide (t.1 = ByApp)) (xc_tasks c).

(** [close] returns to its caller; [Close] goes on to wait. *)
Definition close_returns (who : option owner) c : xconfig C :=
  match who with
  | None => xwith_waiting (S (xc_waiting c)) (xc_returned c) c
  | Some _ => c
  end.

(** [close] gets the mutex. *)
Definition begin_close (code : Z) (reason : string) (who : option owner) c : option (outcome (xconfig C)) :=
  match xc_closer c with
  | Some _ => None
  | None =>
      let s := xc_sess c in
      match s_closedErr s with
      | Some _ => Some (Ret (close_returns who c))
      | None =>
          let s := set_closed (s_conn s) (Some (mkSessionError code reason)) (s_connCloseErr s)
                     (s_ctxDone s) s in
          Some (Ret (xwith_closer (Some (mkCloser code reason PSnapshot who)) (xwith_sess s c)))
      end
  end.

(** The rest of [close], one flow at a time; a receive flow in its three sections. *)
Definition close_step (code : Z) (reason : string) (p : phase) s : outcome (option phase * Session C) :=
  match p with
  | PSnapshot => Ret (Some (PSend (go_range (elements (s_sendFlows s)))), s)
  | PSend ((_, r) :: l) => '(_, s) ← closeSendFlow r s; Ret (Some (PSend l), s)
  | PSend [] => Ret (Some (PReceive (go_range (elements (s_receiveFlows s)))), s)
  | PReceive ((_, r) :: l) => s ← flow_cancelCtx r s; Ret (Some (PCloseBuffer r l), s)
  | PCloseBuffer r l => s ← flow_closeBuffer r s; Ret (Some (PCloseStreams r l), s)
  | PCloseStreams r l => s ← flow_closeStreams r s; Ret (Some (PReceive l), s)
  | PReceive [] =>
      let '(cerr, c) := CloseWithError code reason (s_conn s) in
      Ret (Some PCancel, set_closed c (s_closedErr s) cerr (s_ctxDone s) s)
  | PCancel => Ret (None, set_closed (s_conn s) (s_closedErr s) (s_connCloseErr s) true s)
  end.

Definition begin_datagram (who : owner) (d : list byte) c : option (outcome (xconfig C)) :=
  match quicvarint_Parse d with
  | inr _ => begin_close ErrRoQPacketError "invalid flow ID" (Some who) c
  | inl (flowID, n) =>
      Some ('(r, s) ← HandleDatagram_lookup flowID n d (xc_sess c);
            Ret (spawn who (TDeliver flowID d r) (xwith_sess s c)))
  end.

Definition begin_stream (who : owner) (flowID : Z) (rs : ReceiveStream) c : outcome (xconfig C) :=
  '(r, s) ← HandleUniStream_lookup flowID rs (xc_sess c);
  Ret (spawn who (TRegister rs r) (xwith_sess s c)).

(** What a task does next: the task it goes on with, if it is not over, and what it
    registers too late. *)
Definition run_task (t : task) s : outcome (option task * Session C * (list nat * list nat * list nat)) :=
  let late {A} (r : A) := match s_closedErr s with Some _ => [r] | None => [] end in
  match t with
  | TNewSendFlow id =>
      '(res, s') ← NewSendFlow_insert id s;
      Ret (None, s', (match res with inl r => late r | inr _ => [] end, [], []))
  | TNewReceiveFlow id =>
      '(res, s') ← NewReceiveFlow_insert id s;
      Ret (None, s', ([], match res with inl r => late r | inr _ => [] end, []))
  | TWriteDatagram r p => '(_, s') ← app_WriteDatagram_send r p s; Ret (None, s', ([], [], []))
  | TOpenStream r p i =>
      '(res, s') ← app_NewSendStream_open r p i s;
      Ret (match res with inl st => Some (TAppendStream r st) | inr _ => None end, s', ([], [], []))
  | TAppendStream r st =>
      f ← deref (s_sfs s) r;
      '(i, s') ← app_NewSendStream_append r st s;
      Ret (None, s', ([], [], match isClosed f with Some _ => [i] | None => [] end))
  | TDeliver id d r => s' ← HandleDatagram_deliver id d r s; Ret (None, s', ([], [], []))
  | TRegister rs r =>
      '(ok, s') ← flow_register rs r s;
      Ret (if (ok : bool) then Some (TReadFrame rs (rs_reader rs) r) else None, s', ([], [], []))
  | TReadFrame rs rd r =>
      '(next, s') ← flow_readFrame (rs_ID rs) rd r s;
      Ret (Some (match next with Some rd => TReadFrame rs rd r | None => TUnregister rs r end), s',
           ([], [], []))
  | TUnregister rs r => s' ← flow_unregister rs r s; Ret (None, s', ([], [], []))
  | TCloseBuffer r => s' ← flow_closeBuffer r s; Ret (Some (TCloseStreams r), s', ([], [], []))
  | TCloseStreams r => s' ← flow_closeStreams r s; Ret (None, s', ([], [], []))
  end.

(** A call that looks at [isClosed] of the session needs its mutex. *)
Definition begin_call (t : task) c : option (outcome (xconfig C)) :=
  match xc_closer c, Session_isClosed (xc_sess c) with
  | Some _, _ => None
  | None, Some _ => Some (Ret c)
  | None, None => Some (Ret (spawn ByApp t c))
  end.

(** One that looks at [isClosed] of the send flow [r]. *)
Definition begin_flow_call (r : nat) (t : task) c : option (outcome (xconfig C)) :=
  if decide (r < length (s_sfs (xc_sess c))) then
    Some (f ← deref (s_sfs (xc_sess c)) r;
          match isClosed f with
          | Some _ => Ret c
          | None => Ret (spawn ByApp t c)
          end)
  else None.

(** A [Read] of a stream blocks: the stream has no bytes left, it has not ended, and
    nobody has cancelled it. Reading a frame blocks when there is no whole frame left;
    for a stream without a flow the handler has to read the flow ID. *)
Definition reading_blocks (id : Z) s : bool :=
  Read_waits id (s_conn s) && negb (existsb (λ x, bool_decide (x.1 = id)) (cancelled (s_effects s))).

Definition frame_ready (d : list byte) : bool :=
  match quicvarint_Parse d with
  | inl (v, n) => bool_decide (v ≤ Z.of_nat (length (drop n d)))%Z
  | inr _ => false
  end.

Definition task_blocked s (t : task) : bool :=
  match t with
  | TReadFrame rs rd _ => negb (frame_ready (rd_data rd)) && reading_blocks (rs_ID rs) s
  | _ => false
  end.

Definition handler_blocked s (rs : ReceiveStream) : bool :=
  match quicvarint_Parse (rd_data (rs_reader rs)) with
  | inl _ => false
  | inr _ => reading_blocks (rs_ID rs) s
  end.

Definition stream_ok (rs : ReceiveStream) : bool :=
  negb (rd_eager (rs_reader rs)) || is_EOF (rd_err (rs_reader rs)).

Definition xexec (l : xlabel) c : option (outcome (xconfig C)) :=
  let s := xc_sess c in
  match l with
  | XNewSendFlow id =>
      if decide (0 ≤ id < 2 ^ 64)%Z then begin_call (TNewSendFlow id) c else None
  | XNewReceiveFlow id => begin_call (TNewReceiveFlow id) c
  | XWriteDatagram r p => begin_flow_call r (TWriteDatagram r p) c
  | XNewSendStream r p i => begin_flow_call r (TOpenStream r p i) c
  | XCloseReceiveFlow r =>
      if decide (r < length (s_rfs s)) then
        Some (s ← flow_cancelCtx r s; Ret (spawn ByApp (TCloseBuffer r) (xwith_sess s c)))
      else None
  | XOp o =>
      if op_single o && op_ok o s then Some (s ← run_op o s; Ret (xwith_sess s c)) else None
  | XHandleDatagram d => begin_datagram ByApp d c
  | XHandleUniStream id rs => if stream_ok rs then Some (begin_stream ByApp id rs c) else None
  | XTask i =>
      '(who, t) ← xc_tasks c !! i;
      if task_blocked s t then None
      else
        Some ('(next, s, (newS, newR, newT)) ← run_task t s;
              let ts := match next with
                        | Some t => <[i := (who, t)]> (xc_tasks c)
                        | None => delete i (xc_tasks c)
                        end in
              Ret (xwith_late newS newR newT (xwith_tasks ts (xwith_sess s c))))
  | XClose => begin_close ErrRoQNoError "" None c
  | XCloseStep =>
      cl ← xc_closer c;
      Some ('(p, s) ← close_step (cl_code cl) (cl_reason cl) (cl_phase cl) s;
            match p with
            | Some p =>
                let cl := mkCloser (cl_code cl) (cl_reason cl) p (cl_owner cl) in
                Ret (xwith_closer (Some cl) (xwith_sess s c))
            | None => Ret (close_returns (cl_owner cl) (xwith_closer None (xwith_sess s c)))
            end)
  | XCloseReturn =>
      match xc_closer c, xc_waiting c, goroutines_done c with
      | None, S n, true =>
          let '(err, s) := Close_finish s in
          Some (Ret (xwith_waiting n (xc_returned c ++ [err]) (xwith_sess s c)))
      | _, _, _ => None
      end
  | XNetwork ev => Some (Ret (xwith_sess (set_conn (conn_handle ev (s_conn s)) s) c))
  | XReceiveDatagram =>
      if decide (LoopDatagrams ∈ xc_loops c) then
        if loop_busy c then None
        else
          '(res, s) ← conn_ReceiveDatagram s;
          let c := xwith_sess s c in
          match res with
          | inl d => begin_datagram ByLoop d c
          | inr _ =>
              Some (Ret (xwith_goroutines (list_difference (xc_loops c) [LoopDatagrams]) (xc_handlers c) c))
          end
      else None
  | XAcceptStream =>
      if decide (LoopUniStreams ∈ xc_loops c) then
        '(res, s) ← conn_AcceptUniStream s;
        let c := xwith_sess s c in
        Some (Ret (match res with
                   | inl rs => xwith_goroutines (xc_loops c) (xc_handlers c ++ [rs]) c
                   | inr _ => xwith_goroutines (list_difference (xc_loops c) [LoopUniStreams]) (xc_handlers c) c
                   end))
      else None
  | XHandler i =>
      rs ← xc_handlers c !! i;
      if handler_blocked s rs then None
      else
        let c := xwith_goroutines (xc_loops c) (delete i (xc_handlers c)) c in
        match quicvarint_Read (rs_reader rs) with
        | (inr _, _) => Some (Ret (xwith_sess (emit [ECancelRead (rs_ID rs) ErrRoQPacketError] s) c))
        | (inl flowID, r) => Some (begin_stream ByHandler flowID (mkReceiveStream (rs_ID rs) r) c)
        end
  end.

Definition xstep (c c' : xconfig C) : Prop := ∃ l, xexec l c = Some (Ret c').

(** A new session. *)
Definition xinit s (loops : list loop) : xconfig C := mkConfigX s None [] loops [] 0 [] [] [] [].

Definition xreachable `{!ConnectionLaws C} (c : xconfig C) : Prop :=
  ∃ conn tr acc config loops, config_ok config ∧ conn_closes (calls conn) = [] ∧
    (loops = [] ∨ loops = start (newSession conn tr acc config)) ∧
    rtc xstep (xinit (newSession conn tr acc config) loops) c.
End steps.

(** ** The invariant *)

Section invariant.
Context `{QuicVarintLaws, !GoPool, !GoMapOrder} {C : Type} `{ConnectionLaws C}.
Implicit Types (s : Session C) (c : xconfig C).

(** What a task relies on still holds when it goes on. *)
Definition task_ok s (t : task) : Prop :=
  match t with
  | TNewSendFlow id => (0 ≤ id < 2 ^ 64)%Z
  | TNewReceiveFlow _ => True
  | TWriteDatagram r _ | TOpenStream r _ _ => r < length (s_sfs s)
  | TAppendStream r st => ∃ f, s_sfs s !! r = Some f ∧ flowIDBytes st = sf_flowID f ∧ flowID st = sf_id f
  | TDeliver id d r => r < length (s_rfs s) ∧ ∃ n, quicvarint_Parse d = inl (id, n)
  | TRegister rs r => r < length (s_rfs s) ∧ rd_wf (rs_reader rs)
  | TReadFrame _ rd r => r < length (s_rfs s) ∧ rd_wf rd
  | TUnregister _ r => r < length (s_rfs s)
  | TCloseBuffer r => ∃ f, s_rfs s !! r = Some f ∧ rf_ctxDone f = true
  | TCloseStreams r => ∃ f, s_rfs s !! r = Some f ∧ rf_closed f = true
  end.

(** The exception: [NewSendFlow] panics on an ID that is no varint. *)
Definition task_fits (t : task) : bool :=
  match t with TNewSendFlow id => bool_decide (id < 2 ^ 62)%Z | _ => true end.

Definition overlong (l : xlabel) c : Prop :=
  ∃ i who id, l = XTask i ∧ xc_tasks c !! i = Some (who, TNewSendFlow id) ∧ (2 ^ 62 ≤ id)%Z.

(** The flows [close] still has to close; [None] before it has a snapshot. *)
Definition send_left (cl : option closer) s : option (list nat) :=
  match cl, s_closedErr s with
  | None, None => None
  | None, Some _ => Some []
  | Some cl, _ => match cl_phase cl with
                  | PSnapshot => None
                  | PSend l => Some l.*2
                  | PReceive _ | PCloseBuffer _ _ | PCloseStreams _ _ | PCancel => Some []
                  end
  end.

Definition receive_left (cl : option closer) s : option (list nat) :=
  match cl, s_closedErr s with
  | None, None => None
  | None, Some _ => Some []
  | Some cl, _ => match cl_phase cl with
                  | PSnapshot | PSend _ => None
                  | PReceive l => Some l.*2
                  | PCloseBuffer r l | PCloseStreams r l => Some (r :: l.*2)
                  | PCancel => Some []
                  end
  end.

(** The session error, the context and the calls that close the connection. *)
Definition closer_ok (cl : option closer) s : Prop :=
  match cl with
  | None =>
      match s_closedErr s with
      | None => s_ctxDone s = false ∧ conn_closes (calls (s_conn s)) = []
      | Some e => s_ctxDone s = true ∧ conn_closes (calls (s_conn s)) = [(code e, reason e)]
      end
  | Some cl =>
      s_closedErr s = Some (mkSessionError (cl_code cl) (cl_reason cl)) ∧ s_ctxDone s = false ∧
      conn_closes (calls (s_conn s)) =
        match cl_phase cl with PCancel => [(cl_code cl, cl_reason cl)] | _ => [] end
  end.

(** How far the closer is with a receive flow. *)
Definition phase_ok (cl : option closer) s : Prop :=
  match cl with
  | None => True
  | Some cl => match cl_phase cl with
               | PCloseBuffer r _ => ∃ f, s_rfs s !! r = Some f ∧ rf_ctxDone f = true
               | PCloseStreams r _ => ∃ f, s_rfs s !! r = Some f ∧ rf_closed f = true
               | _ => True
               end
  end.

(** A receive flow that is closed, with its streams. *)
Definition flow_down s (f : ReceiveFlow) : Prop := rf_closed f = true ∧ streams_cancelled s f.

(** What the shutdown has left, but for what came too late. *)
Record left_ok (cl : option closer) (lateS lateR : list nat) s : Prop := {
  lf_send l k r : send_left cl s = Some l → smap.get k (s_sendFlows s) = Some r → r ∈ l ∨ r ∈ lateS;
  lf_receive l k r f : receive_left cl s = Some l → smap.get k (s_receiveFlows s) = Some r →
    s_rfs s !! r = Some f → flow_down s f ∨ r ∈ l ∨ r ∈ lateR;
  lf_send_lt l : send_left cl s = Some l → Forall (λ r, r < length (s_sfs s)) l;
  lf_receive_lt l : receive_left cl s = Some l → Forall (λ r, r < length (s_rfs s)) l;
  lf_phase : phase_ok cl s
}.

Record xinv c : Prop := {
  xi_tables : tables_inv (xc_sess c);
  xi_closer : closer_ok (xc_closer c) (xc_sess c);
  xi_left : left_ok (xc_closer c) (xc_lateS c) (xc_lateR c) (xc_sess c);
  xi_streams : closed_streams (xc_lateT c) (xc_sess c);
  xi_tasks : Forall (λ t, task_ok (xc_sess c) t.2) (xc_tasks c);
  xi_handlers : Forall (λ rs, rd_wf (rs_reader rs)) (xc_handlers c);
  xi_waiting : 0 < xc_waiting c ∨ xc_returned c ≠ [] ∨ s_qlogClosed (xc_sess c) = true →
    s_closedErr (xc_sess c) ≠ None ∧ xc_closer c = None;
  xi_returned : Forall (λ e, e = s_connCloseErr (xc_sess c)) (xc_returned c);
  xi_qlog : s_qlogClosed (xc_sess c) = true → goroutines_done c = true
}.

(** No call is on its way to register a flow. *)
Definition creates_flow (t : task) : bool :=
  match t with TNewSendFlow _ | TNewReceiveFlow _ => true | _ => false end.

Definition no_creation c : Prop := Forall (λ t, creates_flow t.2 = false) (xc_tasks c).

(** What is settled once the session error is set: the error, that the recorder is
    closed, then, when [close] is done, what [Close] returns; and without calls in
    progress no flow comes late. *)
Definition after_close c c' : Prop := s_closedErr (xc_sess c) ≠ None →
  s_closedErr (xc_sess c') = s_closedErr (xc_sess c) ∧
  (s_qlogClosed (xc_sess c) = true → s_qlogClosed (xc_sess c') = true) ∧
  (xc_closer c = None → xc_closer c' = None ∧ s_connCloseErr (xc_sess c') = s_connCloseErr (xc_sess c)) ∧
  (no_creation c → no_creation c' ∧ xc_lateS c' = xc_lateS c ∧ xc_lateR c' = xc_lateR c).

(** A step returns, in a configuration like that. *)
Definition step_ok c (m : outcome (xconfig C)) : Prop := ∃ c', m = Ret c' ∧ xinv c' ∧ after_close c c'.

Lemma after_close_quiet c c' : quiet (xc_sess c) (xc_sess c') → xc_closer c' = xc_closer c →
  (s_closedErr (xc_sess c) ≠ None → no_creation c → no_creation c') →
  xc_lateS c' = xc_lateS c → xc_lateR c' = xc_lateR c → after_close c c'.
Proof.
  intros M Hcl Hn HS HR Hne. split_and!; [apply M|by rewrite (mv_qlogClosed _ _ _ _ _ M)| |auto]. intros Hnone. split; [congruence|apply M].
Qed.

Lemma after_close_trans c1 c2 c3 : after_close c1 c2 → after_close c2 c3 → after_close c1 c3.
Proof.
  intros H12 H23 Hne. destruct (H12 Hne) as (E1 & Hq1 & Hcl1 & Hn1).
  destruct H23 as (E2 & Hq2 & Hcl2 & Hn2); [congruence|]. split_and!; [congruence|auto|..].
  - intros [? ?]%Hcl1. destruct Hcl2; [done|]. split; congruence.
  - intros (? & ? & ?)%Hn1. destruct Hn2 as (? & ? & ?); [done|]. split_and!; congruence.
Qed.

(** *** What a step that is no part of [close] does to the parts of the invariant *)

Lemma moves_length newS newR newT s s' : moves newS newR newT s s' →
  length (s_sfs s) ≤ length (s_sfs s') ∧ length (s_rfs s) ≤ length (s_rfs s').
Proof.
  intros M. split; apply Nat.nlt_ge.
  - intros [f Hf]%lookup_lt_is_Some_2. apply (mv_sfs _ _ _ _ _ M) in Hf as (f' & Hf'%lookup_lt_Some & _). lia.
  - intros [f Hf]%lookup_lt_is_Some_2. apply (mv_rfs _ _ _ _ _ M) in Hf as (f' & Hf'%lookup_lt_Some & _). lia.
Qed.

Lemma task_ok_moves newS newR newT s s' t : moves newS newR newT s s' → task_ok s t → task_ok s' t.
Proof.
  intros M. destruct (moves_length _ _ _ _ _ M). destruct t; simpl; try done; try lia.
  - intros (f & (f' & ? & ? & ? & _)%(mv_sfs _ _ _ _ _ M) & ? & ?). exists f'. split_and!; congruence.
  - intros [? ?]. split; [lia|done].
  - intros [? ?]. split; [lia|done].
  - intros [? ?]. split; [lia|done].
  - intros (f & (f' & ? & _ & Hx)%(mv_rfs _ _ _ _ _ M) & Hc). exists f'. split; [done|by apply Hx].
  - intros (f & (f' & ? & Hcl & _)%(mv_rfs _ _ _ _ _ M) & Hc). exists f'. auto.
Qed.

Lemma tasks_ok_moves newS newR newT s s' ts : moves newS newR newT s s' →
  Forall (λ t : owner * task, task_ok s t.2) ts → Forall (λ t, task_ok s' t.2) ts.
Proof. intros M Hts. eapply Forall_impl; [done|]. intros t. by eapply task_ok_moves. Qed.

Lemma phase_ok_moves newS newR newT cl s s' : moves newS newR newT s s' → phase_ok cl s → phase_ok cl s'.
Proof.
  intros M. unfold phase_ok. destruct cl as [cl|]; [|done]. destruct (cl_phase cl); try done.
  - intros (f & (f' & ? & _ & Hx)%(mv_rfs _ _ _ _ _ M) & Hc). exists f'. split; [done|by apply Hx].
  - intros (f & (f' & ? & Hcl & _)%(mv_rfs _ _ _ _ _ M) & Hc). exists f'. auto.
Qed.

Lemma flow_down_moves newS newR newT s s' r f f' : tables_inv s → moves newS newR newT s s' →
  s_rfs s !! r = Some f → s_rfs s' !! r = Some f' → flow_down s f → flow_down s' f'.
Proof.
  intros Ht M Hr Hr' [Hcl Hst]. destruct (mv_rfs _ _ _ _ _ M r f Hr) as (f2 & Hr2 & Hc & Hx).
  simplify_eq. split; [auto|]. destruct (Hx (closed_ctx s r f Ht Hr Hcl)) as [_ Hsub].
  destruct (mv_effects _ _ _ _ _ M) as [es Hes]. intros k [x Hk]. rewrite Hes. unfold cancelled.
  rewrite omap_app. apply elem_of_app. left. apply Hst. exists x. by eapply lookup_weaken.
Qed.

Lemma left_moves cl newS newR newT s s' : moves newS newR newT s s' →
  send_left cl s' = send_left cl s ∧ receive_left cl s' = receive_left cl s.
Proof. intros M. unfold send_left, receive_left. by rewrite (mv_closedErr _ _ _ _ _ M). Qed.

Lemma closer_ok_moves newS newR newT cl s s' : moves newS newR newT s s' → closer_ok cl s → closer_ok cl s'.
Proof.
  intros M. destruct (mv_calls _ _ _ _ _ M) as (ks & Hk & Hcc). unfold closer_ok.
  by rewrite Hk, conn_closes_app, Hcc, app_nil_r, (mv_closedErr _ _ _ _ _ M), (mv_ctxDone _ _ _ _ _ M).
Qed.

Lemma left_ok_moves cl newS newR newT lateS lateR lateS' lateR' s s' :
  tables_inv s → moves newS newR newT s s' → left_ok cl lateS lateR s →
  (s_closedErr s = None ∧ cl = None ∨ newS ⊆ lateS' ∧ newR ⊆ lateR') →
  lateS ⊆ lateS' → lateR ⊆ lateR' → left_ok cl lateS' lateR' s'.
Proof.
  intros Ht M [Hs Hr Hsl Hrl Hph] Hnew HsubS HsubR. destruct (left_moves cl _ _ _ _ _ M) as [ES ER].
  destruct (moves_length _ _ _ _ _ M) as [LS LR].
  assert (s_closedErr s = None ∧ cl = None → send_left cl s = None ∧ receive_left cl s = None) as Hopen.
  { unfold send_left, receive_left. by intros [-> ->]. }
  split; rewrite ?ES, ?ER.
  - intros l k r Hl [Hg|Hin]%(mv_send _ _ _ _ _ M).
    + destruct (Hs l k r Hl Hg); auto.
    + destruct Hnew as [[E _]%Hopen|[? _]]; [congruence|auto].
  - intros l k r f' Hl [Hg|Hin]%(mv_receive _ _ _ _ _ M) Hf'.
    + destruct (ti_receive s Ht k r Hg) as (f & Hf & _).
      destruct (Hr l k r f Hl Hg Hf) as [Hd|[?|?]]; auto. left. by eapply flow_down_moves.
    + destruct Hnew as [[_ E]%Hopen|[_ ?]]; [congruence|auto].
  - intros l Hl. eapply Forall_impl; [by apply Hsl|]. simpl. lia.
  - intros l Hl. eapply Forall_impl; [by apply Hrl|]. simpl. lia.
  - by eapply phase_ok_moves.
Qed.

Lemma left_ok_quiet cl lateS lateR s s' : tables_inv s → quiet s s' →
  left_ok cl lateS lateR s → left_ok cl lateS lateR s'.
Proof.
  intros Ht M Hl. apply (left_ok_moves cl [] [] [] lateS lateR lateS lateR s s'); try done.
  right. split; apply list_subseteq_nil.
Qed.

Lemma goroutines_done_spec c : goroutines_done c = true ↔
  xc_loops c = [] ∧ xc_handlers c = [] ∧ Forall (λ t, t.1 = ByApp) (xc_tasks c).
Proof.
  unfold goroutines_done. rewrite !andb_true_iff, bool_decide_eq_true, forallb_forall, Forall_forall.
  setoid_rewrite <- list_elem_of_In. setoid_rewrite bool_decide_eq_true.
  destruct (xc_handlers c); naive_solver.
Qed.

(** A step of a call: the session moves, and tasks and goroutines change. *)
Lemma xinv_moves newS newR newT lS lR s s' cl ts ts' loops loops' hs hs' n ret lateS lateR lateT :
  xinv (mkConfigX s cl ts loops hs n ret lateS lateR lateT) →
  tables_inv s' → moves newS newR newT s s' →
  (s_closedErr s = None ∧ cl = None ∨ newS ⊆ lS ∧ newR ⊆ lR) →
  Forall (λ t, task_ok s' t.2) ts' → Forall (λ rs, rd_wf (rs_reader rs)) hs' →
  (goroutines_done (mkConfigX s cl ts loops hs n ret lateS lateR lateT) = true →
   goroutines_done (mkConfigX s' cl ts' loops' hs' n ret lateS lateR lateT) = true) →
  xinv (mkConfigX s' cl ts' loops' hs' n ret (lS ++ lateS) (lR ++ lateR) (newT ++ lateT)).
Proof.
  intros [Ht Hcl Hl Hst _ _ Hw Hr Hq] Ht' M Hnew Hts Hhs Hg. simpl in *. split; simpl; try done.
  - by eapply closer_ok_moves.
  - apply (left_ok_moves cl newS newR newT lateS lateR _ _ s s'); [done..| | |].
    + destruct Hnew as [?|[? ?]]; [by left|right]. split; by apply list_subseteq_app_l.
    + by apply list_subseteq_app_r.
    + by apply list_subseteq_app_r.
  - by apply (mv_closed _ _ _ _ _ M).
  - rewrite (mv_closedErr _ _ _ _ _ M), (mv_qlogClosed _ _ _ _ _ M). auto.
  - by rewrite (mv_connCloseErr _ _ _ _ _ M).
  - rewrite (mv_qlogClosed _ _ _ _ _ M). auto.
Qed.

(** One that registers nothing. *)
Lemma xinv_quiet s s' cl ts ts' loops loops' hs hs' n ret lateS lateR lateT :
  xinv (mkConfigX s cl ts loops hs n ret lateS lateR lateT) → tables_inv s' → quiet s s' →
  Forall (λ t, task_ok s' t.2) ts' → Forall (λ rs, rd_wf (rs_reader rs)) hs' →
  (goroutines_done (mkConfigX s cl ts loops hs n ret lateS lateR lateT) = true →
   goroutines_done (mkConfigX s' cl ts' loops' hs' n ret lateS lateR lateT) = true) →
  xinv (mkConfigX s' cl ts' loops' hs' n ret lateS lateR lateT).
Proof. intros Hx Ht Hq Hts Hhs Hg. apply (xinv_moves [] [] [] [] [] s s' cl ts ts' loops loops' hs hs'); auto. Qed.

(** A call begins, with its first task. *)
Lemma spawn_ok c t who s' : xinv c → tables_inv s' → quiet (xc_sess c) s' → task_ok s' t →
  (goroutines_done c = true → who = ByApp) → (s_closedErr (xc_sess c) ≠ None → creates_flow t = false) →
  step_ok c (Ret (spawn who t (xwith_sess s' c))).
Proof.
  destruct c as [s cl ts loops hs n ret lateS lateR lateT]. intros Hx Ht Hq Hok Hwho Hcr. simpl in *.
  unfold spawn, xwith_sess, xwith_tasks; simpl. eexists; split; [done|]. split.
  2:{ apply after_close_quiet; try done. intros Hne. specialize (Hcr Hne). unfold no_creation. simpl.
    intros Hno. apply Forall_app. split; [done|]. by apply Forall_singleton. }
  eapply xinv_quiet; [done..| | |].
  - apply Forall_app. split; [|by apply Forall_singleton].
    eapply tasks_ok_moves; [exact Hq|apply (xi_tasks _ Hx)].
  - apply (xi_handlers _ Hx).
  - intros Hg. rewrite (Hwho Hg). apply goroutines_done_spec in Hg as (? & ? & ?). apply goroutines_done_spec.
    simpl in *. split_and!; try done. apply Forall_app. split; [done|]. by apply Forall_singleton.
Qed.

(** *** The steps *)

Lemma xi_open c : xinv c → s_closedErr (xc_sess c) = None → xc_closer c = None.
Proof.
  intros Hx Ho. pose proof (xi_closer c Hx) as Hcl. unfold closer_ok in Hcl.
  destruct (xc_closer c); [|done]. rewrite Ho in Hcl. by destruct Hcl.
Qed.

(** A task goes on: it registers nothing but what it reports, in a closed session. *)
Lemma run_task_ok t s : tables_inv s → task_ok s t → task_fits t = true →
  ∃ next s' newS newR newT mS mR, run_task t s = Ret (next, s', (newS, newR, newT)) ∧ tables_inv s' ∧
    moves mS mR newT s s' ∧ (s_closedErr s = None ∨ mS = newS ∧ mR = newR) ∧
    (∀ t', next = Some t' → task_ok s' t' ∧ creates_flow t' = false) ∧
    (creates_flow t = false → newS = [] ∧ newR = []).
Proof.
  intros Ht Hok Hfit. destruct t; simpl in *.
  - apply bool_decide_eq_true in Hfit.
    destruct (NewSendFlow_insert_spec id s Ht (conj (proj1 Hok) Hfit)) as (f & m & res & s' & -> & Ht' & -> & _ & Hfo & _ & Hcase).
    bind_simpl. eexists _, _, _, _, _, (match res with inl r => [r] | inr _ => [] end), [].
    split_and!; try done.
    + apply moves_new_sf; try done. intros k r Hk. destruct (smap.get id (s_sendFlows s)).
      * destruct Hcase as [-> ->]. by left.
      * destruct Hcase as [-> ->]. rewrite smap.get_set in Hk. case_decide; [|by left].
        injection Hk as <-. right. apply list_elem_of_here.
    + destruct (s_closedErr s), res; auto.
  - destruct (NewReceiveFlow_insert_spec id s Ht) as (res & s' & -> & Ht' & Hcase). bind_simpl.
    eexists _, _, _, _, _, [], (match res with inl r => [r] | inr _ => [] end). split_and!; try done.
    + destruct (smap.get id (s_receiveFlows s)); [destruct Hcase as [-> ->]; apply quiet_refl|].
      destruct Hcase as (r & b & new & f & -> & -> & _). rewrite <- (emit_nil (set_receive _ _ _ s)).
      apply moves_new_rfs. intros k r0. rewrite smap.get_set. case_decide; [|by left].
      intros [= <-]. right. apply list_elem_of_here.
    + destruct (s_closedErr s), res; auto.
  - destruct (app_WriteDatagram_send_moves r packet s Ht Hok) as (err & s' & -> & ? & ?). bind_simpl.
    eexists _, _, _, _, _, _, _. split_and!; try done. by right.
  - destruct (app_NewSendStream_open_moves r priority incremental s Ht Hok)
      as (res & s' & -> & ? & ? & Hsfs & _ & Hst). bind_simpl.
    eexists _, _, _, _, _, _, _. split_and!; try done; [by right|].
    intros t'. destruct res as [st|]; [|done]. intros [= <-]. simpl. rewrite Hsfs. auto.
  - destruct Hok as (f & Hr & ? & ?). unfold deref. rewrite Hr. bind_simpl.
    destruct (app_NewSendStream_append_moves r f stream s Ht Hr) as (s' & -> & ? & ?); [done..|]. bind_simpl.
    eexists _, _, _, _, _, _, _. split_and!; try done. by right.
  - destruct Hok as [Hr [n Hp]]. destruct (HandleDatagram_deliver_moves _ n d r s Ht Hr Hp) as (s' & -> & ? & ?).
    bind_simpl. eexists _, _, _, _, _, _, _. split_and!; try done. by right.
  - destruct Hok as [Hr Hwf]. destruct (flow_register_moves rs r s Ht Hr) as (ok & s' & -> & ? & M).
    bind_simpl. eexists _, _, _, _, _, _, _. split_and!; try done; [by right|].
    intros t'. destruct ok; [|done]. intros [= <-]. destruct (moves_length _ _ _ _ _ M). simpl. split_and!; [lia|done..].
  - destruct Hok as [Hr Hwf].
    destruct (flow_readFrame_moves (rs_ID rs) rd r s Ht Hr Hwf) as (next & s' & -> & ? & M & Hnext).
    bind_simpl. eexists _, _, _, _, _, _, _. split_and!; try done; [by right|].
    destruct (moves_length _ _ _ _ _ M). intros t' [= <-]. destruct next as [rd'|]; simpl; (split; [|done]).
    + split; [lia|]. by apply Hnext.
    + lia.
  - destruct (flow_unregister_moves rs r s Ht Hok) as (s' & -> & ? & ?).
    bind_simpl. eexists _, _, _, _, _, _, _. split_and!; try done. by right.
  - destruct Hok as (f & Hr & Hx). destruct (flow_closeBuffer_moves r f s Ht Hr Hx) as (s' & f' & -> & ? & ? & ? & ?).
    bind_simpl. eexists _, _, _, _, _, _, _. split_and!; try done; [by right|].
    intros t' [= <-]. simpl. eauto.
  - destruct Hok as (f & Hr & Hc). destruct (flow_closeStreams_moves r f s Ht Hr) as (s' & -> & ? & ? & _).
    bind_simpl. eexists _, _, _, _, _, _, _. split_and!; try done. by right.
Qed.

Lemma run_task_overlong t s : task_ok s t → task_fits t = false → run_task t s = Panic PanicVarintRange.
Proof.
  destruct t; try done. simpl. rewrite bool_decide_eq_false. intros Hok Hfit.
  rewrite NewSendFlow_overlong; [done|lia].
Qed.

Lemma run_task_fits t s x : task_ok s t → run_task t s = Ret x → task_fits t = true.
Proof. intros Hok Hrun. destruct (task_fits t) eqn:Hf; [done|]. by rewrite run_task_overlong in Hrun. Qed.

(** A task that can go on returns, unless it panics. *)
Lemma xexec_task c i m : xinv c → xexec (XTask i) c = Some m →
  step_ok c m ∨ overlong (XTask i) c ∧ m = Panic PanicVarintRange.
Proof.
  destruct c as [s cl ts loops hs n ret lateS lateR lateT]. intros Hx. cbn [xexec xc_tasks xc_sess].
  destruct (ts !! i) as [[who t]|] eqn:Hi; [|done]. cbn [mbind option_bind].
  destruct (task_blocked s t); [done|]. intros [= <-].
  pose proof (xi_tables _ Hx) as Ht. pose proof (xi_tasks _ Hx) as Hts. simpl in *.
  pose proof (Forall_lookup_1 _ _ _ _ Hts Hi) as Hok. destruct (task_fits t) eqn:Hfit.
  2:{ right. split; [|by rewrite run_task_overlong]. destruct t; try done.
    apply bool_decide_eq_false in Hfit. exists i, who, id. split_and!; [done..|lia]. }
  left. destruct (run_task_ok t s Ht Hok Hfit)
    as (next & s' & newS & newR & newT & mS & mR & -> & Ht' & M & Hnew & Hnext & Hlate).
  bind_simpl. eexists; split; [done|]. unfold xwith_late, xwith_tasks, xwith_sess; simpl. split.
  2:{ intros _. simpl. split_and!; [apply M|by rewrite (mv_qlogClosed _ _ _ _ _ M)|
      intros Hn; split; [exact Hn|apply M]|]. unfold no_creation. simpl.
    intros Hno. destruct (Hlate (Forall_lookup_1 _ _ _ _ Hno Hi)) as [-> ->]. split; [|done].
    destruct next as [t'|]; [|by apply Forall_delete]. apply Forall_insert; [done|]. by apply Hnext. }
  apply (tasks_ok_moves _ _ _ _ _ _ M) in Hts.
  apply (xinv_moves mS mR newT newS newR s s' cl ts _ loops _ hs _ n); try done.
  - destruct Hnew as [Ho|[-> ->]]; [left|by right]. split; [done|]. by apply (xi_open _ Hx).
  - destruct next as [t'|]; [apply Forall_insert; [done|by apply Hnext]|by apply Forall_delete].
  - apply (xi_handlers _ Hx).
  - rewrite !goroutines_done_spec. simpl. intros (? & ? & Hby). split_and!; try done.
    destruct next as [t'|]; [|by apply Forall_delete]. apply Forall_insert; [done|].
    exact (Forall_lookup_1 _ _ _ _ Hby Hi).
Qed.

Lemma step_ok_refl c : xinv c → step_ok c (Ret c).
Proof. intros Hx. by exists c. Qed.

Lemma spawn_here_ok c t : xinv c → task_ok (xc_sess c) t →
  (s_closedErr (xc_sess c) ≠ None → creates_flow t = false) → step_ok c (Ret (spawn ByApp t c)).
Proof.
  intros Hx Hok Hcr. assert (xwith_sess (xc_sess c) c = c) as E by (by destruct c).
  rewrite <- E at 2. apply spawn_ok; try done; [apply (xi_tables _ Hx)|apply quiet_refl].
Qed.

Lemma begin_call_ok t c m : xinv c → task_ok (xc_sess c) t → begin_call t c = Some m → step_ok c m.
Proof.
  intros Hx Hok. unfold begin_call, Session_isClosed. destruct (xc_closer c); [done|].
  destruct (s_closedErr (xc_sess c)) eqn:He; simpl; intros [= <-]; [by apply step_ok_refl|].
  by apply spawn_here_ok; rewrite ?He.
Qed.

Lemma begin_flow_call_ok r t c m : xinv c → (r < length (s_sfs (xc_sess c)) → task_ok (xc_sess c) t) →
  creates_flow t = false → begin_flow_call r t c = Some m → step_ok c m.
Proof.
  intros Hx Hok Hcr. unfold begin_flow_call. case_decide as Hr; [|done]. intros [= <-].
  destruct (deref_lt _ _ Hr) as (f & _ & ->). bind_simpl.
  destruct (isClosed f); [by apply step_ok_refl|apply spawn_here_ok; auto].
Qed.

Lemma begin_stream_ok who id rs c : xinv c → rd_wf (rs_reader rs) →
  (goroutines_done c = true → who = ByApp) → step_ok c (begin_stream who id rs c).
Proof.
  intros Hx Hwf Hwho. unfold begin_stream, HandleUniStream_lookup. set (es := record _ _).
  pose proof (xi_tables _ Hx) as Ht. apply (tables_inv_emit es) in Ht.
  destruct (receiveFlow_moves id (emit es (xc_sess c)) Ht) as (r & s' & -> & Ht' & Hq & Hr).
  bind_simpl. apply spawn_ok; try done. eapply quiet_trans; [apply quiet_emit|done].
Qed.

(** *** The steps of [close] *)

Lemma begin_close_ok code reason who c m : xinv c → begin_close code reason who c = Some m → step_ok c m.
Proof.
  destruct c as [s cl ts loops hs n ret lateS lateR lateT]. intros Hx. unfold begin_close. simpl.
  destruct cl; [done|]. destruct (s_closedErr s) as [e|] eqn:He; intros [= <-]; (eexists; split; [done|]).
  { destruct who; [done|]. split; [|done]. destruct Hx as [? ? ? ? ? ? Hw ? ?]. split; try done. simpl in *.
    intros _. by rewrite He. }
  split; [|by intros E].
  destruct Hx as [Ht Hcl [Hs Hr Hsl Hrl] Hst Hts Hhs Hw Hret Hq]. unfold xwith_closer, xwith_sess.
  unfold closer_ok in Hcl. simpl in *. rewrite He in Hcl. split; simpl; try done.
  - by apply tables_inv_set_closed.
  - intros E. apply Hw in E as [E _]. by rewrite He in E.
Qed.

(** What a step of [close] establishes: the invariant in its next phase, and that
    what other calls rely on is still there. *)
Definition closer_moved (cl : option closer) (lateS lateR : list nat) s s' : Prop :=
  tables_inv s' ∧ closer_ok cl s' ∧ left_ok cl lateS lateR s' ∧
  s_closedErr s' = s_closedErr s ∧ s_qlogClosed s' = s_qlogClosed s ∧
  (∀ t, task_ok s t → task_ok s' t) ∧ (∀ late, closed_streams late s → closed_streams late s').

(** Steps that do not close the connection. *)
Lemma closer_moved_quiet cl cl' lateS lateR s s' : tables_inv s' → quiet s s' → closer_ok (Some cl) s →
  cl_code cl' = cl_code cl → cl_reason cl' = cl_reason cl → cl_phase cl ≠ PCancel → cl_phase cl' ≠ PCancel →
  left_ok (Some cl') lateS lateR s' → closer_moved (Some cl') lateS lateR s s'.
Proof.
  intros Ht' M Hcl Hc Hr Hp Hp' Hl. apply (closer_ok_moves _ _ _ _ _ _ M) in Hcl as (Hce & Hctx & Hcc).
  unfold closer_moved. split_and!; try done.
  - simpl. rewrite Hc, Hr. split_and!; try done. rewrite Hcc. by destruct (cl_phase cl), (cl_phase cl').
  - apply M.
  - apply M.
  - intros t. by eapply task_ok_moves.
  - intros late. apply M.
Qed.

Lemma close_send_flow_left code reason r l lateS lateR s s' owner k : tables_inv s → quiet s s' →
  (∀ k, smap.get k (s_sendFlows s') ≠ Some r) →
  left_ok (Some (mkCloser code reason (PSend ((k, r) :: l)) owner)) lateS lateR s →
  left_ok (Some (mkCloser code reason (PSend l) owner)) lateS lateR s'.
Proof.
  intros Ht M Hnot Hl. apply (left_ok_quiet _ _ _ _ _ Ht M) in Hl.
  destruct Hl as [Hs Hrv Hsl Hrl _]. split; simpl in *; try done.
  - intros l0 k0 r0 [= <-] Hg. destruct (Hs _ k0 r0 eq_refl Hg) as [Hin|]; [|by right].
    apply elem_of_cons in Hin as [->|]; [by apply Hnot in Hg|by left].
  - intros l0 [= <-]. specialize (Hsl _ eq_refl). by apply Forall_cons in Hsl as [_ ?].
Qed.

(** Between the sections of a receive flow that the closer is closing. *)
Lemma receive_section_left code reason p p' lateS lateR s s' owner : tables_inv s → quiet s s' →
  let cl := Some (mkCloser code reason p owner) in
  let cl' := Some (mkCloser code reason p' owner) in
  send_left cl s' = Some [] → send_left cl' s' = Some [] → receive_left cl' s' = receive_left cl s' →
  phase_ok cl' s' → left_ok cl lateS lateR s → left_ok cl' lateS lateR s'.
Proof.
  intros Ht M cl cl' Es Es' Er Hph Hl. apply (left_ok_quiet _ _ _ _ _ Ht M) in Hl.
  destruct Hl as [Hs Hrv Hsl Hrl _]. split; rewrite ?Er; try done; rewrite Es', <- Es; done.
Qed.

Lemma close_receive_flow_left code reason r l lateS lateR s s' owner : tables_inv s → quiet s s' →
  (∀ f, s_rfs s' !! r = Some f → flow_down s' f) →
  left_ok (Some (mkCloser code reason (PCloseStreams r l) owner)) lateS lateR s →
  left_ok (Some (mkCloser code reason (PReceive l) owner)) lateS lateR s'.
Proof.
  intros Ht M Hdown Hl. apply (left_ok_quiet _ _ _ _ _ Ht M) in Hl.
  destruct Hl as [Hs Hrv Hsl Hrl _]. split; simpl in *; try done.
  - intros l0 k0 r0 f0 [= <-] Hg Hf. destruct (Hrv _ k0 r0 f0 eq_refl Hg Hf) as [?|[Hin|?]]; auto.
    apply elem_of_cons in Hin as [->|]; [left; by apply Hdown|auto].
  - intros l0 [= <-]. specialize (Hrl _ eq_refl). by apply Forall_cons in Hrl as [_ ?].
Qed.

(** The snapshots contain what is registered. *)
Lemma snapshot_send_left code reason lateS lateR s owner : tables_inv s →
  left_ok (Some (mkCloser code reason (PSend (go_range (elements (s_sendFlows s)))) owner)) lateS lateR s.
Proof.
  intros Ht. split; simpl; try done.
  - intros l k r [= <-] Hg. left. apply list_elem_of_fmap. exists (k, r). split; [done|].
    by apply elem_of_go_range.
  - intros l [= <-]. apply Forall_forall. intros r ([k ?] & -> & Hin%elem_of_go_range)%list_elem_of_fmap.
    destruct (ti_send s Ht k n Hin) as (f & Hf & _). by eapply lookup_lt_Some.
Qed.

Lemma snapshot_receive_left code reason lateS lateR s owner : tables_inv s →
  left_ok (Some (mkCloser code reason (PSend []) owner)) lateS lateR s →
  left_ok (Some (mkCloser code reason (PReceive (go_range (elements (s_receiveFlows s)))) owner)) lateS lateR s.
Proof.
  intros Ht [Hs _ Hsl _ _]. split; simpl in *; try done.
  - intros l k r f [= <-] Hg _. right. left. apply list_elem_of_fmap. exists (k, r). split; [done|].
    by apply elem_of_go_range.
  - intros l [= <-]. apply Forall_forall. intros r ([k ?] & -> & Hin%elem_of_go_range)%list_elem_of_fmap.
    destruct (ti_receive s Ht k n Hin) as (f & Hf & _). by eapply lookup_lt_Some.
Qed.

Lemma close_conn_moved code reason lateS lateR s owner cerr (conn : C) :
  tables_inv s → closer_ok (Some (mkCloser code reason (PReceive []) owner)) s →
  left_ok (Some (mkCloser code reason (PReceive []) owner)) lateS lateR s →
  CloseWithError code reason (s_conn s) = (cerr, conn) →
  closer_moved (Some (mkCloser code reason PCancel owner)) lateS lateR s
    (set_closed conn (s_closedErr s) cerr (s_ctxDone s) s).
Proof.
  intros Ht (Hce & Hctx & Hcc) Hl Hc%calls_CloseWithError. simpl in *. unfold closer_moved. split_and!; try done.
  - by apply tables_inv_set_closed.
  - simpl. split_and!; try done. by rewrite Hc, conn_closes_app, Hcc.
  - by destruct Hl.
  - intros late Hst r f i st Hr Hcf Hi Hst'. simpl in *. rewrite Hc, stream_closes_app, elem_of_app.
    destruct (Hst r f i st Hr Hcf Hi Hst'); auto.
Qed.

(** What [close] does to the session, between its phases. *)
Lemma close_step_ok code reason p lateS lateR s owner :
  let cl := Some (mkCloser code reason p owner) in
  tables_inv s → closer_ok cl s → left_ok cl lateS lateR s →
  ∃ p' s', close_step code reason p s = Ret (p', s') ∧
    closer_moved ((λ p', mkCloser code reason p' owner) <$> p') lateS lateR s s'.
Proof.
  intros cl Ht Hcl Hl. subst cl. destruct p as [|[|[k r] l]|[|[k r] l]|r l|r l|]; cbn [close_step].
  - eexists _, _. split; [done|]. eapply closer_moved_quiet; try done; [apply quiet_refl|].
    by apply snapshot_send_left.
  - eexists _, _. split; [done|]. eapply closer_moved_quiet; try done; [apply quiet_refl|].
    by apply snapshot_receive_left.
  - pose proof (lf_send_lt _ _ _ _ Hl _ eq_refl) as Hlt. simpl in Hlt. apply Forall_cons in Hlt as [Hr _].
    destruct (closeSendFlow_moves r s Ht Hr) as (err & s' & -> & Ht' & M & Hnot & _). bind_simpl.
    eexists _, _. split; [done|]. eapply closer_moved_quiet; try done.
    exact (close_send_flow_left code reason r l lateS lateR s s' owner k Ht M Hnot Hl).
  - destruct (CloseWithError code reason (s_conn s)) as [cerr c'] eqn:Hc.
    eexists _, _. split; [done|]. by apply close_conn_moved.
  - pose proof (lf_receive_lt _ _ _ _ Hl _ eq_refl) as Hlt. simpl in Hlt. apply Forall_cons in Hlt as [Hr _].
    destruct (flow_cancelCtx_moves r s Ht Hr) as (s' & f' & -> & Ht' & M & Hr' & Hx'). bind_simpl.
    eexists _, _. split; [done|]. eapply closer_moved_quiet; try done.
    apply (receive_section_left code reason (PReceive ((k, r) :: l)) (PCloseBuffer r l) lateS lateR s s' owner Ht M); try done.
    by exists f'.
  - destruct (lf_phase _ _ _ _ Hl) as (f & Hr & Hx).
    destruct (flow_closeBuffer_moves r f s Ht Hr Hx) as (s' & f' & -> & Ht' & M & Hr' & Hc'). bind_simpl.
    eexists _, _. split; [done|]. eapply closer_moved_quiet; try done.
    apply (receive_section_left code reason (PCloseBuffer r l) (PCloseStreams r l) lateS lateR s s' owner Ht M); try done.
    by exists f'.
  - destruct (lf_phase _ _ _ _ Hl) as (f & Hr & Hc).
    destruct (flow_closeStreams_moves r f s Ht Hr) as (s' & -> & Ht' & M & Hsame & Hst). bind_simpl.
    eexists _, _. split; [done|]. eapply closer_moved_quiet; try done.
    eapply close_receive_flow_left; [exact Ht|exact M| |exact Hl].
    intros f0 Hr0. rewrite Hsame, Hr in Hr0. by injection Hr0 as <-.
  - eexists _, _. split; [done|]. destruct Hcl as (Hce & Hctx & Hcc). unfold closer_moved. simpl in *.
    split_and!; try done; [by apply tables_inv_set_closed|by rewrite Hce|].
    destruct Hl as [Hs Hrv Hsl Hrl _]. split; unfold send_left, receive_left in *; simpl in *; rewrite ?Hce; eauto.
Qed.

Lemma xexec_close_step c m : xinv c → xexec XCloseStep c = Some m → step_ok c m.
Proof.
  destruct c as [s cl ts loops hs n ret lateS lateR lateT]. intros Hx. cbn [xexec xc_closer xc_sess].
  destruct cl as [[code reason p who]|]; [|done]. cbn [mbind option_bind cl_code cl_reason cl_phase cl_owner].
  intros [= <-]. destruct Hx as [Ht Hcl Hl Hst Hts Hhs Hw Hret Hq]. simpl in *.
  destruct (close_step_ok code reason p lateS lateR s who Ht Hcl Hl)
    as (p' & s' & -> & Ht' & Hcl' & Hl' & Hce & Hqc & Htask & Hstr). bind_simpl.
  assert (n = 0 ∧ ret = [] ∧ s_qlogClosed s = false) as (-> & -> & Hqf).
  { destruct n; [destruct ret; [destruct (s_qlogClosed s) eqn:?; [|done]|]|];
      (destruct Hw as [_ ?]; [|done]); auto with lia. }
  assert (s_closedErr s' ≠ None) as Hne by (rewrite Hce; by destruct Hcl as [-> _]).
  assert (Forall (λ t : owner * task, task_ok s' t.2) ts) as Hts'.
  { eapply Forall_impl; [done|]. intros t. apply Htask. }
  destruct p' as [p'|]; (eexists; split; [done|]).
  - split; [|intros _; simpl; by rewrite Hqc]. split; simpl in *; try done; [by apply Hstr| |congruence].
    rewrite Hqc, Hqf. intros [?|[?|?]]; [lia|done..].
  - split; [|intros _; destruct who; simpl; by rewrite Hqc]. destruct who; split; simpl in *; try done; first [by apply Hstr|congruence|auto].
Qed.

Lemma begin_datagram_ok who d c m : xinv c → (goroutines_done c = true → who = ByApp) →
  begin_datagram who d c = Some m → step_ok c m.
Proof.
  intros Hx Hwho. unfold begin_datagram. destruct (quicvarint_Parse d) as [[id n]|e] eqn:Hp.
  2:{ by apply begin_close_ok. }
  unfold HandleDatagram_lookup. set (es := record _ _). intros [= <-].
  pose proof (xi_tables _ Hx) as Ht. apply (tables_inv_emit es) in Ht.
  destruct (receiveFlow_moves id (emit es (xc_sess c)) Ht) as (r & s' & -> & Ht' & Hq & Hr).
  bind_simpl. apply spawn_ok; try done.
  - eapply quiet_trans; [apply quiet_emit|done].
  - simpl. eauto.
Qed.

Lemma loops_not_done c x : x ∈ xc_loops c → goroutines_done c = true → False.
Proof. intros Hin (E & _)%goroutines_done_spec. rewrite E in Hin. by apply not_elem_of_nil in Hin. Qed.

(** A goroutine returns, or another begins. *)
Lemma goroutines_ok c loops hs : xinv c → Forall (λ rs, rd_wf (rs_reader rs)) hs →
  (goroutines_done c = true → goroutines_done (xwith_goroutines loops hs c) = true) →
  step_ok c (Ret (xwith_goroutines loops hs c)).
Proof.
  destruct c as [s cl ts l0 h0 n ret lateS lateR lateT]. intros Hx Hhs Hg. eexists; split; [done|].
  split; [|by apply after_close_quiet; try apply quiet_refl].
  eapply xinv_quiet; [exact Hx|apply (xi_tables _ Hx)|apply quiet_refl|apply (xi_tasks _ Hx)|done|exact Hg].
Qed.

Lemma xexec_handler c i m : xinv c → xexec (XHandler i) c = Some m → step_ok c m.
Proof.
  intros Hx. cbn [xexec]. destruct (xc_handlers c !! i) as [rs|] eqn:Hh; [|done].
  cbn [mbind option_bind]. destruct (handler_blocked _ rs); [done|].
  pose proof (xi_handlers _ Hx) as Hwf. pose proof (Forall_lookup_1 _ _ _ _ Hwf Hh) as Hrs.
  apply (Forall_delete _ _ i) in Hwf as Hhs. clear Hwf. simpl in Hrs.
  set (hs := delete i (xc_handlers c)) in *.
  assert (goroutines_done c = true → False) as Hnd.
  { intros (_ & E & _)%goroutines_done_spec. by rewrite E in Hh. }
  destruct (goroutines_ok c (xc_loops c) hs Hx Hhs) as (c1 & [= <-] & Hx1 & _); [by intros ?%Hnd|].
  set (c1 := xwith_goroutines (xc_loops c) hs c) in *.
  destruct (quicvarint_Read (rs_reader rs)) as [res r'] eqn:Hr. apply Read_ok in Hr; [|done].
  destruct (quicvarint_Parse _) as [[v k]|e].
  - destruct Hr as [-> (_ & _ & Hwf')]. intros [= <-].
    unfold begin_stream, HandleUniStream_lookup. set (es := record _ _).
    pose proof (xi_tables _ Hx1) as Ht. apply (tables_inv_emit es) in Ht.
    destruct (receiveFlow_moves v (emit es (xc_sess c1)) Ht) as (r & s' & -> & Ht' & Hq & Hr). bind_simpl.
    eexists; split; [done|]. assert (quiet (xc_sess c) s') by (eapply quiet_trans; [apply quiet_emit|done]).
    split; [|apply after_close_quiet; try done].
    2:{ intros _ Hno. apply Forall_app. split; [exact Hno|]. by apply Forall_singleton. }
    destruct c as [s cl ts loops hs0 n ret lateS lateR lateT]. simpl in *.
    eapply xinv_quiet; [exact Hx|done..| |done|by intros ?%Hnd].
    apply Forall_app. split; [|by apply Forall_singleton].
    eapply tasks_ok_moves; [done|apply (xi_tasks _ Hx)].
  - destruct Hr as [e' ->]. intros [= <-]. eexists; split; [done|].
    split; [|by apply after_close_quiet; try apply quiet_emit].
    destruct c as [s cl ts loops hs0 n ret lateS lateR lateT]. simpl in *.
    eapply xinv_quiet; [exact Hx|apply tables_inv_emit, (xi_tables _ Hx)|apply quiet_emit|
      apply (xi_tasks _ Hx)|done|by intros ?%Hnd].
Qed.

Lemma Close_finish_cases s : ∃ es b, Close_finish s = (s_connCloseErr s, set_qlogClosed b (emit es s)) ∧
  (s_qlogClosed s = true → b = true).
Proof.
  unfold Close_finish. destruct (s_qlogClosed s) eqn:Hqc.
  { exists [], true. rewrite emit_nil, <- Hqc. by destruct s. }
  destruct (s_qlog s); [by eexists _, true|]. exists [], false. rewrite emit_nil, <- Hqc. by destruct s.
Qed.

Lemma xexec_close_return c m : xinv c → xexec XCloseReturn c = Some m → step_ok c m.
Proof.
  intros Hx. cbn [xexec]. destruct (xc_closer c) eqn:Hcl; [done|]. destruct (xc_waiting c) as [|n] eqn:Hn; [done|].
  destruct (goroutines_done c) eqn:Hg; [|done]. destruct (Close_finish_cases (xc_sess c)) as (es & b & -> & Hb).
  intros [= <-]. destruct c as [s cl ts loops hs w ret lateS lateR lateT].
  simpl in *. subst cl w. destruct Hx as [Ht Hc Hl Hst Hts Hhs Hw Hret Hq]. simpl in *.
  destruct Hw as [Hne _]; [left; lia|].
  eexists; split; [done|]. split; [|by intros _]. split; simpl; try done.
  - by destruct Ht; split.
  - apply (left_ok_quiet _ _ _ s (emit es s) Ht (quiet_emit es s)) in Hl. by destruct Hl; split.
  - apply Forall_app. split; [done|]. by apply Forall_singleton.
Qed.

Lemma stream_ok_wf rs : stream_ok rs = true → rd_wf (rs_reader rs).
Proof. apply rd_wf_bool. Qed.

(** A step that changes nothing but the session, and registers nothing. *)
Lemma sess_quiet_ok c s' : xinv c → tables_inv s' → quiet (xc_sess c) s' → step_ok c (Ret (xwith_sess s' c)).
Proof.
  intros Hx Ht Hq. eexists; split; [done|]. split; [|by apply after_close_quiet].
  destruct c as [s cl ts loops hs n ret lateS lateR lateT].
  eapply xinv_quiet; [exact Hx|done..| |apply (xi_handlers _ Hx)|done].
  eapply tasks_ok_moves; [done|apply (xi_tasks _ Hx)].
Qed.

Lemma step_ok_trans c c1 m : after_close c c1 → step_ok c1 m → step_ok c m.
Proof. intros Ha (c2 & -> & Hx & Ha2). exists c2. split_and!; [done..|]. by eapply after_close_trans. Qed.

Lemma xexec_receive c m : xinv c → xexec XReceiveDatagram c = Some m → step_ok c m.
Proof.
  intros Hx He. cbn [xexec] in He. case_decide as Hin; [|done]. destruct (loop_busy c); [done|].
  destruct (conn_ReceiveDatagram (xc_sess c)) as [[res s1]|] eqn:Hr; [|done].
  cbn [mbind option_bind] in He.
  destruct (conn_ReceiveDatagram_moves _ _ _ (xi_tables _ Hx) Hr) as [Ht Hq].
  destruct (sess_quiet_ok c s1 Hx Ht Hq) as (c1 & [= <-] & Hx1 & Ha1).
  apply (step_ok_trans c (xwith_sess s1 c) m Ha1). destruct res as [d|err].
  - eapply begin_datagram_ok; [done| |done]. by intros ?%(loops_not_done (xwith_sess s1 c) LoopDatagrams).
  - injection He as <-. apply goroutines_ok; [done|apply (xi_handlers _ Hx1)|].
    by intros ?%(loops_not_done (xwith_sess s1 c) LoopDatagrams).
Qed.

Lemma xexec_accept c m : xinv c → xexec XAcceptStream c = Some m → step_ok c m.
Proof.
  intros Hx He. cbn [xexec] in He. case_decide as Hin; [|done].
  destruct (conn_AcceptUniStream (xc_sess c)) as [[res s1]|] eqn:Hr; [|done].
  cbn [mbind option_bind] in He. injection He as <-.
  destruct (conn_AcceptUniStream_moves _ _ _ (xi_tables _ Hx) Hr) as (Ht & Hq & Hwf).
  destruct (sess_quiet_ok c s1 Hx Ht Hq) as (c1 & [= <-] & Hx1 & Ha1).
  apply (step_ok_trans c (xwith_sess s1 c) _ Ha1). destruct res as [rs|err]; (apply goroutines_ok; [done| |]);
    try by intros ?%(loops_not_done (xwith_sess s1 c) LoopUniStreams).
  - apply Forall_app. split; [apply (xi_handlers _ Hx1)|]. apply Forall_singleton. auto.
  - apply (xi_handlers _ Hx1).
Qed.

Lemma xexec_ok l c m : xinv c → xexec l c = Some m →
  step_ok c m ∨ overlong l c ∧ m = Panic PanicVarintRange.
Proof.
  intros Hx He. destruct l; try (by apply xexec_task); left; cbn [xexec] in He.
  - case_decide as Hid; [|done]. exact (begin_call_ok (TNewSendFlow id) c m Hx Hid He).
  - exact (begin_call_ok (TNewReceiveFlow id) c m Hx I He).
  - by apply (begin_flow_call_ok r (TWriteDatagram r packet) c m).
  - by apply (begin_flow_call_ok r (TOpenStream r priority incremental) c m).
  - case_decide as Hr; [|done]. injection He as <-.
    destruct (flow_cancelCtx_moves r _ (xi_tables _ Hx) Hr) as (s' & f' & -> & Ht & Hq & Hr' & Hx'). bind_simpl.
    apply spawn_ok; try done. simpl. eauto.
  - destruct (op_single o) eqn:Hs; [|done]. destruct (op_ok o (xc_sess c)) eqn:Hok; [|done]. injection He as <-.
    destruct (run_single_moves o _ Hs (xi_tables _ Hx) Hok) as (s' & -> & Ht' & Hq). by apply sess_quiet_ok.
  - by eapply begin_datagram_ok.
  - destruct (stream_ok rs) eqn:Hwf; [|done]. injection He as <-. apply begin_stream_ok; try done.
    by apply stream_ok_wf.
  - by eapply begin_close_ok.
  - by eapply xexec_close_step.
  - by eapply xexec_close_return.
  - injection He as <-. destruct (conn_handle_moves ev _ (xi_tables _ Hx)) as [Ht Hq].
    by apply sess_quiet_ok.
  - by eapply xexec_receive.
  - by eapply xexec_accept.
  - by eapply xexec_handler.
Qed.

(** A step that returns. *)
Lemma xexec_ret l c c' : xinv c → xexec l c = Some (Ret c') → xinv c' ∧ after_close c c'.
Proof. intros Hx He. by destruct (xexec_ok l c _ Hx He) as [(? & [= <-] & ?)|[_ ?]]. Qed.

(** The one that does not. *)
Lemma xexec_overlong l c m : xinv c → overlong l c → xexec l c = Some m → m = Panic PanicVarintRange.
Proof.
  intros Hx (i & who & id & -> & Hi & Hid). cbn [xexec]. rewrite Hi. cbn [mbind option_bind task_blocked].
  pose proof (Forall_lookup_1 _ _ _ _ (xi_tasks _ Hx) Hi) as Hok.
  assert (task_fits (TNewSendFlow id) = false) as Hfit by (apply bool_decide_eq_false; lia).
  pose proof (run_task_overlong _ _ Hok Hfit) as Hrun. cbn [snd] in Hrun. rewrite Hrun. by intros [= <-].
Qed.

Lemma xinit_inv conn tr acc config loops : config_ok config → conn_closes (calls conn) = [] →
  xinv (xinit (newSession conn tr acc config) loops).
Proof.
  intros Hok Hcc. destruct (newSession_inv conn tr acc config Hok Hcc) as [Ht Hst].
  split; simpl; try done; [by intros ? ? ? ? ?%lookup_nil_Some..|].
  intros [?|[?|?]]; [lia|done..].
Qed.

Lemma xreachable_inv c : xreachable c → xinv c.
Proof.
  intros (conn & tr & acc & config & loops & Hok & Hcc & _ & Hsteps).
  pose proof (xinit_inv conn tr acc config loops Hok Hcc) as Hinit. clear Hok Hcc.
  induction Hsteps as [|c1 c2 c3 [l Hstep] _ IH]; [done|]. apply IH; clear IH.
  by destruct (xexec_ret l c1 c2 Hinit Hstep).
Qed.
End invariant.
