(* ===== verification/SessionRaces.v ===== *)
(** * Concurrent calls on a session: properties

    What holds whatever other calls do while [close] runs, and that the whole calls of
    SessionSteps.v are sequences of the steps of SessionConcurrent.v. *)

From S2P Require Import Prelude GoErrors IO Varint QlogEvent Qlogger Options SyncMap Connection.
From S2P Require Import RTPSendStream SendFlow PacketBuffer Deadline ReceiveFlow ReadStream.
From S2P Require Import ReceiveFlowBuffer Session SessionSpec SessionMoves SessionSteps SessionConcurrent.

(** ** Whole calls as sequences of steps *)

Section refinement.
Context `{QuicVarintLaws, !GoPool, !GoMapOrder} {C : Type} `{ConnectionLaws C}.
Implicit Types (s : Session C) (c : xconfig C).

(** A configuration of SessionSteps.v: no call is in progress. *)
Definition between_calls (lateS lateR lateT : list nat) (c : sconfig C) : xconfig C :=
  mkConfigX (sc_sess c) None [] (sc_loops c) (sc_handlers c) (sc_closing c) (sc_returned c)
    lateS lateR lateT.

Lemma xstep_by l c c' : xexec l c = Some (Ret c') → xstep c c'.
Proof. intros He. by exists l. Qed.

(** The loops of [close]. *)
Lemma close_send_steps l s s' code reason who c :
  foldl (λ m '(_, r), s ← m; '(_, s) ← closeSendFlow r s; Ret s) (Ret s) l = Ret s' →
  rtc xstep (xwith_closer (Some (mkCloser code reason (PSend l) who)) (xwith_sess s c))
    (xwith_closer (Some (mkCloser code reason (PSend []) who)) (xwith_sess s' c)).
Proof.
  revert s. induction l as [|[k r] l IH]; intros s; cbn [foldl].
  { intros [= <-]. apply rtc_refl. }
  bind_simpl. destruct (closeSendFlow r s) as [[err s1]|p] eqn:Hc; bind_simpl.
  - intros Hf. eapply rtc_l; [|apply (IH s1 Hf)]. apply (xstep_by XCloseStep). cbn. by rewrite Hc.
  - intros Hf. exfalso. clear -Hf. induction l as [|[k' r'] l IH]; [done|]. by apply IH.
Qed.

Lemma close_receive_steps l s s' code reason who c :
  foldl (λ m '(_, r), s ← m; '(_, s) ← closeReceiveFlow r s; Ret s) (Ret s) l = Ret s' →
  rtc xstep (xwith_closer (Some (mkCloser code reason (PReceive l) who)) (xwith_sess s c))
    (xwith_closer (Some (mkCloser code reason (PReceive []) who)) (xwith_sess s' c)).
Proof.
  revert s. induction l as [|[k r] l IH]; intros s; cbn [foldl].
  { intros [= <-]. apply rtc_refl. }
  bind_simpl. destruct (closeReceiveFlow r s) as [[err s1]|p] eqn:Hc; bind_simpl.
  - intros Hf. assert (r < length (s_rfs s)) as Hr.
    { unfold closeReceiveFlow, deref in Hc. destruct (s_rfs s !! r) eqn:Hr; [by eapply lookup_lt_Some|done]. }
    rewrite closeReceiveFlow_parts in Hc by done.
    apply bind_ret_inv in Hc as (s2 & H1' & (s3 & H2' & (s4 & H3' & [= _ <-])%bind_ret_inv)%bind_ret_inv).
    eapply rtc_l; [apply (xstep_by XCloseStep); cbn; by rewrite H1'|]. cbn.
    eapply rtc_l; [apply (xstep_by XCloseStep); cbn; by rewrite H2'|]. cbn.
    eapply rtc_l; [apply (xstep_by XCloseStep); cbn; by rewrite H3'|]. cbn. apply (IH s4 Hf).
  - intros Hf. exfalso. clear -Hf. induction l as [|[k' r'] l IH]; [done|]. by apply IH.
Qed.

(** [close], when nothing comes in between. *)
Lemma close_steps l code reason who c0 c s' : xc_closer c = None →
  xexec l c0 = begin_close code reason who c → Session_close code reason (xc_sess c) = Ret s' →
  rtc xstep c0 (close_returns who (xwith_sess s' c)).
Proof.
  intros Hnone Hl. unfold Session_close. destruct (s_closedErr (xc_sess c)) as [e|] eqn:He.
  { intros [= <-]. apply rtc_once, (xstep_by l). rewrite Hl. unfold begin_close. rewrite Hnone, He.
    by destruct c. }
  unfold smap.rangeFn. set (s0 := set_closed _ _ _ _ _).
  intros (s1 & Hs1 & (s2 & Hs2 & Hs3)%bind_ret_inv)%bind_ret_inv.
  destruct (CloseWithError code reason (s_conn s2)) as [cerr cn] eqn:Hc. injection Hs3 as <-.
  eapply rtc_l; [apply (xstep_by l); rewrite Hl; unfold begin_close; by rewrite Hnone, He|]. fold s0.
  eapply rtc_l; [by apply (xstep_by XCloseStep)|]. cbn.
  etrans; [exact (close_send_steps _ _ _ code reason who c Hs1)|].
  eapply rtc_l; [by apply (xstep_by XCloseStep)|]. cbn.
  etrans; [exact (close_receive_steps _ _ _ code reason who c Hs2)|].
  eapply rtc_l; [apply (xstep_by XCloseStep); cbn; by rewrite Hc|]. cbn.
  apply rtc_once, (xstep_by XCloseStep). cbn. unfold xwith_closer; simpl. rewrite <- Hnone. done.
Qed.

(** The only task of a configuration runs to its end. *)
Lemma task_step who t s' c newT : run_task t (xc_sess c) = Ret (None, s', ([], [], newT)) → newT = [] →
  task_blocked (xc_sess c) t = false → xc_tasks c = [] → xstep (spawn who t c) (xwith_sess s' c).
Proof.
  intros Hrun -> Hb Hts. apply (xstep_by (XTask 0)). unfold spawn. cbn [xexec xc_tasks xwith_tasks xc_sess].
  rewrite Hts. cbn [app lookup list_lookup mbind option_bind]. rewrite Hb. cbn. rewrite Hrun. cbn. unfold xwith_late, xwith_tasks, xwith_sess; simpl. by rewrite <- Hts.
Qed.

(** A task goes on with another one. *)
Lemma task_next who t t' s' c : run_task t (xc_sess c) = Ret (Some t', s', ([], [], [])) →
  task_blocked (xc_sess c) t = false → xc_tasks c = [] →
  xstep (spawn who t c) (spawn who t' (xwith_sess s' c)).
Proof.
  intros Hrun Hb Hts. apply (xstep_by (XTask 0)). unfold spawn. cbn [xexec xc_tasks xwith_tasks xc_sess].
  rewrite Hts. cbn [app lookup list_lookup mbind option_bind]. rewrite Hb. cbn. rewrite Hrun. cbn. unfold xwith_late, xwith_tasks, xwith_sess; simpl. by rewrite Hts.
Qed.

Lemma datagram_steps l who d c s' : xc_closer c = None → xc_tasks c = [] →
  xexec l c = begin_datagram who d c → HandleDatagram d (xc_sess c) = Ret s' → rtc xstep c (xwith_sess s' c).
Proof.
  intros Hnone Hts Hl. unfold HandleDatagram. unfold begin_datagram in Hl.
  destruct (quicvarint_Parse d) as [[id n]|e].
  - intros ([r s1] & Hlook & Hdel)%bind_ret_inv. rewrite Hlook in Hl.
    eapply rtc_l; [by apply (xstep_by l); rewrite Hl|]. apply rtc_once.
    apply (task_step who _ s' (xwith_sess s1 c) []); try done. cbn. by rewrite Hdel.
  - intros Hc. exact (close_steps l _ _ (Some who) c c s' Hnone Hl Hc).
Qed.

(** The loop of [readStream] on the flow [r], which is [f]. *)
Lemma read_frames_steps fuel who rs rd r f es f' es' s c : xc_tasks c = [] → r < length (s_rfs s) →
  Read_waits (rs_ID rs) (s_conn s) = false →
  readStream_loop fuel (rs_ID rs) rd f = Ret (true, f', es') →
  rtc xstep (spawn who (TReadFrame rs rd r) (xwith_sess (emit es (set_rf r f s)) c))
    (spawn who (TUnregister rs r) (xwith_sess (emit (es ++ es') (set_rf r f' s)) c)).
Proof.
  intros Hts Hr Hends. revert rd f es es'. induction fuel as [|fuel IH]; intros rd f es es'; [done|]. cbn [readStream_loop].
  intros ([[next f1] es1] & Hit & Hloop)%bind_ret_inv.
  assert (flow_readFrame (rs_ID rs) rd r (emit es (set_rf r f s)) =
    Ret (next, emit (es ++ es1) (set_rf r f1 s))) as Hrun.
  { unfold flow_readFrame. rewrite deref_set_rf by done. bind_simpl. rewrite Hit. bind_simpl. by rewrite set_rf_again. }
  assert (task_blocked (emit es (set_rf r f s)) (TReadFrame rs rd r) = false) as Hb.
  { cbn [task_blocked]. unfold reading_blocks. cbn. rewrite Hends. by rewrite andb_false_r. }
  destruct next as [rd'|].
  - apply bind_ret_inv in Hloop as ([[fin f2] es2] & Hloop & [= -> -> <-]). rewrite app_assoc.
    eapply rtc_l; [|by apply (IH rd' f1 (es ++ es1) es2)].
    apply (task_next who _ _ _ (xwith_sess (emit es (set_rf r f s)) c)); [|done..]. cbn. by rewrite Hrun.
  - injection Hloop as <- <-. apply rtc_once.
    apply (task_next who _ _ _ (xwith_sess (emit es (set_rf r f s)) c)); [|done..]. cbn. by rewrite Hrun.
Qed.

Lemma read_stream_steps who rs r c s' : xc_tasks c = [] → Read_waits (rs_ID rs) (s_conn (xc_sess c)) = false →
  flow_readStream rs r (xc_sess c) = Ret (true, s') →
  rtc xstep (spawn who (TRegister rs r) c) (xwith_sess s' c).
Proof.
  intros Hts Hends Hrun. unfold flow_readStream in Hrun. apply bind_ret_inv in Hrun as (f & Hd & Hrun).
  apply bind_ret_inv in Hrun as ([[fin f'] es] & Hrs & [= -> <-]).
  assert (r < length (s_rfs (xc_sess c))) as Hr.
  { unfold deref in Hd. destruct (s_rfs (xc_sess c) !! r) eqn:Hr; [by eapply lookup_lt_Some|done]. }
  unfold readStream in Hrs. destruct (register rs f) as [[ok f1] es1] eqn:Hreg.
  assert (flow_register rs r (xc_sess c) = Ret (ok, emit es1 (set_rf r f1 (xc_sess c)))) as Hrun.
  { unfold flow_register. rewrite Hd. bind_simpl. by rewrite Hreg. }
  destruct ok.
  2:{ injection Hrs as <- <-. apply rtc_once. apply (task_step who _ _ c []); try done. cbn. by rewrite Hrun. }
  apply bind_ret_inv in Hrs as ([[fin f2] es2] & Hloop & [= -> <- <-]).
  eapply rtc_l; [apply (task_next who _ (TReadFrame rs (rs_reader rs) r) (emit es1 (set_rf r f1 (xc_sess c))) c); [|done..]; cbn; by rewrite Hrun|].
  etrans; [exact (read_frames_steps _ who rs _ r f1 es1 f2 es2 _ c Hts Hr Hends Hloop)|].
  apply rtc_once. set (s2 := emit (es1 ++ es2) (set_rf r f2 (xc_sess c))).
  apply (task_step who _ _ (xwith_sess s2 c) []); try done. cbn. unfold flow_unregister, s2.
  rewrite deref_set_rf by done. bind_simpl. do 3 f_equal.
  by rewrite <- (emit_nil (set_rf r (unregister rs f2) (emit _ _))), set_rf_again, app_nil_r.
Qed.

Lemma stream_steps l who id rs c c1 s' : xc_tasks c1 = [] → Read_waits (rs_ID rs) (s_conn (xc_sess c1)) = false →
  xexec l c = Some (begin_stream who id rs c1) →
  HandleUniStreamWithFlowID id rs (xc_sess c1) = Ret (true, s') → rtc xstep c (xwith_sess s' c1).
Proof.
  intros Hts1 Hends Hl. unfold HandleUniStreamWithFlowID. unfold begin_stream in Hl.
  intros ([r s1] & Hlook & Hrd)%bind_ret_inv. rewrite Hlook in Hl.
  eapply rtc_l; [by apply (xstep_by l); rewrite Hl|].
  assert (Read_waits (rs_ID rs) (s_conn s1) = false) as Hends1.
  { apply receiveFlow_keeps in Hlook as (_ & _ & ->). exact Hends. }
  exact (read_stream_steps who rs r (xwith_sess s1 c1) s' Hts1 Hends1 Hrd).
Qed.

Lemma close_flow_steps r c err s' : xc_tasks c = [] → r < length (s_rfs (xc_sess c)) →
  closeReceiveFlow r (xc_sess c) = Ret (err, s') → rtc xstep c (xwith_sess s' c).
Proof.
  intros Hts Hr. rewrite closeReceiveFlow_parts by done.
  intros (s1 & H1' & (s2 & H2' & (s3 & H3' & [= _ <-])%bind_ret_inv)%bind_ret_inv)%bind_ret_inv.
  eapply rtc_l; [apply (xstep_by (XCloseReceiveFlow r)); cbn [xexec]; rewrite decide_True by done; by rewrite H1'|].
  eapply rtc_l; [apply (task_next ByApp _ (TCloseStreams r) s2 (xwith_sess s1 c)); [|done..]; cbn; by rewrite H2'|].
  apply rtc_once. apply (task_step ByApp _ s3 (xwith_sess s2 c) []); try done. cbn. by rewrite H3'.
Qed.

Lemma xwith_sess_id c : xwith_sess (xc_sess c) c = c.
Proof. by destruct c. Qed.

(** Calls that look at [isClosed] of the session, of an open one. *)
Lemma call_steps l t c s' : xc_closer c = None → xc_tasks c = [] → s_closedErr (xc_sess c) = None →
  task_blocked (xc_sess c) t = false →
  xexec l c = begin_call t c → run_task t (xc_sess c) = Ret (None, s', ([], [], [])) →
  rtc xstep c (xwith_sess s' c).
Proof.
  intros Hnone Hts He Hb Hl Hrun. eapply rtc_l; [|by apply rtc_once, (task_step ByApp t s' c [])].
  apply (xstep_by l). rewrite Hl. unfold begin_call, Session_isClosed. by rewrite Hnone, He.
Qed.

Lemma new_send_flow_steps id c res s' : xc_closer c = None → xc_tasks c = [] → (0 ≤ id < 2 ^ 64)%Z →
  NewSendFlow id (xc_sess c) = Ret (res, s') → rtc xstep c (xwith_sess s' c).
Proof.
  intros Hnone Hts Hid. unfold NewSendFlow, Session_isClosed.
  destruct (s_closedErr (xc_sess c)) eqn:He; cbn; intros Hn.
  { injection Hn as <- <-. rewrite xwith_sess_id. apply rtc_refl. }
  apply (call_steps (XNewSendFlow id) (TNewSendFlow id)); try done.
  - cbn [xexec]. by rewrite decide_True.
  - cbn. rewrite Hn. cbn. rewrite He. by destruct res.
Qed.

Lemma new_receive_flow_steps id c res s' : xc_closer c = None → xc_tasks c = [] →
  NewReceiveFlow id (xc_sess c) = Ret (res, s') → rtc xstep c (xwith_sess s' c).
Proof.
  intros Hnone Hts. unfold NewReceiveFlow, Session_isClosed.
  destruct (s_closedErr (xc_sess c)) eqn:He; cbn; intros Hn.
  { injection Hn as <- <-. rewrite xwith_sess_id. apply rtc_refl. }
  apply (call_steps (XNewReceiveFlow id) (TNewReceiveFlow id)); try done.
  cbn. rewrite Hn. cbn. rewrite He. by destruct res.
Qed.

(** Calls that look at [isClosed] of a send flow, of an open one. *)
Lemma flow_call_step l r t c f : s_sfs (xc_sess c) !! r = Some f → isClosed f = None →
  xexec l c = begin_flow_call r t c → xstep c (spawn ByApp t c).
Proof.
  intros Hr Hcl Hl. apply (xstep_by l). rewrite Hl. unfold begin_flow_call, deref.
  rewrite decide_True by (by eapply lookup_lt_Some). rewrite Hr. cbn. by rewrite Hcl.
Qed.

Lemma write_datagram_steps r p c err s' : xc_tasks c = [] → r < length (s_sfs (xc_sess c)) →
  app_WriteDatagram r p (xc_sess c) = Ret (err, s') → rtc xstep c (xwith_sess s' c).
Proof.
  intros Hts (f & Hr & _)%deref_lt. rewrite (app_WriteDatagram_parts r p _ f Hr).
  destruct (isClosed f) eqn:Hcl; intros Hrun.
  { injection Hrun as <- <-. rewrite xwith_sess_id. apply rtc_refl. }
  eapply rtc_l; [by apply (flow_call_step (XWriteDatagram r p) r (TWriteDatagram r p) c f)|].
  apply rtc_once. apply (task_step ByApp _ _ c []); try done. cbn. by rewrite Hrun.
Qed.

Lemma new_send_stream_steps r p i c res s' : xc_tasks c = [] → r < length (s_sfs (xc_sess c)) →
  app_NewSendStream r p i (xc_sess c) = Ret (res, s') → rtc xstep c (xwith_sess s' c).
Proof.
  intros Hts (f & Hr & Hd)%deref_lt. rewrite (app_NewSendStream_parts r p i _ f Hr).
  destruct (isClosed f) eqn:Hcl; intros Hrun.
  { injection Hrun as <- <-. rewrite xwith_sess_id. apply rtc_refl. }
  eapply rtc_l; [by apply (flow_call_step (XNewSendStream r p i) r (TOpenStream r p i) c f)|].
  apply bind_ret_inv in Hrun as ([[st|err] s1] & Hop & Hrun).
  2:{ injection Hrun as <- <-. apply rtc_once. apply (task_step ByApp _ _ c []); try done. cbn. by rewrite Hop. }
  apply bind_ret_inv in Hrun as ([n s2] & Hap & Hrun). injection Hrun as <- <-.
  assert (s_sfs s1 = s_sfs (xc_sess c)) as Hsfs.
  { revert Hop. unfold app_NewSendStream_open. rewrite Hd. cbn.
    destruct (NewSendStream_open _ _ _ _) as [[res c'] es]. by intros [= _ <-]. }
  apply (rtc_l _ _ (spawn ByApp (TAppendStream r st) (xwith_sess s1 c))).
  - apply (xstep_by (XTask 0)). unfold spawn. cbn. rewrite Hts. cbn. by rewrite Hop.
  - apply rtc_once. apply (task_step ByApp _ _ (xwith_sess s1 c) []); try done. cbn. rewrite Hsfs, Hd. cbn.
    rewrite Hap. cbn. by rewrite Hcl.
Qed.

(** A call of the application. *)
Lemma op_steps o c s' : sess_inv (xc_sess c) → xc_closer c = None → xc_tasks c = [] → op_ok o (xc_sess c) = true →
  run_op o (xc_sess c) = Ret s' → rtc xstep c (xwith_sess s' c).
Proof.
  intros Hinv Hnone Hts Hok Hrun. destruct (op_single o) eqn:Hsingle.
  { apply rtc_once, (xstep_by (XOp o)). cbn. by rewrite Hsingle, Hok, Hrun. }
  destruct o; try done; cbn in Hok, Hrun.
  - destruct (NewSendFlow id (xc_sess c)) as [[res s1]|] eqn:Hn; [|done]. injection Hrun as <-.
    apply bool_decide_eq_true in Hok. by eapply new_send_flow_steps.
  - destruct (NewReceiveFlow id (xc_sess c)) as [[res s1]|] eqn:Hn; [|done]. injection Hrun as <-.
    by eapply new_receive_flow_steps.
  - destruct (app_WriteDatagram r packet (xc_sess c)) as [[res s1]|] eqn:Hn; [|done]. injection Hrun as <-.
    apply bool_decide_eq_true in Hok. by eapply write_datagram_steps.
  - destruct (app_NewSendStream r priority incremental (xc_sess c)) as [[res s1]|] eqn:Hn; [|done].
    injection Hrun as <-. apply bool_decide_eq_true in Hok. by eapply new_send_stream_steps.
  - destruct (closeReceiveFlow r (xc_sess c)) as [[err s1]|] eqn:Hn; [|done]. injection Hrun as <-.
    apply bool_decide_eq_true in Hok. by eapply close_flow_steps.
  - by apply (datagram_steps (XHandleDatagram d) ByApp d c s').
  - apply andb_prop in Hok as [Hok Hends].
    destruct (HandleUniStream_inv id rs (xc_sess c) Hinv (rd_wf_bool _ Hok)) as (s1 & Hh & _).
    rewrite Hh in Hrun. injection Hrun as <-.
    apply (stream_steps (XHandleUniStream id rs) ByApp id rs c c s1); try done; [by apply negb_true_iff|].
    cbn [xexec]. unfold stream_ok. by rewrite Hok.
Qed.

Lemma receive_steps d c s1 s' : xc_closer c = None → xc_tasks c = [] → LoopDatagrams ∈ xc_loops c →
  conn_ReceiveDatagram (xc_sess c) = Some (inl d, s1) → HandleDatagram d s1 = Ret s' →
  rtc xstep c (xwith_sess s' c).
Proof.
  intros Hnone Hts Hin Hr. assert (xexec XReceiveDatagram c = begin_datagram ByLoop d (xwith_sess s1 c)) as Hl.
  { cbn [xexec]. unfold loop_busy. by rewrite decide_True, Hnone, Hts, Hr by done. }
  unfold HandleDatagram. unfold begin_datagram in Hl. destruct (quicvarint_Parse d) as [[id n]|e].
  - intros ([r s2] & Hlook & Hdel)%bind_ret_inv. cbn [xc_sess xwith_sess] in Hl. rewrite Hlook in Hl.
    eapply rtc_l; [by apply (xstep_by XReceiveDatagram); rewrite Hl|]. apply rtc_once.
    apply (task_step ByLoop _ s' (xwith_sess s2 c) []); try done. cbn. by rewrite Hdel.
  - intros Hc. exact (close_steps XReceiveDatagram _ _ (Some ByLoop) c (xwith_sess s1 c) s' Hnone Hl Hc).
Qed.

Lemma sexec_steps lateS lateR lateT l (c c' : sconfig C) : sc_inv c → sexec l c = Some (Ret c') →
  rtc xstep (between_calls lateS lateR lateT c) (between_calls lateS lateR lateT c').
Proof.
  destruct c as [s loops hs n ret]. set (x := between_calls _ _ _ _).
  intros Hc He. pose proof (ci_sess _ Hc) as Hinv. simpl in Hinv. destruct l; cbn [sexec] in He.
  - destruct (op_ok o s) eqn:Hok; [|done]. injection He as He. apply bind_ret_inv in He as (s' & Hrun & [= <-]).
    by apply (op_steps o x s').
  - injection He as <-. by apply rtc_once, (xstep_by (XNetwork ev)).
  - case_decide as Hin; [|done]. destruct (conn_ReceiveDatagram s) as [[[d|err] s1]|] eqn:Hr; [| |done].
    + injection He as He. apply bind_ret_inv in He as (s' & Hrun & [= <-]).
      by apply (receive_steps d x s1 s').
    + injection He as <-. apply rtc_once, (xstep_by XReceiveDatagram). cbn [xexec].
      replace (loop_busy x) with false by done. rewrite decide_True by done.
      change (xc_sess x) with s. by rewrite Hr.
  - case_decide as Hin; [|done]. destruct (conn_AcceptUniStream s) as [[res s1]|] eqn:Hr; [|done].
    injection He as <-. apply rtc_once, (xstep_by XAcceptStream). cbn [xexec].
    rewrite decide_True by done. change (xc_sess x) with s. rewrite Hr. by destruct res.
  - destruct (hs !! i) as [rs|] eqn:Hi; [|done]. cbn [mbind option_bind] in He.
    destruct (Read_waits _ _) eqn:Hends; [done|]. pose proof (ci_handlers _ Hc) as Hh. simpl in Hh.
    destruct (handleUniStream_inv rs s Hinv (Forall_lookup_1 _ _ _ _ Hh Hi)) as (s' & Hrun & _).
    rewrite Hrun in He. injection He as <-. unfold handleUniStream in Hrun.
    assert (∀ m, xexec (XHandler i) x = m ↔ (let x := xwith_goroutines loops (delete i hs) x in
      match quicvarint_Read (rs_reader rs) with
      | (inr _, _) => Some (Ret (xwith_sess (emit [ECancelRead (rs_ID rs) ErrRoQPacketError] s) x))
      | (inl flowID, r) => Some (begin_stream ByHandler flowID (mkReceiveStream (rs_ID rs) r) x)
      end) = m) as Hx.
    { intros m. cbn [xexec]. change (xc_handlers x) with hs. rewrite Hi. cbn [mbind option_bind].
      unfold handler_blocked, reading_blocks. change (s_conn (xc_sess x)) with (s_conn s). rewrite Hends.
      by destruct (quicvarint_Parse _). }
    destruct (quicvarint_Read (rs_reader rs)) as [[id|e] r] eqn:Hr.
    + apply (stream_steps (XHandler i) ByHandler id (mkReceiveStream (rs_ID rs) r) x
        (xwith_goroutines loops (delete i hs) x) s'); try done. by apply Hx.
    + injection Hrun as <-. apply rtc_once, (xstep_by (XHandler i)). by apply Hx.
  - injection He as He. apply bind_ret_inv in He as (s' & Hrun & [= <-]).
    by apply (close_steps XClose ErrRoQNoError "" None x x s').
  - destruct n as [|n]; [done|]. destruct loops; [|done]. destruct hs; [|done].
    destruct (Close_finish s) as [err s'] eqn:Hf. injection He as <-.
    apply rtc_once, (xstep_by XCloseReturn). cbn [xexec]. replace (goroutines_done x) with true by done.
    unfold x, between_calls. cbn [xc_closer xc_waiting xc_sess sc_closing sc_sess]. by rewrite Hf.
Qed.
End refinement.

(** ** Properties *)

Section properties.
Context `{QuicVarintLaws, !GoPool, !GoMapOrder} {C : Type} `{ConnectionLaws C}.
Implicit Types (s : Session C) (c : xconfig C).

Lemma xsteps_closed c c' : xinv c → s_qlogClosed (xc_sess c) = true → rtc xstep c c' →
  xinv c' ∧ s_qlogClosed (xc_sess c') = true.
Proof.
  intros Hx Hq Hsteps. induction Hsteps as [|c1 c2 c3 [l Hstep] _ IH]; [done|].
  destruct (xexec_ret l c1 c2 Hx Hstep) as [Hx2 Ha].
  destruct (xi_waiting _ Hx) as [Hne _]; [by right; right|]. destruct (Ha Hne) as (_ & Hq2 & _). auto.
Qed.

(** C7: one call panics, and no other: however the calls of the application, the
    receive loops, the handlers of streams and the shutdown are interleaved, also in
    the middle of a shutdown, and whatever the peer sends, every step returns, except
    a [NewSendFlow] with an ID of more than 62 bits, which panics when it has seen the
    session open. (Packets are shorter than [2^62] bytes.) *)
Theorem concurrent_never_panics (c : xconfig C) (l : xlabel) (m : outcome (xconfig C))
    (Hc : xreachable c) (Hl : xexec l c = Some m) :
  (¬ overlong l c → returns m) ∧ (overlong l c → m = Panic PanicVarintRange).
Proof.
  apply xreachable_inv in Hc. split; [|intros Ho; by eapply xexec_overlong]. intros Hno.
  destruct (xexec_ok l c m Hc Hl) as [(c' & -> & _)|[? _]]; [by exists c'|done].
Qed.

(** C8: the connection is closed once, by the call of [close] that came first: not
    before that call has set the session error, with the code and reason of this
    error, and then never again. No step changes the error of a closed session, or,
    once [close] is done, what [Close] returns, and all [Close] calls that have
    returned reported the same error. *)
Theorem concurrent_closed_once (c : xconfig C) (Hc : xreachable c) :
  conn_closes (calls (s_conn (xc_sess c))) =
    match xc_closer c, s_closedErr (xc_sess c) with
    | None, None => []
    | None, Some e => [(code e, reason e)]
    | Some cl, _ => match cl_phase cl with PCancel => [(cl_code cl, cl_reason cl)] | _ => [] end
    end ∧
  (∀ cl, xc_closer c = Some cl →
     s_closedErr (xc_sess c) = Some (mkSessionError (cl_code cl) (cl_reason cl))) ∧
  (∀ l c', s_closedErr (xc_sess c) ≠ None → xexec l c = Some (Ret c') →
     s_closedErr (xc_sess c') = s_closedErr (xc_sess c) ∧
     (xc_closer c = None →
        xc_closer c' = None ∧ s_connCloseErr (xc_sess c') = s_connCloseErr (xc_sess c))) ∧
  (∀ e, e ∈ xc_returned c → e = s_connCloseErr (xc_sess c)).
Proof.
  apply xreachable_inv in Hc. pose proof (xi_closer c Hc) as Hcl. unfold closer_ok in Hcl. split_and!.
  - destruct (xc_closer c); [by destruct Hcl as (_ & _ & ->)|]. by destruct (s_closedErr _); destruct Hcl as [_ ->].
  - intros cl E. rewrite E in Hcl. by destruct Hcl.
  - intros l c' Hne He. destruct (xexec_ret l c c' Hc He) as [_ Ha].
    destruct (Ha Hne) as (? & _ & ? & _). done.
  - intros e He. pose proof (xi_returned c Hc) as Hr. rewrite Forall_forall in Hr. auto.
Qed.

(** C10: only what raced with the shutdown survives it. When [close] is done, a send
    flow that is still registered was registered by a [NewSendFlow] that had seen the
    session open before the error was set; a registered receive flow is closed and
    the streams that are registered with it were cancelled, or it was registered by
    such a [NewReceiveFlow]; a stream of a closed send flow is
    closed, or was appended by a [NewSendStream] that had seen the flow open. Once no
    creation of a flow is in progress none ever comes too late again. *)
Theorem only_racing_flows_survive (c : xconfig C) (Hc : xreachable c)
    (Hclosed : s_closedErr (xc_sess c) ≠ None) (Hdone : xc_closer c = None) :
  let s := xc_sess c in
  (∀ k r, smap.get k (s_sendFlows s) = Some r → r ∈ xc_lateS c) ∧
  (∀ k r f, smap.get k (s_receiveFlows s) = Some r → s_rfs s !! r = Some f →
     rf_closed f = true ∧
       (∀ id, is_Some (rf_streams f !! id) → (id, ErrRoQNoError) ∈ cancelled (s_effects s)) ∨
     r ∈ xc_lateR c) ∧
  (∀ r f i st, s_sfs s !! r = Some f → sf_closedErr f ≠ None → i ∈ sf_streams f →
     s_streams s !! i = Some st → stream st ∈ stream_closes (calls (s_conn s)) ∨ i ∈ xc_lateT c) ∧
  (∀ l c', no_creation c → xexec l c = Some (Ret c') →
     no_creation c' ∧ xc_lateS c' = xc_lateS c ∧ xc_lateR c' = xc_lateR c).
Proof.
  intros s. subst s. apply xreachable_inv in Hc. pose proof (xi_left c Hc) as [Hs Hr _ _ _].
  unfold send_left, receive_left in *. rewrite Hdone in *.
  destruct (s_closedErr (xc_sess c)) as [e|] eqn:He; [|done]. split_and!.
  - intros k r Hg. destruct (Hs [] k r eq_refl Hg) as [Hin|]; [by apply not_elem_of_nil in Hin|done].
  - intros k r f Hg Hf. destruct (Hr [] k r f eq_refl Hg Hf) as [?|[Hin|?]]; auto. by apply not_elem_of_nil in Hin.
  - intros r f i st Hf Hcl Hi Hst. destruct (xi_streams c Hc r f i st Hf Hcl Hi Hst); auto.
  - intros l c' Hno Hstep. destruct (xexec_ret l c c' Hc Hstep) as [_ Ha].
    destruct Ha as (_ & _ & _ & Hn); [congruence|]. auto.
Qed.

(** The model of whole calls is a part of this one: whatever a call, a goroutine
    or a shutdown of SessionSteps.v does in one step, it does here in its several
    steps when nothing comes in between, and registers nothing too late. *)
Theorem whole_calls_are_steps (lateS lateR lateT : list nat) (c c' : sconfig C)
    (Hc : sreachable c) (Hstep : sstep c c') :
  rtc xstep (between_calls lateS lateR lateT c) (between_calls lateS lateR lateT c').
Proof. destruct Hstep as [l Hl]. by apply (sexec_steps _ _ _ l), Hl; apply sreachable_inv. Qed.

(** C33: the qlog recorder is closed last: once a [Close] call has closed it, no
    receive loop and no handler of a stream is left or is ever started again, so that
    what the goroutines of the session record comes before; and it stays closed. *)
Theorem recorder_closed_last (c c' : xconfig C) (Hc : xreachable c)
    (Hq : s_qlogClosed (xc_sess c) = true) (Hsteps : rtc xstep c c') :
  s_qlogClosed (xc_sess c') = true ∧ xc_loops c' = [] ∧ xc_handlers c' = [] ∧
  Forall (λ t, t.1 = ByApp) (xc_tasks c').
Proof.
  destruct (xsteps_closed c c' (xreachable_inv c Hc) Hq Hsteps) as [Hx' Hq'].
  split; [done|]. apply goroutines_done_spec. by apply (xi_qlog _ Hx').
Qed.
End properties.

Section witnesses.
Import RFC9000.
#[local] Existing Instance lifo_pool.
#[local] Existing Instance ascending_order.

Definition xrun (ls : list xlabel) (c : xconfig stubConn) : option (xconfig stubConn) :=
  foldl (λ mc l, c ← mc; match xexec l c with Some (Ret c') => Some c' | _ => None end) (Some c) ls.

Lemma xrun_None ls : foldl (λ mc l, c ← mc;
  match xexec l c with Some (Ret c') => Some c' | _ => None end) None ls = None :> option (xconfig stubConn).
Proof. by induction ls. Qed.

Lemma xrun_steps ls c c' : xrun ls c = Some c' → rtc xstep c c'.
Proof.
  unfold xrun. revert c. induction ls as [|l ls IH]; intros c; simpl.
  - intros [= <-]. apply rtc_refl.
  - destruct (xexec l c) as [[c1|p]|] eqn:He; rewrite ?xrun_None; [|done..].
    intros Hrun. eapply rtc_l; [by exists l|]. by apply IH.
Qed.

Definition ex_xtrace : Trace := mkTrace 0 (λ _, true).
Definition ex_xsess : Session stubConn := newSession (newStubConn []) (Some (Some ex_xtrace)) true defaultConfig.
Definition ex_xstart : xconfig stubConn := xinit ex_xsess (start ex_xsess).

(** A send flow with a stream; a second one, a second stream and a receive flow are
    being created while [Close] begins, and a stream waits for its handler. *)
Definition ex_race : list xlabel :=
  [XNewSendFlow 5; XTask 0; XNewSendStream 0 0 false; XTask 0; XTask 0;
   XNewSendFlow 6; XNewSendStream 0 0 false; XNewReceiveFlow 1; XTask 1;
   XNetwork (EvStream (mkReceiveStream 3 (mkReader [[Byte.x01; Byte.x00]] true EOF))); XAcceptStream; XClose].

(** [close] runs to its end, and then the creations. *)
Definition ex_race_lost : list xlabel :=
  [XCloseStep; XCloseStep; XCloseStep; XCloseStep; XCloseStep; XTask 0; XTask 0; XTask 0].

(** A receive flow, with a stream that is being read when [Close] begins. *)
Definition ex_reading : list xlabel :=
  [XNewReceiveFlow 1; XTask 0;
   XNetwork (EvStream (mkReceiveStream 3 (mkReader [bytes [1; 1; 42; 1]%Z] false ErrUnexpectedEOF)));
   XAcceptStream; XHandler 0; XTask 0; XTask 0; XClose].

(** [close] runs to its end, and the reader goes on in between. *)
Definition ex_reading_closed : list xlabel :=
  ex_reading ++ [XCloseStep; XCloseStep; XCloseStep; XCloseStep; XTask 0; XCloseStep; XCloseStep; XCloseStep].

Definition ex_xafter (ls : list xlabel) : xconfig stubConn := default ex_xstart (xrun ls ex_xstart).

Lemma ex_xafter_reachable ls :
  bool_decide (is_Some (xrun ls ex_xstart)) = true → xreachable (ex_xafter ls).
Proof.
  intros [c Hc]%bool_decide_eq_true. unfold ex_xafter. rewrite Hc. simpl.
  exists (newStubConn []), (Some (Some ex_xtrace)), true, defaultConfig, (start ex_xsess).
  split_and!; [apply defaultConfig_ok|done|by right|]. by eapply xrun_steps.
Qed.

(** A flow is registered while [close] is between its phases; and a call with an ID
    of 63 bits, that has seen the session open, goes on. *)
Lemma concurrent_never_panics_witness :
  (∃ m, xexec (XTask 0) (ex_xafter (ex_race ++ [XCloseStep])) = Some m ∧ returns m) ∧
  xexec (XTask 0) (ex_xafter [XNewSendFlow (2 ^ 62)]) = Some (Panic PanicVarintRange).
Proof.
  split.
  - eexists; split; [vm_compute; reflexivity|].
    apply (concurrent_never_panics (ex_xafter (ex_race ++ [XCloseStep])) (XTask 0));
      [apply ex_xafter_reachable; vm_compute; reflexivity|vm_compute; reflexivity|].
    intros (i & who & id & [= <-] & Ht & Hid). vm_compute in Ht. injection Ht as <- <-. by apply Hid.
  - destruct (xexec (XTask 0) (ex_xafter [XNewSendFlow (2 ^ 62)])) as [m|] eqn:He; [|vm_compute in He; discriminate].
    f_equal. apply (concurrent_never_panics (ex_xafter [XNewSendFlow (2 ^ 62)]) (XTask 0));
      [apply ex_xafter_reachable; vm_compute; reflexivity|exact He|].
    exists 0, ByApp, (2 ^ 62)%Z. split; [reflexivity|]. split; [vm_compute; reflexivity|lia].
Defined.

(** An invalid datagram comes too late to decide the error. *)
Lemma concurrent_closed_once_witness :
  conn_closes (calls (s_conn (xc_sess (ex_xafter (ex_race ++ ex_race_lost ++ [XHandleDatagram []]))))) =
    [(ErrRoQNoError, "")].
Proof.
  destruct (concurrent_closed_once (ex_xafter (ex_race ++ ex_race_lost ++ [XHandleDatagram []]))) as [Hcc _];
    [apply ex_xafter_reachable; vm_compute; reflexivity|].
  rewrite Hcc. vm_compute. reflexivity.
Defined.

Lemma only_racing_flows_survive_witness :
  (smap.get 6 (s_sendFlows (xc_sess (ex_xafter (ex_race ++ ex_race_lost)))) = Some 1 ∧
   1 ∈ xc_lateS (ex_xafter (ex_race ++ ex_race_lost))) ∧
  (xc_lateR (ex_xafter ex_reading_closed) = [] ∧
   ∃ f, s_rfs (xc_sess (ex_xafter ex_reading_closed)) !! 0 = Some f ∧ is_Some (rf_streams f !! 3%Z) ∧
     (3%Z, ErrRoQNoError) ∈ cancelled (s_effects (xc_sess (ex_xafter ex_reading_closed)))).
Proof.
  split.
  - destruct (only_racing_flows_survive (ex_xafter (ex_race ++ ex_race_lost))) as (HS & _);
      [apply ex_xafter_reachable; vm_compute; reflexivity|vm_compute; discriminate|vm_compute; reflexivity|].
    assert (smap.get 6 (s_sendFlows (xc_sess (ex_xafter (ex_race ++ ex_race_lost)))) = Some 1) as Hg
      by (vm_compute; reflexivity).
    split; [exact Hg|exact (HS 6%Z 1 Hg)].
  - destruct (only_racing_flows_survive (ex_xafter ex_reading_closed)) as (_ & HR & _);
      [apply ex_xafter_reachable; vm_compute; reflexivity|vm_compute; discriminate|vm_compute; reflexivity|].
    split; [vm_compute; reflexivity|]. eexists. split; [vm_compute; reflexivity|].
    split; [eexists; vm_compute; reflexivity|].
    edestruct (HR 1%Z 0) as [[_ Hst]|Hlate]; [vm_compute; reflexivity|vm_compute; reflexivity| |].
    + apply Hst. eexists. vm_compute. reflexivity.
    + vm_compute in Hlate. by apply not_elem_of_nil in Hlate.
Defined.

Definition ex_all_done : list xlabel :=
  ex_race_lost ++ [XHandler 0; XTask 0; XTask 0; XTask 0; XTask 0; XReceiveDatagram; XAcceptStream; XCloseReturn].

Lemma recorder_closed_last_witness :
  s_qlogClosed (xc_sess (ex_xafter (ex_race ++ ex_all_done))) = true ∧ xc_loops (ex_xafter (ex_race ++ ex_all_done)) = [].
Proof.
  destruct (recorder_closed_last (ex_xafter (ex_race ++ ex_all_done)) (ex_xafter (ex_race ++ ex_all_done))) as (Hq & Hl & _);
    [apply ex_xafter_reachable; vm_compute; reflexivity|vm_compute; reflexivity|apply rtc_refl|].
  split; [exact Hq|exact Hl].
Defined.
End witnesses.
