(* ===== verification/SessionShutdown.v ===== *)
(** * Completing a shutdown

    A shutdown waits for goroutines that may be blocked in [Read] of a stream that has
    not ended. [CancelRead] is what unblocks them: [rinv] says that a flow whose
    context is cancelled has cancelled the streams that are registered with it, or is
    being closed. With it the calls in progress, the handlers and the receive loops can
    run to their ends, but for those that read a stream nobody cancels: one of a flow
    that is not closed by the shutdown, or one whose flow ID has not come. *)

From S2P Require Import Prelude GoErrors IO Varint QlogEvent Qlogger Options SyncMap Connection.
From S2P Require Import RTPSendStream SendFlow PacketBuffer Deadline ReceiveFlow ReadStream.
From S2P Require Import ReceiveFlowBuffer Session SessionSpec SessionMoves SessionSteps SessionConcurrent.
From S2P Require Import SessionRaces.

(** ** Flows that are closed have cancelled their streams *)

(** The phase that follows. *)
Definition next_phase (p : phase) (p' : option phase) : Prop :=
  match p with
  | PSnapshot => ∃ l, p' = Some (PSend l)
  | PSend (_ :: l) => p' = Some (PSend l)
  | PSend [] => ∃ l, p' = Some (PReceive l)
  | PReceive ((_, r) :: l) => p' = Some (PCloseBuffer r l)
  | PCloseBuffer r l => p' = Some (PCloseStreams r l)
  | PCloseStreams r l => p' = Some (PReceive l)
  | PReceive [] => p' = Some PCancel
  | PCancel => p' = None
  end.

Section cancelled_streams.
Context `{QuicVarintLaws, !GoPool, !GoMapOrder} {C : Type} `{ConnectionLaws C}.
Implicit Types (s : Session C) (c : xconfig C).

(** From [s] to [s'] no context of a receive flow is cancelled but those of [X], and
    a flow whose context is cancelled gets no new streams. *)
Definition settled (X : list nat) s s' : Prop :=
  s_effects s `prefix_of` s_effects s' ∧
  ∀ r f', s_rfs s' !! r = Some f' → rf_ctxDone f' = true → r ∈ X ∨
    ∃ f, s_rfs s !! r = Some f ∧ rf_ctxDone f = true ∧ rf_streams f' ⊆ rf_streams f.

Lemma settled_rfs X s s' : s_effects s `prefix_of` s_effects s' → s_rfs s' = s_rfs s → settled X s s'.
Proof. intros Hes Hrfs. split; [done|]. rewrite Hrfs. intros r f Hr Hx. right. eauto. Qed.

Lemma settled_refl X s : settled X s s.
Proof. by apply settled_rfs. Qed.

Lemma settled_trans s1 s2 s3 : settled [] s1 s2 → settled [] s2 s3 → settled [] s1 s3.
Proof.
  intros [He1 H12] [He2 H23]. split; [by etrans|]. intros r f3 Hr3 Hx3. right.
  destruct (H23 r f3 Hr3 Hx3) as [[]%not_elem_of_nil|(f2 & Hr2 & Hx2 & Hs2)].
  destruct (H12 r f2 Hr2 Hx2) as [[]%not_elem_of_nil|(f1 & Hr1 & Hx1 & Hs1)].
  exists f1. split_and!; [done..|by etrans].
Qed.

Lemma settled_emit es s : settled [] s (emit es s).
Proof. apply settled_rfs; [by apply prefix_app_r|done]. Qed.

Lemma settled_set_rf r f f' es s : s_rfs s !! r = Some f →
  (rf_ctxDone f' = true → rf_ctxDone f = true ∧ rf_streams f' ⊆ rf_streams f) →
  settled [] s (emit es (set_rf r f' s)).
Proof.
  intros Hr Hf. split; [by apply prefix_app_r|]. intros r0 f0 Hr0 Hx0. simpl in Hr0. right.
  destruct (decide (r0 = r)) as [->|].
  - rewrite list_lookup_insert_eq in Hr0 by (by eapply lookup_lt_Some). simplify_eq.
    destruct (Hf Hx0). by exists f.
  - rewrite list_lookup_insert_ne in Hr0 by done. by exists f0.
Qed.

Lemma settled_set_rf' r f f' s : s_rfs s !! r = Some f →
  (rf_ctxDone f' = true → rf_ctxDone f = true ∧ rf_streams f' ⊆ rf_streams f) → settled [] s (set_rf r f' s).
Proof. rewrite <- (emit_nil (set_rf r f' s)). apply settled_set_rf. Qed.

(** A flow with the same context and streams. *)
Definition same_reads (f f' : ReceiveFlow) : Prop :=
  rf_ctxDone f' = rf_ctxDone f ∧ rf_streams f' = rf_streams f.

Lemma same_reads_settled f f' : same_reads f f' →
  rf_ctxDone f' = true → rf_ctxDone f = true ∧ rf_streams f' ⊆ rf_streams f.
Proof. by intros [-> ->]. Qed.

Lemma push_same b f f' : push b f = Ret f' → same_reads f f'.
Proof.
  unfold push. destruct (rf_closed f); [by intros [= <-]|].
  intros ([sent pb] & _ & Hrun)%bind_ret_inv. by destruct sent; injection Hrun as <-.
Qed.

Lemma readStream_iter_same id rd f next f' es : readStream_iter id rd f = Ret (next, f', es) → same_reads f f'.
Proof.
  unfold readStream_iter. destruct (readVarint rd) as [[[len enc]|err] rd1]; [|by intros [= <- <- <-]].
  destruct (pool_Get (rf_buffer f)) as [b pb]. destruct (Buffer_ReadFrom _) as [[got [err|]] lr];
    [by intros [= <- <- <-]|]. by intros (f1 & [? ?]%push_same & [= <- <- <-])%bind_ret_inv.
Qed.

Lemma closeBuffer_same f f' : closeBuffer f = Ret f' → same_reads f f'.
Proof.
  unfold closeBuffer. destruct (rf_closed f); [by intros [= <-]|].
  by intros (pb & _ & [= <-])%bind_ret_inv.
Qed.

Lemma newReceiveFlow_open id n q l f : newReceiveFlow id n q l = Ret f → rf_ctxDone f = false.
Proof. unfold newReceiveFlow. by intros (pb & _ & [= <-])%bind_ret_inv. Qed.

(** A flow is appended. *)
Lemma settled_new f m b es s : rf_ctxDone f = false → settled [] s (emit es (set_receive m b (s_rfs s ++ [f]) s)).
Proof.
  intros Hf. split; [by apply prefix_app_r|]. intros r f' Hr Hx. simpl in Hr. right.
  apply lookup_app_Some in Hr as [Hr|[_ [_ ->]%list_lookup_singleton_Some]]; [by exists f'|congruence].
Qed.

Lemma receiveFlow_settled id s r s' : receiveFlow id s = Ret (r, s') → settled [] s s'.
Proof.
  unfold receiveFlow. destruct (smap.get id _); [intros [= <- <-]; apply settled_refl|].
  intros ([[[r0 b] fs] es] & Hget & [= <- <-])%bind_ret_inv. revert Hget. unfold getOrCreate.
  destruct (fb_buffer _ !! id).
  - intros [= <- <- <- <-]. apply settled_rfs; [by apply prefix_app_r|done].
  - intros ([[q m] es0] & _ & (f & Hf & [= <- <- <- <-])%bind_ret_inv)%bind_ret_inv.
    eapply settled_new, newReceiveFlow_open, Hf.
Qed.

Lemma HandleDatagram_lookup_settled id n d s r s' : HandleDatagram_lookup id n d s = Ret (r, s') → settled [] s s'.
Proof. unfold HandleDatagram_lookup. intros Hr%receiveFlow_settled. eapply settled_trans, Hr. apply settled_emit. Qed.

Lemma HandleUniStream_lookup_settled id rs s r s' : HandleUniStream_lookup id rs s = Ret (r, s') → settled [] s s'.
Proof. unfold HandleUniStream_lookup. intros Hr%receiveFlow_settled. eapply settled_trans, Hr. apply settled_emit. Qed.

Lemma deref_inv {A} (l : list A) r a : deref l r = Ret a → l !! r = Some a.
Proof. unfold deref. destruct (l !! r); [by intros [= <-]|done]. Qed.

Lemma NewReceiveFlow_settled id s res s' : NewReceiveFlow_insert id s = Ret (res, s') → settled [] s s'.
Proof.
  unfold NewReceiveFlow_insert. destruct (smap.get id _); [intros [= <- <-]; apply settled_refl|].
  destruct (pop id (s_receiveFlowBuffer s)) as [[r|] b]; bind_simpl.
  - intros [= <- <-]. by apply settled_rfs.
  - intros ([r fs] & (f & Hf & [= <- <-])%bind_ret_inv & [= <- <-])%bind_ret_inv.
    rewrite <- (emit_nil (set_receive _ _ _ s)). eapply settled_new, newReceiveFlow_open, Hf.
Qed.

(** What a task does, and the calls of one section. *)
Lemma task_settled t s next s' late : run_task t s = Ret (next, s', late) → settled [] s s'.
Proof.
  destruct t; cbn [run_task]; intros Hrun.
  - apply bind_ret_inv in Hrun as ([res s1] & Hn & [= _ <- _]). revert Hn. unfold NewSendFlow_insert.
    intros (f & _ & Hn)%bind_ret_inv. destruct (smap.getOrInsert _ _ _) as [[v ins] m].
    destruct ins; injection Hn as _ <-; by apply settled_rfs.
  - apply bind_ret_inv in Hrun as ([res s1] & Hn & [= _ <- _]). by eapply NewReceiveFlow_settled.
  - apply bind_ret_inv in Hrun as ([err s1] & Hn & [= _ <- _]). revert Hn. unfold app_WriteDatagram_send.
    intros (f & _ & Hn)%bind_ret_inv. destruct (WriteRTPBytes_send _ _ _) as [[e c'] es].
    injection Hn as _ <-. apply settled_rfs; [by apply prefix_app_r|done].
  - apply bind_ret_inv in Hrun as ([res s1] & Hn & [= _ <- _]). revert Hn. unfold app_NewSendStream_open.
    intros (f & _ & Hn)%bind_ret_inv. destruct (NewSendStream_open _ _ _ _) as [[e c'] es].
    injection Hn as _ <-. apply settled_rfs; [by apply prefix_app_r|done].
  - apply bind_ret_inv in Hrun as (f & _ & ([n s1] & Hn & [= _ <- _])%bind_ret_inv). revert Hn.
    unfold app_NewSendStream_append. intros (f1 & _ & [= _ <-])%bind_ret_inv. by apply settled_rfs.
  - apply bind_ret_inv in Hrun as (s1 & Hn & [= _ <- _]). revert Hn. unfold HandleDatagram_deliver.
    intros (f & Hr%deref_inv & Hn)%bind_ret_inv. destruct (pool_Get (rf_buffer f)) as [b pb].
    apply bind_ret_inv in Hn as (l & _ & (p & _ & (f1 & Hp%push_same & [= <-])%bind_ret_inv)%bind_ret_inv).
    eapply settled_set_rf'; [done|]. exact (same_reads_settled _ _ Hp).
  - apply bind_ret_inv in Hrun as ([ok s1] & Hn & [= _ <- _]). revert Hn. unfold flow_register.
    intros (f & Hr%deref_inv & Hn)%bind_ret_inv. unfold register in Hn. destruct (rf_ctxDone f) eqn:Hx.
    + injection Hn as _ <-. by eapply settled_set_rf.
    + injection Hn as _ <-. eapply settled_set_rf; [done|]. simpl. congruence.
  - apply bind_ret_inv in Hrun as ([nx s1] & Hn & [= _ <- _]). revert Hn. unfold flow_readFrame.
    intros (f & Hr%deref_inv & ([[nx0 f1] es] & Hit%readStream_iter_same & [= _ <-])%bind_ret_inv)%bind_ret_inv.
    eapply settled_set_rf; [done|]. by apply same_reads_settled.
  - apply bind_ret_inv in Hrun as (s1 & Hn & [= _ <- _]). revert Hn. unfold flow_unregister.
    intros (f & Hr%deref_inv & [= <-])%bind_ret_inv. eapply settled_set_rf'; [done|]. simpl.
    intros Hx. split; [done|apply delete_subseteq].
  - apply bind_ret_inv in Hrun as (s1 & Hn & [= _ <- _]). revert Hn. unfold flow_closeBuffer.
    intros (f & Hr%deref_inv & (f1 & Hc%closeBuffer_same & [= <-])%bind_ret_inv)%bind_ret_inv.
    eapply settled_set_rf'; [done|]. by apply same_reads_settled.
  - apply bind_ret_inv in Hrun as (s1 & Hn & [= _ <- _]). revert Hn. unfold flow_closeStreams.
    intros (f & _ & [= <-])%bind_ret_inv. apply settled_emit.
Qed.


Lemma op_settled o s s' : tables_inv s → op_single o = true → op_ok o s = true → run_op o s = Ret s' →
  settled [] s s'.
Proof.
  intros Ht Hs Hok Hrun. destruct (run_single_moves o s Hs Ht Hok) as (s1 & Hrun1 & _ & M).
  rewrite Hrun in Hrun1. injection Hrun1 as <-. pose proof (send_ops_rfs o s s' Hrun) as Hrfs.
  destruct o; try done; try (apply settled_rfs; [apply (mv_effects _ _ _ _ _ M)|done]); cbn [run_op] in Hrun.
  - unfold app_Read in Hrun. destruct (deref (s_rfs s) r) as [f|] eqn:Hr; [|done].
    apply deref_inv in Hr. cbn [mbind outcome_bind] in Hrun.
    destruct (ReceiveFlow.Read 1 prefer buf f) as [[res f1]|] eqn:Hread; injection Hrun as <-; [|apply settled_refl].
    destruct (Read_keeps [] prefer buf f res f1 (ti_rf _ _ _ Ht Hr) Hread) as (_ & _ & _ & ? & ?).
    eapply settled_set_rf'; [done|]. by apply same_reads_settled.
  - unfold app_SetReadDeadline in Hrun. apply bind_ret_inv in Hrun as (f & Hr%deref_inv & Hrun).
    unfold ReceiveFlow_SetReadDeadline in Hrun.
    apply bind_ret_inv in Hrun as (f1 & (d & _ & [= <-])%bind_ret_inv & [= <-]).
    by eapply settled_set_rf'.
Qed.

(** The flow [r] is being closed, by a call of [Close] or by the shutdown. *)
Definition closing_phase (r : nat) (cl : option closer) : Prop :=
  match cl with
  | Some cl => match cl_phase cl with PCloseBuffer r' _ | PCloseStreams r' _ => r' = r | _ => False end
  | None => False
  end.

Definition closes_flow (r : nat) (t : task) : Prop :=
  match t with TCloseBuffer r' | TCloseStreams r' => r' = r | _ => False end.

Definition closing (r : nat) c : Prop :=
  closing_phase r (xc_closer c) ∨ ∃ who t, (who, t) ∈ xc_tasks c ∧ closes_flow r t.

(** A flow whose context is cancelled has cancelled its streams, or will. *)
Definition flows_ok c : Prop := ∀ r f, s_rfs (xc_sess c) !! r = Some f → rf_ctxDone f = true →
  closing r c ∨ streams_cancelled (xc_sess c) f.

(** [receiveDatagrams] only delivers datagrams. *)
Definition loop_task (t : owner * task) : Prop :=
  t.1 = ByLoop → match t.2 with TDeliver _ _ _ => True | _ => False end.

Record rinv c : Prop := {
  ri_inv : xinv c;
  ri_flows : flows_ok c;
  ri_loop : Forall loop_task (xc_tasks c)
}.

Lemma cancelled_prefix es es' x : es `prefix_of` es' → x ∈ cancelled es → x ∈ cancelled es'.
Proof. intros [k ->] Hx. rewrite cancelled_app. apply elem_of_app. by left. Qed.

(** A step that closes the flows [X], and ends the closing of others only when their
    streams are cancelled. *)
Lemma flows_ok_settled X c c' : settled X (xc_sess c) (xc_sess c') →
  (∀ r, r ∈ X → closing r c') →
  (∀ r f, closing r c → s_rfs (xc_sess c') !! r = Some f →
     closing r c' ∨ streams_cancelled (xc_sess c') f) →
  flows_ok c → flows_ok c'.
Proof.
  intros [Hes Hst] HX Hcl Hok r f' Hr' Hx'.
  destruct (Hst r f' Hr' Hx') as [?|(f & Hr & Hx & Hsub)]; [left; auto|].
  destruct (Hok r f Hr Hx) as [?|Hc]; [eauto|right]. intros k [rs Hk].
  eapply cancelled_prefix; [done|]. apply Hc. exists rs. by eapply lookup_weaken.
Qed.

(** The usual case: nothing is closed, and the tasks that close flows stay. *)
Lemma flows_ok_quiet c c' : settled [] (xc_sess c) (xc_sess c') → xc_closer c' = xc_closer c →
  (∀ who t r, (who, t) ∈ xc_tasks c → closes_flow r t → (who, t) ∈ xc_tasks c') →
  flows_ok c → flows_ok c'.
Proof.
  intros Hs Hcl Hts. apply (flows_ok_settled []); [done|by intros r ?%not_elem_of_nil|].
  intros r f [Hp|(who & t & Hin & Ht)] _; left; [left; by rewrite Hcl|right; eauto 6].
Qed.

(** *** The steps *)

(** What a step preserves beside [xinv]. *)
Definition reads_ok c : Prop := flows_ok c ∧ Forall loop_task (xc_tasks c).

Lemma reads_same c c' : settled [] (xc_sess c) (xc_sess c') → xc_closer c' = xc_closer c →
  xc_tasks c' = xc_tasks c → reads_ok c → reads_ok c'.
Proof. intros Hs Hcl Hts [Hf Hl]. split; [|by rewrite Hts]. apply (flows_ok_quiet c); try done. by rewrite Hts. Qed.

Lemma reads_spawn who t s' c : settled [] (xc_sess c) s' → loop_task (who, t) → reads_ok c →
  reads_ok (spawn who t (xwith_sess s' c)).
Proof.
  intros Hs Ht [Hf Hl]. split.
  - apply (flows_ok_quiet c); try done. intros who0 t0 r Hin _. simpl. apply elem_of_app. by left.
  - simpl. apply Forall_app. split; [done|]. by apply Forall_singleton.
Qed.

Lemma reads_spawn_here who t c : loop_task (who, t) → reads_ok c → reads_ok (spawn who t c).
Proof.
  intros Ht Hc. rewrite <- (xwith_sess_id c) at 1. apply reads_spawn; [apply settled_refl|done..].
Qed.

Lemma reads_begin_close code reason who c c' : begin_close code reason who c = Some (Ret c') →
  reads_ok c → reads_ok c'.
Proof.
  unfold begin_close. destruct (xc_closer c) eqn:Hcl; [done|].
  destruct (s_closedErr (xc_sess c)); intros [= <-]; [by destruct who|]. intros [Hf Hl]. split; [|done].
  apply (flows_ok_settled [] c); [by apply settled_rfs|by intros r ?%not_elem_of_nil| |done].
  intros r f [Hp|Ht] _; [by rewrite Hcl in Hp|left; by right].
Qed.

Lemma reads_begin_datagram who d c c' : begin_datagram who d c = Some (Ret c') → reads_ok c → reads_ok c'.
Proof.
  unfold begin_datagram. destruct (quicvarint_Parse d) as [[id n]|e]; [|apply reads_begin_close].
  intros [= Hrun]. apply bind_ret_inv in Hrun as ([r s1] & Hl%HandleDatagram_lookup_settled & [= <-]).
  by apply reads_spawn.
Qed.

Lemma reads_begin_stream who id rs c c' : who ≠ ByLoop → begin_stream who id rs c = Ret c' →
  reads_ok c → reads_ok c'.
Proof.
  unfold begin_stream. intros Hwho ([r s1] & Hl%HandleUniStream_lookup_settled & [= <-])%bind_ret_inv.
  apply reads_spawn; [done|]. by intros ?.
Qed.

Lemma reads_begin_call t c c' : begin_call t c = Some (Ret c') → reads_ok c → reads_ok c'.
Proof.
  unfold begin_call. destruct (xc_closer c); [done|]. destruct (Session_isClosed _); intros [= <-]; [done|].
  by apply reads_spawn_here.
Qed.

Lemma reads_begin_flow_call r t c c' : begin_flow_call r t c = Some (Ret c') → reads_ok c → reads_ok c'.
Proof.
  unfold begin_flow_call. case_decide; [|done]. intros [= Hrun].
  apply bind_ret_inv in Hrun as (f & _ & Hrun). destruct (isClosed f); injection Hrun as <-; [done|].
  by apply reads_spawn_here.
Qed.

(** A task that closes a flow goes on until the streams are cancelled. *)
Lemma closing_task_next t r s next s' late f : tables_inv s → closes_flow r t →
  run_task t s = Ret (next, s', late) → s_rfs s' !! r = Some f →
  (∃ t', next = Some t' ∧ closes_flow r t') ∨ streams_cancelled s' f.
Proof.
  intros Ht Hcl Hrun Hr'. destruct t; try done; simpl in Hcl; subst; cbn [run_task] in Hrun.
  - apply bind_ret_inv in Hrun as (s1 & _ & [= <- <- _]). left. by eexists.
  - right. apply bind_ret_inv in Hrun as (s1 & Hn & [= <- <- _]).
    assert (∃ f0, s_rfs s !! r = Some f0) as [f0 Hr].
    { revert Hn. unfold flow_closeStreams. intros (f0 & ?%deref_inv & _)%bind_ret_inv. eauto. }
    destruct (flow_closeStreams_moves r f0 s Ht Hr) as (s2 & Hn2 & _ & _ & Hsame & Hst).
    rewrite Hn2 in Hn. injection Hn as ->. rewrite Hsame, Hr in Hr'. by injection Hr' as <-.
Qed.

Lemma loop_task_next who t s next s' late t' : run_task t s = Ret (next, s', late) → next = Some t' →
  loop_task (who, t) → loop_task (who, t').
Proof.
  intros Hrun -> Hl Hwho. specialize (Hl Hwho). destruct t; try done. cbn [run_task] in Hrun.
  by apply bind_ret_inv in Hrun as (s1 & _ & [=]).
Qed.

Lemma reads_task i c c' : xinv c → xexec (XTask i) c = Some (Ret c') → reads_ok c → reads_ok c'.
Proof.
  intros Hx. cbn [xexec]. destruct (xc_tasks c !! i) as [[who t]|] eqn:Hi; [|done]. cbn [mbind option_bind].
  destruct (task_blocked _ t); [done|]. intros Hrun [Hf Hl]. injection Hrun as Hrun.
  apply bind_ret_inv in Hrun as ([[next s'] [[newS newR] newT]] & Hrun & [= <-]).
  pose proof (lookup_lt_Some _ _ _ Hi) as Hlt. split.
  - apply (flows_ok_settled [] c); [by eapply task_settled|by intros r ?%not_elem_of_nil| |done].
    intros r f Hcl Hr. destruct Hcl as [?|(who0 & t0 & [j Hj]%list_elem_of_lookup & Hc0)]; [left; by left|].
    simpl in Hr. destruct (decide (j = i)) as [->|Hne].
    + rewrite Hi in Hj. injection Hj as <- <-.
      destruct (closing_task_next t r _ _ _ _ _ (xi_tables _ Hx) Hc0 Hrun Hr) as [(t' & -> & Hc')|]; [|by right].
      left. right. exists who, t'. split; [|done]. simpl. apply list_elem_of_lookup. exists i. by apply list_lookup_insert_eq.
    + left. right. exists who0, t0. split; [|done]. simpl. destruct next as [t'|].
      * apply list_elem_of_lookup. exists j. by rewrite list_lookup_insert_ne.
      * by eapply elem_of_delete_ne.
  - simpl. destruct next as [t'|]; [|by apply Forall_delete]. apply Forall_insert; [done|].
    eapply loop_task_next; [done..|]. exact (Forall_lookup_1 _ _ _ _ Hl Hi).
Qed.

Lemma closeSendFlow_settled r s err s' : closeSendFlow r s = Ret (err, s') → settled [] s s'.
Proof.
  unfold closeSendFlow. intros (f & _ & ([[[e f1] c] m] & _ & [= _ <-])%bind_ret_inv)%bind_ret_inv.
  by apply settled_rfs.
Qed.

Lemma close_step_phase code reason p s p' s' :
  close_step code reason p s = Ret (p', s') → next_phase p p'.
Proof.
  destruct p as [|[|[k r] l]|[|[k r] l]|r l|r l|]; cbn [close_step next_phase].
  - intros [= <- <-]. by eexists.
  - intros [= <- <-]. by eexists.
  - by intros ([err s1] & _ & [= <- <-])%bind_ret_inv.
  - destruct (CloseWithError _ _ _). by intros [= <- <-].
  - by intros (s1 & _ & [= <- <-])%bind_ret_inv.
  - by intros (s1 & _ & [= <- <-])%bind_ret_inv.
  - by intros (s1 & _ & [= <- <-])%bind_ret_inv.
  - by intros [= <- <-].
Qed.

(** The phases of [close]. *)
Lemma close_step_settled code reason p s p' s' : close_step code reason p s = Ret (p', s') →
  settled (match p with PReceive ((_, r) :: _) => [r] | _ => [] end) s s'.
Proof.
  destruct p as [|[|[k r] l]|[|[k r] l]|r l|r l|]; cbn [close_step].
  - intros [= <- <-]. apply settled_refl.
  - intros [= <- <-]. apply settled_refl.
  - intros ([err s1] & Hc%closeSendFlow_settled & [= <- <-])%bind_ret_inv. done.
  - destruct (CloseWithError _ _ _). intros [= <- <-]. by apply settled_rfs.
  - intros (s1 & Hc & [= <- <-])%bind_ret_inv. revert Hc. unfold flow_cancelCtx.
    intros (f & Hr%deref_inv & [= <-])%bind_ret_inv. split; [done|]. intros r0 f0 Hr0 Hx0. simpl in Hr0.
    destruct (decide (r0 = r)) as [->|]; [left; apply list_elem_of_here|right].
    rewrite list_lookup_insert_ne in Hr0 by done. by exists f0.
  - intros (s1 & Hc & [= <- <-])%bind_ret_inv. revert Hc. unfold flow_closeBuffer.
    intros (f & Hr%deref_inv & (f1 & Hc%closeBuffer_same & [= <-])%bind_ret_inv)%bind_ret_inv.
    eapply settled_set_rf'; [done|]. by apply same_reads_settled.
  - intros (s1 & Hc & [= <- <-])%bind_ret_inv. revert Hc. unfold flow_closeStreams.
    intros (f & _ & [= <-])%bind_ret_inv. apply settled_emit.
  - intros [= <- <-]. by apply settled_rfs.
Qed.

Lemma closing_phase_next code reason p r s p' s' who f : tables_inv s →
  closing_phase r (Some (mkCloser code reason p who)) → close_step code reason p s = Ret (p', s') →
  s_rfs s' !! r = Some f →
  closing_phase r ((λ p, mkCloser code reason p who) <$> p') ∨ streams_cancelled s' f.
Proof.
  intros Ht Hcl Hrun Hr. destruct p; try done; simpl in Hcl; subst; cbn [close_step] in Hrun.
  - left. by apply bind_ret_inv in Hrun as (s1 & _ & [= <- <-]).
  - right. apply bind_ret_inv in Hrun as (s1 & Hn & [= <- <-]).
    destruct (closing_task_next (TCloseStreams r) r s None s1 ([], [], []) f Ht) as [(? & ? & _)|?]; try done.
    cbn [run_task]. by rewrite Hn.
Qed.

Lemma reads_close_step c c' : xinv c → xexec XCloseStep c = Some (Ret c') → reads_ok c → reads_ok c'.
Proof.
  intros Hx. cbn [xexec]. destruct (xc_closer c) as [[code reason p who]|] eqn:Hcl; [|done].
  cbn [mbind option_bind cl_code cl_reason cl_phase cl_owner]. intros Hrun [Hf Hl]. injection Hrun as Hrun.
  apply bind_ret_inv in Hrun as ([p' s'] & Hrun & Hret).
  assert (xc_sess c' = s' ∧ xc_closer c' = (λ p, mkCloser code reason p who) <$> p' ∧ xc_tasks c' = xc_tasks c)
    as (Es & Ecl & Ets).
  { destruct p'; injection Hret as <-; [done|]. by destruct who. }
  split; [|by rewrite Ets].
  eapply (flows_ok_settled _ c); [rewrite Es; by eapply close_step_settled| | |done].
  - intros r Hin. apply close_step_phase in Hrun. destruct p as [|l|[|[k r0] l]|r0 l|r0 l|]; try by apply not_elem_of_nil in Hin.
    simpl in Hrun. apply list_elem_of_singleton in Hin as ->. left. rewrite Ecl, Hrun. done.
  - intros r f [Hp|(w & t & Hin & Ht)] Hr.
    + rewrite Hcl in Hp. rewrite Es in *.
      destruct (closing_phase_next _ _ _ _ _ _ _ _ _ (xi_tables _ Hx) Hp Hrun Hr); [left; left; by rewrite Ecl|by right].
    + left. right. exists w, t. by rewrite Ets.
Qed.

Lemma reads_handler i c c' : xexec (XHandler i) c = Some (Ret c') → reads_ok c → reads_ok c'.
Proof.
  cbn [xexec]. destruct (xc_handlers c !! i) as [rs|]; [|done]. cbn [mbind option_bind].
  destruct (handler_blocked _ rs); [done|]. intros He Hok.
  assert (reads_ok (xwith_goroutines (xc_loops c) (delete i (xc_handlers c)) c)) as Hok1 by exact Hok.
  destruct (quicvarint_Read _) as [[id|e] rd]; injection He as He.
  - by apply reads_begin_stream in He.
  - subst c'. apply (reads_same c); try done. apply settled_emit.
Qed.

Lemma conn_settled cn s : settled [] s (set_conn cn s).
Proof. by apply settled_rfs. Qed.

Lemma reads_receive c c' : xexec XReceiveDatagram c = Some (Ret c') → reads_ok c → reads_ok c'.
Proof.
  cbn [xexec]. case_decide; [|done]. destruct (loop_busy c); [done|]. unfold conn_ReceiveDatagram.
  destruct (ReceiveDatagram _ _) as [[res cn]|]; [|done]. cbn [mbind option_bind]. intros He Hok.
  assert (reads_ok (xwith_sess (set_conn cn (xc_sess c)) c)) as Hok1 by (by apply (reads_same c); [apply conn_settled|..]).
  destruct res; [by apply reads_begin_datagram in He|]. injection He as <-. done.
Qed.

Lemma reads_step l c c' : xinv c → xexec l c = Some (Ret c') → reads_ok c → reads_ok c'.
Proof.
  intros Hx He Hok. destruct l; cbn [xexec] in He.
  - case_decide; [|done]. by eapply reads_begin_call.
  - by eapply reads_begin_call.
  - by eapply reads_begin_flow_call.
  - by eapply reads_begin_flow_call.
  - case_decide; [|done]. injection He as He. apply bind_ret_inv in He as (s' & Hc & [= <-]).
    destruct Hok as [Hf Hl]. split; [|simpl; apply Forall_app; split; [done|by apply Forall_singleton]].
    assert (close_step 0 "" (PReceive [(0%Z, r)]) (xc_sess c) = Ret (Some (PCloseBuffer r []), s')) as Hst
      by (cbn [close_step]; by rewrite Hc).
    apply (flows_ok_settled [r] c); [exact (close_step_settled _ _ _ _ _ _ Hst)| | |done].
    + intros r0 ->%list_elem_of_singleton. right. exists ByApp, (TCloseBuffer r). split; [|done].
      simpl. apply elem_of_app. right. apply list_elem_of_here.
    + intros r0 f [?|(w & t & Hin & Ht)] _; left; [by left|right]. exists w, t. split; [|done].
      simpl. apply elem_of_app. by left.
  - destruct (op_single o) eqn:Hs; [|done]. destruct (op_ok o (xc_sess c)) eqn:Ho; [|done].
    injection He as He. apply bind_ret_inv in He as (s' & Hrun & [= <-]).
    apply (reads_same c); try done. exact (op_settled o _ _ (xi_tables _ Hx) Hs Ho Hrun).
  - by eapply reads_begin_datagram.
  - destruct (stream_ok rs); [|done]. injection He as He. by apply reads_begin_stream in He.
  - by apply (reads_task i c c').
  - by eapply reads_begin_close.
  - by apply (reads_close_step c c').
  - destruct (xc_closer c); [done|]. destruct (xc_waiting c); [done|]. destruct (goroutines_done c); [|done].
    destruct (Close_finish_cases (xc_sess c)) as (es & b & Hf & _). rewrite Hf in He. injection He as <-.
    apply (reads_same c); try done. simpl. apply settled_rfs; [by apply prefix_app_r|done].
  - injection He as <-. apply (reads_same c); try done. apply conn_settled.
  - by apply (reads_receive c c').
  - case_decide; [|done]. unfold conn_AcceptUniStream in He.
    destruct (AcceptUniStream _ _) as [[res cn]|]; [|done]. injection He as <-.
    apply (reads_same c); destruct res; try done; apply conn_settled.
  - by apply (reads_handler i c c').
Qed.

Lemma rinv_step l c c' : rinv c → xexec l c = Some (Ret c') → rinv c'.
Proof.
  intros [Hx Hf Hl] He. destruct (xexec_ret l c c' Hx He) as [Hx' _].
  destruct (reads_step l c c' Hx He) as [Hf' Hl']; [done|]. by split.
Qed.

Lemma xreachable_rinv c : xreachable c → rinv c.
Proof.
  intros Hc. pose proof Hc as (conn & tr & acc & config & loops & Hok & Hcc & _ & Hsteps).
  assert (rinv (xinit (newSession conn tr acc config) loops)) as Hinit.
  { split; [by apply xinit_inv| |by constructor]. by intros r f Hr. }
  clear Hc Hok Hcc. induction Hsteps as [|c1 c2 c3 [l Hstep] _ IH]; [done|]. apply IH. by eapply rinv_step.
Qed.
End cancelled_streams.

(** ** Completing a shutdown *)

Section completion.
Context `{QuicVarintLaws, !GoPool, !GoMapOrder} {C : Type} `{ConnectionLaws C, !ConnectionReturns C}.
Implicit Types (s : Session C) (c : xconfig C).

(** The [Close] calls that have not returned. *)
Definition pending_closes c : nat :=
  xc_waiting c + match xc_closer c with
                 | Some cl => match cl_owner cl with None => 1 | Some _ => 0 end
                 | None => 0
                 end.

(** A closed session, in which no call is about to panic. *)
Record down_inv c : Prop := {
  di_inv : rinv c;
  di_closed : s_closedErr (xc_sess c) ≠ None;
  di_fits : Forall (λ t, task_fits t.2 = true) (xc_tasks c)
}.

Lemma di_x c : down_inv c → xinv c.
Proof. intros Hd. apply Hd. Qed.

(** The steps by which what is in progress goes on: the application makes no further
    call, and nothing more arrives from the network. *)
Definition goes_on (l : xlabel) : bool :=
  match l with
  | XTask _ | XCloseStep | XCloseReturn | XReceiveDatagram | XAcceptStream | XHandler _ => true
  | _ => false
  end.

Definition own_step c c' : Prop := ∃ l, goes_on l = true ∧ xexec l c = Some (Ret c').

(** Such steps of such a session, which lose no [Close] call. *)
Definition runs_to c c' : Prop := rtc own_step c c' ∧ down_inv c' ∧
  length (xc_returned c') + pending_closes c' = length (xc_returned c) + pending_closes c.

Lemma runs_to_trans c1 c2 c3 : runs_to c1 c2 → runs_to c2 c3 → runs_to c1 c3.
Proof. intros (? & ? & ?) (? & ? & ?). split_and!; try done; [by etrans|lia]. Qed.

Lemma runs_to_down c c' : runs_to c c' → down_inv c'.
Proof. by intros (_ & ? & _). Qed.

Lemma runs_to_step l c c' : goes_on l = true → down_inv c → xexec l c = Some (Ret c') →
  Forall (λ t, task_fits t.2 = true) (xc_tasks c') →
  length (xc_returned c') + pending_closes c' = length (xc_returned c) + pending_closes c → runs_to c c'.
Proof.
  intros Hl [Hr Hne _] He Hfit Hn. destruct (xexec_ret l c c' (ri_inv _ Hr) He) as [_ Ha].
  destruct (Ha Hne) as [Hce _]. split_and!; [by apply rtc_once; exists l| |done].
  split; [by eapply rinv_step|congruence|done].
Qed.

(** [close] is never blocked, and moves on to its next phase. *)
Lemma closer_advances c cl : down_inv c → xc_closer c = Some cl →
  ∃ c' p', xexec XCloseStep c = Some (Ret c') ∧ runs_to c c' ∧ next_phase (cl_phase cl) p' ∧
    xc_closer c' = (λ p, mkCloser (cl_code cl) (cl_reason cl) p (cl_owner cl)) <$> p'.
Proof.
  intros Hd Hcl. pose proof (di_x c Hd) as Hx. pose proof (xi_closer c Hx) as Hok. rewrite Hcl in Hok.
  pose proof (xi_left c Hx) as Hl. rewrite Hcl in Hl. destruct cl as [code reason p who].
  destruct (close_step_ok code reason p _ _ _ who (xi_tables c Hx) Hok Hl) as (p' & s' & Hrun & _).
  apply close_step_phase in Hrun as Hnext.
  assert (∃ c', xexec XCloseStep c = Some (Ret c') ∧ xc_returned c' = xc_returned c ∧
    pending_closes c' = pending_closes c ∧ xc_tasks c' = xc_tasks c ∧
    xc_closer c' = (λ p, mkCloser code reason p who) <$> p') as (c' & He & Hr & Hp & Hts & Hcl').
  { cbn [xexec]. rewrite Hcl. cbn [mbind option_bind cl_code cl_reason cl_phase cl_owner].
    rewrite Hrun. bind_simpl. unfold pending_closes. rewrite Hcl.
    destruct p'; (eexists; split; [done|]); [done|]. destruct who; simpl; split_and!; try done; lia. }
  exists c', p'. split_and!; try done.
  apply (runs_to_step XCloseStep c c' eq_refl Hd He); [by rewrite Hts; apply Hd|by rewrite Hr, Hp].
Qed.

Definition closes_down c : Prop := ∃ c', runs_to c c' ∧ xc_closer c' = None.

Lemma closer_step_down c cl : down_inv c → xc_closer c = Some cl →
  (∀ c' p', down_inv c' → next_phase (cl_phase cl) p' →
     xc_closer c' = (λ p, mkCloser (cl_code cl) (cl_reason cl) p (cl_owner cl)) <$> p' → closes_down c') →
  closes_down c.
Proof.
  intros Hx Hcl Hnext. destruct (closer_advances c cl Hx Hcl) as (c1 & p' & _ & Hrun & Hp & Hcl1).
  destruct (Hnext c1 p' (runs_to_down _ _ Hrun) Hp Hcl1) as (c2 & Hrun2 & Hn).
  exists c2. split; [by eapply runs_to_trans|done].
Qed.

Lemma runs_to_refl c : down_inv c → runs_to c c.
Proof. intros. by split_and!; [apply rtc_refl|..]. Qed.

Lemma closes_down_cancel c code reason who : down_inv c →
  xc_closer c = Some (mkCloser code reason PCancel who) → closes_down c.
Proof.
  intros Hx Hcl. apply (closer_step_down _ _ Hx Hcl). intros c' p' Hx' -> Hcl'.
  exists c'. split; [by apply runs_to_refl|done].
Qed.

(** The rest of the three sections of a receive flow. *)
Lemma closes_down_sections r l c code reason who p : down_inv c → p = PCloseBuffer r l ∨ p = PCloseStreams r l →
  xc_closer c = Some (mkCloser code reason p who) →
  (∀ c', down_inv c' → xc_closer c' = Some (mkCloser code reason (PReceive l) who) → closes_down c') →
  closes_down c.
Proof.
  intros Hx Hp Hcl Hrest.
  assert (∀ c', down_inv c' → xc_closer c' = Some (mkCloser code reason (PCloseStreams r l) who) → closes_down c') as Hstr.
  { intros c1 Hx1 Hcl1. apply (closer_step_down _ _ Hx1 Hcl1). intros c' p' Hx' -> Hcl'. by apply Hrest. }
  destruct Hp as [->| ->]; [|by apply Hstr].
  apply (closer_step_down _ _ Hx Hcl). intros c' p' Hx' -> Hcl'. by apply Hstr.
Qed.

Lemma closes_down_receive l c code reason who : down_inv c →
  xc_closer c = Some (mkCloser code reason (PReceive l) who) → closes_down c.
Proof.
  revert c. induction l as [|[k r] l IH]; intros c Hx Hcl; apply (closer_step_down _ _ Hx Hcl);
    intros c' p' Hx' Hp Hcl'; simpl in Hp; subst p'; simpl in Hcl'; [by eapply closes_down_cancel|].
  eapply (closes_down_sections r l); [done|by left|done|]. intros c2 Hx2 Hcl2. by eapply IH.
Qed.

Lemma closes_down_send l c code reason who : down_inv c →
  xc_closer c = Some (mkCloser code reason (PSend l) who) → closes_down c.
Proof.
  revert c. induction l as [|x l IH]; intros c Hx Hcl; apply (closer_step_down _ _ Hx Hcl);
    intros c' p' Hx' Hp Hcl'; simpl in Hp; [destruct Hp as [l' ->]|subst p'];
    simpl in Hcl'; [by eapply closes_down_receive|by eapply IH].
Qed.

Lemma closer_finishes c : down_inv c → closes_down c.
Proof.
  intros Hx. destruct (xc_closer c) as [[code reason p who]|] eqn:Hcl.
  2:{ exists c. split; [by apply runs_to_refl|done]. }
  destruct p as [|l|l|r l|r l|].
  - apply (closer_step_down _ _ Hx Hcl). intros c' p' Hx' [l ->] Hcl'. simpl in Hcl'.
    by eapply closes_down_send.
  - by eapply closes_down_send.
  - by eapply closes_down_receive.
  - eapply (closes_down_sections r l); [done|by left|done|]. intros c' Hx' Hcl'. by eapply closes_down_receive.
  - eapply (closes_down_sections r l); [done|by right|done|]. intros c' Hx' Hcl'. by eapply closes_down_receive.
  - by eapply closes_down_cancel.
Qed.

(** A task goes on to its end; the goroutines stay as they are. *)
Definition same_goroutines c c' : Prop :=
  xc_closer c' = xc_closer c ∧ xc_loops c' = xc_loops c ∧ xc_handlers c' = xc_handlers c ∧
  xc_waiting c' = xc_waiting c ∧ xc_returned c' = xc_returned c.

Lemma HandleDatagram_deliver_conn id d r s s' : HandleDatagram_deliver id d r s = Ret s' → s_conn s' = s_conn s.
Proof.
  unfold HandleDatagram_deliver. intros (f & _ & Hrun)%bind_ret_inv. destruct (pool_Get (rf_buffer f)) as [b pb].
  repeat (apply bind_ret_inv in Hrun as (? & _ & Hrun)). by injection Hrun as <-.
Qed.

(** How many sections a task still has, at most. *)
Definition task_size (t : task) : nat :=
  match t with
  | TNewSendFlow _ | TNewReceiveFlow _ | TWriteDatagram _ _ | TAppendStream _ _ | TDeliver _ _ _
  | TUnregister _ _ | TCloseStreams _ => 1
  | TOpenStream _ _ _ | TCloseBuffer _ => 2
  | TReadFrame _ rd _ => length (rd_data rd) + 2
  | TRegister rs _ => length (rd_data (rs_reader rs)) + 3
  end.

Lemma task_shrinks t s next s' late : tables_inv s → task_ok s t → run_task t s = Ret (next, s', late) →
  match next with Some t' => task_size t' | None => 0 end < task_size t.
Proof.
  intros Ht Hok. destruct t; cbn [run_task]; intros Hrun;
    try (repeat (apply bind_ret_inv in Hrun as (? & _ & Hrun)); repeat case_match; simplify_eq; simpl; lia).
  destruct Hok as [Hr Hwf].
  destruct (flow_readFrame_moves (rs_ID rs) rd r s Ht Hr Hwf) as (nx & s1 & Hrd & _ & _ & Hless).
  rewrite Hrd in Hrun. injection Hrun as <- _ _. destruct nx as [rd'|]; simpl; [|lia].
  destruct (Hless rd' eq_refl). lia.
Qed.

(** A task that is not blocked goes on. *)
Lemma task_advances c i who t : down_inv c → xc_tasks c !! i = Some (who, t) →
  task_blocked (xc_sess c) t = false →
  ∃ c' next, runs_to c c' ∧ same_goroutines c c' ∧
    xc_tasks c' = match next with Some t' => <[i := (who, t')]> (xc_tasks c) | None => delete i (xc_tasks c) end ∧
    match next with Some t' => task_size t' | None => 0 end < task_size t ∧
    (∀ id d r, t = TDeliver id d r → next = None ∧ s_conn (xc_sess c') = s_conn (xc_sess c)).
Proof.
  intros Hd Hi Hb. pose proof (di_x c Hd) as Hx. pose proof (Forall_lookup_1 _ _ _ _ (xi_tasks c Hx) Hi) as Hok.
  pose proof (Forall_lookup_1 _ _ _ _ (di_fits c Hd) Hi) as Hfit. cbn [snd] in Hok, Hfit.
  destruct (run_task_ok t _ (xi_tables c Hx) Hok Hfit)
    as (next & s' & newS & newR & newT & _ & _ & Hrun & _ & _ & _ & Hnext & _).
  assert (∃ c', xexec (XTask i) c = Some (Ret c') ∧ same_goroutines c c' ∧
    xc_tasks c' = match next with Some t' => <[i := (who, t')]> (xc_tasks c) | None => delete i (xc_tasks c) end ∧
    xc_sess c' = s') as (c' & He & Hg & Hts' & Hs').
  { cbn [xexec]. rewrite Hi. cbn [mbind option_bind]. rewrite Hb, Hrun. bind_simpl.
    eexists; split; [done|]. split_and!; done. }
  exists c', next. split_and!; try done.
  - apply (runs_to_step (XTask i) c c' eq_refl Hd He).
    + rewrite Hts'. destruct next as [t'|]; [|apply Forall_delete, Hd].
      apply Forall_insert; [apply Hd|]. destruct (Hnext t' eq_refl) as [_ Hcr]. by destruct t'.
    + unfold pending_closes. destruct Hg as (-> & _ & _ & -> & ->). done.
  - exact (task_shrinks t _ _ _ _ (xi_tables c Hx) Hok Hrun).
  - intros id d r ->. cbn [run_task] in Hrun. apply bind_ret_inv in Hrun as (s1 & Hdel & [= <- <- <- <- <-]).
    split; [done|]. rewrite Hs'. by eapply HandleDatagram_deliver_conn.
Qed.

Lemma same_goroutines_trans c1 c2 c3 : same_goroutines c1 c2 → same_goroutines c2 c3 → same_goroutines c1 c3.
Proof. unfold same_goroutines. intuition congruence. Qed.

(** The tasks run until all of those that are left are blocked. *)
Definition tasks_size (ts : list (owner * task)) : nat := sum_list_with (λ t, task_size t.2) ts.

Definition all_blocked c : Prop := Forall (λ t, task_blocked (xc_sess c) t.2 = true) (xc_tasks c).

Lemma tasks_size_next i who t next ts : ts !! i = Some (who, t) →
  match next with Some t' => task_size t' | None => 0 end < task_size t →
  tasks_size (match next with Some t' => <[i := (who, t')]> ts | None => delete i ts end) < tasks_size ts.
Proof.
  unfold tasks_size. revert i. induction ts as [|[who0 t0] ts IH]; intros [|i]; simpl; try done.
  - intros [= <- <-] Hless. destruct next; simpl; lia.
  - intros Hi Hless. specialize (IH i Hi Hless). destruct next; simpl; lia.
Qed.

Lemma tasks_settle n c : down_inv c → tasks_size (xc_tasks c) < n →
  ∃ c', runs_to c c' ∧ same_goroutines c c' ∧ all_blocked c'.
Proof.
  revert c. induction n as [|n IH]; intros c Hd Hn; [lia|].
  destruct (decide (all_blocked c)) as [?|Hnot]; [exists c; split_and!; [by apply runs_to_refl|done..]|].
  assert (∃ i who t, xc_tasks c !! i = Some (who, t) ∧ task_blocked (xc_sess c) t = false) as (i & who & t & Hi & Hb).
  { apply not_Forall_Exists, Exists_exists in Hnot as ([who t] & [i Hi]%list_elem_of_lookup & Hb); [|apply _].
    exists i, who, t. split; [done|]. by apply not_true_is_false. }
  destruct (task_advances c i who t Hd Hi Hb) as (c1 & next & Hr1 & Hg1 & Hts1 & Hless & _).
  destruct (IH c1 (runs_to_down _ _ Hr1)) as (c2 & Hr2 & Hg2 & ?).
  { rewrite Hts1. pose proof (tasks_size_next i who t next _ Hi Hless). lia. }
  exists c2. split_and!; [by eapply runs_to_trans|by eapply same_goroutines_trans|done].
Qed.

(** [receiveDatagrams] is never blocked. *)
Definition loop_idle c : Prop := Forall (λ t, t.1 ≠ ByLoop) (xc_tasks c).

Lemma all_blocked_idle c : down_inv c → all_blocked c → loop_idle c.
Proof.
  intros [[_ _ Hl] _ _] Hb. unfold all_blocked in Hb. apply Forall_forall. intros [who t] Hin Hwho.
  rewrite Forall_forall in Hl. rewrite Forall_forall in Hb. specialize (Hl _ Hin Hwho). specialize (Hb _ Hin).
  by destruct t.
Qed.

Lemma loop_busy_false c : loop_idle c → xc_closer c = None → loop_busy c = false.
Proof.
  intros Hi Hcl. unfold loop_busy. rewrite Hcl, orb_false_r. apply not_true_is_false.
  intros ([who t] & Hin%list_elem_of_In & Hb%bool_decide_eq_true)%existsb_exists.
  unfold loop_idle in Hi. rewrite Forall_forall in Hi. by apply (Hi _ Hin).
Qed.

(** The receive loops return. *)
Lemma list_difference_absent (x : loop) l : x ∉ l → list_difference l [x] = l.
Proof.
  intros Hnot. induction l as [|y l IH]; [done|]. apply not_elem_of_cons in Hnot as [Hxy Hnot]. simpl.
  destruct (decide_rel _ y [x]) as [Hy|_]; [by apply list_elem_of_singleton in Hy|by f_equal; auto].
Qed.

Lemma closed_ctxDone c : down_inv c → xc_closer c = None →
  s_ctxDone (xc_sess c) = true.
Proof.
  intros Hd Hcl. pose proof (di_closed c Hd) as Hne. pose proof (xi_closer c (di_x c Hd)) as Hok. rewrite Hcl in Hok. simpl in Hok.
  destruct (s_closedErr _); [apply Hok|done].
Qed.

Lemma accept_down n c : down_inv c → xc_closer c = None →
  streams_left (s_conn (xc_sess c)) < n →
  ∃ c', runs_to c c' ∧ xc_closer c' = None ∧ xc_loops c' = list_difference (xc_loops c) [LoopUniStreams].
Proof.
  revert c. induction n as [|n IH]; intros c Hd Hcl Hn; [lia|].
  destruct (decide (LoopUniStreams ∈ xc_loops c)) as [Hin|Hnot].
  2:{ exists c. split_and!; [by apply runs_to_refl|done|by rewrite list_difference_absent]. }
  destruct (AcceptUniStream_returns (s_conn (xc_sess c))) as (res & cn & Hacc & Hless).
  assert (conn_AcceptUniStream (xc_sess c) = Some (res, set_conn cn (xc_sess c))) as Hr.
  { unfold conn_AcceptUniStream. by rewrite closed_ctxDone, Hacc. }
  set (c1 := xwith_sess (set_conn cn (xc_sess c)) c). destruct res as [rs|err].
  - set (c2 := xwith_goroutines (xc_loops c1) (xc_handlers c1 ++ [rs]) c1).
    assert (runs_to c c2) as Hr1.
    { apply (runs_to_step XAcceptStream c c2 eq_refl Hd); [|apply Hd|done]. cbn [xexec]. by rewrite decide_True, Hr. }
    specialize (Hless rs eq_refl). destruct (IH c2 (runs_to_down _ _ Hr1) Hcl) as (c3 & Hr3 & ?); [simpl; lia|].
    exists c3. split; [by eapply runs_to_trans|done].
  - set (c2 := xwith_goroutines (list_difference (xc_loops c1) [LoopUniStreams]) (xc_handlers c1) c1).
    exists c2. split; [|done]. apply (runs_to_step XAcceptStream c c2 eq_refl Hd); [|apply Hd|done].
    cbn [xexec]. by rewrite decide_True, Hr.
Qed.

(** A datagram that comes when the session is closed is handled at once. *)
Lemma datagram_handled d c : down_inv c → xc_closer c = None → loop_idle c →
  ∃ c1, begin_datagram ByLoop d c = Some (Ret c1) ∧ (down_inv c1 → ∃ c2, runs_to c1 c2 ∧ same_goroutines c c2 ∧
    loop_idle c2 ∧ s_conn (xc_sess c2) = s_conn (xc_sess c)) ∧
    xc_returned c1 = xc_returned c ∧ pending_closes c1 = pending_closes c ∧
    Forall (λ t, task_fits t.2 = true) (xc_tasks c1).
Proof.
  intros Hd Hcl Hidle. pose proof (di_closed c Hd) as Hne. pose proof (di_fits c Hd) as Hfit.
  unfold begin_datagram. destruct (quicvarint_Parse d) as [[id n]|e].
  2:{ unfold begin_close. rewrite Hcl. destruct (s_closedErr (xc_sess c)) eqn:He; [|done]. exists c.
    split_and!; try done. intros _. exists c. split_and!; [by apply runs_to_refl|done..]. }
  destruct (HandleDatagram_lookup id n d (xc_sess c)) as [[r s1]|p] eqn:Hlook; bind_simpl.
  2:{ revert Hlook. unfold HandleDatagram_lookup. set (es := record _ _).
    destruct (receiveFlow_moves id (emit es (xc_sess c))) as (r & s' & -> & _); [|done].
    apply tables_inv_emit, (di_x c Hd). }
  eexists. split; [done|]. split_and!; [|done..|].
  2:{ simpl. apply Forall_app. split; [done|]. by apply Forall_singleton. }
  intros Hd1. set (c1 := spawn _ _ _) in *.
  destruct (task_advances c1 (length (xc_tasks c)) ByLoop (TDeliver id d r) Hd1)
    as (c2 & next & Hr2 & Hg & Hts2 & _ & Hdel); [by apply list_lookup_middle|done|].
  destruct (Hdel id d r eq_refl) as [-> Hcn2]. exists c2. split_and!; try done.
  - unfold loop_idle. rewrite Hts2. simpl. by rewrite delete_middle, app_nil_r.
  - rewrite Hcn2. simpl. apply receiveFlow_keeps in Hlook as (_ & _ & Hcn). exact Hcn.
Qed.

Lemma datagrams_down n c : down_inv c → xc_closer c = None → loop_idle c →
  datagrams_left (s_conn (xc_sess c)) < n →
  ∃ c', runs_to c c' ∧ xc_closer c' = None ∧ xc_loops c' = list_difference (xc_loops c) [LoopDatagrams].
Proof.
  revert c. induction n as [|n IH]; intros c Hd Hcl Hidle Hn; [lia|].
  destruct (decide (LoopDatagrams ∈ xc_loops c)) as [Hin|Hnot].
  2:{ exists c. split_and!; [by apply runs_to_refl|done|by rewrite list_difference_absent]. }
  destruct (ReceiveDatagram_returns (s_conn (xc_sess c))) as (res & cn & Hrd & Hless).
  assert (conn_ReceiveDatagram (xc_sess c) = Some (res, set_conn cn (xc_sess c))) as Hr.
  { unfold conn_ReceiveDatagram. by rewrite closed_ctxDone, Hrd. }
  destruct (conn_ReceiveDatagram_moves _ _ _ (xi_tables c (di_x c Hd)) Hr) as [Ht Hq].
  set (c1 := xwith_sess (set_conn cn (xc_sess c)) c) in *.
  pose proof (loop_busy_false c Hidle Hcl) as Hb. destruct res as [d|err].
  - assert (down_inv c1) as Hd1.
    { destruct Hd as [[Hx Hf Hl] Hne Hfit]. destruct (sess_quiet_ok c _ Hx Ht Hq) as (? & [= <-] & Hx1 & _).
      split; [split; [exact Hx1| |done]|done..]. by apply (reads_same c c1); [apply conn_settled|..]. }
    destruct (datagram_handled d c1 Hd1 Hcl Hidle) as (c2 & Hbd & Hrest & Hret & Hpend & Hfit2).
    assert (runs_to c c2) as Hr2.
    { apply (runs_to_step XReceiveDatagram c c2 eq_refl Hd); [|done|by rewrite Hret, Hpend].
      cbn [xexec]. rewrite decide_True, Hb, Hr by done. exact Hbd. }
    destruct (Hrest (runs_to_down _ _ Hr2)) as (c3 & Hr3 & (E1 & E2 & _) & Hidle3 & Hcn3).
    unfold c1 in E1, E2. simpl in E1, E2. specialize (Hless d eq_refl).
    destruct (IH c3 (runs_to_down _ _ Hr3)) as (c4 & Hr4 & ? & ?);
      [by rewrite E1|done|rewrite Hcn3; simpl; lia|].
    exists c4. split_and!; [|congruence..]. eapply runs_to_trans; [done|]. by eapply runs_to_trans.
  - exists (xwith_goroutines (list_difference (xc_loops c1) [LoopDatagrams]) (xc_handlers c1) c1).
    split; [|done]. apply (runs_to_step XReceiveDatagram c _ eq_refl Hd); [|apply Hd|done].
    cbn [xexec]. by rewrite decide_True, Hb, Hr.
Qed.

(** The handlers run, until all of those that are left are blocked, and their tasks. *)
Definition handlers_blocked c : Prop := Forall (λ rs, handler_blocked (xc_sess c) rs = true) (xc_handlers c).

Lemma handler_advances c i rs : down_inv c → xc_handlers c !! i = Some rs →
  handler_blocked (xc_sess c) rs = false →
  ∃ c', runs_to c c' ∧ xc_closer c' = xc_closer c ∧ xc_handlers c' = delete i (xc_handlers c) ∧
    xc_loops c' = xc_loops c.
Proof.
  intros Hd Hi Hb. assert (∃ m, xexec (XHandler i) c = Some m) as [m He].
  { cbn [xexec]. rewrite Hi. cbn [mbind option_bind]. rewrite Hb. destruct (quicvarint_Read _) as [[] ?]; by eexists. }
  destruct (xexec_handler c i m (di_x c Hd) He) as (c1 & -> & _).
  assert (xc_closer c1 = xc_closer c ∧ xc_handlers c1 = delete i (xc_handlers c) ∧ xc_loops c1 = xc_loops c ∧
    xc_waiting c1 = xc_waiting c ∧ xc_returned c1 = xc_returned c ∧
    Forall (λ t, task_fits t.2 = true) (xc_tasks c1)) as (Hcl1 & Hhs1 & Hl1 & Hw1 & Hr1 & Hf1).
  { revert He. cbn [xexec]. rewrite Hi. cbn [mbind option_bind]. rewrite Hb.
    destruct (quicvarint_Read _) as [[id|e] r].
    - intros [= He]. apply bind_ret_inv in He as ([r0 s1] & _ & [= <-]). split_and!; try done. simpl.
      apply Forall_app. split; [apply Hd|by apply Forall_singleton].
    - intros [= <-]. split_and!; try done. apply Hd. }
  exists c1. split; [|done]. apply (runs_to_step (XHandler i) c c1 eq_refl Hd He Hf1).
  unfold pending_closes. by rewrite Hcl1, Hw1, Hr1.
Qed.

Lemma handlers_down n c : down_inv c → all_blocked c → length (xc_handlers c) < n →
  ∃ c', runs_to c c' ∧ xc_closer c' = xc_closer c ∧ xc_loops c' = xc_loops c ∧ all_blocked c' ∧ handlers_blocked c'.
Proof.
  revert c. induction n as [|n IH]; intros c Hd Hb Hn; [lia|].
  destruct (decide (handlers_blocked c)) as [?|Hnot]; [exists c; split_and!; [by apply runs_to_refl|done..]|].
  assert (∃ i rs, xc_handlers c !! i = Some rs ∧ handler_blocked (xc_sess c) rs = false) as (i & rs & Hi & Hrs).
  { apply not_Forall_Exists, Exists_exists in Hnot as (rs & [i Hi]%list_elem_of_lookup & Hrs); [|apply _].
    exists i, rs. split; [done|]. by apply not_true_is_false. }
  destruct (handler_advances c i rs Hd Hi Hrs) as (c1 & Hr1 & Hcl1 & Hhs1 & Hl1).
  destruct (tasks_settle _ c1 (runs_to_down _ _ Hr1) (Nat.lt_succ_diag_r _))
    as (c2 & Hr2 & (Hcl2 & Hl2 & Hhs2 & _) & Hb2).
  destruct (IH c2 (runs_to_down _ _ Hr2) Hb2) as (c3 & Hr3 & ? & ? & ? & ?).
  { rewrite Hhs2, Hhs1, length_delete by (by eexists). apply lookup_lt_Some in Hi. lia. }
  exists c3. split_and!; [|congruence..|done|done]. eapply runs_to_trans; [done|]. by eapply runs_to_trans.
Qed.

(** And the [Close] calls, when no goroutine is left. *)
Lemma Close_finish_reads s id : reading_blocks id (snd (Close_finish s)) = reading_blocks id s.
Proof.
  unfold Close_finish. destruct (s_qlogClosed s); [done|]. destruct (s_qlog s) as [q|]; [|done].
  unfold reading_blocks. simpl. by rewrite cancelled_app, app_nil_r.
Qed.

Lemma blocked_reads s s' t : (∀ id, reading_blocks id s' = reading_blocks id s) → task_blocked s' t = task_blocked s t.
Proof. intros Hs. destruct t; try done. cbn [task_blocked]. by rewrite Hs. Qed.

Lemma closes_return n c : down_inv c → xc_closer c = None → goroutines_done c = true → all_blocked c → xc_waiting c = n →
  ∃ c', runs_to c c' ∧ xc_closer c' = None ∧ goroutines_done c' = true ∧ all_blocked c' ∧ xc_waiting c' = 0.
Proof.
  revert c. induction n as [|n IH]; intros c Hd Hcl Hg Hb Hw.
  { exists c. split_and!; [by apply runs_to_refl|done..]. }
  destruct (Close_finish (xc_sess c)) as [err s'] eqn:Hf.
  set (c1 := xwith_waiting n (xc_returned c ++ [err]) (xwith_sess s' c)).
  assert (xexec XCloseReturn c = Some (Ret c1)) as He by (cbn [xexec]; by rewrite Hcl, Hw, Hg, Hf).
  assert (runs_to c c1) as Hr1.
  { apply (runs_to_step XCloseReturn c c1 eq_refl Hd He); [apply Hd|].
    unfold pending_closes. cbn. rewrite Hcl, Hw, length_app. simpl. lia. }
  destruct (IH c1 (runs_to_down _ _ Hr1)) as (c2 & Hr2 & ?); try done.
  - eapply Forall_impl; [exact Hb|]. intros t Ht. rewrite (blocked_reads (xc_sess c)); [done|].
    intros id. change (xc_sess c1) with s'. pose proof (Close_finish_reads (xc_sess c) id) as E. by rewrite Hf in E.
  - exists c2. split; [by eapply runs_to_trans|done].
Qed.

Lemma completes c : down_inv c → ∃ c', runs_to c c' ∧ xc_closer c' = None ∧ xc_loops c' = [] ∧
  all_blocked c' ∧ handlers_blocked c' ∧ (goroutines_done c' = true → xc_waiting c' = 0).
Proof.
  intros Hd. destruct (closer_finishes c Hd) as (c1 & Hr1 & Hcl1).
  destruct (accept_down _ c1 (runs_to_down _ _ Hr1) Hcl1 (Nat.lt_succ_diag_r _)) as (c2 & Hr2 & Hcl2 & Hl2).
  destruct (tasks_settle _ c2 (runs_to_down _ _ Hr2) (Nat.lt_succ_diag_r _)) as (c3 & Hr3 & (Hcl3 & Hl3 & _) & Hb3).
  pose proof (runs_to_down _ _ Hr3) as Hd3. rewrite Hcl2 in Hcl3.
  destruct (datagrams_down _ c3 Hd3 Hcl3 (all_blocked_idle _ Hd3 Hb3) (Nat.lt_succ_diag_r _)) as (c4 & Hr4 & Hcl4 & Hl4).
  destruct (tasks_settle _ c4 (runs_to_down _ _ Hr4) (Nat.lt_succ_diag_r _)) as (c5 & Hr5 & (Hcl5 & Hl5 & _) & Hb5).
  destruct (handlers_down _ c5 (runs_to_down _ _ Hr5) Hb5 (Nat.lt_succ_diag_r _)) as (c6 & Hr6 & Hcl6 & Hl6 & Hb6 & Hh6).
  assert (runs_to c c6) as Hr by eauto 7 using runs_to_trans.
  assert (xc_closer c6 = None) as Hcl by congruence.
  assert (xc_loops c6 = []) as Hl.
  { rewrite Hl6, Hl5, Hl4, Hl3, Hl2. apply elem_of_nil_inv.
    intros []; rewrite !list_elem_of_difference, !list_elem_of_singleton; naive_solver. }
  destruct (goroutines_done c6) eqn:Hg; [|by exists c6; rewrite Hg].
  destruct (closes_return _ c6 (runs_to_down _ _ Hr) Hcl Hg Hb6 eq_refl) as (c7 & Hr7 & Hcl7 & Hg7 & Hb7 & Hw7).
  exists c7. pose proof Hg7 as (? & Hh7 & _)%goroutines_done_spec.
  split_and!; try done; [by eapply runs_to_trans|]. unfold handlers_blocked. by rewrite Hh7.
Qed.

Lemma reading_waits id s : reading_blocks id s = true →
  Read_waits id (s_conn s) = true ∧ ∀ code, (id, code) ∉ cancelled (s_effects s).
Proof.
  intros [Hw Hnc]%andb_prop. split; [done|]. intros code Hc. apply negb_true_iff, not_true_iff_false in Hnc.
  apply Hnc, existsb_exists. exists (id, code). split; [by apply list_elem_of_In|]. by apply bool_decide_eq_true.
Qed.

Lemma handler_waits s rs : handler_blocked s rs = true →
  Read_waits (rs_ID rs) (s_conn s) = true ∧ (∃ e, quicvarint_Parse (rd_data (rs_reader rs)) = inr e) ∧
  ∀ code, (rs_ID rs, code) ∉ cancelled (s_effects s).
Proof.
  unfold handler_blocked. destruct (quicvarint_Parse _) as [|e]; [done|]. intros [? ?]%reading_waits. eauto.
Qed.

Lemma all_blocked_readers c who t : all_blocked c → (who, t) ∈ xc_tasks c → ∃ rs rd r, t = TReadFrame rs rd r.
Proof.
  intros Hb Hin. unfold all_blocked in Hb. rewrite Forall_forall in Hb. specialize (Hb _ Hin). destruct t; try done. eauto.
Qed.

Lemma no_waits_done c : xc_loops c = [] → all_blocked c → handlers_blocked c →
  (∀ id, Read_waits id (s_conn (xc_sess c)) = false) → goroutines_done c = true.
Proof.
  intros Hl Hb Hh Hno. apply goroutines_done_spec. split; [done|]. split.
  - apply elem_of_nil_inv. intros rs Hin. unfold handlers_blocked in Hh. rewrite Forall_forall in Hh.
    destruct (handler_waits _ rs (Hh rs Hin)). congruence.
  - apply Forall_forall. intros [who t] Hin. destruct (all_blocked_readers c who t Hb Hin) as (rs & rd & r & ->).
    unfold all_blocked in Hb. rewrite Forall_forall in Hb. specialize (Hb _ Hin). cbn [snd task_blocked] in Hb.
    apply andb_prop in Hb as [_ [? _]%reading_waits]. congruence.
Qed.

(** A reader that is left is one of a flow the shutdown has not closed. *)
Lemma blocked_reader c rs rd r : down_inv c → xc_closer c = None → all_blocked c →
  (∃ who, (who, TReadFrame rs rd r) ∈ xc_tasks c) →
  Read_waits (rs_ID rs) (s_conn (xc_sess c)) = true ∧ frame_ready (rd_data rd) = false ∧
  (∀ code, (rs_ID rs, code) ∉ cancelled (s_effects (xc_sess c))) ∧
  ∃ f, s_rfs (xc_sess c) !! r = Some f ∧ (is_Some (rf_streams f !! rs_ID rs) →
    rf_ctxDone f = false ∧ ∀ k, smap.get k (s_receiveFlows (xc_sess c)) = Some r → r ∈ xc_lateR c).
Proof.
  intros Hd Hcl Hb [who Hin]. unfold all_blocked in Hb. rewrite Forall_forall in Hb.
  pose proof (Hb _ Hin) as Hblk. cbn [snd task_blocked] in Hblk. apply andb_prop in Hblk as [Hfr Hrd].
  apply negb_true_iff in Hfr. apply reading_waits in Hrd as [Hw Hnever].
  split_and!; try done. pose proof (di_x c Hd) as Hx. pose proof (xi_tasks c Hx) as Hok.
  rewrite Forall_forall in Hok. destruct (Hok _ Hin) as [[f Hf]%lookup_lt_is_Some_2 _].
  exists f. split; [done|]. intros Hreg.
  assert (rf_ctxDone f = false) as Hx'.
  { destruct (rf_ctxDone f) eqn:Hxd; [|done]. exfalso.
    destruct (ri_flows c (di_inv c Hd) r f Hf Hxd) as [[Hp|(w & t & Ht & Hcf)]|Hst].
    - by rewrite Hcl in Hp.
    - specialize (Hb _ Ht). by destruct t.
    - exact (Hnever _ (Hst _ Hreg)). }
  split; [done|]. intros k Hk. pose proof (xi_left c Hx) as Hl.
  destruct (lf_receive _ _ _ _ Hl [] k r f) as [[Hc _]|[?%not_elem_of_nil|?]]; try done.
  - unfold receive_left. rewrite Hcl. pose proof (di_closed c Hd). by destruct (s_closedErr _).
  - pose proof (closed_ctx _ r f (xi_tables c Hx) Hf Hc). congruence.
Qed.
End completion.

(** ** Properties *)

Section properties.
Context `{QuicVarintLaws, !GoPool, !GoMapOrder} {C : Type} `{ConnectionLaws C}.
Implicit Types (s : Session C) (c : xconfig C).

End properties.

Section witnesses.
Import RFC9000.
#[local] Existing Instance lifo_pool.
#[local] Existing Instance ascending_order.

(** A connection on which stream 3 stays open until it is cancelled. *)
Definition ex_parking : stubConn := mkStub [] [] 0 None None [] [] [3%Z].
Definition ex_psess : Session stubConn := newSession ex_parking None true defaultConfig.
Definition ex_pstart : xconfig stubConn := xinit ex_psess (start ex_psess).
Definition ex_pafter (ls : list xlabel) : xconfig stubConn := default ex_pstart (xrun ls ex_pstart).

Lemma ex_pafter_reachable ls : bool_decide (is_Some (xrun ls ex_pstart)) = true → xreachable (ex_pafter ls).
Proof.
  intros [c Hc]%bool_decide_eq_true. unfold ex_pafter. rewrite Hc. simpl.
  exists ex_parking, None, true, defaultConfig, (start ex_psess).
  split_and!; [apply defaultConfig_ok|done|by right|]. by eapply xrun_steps.
Qed.

(** The stream arrives, with a part of a frame, and its handler reads the flow ID. *)
Definition ex_open_stream : list xlabel :=
  [XNetwork (EvStream (mkReceiveStream 3 (mkReader [bytes [1; 5; 42]%Z] false (EStream 0))));
   XAcceptStream; XHandler 0; XTask 0].

Definition ex_close : list xlabel := [XClose; XCloseStep; XCloseStep; XCloseStep].
Definition ex_close_flow : list xlabel := [XCloseStep; XCloseStep; XCloseStep].
Definition ex_close_end : list xlabel := [XCloseStep; XReceiveDatagram; XAcceptStream].

(** Of a registered flow: the reader is blocked until the shutdown cancels the
    stream, and then [Close] returns. *)
Example registered_reader_unblocked :
  xexec (XTask 0) (ex_pafter (XNewReceiveFlow 1 :: XTask 0 :: ex_open_stream)) = None ∧
  xc_returned (ex_pafter (XNewReceiveFlow 1 :: XTask 0 :: ex_open_stream ++ ex_close ++ ex_close_flow ++ ex_close_end ++
    [XTask 0; XTask 0; XCloseReturn])) = [None].
Proof. vm_compute. done. Qed.

(** Of an unknown flow: nobody cancels the stream, and [Close] waits for its end. *)
Example unknown_reader_holds_up_Close :
  let c := ex_pafter (ex_open_stream ++ ex_close ++ ex_close_end) in
  xc_waiting c = 1 ∧ xc_closer c = None ∧ xc_loops c = [] ∧
  xexec (XTask 0) c = None ∧ xexec XCloseReturn c = None.
Proof. vm_compute. done. Qed.

End witnesses.
