(* ===== verification/SessionIntake.v ===== *)
(** * Where the packets of a receiving session come from

    A session takes datagrams and streams from its connection or the application
    and turns them into packets on flows. [intake] records what it was given
    ([in_arrived]), which packets its flows accepted ([in_log], by the place of the
    flow) and which of them [Read] calls took out ([in_read]), along the steps of
    SessionConcurrent.v. The invariant: what a flow accepted is what was read from it
    followed by its queue; and the packets accepted on flows with some ID, with those
    that calls in progress still carry, all are among the packets that arrived for
    that ID, each at most once. *)

From S2P Require Import Prelude GoErrors IO Varint QlogEvent Qlogger Options SyncMap Connection.
From S2P Require Import RTPSendStream SendFlow PacketBuffer Deadline ReceiveFlow ReadStream.
From S2P Require Import ReceiveFlowBuffer Session SessionSpec SessionMoves SessionSteps SessionConcurrent.

(** What a session is given. *)
Inductive arrival :=
  | ADatagram (d : list byte)
  | AStream (rs : ReceiveStream)                 (* the flow ID is its first varint *)
  | AFlowStream (id : Z) (rs : ReceiveStream).   (* the application has read the flow ID *)

Record intake := mkIntake {
  in_arrived : list arrival;
  in_log : list (nat * list byte);
  in_read : list (nat * list byte)
}.

Section packets.
Context `{!QuicVarint} {C : Type}.
Implicit Types (s : Session C).

(** The packets an arrival has for the flow [k]. That of a datagram is what
    [HandleDatagram] takes for it: the bytes behind the minimal encoding of the flow
    ID, which are those behind the ID if it has that encoding. *)
Definition datagram_payload (id : Z) (d : list byte) : list (list byte) :=
  match quicvarint_Len id with Ret l => [drop l d] | Panic _ => [] end.

Definition stream_packets (rd : reader) : list (list byte) := delivered (rd_data rd) (rd_err rd).

(** A stream without its flow ID. *)
Definition stream_for (k : Z) (rs : ReceiveStream) : list (list byte) :=
  match quicvarint_Parse (rd_data (rs_reader rs)) with
  | inl (id, n) => if decide (id = k) then delivered (drop n (rd_data (rs_reader rs))) (rd_err (rs_reader rs)) else []
  | inr _ => []
  end.

Definition arrival_for (k : Z) (a : arrival) : list (list byte) :=
  match a with
  | ADatagram d => match quicvarint_Parse d with
                   | inl (id, _) => if decide (id = k) then datagram_payload id d else []
                   | inr _ => []
                   end
  | AStream rs => stream_for k rs
  | AFlowStream id rs => if decide (id = k) then stream_packets (rs_reader rs) else []
  end.

Definition arrived_for (k : Z) (l : list arrival) : list (list byte) := concat (arrival_for k <$> l).

(** The flow at [r] has the ID [k]. *)
Definition has_id (k : Z) (r : nat) s : bool :=
  match s_rfs s !! r with Some f => bool_decide (rf_id f = k) | None => false end.

(** The packets a task still carries for the flow [k]. *)
Definition carried (k : Z) s (t : task) : list (list byte) :=
  match t with
  | TDeliver id d r => if has_id k r s then datagram_payload id d else []
  | TRegister rs r => if has_id k r s then stream_packets (rs_reader rs) else []
  | TReadFrame _ rd r => if has_id k r s then stream_packets rd else []
  | _ => []
  end.

Definition carried_all (k : Z) s (ts : list (owner * task)) (hs : list ReceiveStream) : list (list byte) :=
  concat ((λ t, carried k s t.2) <$> ts) ++ concat (stream_for k <$> hs).

(** The entries of a log that belong to the flow at [r], or to flows with the ID [k]. *)
Definition by_flow (r : nat) (l : list (nat * list byte)) : list (list byte) :=
  (filter (λ x, x.1 = r) l).*2.

Definition on_id (k : Z) s (l : list (nat * list byte)) : list (list byte) :=
  (filter (λ x, has_id k x.1 s = true) l).*2.

(** What a step appends to the queue of the flow at [r], or takes from it. *)
Definition queue_of (r : nat) s : list (list byte) :=
  match s_rfs s !! r with Some f => rf_packets f | None => [] end.

Definition appended (r : nat) s s' : list (list byte) := drop (length (queue_of r s)) (queue_of r s').
Definition popped (r : nat) s s' : list (list byte) :=
  take (length (queue_of r s) - length (queue_of r s')) (queue_of r s).
End packets.

(** The flow a task puts packets on. *)
Definition task_flow (t : task) : option nat :=
  match t with TDeliver _ _ r | TReadFrame _ _ r => Some r | _ => None end.

Section ghost.
Context `{!QuicVarint, !GoPool, !GoMapOrder} {C : Type} `{!Connection C}.

Definition arrive_in (a : arrival) (h : intake) : intake :=
  mkIntake (in_arrived h ++ [a]) (in_log h) (in_read h).

(** The record after a step from [c] to [c']. *)
Definition intake_step (l : xlabel) (c c' : xconfig C) (h : intake) : intake :=
  let s := xc_sess c in
  let s' := xc_sess c' in
  match l with
  | XHandleDatagram d => arrive_in (ADatagram d) h
  | XHandleUniStream id rs => arrive_in (AFlowStream id rs) h
  | XReceiveDatagram => match conn_ReceiveDatagram s with
                        | Some (inl d, _) => arrive_in (ADatagram d) h
                        | _ => h
                        end
  | XAcceptStream => match conn_AcceptUniStream s with
                     | Some (inl rs, _) => arrive_in (AStream rs) h
                     | _ => h
                     end
  | XTask i => match xc_tasks c !! i with
               | Some (_, t) => match task_flow t with
                                | Some r => mkIntake (in_arrived h) (in_log h ++ (pair r <$> appended r s s')) (in_read h)
                                | None => h
                                end
               | None => h
               end
  | XOp (ORead r _ _) => mkIntake (in_arrived h) (in_log h) (in_read h ++ (pair r <$> popped r s s'))
  | _ => h
  end.

(** Steps with their record. *)
Inductive intakes (c0 : xconfig C) : intake → xconfig C → Prop :=
  | is_nil : intakes c0 (mkIntake [] [] []) c0
  | is_step h c l c' : intakes c0 h c → xexec l c = Some (Ret c') → intakes c0 (intake_step l c c' h) c'.
End ghost.

(** ** What the operations do to the queues *)

Section queues.
Context {C : Type}.
Implicit Types (s : Session C).

(** The flow at [r0], if any, gets [ps]; the others keep their queues, new ones are
    empty. *)
Record fed (r0 : option nat) (ps : list (list byte)) s s' : Prop := {
  fed_old r f : s_rfs s !! r = Some f → ∃ f', s_rfs s' !! r = Some f' ∧ rf_id f' = rf_id f ∧
    rf_packets f' = rf_packets f ++ (if decide (r0 = Some r) then ps else []);
  fed_new r f' : s_rfs s' !! r = Some f' → length (s_rfs s) ≤ r → rf_packets f' = []
}.

Definition idle := fed None [].

Lemma idle_app s s' new : s_rfs s' = s_rfs s ++ new → Forall (λ f, rf_packets f = []) new → idle s s'.
Proof.
  intros Hs Hnew. split.
  - intros r f Hr. exists f. rewrite Hs. split_and!; [by apply lookup_app_l_Some|done|by rewrite app_nil_r].
  - intros r f'. rewrite Hs. intros Hr Hle. rewrite lookup_app_r in Hr by done.
    exact (Forall_lookup_1 _ _ _ _ Hnew Hr).
Qed.

Lemma idle_same s s' : s_rfs s' = s_rfs s → idle s s'.
Proof. intros Hs. apply (idle_app s s' []); [by rewrite app_nil_r|constructor]. Qed.

Lemma fed_set_rf s r f f' es r0 ps : s_rfs s !! r = Some f → rf_id f' = rf_id f →
  rf_packets f' = rf_packets f ++ ps → (r0 = Some r ∨ ps = []) → fed r0 ps s (emit es (set_rf r f' s)).
Proof.
  intros Hr Hid Hp Hr0. assert (r < length (s_rfs s)) by (by eapply lookup_lt_Some). split; simpl.
  - intros r1 f1 Hr1. destruct (decide (r1 = r)) as [->|Hne].
    + exists f'. rewrite list_lookup_insert_eq by done. simplify_eq. split_and!; try done. rewrite Hp.
      destruct Hr0 as [->| ->]; [by rewrite decide_True|by case_decide].
    + exists f1. rewrite list_lookup_insert_ne by done. split_and!; try done.
      destruct Hr0 as [->| ->]; [rewrite decide_False by congruence|case_decide]; by rewrite app_nil_r.
  - intros r1 f1 Hr1 Hle. apply lookup_lt_Some in Hr1. rewrite length_insert in Hr1. lia.
Qed.

Lemma idle_set_rf s r f f' es : s_rfs s !! r = Some f → rf_id f' = rf_id f → rf_packets f' = rf_packets f →
  idle s (emit es (set_rf r f' s)).
Proof. intros Hr Hid Hp. apply (fed_set_rf s r f f'); [done..|by rewrite app_nil_r|by right]. Qed.

Lemma has_id_fed r0 ps k r s s' : fed r0 ps s s' → r < length (s_rfs s) → has_id k r s' = has_id k r s.
Proof.
  intros [Hold _] [f Hr]%lookup_lt_is_Some_2. destruct (Hold r f Hr) as (f' & Hr' & Hid & _).
  unfold has_id. by rewrite Hr, Hr', Hid.
Qed.

Lemma fed_length r0 ps s s' : fed r0 ps s s' → length (s_rfs s) ≤ length (s_rfs s').
Proof.
  intros [Hold _]. apply Nat.nlt_ge. intros [f Hf]%lookup_lt_is_Some_2.
  destruct (Hold _ f Hf) as (f' & Hf'%lookup_lt_Some & _). lia.
Qed.

Lemma idle_trans s1 s2 s3 : idle s1 s2 → idle s2 s3 → idle s1 s3.
Proof.
  intros H12 H23. pose proof (fed_length _ _ _ _ H12). destruct H12 as [O12 N12], H23 as [O23 N23]. split.
  - intros r f (f2 & (f3 & ? & ? & Hp3)%O23 & ? & Hp2)%O12. exists f3. rewrite app_nil_r in Hp2.
    split_and!; congruence.
  - intros r f3 Hr3 Hle. destruct (decide (r < length (s_rfs s2))) as [[f2 Hr2]%lookup_lt_is_Some_2|];
      [|apply (N23 r); [done|lia]].
    destruct (O23 r f2 Hr2) as (f3' & Hr3' & _ & Hp3). simplify_eq. by rewrite Hp3, (N12 r f2 Hr2 Hle).
Qed.

Lemma queue_of_fed r0 ps r s s' : fed r0 ps s s' → r < length (s_rfs s) →
  queue_of r s' = queue_of r s ++ (if decide (r0 = Some r) then ps else []).
Proof.
  intros [Hold _] [f Hr]%lookup_lt_is_Some_2. destruct (Hold r f Hr) as (f' & Hr' & _ & Hp).
  unfold queue_of. by rewrite Hr, Hr', Hp.
Qed.

Lemma appended_fed ps r s s' : fed (Some r) ps s s' → r < length (s_rfs s) → appended r s s' = ps.
Proof.
  intros Hf Hr. unfold appended. rewrite (queue_of_fed _ _ _ _ _ Hf Hr), decide_True by done. apply drop_app_length.
Qed.
End queues.

Section operations.
Context `{QuicVarintLaws, !GoPool, !GoMapOrder} {C : Type} `{ConnectionLaws C}.
Implicit Types (s : Session C).

Lemma flow_pushed_appends held ps f f' : rf_inv held f → flow_pushed ps f f' →
  ∃ qs, rf_packets f' = rf_packets f ++ qs ∧ qs `sublist_of` ps.
Proof.
  intros Hf (Hp & _). pose proof (rf_inv_cap _ _ Hf) as Hcap. rewrite <- rf_packets_length in Hcap.
  destruct (rf_closed f); [exists []; rewrite Hp, app_nil_r; split; [done|apply sublist_nil_l]|].
  exists (take (pb_cap (rf_buffer f) - length (rf_packets f)) ps). rewrite Hp, take_app, (take_ge (rf_packets f)) by done.
  split; [done|apply sublist_take].
Qed.

Lemma fed_deliver id n d r s s' : tables_inv s → r < length (s_rfs s) → quicvarint_Parse d = inl (id, n) →
  HandleDatagram_deliver id d r s = Ret s' →
  ∃ ps, fed (Some r) ps s s' ∧ ps `sublist_of` datagram_payload id d.
Proof.
  intros Ht (f & Hr & Hd)%deref_lt Hp. unfold HandleDatagram_deliver. rewrite Hd. bind_simpl.
  destruct (Len_least _ _ _ Hp) as (k & Hk & Hkn). apply Parse_inv in Hp as (_ & _ & _ & _ & Hn & _).
  destruct (pool_Get (rf_buffer f)) as [b pb] eqn:Hget. unfold datagram_payload. rewrite Hk. bind_simpl.
  rewrite slice_from_ok, Nat2Z.id by lia. bind_simpl. pose proof (ti_rf _ _ _ Ht Hr) as Hfi.
  destruct (push_filled [] f b pb (drop k d) Hfi Hget) as (Hb & _ & _ & _ & f' & Hpush & Hfi' & Hfp).
  rewrite buf_fill, Hpush by done. bind_simpl. intros [= <-].
  destruct (flow_pushed_appends [] _ f f' Hfi Hfp) as (qs & Hq & Hsub). exists qs. split; [|done].
  rewrite <- emit_nil. eapply fed_set_rf; [done|apply Hfp|done|by left].
Qed.

Lemma fed_readFrame streamID rd r s next s' : tables_inv s → r < length (s_rfs s) → rd_wf rd →
  flow_readFrame streamID rd r s = Ret (next, s') →
  ∃ ps, fed (Some r) ps s s' ∧
    ps ++ match next with Some rd' => stream_packets rd' | None => [] end `sublist_of` stream_packets rd.
Proof.
  intros Ht (f & Hr & Hd)%deref_lt Hwf. unfold flow_readFrame. rewrite Hd. bind_simpl.
  pose proof (ti_rf _ _ _ Ht Hr) as Hfi. pose proof (readStream_iter_spec [] streamID rd f Hfi Hwf) as Hiter.
  unfold stream_packets. rewrite (delivered_unfold (rd_data rd)).
  destruct (quicvarint_Parse (rd_data rd)) as [[v n]|e].
  2:{ rewrite Hiter. bind_simpl. intros [= <- <-]. exists []. split; [|apply sublist_nil_l].
    eapply fed_set_rf; [done..|by rewrite app_nil_r|by left]. }
  cbv zeta in Hiter |- *. set (body := drop n (rd_data rd)) in *. destruct (_ && _) eqn:Hcut.
  - destruct Hiter as (f' & -> & _ & Hfp). bind_simpl. intros [= <- <-].
    destruct (flow_pushed_appends [] _ f f' Hfi Hfp) as (qs & Hq & ->%sublist_nil_r). exists [].
    split; [|apply sublist_nil_l]. eapply fed_set_rf; [done|apply Hfp|done|by left].
  - destruct Hiter as (rd' & f' & -> & (Hd' & He' & _) & _ & Hfp). bind_simpl. intros [= <- <-].
    destruct (flow_pushed_appends [] _ f f' Hfi Hfp) as (qs & Hq & Hsub). exists qs.
    split; [eapply fed_set_rf; [done|apply Hfp|done|by left]|]. rewrite Hd', He'. case_decide as Hlt.
    + rewrite bool_decide_true in Hcut by done. apply negb_false_iff in Hcut. rewrite Hcut.
      rewrite drop_ge, take_ge in * by lia. rewrite (delivered_unfold []). destruct Parse_nil as [e ->].
      by rewrite app_nil_r.
    + change (take (Z.to_nat v) body :: delivered (drop (Z.to_nat v) body) (rd_err rd)) with
        ([take (Z.to_nat v) body] ++ delivered (drop (Z.to_nat v) body) (rd_err rd)). by apply sublist_app.
Qed.

Lemma newReceiveFlow_empty id size q l f : newReceiveFlow id size q l = Ret f → rf_packets f = [].
Proof. intros Hf. by apply newReceiveFlow_inv in Hf as [_ ?]. Qed.

Lemma idle_NewReceiveFlow id s res s' : tables_inv s → NewReceiveFlow_insert id s = Ret (res, s') → idle s s'.
Proof.
  intros Ht Hrun. destruct (NewReceiveFlow_insert_spec id s Ht) as (res' & s1 & Hrun' & _ & Hcase).
  rewrite Hrun in Hrun'. injection Hrun' as <- <-. destruct (smap.get id _).
  { destruct Hcase as [_ ->]. by apply idle_same. }
  destruct Hcase as (r & b & new & f & _ & -> & _ & _ & _ & Hnew). apply (idle_app _ _ new); [done|].
  destruct (flow_for id s); destruct Hnew as [? ?]; subst new; [constructor|].
  apply Forall_singleton. by eapply newReceiveFlow_empty.
Qed.

(** [receiveFlow] finds or makes a flow with the ID. *)
Lemma idle_receiveFlow id s r s' : tables_inv s → receiveFlow id s = Ret (r, s') →
  idle s s' ∧ ∀ k, has_id k r s' = bool_decide (id = k).
Proof.
  intros Ht Hrun. destruct (receiveFlow_tables_spec id s Ht) as (r1 & f & s1 & Hrun' & _ & _ & Hr & Hid & Hcase).
  rewrite Hrun in Hrun'. injection Hrun' as <- <-. split; [|intros k; unfold has_id; by rewrite Hr, Hid].
  destruct (flow_ref id s); [subst; by apply idle_same|]. destruct Hcase as (Hf & b & es & -> & _).
  apply (idle_app _ _ [f]); [done|]. apply Forall_singleton. by eapply newReceiveFlow_empty.
Qed.

Lemma idle_register rs r s ok s' : flow_register rs r s = Ret (ok, s') → idle s s'.
Proof.
  unfold flow_register. intros (f & Hd & Hrun)%bind_ret_inv. unfold deref in Hd.
  destruct (s_rfs s !! r) as [f0|] eqn:Hr; [|done]. injection Hd as ->.
  unfold register in Hrun. destruct (rf_ctxDone f); injection Hrun as <- <-; by eapply idle_set_rf.
Qed.

Lemma idle_unregister rs r s s' : flow_unregister rs r s = Ret s' → idle s s'.
Proof.
  unfold flow_unregister. intros (f & Hd & [= <-])%bind_ret_inv. unfold deref in Hd.
  destruct (s_rfs s !! r) as [f0|] eqn:Hr; [|done]. injection Hd as ->.
  rewrite <- emit_nil. by eapply idle_set_rf.
Qed.

Lemma idle_cancelCtx r s s' : flow_cancelCtx r s = Ret s' → idle s s'.
Proof.
  unfold flow_cancelCtx. intros (f & Hd & [= <-])%bind_ret_inv. unfold deref in Hd.
  destruct (s_rfs s !! r) as [f0|] eqn:Hr; [|done]. injection Hd as ->.
  rewrite <- emit_nil. by eapply idle_set_rf.
Qed.

Lemma idle_closeBuffer r s s' : flow_closeBuffer r s = Ret s' → idle s s'.
Proof.
  unfold flow_closeBuffer. intros (f & Hd & (f' & Hc & [= <-])%bind_ret_inv)%bind_ret_inv. unfold deref in Hd.
  destruct (s_rfs s !! r) as [f0|] eqn:Hr; [|done]. injection Hd as ->. rewrite <- emit_nil.
  unfold closeBuffer in Hc. destruct (rf_closed f); [injection Hc as <-; by eapply idle_set_rf|].
  apply bind_ret_inv in Hc as (pb & Hcl & [= <-]). unfold chan_close in Hcl. simpl in Hcl.
  destruct (pb_closed _); [done|]. injection Hcl as <-. by eapply idle_set_rf.
Qed.

Lemma idle_closeStreams r s s' : flow_closeStreams r s = Ret s' → idle s s'.
Proof. unfold flow_closeStreams. intros (f & _ & [= <-])%bind_ret_inv. by apply idle_same. Qed.

Lemma idle_SetReadDeadline r t now s s' : app_SetReadDeadline r t now s = Ret s' → idle s s'.
Proof.
  unfold app_SetReadDeadline, ReceiveFlow_SetReadDeadline.
  intros (f & Hd & (f' & (d & _ & [= <-])%bind_ret_inv & [= <-])%bind_ret_inv)%bind_ret_inv. unfold deref in Hd.
  destruct (s_rfs s !! r) as [f0|] eqn:Hr; [|done]. injection Hd as ->. rewrite <- emit_nil. by eapply idle_set_rf.
Qed.

(** What a task puts on its flow and what it still carries are among what it had. *)
Lemma fed_run_task t s next s' late : tables_inv s → task_ok s t → run_task t s = Ret (next, s', late) →
  ∃ ps, fed (task_flow t) ps s s' ∧ ∀ k,
    (match task_flow t with Some r => if has_id k r s then ps else [] | None => [] end) ++
    match next with Some t' => carried k s' t' | None => [] end ⊆+ carried k s t.
Proof.
  intros Ht Hok Hrun. pose proof (run_task_fits t s _ Hok Hrun) as Hfit. revert Hrun.
  destruct t; cbn [run_task task_flow carried]; intros Hrun.
  - apply bool_decide_eq_true in Hfit. destruct (NewSendFlow_insert_spec id s Ht (conj (proj1 Hok) Hfit)) as (f & m & res & s1 & Hn & _ & -> & _).
    rewrite Hn in Hrun. injection Hrun as <- <- _. exists []. split; [by apply idle_same|done].
  - apply bind_ret_inv in Hrun as ([res s1] & Hn & [= <- <- _]). exists [].
    split; [by eapply idle_NewReceiveFlow|done].
  - apply bind_ret_inv in Hrun as ([res s1] & Hn & [= <- <- _]). exists []. split; [|done].
    revert Hn. unfold app_WriteDatagram_send. intros (f & _ & Hn)%bind_ret_inv.
    destruct (WriteRTPBytes_send _ _ _) as [[? ?] ?]. injection Hn as _ <-. by apply idle_same.
  - apply bind_ret_inv in Hrun as ([res s1] & Hn & [= <- <- _]). exists []. split; [|by destruct res].
    revert Hn. unfold app_NewSendStream_open. intros (f & _ & Hn)%bind_ret_inv.
    destruct (NewSendStream_open _ _ _ _) as [[? ?] ?]. injection Hn as _ <-. by apply idle_same.
  - apply bind_ret_inv in Hrun as (f & _ & ([i s1] & Hn & [= <- <- _])%bind_ret_inv). exists []. split; [|done].
    revert Hn. unfold app_NewSendStream_append. intros (f' & _ & Hn)%bind_ret_inv.
    destruct (NewSendStream_append _ _ _) as [[? ?] ?]. injection Hn as _ <-. by apply idle_same.
  - destruct Hok as [Hr [n Hp]]. apply bind_ret_inv in Hrun as (s1 & Hdel & [= <- <- _]).
    destruct (fed_deliver _ n d r s s1 Ht Hr Hp Hdel) as (ps & Hfed & Hsub). exists ps. split; [done|].
    intros k. rewrite app_nil_r. destruct (has_id k r s); [by apply sublist_submseteq|done].
  - apply bind_ret_inv in Hrun as ([ok s1] & Hreg & [= <- <- _]). destruct Hok as [Hr _].
    pose proof (idle_register _ _ _ _ _ Hreg) as Hidle. exists []. split; [done|]. intros k.
    destruct ok; [|apply submseteq_nil_l]. cbn [carried]. by rewrite (has_id_fed _ _ k r _ _ Hidle Hr).
  - apply bind_ret_inv in Hrun as ([nx s1] & Hrd & [= <- <- _]). destruct Hok as [Hr Hwf].
    destruct (fed_readFrame _ _ _ _ _ _ Ht Hr Hwf Hrd) as (ps & Hfed & Hsub). exists ps. split; [done|].
    intros k. pose proof (has_id_fed _ _ k r _ _ Hfed Hr) as Hk.
    destruct nx as [rd'|]; cbn [carried]; rewrite ?Hk; (destruct (has_id k r s); [by apply sublist_submseteq|done]).
  - apply bind_ret_inv in Hrun as (s1 & Hn & [= <- <- _]). exists [].
    split; [by eapply idle_unregister|done].
  - apply bind_ret_inv in Hrun as (s1 & Hn & [= <- <- _]). exists [].
    split; [by eapply idle_closeBuffer|done].
  - apply bind_ret_inv in Hrun as (s1 & Hn & [= <- <- _]). exists [].
    split; [by eapply idle_closeStreams|done].
Qed.
End operations.

(** ** The invariant *)

Section invariant.
Context `{QuicVarintLaws, !GoPool, !GoMapOrder} {C : Type} `{ConnectionLaws C}.
Implicit Types (s : Session C) (c : xconfig C).

Record in_ok s (ts : list (owner * task)) (hs : list ReceiveStream) (h : intake) : Prop := {
  io_queue r : r < length (s_rfs s) → by_flow r (in_log h) = by_flow r (in_read h) ++ queue_of r s;
  io_log : Forall (λ x, x.1 < length (s_rfs s)) (in_log h);
  io_read : Forall (λ x, x.1 < length (s_rfs s)) (in_read h);
  io_origin k : on_id k s (in_log h) ++ carried_all k s ts hs ⊆+ arrived_for k (in_arrived h)
}.

Lemma by_flow_app r l1 l2 : by_flow r (l1 ++ l2) = by_flow r l1 ++ by_flow r l2.
Proof. unfold by_flow. by rewrite filter_app, fmap_app. Qed.

Lemma by_flow_pair r r' ps : by_flow r (pair r' <$> ps) = if decide (r' = r) then ps else [].
Proof.
  unfold by_flow. destruct (decide (r' = r)) as [E|E]; induction ps as [|p ps IH]; try done; rewrite fmap_cons.
  - rewrite filter_cons_True, fmap_cons by done. by f_equal.
  - by rewrite filter_cons_False.
Qed.

Lemma by_flow_none r l n : Forall (λ x, x.1 < n) l → n ≤ r → by_flow r l = [].
Proof.
  intros Hl Hr. unfold by_flow. induction Hl as [|x l Hx _ IH]; [done|].
  rewrite filter_cons_False by lia. done.
Qed.

Lemma on_id_app k s l1 l2 : on_id k s (l1 ++ l2) = on_id k s l1 ++ on_id k s l2.
Proof. unfold on_id. by rewrite filter_app, fmap_app. Qed.

Lemma on_id_pair k s r ps : on_id k s (pair r <$> ps) = if has_id k r s then ps else [].
Proof.
  unfold on_id. destruct (has_id k r s) eqn:Hk; induction ps as [|p ps IH]; try done; rewrite fmap_cons.
  - rewrite filter_cons_True, fmap_cons by done. by f_equal.
  - rewrite filter_cons_False; [done|]. cbn [fst]. by rewrite Hk.
Qed.

Lemma on_id_same k s s' l : Forall (λ x, has_id k x.1 s' = has_id k x.1 s) l → on_id k s' l = on_id k s l.
Proof.
  unfold on_id. induction 1 as [|x l Hx _ IH]; [done|]. destruct (has_id k x.1 s) eqn:E.
  - rewrite !filter_cons_True, !fmap_cons by done. by f_equal.
  - rewrite !filter_cons_False by congruence. done.
Qed.

Lemma on_id_fed r0 ps k s s' l : fed r0 ps s s' → Forall (λ x, x.1 < length (s_rfs s)) l →
  on_id k s' l = on_id k s l.
Proof. intros Hf Hl. apply on_id_same. eapply Forall_impl; [done|]. intros x. by eapply has_id_fed. Qed.

Lemma carried_fed r0 ps k s s' t : fed r0 ps s s' → task_ok s t → carried k s' t = carried k s t.
Proof.
  intros Hf Hok. destruct t; simpl in *; try done; destruct Hok as [Hr _];
    by rewrite (has_id_fed _ _ k _ _ _ Hf Hr).
Qed.

Lemma carried_list_fed r0 ps k s s' ts : fed r0 ps s s' → Forall (λ t : owner * task, task_ok s t.2) ts →
  concat ((λ t, carried k s' t.2) <$> ts) = concat ((λ t, carried k s t.2) <$> ts).
Proof.
  intros Hf. induction 1 as [|t ts Ht _ IH]; [done|]. rewrite !fmap_cons, !concat_cons, IH. by rewrite (carried_fed _ _ _ _ _ _ Hf Ht).
Qed.

Lemma carried_all_fed r0 ps k s s' ts hs : fed r0 ps s s' → Forall (λ t : owner * task, task_ok s t.2) ts →
  carried_all k s' ts hs = carried_all k s ts hs.
Proof. intros Hf Hts. unfold carried_all. by rewrite (carried_list_fed _ _ _ _ _ _ Hf Hts). Qed.

Lemma arrived_for_app k l1 l2 : arrived_for k (l1 ++ l2) = arrived_for k l1 ++ arrived_for k l2.
Proof. unfold arrived_for. by rewrite fmap_app, concat_app. Qed.

(** A step that puts [ps] on the flow at [r0]: what it puts there and what calls
    carry after it were carried before, or arrived with [a]. *)
Lemma in_ok_fed r0 ps s s' ts ts' hs hs' h a :
  in_ok s ts hs h → fed r0 ps s s' → (∀ r, r0 = Some r → r < length (s_rfs s)) →
  (∀ k, (match r0 with Some r => if has_id k r s then ps else [] | None => [] end) ++
    carried_all k s' ts' hs' ⊆+ carried_all k s ts hs ++ arrived_for k a) →
  in_ok s' ts' hs' (mkIntake (in_arrived h ++ a)
    (in_log h ++ match r0 with Some r => pair r <$> ps | None => [] end) (in_read h)).
Proof.
  intros [Hq Hl Hr Ho] Hf Hr0 Hc. pose proof (fed_length _ _ _ _ Hf) as Hlen. split; simpl.
  - intros r Hlt'. rewrite by_flow_app. destruct (decide (r < length (s_rfs s))) as [Hlt|Hge].
    + rewrite Hq, (queue_of_fed _ _ _ _ _ Hf), <- app_assoc by done. do 2 f_equal.
      destruct r0 as [r0|]; [rewrite by_flow_pair|by rewrite decide_False].
      destruct (decide (r0 = r)) as [->|]; [by rewrite decide_True|by rewrite decide_False by congruence].
    + rewrite (by_flow_none r (in_log h) _ Hl), (by_flow_none r (in_read h) _ Hr) by lia. unfold queue_of.
      apply lookup_lt_is_Some_2 in Hlt' as [f' Hf']. rewrite Hf', (fed_new _ _ _ _ Hf r f' Hf') by lia.
      destruct r0 as [r0|]; [|done]. rewrite by_flow_pair, decide_False; [done|].
      intros ->. specialize (Hr0 _ eq_refl). lia.
  - apply Forall_app. split; [eapply Forall_impl; [done|]; simpl; lia|]. destruct r0 as [r0|]; [|constructor].
    apply Forall_fmap, Forall_true. intros p. simpl. specialize (Hr0 _ eq_refl). lia.
  - eapply Forall_impl; [done|]. simpl. lia.
  - intros k. rewrite on_id_app, arrived_for_app, (on_id_fed _ _ _ _ _ _ Hf Hl).
    assert (on_id k s' (match r0 with Some r => pair r <$> ps | None => [] end) =
      match r0 with Some r => if has_id k r s then ps else [] | None => [] end) as ->.
    { destruct r0 as [r0|]; [|done]. rewrite on_id_pair. by rewrite (has_id_fed _ _ _ _ _ _ Hf (Hr0 _ eq_refl)). }
    rewrite <- app_assoc. etrans; [apply submseteq_app; [done|apply Hc]|]. rewrite app_assoc.
    by apply submseteq_app.
Qed.

(** One that puts nothing anywhere. *)
Lemma in_ok_idle s s' ts ts' hs hs' h a : in_ok s ts hs h → idle s s' →
  (∀ k, carried_all k s' ts' hs' ⊆+ carried_all k s ts hs ++ arrived_for k a) →
  in_ok s' ts' hs' (mkIntake (in_arrived h ++ a) (in_log h) (in_read h)).
Proof.
  intros Hin Hi Hc. pose proof (in_ok_fed None [] s s' ts ts' hs hs' h a Hin Hi) as Hok. simpl in Hok.
  rewrite app_nil_r in Hok. by apply Hok.
Qed.

Lemma in_ok_same s s' ts ts' hs hs' h : in_ok s ts hs h → idle s s' →
  (∀ k, carried_all k s' ts' hs' ⊆+ carried_all k s ts hs) → in_ok s' ts' hs' h.
Proof.
  intros Hin Hi Hc. pose proof (in_ok_idle s s' ts ts' hs hs' h [] Hin Hi) as Hok. rewrite app_nil_r in Hok.
  destruct h. apply Hok. intros k. by rewrite app_nil_r.
Qed.

(** The session moves alone. *)
Lemma in_ok_moves s s' ts hs h : in_ok s ts hs h → idle s s' →
  Forall (λ t : owner * task, task_ok s t.2) ts → in_ok s' ts hs h.
Proof.
  intros Hin Hi Hts. apply (in_ok_same s s' ts ts hs hs h Hin Hi). intros k. by rewrite (carried_all_fed _ _ _ _ _ _ _ Hi Hts).
Qed.

Lemma carried_all_spawn k s ts who t hs :
  carried_all k s (ts ++ [(who, t)]) hs ≡ₚ carried_all k s ts hs ++ carried k s t.
Proof.
  unfold carried_all. rewrite fmap_app, concat_app. simpl. rewrite app_nil_r, <- !app_assoc.
  f_equiv. apply Permutation_app_comm.
Qed.

(** A call begins, with packets that arrived. *)
Lemma in_ok_spawn s s' ts who t hs h a : in_ok s ts hs h → idle s s' →
  Forall (λ t : owner * task, task_ok s t.2) ts → (∀ k, carried k s' t ⊆+ arrived_for k a) →
  in_ok s' (ts ++ [(who, t)]) hs (mkIntake (in_arrived h ++ a) (in_log h) (in_read h)).
Proof.
  intros Hin Hi Hts Ha. eapply in_ok_idle; [done..|]. intros k.
  rewrite carried_all_spawn, (carried_all_fed _ _ _ _ _ _ _ Hi Hts). by apply submseteq_app.
Qed.
End invariant.

(** ** Every step keeps the record right *)

Section steps.
Context `{QuicVarintLaws, !GoPool, !GoMapOrder} {C : Type} `{ConnectionLaws C}.
Implicit Types (s : Session C) (c : xconfig C).

Definition cin c (h : intake) : Prop := in_ok (xc_sess c) (xc_tasks c) (xc_handlers c) h.

(** [Read] takes the first packet of the queue, or nothing. *)
Lemma app_Read_pops r prefer buf s s' : tables_inv s → r < length (s_rfs s) →
  run_op (ORead r prefer buf) s = Ret s' →
  ∃ f f' ps, s_rfs s !! r = Some f ∧ s_rfs s' = <[r := f']> (s_rfs s) ∧ rf_id f' = rf_id f ∧
    rf_packets f = ps ++ rf_packets f'.
Proof.
  intros Ht (f & Hr & Hd)%deref_lt. cbn [run_op]. unfold app_Read. rewrite Hd. bind_simpl.
  pose proof (ti_rf _ _ _ Ht Hr) as Hfi. pose proof (Read_spec [] 0 prefer buf f Hfi) as HR.
  destruct (ReceiveFlow.Read 1 prefer buf f) as [[res f']|] eqn:Hread; intros [= <-].
  2:{ exists f, f, []. by rewrite list_insert_id. }
  destruct (Read_keeps [] prefer buf f res f' Hfi Hread) as (_ & Hid & _).
  exists f, f'. destruct (deadlineExpired _); [exists []; by simplify_eq|].
  destruct (rf_packets f) as [|p ps] eqn:Hp; [exists []; destruct (rf_closed f); by simplify_eq|].
  exists [p]. destruct HR as (f1 & HR & _ & <- & _). by simplify_eq.
Qed.

Lemma in_ok_read r prefer buf s s' ts hs h : tables_inv s → r < length (s_rfs s) →
  Forall (λ t : owner * task, task_ok s t.2) ts → in_ok s ts hs h → run_op (ORead r prefer buf) s = Ret s' →
  in_ok s' ts hs (mkIntake (in_arrived h) (in_log h) (in_read h ++ (pair r <$> popped r s s'))).
Proof.
  intros Ht Hlt Hts Hin (f & f' & ps & Hr & Hs & Hid & Hps)%app_Read_pops; [|done..].
  assert (popped r s s' = ps) as ->.
  { unfold popped, queue_of. rewrite Hr, Hs, list_lookup_insert_eq, Hps by done.
    rewrite length_app, Nat.add_sub. apply take_app_length. }
  assert (∀ k r, has_id k r s' = has_id k r s) as Hk.
  { intros k r1. unfold has_id. rewrite Hs. destruct (decide (r1 = r)) as [->|].
    - by rewrite list_lookup_insert_eq, Hr, Hid by done.
    - by rewrite list_lookup_insert_ne. }
  assert (∀ k t, carried k s' t = carried k s t) as Hc by (intros k []; simpl; by rewrite ?Hk).
  destruct Hin as [Hq Hl Hrd Ho]. split; simpl; rewrite ?Hs, ?length_insert; [| |apply Forall_app; split| ]; try done.
  - intros r1 Hr1. rewrite by_flow_app, by_flow_pair, Hq, <- app_assoc by done. f_equal. unfold queue_of. rewrite Hs.
    destruct (decide (r1 = r)) as [->|].
    + by rewrite decide_True, list_lookup_insert_eq, Hr by done.
    + by rewrite decide_False, list_lookup_insert_ne by done.
  - by apply Forall_fmap, Forall_true.
  - intros k. unfold carried_all in *. rewrite (on_id_same k s s') by (by apply Forall_true).
    erewrite list_fmap_ext; [apply Ho|]. intros. apply Hc.
Qed.

Lemma idle_send_op o s s' : op_single o = true → (∀ r prefer buf, o ≠ ORead r prefer buf) →
  run_op o s = Ret s' → idle s s'.
Proof.
  intros Hs Hn Hrun. destruct o; try done; try (apply idle_same; exact (send_ops_rfs _ s s' Hrun)).
  - by destruct (Hn r prefer buf).
  - by eapply idle_SetReadDeadline.
Qed.

Lemma idle_close_step code reason p s p' s' : close_step code reason p s = Ret (p', s') → idle s s'.
Proof.
  assert (∀ r e (s1 : Session C), closeSendFlow r s = Ret (e, s1) → idle s s1) as Hsend.
  { intros r e s1 Hc. apply idle_same. apply (send_ops_rfs (OCloseSendFlow r) s s1). cbn [run_op]. by rewrite Hc. }
  destruct p as [|[|[k r] l]|[|[k r] l]|r l|r l|]; cbn [close_step].
  - intros [= <- <-]. by apply idle_same.
  - intros [= <- <-]. by apply idle_same.
  - intros ([e s1] & Hc & [= <- <-])%bind_ret_inv. by eapply Hsend.
  - destruct (CloseWithError _ _ _). intros [= <- <-]. by apply idle_same.
  - intros (s1 & Hc & [= <- <-])%bind_ret_inv. by eapply idle_cancelCtx.
  - intros (s1 & Hc & [= <- <-])%bind_ret_inv. by eapply idle_closeBuffer.
  - intros (s1 & Hc & [= <- <-])%bind_ret_inv. by eapply idle_closeStreams.
  - intros [= <- <-]. by apply idle_same.
Qed.

Lemma begin_close_keeps code reason who c c' : begin_close code reason who c = Some (Ret c') →
  idle (xc_sess c) (xc_sess c') ∧ xc_tasks c' = xc_tasks c ∧ xc_handlers c' = xc_handlers c.
Proof.
  unfold begin_close. destruct (xc_closer c); [done|]. destruct (s_closedErr _).
  - intros [= <-]. destruct who; simpl; (split_and!; [by apply idle_same|done..]).
  - intros [= <-]. simpl. split_and!; [by apply idle_same|done..].
Qed.

(** A datagram or stream that looks up its flow. *)
Lemma lookup_idle id s es r s' : tables_inv s → receiveFlow id (emit es s) = Ret (r, s') →
  idle s s' ∧ ∀ k, has_id k r s' = bool_decide (id = k).
Proof.
  intros Ht Hrun. destruct (idle_receiveFlow id (emit es s) r s' (tables_inv_emit es s Ht) Hrun) as [Hi Hk].
  split; [|done]. eapply idle_trans; [by apply (idle_same s (emit es s))|done].
Qed.

Lemma cin_datagram who d c h c' : xinv c → cin c h → begin_datagram who d c = Some (Ret c') →
  cin c' (arrive_in (ADatagram d) h).
Proof.
  intros Hx Hin. unfold begin_datagram. destruct (quicvarint_Parse d) as [[id n]|e] eqn:Hp.
  - intros [= ([r s'] & Hl & [= <-])%bind_ret_inv].
    destruct (lookup_idle id _ _ r s' (xi_tables _ Hx) Hl) as [Hi Hk]. unfold cin, arrive_in. simpl.
    apply in_ok_spawn with (s := xc_sess c); [done..|apply (xi_tasks _ Hx)|]. intros k. simpl. rewrite Hk.
    unfold arrived_for. simpl. rewrite Hp, app_nil_r. by repeat case_decide; case_bool_decide.
  - intros (Hi & Hts & Hhs)%begin_close_keeps. unfold cin, arrive_in. rewrite Hts, Hhs.
    apply in_ok_idle with (s := xc_sess c) (ts := xc_tasks c) (hs := xc_handlers c); [done..|]. intros k.
    rewrite (carried_all_fed _ _ _ _ _ _ _ Hi (xi_tasks _ Hx)). by apply submseteq_inserts_r.
Qed.

Lemma begin_stream_keeps who id rs c c' : tables_inv (xc_sess c) → begin_stream who id rs c = Ret c' →
  ∃ r s', c' = spawn who (TRegister rs r) (xwith_sess s' c) ∧ idle (xc_sess c) s' ∧
    ∀ k, carried k s' (TRegister rs r) = if decide (id = k) then stream_packets (rs_reader rs) else [].
Proof.
  intros Ht ([r s'] & Hl & [= <-])%bind_ret_inv. destruct (lookup_idle id _ _ r s' Ht Hl) as [Hi Hk].
  exists r, s'. split_and!; [done..|]. intros k. simpl. rewrite Hk. by case_bool_decide; case_decide.
Qed.

Lemma cin_stream id rs c h c' : xinv c → cin c h → begin_stream ByApp id rs c = Ret c' →
  cin c' (arrive_in (AFlowStream id rs) h).
Proof.
  intros Hx Hin (r & s' & -> & Hi & Hk)%begin_stream_keeps; [|apply (xi_tables _ Hx)]. unfold cin, arrive_in. simpl.
  apply in_ok_spawn with (s := xc_sess c); [done..|apply (xi_tasks _ Hx)|]. intros k. rewrite Hk.
  unfold arrived_for. simpl. by rewrite app_nil_r.
Qed.

Lemma cin_handler i c h c' : xinv c → cin c h → xexec (XHandler i) c = Some (Ret c') → cin c' h.
Proof.
  intros Hx Hin. cbn [xexec]. destruct (xc_handlers c !! i) as [rs|] eqn:Hi; [|done].
  cbn [mbind option_bind]. destruct (handler_blocked _ rs); [done|]. unfold cin in *.
  pose proof (Forall_lookup_1 _ _ _ _ (xi_handlers _ Hx) Hi) as Hrs. cbn beta in Hrs.
  pose proof (xi_tasks _ Hx) as Hts. pose proof (xi_tables _ Hx) as Ht.
  destruct (quicvarint_Read (rs_reader rs)) as [res rd] eqn:Hr. apply Read_ok in Hr; [|done].
  set (hs := delete i (xc_handlers c)).
  assert (∀ k (l : list (list byte)) s1, l ⊆+ stream_for k rs →
    carried_all k s1 (xc_tasks c) hs ++ l ⊆+ carried_all k s1 (xc_tasks c) (xc_handlers c)) as Hcons.
  { intros k l s1 Hl. apply list_elem_of_split_length in Hi as (l1 & l2 & Hl12 & ->). subst hs. rewrite Hl12, delete_middle.
    unfold carried_all. rewrite !fmap_app, fmap_cons, !concat_app, concat_cons.
    set (a := concat _). set (b1 := concat _). set (b2 := concat _).
    assert (a ++ b1 ++ stream_for k rs ++ b2 ≡ₚ (a ++ b1 ++ b2) ++ stream_for k rs) as -> by solve_Permutation.
    by apply submseteq_app. }
  clearbody hs. clear Hi.
  unfold stream_for in Hcons. destruct (quicvarint_Parse _) as [[v n]|e].
  - destruct Hr as [-> (Hd & He & _)]. intros [= (r & s' & -> & Hi & Hk)%begin_stream_keeps]; [|done]. simpl.
    eapply in_ok_same; [done..|]. intros k.
    rewrite carried_all_spawn, (carried_all_fed _ _ _ _ _ _ _ Hi Hts), Hk. apply Hcons. simpl. unfold stream_packets.
    by rewrite Hd, He.
  - destruct Hr as [e' ->]. intros [= <-]. simpl. apply in_ok_moves with (s := xc_sess c); [|by apply idle_same|done].
    eapply in_ok_same; [done|by apply idle_same|]. intros k.
    rewrite <- (app_nil_r (carried_all k _ _ hs)). apply Hcons, submseteq_nil_l.
Qed.

Lemma cin_task i c h c' : xinv c → cin c h → xexec (XTask i) c = Some (Ret c') →
  cin c' (intake_step (XTask i) c c' h).
Proof.
  intros Hx Hin. cbn [xexec intake_step]. destruct (xc_tasks c !! i) as [[who t]|] eqn:Hi; [|done].
  cbn [mbind option_bind]. destruct (task_blocked _ t); [done|].
  intros [= ([[next s'] [[nS nR] nT]] & Hrun & [= <-])%bind_ret_inv]. pose proof (xi_tasks _ Hx) as Hts. pose proof (Forall_lookup_1 _ _ _ _ Hts Hi) as Hok. cbn [snd] in Hok.
  destruct (fed_run_task t _ _ _ _ (xi_tables _ Hx) Hok Hrun) as (ps & Hfed & Hsub).
  assert (∀ r, task_flow t = Some r → r < length (s_rfs (xc_sess c))) as Hr.
  { destruct t; simpl in *; try done; intros ? [= <-]; apply Hok. }
  unfold cin. cbn [xc_sess xc_tasks xc_handlers xwith_late xwith_tasks xwith_sess].
  set (ts' := match next with Some t' => <[i := (who, t')]> (xc_tasks c) | None => delete i (xc_tasks c) end).
  assert (in_ok s' ts' (xc_handlers c) (mkIntake (in_arrived h ++ [])
    (in_log h ++ match task_flow t with Some r => pair r <$> ps | None => [] end) (in_read h))) as Hnew.
  { eapply in_ok_fed; [done..|]. intros k. unfold arrived_for. simpl. rewrite app_nil_r.
    apply list_elem_of_split_length in Hi as (l1 & l2 & Hl & ->). unfold cin in Hin. subst ts'.
    rewrite Hl in Hts |- *. apply Forall_app in Hts as [Hts1 [_ Hts2]%Forall_cons].
    assert (carried_all k s' (match next with Some t' => <[length l1 := (who, t')]> (l1 ++ (who, t) :: l2)
      | None => delete (length l1) (l1 ++ (who, t) :: l2) end) (xc_handlers c) ≡ₚ
      match next with Some t' => carried k s' t' | None => [] end ++ carried_all k (xc_sess c) (l1 ++ l2) (xc_handlers c)) as ->.
    { rewrite <- (carried_all_fed _ _ k _ s' (l1 ++ l2) _ Hfed) by (by apply Forall_app). unfold carried_all.
      destruct next as [t'|]; [rewrite insert_app_r_alt, Nat.sub_diag by done|by rewrite delete_middle]. simpl.
      rewrite !fmap_app, fmap_cons, !concat_app, concat_cons. simpl. solve_Permutation. }
    rewrite app_assoc. etrans; [apply submseteq_app; [apply Hsub|done]|]. unfold carried_all.
    rewrite !fmap_app, fmap_cons, !concat_app, concat_cons. simpl. apply Permutation_submseteq. solve_Permutation. }
  rewrite app_nil_r in Hnew. destruct (task_flow t) as [r|] eqn:Ht.
  - by rewrite (appended_fed _ _ _ _ Hfed (Hr _ eq_refl)).
  - rewrite app_nil_r in Hnew. by destruct h.
Qed.

(** A call of the application that carries no packets begins. *)
Lemma cin_spawn t c h : cin c h → (∀ k, carried k (xc_sess c) t = []) → cin (spawn ByApp t c) h.
Proof.
  intros Hin Hk. unfold cin. simpl. eapply in_ok_same; [exact Hin|by apply idle_same|]. intros k.
  by rewrite carried_all_spawn, Hk, app_nil_r.
Qed.

Lemma cin_begin_call t c h c' : cin c h → (∀ k, carried k (xc_sess c) t = []) →
  begin_call t c = Some (Ret c') → cin c' h.
Proof.
  intros Hin Hk. unfold begin_call. destruct (xc_closer c), (Session_isClosed (xc_sess c)); try done; intros [= <-]; [done|].
  by apply cin_spawn.
Qed.

Lemma cin_begin_flow_call r t c h c' : cin c h → (∀ k, carried k (xc_sess c) t = []) →
  begin_flow_call r t c = Some (Ret c') → cin c' h.
Proof.
  intros Hin Hk. unfold begin_flow_call. case_decide; [|done]. intros [= (f & _ & Hf)%bind_ret_inv].
  destruct (isClosed f); injection Hf as <-; [done|]. by apply cin_spawn.
Qed.

Lemma cin_same c c' h : xinv c → cin c h → idle (xc_sess c) (xc_sess c') → xc_tasks c' = xc_tasks c →
  xc_handlers c' = xc_handlers c → cin c' h.
Proof. intros Hx Hin Hi Hts Hhs. unfold cin. rewrite Hts, Hhs. eapply in_ok_moves; [exact Hin|done|apply (xi_tasks _ Hx)]. Qed.

Lemma cin_op o c h c' : xinv c → cin c h → xexec (XOp o) c = Some (Ret c') → cin c' (intake_step (XOp o) c c' h).
Proof.
  intros Hx Hin. cbn [xexec]. destruct (op_single o) eqn:Hs; [|done]. destruct (op_ok o (xc_sess c)) eqn:Hok; [|done].
  cbn [andb]. intros [= (s' & Hrun & [= <-])%bind_ret_inv].
  assert ((∃ r pr buf, o = ORead r pr buf) ∨ ∀ r pr buf, o ≠ ORead r pr buf) as [(r & pr & buf & ->)|Hno].
  { destruct o; try (right; done). left. eauto. }
  - apply bool_decide_eq_true in Hok. by apply in_ok_read with pr buf; [apply (xi_tables _ Hx)| |apply (xi_tasks _ Hx)|..].
  - assert (cin (xwith_sess s' c) h) by (by apply (cin_same c); [..|by eapply idle_send_op| |]).
    destruct o; try done. by destruct (Hno r prefer buf).
Qed.

Lemma idle_set_conn conn s : idle s (set_conn conn s).
Proof. by apply idle_same. Qed.

Lemma cin_receive c h c' : xinv c → cin c h → xexec XReceiveDatagram c = Some (Ret c') →
  cin c' (intake_step XReceiveDatagram c c' h).
Proof.
  intros Hx Hin. cbn [xexec intake_step]. case_decide; [|done]. destruct (loop_busy c); [done|].
  destruct (conn_ReceiveDatagram (xc_sess c)) as [[res s1]|] eqn:Hr; [|done]. cbn [mbind option_bind].
  destruct (conn_ReceiveDatagram_moves _ _ _ (xi_tables _ Hx) Hr) as [Ht Hq].
  destruct (sess_quiet_ok c s1 Hx Ht Hq) as (c1 & [= <-] & Hx1 & _).
  assert (cin (xwith_sess s1 c) h) as Hin1.
  { apply (cin_same c); [done..| |done|done]. revert Hr. unfold conn_ReceiveDatagram.
    destruct (ReceiveDatagram _ _) as [[res' conn]|]; [|done]. intros [= _ <-]. apply idle_set_conn. }
  destruct res as [d|err]; [by eapply cin_datagram|]. intros [= <-]. exact Hin1.
Qed.

Lemma cin_accept c h c' : xinv c → cin c h → xexec XAcceptStream c = Some (Ret c') →
  cin c' (intake_step XAcceptStream c c' h).
Proof.
  intros Hx Hin. cbn [xexec intake_step]. case_decide; [|done].
  destruct (conn_AcceptUniStream (xc_sess c)) as [[res s1]|] eqn:Hr; [|done]. cbn [mbind option_bind].
  assert (cin (xwith_sess s1 c) h) as Hin1.
  { apply (cin_same c); [done..| |done|done]. revert Hr. unfold conn_AcceptUniStream.
    destruct (AcceptUniStream _ _) as [[res' conn]|]; [|done]. intros [= _ <-]. apply idle_set_conn. }
  destruct res as [rs|err]; intros [= <-]; [|exact Hin1]. unfold cin, arrive_in. simpl.
  eapply in_ok_idle; [exact Hin1|by apply idle_same|]. intros k. unfold carried_all, arrived_for. simpl.
  by rewrite fmap_app, concat_app, <- app_assoc.
Qed.

Lemma cin_step l c h c' : xinv c → cin c h → xexec l c = Some (Ret c') → cin c' (intake_step l c c' h).
Proof.
  intros Hx Hin He. destruct l; cbn [intake_step]; [..|by apply (cin_handler i c h) in He].
  - cbn [xexec] in He. case_decide; [|done]. by eapply (cin_begin_call (TNewSendFlow id)).
  - by eapply (cin_begin_call (TNewReceiveFlow id)).
  - by eapply (cin_begin_flow_call r (TWriteDatagram r packet)).
  - by eapply (cin_begin_flow_call r (TOpenStream r priority incremental)).
  - cbn [xexec] in He. case_decide; [|done]. injection He as (s' & Hs & [= <-])%bind_ret_inv.
    apply cin_spawn; [|done]. by apply (cin_same c); [done..|by eapply idle_cancelCtx| |].
  - by apply cin_op.
  - by eapply cin_datagram.
  - cbn [xexec] in He. destruct (stream_ok rs); [|done]. injection He as He. by eapply cin_stream.
  - by apply cin_task.
  - apply begin_close_keeps in He as (? & ? & ?). by apply (cin_same c).
  - cbn [xexec] in He. destruct (xc_closer c) as [cl|]; [|done]. injection He as ([p s'] & Hs & He)%bind_ret_inv.
    apply idle_close_step in Hs. destruct p as [p|]; injection He as <-; [by apply (cin_same c)|].
    apply (cin_same c); [done..| | |]; by destruct (cl_owner cl).
  - cbn [xexec] in He. destruct (xc_closer c); [done|]. destruct (xc_waiting c); [done|].
    destruct (goroutines_done c); [|done]. destruct (Close_finish_cases (xc_sess c)) as (es & b & E & _).
    rewrite E in He. injection He as <-. by apply (cin_same c); [done..|by apply idle_same| |].
  - injection He as <-. by apply (cin_same c); [done..|apply idle_set_conn| |].
  - by apply cin_receive.
  - by apply cin_accept.
Qed.
End steps.

(** ** Properties *)

Section properties.
Context `{QuicVarintLaws, !GoPool, !GoMapOrder} {C : Type} `{ConnectionLaws C}.

Lemma intakes_ok conn tr acc config loops h (c : xconfig C) : config_ok config → conn_closes (calls conn) = [] →
  intakes (xinit (newSession conn tr acc config) loops) h c → xinv c ∧ cin c h.
Proof.
  intros Hok Hcc. induction 1 as [|h c l c' _ [Hx Hin] He].
  - split; [by apply xinit_inv|]. by split.
  - split; [|by apply cin_step]. by destruct (xexec_ret l c c' Hx He).
Qed.

Lemma intakes_queue conn tr acc config loops h (c : xconfig C) r : config_ok config → conn_closes (calls conn) = [] →
  intakes (xinit (newSession conn tr acc config) loops) h c →
  by_flow r (in_log h) = by_flow r (in_read h) ++ queue_of r (xc_sess c).
Proof.
  intros Hok Hcc [_ [Hq Hl Hr _]]%intakes_ok; [|done..].
  destruct (decide (r < length (s_rfs (xc_sess c)))) as [Hlt|Hge]; [by apply Hq|].
  rewrite (by_flow_none r (in_log h) _ Hl), (by_flow_none r (in_read h) _ Hr) by lia.
  unfold queue_of. rewrite lookup_ge_None_2 by lia. done.
Qed.

Lemma intakes_origin conn tr acc config loops h (c : xconfig C) k : config_ok config → conn_closes (calls conn) = [] →
  intakes (xinit (newSession conn tr acc config) loops) h c →
  on_id k (xc_sess c) (in_log h) ⊆+ arrived_for k (in_arrived h).
Proof.
  intros Hok Hcc [_ [_ _ _ Ho]]%intakes_ok; [|done..]. etrans; [|apply Ho]. by apply submseteq_inserts_r.
Qed.

(** C3: a session invents, changes, duplicates and misdirects no packet, however
    its goroutines and the calls of the application interleave, [Close] included.
    Every flow is a queue: what it accepted is what [Read] calls took out followed
    by what is still in it. And the packets that flows with the ID [k] accepted are
    among those that arrived for [k], in datagrams and in frames on streams, each
    at most as often as it arrived. *)
Theorem packets_have_an_origin (conn : C) (tr : option (option Trace)) (acc : bool) (config : sessionConfig)
    (loops : list loop) (h : intake) (c : xconfig C)
    (Hok : config_ok config) (Hconn : conn_closes (calls conn) = [])
    (Hrun : intakes (xinit (newSession conn tr acc config) loops) h c) :
  (∀ r, by_flow r (in_log h) = by_flow r (in_read h) ++ queue_of r (xc_sess c)) ∧
  (∀ k, on_id k (xc_sess c) (in_log h) ⊆+ arrived_for k (in_arrived h)).
Proof. split; intros; [by eapply intakes_queue|by eapply intakes_origin]. Qed.

(** The record of a run. *)
Fixpoint intake_run (ls : list xlabel) (c : xconfig C) (h : intake) : option (xconfig C * intake) :=
  match ls with
  | [] => Some (c, h)
  | l :: ls => match xexec l c with
               | Some (Ret c') => intake_run ls c' (intake_step l c c' h)
               | _ => None
               end
  end.

Lemma intake_run_ok c0 ls c h c' h' : intakes c0 h c → intake_run ls c h = Some (c', h') → intakes c0 h' c'.
Proof.
  revert c h. induction ls as [|l ls IH]; intros c h Hin; simpl; [by intros [= <- <-]|].
  destruct (xexec l c) as [[c1|]|] eqn:He; try done. apply IH. by constructor.
Qed.
End properties.

Section witnesses.
Import RFC9000.
#[local] Existing Instance lifo_pool.
#[local] Existing Instance ascending_order.

(** A datagram and a stream arrive for the flow 1; a packet of the stream is
    delivered before that of the datagram and is read. *)
Definition ex_intake : list xlabel :=
  [XNewReceiveFlow 1; XTask 0; XNetwork (EvDatagram (bytes [1; 10; 11]%Z));
   XNetwork (EvStream (mkReceiveStream 3 (mkReader [bytes [1; 1; 42; 1]%Z; bytes [43]%Z] true EOF)));
   XReceiveDatagram; XAcceptStream; XHandler 0; XTask 1; XTask 1; XTask 0; XOp (ORead 0 SelPacket (bytes [0; 0]%Z)); XTask 0].

Definition ex_intake_end : option (xconfig stubConn * intake) :=
  let s := newSession (newStubConn []) None true defaultConfig in
  intake_run ex_intake (xinit s (start s)) (mkIntake [] [] []).

Lemma packets_have_an_origin_witness : ∃ c h, ex_intake_end = Some (c, h) ∧
  by_flow 0 (in_log h) = [bytes [42]%Z; bytes [10; 11]%Z; bytes [43]%Z] ∧
  by_flow 0 (in_read h) ++ queue_of 0 (xc_sess c) = by_flow 0 (in_log h) ∧ in_read h = [(0, bytes [42]%Z)] ∧
  [bytes [42]%Z; bytes [10; 11]%Z; bytes [43]%Z] ⊆+ arrived_for 1 (in_arrived h).
Proof.
  destruct ex_intake_end as [[c h]|] eqn:E; [|vm_compute in E; discriminate].
  destruct (packets_have_an_origin (newStubConn []) None true defaultConfig
    (start (newSession (newStubConn []) None true defaultConfig)) h c) as [Hq Ho];
    [apply defaultConfig_ok|reflexivity|exact (intake_run_ok _ _ _ _ _ _ (is_nil _) E)|].
  exists c, h. split; [reflexivity|]. specialize (Ho 1%Z). rewrite <- Hq. vm_compute in E. injection E as <- <-.
  split; [reflexivity|]. split; [reflexivity|]. split; [reflexivity|]. exact Ho.
Defined.
End witnesses.
