(* ===== verification/SessionOutput.v ===== *)
(** * What a sending session puts on its connection

    [output] records the packets the application gave a session, along the steps of
    SessionConcurrent.v: those for datagrams, with the ID of their flow, and those
    for streams, with the place of the stream. The invariant: the datagrams on the
    connection are the packets for datagrams behind their flow IDs, and on every
    stream there are, with what is pending, the flow ID and the frames of a
    subsequence of the packets for that stream, and nothing on any other.

    Streams are told apart by their handles, so that the connection must not open
    the same stream twice ([fresh_opens]). *)

From S2P Require Import Prelude GoErrors IO Varint QlogEvent Qlogger Options SyncMap Connection.
From S2P Require Import RTPSendStream SendFlow PacketBuffer Deadline ReceiveFlow ReadStream.
From S2P Require Import ReceiveFlowBuffer Session SessionSpec SessionMoves SessionSteps SessionConcurrent.
From S2P Require Import SessionIntake.

Record output := mkOutput {
  out_datagrams : list (Z * list byte);
  out_streams : list (nat * list byte)
}.

(** The stream a task has opened and not yet added to its flow. *)
Definition task_stream (t : owner * task) : option RTPSendStream :=
  match t.2 with TAppendStream _ st => Some st | _ => None end.

Definition new_streams (ts : list (owner * task)) : list RTPSendStream := omap task_stream ts.

Section ghost.
Context `{!QuicVarint, !GoPool, !GoMapOrder} {C : Type} `{!Connection C}.

(** The record after a step from [c]. *)
Definition output_step (l : xlabel) (c : xconfig C) (o : output) : output :=
  match l with
  | XTask i => match xc_tasks c !! i with
               | Some (_, TWriteDatagram r p) =>
                   match s_sfs (xc_sess c) !! r with
                   | Some f => mkOutput (out_datagrams o ++ [(sf_id f, p)]) (out_streams o)
                   | None => o
                   end
               | _ => o
               end
  | XOp (OWriteStream r p) => mkOutput (out_datagrams o) (out_streams o ++ [(r, p)])
  | _ => o
  end.

(** Steps with their record. *)
Inductive outputs (c0 : xconfig C) : output → xconfig C → Prop :=
  | os_nil : outputs c0 (mkOutput [] []) c0
  | os_step o c l c' : outputs c0 o c → xexec l c = Some (Ret c') → outputs c0 (output_step l c o) c'.
End ghost.

(** ** Streams *)

Section streams.
Context `{QuicVarintLaws} {C : Type} `{ConnectionLaws C}.
Implicit Types (st : RTPSendStream) (c : C).

(** The encoding of a flow ID. *)
Definition encoding (k : Z) : list byte :=
  match quicvarint_Append [] k with Ret e => e | Panic _ => [] end.

Definition id_ok st : Prop := varint_ok (flowID st) ∧ flowIDBytes st = encoding (flowID st).

(** [st] has been given the packets [ps], and has framed [acc] of them. *)
Definition sends c st (ps : list (list byte)) : Prop :=
  ∃ acc, acc `sublist_of` ps ∧ Forall (λ p, varint_ok (Z.of_nat (length p))) acc ∧
    sent_bytes st c = stream_bytes (flowIDBytes st) acc ∧ sentFlowID st = bool_decide (acc ≠ []) ∧ id_ok st.

Lemma sends_write p st c ps res st' c' evs : varint_ok (Z.of_nat (length p)) → sends c st ps →
  WriteRTPBytes p st c = Ret (res, st', c', evs) → sends c' st' (ps ++ [p]).
Proof.
  intros Hl (acc & Hsub & Hok & Hb & Hsent & Hid) Hrun.
  destruct (WriteRTPBytes_cases p st c Hl) as (res1 & st1 & c1 & evs1 & Hrun1 & (_ & Hfid & Hfb & _) & _ & Hcase).
  rewrite Hrun in Hrun1. injection Hrun1 as <- <- <- <-. unfold sends, id_ok in *.
  destruct Hcase as [(err & _ & _ & Hs & Hby & _)|(Hby & Hs & _)].
  - exists acc. rewrite Hby, Hs, Hfb, Hfid. split_and!; try done; [by apply sublist_inserts_r|apply Hid..].
  - exists (acc ++ [p]). rewrite Hby, Hs, Hfb, Hfid, stream_bytes_snoc, Hb. split_and!; try done; [| | | |apply Hid..].
    + by apply sublist_app.
    + apply Forall_app. by split; [|apply Forall_singleton].
    + do 2 f_equal. unfold flow_prefix. rewrite Hsent. by destruct acc.
    + rewrite bool_decide_true by (by destruct acc). done.
Qed.

(** A stream nobody has written to. *)
Definition unwritten c st : Prop :=
  wire (stream st) (calls c) = [] ∧ pending st = [] ∧ sentFlowID st = false ∧ id_ok st.

Lemma sends_unwritten c st : unwritten c st → sends c st [].
Proof.
  intros (Hw & Hp & Hs & Hid). exists []. unfold sent_bytes. rewrite Hw, Hp, Hs. split_and!; try done; apply Hid.
Qed.

(** Writes to other streams change nothing. *)
Lemma sends_wire c c' st ps : wire (stream st) (calls c') = wire (stream st) (calls c) →
  sends c st ps → sends c' st ps.
Proof. unfold sends, sent_bytes. by intros ->. Qed.
End streams.

(** ** Steps that send nothing *)

Section silent.
Context `{QuicVarintLaws, !GoPool, !GoMapOrder} {C : Type} `{ConnectionLaws C}.
Implicit Types (s : Session C).

Record silent s s' : Prop := {
  si_calls : ∃ ks, calls (s_conn s') = calls (s_conn s) ++ ks ∧ datagrams ks = [] ∧ ∀ h, wire h ks = [];
  si_streams : s_streams s' = s_streams s
}.

Lemma silent_calls s s' : calls (s_conn s') = calls (s_conn s) → s_streams s' = s_streams s → silent s s'.
Proof. intros Hc Hs. split; [|done]. exists []. by rewrite app_nil_r. Qed.

Lemma silent_same s s' : s_conn s' = s_conn s → s_streams s' = s_streams s → silent s s'.
Proof. intros Hc. apply silent_calls. by rewrite Hc. Qed.

(** The calls on receive flows leave the connection and the streams alone. *)
Definition receive_only s s' : Prop := s_conn s' = s_conn s ∧ s_streams s' = s_streams s.

Lemma silent_receive s s' : receive_only s s' → silent s s'.
Proof. intros []. by apply silent_same. Qed.

Lemma receiveFlow_only id s r s' : receiveFlow id s = Ret (r, s') → receive_only s s'.
Proof.
  unfold receiveFlow. destruct (smap.get id _); [by intros [= <- <-]|].
  by intros ([[[r0 b] fs] es] & _ & [= <- <-])%bind_ret_inv.
Qed.

Lemma NewReceiveFlow_only id s res s' : NewReceiveFlow_insert id s = Ret (res, s') → receive_only s s'.
Proof.
  unfold NewReceiveFlow_insert. destruct (smap.get id _); [by intros [= <- <-]|].
  destruct (pop _ _) as [popped b]. by intros ([r fs] & _ & [= <- <-])%bind_ret_inv.
Qed.

Lemma deliver_only id d r s s' : HandleDatagram_deliver id d r s = Ret s' → receive_only s s'.
Proof.
  unfold HandleDatagram_deliver. intros (f & _ & Hrun)%bind_ret_inv. destruct (pool_Get _) as [b pb].
  apply bind_ret_inv in Hrun as (l & _ & (pl & _ & (f' & _ & [= <-])%bind_ret_inv)%bind_ret_inv). done.
Qed.

Lemma register_only rs r s ok s' : flow_register rs r s = Ret (ok, s') → receive_only s s'.
Proof.
  unfold flow_register. intros (f & _ & Hrun)%bind_ret_inv.
  destruct (register rs f) as [[ok' f'] es]. by injection Hrun as <- <-.
Qed.

Lemma readFrame_only streamID rd r s next s' : flow_readFrame streamID rd r s = Ret (next, s') → receive_only s s'.
Proof. unfold flow_readFrame. by intros (f & _ & ([[nx f'] es] & _ & [= <- <-])%bind_ret_inv)%bind_ret_inv. Qed.

Lemma unregister_only rs r s s' : flow_unregister rs r s = Ret s' → receive_only s s'.
Proof. unfold flow_unregister. by intros (f & _ & [= <-])%bind_ret_inv. Qed.

Lemma cancelCtx_only r s s' : flow_cancelCtx r s = Ret s' → receive_only s s'.
Proof. unfold flow_cancelCtx. by intros (f & _ & [= <-])%bind_ret_inv. Qed.

Lemma closeBuffer_only r s s' : flow_closeBuffer r s = Ret s' → receive_only s s'.
Proof. unfold flow_closeBuffer. by intros (f & _ & (f' & _ & [= <-])%bind_ret_inv)%bind_ret_inv. Qed.

Lemma closeStreams_only r s s' : flow_closeStreams r s = Ret s' → receive_only s s'.
Proof. unfold flow_closeStreams. by intros (f & _ & [= <-])%bind_ret_inv. Qed.

Lemma read_only r prefer buf s s' : run_op (ORead r prefer buf) s = Ret s' → receive_only s s'.
Proof.
  cbn [run_op]. unfold app_Read. destruct (deref _ r) as [f|]; [|done]. bind_simpl.
  destruct (ReceiveFlow.Read 1 prefer buf f) as [[res f']|]; by intros [= <-].
Qed.

Lemma deadline_only r t now s s' : app_SetReadDeadline r t now s = Ret s' → receive_only s s'.
Proof. unfold app_SetReadDeadline. by intros (f & _ & (f' & _ & [= <-])%bind_ret_inv)%bind_ret_inv. Qed.

Lemma silent_closes hs : datagrams (CClose <$> hs) = [] ∧ ∀ h, wire h (CClose <$> hs) = [].
Proof. split; [|intros h]; by induction hs. Qed.

Lemma silent_closeSendFlow r s e s' : tables_inv s → closeSendFlow r s = Ret (e, s') → silent s s'.
Proof.
  intros Ht Hrun. destruct (s_sfs s !! r) as [f|] eqn:Hr.
  2:{ unfold closeSendFlow, deref in Hrun. by rewrite Hr in Hrun. }
  destruct (closeSendFlow_spec r f s Ht Hr) as (errs & c' & Hrun' & [Hc _]%close_each_calls).
  rewrite Hrun in Hrun'. injection Hrun' as _ ->. split; [|done]. eexists. split; [exact Hc|]. apply silent_closes.
Qed.

Lemma silent_on_stream r g s s' : (∀ st c', ∃ ks, calls (g st c') = calls c' ++ ks ∧ datagrams ks = [] ∧ ∀ h, wire h ks = []) →
  on_stream r g s = Ret s' → silent s s'.
Proof.
  intros Hg. unfold on_stream. intros (st & _ & [= <-])%bind_ret_inv. split; [|done].
  destruct (Hg st (s_conn s)) as (ks & Hk & Hq). by exists ks.
Qed.

(** The calls of one critical section, but for writes to a stream. *)
Lemma silent_op o s s' : tables_inv s → op_single o = true → (∀ r p, o ≠ OWriteStream r p) →
  run_op o s = Ret s' → silent s s'.
Proof.
  intros Ht Hs Hn Hrun. destruct o; try done.
  - by destruct (Hn r packet).
  - eapply silent_on_stream, Hrun. intros st c'. simpl. destruct (RTPSendStream.Close st c') as [e c1] eqn:Hc.
    apply calls_Close in Hc. by eexists.
  - eapply silent_on_stream, Hrun. intros st c'. unfold CancelStream. rewrite calls_CancelWrite. by eexists.
  - cbn [run_op] in Hrun. destruct (closeSendFlow r s) as [[e s1]|] eqn:Hc; [|done].
    injection Hrun as <-. by eapply silent_closeSendFlow.
  - eapply silent_receive, read_only, Hrun.
  - eapply silent_receive, deadline_only, Hrun.
Qed.

Lemma silent_close_step code reason p s p' s' : tables_inv s → close_step code reason p s = Ret (p', s') → silent s s'.
Proof.
  intros Ht. destruct p as [|[|[k r] l]|[|[k r] l]|r l|r l|]; cbn [close_step].
  - intros [= <- <-]. by apply silent_same.
  - intros [= <- <-]. by apply silent_same.
  - intros ([e s1] & Hc & [= <- <-])%bind_ret_inv. by eapply silent_closeSendFlow.
  - destruct (CloseWithError _ _ _) as [cerr c'] eqn:Hc. apply calls_CloseWithError in Hc.
    intros [= <- <-]. split; [|done]. by eexists.
  - intros (s1 & Hc & [= <- <-])%bind_ret_inv. eapply silent_receive, cancelCtx_only, Hc.
  - intros (s1 & Hc & [= <- <-])%bind_ret_inv. eapply silent_receive, closeBuffer_only, Hc.
  - intros (s1 & Hc & [= <- <-])%bind_ret_inv. eapply silent_receive, closeStreams_only, Hc.
  - intros [= <- <-]. by apply silent_same.
Qed.

(** The tasks that send nothing and add no stream. *)
Lemma silent_task t s next s' late : tables_inv s → task_ok s t → run_task t s = Ret (next, s', late) →
  match t with
  | TWriteDatagram _ _ | TOpenStream _ _ _ | TAppendStream _ _ => True
  | _ => silent s s' ∧ ∀ t', next = Some t' → ∀ r st, t' ≠ TAppendStream r st
  end.
Proof.
  intros Ht Hok Hrun. pose proof (run_task_fits t s _ Hok Hrun) as Hfit. revert Hrun.
  destruct t; cbn [run_task]; try done; intros Hrun.
  - apply bool_decide_eq_true in Hfit. destruct (NewSendFlow_insert_spec id s Ht (conj (proj1 Hok) Hfit)) as (f & m & res & s1 & Hn & _ & -> & _).
    rewrite Hn in Hrun. injection Hrun as <- <- _. split; [by apply silent_same|done].
  - apply bind_ret_inv in Hrun as ([res s1] & Hn & [= <- <- _]). split; [eapply silent_receive, NewReceiveFlow_only, Hn|done].
  - apply bind_ret_inv in Hrun as (s1 & Hn & [= <- <- _]). split; [eapply silent_receive, deliver_only, Hn|done].
  - apply bind_ret_inv in Hrun as ([ok s1] & Hn & [= <- <- _]).
    split; [eapply silent_receive, register_only, Hn|]. by destruct ok; intros t' [= <-].
  - apply bind_ret_inv in Hrun as ([nx s1] & Hn & [= <- <- _]).
    split; [eapply silent_receive, readFrame_only, Hn|]. by destruct nx; intros t' [= <-].
  - apply bind_ret_inv in Hrun as (s1 & Hn & [= <- <- _]). split; [eapply silent_receive, unregister_only, Hn|done].
  - apply bind_ret_inv in Hrun as (s1 & Hn & [= <- <- _]).
    split; [eapply silent_receive, closeBuffer_only, Hn|by intros t' [= <-]].
  - apply bind_ret_inv in Hrun as (s1 & Hn & [= <- <- _]). split; [eapply silent_receive, closeStreams_only, Hn|done].
Qed.
End silent.

(** ** The invariant *)

Section invariant.
Context `{QuicVarintLaws, !GoPool, !GoMapOrder} {C : Type} `{ConnectionLaws C}.
Implicit Types (s : Session C) (c : xconfig C).

(** The stream has been opened on the connection. *)
Definition used (ks : list call) (h : nat) : Prop := ∃ k, k ∈ ks ∧ call_stream k = Some h.

Record out_ok s (ns : list RTPSendStream) (o : output) : Prop := {
  oo_datagrams : datagrams (calls (s_conn s)) = (λ x, encoding x.1 ++ x.2) <$> out_datagrams o;
  oo_ids : Forall (λ x, varint_ok x.1) (out_datagrams o);
  oo_stream r st : s_streams s !! r = Some st → sends (s_conn s) st (by_flow r (out_streams o));
  oo_new : Forall (unwritten (s_conn s)) ns;
  oo_distinct : NoDup (stream <$> s_streams s ++ ns);
  oo_used : Forall (used (calls (s_conn s))) (stream <$> s_streams s ++ ns);
  oo_wire h : wire h (calls (s_conn s)) ≠ [] → ∃ st, st ∈ s_streams s ∧ stream st = h;
  oo_bound : Forall (λ x, x.1 < length (s_streams s)) (out_streams o)
}.

Lemma used_app ks ks' h : used ks h → used (ks ++ ks') h.
Proof. intros (k & Hk & ?). exists k. split; [|done]. apply elem_of_app. by left. Qed.

Lemma unwritten_wire (conn conn' : C) st : wire (stream st) (calls conn') = wire (stream st) (calls conn) →
  unwritten conn st → unwritten conn' st.
Proof. unfold unwritten. by intros ->. Qed.

Lemma out_ok_silent s s' ns ns' o : out_ok s ns o → silent s s' → ns' ⊆+ ns → out_ok s' ns' o.
Proof.
  intros [Hd Hi Hs Hn Hnd Hu Hw Hb] [(ks & Hc & Hdk & Hwk) Hst] Hsub.
  assert (∀ h, wire h (calls (s_conn s')) = wire h (calls (s_conn s))) as Hwire.
  { intros h. by rewrite Hc, wire_app, Hwk, app_nil_r. }
  assert (stream <$> s_streams s ++ ns' ⊆+ stream <$> s_streams s ++ ns) as Hsub' by (by apply fmap_submseteq, submseteq_app).
  split; rewrite ?Hst; try done.
  - by rewrite Hc, datagrams_app, Hdk, app_nil_r.
  - intros r st Hr. eapply sends_wire; [by apply Hwire|by apply Hs].
  - eapply submseteq_Forall; [exact Hsub|]. eapply Forall_impl; [exact Hn|]. intros st. by apply unwritten_wire.
  - by eapply submseteq_NoDup, Hnd.
  - eapply submseteq_Forall; [exact Hsub'|]. eapply Forall_impl; [exact Hu|]. intros h. rewrite Hc. apply used_app.
  - intros h. rewrite Hwire. apply Hw.
Qed.

(** [WriteRTPBytes] of a flow sends a datagram. *)
Lemma out_ok_datagram r f p s res s' ns o : tables_inv s → s_sfs s !! r = Some f → out_ok s ns o →
  app_WriteDatagram_send r p s = Ret (res, s') →
  out_ok s' ns (mkOutput (out_datagrams o ++ [(sf_id f, p)]) (out_streams o)).
Proof.
  intros Ht Hr [Hd Hi Hs Hn Hnd Hu Hw Hb]. unfold app_WriteDatagram_send, deref, WriteRTPBytes_send. rewrite Hr.
  bind_simpl. destruct (SendDatagram _ _) as [err c'] eqn:Hc. intros [= _ <-]. apply calls_SendDatagram in Hc.
  destruct (ti_sf _ _ _ Ht Hr) as (Ha & Hid & _).
  assert (∀ h, wire h (calls c') = wire h (calls (s_conn s))) as Hwire.
  { intros h. rewrite Hc, wire_app. apply app_nil_r. }
  split; simpl; try done.
  - rewrite Hc, datagrams_app, Hd, fmap_app. simpl. unfold encoding. by rewrite Ha.
  - apply Forall_app. split; [done|]. by apply Forall_singleton.
  - intros r0 st Hr0. eapply sends_wire; [by apply Hwire|by apply Hs].
  - eapply Forall_impl; [exact Hn|]. intros st. by apply unwritten_wire.
  - eapply Forall_impl; [exact Hu|]. intros h. rewrite Hc. apply used_app.
  - intros h. rewrite Hwire. apply Hw.
Qed.

Lemma datagrams_writes h ks : stream_writes h ks → datagrams ks = [].
Proof. by induction 1 as [|k ks (p & n & ->) _ IH]. Qed.

(** [WriteRTPBytes] of a stream writes to that stream alone. *)
Lemma out_ok_write r p s res s' ns o : varint_ok (Z.of_nat (length p)) → out_ok s ns o →
  app_WriteStream r p s = Ret (res, s') → out_ok s' ns (mkOutput (out_datagrams o) (out_streams o ++ [(r, p)])).
Proof.
  intros Hl [Hd Hi Hs Hn Hnd Hu Hw Hb]. unfold app_WriteStream, deref.
  destruct (s_streams s !! r) as [st|] eqn:Hr; [|done]. bind_simpl.
  intros ([[[res' st'] c'] es] & Hrun & [= _ <-])%bind_ret_inv.
  pose proof (sends_write p st _ _ _ _ _ _ Hl (Hs r st Hr) Hrun) as Hsend.
  destruct (WriteRTPBytes_cases p st (s_conn s) Hl) as (res1 & st1 & c1 & evs1 & Hrun1 & (Hh & _) & Hwire & _).
  rewrite Hrun in Hrun1. injection Hrun1 as <- <- <- <-. apply WriteRTPBytes_calls in Hrun as (ks & Hc & Hks).
  assert (stream <$> <[r := st']> (s_streams s) ++ ns = stream <$> s_streams s ++ ns) as Hsame.
  { rewrite !fmap_app, list_fmap_insert, list_insert_id; [done|]. by rewrite list_lookup_fmap, Hr, Hh. }
  assert (∀ r0 st0, r0 ≠ r → (s_streams s ++ ns) !! r0 = Some st0 → stream st0 ≠ stream st) as Hne.
  { intros r0 st0 Hne Hr0 E. apply Hne. eapply NoDup_lookup; [exact Hnd|by rewrite list_lookup_fmap, Hr0|].
    rewrite list_lookup_fmap, (lookup_app_l_Some _ _ _ _ Hr). simpl. by rewrite E. }
  pose proof (lookup_lt_Some _ _ _ Hr) as Hlt.
  split; simpl; rewrite ?length_insert; try done.
  - by rewrite Hc, datagrams_app, (datagrams_writes _ _ Hks), app_nil_r.
  - intros r0 st0 Hr0. rewrite by_flow_app. change [(r, p)] with (pair r <$> [p]). rewrite by_flow_pair.
    destruct (decide (r = r0)) as [<-|].
    + rewrite list_lookup_insert_eq in Hr0 by done. by injection Hr0 as <-.
    + rewrite list_lookup_insert_ne in Hr0 by done. rewrite app_nil_r. eapply sends_wire; [|by apply Hs].
      apply Hwire, (Hne r0); [done|]. by apply lookup_app_l_Some.
  - apply Forall_lookup. intros i st0 Hi0. pose proof (Forall_lookup_1 _ _ _ _ Hn Hi0) as Hun.
    eapply unwritten_wire, Hun. apply Hwire, (Hne (length (s_streams s) + i)); [lia|].
    rewrite lookup_app_r, Nat.add_comm, Nat.add_sub by lia. done.
  - by rewrite Hsame.
  - rewrite Hsame. eapply Forall_impl; [exact Hu|]. intros h. rewrite Hc. apply used_app.
  - intros h Hne0. destruct (decide (h = stream st)) as [->|Hh0].
    + exists st'. split; [|done]. apply list_elem_of_lookup_2 with r. by apply list_lookup_insert_eq.
    + rewrite Hwire in Hne0 by done. destruct (Hw h Hne0) as (st0 & [r0 Hr0]%list_elem_of_lookup_1 & Hst0).
      exists st0. split; [|done]. apply list_elem_of_lookup_2 with r0. rewrite list_lookup_insert_ne; [done|].
      intros ->. congruence.
  - apply Forall_app. split; [done|]. by apply Forall_singleton.
Qed.

(** [NewSendStream] opens a stream nobody has written to. *)
Lemma NewSendStream_open_calls r p i s res s' : app_NewSendStream_open r p i s = Ret (res, s') →
  s_streams s' = s_streams s ∧ match res with
  | inl st => ∃ f ks, s_sfs s !! r = Some f ∧ calls (s_conn s') = calls (s_conn s) ++ COpenUniStream (Some (stream st)) :: ks ∧
      datagrams ks = [] ∧ (∀ h, wire h ks = []) ∧
      st = mkRTPSendStream (stream st) (sf_id f) (sf_flowID f) (sf_qlog f) false [] []
  | inr _ => silent s s'
  end.
Proof.
  unfold app_NewSendStream_open, deref. destruct (s_sfs s !! r) as [f|] eqn:Hr; [|done]. bind_simpl.
  unfold NewSendStream_open. destruct (OpenUniStreamSync (s_conn s)) as [[h|e] c1] eqn:Ho; apply calls_Open in Ho.
  2:{ intros [= <- <-]. split; [done|]. split; [|done]. by eexists. }
  destruct (is_PrioritySendStream h) eqn:Hprio; cbn [newRTPSendStream]; intros [= <- <-]; (split; [done|]).
  - exists f, [CSetPriority h p; CSetIncremental h i]. simpl.
    rewrite calls_SetIncremental, calls_SetPriority, Ho, <- !app_assoc by done. done.
  - exists f, []. simpl. by rewrite Ho.
Qed.

Lemma out_ok_open r p i s st s' ns o : tables_inv s → fresh_opens (calls (s_conn s')) → out_ok s ns o →
  app_NewSendStream_open r p i s = Ret (inl st, s') → out_ok s' (st :: ns) o.
Proof.
  intros Ht Hfresh Hok [Hst (f & ks & Hr & Hc & Hd & Hw & Heq)]%NewSendStream_open_calls.
  pose proof (Hfresh _ _ _ Hc) as Hnew.
  assert (out_ok s' ns o) as [Hd' Hi Hs Hn Hnd Hu Hw' Hb].
  { eapply out_ok_silent; [exact Hok| |done]. split; [|done]. eexists. split; [exact Hc|]. done. }
  assert (Permutation (stream <$> s_streams s' ++ st :: ns) (stream st :: (stream <$> s_streams s' ++ ns))) as Hp.
  { by rewrite <- Permutation_middle. }
  split; try done.
  - apply Forall_cons. split; [|done]. destruct (ti_sf _ _ _ Ht Hr) as (Ha & Hid & _). unfold unwritten, id_ok, encoding.
    rewrite Hc, wire_app, (wire_unused _ _ Hnew). rewrite Heq. simpl. rewrite Ha. by split_and!.
  - rewrite Hp. apply NoDup_cons. split; [|done]. rewrite Hst. intros Hin.
    destruct Hok as [_ _ _ _ _ Hu0 _ _]. rewrite Forall_forall in Hu0.
    destruct (Hu0 _ Hin) as (k & Hk & Hcs). rewrite Forall_forall in Hnew. by apply (Hnew k Hk).
  - rewrite Hp. apply Forall_cons. split; [|done]. exists (COpenUniStream (Some (stream st))). rewrite Hc.
    split; [|done]. apply elem_of_app. right. apply list_elem_of_here.
Qed.

(** It is added to its flow. *)
Lemma out_ok_append r st s i s' ns o : out_ok s (st :: ns) o → app_NewSendStream_append r st s = Ret (i, s') →
  out_ok s' ns o.
Proof.
  intros [Hd Hi Hs Hn Hnd Hu Hw Hb]. unfold app_NewSendStream_append. intros (f & _ & Hrun)%bind_ret_inv.
  unfold NewSendStream_append in Hrun. injection Hrun as _ <-. apply Forall_cons in Hn as [Hun Hn].
  split; simpl; rewrite <- ?(assoc_L app), ?length_app; try done.
  - intros r0 st0 [Hr0|[Hr0 Hst0]]%lookup_app_Some; [by apply Hs|].
    apply list_lookup_singleton_Some in Hst0 as [Hr1 <-].
    rewrite (by_flow_none r0 _ (length (s_streams s))) by done. by apply sends_unwritten.
  - intros h (st0 & Hin & ?)%Hw. exists st0. split; [|done]. apply elem_of_app. by left.
  - eapply Forall_impl; [exact Hb|]. simpl. lia.
Qed.
End invariant.

(** ** Every step keeps the record right *)

Section steps.
Context `{QuicVarintLaws, !GoPool, !GoMapOrder} {C : Type} `{ConnectionLaws C}.
Implicit Types (s : Session C) (c : xconfig C).

Definition cout c (o : output) : Prop := out_ok (xc_sess c) (new_streams (xc_tasks c)) o.

(** A step adds calls to those before, and keeps the invariant if the streams it
    opens are new. *)
Definition advances c c' (o o' : output) : Prop :=
  calls (s_conn (xc_sess c)) `prefix_of` calls (s_conn (xc_sess c')) ∧
  (fresh_opens (calls (s_conn (xc_sess c'))) → cout c o → cout c' o').

Lemma advances_refl c o : advances c c o o.
Proof. by split. Qed.

Lemma advances_trans c1 c2 c3 o1 o2 o3 : advances c1 c2 o1 o2 → advances c2 c3 o2 o3 → advances c1 c3 o1 o3.
Proof.
  intros [P12 A12] [P23 A23]. split; [by etrans|]. intros Hf Hok. apply A23, A12; [done| |done].
  by eapply fresh_opens_prefix.
Qed.

Lemma new_streams_spawn ts who t : new_streams (ts ++ [(who, t)]) ≡ₚ
  match t with TAppendStream _ st => [st] | _ => [] end ++ new_streams ts.
Proof.
  unfold new_streams. rewrite omap_app, Permutation_app_comm. simpl. by destruct t.
Qed.

(** The streams of the tasks when task [i] goes on with [next]. *)
Lemma new_streams_next ts i who t next : ts !! i = Some (who, t) →
  ∃ rest, new_streams ts ≡ₚ match t with TAppendStream _ st => [st] | _ => [] end ++ rest ∧
    new_streams (match next with Some t' => <[i := (who, t')]> ts | None => delete i ts end) ≡ₚ
      match next with Some (TAppendStream _ st) => [st] | _ => [] end ++ rest.
Proof.
  intros (l1 & l2 & -> & ->)%list_elem_of_split_length. exists (new_streams (l1 ++ l2)). split.
  - unfold new_streams. rewrite !omap_app. simpl. unfold task_stream at 2. destruct t; simpl; solve_Permutation.
  - destruct next as [t'|]; [rewrite insert_app_r_alt, Nat.sub_diag by done|by rewrite delete_middle]. simpl.
    unfold new_streams. rewrite !omap_app. simpl. unfold task_stream at 2. destruct t'; simpl; solve_Permutation.
Qed.

Lemma out_ok_perm s ns ns' o : out_ok s ns o → ns' ⊆+ ns → out_ok s ns' o.
Proof. intros Hok Hsub. eapply out_ok_silent; [exact Hok|by apply silent_same|done]. Qed.

Lemma cout_task i c o c' : xinv c → xexec (XTask i) c = Some (Ret c') → advances c c' o (output_step (XTask i) c o).
Proof.
  intros Hx. cbn [xexec output_step]. destruct (xc_tasks c !! i) as [[who t]|] eqn:Hi; [|done].
  cbn [mbind option_bind]. destruct (task_blocked _ t); [done|].
  intros [= ([[next s'] late] & Hrun & Hc')%bind_ret_inv].
  destruct late as [[nS nR] nT]. injection Hc' as <-.
  pose proof (Forall_lookup_1 _ _ _ _ (xi_tasks _ Hx) Hi) as Htok. pose proof (xi_tables _ Hx) as Ht. split.
  { destruct (run_task_ok t _ Ht Htok (run_task_fits _ _ _ Htok Hrun)) as (nx & s1 & ? & ? & ? & ? & ? & Hrun' & _ & M & _).
    rewrite Hrun in Hrun'. injection Hrun' as _ <- _ _ _. destruct (mv_calls _ _ _ _ _ M) as (ks & Hk & _).
    simpl. rewrite Hk. by apply prefix_app_r. }
  simpl. unfold cout. simpl. intros Hfresh Hok.
  destruct (new_streams_next _ i who t next Hi) as (rest & Hbefore & Hafter).
  set (ts' := match next with Some t' => _ | None => _ end) in *.
  pose proof (silent_task t _ _ _ _ Ht Htok Hrun) as Hsil.
  assert (out_ok (xc_sess c) (match t with TAppendStream _ st => [st] | _ => [] end ++ rest) o) as Hok1.
  { eapply out_ok_perm; [exact Hok|]. by rewrite Hbefore. }
  destruct t; cbn [snd run_task task_ok] in *;
    lazymatch type of Hsil with
    | True => idtac
    | _ => destruct Hsil as [Hsil Hnext]; eapply out_ok_silent; [exact Hok1|done|]; rewrite Hafter;
           destruct next as [t'|]; [|done]; destruct t'; done || by destruct (Hnext _ eq_refl _ _ eq_refl)
    end.
  - apply bind_ret_inv in Hrun as ([res s1] & Hn & [= <- <- _]). apply lookup_lt_is_Some_2 in Htok as [f Hr].
    rewrite Hr. eapply out_ok_perm; [|by rewrite Hafter]. by eapply out_ok_datagram.
  - apply bind_ret_inv in Hrun as ([res s1] & Hn & [= <- <- _]). destruct res as [st|err].
    + eapply out_ok_perm; [|by rewrite Hafter]. by eapply out_ok_open.
    + apply NewSendStream_open_calls in Hn as [_ Hs]. eapply out_ok_silent; [exact Hok1|exact Hs|]. by rewrite Hafter.
  - apply bind_ret_inv in Hrun as (f & _ & ([n s1] & Hn & [= <- <- _])%bind_ret_inv).
    eapply out_ok_perm; [|by rewrite Hafter]. by eapply out_ok_append.
Qed.

(** The session moves, sending nothing, and tasks begin that have opened no stream. *)
Lemma cout_silent c c' o : silent (xc_sess c) (xc_sess c') →
  new_streams (xc_tasks c') ⊆+ new_streams (xc_tasks c) → advances c c' o o.
Proof.
  intros Hs Hts. split; [|intros _ Hok; by eapply out_ok_silent].
  destruct Hs as [(ks & -> & _) _]. by apply prefix_app_r.
Qed.

Lemma cout_spawn who t s' c o : silent (xc_sess c) s' → (∀ r st, t ≠ TAppendStream r st) →
  advances c (spawn who t (xwith_sess s' c)) o o.
Proof.
  intros Hs Ht. apply cout_silent; [exact Hs|]. simpl. rewrite new_streams_spawn.
  destruct t; try done. by destruct (Ht r stream).
Qed.

Lemma cout_begin_close code reason who c o c' : begin_close code reason who c = Some (Ret c') → advances c c' o o.
Proof.
  unfold begin_close. destruct (xc_closer c); [done|]. destruct (s_closedErr _).
  - intros [= <-]. destruct who; by apply cout_silent; [apply silent_same|].
  - intros [= <-]. by apply cout_silent; [apply silent_same|].
Qed.

Lemma cout_datagram who d c o c' : begin_datagram who d c = Some (Ret c') → advances c c' o o.
Proof.
  unfold begin_datagram. destruct (quicvarint_Parse d) as [[id n]|e]; [|apply cout_begin_close].
  intros [= ([r s'] & Hl & [= <-])%bind_ret_inv]. unfold HandleDatagram_lookup in Hl.
  apply cout_spawn; [|done]. apply receiveFlow_only in Hl as [? ?]. by apply silent_same.
Qed.

Lemma cout_stream who id rs c o c' : begin_stream who id rs c = Ret c' → advances c c' o o.
Proof.
  unfold begin_stream. intros ([r s'] & Hl & [= <-])%bind_ret_inv. unfold HandleUniStream_lookup in Hl.
  apply cout_spawn; [|done]. apply receiveFlow_only in Hl as [? ?]. by apply silent_same.
Qed.

Lemma cout_begin_call t c o c' : (∀ r st, t ≠ TAppendStream r st) →
  begin_call t c = Some (Ret c') → advances c c' o o.
Proof.
  intros Ht. unfold begin_call. destruct (xc_closer c), (Session_isClosed (xc_sess c)); try done; intros [= <-].
  - apply advances_refl.
  - by apply (cout_spawn ByApp t (xc_sess c) c); [apply silent_same|].
Qed.

Lemma cout_begin_flow_call r t c o c' : (∀ r st, t ≠ TAppendStream r st) →
  begin_flow_call r t c = Some (Ret c') → advances c c' o o.
Proof.
  intros Ht. unfold begin_flow_call. case_decide; [|done]. intros [= (f & _ & Hf)%bind_ret_inv].
  destruct (isClosed f); injection Hf as <-; [apply advances_refl|].
  by apply (cout_spawn ByApp t (xc_sess c) c); [apply silent_same|].
Qed.

Lemma cout_op op c o c' : xinv c → xexec (XOp op) c = Some (Ret c') → advances c c' o (output_step (XOp op) c o).
Proof.
  intros Hx. cbn [xexec]. destruct (op_single op) eqn:Hs; [|done].
  destruct (op_ok op (xc_sess c)) eqn:Hop; [|done]. cbn [andb]. intros [= (s' & Hrun & [= <-])%bind_ret_inv].
  assert ((∃ r p, op = OWriteStream r p) ∨ ∀ r p, op ≠ OWriteStream r p) as [(r & p & ->)|Hno].
  { destruct op; try (right; done). left. eauto. }
  - split.
    { destruct (run_single_moves _ _ Hs (xi_tables _ Hx) Hop) as (s1 & Hrun1 & _ & M). rewrite Hrun in Hrun1.
      injection Hrun1 as <-. destruct (mv_calls _ _ _ _ _ M) as (ks & Hk & _). simpl. rewrite Hk. by apply prefix_app_r. }
    cbn [op_ok run_op] in *. apply andb_prop in Hop as [_ Hl%bool_decide_eq_true]. intros _ Hok.
    destruct (app_WriteStream r p (xc_sess c)) as [[res s1]|] eqn:Hw; [|done]. injection Hrun as <-.
    eapply out_ok_write; [|exact Hok|exact Hw]. unfold varint_ok. lia.
  - assert (advances c (xwith_sess s' c) o o); [|by destruct op; try done; destruct (Hno r packet)].
    apply cout_silent; [|done]. by eapply silent_op; [apply (xi_tables _ Hx)|..].
Qed.

Lemma cout_receive c o c' : xexec XReceiveDatagram c = Some (Ret c') → advances c c' o o.
Proof.
  cbn [xexec]. case_decide; [|done]. destruct (loop_busy c); [done|].
  unfold conn_ReceiveDatagram. destruct (ReceiveDatagram _ _) as [[res conn]|] eqn:Hr; [|done]. cbn [mbind option_bind].
  intros He. apply (advances_trans _ (xwith_sess (set_conn conn (xc_sess c)) c) _ _ o).
  { apply cout_silent; [|done]. apply silent_calls; [|done]. simpl. by eapply calls_ReceiveDatagram. }
  destruct res as [d|err]; [by eapply cout_datagram|]. injection He as <-. by apply cout_silent; [apply silent_same|].
Qed.

Lemma cout_accept c o c' : xexec XAcceptStream c = Some (Ret c') → advances c c' o o.
Proof.
  cbn [xexec]. case_decide; [|done].
  unfold conn_AcceptUniStream. destruct (AcceptUniStream _ _) as [[res conn]|] eqn:Hr; [|done]. cbn [mbind option_bind].
  apply calls_AcceptUniStream in Hr as [Hc _].
  destruct res; intros [= <-]; (apply cout_silent; [|done]); by apply silent_calls.
Qed.

Lemma cout_handler i c o c' : xexec (XHandler i) c = Some (Ret c') → advances c c' o o.
Proof.
  cbn [xexec]. destruct (xc_handlers c !! i) as [rs|]; [|done]. cbn [mbind option_bind].
  destruct (handler_blocked _ rs); [done|]. destruct (quicvarint_Read (rs_reader rs)) as [[id|e] rd].
  - intros [= He]. exact (cout_stream _ _ _ _ _ _ He).
  - intros [= <-]. by apply cout_silent; [apply silent_same|].
Qed.

Lemma cout_step l c o c' : xinv c → xexec l c = Some (Ret c') → advances c c' o (output_step l c o).
Proof.
  intros Hx He. pose proof (xi_tables _ Hx) as Ht.
  destruct l; try (change (output_step _ c o) with o); [..|by eapply cout_handler].
  - cbn [xexec] in He. case_decide; [|done]. by eapply (cout_begin_call (TNewSendFlow id)).
  - by eapply (cout_begin_call (TNewReceiveFlow id)).
  - by eapply (cout_begin_flow_call r (TWriteDatagram r packet)).
  - by eapply (cout_begin_flow_call r (TOpenStream r priority incremental)).
  - cbn [xexec] in He. case_decide; [|done]. injection He as (s' & Hs & [= <-])%bind_ret_inv.
    apply cout_spawn; [|done]. eapply silent_receive, cancelCtx_only, Hs.
  - by apply cout_op.
  - by eapply cout_datagram.
  - cbn [xexec] in He. destruct (stream_ok rs); [|done]. injection He as He. by eapply cout_stream.
  - by apply cout_task.
  - by eapply cout_begin_close.
  - cbn [xexec] in He. destruct (xc_closer c) as [cl|]; [|done]. injection He as ([p s'] & Hs & He)%bind_ret_inv.
    apply silent_close_step in Hs; [|done]. destruct p as [p|]; injection He as <-; [by apply cout_silent|].
    apply cout_silent; by destruct (cl_owner cl).
  - cbn [xexec] in He. destruct (xc_closer c); [done|]. destruct (xc_waiting c); [done|].
    destruct (goroutines_done c); [|done]. destruct (Close_finish_cases (xc_sess c)) as (es & b & E & _).
    rewrite E in He. injection He as <-. by apply cout_silent; [apply silent_same|].
  - injection He as <-. apply cout_silent; [|done]. apply silent_calls; [|done]. apply calls_handle.
  - by eapply cout_receive.
  - by eapply cout_accept.
Qed.

Lemma outputs_ok conn tr acc config loops o c : config_ok config → calls conn = [] →
  outputs (xinit (newSession conn tr acc config) loops) o c → fresh_opens (calls (s_conn (xc_sess c))) → cout c o.
Proof.
  intros Hok Hcalls Hrun. assert (xinv c ∧ advances (xinit (newSession conn tr acc config) loops) c (mkOutput [] []) o) as [_ [_ Ha]].
  { induction Hrun as [|o c l c' _ [Hx Ha] He].
    - split; [apply xinit_inv; [done|by rewrite Hcalls]|apply advances_refl].
    - split; [by destruct (xexec_ret l c c' Hx He)|].
      eapply advances_trans; [exact Ha|]. by apply cout_step. }
  intros Hf. apply Ha; [done|]. split; simpl; rewrite ?Hcalls; try done. constructor.
Qed.
End steps.

(** ** Properties *)

Section properties.
Context `{QuicVarintLaws, !GoPool, !GoMapOrder} {C : Type} `{ConnectionLaws C}.

(** C4: what a session puts on the wire, however the calls of its application and
    its goroutines interleave, whichever writes are short or fail, and when
    [Close] comes. The datagrams are the packets given to flows, in the order of
    the sends, each behind the ID of its flow. Every stream that was written to is
    one of a flow, and the bytes on it, with those that are pending, are the ID of
    that flow and the whole frames of a subsequence of the packets given to that
    stream, in their order; the bytes of two streams, or of two calls on one, never
    mix. *)
Theorem session_frames_packets (conn : C) (tr : option (option Trace)) (acc : bool) (config : sessionConfig)
    (loops : list loop) (o : output) (c : xconfig C)
    (Hok : config_ok config) (Hconn : calls conn = [])
    (Hrun : outputs (xinit (newSession conn tr acc config) loops) o c)
    (Hfresh : fresh_opens (calls (s_conn (xc_sess c)))) :
  datagrams (calls (s_conn (xc_sess c))) = (λ x, encoding x.1 ++ x.2) <$> out_datagrams o ∧
  ∀ h, wire h (calls (s_conn (xc_sess c))) ≠ [] →
    ∃ r st ps, s_streams (xc_sess c) !! r = Some st ∧ stream st = h ∧ ps `sublist_of` by_flow r (out_streams o) ∧
      wire h (calls (s_conn (xc_sess c))) ++ pending st = stream_bytes (encoding (flowID st)) ps.
Proof.
  pose proof (outputs_ok _ _ _ _ _ _ _ Hok Hconn Hrun Hfresh) as Hout. split; [apply Hout|]. intros h Hw.
  destruct (oo_wire _ _ _ Hout h Hw) as (st & [r Hr]%list_elem_of_lookup_1 & <-).
  destruct (oo_stream _ _ _ Hout r st Hr) as (ps & Hsub & _ & Hb & _ & _ & Hid).
  exists r, st, ps. by rewrite <- Hid.
Qed.

(** The record of a run. *)
Fixpoint output_run (ls : list xlabel) (c : xconfig C) (o : output) : option (xconfig C * output) :=
  match ls with
  | [] => Some (c, o)
  | l :: ls => match xexec l c with
               | Some (Ret c') => output_run ls c' (output_step l c o)
               | _ => None
               end
  end.

Lemma output_run_ok c0 ls c o c' o' : outputs c0 o c → output_run ls c o = Some (c', o') → outputs c0 o' c'.
Proof.
  revert c o. induction ls as [|l ls IH]; intros c o Ho; simpl; [by intros [= <- <-]|].
  destruct (xexec l c) as [[c1|]|] eqn:He; try done. apply IH. by constructor.
Qed.
End properties.

Section witnesses.
Import RFC9000.
#[local] Existing Instance lifo_pool.
#[local] Existing Instance ascending_order.

(** The flow 1 sends a packet as a datagram and two on a stream: what arrives at the
    session of [ex_intake]. The first write to the stream accepts two bytes. *)
Definition ex_output : list xlabel :=
  [XNewSendFlow 1; XTask 0; XNewSendStream 0 0 false; XTask 0; XWriteDatagram 0 (bytes [10; 11]%Z); XTask 0;
   XTask 0; XOp (OWriteStream 0 (bytes [42]%Z)); XOp (OWriteStream 0 (bytes [43]%Z)); XOp (OCloseStream 0)].

Definition ex_output_end : option (xconfig stubConn * output) :=
  output_run ex_output (xinit (newSession (newStubConn [(2, None)]%Z) None true defaultConfig) []) (mkOutput [] []).

Lemma session_frames_packets_witness : ∃ c o st,
  ex_output_end = Some (c, o) ∧ s_streams (xc_sess c) !! 0 = Some st ∧
  datagrams (calls (s_conn (xc_sess c))) = [bytes [1; 10; 11]%Z] ∧
  ∃ ps, ps `sublist_of` [bytes [42]%Z; bytes [43]%Z] ∧
    bytes [1; 1; 42; 1; 43]%Z = stream_bytes (bytes [1]%Z) ps.
Proof.
  destruct ex_output_end as [[c o]|] eqn:E; [|vm_compute in E; discriminate].
  destruct (session_frames_packets (newStubConn [(2, None)]%Z) None true defaultConfig [] o c) as [Hd Hs];
    [apply defaultConfig_ok|reflexivity|exact (output_run_ok _ _ _ _ _ _ (os_nil _) E)| |].
  - apply fresh_opens_test. vm_compute in E. injection E as <- _. reflexivity.
  - exists c, o. vm_compute in E. injection E as <- <-. destruct (Hs 0) as (r & st & ps & Hr & Hst & Hsub & Hb).
    { vm_compute. discriminate. }
    destruct r as [|r]; [|vm_compute in Hr; discriminate]. exists st. split; [reflexivity|]. split; [exact Hr|].
    split; [exact Hd|]. exists ps. split; [exact Hsub|]. vm_compute in Hr. injection Hr as <-. exact Hb.
Defined.
End witnesses.
