(* ===== verification/System.v ===== *)
(** * Two sessions and the network between them

    A session that sends (SessionOutput.v), one that receives (SessionIntake.v), and
    what QUIC promises about the bytes between them ([network]): datagrams may be
    lost or overtake each other but are not invented or repeated, every stream
    arrives once at most, as a prefix of what was written to it, and ends with
    [io.EOF] only when it was closed and has arrived whole. *)

From S2P Require Import Prelude GoErrors IO Varint QlogEvent Qlogger Options SyncMap Connection.
From S2P Require Import RTPSendStream SendFlow PacketBuffer Deadline ReceiveFlow ReadStream.
From S2P Require Import ReceiveFlowBuffer Session SessionSpec SessionMoves SessionSteps SessionConcurrent.
From S2P Require Import SessionIntake SessionOutput.

(** ** What a part of a stream delivers *)

Section prefixes.
Context `{QuicVarintLaws}.

(** A parse is that of everything the bytes are a prefix of. *)
Lemma Parse_prefix d d' v n : d `prefix_of` d' → quicvarint_Parse d = inl (v, n) → quicvarint_Parse d' = inl (v, n).
Proof.
  intros [rest ->] Hp. apply Parse_inv in Hp as Hinv. destruct Hinv as (_ & _ & _ & _ & Hn & _).
  apply (Parse_app _ _ _ (drop n d ++ rest)) in Hp. by rewrite app_assoc, take_drop in Hp.
Qed.

Lemma prefix_drop {A} n (l k : list A) : l `prefix_of` k → drop n l `prefix_of` drop n k.
Proof.
  intros [l' ->]. destruct (decide (n ≤ length l)) as [Hle|Hgt].
  - rewrite drop_app_le by done. by apply prefix_app_r.
  - rewrite (drop_ge l) by lia. apply prefix_nil.
Qed.

Lemma prefix_take_all {A} n (l k : list A) : l `prefix_of` k → n ≤ length l → take n l = take n k.
Proof. intros [l' ->] Hn. by rewrite take_app_le. Qed.

(** A part of a sequence of frames delivers a part of the packets, whole ones. *)
Lemma delivered_prefix d ps err : Forall (λ p, varint_ok (Z.of_nat (length p))) ps →
  d `prefix_of` concat (frame <$> ps) → (is_EOF err = true → d = concat (frame <$> ps)) →
  delivered d err `prefix_of` ps.
Proof.
  intros Hok. revert d. induction Hok as [|p ps Hp _ IH]; intros d Hd He.
  { simpl in Hd. apply prefix_nil_inv in Hd as ->. rewrite delivered_unfold. destruct Parse_nil as [e ->]. done. }
  rewrite fmap_cons, concat_cons in Hd, He. destruct (frame_eq p Hp) as (enc & _ & Hf & Hparse).
  rewrite Hf, <- app_assoc in Hd, He. rewrite delivered_unfold.
  destruct (quicvarint_Parse d) as [[v n]|e] eqn:Hpd; [|apply prefix_nil].
  pose proof (Parse_prefix _ _ _ _ Hd Hpd) as Hfull. rewrite Hparse in Hfull. injection Hfull as <- <-. cbv zeta.
  apply (prefix_drop (length enc)) in Hd. rewrite drop_app_length in Hd. rewrite Nat2Z.id. case_decide as Hlt.
  - destruct (is_EOF err) eqn:Heof; [|apply prefix_nil]. exfalso. rewrite He in Hlt by done.
    rewrite drop_app_length, length_app in Hlt. lia.
  - rewrite (prefix_take_all _ _ _ Hd), take_app_length by lia. apply prefix_cons, IH.
    + apply (prefix_drop (length p)) in Hd. by rewrite drop_app_length in Hd.
    + intros Heof. rewrite (He Heof), drop_app_length. apply drop_app_length.
Qed.

(** What a stream with its flow ID has for the flow [k]. *)
Definition bytes_for (k : Z) (d : list byte) (err : goerror) : list (list byte) :=
  match quicvarint_Parse d with
  | inl (id, n) => if decide (id = k) then delivered (drop n d) err else []
  | inr _ => []
  end.

Lemma encoding_ok k : varint_ok k → quicvarint_Len k = Ret (length (encoding k)) ∧
  ∀ rest, quicvarint_Parse (encoding k ++ rest) = inl (k, length (encoding k)).
Proof.
  intros Hk. destruct (Append_ok k Hk) as (e & He & Hl & Hp). unfold encoding. rewrite He. auto.
Qed.

Lemma bytes_for_prefix k id ps d err : varint_ok id → Forall (λ p, varint_ok (Z.of_nat (length p))) ps →
  d `prefix_of` stream_bytes (encoding id) ps → (is_EOF err = true → d = stream_bytes (encoding id) ps) →
  bytes_for k d err `prefix_of` if decide (id = k) then ps else [].
Proof.
  intros Hid Hok Hd He. unfold bytes_for. destruct (quicvarint_Parse d) as [[v n]|e] eqn:Hp; [|apply prefix_nil].
  unfold stream_bytes in *. destruct (decide (ps = [])) as [->|Hne].
  { apply prefix_nil_inv in Hd as ->. destruct Parse_nil as [e He']. congruence. }
  pose proof (Parse_prefix _ _ _ _ Hd Hp) as Hfull. destruct (encoding_ok id Hid) as [_ Henc].
  rewrite Henc in Hfull. injection Hfull as <- <-. case_decide; [|done].
  apply (prefix_drop (length (encoding id))) in Hd. rewrite drop_app_length in Hd.
  apply delivered_prefix; [done..|]. intros Heof. by rewrite (He Heof), drop_app_length.
Qed.
End prefixes.

(** ** The network *)

Section network.
Context `{!QuicVarint}.

Definition arrival_datagram (a : arrival) : option (list byte) :=
  match a with ADatagram d => Some d | _ => None end.

(** A stream that arrived, with its flow ID, and how it ends. *)
Definition arrival_stream (a : arrival) : option (list byte * goerror) :=
  match a with
  | ADatagram _ => None
  | AStream rs => Some (rd_data (rs_reader rs), rd_err (rs_reader rs))
  | AFlowStream id rs => Some (encoding id ++ rd_data (rs_reader rs), rd_err (rs_reader rs))
  end.

(** [h] is the stream the peer wrote to. *)
Definition stream_from (ks : list call) (a : list byte * goerror) (h : nat) : Prop :=
  a.1 `prefix_of` wire h ks ∧ (is_EOF a.2 = true → a.1 = wire h ks ∧ h ∈ stream_closes ks).

(** [arrived] can arrive when the peer has made the calls [ks]. *)
Record network (ks : list call) (arrived : list arrival) : Prop := {
  nw_datagrams : omap arrival_datagram arrived ⊆+ datagrams ks;
  nw_streams : ∃ hs, NoDup hs ∧ Forall2 (stream_from ks) (omap arrival_stream arrived) hs;
  nw_ids : Forall (λ a, match a with AFlowStream id _ => varint_ok id | _ => True end) arrived
}.
End network.

(** ** Counting packets *)

Section counting.
Context {A B : Type}.

Lemma concat_submseteq (f : A → list B) l l' : l ⊆+ l' → concat (f <$> l) ⊆+ concat (f <$> l').
Proof.
  intros [k ->]%submseteq_Permutation. rewrite fmap_app, concat_app. by apply submseteq_inserts_r.
Qed.

Lemma concat_pointwise (f g : A → list B) l : (∀ x, x ∈ l → f x ⊆+ g x) → concat (f <$> l) ⊆+ concat (g <$> l).
Proof.
  induction l as [|x l IH]; intros Hfg; [done|]. rewrite !fmap_cons, !concat_cons.
  apply submseteq_app; [apply Hfg, list_elem_of_here|]. apply IH. intros y Hy. apply Hfg. by apply list_elem_of_further.
Qed.

Lemma filter_weaken (P Q : A → Prop) `{∀ x, Decision (P x), ∀ x, Decision (Q x)} l :
  (∀ x, P x → Q x) → filter P l `sublist_of` filter Q l.
Proof.
  intros HPQ. induction l as [|x l IH]; [done|]. rewrite !filter_cons.
  destruct (decide (P x)) as [HP|]; [rewrite decide_True by auto; by apply sublist_skip|].
  case_decide; [by apply sublist_cons|done].
Qed.

Lemma filter_split (P Q : A → Prop) `{∀ x, Decision (P x), ∀ x, Decision (Q x)} `{∀ x, Decision (P x ∨ Q x)} l :
  (∀ x, P x → Q x → False) → filter (λ x, P x ∨ Q x) l ≡ₚ filter P l ++ filter Q l.
Proof.
  intros HPQ. induction l as [|x l IH]; [done|]. rewrite !filter_cons. specialize (HPQ x).
  destruct (decide (P x ∨ Q x)), (decide (P x)), (decide (Q x)); try tauto; simpl; rewrite IH; [done|].
  apply Permutation_middle.
Qed.
End counting.

Section logs.
Implicit Types (l : list (nat * list byte)).

(** The entries of different flows, put together. *)
Lemma by_flow_concat rs l : NoDup rs → concat ((λ r, by_flow r l) <$> rs) ≡ₚ (filter (λ x, x.1 ∈ rs) l).*2.
Proof.
  induction 1 as [|r rs Hr _ IH]; simpl.
  { induction l as [|x l IH]; [done|]. rewrite filter_cons_False; [done|]. apply not_elem_of_nil. }
  rewrite IH. unfold by_flow. rewrite <- fmap_app. apply fmap_Permutation.
  rewrite <- (filter_split (λ x, x.1 = r) (λ x, x.1 ∈ rs) l); [|intros x -> ?; done].
  apply Permutation_refl', list_filter_iff. intros x. by rewrite elem_of_cons.
Qed.

Lemma by_flow_among rs (P : nat → bool) l : NoDup rs → (∀ r, r ∈ rs → P r = true) →
  concat ((λ r, by_flow r l) <$> rs) ⊆+ (filter (λ x, P x.1 = true) l).*2.
Proof.
  intros Hnd HP. rewrite by_flow_concat by done. apply fmap_submseteq, sublist_submseteq, filter_weaken.
  intros x. apply HP.
Qed.

(** What flows hold in one log they hold in another. *)
Lemma on_id_le {C} k (s : Session C) l l' : Forall (λ x, x.1 < length (s_rfs s)) l →
  (∀ r, by_flow r l ⊆+ by_flow r l') → on_id k s l ⊆+ on_id k s l'.
Proof.
  intros Hl Hle. set (rs := filter (λ r, has_id k r s = true) (seq 0 (length (s_rfs s)))).
  assert (NoDup rs) as Hnd by apply NoDup_filter, NoDup_seq.
  trans (concat ((λ r, by_flow r l') <$> rs)).
  - trans (concat ((λ r, by_flow r l) <$> rs)); [|by apply concat_pointwise].
    rewrite by_flow_concat by done. apply fmap_submseteq, Permutation_submseteq. clear Hle.
    induction Hl as [|x l Hx _ IH]; [done|]. rewrite !filter_cons. destruct (decide (has_id k x.1 s = true)) as [Hk|Hk].
    + rewrite decide_True; [by rewrite IH|]. apply list_elem_of_filter. split; [done|]. apply elem_of_seq. lia.
    + rewrite decide_False; [done|]. by intros [? _]%list_elem_of_filter.
  - apply (by_flow_among rs (λ r, has_id k r s)); [done|]. by intros r [? _]%list_elem_of_filter.
Qed.
End logs.

(** ** What arrived was sent *)

Section system.
Context `{QuicVarintLaws, !GoPool, !GoMapOrder} {C : Type} `{ConnectionLaws C}.
Implicit Types (s : Session C).

(** The stream at the place [r] belongs to a flow with the ID [k]. *)
Definition stream_has_id (k : Z) s (r : nat) : bool :=
  match s_streams s !! r with Some st => bool_decide (flowID st = k) | None => false end.

(** The packets given to a session for flows with the ID [k]. *)
Definition sent_on (k : Z) s (o : output) : list (list byte) :=
  (filter (λ x, x.1 = k) (out_datagrams o)).*2 ++ (filter (λ x, stream_has_id k s x.1 = true) (out_streams o)).*2.

(** No stream was closed with a part of a frame pending. *)
Definition closed_whole s : Prop :=
  ∀ st, st ∈ s_streams s → stream st ∈ stream_closes (calls (s_conn s)) → pending st = [].

Definition datagram_for (k : Z) (d : list byte) : list (list byte) :=
  match quicvarint_Parse d with inl (id, _) => if decide (id = k) then datagram_payload id d else [] | inr _ => [] end.

Lemma arrived_for_split k arrived :
  Forall (λ a, match a with AFlowStream id _ => varint_ok id | _ => True end) arrived →
  arrived_for k arrived ≡ₚ concat (datagram_for k <$> omap arrival_datagram arrived) ++
    concat ((λ a, bytes_for k a.1 a.2) <$> omap arrival_stream arrived).
Proof.
  unfold arrived_for. induction 1 as [|a arrived Ha _ IH]; [done|]. rewrite fmap_cons, concat_cons, IH.
  destruct a as [d|rs|id rs]; cbn [omap list_omap arrival_datagram arrival_stream arrival_for].
  - rewrite fmap_cons, concat_cons, <- app_assoc. done.
  - rewrite fmap_cons, concat_cons. unfold stream_for, bytes_for at 2. simpl. solve_Permutation.
  - rewrite fmap_cons, concat_cons. unfold bytes_for at 2. simpl. destruct (encoding_ok id Ha) as [_ Hp].
    rewrite Hp, drop_app_length. unfold stream_packets. solve_Permutation.
Qed.

Lemma datagrams_arrived k (sent : list (Z * list byte)) : Forall (λ x, varint_ok x.1) sent →
  concat (datagram_for k <$> ((λ x, encoding x.1 ++ x.2) <$> sent)) = (filter (λ x, x.1 = k) sent).*2.
Proof.
  induction 1 as [|[id p] sent Hid _ IH]; [done|]. rewrite !fmap_cons, concat_cons, IH, filter_cons. cbn [fst snd].
  destruct (encoding_ok id Hid) as [Hl Hp]. unfold datagram_for, datagram_payload. rewrite Hp, Hl, drop_app_length.
  by case_decide.
Qed.

(** The packets given to the stream [h], if it is one of a flow with the ID [k]. *)
Definition place_of (k : Z) s (h : nat) : option nat :=
  '(r, st) ← list_find (λ st, stream st = h) (s_streams s);
  if decide (flowID st = k) then Some r else None.

Lemma stream_arrived k s ns o a h : out_ok s ns o → closed_whole s → stream_from (calls (s_conn s)) a h →
  bytes_for k a.1 a.2 ⊆+ match place_of k s h with Some r => by_flow r (out_streams o) | None => [] end.
Proof.
  intros Hok Hcl [Hpre Heof]. destruct (decide (wire h (calls (s_conn s)) = [])) as [Hw|Hw].
  { rewrite Hw in Hpre. apply prefix_nil_inv in Hpre as ->. unfold bytes_for. destruct Parse_nil as [e ->].
    apply submseteq_nil_l. }
  unfold place_of. destruct (list_find _ (s_streams s)) as [[r st]|] eqn:Hf.
  2:{ destruct (oo_wire _ _ _ Hok h Hw) as (st & Hst & Heq). apply list_find_None in Hf.
    rewrite Forall_forall in Hf. by destruct (Hf st Hst). }
  apply list_find_Some in Hf as (Hr & Hst & _). cbn [mbind option_bind].
  destruct (oo_stream _ _ _ Hok r st Hr) as (acc & Hsub & Hlen & Hb & _ & Hid & Hfb).
  unfold sent_bytes in Hb. rewrite Hst, Hfb in Hb.
  assert (bytes_for k a.1 a.2 `prefix_of` if decide (flowID st = k) then acc else []) as Hp.
  { apply bytes_for_prefix; [done..| |].
    - rewrite <- Hb. etrans; [exact Hpre|by apply prefix_app_r].
    - intros [He Hc]%Heof. rewrite <- Hb, (Hcl st), app_nil_r; [done|by eapply list_elem_of_lookup_2|by rewrite Hst]. }
  case_decide; [|by apply prefix_nil_inv in Hp as ->].
  apply sublist_submseteq. destruct Hp as [rest ->]. etrans; [|exact Hsub]. by apply sublist_inserts_r.
Qed.

Lemma place_of_inv k s h r : place_of k s h = Some r →
  ∃ st, s_streams s !! r = Some st ∧ stream st = h ∧ flowID st = k.
Proof.
  unfold place_of. destruct (list_find _ (s_streams s)) as [[r0 st]|] eqn:Hf; [|done]. cbn [mbind option_bind].
  apply list_find_Some in Hf as (Hr & Hst & _). case_decide; [|done]. intros [= <-]. eauto.
Qed.

Lemma places_distinct k s hs : NoDup hs → NoDup (omap (place_of k s) hs).
Proof.
  induction 1 as [|h hs Hh _ IH]; [constructor|]. simpl. destruct (place_of k s h) as [r|] eqn:Hr; [|done].
  apply NoDup_cons. split; [|done]. intros (h' & Hin & Hr')%list_elem_of_omap.
  apply place_of_inv in Hr as (st & Hs & <- & _), Hr' as (st' & Hs' & <- & _). by simplify_eq.
Qed.

Lemma streams_arrived k s ns o streams hs : out_ok s ns o → closed_whole s → NoDup hs →
  Forall2 (stream_from (calls (s_conn s))) streams hs →
  concat ((λ a, bytes_for k a.1 a.2) <$> streams) ⊆+ (filter (λ x, stream_has_id k s x.1 = true) (out_streams o)).*2.
Proof.
  intros Hok Hcl Hnd Hall. etrans; [|apply (by_flow_among (omap (place_of k s) hs))].
  - clear Hnd. induction Hall as [|a h streams hs Ha _ IH]; [done|]. rewrite fmap_cons, concat_cons. simpl.
    pose proof (stream_arrived k s ns o a h Hok Hcl Ha) as Hsub. destruct (place_of k s h) as [r|].
    + rewrite fmap_cons, concat_cons. by apply submseteq_app.
    + apply submseteq_nil_r in Hsub as ->. exact IH.
  - by apply places_distinct.
  - intros r (h & _ & Hr)%list_elem_of_omap. apply place_of_inv in Hr as (st & Hs & _ & <-). unfold stream_has_id.
    rewrite Hs. by apply bool_decide_true.
Qed.

(** The network delivers what a session sent, to the flow it was sent on. *)
Lemma network_sound k s ns o arrived : out_ok s ns o → closed_whole s → network (calls (s_conn s)) arrived →
  arrived_for k arrived ⊆+ sent_on k s o.
Proof.
  intros Hok Hcl [Hd (hs & Hnd & Hs) Hids]. rewrite arrived_for_split by done. unfold sent_on. apply submseteq_app.
  - rewrite <- (datagrams_arrived k _ (oo_ids _ _ _ Hok)), <- (oo_datagrams _ _ _ Hok). by apply concat_submseteq.
  - by eapply streams_arrived.
Qed.
End system.

(** ** Properties *)

Section properties.
Context `{QuicVarintLaws, !GoPool, !GoMapOrder} {C C' : Type} `{!Connection C, !ConnectionLaws C}.
Context `{!Connection C', !ConnectionLaws C'}.

(** C1: two sessions deliver nothing but what was sent, to the flow it was sent
    on. One session sends on [conn] and has come to [c], the other receives on
    [conn'] and has come to [c'], each with whatever interleaving of its goroutines
    and of the calls of its application; the network lost and reordered what it
    liked. Then the packets [Read] returned from flows with the ID [k], and those
    still queued there, are packets given to flows with the same ID [k] at the
    sender, as datagrams or on streams, unchanged and each at most as often as it
    was given. The sender must not have closed a stream with a part of a frame
    pending. *)
Theorem only_sent_packets_are_received (conn : C) (conn' : C') (tr tr' : option (option Trace)) (acc acc' : bool)
    (config config' : sessionConfig) (loops loops' : list loop) (o : output) (h : intake)
    (c : xconfig C) (c' : xconfig C') (k : Z)
    (Hconfig : config_ok config) (Hconn : calls conn = [])
    (Hsend : outputs (xinit (newSession conn tr acc config) loops) o c)
    (Hfresh : fresh_opens (calls (s_conn (xc_sess c)))) (Hwhole : closed_whole (xc_sess c))
    (Hconfig' : config_ok config') (Hconn' : conn_closes (calls conn') = [])
    (Hreceive : intakes (xinit (newSession conn' tr' acc' config') loops') h c')
    (Hnet : network (calls (s_conn (xc_sess c))) (in_arrived h)) :
  on_id k (xc_sess c') (in_read h) ⊆+ on_id k (xc_sess c') (in_log h) ∧
  on_id k (xc_sess c') (in_log h) ⊆+ sent_on k (xc_sess c) o.
Proof.
  pose proof (outputs_ok _ _ _ _ _ _ _ Hconfig Hconn Hsend Hfresh) as Hout. split.
  - apply on_id_le; [by apply intakes_ok in Hreceive as [_ [_ _ ? _]]|]. intros r.
    rewrite (intakes_queue _ _ _ _ _ _ _ r Hconfig' Hconn' Hreceive). by apply submseteq_inserts_r.
  - etrans; [by eapply intakes_origin|]. by eapply network_sound.
Qed.
End properties.

Section witnesses.
Import RFC9000.
#[local] Existing Instance lifo_pool.
#[local] Existing Instance ascending_order.

Lemma only_sent_packets_are_received_witness : ∃ c o c' h,
  ex_output_end = Some (c, o) ∧ ex_intake_end = Some (c', h) ∧
  on_id 1 (xc_sess c') (in_read h) = [bytes [42]%Z] ∧
  on_id 1 (xc_sess c') (in_log h) = [bytes [42]%Z; bytes [10; 11]%Z; bytes [43]%Z] ∧
  [bytes [42]%Z; bytes [10; 11]%Z; bytes [43]%Z] ⊆+ sent_on 1 (xc_sess c) o.
Proof.
  destruct ex_output_end as [[c o]|] eqn:Eo; [|vm_compute in Eo; discriminate].
  destruct ex_intake_end as [[c' h]|] eqn:Ei; [|vm_compute in Ei; discriminate].
  pose proof (output_run_ok _ _ _ _ _ _ (os_nil _) Eo) as Ho.
  pose proof (intake_run_ok _ _ _ _ _ _ (is_nil _) Ei) as Hi.
  destruct (only_sent_packets_are_received (newStubConn [(2, None)]%Z) (newStubConn []) None None true true defaultConfig
    defaultConfig [] (start (newSession (newStubConn []) None true defaultConfig)) o h c c' 1) as [_ Hsent];
    try (apply defaultConfig_ok || reflexivity || exact Ho || exact Hi).
  - apply fresh_opens_test. vm_compute in Eo. injection Eo as <- _. reflexivity.
  - vm_compute in Eo. injection Eo as <- _. intros st Hst _. vm_compute in Hst |- *.
    apply list_elem_of_singleton in Hst as ->. reflexivity.
  - vm_compute in Eo, Ei. injection Eo as <- _. injection Ei as _ <-. split.
    + reflexivity.
    + exists [0]. split; [apply NoDup_singleton|]. apply Forall2_cons. split; [|constructor].
      split; [exists []; reflexivity|]. intros _. split; [reflexivity|]. vm_compute. apply list_elem_of_here.
    + repeat constructor.
  - exists c, o, c', h. split; [reflexivity|]. split; [reflexivity|].
    assert (on_id 1 (xc_sess c') (in_log h) = [bytes [42]%Z; bytes [10; 11]%Z; bytes [43]%Z]) as Hlog.
    { vm_compute in Ei. injection Ei as <- <-. reflexivity. }
    rewrite Hlog in Hsent |- *. split; [|split; [reflexivity|exact Hsent]].
    vm_compute in Ei. injection Ei as <- <-. reflexivity.
Defined.
End witnesses.
