(* ===== verification/SessionProps.v ===== *)
(** * The life of a session: properties

    What holds of every session the application can bring about, by any sequence
    of calls and in any order of its goroutines, and what shutting it down does. *)

From S2P Require Import Prelude GoErrors IO Varint QlogEvent Qlogger Options SyncMap Connection.
From S2P Require Import RTPSendStream SendFlow PacketBuffer Deadline ReceiveFlow ReadStream.
From S2P Require Import ReceiveFlowBuffer Session SessionSpec SessionMoves SessionSteps SessionConcurrent.

Section properties.
Context `{QuicVarintLaws, !GoPool, !GoMapOrder} {C : Type} `{ConnectionLaws C}.
Implicit Types (s : Session C) (c : sconfig C).

Lemma NewSendFlow_keeps id s res s' : NewSendFlow id s = Ret (res, s') → s_closedErr s' = s_closedErr s.
Proof.
  unfold NewSendFlow, NewSendFlow_insert. destruct (Session_isClosed s); [by intros [= <- <-]|].
  intros (f & _ & Hrun)%bind_ret_inv. cbv zeta in Hrun.
  destruct (smap.getOrInsert _ _ _) as [[? []] ?]; by injection Hrun as <- <-.
Qed.

(** No call panics: whatever methods the application calls on the session,
    its flows and its streams, with valid arguments (the IDs of send flows fit into a
    varint) and in any order, whatever
    datagrams and streams the peer sends, and however often [Close] is called, no
    step of the session or of its goroutines panics. *)
Theorem session_never_panics (c : sconfig C) (l : slabel) (m : outcome (sconfig C))
    (Hc : sreachable c) (Hfits : label_fits l = true) (Hl : sexec l c = Some m) : returns m.
Proof.
  destruct (sexec_spec l c m (sreachable_inv c Hc) Hfits Hl) as (c' & -> & _). by exists c'.
Qed.

(** The connection is closed exactly when the session is, once, with the
    code and reason of the session error; the first error wins: no later step
    changes the error a closed session reports, or what [Close] returns, and all
    [Close] calls that have returned reported the same error, that of closing the
    connection. *)
Theorem connection_closed_once (c : sconfig C) (Hc : sreachable c) :
  conn_closes (calls (s_conn (sc_sess c))) =
    match s_closedErr (sc_sess c) with Some e => [(code e, reason e)] | None => [] end ∧
  (∀ l c', s_closedErr (sc_sess c) ≠ None → sexec l c = Some (Ret c') →
     s_closedErr (sc_sess c') = s_closedErr (sc_sess c) ∧
     s_connCloseErr (sc_sess c') = s_connCloseErr (sc_sess c)) ∧
  (∀ e, e ∈ sc_returned c → e = s_connCloseErr (sc_sess c)).
Proof.
  apply sreachable_inv in Hc. pose proof (ci_sess _ Hc) as [Ht Hst]. split_and!.
  - unfold status_inv in Hst. destruct (s_closedErr _); [by destruct Hst as (_ & ? & _)|by destruct Hst].
  - intros l c' Hcl Hstep. destruct (sexec_ret l c c' Hc Hstep) as [_ Hs]. by apply Hs.
  - intros e He. pose proof (ci_returned _ Hc) as Hr. rewrite Forall_forall in Hr. auto.
Qed.

(** C9: shutting an open session down closes every registered send flow and
    each of its streams, closes every registered receive flow without losing its
    packets and cancels the streams it reads, closes the connection with the code
    and reason, and cancels the context. From then on new flows are refused with
    the session error, and another shutdown changes nothing. *)
Theorem close_tears_down (c : sconfig C) (code : Z) (reason : string) (Hc : sreachable c)
    (Hopen : s_closedErr (sc_sess c) = None) :
  let s := sc_sess c in
  ∃ s' es, Session_close code reason s = Ret s' ∧ sess_inv s' ∧
    Session_isClosed s' = Some (ESession (mkSessionError code reason)) ∧ s_ctxDone s' = true ∧
    conn_closes (calls (s_conn s')) = [(code, reason)] ∧ s_effects s' = s_effects s ++ es ∧
    (∀ k r f, smap.get k (s_sendFlows s) = Some r → s_sfs s !! r = Some f →
       smap.get k (s_sendFlows s') = None ∧
       s_sfs s' !! r = Some (set_sf_closedErr (Some errClosed) f) ∧
       ∀ h, h ∈ sf_handles f (s_streams s) → h ∈ stream_closes (calls (s_conn s'))) ∧
    (∀ k r f, smap.get k (s_receiveFlows s) = Some r → s_rfs s !! r = Some f →
       (∃ f', s_rfs s' !! r = Some f' ∧ rf_closed f' = true ∧ rf_packets f' = rf_packets f) ∧
       ∀ i, is_Some (rf_streams f !! i) → (i, ErrRoQNoError) ∈ cancelled es) ∧
    (∀ id, NewSendFlow id s' = Ret (inr (ESession (mkSessionError code reason)), s') ∧
           NewReceiveFlow id s' = Ret (inr (ESession (mkSessionError code reason)), s')) ∧
    (∀ code' reason', Session_close code' reason' s' = Ret s').
Proof.
  intros s. apply sreachable_inv in Hc. pose proof (ci_sess _ Hc) as Hinv. fold s in Hopen, Hinv.
  destruct (Session_close_inv code reason s Hinv) as (s' & Hrun & Hinv' & Hsd & _).
  destruct (Hsd Hopen) as (Hcl & Hctx & _ & Hcc & Hnone & Hsend & _ & _ & _ & es & Hes & Hrecv & _).
  assert (conn_closes (calls (s_conn s)) = []) as Hcc0.
  { destruct Hinv as [_ Hst]. unfold status_inv in Hst. rewrite Hopen in Hst. apply Hst. }
  rewrite Hcc0 in Hcc. exists s', es. unfold NewSendFlow, NewReceiveFlow, Session_isClosed.
  rewrite Hcl. split_and!; try done.
  - intros k r f Hg Hr. split; [done|]. by eapply Hsend.
  - intros k r f Hg Hr. destruct (Hrecv k r f Hg Hr) as [(f' & ? & (_ & _ & ? & ? & _)) ?].
    split; [by exists f'|done].
  - intros code' reason'. by eapply Session_close_closed.
Qed.

(** Flows that are not in a table are not closed with it. *)
Lemma closeSendFlows_frame r1 (l : list (Z * nat)) s s' :
  foldl (λ m '(_, r), s ← m; '(_, s) ← closeSendFlow r s; Ret s) (Ret s) l = Ret s' →
  tables_inv s → Forall (λ r, r < length (s_sfs s) ∧ r ≠ r1) l.*2 →
  s_sfs s' !! r1 = s_sfs s !! r1 ∧ s_streams s' = s_streams s ∧
  ∀ h, (∀ r f, r ∈ l.*2 → s_sfs s !! r = Some f → h ∉ sf_handles f (s_streams s)) →
    h ∉ stream_closes (calls (s_conn s)) → h ∉ stream_closes (calls (s_conn s')).
Proof.
  revert s. induction l as [|[k r] l IH]; intros s; cbn [foldl]; [by intros [= <-]|]. bind_simpl.
  intros Hfold Ht [[Hlt Hne] Hl]%Forall_cons. destruct (lookup_lt_is_Some_2 _ _ Hlt) as [f Hr].
  destruct (closeSendFlow_moves r s Ht Hlt) as (err & s1 & Hrun & Ht1 & _).
  destruct (closeSendFlow_spec r f s Ht Hr) as (errs & c' & Hrun' & Heach).
  rewrite Hrun in Hrun', Hfold. injection Hrun' as -> ->. bind_simpl.
  destruct (close_each_calls _ _ _ _ Heach) as [Hcalls _].
  destruct (IH _ Hfold Ht1) as (Hf & Hst & Hh); simpl in *.
  { eapply Forall_impl; [done|]. simpl. by rewrite length_insert. }
  rewrite list_lookup_insert_ne in Hf by done. split_and!; [done..|].
  intros h Hno Hnot. apply Hh.
  - intros r0 f0 Hin Hr0. destruct (decide (r0 = r)) as [->|].
    + rewrite list_lookup_insert_eq in Hr0 by done. injection Hr0 as <-.
      apply (Hno r f); [by apply list_elem_of_further|done].
    + rewrite list_lookup_insert_ne in Hr0 by done. apply (Hno r0 f0); [by apply list_elem_of_further|done].
  - rewrite Hcalls, stream_closes_app, elem_of_app. intros [?|Hin]; [done|].
    apply list_elem_of_omap in Hin as (k0 & (h0 & -> & Hh0)%list_elem_of_fmap & [= ->]).
    apply (Hno r f); [apply list_elem_of_here|done..].
Qed.

Lemma closeReceiveFlows_frame (l : list (Z * nat)) s s' :
  foldl (λ m '(_, r), s ← m; '(_, s) ← closeReceiveFlow r s; Ret s) (Ret s) l = Ret s' →
  s_sfs s' = s_sfs s ∧ s_conn s' = s_conn s ∧ s_streams s' = s_streams s.
Proof.
  revert s. induction l as [|[k r] l IH]; intros s; cbn [foldl]; [by intros [= <-]|]. bind_simpl.
  destruct (closeReceiveFlow r s) as [[err s1]|] eqn:Hc; bind_simpl.
  - intros (-> & -> & ->)%IH. revert Hc. unfold closeReceiveFlow.
    by intros (f & _ & ([[e f1] es] & _ & [= _ <-])%bind_ret_inv)%bind_ret_inv.
  - intros Hf. exfalso. clear -Hf. induction l as [|[k' r'] l IH]; [done|]. by apply IH.
Qed.

Lemma Session_close_frame code reason s s' r1 : tables_inv s → s_closedErr s = None →
  Session_close code reason s = Ret s' → (∀ k, smap.get k (s_sendFlows s) ≠ Some r1) →
  s_sfs s' !! r1 = s_sfs s !! r1 ∧
  ∀ h, (∀ k r f, smap.get k (s_sendFlows s) = Some r → s_sfs s !! r = Some f → h ∉ sf_handles f (s_streams s)) →
    h ∉ stream_closes (calls (s_conn s)) → h ∉ stream_closes (calls (s_conn s')).
Proof.
  intros Ht Ho Hrun Hnot. unfold Session_close in Hrun. rewrite Ho in Hrun. unfold smap.rangeFn in Hrun.
  apply (tables_inv_set_closed (s_conn s) (Some (mkSessionError code reason)) (s_connCloseErr s)
    (s_ctxDone s)) in Ht as Ht0. set (s0 := set_closed _ _ _ _ s) in *.
  apply bind_ret_inv in Hrun as (s1 & Hsend & (s2 & Hrecv & Hfin)%bind_ret_inv).
  destruct (CloseWithError code reason (s_conn s2)) as [cerr c'] eqn:Hc. apply calls_CloseWithError in Hc.
  injection Hfin as <-. apply closeReceiveFlows_frame in Hrecv as (Esfs & Ecn & _).
  assert (∀ k r, (k, r) ∈ go_range (elements (s_sendFlows s0)) → smap.get k (s_sendFlows s) = Some r) as Hin.
  { intros k r Hk. by apply elem_of_go_range in Hk. }
  destruct (closeSendFlows_frame r1 _ _ _ Hsend Ht0) as (Hf & _ & Hh).
  { apply Forall_forall. intros r ([k ?] & -> & Hk%Hin)%list_elem_of_fmap. simpl.
    destruct (ti_send s Ht k n Hk) as (f & Hr & _). split; [by eapply lookup_lt_Some|].
    intros ->. by apply (Hnot k). }
  simpl. rewrite Esfs. split; [done|]. intros h Hno Hh0. rewrite Hc, Ecn, stream_closes_app, app_nil_r.
  apply Hh; [|done]. intros r f ([k ?] & -> & Hk%Hin)%list_elem_of_fmap. simpl. by apply (Hno k).
Qed.

(** C40: closing a send flow again unregisters another one. When the application has
    closed a flow and opened a new one with its ID, another [Close] of the first, which
    [io.Closer] does not forbid, takes the new flow out of the table although it is
    open. From then on the ID is free again, and closing the session, with whatever
    code, leaves the flow open, with those of its streams that are in no other flow. *)
Theorem second_Close_unregisters_new_flow (c : sconfig C) (r0 r1 : nat) (f0 f1 : SendFlow)
    (Hc : sreachable c) (Hopen : s_closedErr (sc_sess c) = None)
    (Hold : s_sfs (sc_sess c) !! r0 = Some f0) (Hnew : s_sfs (sc_sess c) !! r1 = Some f1)
    (Hreg : smap.get (sf_id f0) (s_sendFlows (sc_sess c)) = Some r1) (Hclosed : sf_closedErr f0 ≠ None) :
  ∃ err s', closeSendFlow r0 (sc_sess c) = Ret (err, s') ∧ smap.get (sf_id f0) (s_sendFlows s') = None ∧
    (s_sfs s' !! r1 = Some f1 ∧ sf_id f1 = sf_id f0 ∧ sf_closedErr f1 = None) ∧
    ∀ code reason, ∃ s'', Session_close code reason s' = Ret s'' ∧ s_sfs s'' !! r1 = Some f1 ∧
      ∀ h, h ∈ sf_handles f1 (s_streams s') → h ∉ stream_closes (calls (s_conn s')) →
        (∀ k r f, smap.get k (s_sendFlows s') = Some r → s_sfs s' !! r = Some f →
           h ∉ sf_handles f (s_streams s')) →
        h ∉ stream_closes (calls (s_conn s'')).
Proof.
  apply sreachable_inv in Hc. pose proof (ci_sess _ Hc) as Hinv. pose proof (proj1 Hinv) as Ht.
  destruct (ti_send _ Ht _ _ Hreg) as (f & Hf & Hid & Hfo). rewrite Hnew in Hf. injection Hf as <-.
  assert (r1 ≠ r0) as Hne by (intros ->; congruence).
  destruct (closeSendFlow_inv r0 _ Hinv (lookup_lt_Some _ _ _ Hold)) as (err & s' & Hrun & Hinv' & _).
  destruct (closeSendFlow_spec r0 f0 _ Ht Hold) as (errs & c' & Hrun' & _). rewrite Hrun in Hrun'.
  injection Hrun' as -> Es. exists (errors_Join errs), s'. split; [done|].
  assert (s_sfs s' !! r1 = Some f1) as Hf1 by (rewrite Es; simpl; by rewrite list_lookup_insert_ne).
  assert (∀ k, smap.get k (s_sendFlows s') ≠ Some r1) as Hnot.
  { intros k Hk. rewrite Es in Hk. simpl in Hk. rewrite smap.get_delete in Hk. case_decide; [done|].
    destruct (ti_send _ Ht _ _ Hk) as (f & Hf & ? & _). congruence. }
  assert (s_closedErr s' = None) as Ho' by (by rewrite Es).
  split; [rewrite Es; simpl; by rewrite smap.get_delete, decide_True|]. split; [done|]. intros code reason.
  destruct (Session_close_inv code reason s' Hinv') as (s'' & Hclose & _).
  destruct (Session_close_frame code reason s' s'' r1 (proj1 Hinv') Ho' Hclose Hnot) as [Hf'' Hh].
  exists s''. split; [done|]. split; [congruence|]. intros h _ Hnh Hno. by apply Hh.
Qed.

(** Creating flows. A closed session refuses with its error; an ID that is
    taken is refused and what is registered stays; otherwise the new flow is
    registered, open and empty for sending. Closing a send flow, also when its
    streams fail to close, frees the ID: it can be taken again. *)
Theorem NewSendFlow_behaviour (c : sconfig C) (id : Z) (Hc : sreachable c) (Hid : varint_ok id) :
  let s := sc_sess c in
  ∃ res s', NewSendFlow id s = Ret (res, s') ∧ sess_inv s' ∧
    match s_closedErr s, smap.get id (s_sendFlows s) with
    | Some e, _ => res = inr (ESession e) ∧ s' = s
    | None, Some r0 => res = inr errDuplicateFlowID ∧ smap.get id (s_sendFlows s') = Some r0
    | None, None => ∃ r f, res = inl r ∧ s_sfs s' !! r = Some f ∧ sf_id f = id ∧
        sf_closedErr f = None ∧ sf_streams f = [] ∧ smap.get id (s_sendFlows s') = Some r ∧
        ∃ err s1, closeSendFlow r s' = Ret (err, s1) ∧ smap.get id (s_sendFlows s1) = None ∧
          ∃ r2 s2, NewSendFlow id s1 = Ret (inl r2, s2)
    end.
Proof.
  intros s. apply sreachable_inv in Hc. pose proof (ci_sess _ Hc) as Hinv. fold s in Hinv.
  destruct (NewSendFlow_spec id s Hinv Hid) as (res & s' & Hrun & Hinv' & Hcase).
  exists res, s'. split; [done|]. split; [done|].
  destruct (s_closedErr s) as [e|] eqn:He; [done|].
  destruct (smap.get id (s_sendFlows s)) as [r0|] eqn:Hg.
  { destruct Hcase as [-> ->]. by rewrite Hg. }
  destruct Hcase as (r & f & -> & Hfs & -> & Hfid & Hfo & Hfst & Hm).
  assert (s_sfs s' !! length (s_sfs s) = Some f) as Hr by (by rewrite Hfs, lookup_app_r, Nat.sub_diag).
  exists (length (s_sfs s)), f. split_and!; try done.
  { rewrite Hm, smap.get_set. by rewrite decide_True. }
  destruct Hinv' as [Ht' Hst']. destruct (closeSendFlow_spec _ f s' Ht' Hr) as (errs & c' & Hclose & _).
  destruct (closeSendFlow_inv (length (s_sfs s)) s') as (err1 & s1 & Hclose' & Hinv1 & _);
    [by split|by eapply lookup_lt_Some|].
  rewrite Hclose in Hclose'. injection Hclose' as <- Hs1. eexists _, s1. rewrite Hclose, Hs1.
  assert (smap.get id (s_sendFlows s1) = None) as Hfree.
  { rewrite <- Hs1. simpl. rewrite smap.get_delete, decide_True by done. done. }
  split_and!; [done..|]. destruct (NewSendFlow_spec id s1 Hinv1 Hid) as (res2 & s2 & -> & _ & Hcase2).
  assert (s_closedErr s1 = None) as He1.
  { rewrite <- Hs1. simpl. apply NewSendFlow_keeps in Hrun as ->. done. }
  rewrite He1, Hfree in Hcase2. destruct Hcase2 as (r2 & _ & -> & _). eauto.
Qed.
Lemma newQlogger_logs tr config : is_Some (newQlogger tr config) ↔
  ∃ t, (qlogTrace config = Some t ∨ qlogTrace config = None ∧ tr = Some (Some t)) ∧
       SupportsSchemas t EventSchema = true.
Proof.
  unfold newQlogger. set (trace := match qlogTrace config with Some t => Some t | None => _ end).
  assert (∀ t, trace = Some t ↔ qlogTrace config = Some t ∨ qlogTrace config = None ∧ tr = Some (Some t)) as Ht.
  { intros t. unfold trace. destruct (qlogTrace config), tr as [[]|]; naive_solver. }
  setoid_rewrite <- Ht. clear Ht. destruct trace as [t|]; [destruct (SupportsSchemas t EventSchema) eqn:E|];
    (split; [intros [x Hx]|intros (t' & Ht & Hs)]); try done; [by exists t|congruence].
Qed.

(** C32: making a session. [NewSession] and [NewSessionWithAppHandledConn] accept
    exactly a connection with options that are all valid, and otherwise return an
    error that says which: for a nil connection its own, else one that wraps
    [errInvalidOption]. An accepted session is open and well formed; its receive loop
    for streams runs, that for datagrams if they are accepted; and events are logged
    exactly if the trace of the options, or else that of the connection, has the
    schema of RoQ. *)
Theorem NewSession_wellformed (conn : option C) (tr : option (option Trace)) (acc : bool)
    (opts : list (option Option)) (vs : list bool) (Hopts : Forall2 option_arg opts vs)
    (Hconn : ∀ c0 : C, conn = Some c0 → conn_closes (calls c0) = []) :
  match NewSession conn tr acc opts with
  | inl (s, loops) => ∃ config, is_Some conn ∧ forallb id vs = true ∧
      newSessionConfig opts = inl config ∧ NewSessionWithAppHandledConn conn tr acc opts = inl s ∧
      sess_inv s ∧ Session_isClosed s = None ∧
      sreachable (mkConfigS s loops [] 0 []) ∧ xreachable (xinit s loops) ∧
      LoopUniStreams ∈ loops ∧ (LoopDatagrams ∈ loops ↔ acc = true) ∧
      (is_Some (s_qlog s) ↔ ∃ t, (qlogTrace config = Some t ∨ qlogTrace config = None ∧ tr = Some (Some t)) ∧
                                 SupportsSchemas t EventSchema = true)
  | inr err => NewSessionWithAppHandledConn conn tr acc opts = inr err ∧
      (conn = None ∧ err = errNilConnection ∨
       is_Some conn ∧ forallb id vs = false ∧ errors_Is err errInvalidOption = true)
  end.
Proof.
  unfold NewSession, NewSessionWithAppHandledConn. destruct conn as [c|]; [|by auto].
  pose proof (applyOptions_spec opts vs defaultConfig Hopts defaultConfig_ok) as Hspec.
  fold (newSessionConfig opts) in Hspec. destruct (forallb id vs).
  2:{ destruct Hspec as (msg & ->). split; [done|]. by right. }
  destruct Hspec as (config & -> & Hok). exists config.
  split_and!; try done; [by apply newSession_inv; auto|..].
  - exists c, tr, acc, config, (start (newSession c tr acc config)).
    split_and!; [done|auto|by right|apply rtc_refl].
  - exists c, tr, acc, config, (start (newSession c tr acc config)).
    split_and!; [done|auto|by right|apply rtc_refl].
  - unfold start. apply elem_of_app. right. by apply list_elem_of_singleton.
  - unfold start. simpl. destruct acc; simpl; rewrite ?elem_of_cons, ?elem_of_nil; naive_solver.
  - simpl. apply newQlogger_logs.
Qed.
End properties.

(** ** Witnesses, and what the properties leave out *)

Section witnesses.
Import RFC9000.
#[local] Existing Instance lifo_pool.
#[local] Existing Instance ascending_order.

Definition srun (ls : list slabel) (c : sconfig stubConn) : option (sconfig stubConn) :=
  foldl (λ mc l, c ← mc; match sexec l c with Some (Ret c') => Some c' | _ => None end) (Some c) ls.

Lemma srun_None ls : foldl (λ mc l, c ← mc;
  match sexec l c with Some (Ret c') => Some c' | _ => None end) None ls = None :> option (sconfig stubConn).
Proof. by induction ls. Qed.

Lemma srun_steps ls c c' : srun ls c = Some c' → rtc sstep c c'.
Proof.
  unfold srun. revert c. induction ls as [|l ls IH]; intros c; simpl.
  - intros [= <-]. apply rtc_refl.
  - destruct (sexec l c) as [[c1|p]|] eqn:He; rewrite ?srun_None; [|done..].
    intros Hrun. eapply rtc_l; [by exists l|]. by apply IH.
Qed.

Definition ex_sess : Session stubConn := newSession (newStubConn []) None true defaultConfig.
Definition ex_start : sconfig stubConn := mkConfigS ex_sess (start ex_sess) [] 0 [].

(** A send flow with a stream, a receive flow with a packet, and an accepted
    stream whose handler has not run yet. *)
Definition ex_script : list slabel :=
  [LOp (ONewSendFlow 5); LOp (ONewSendStream 0 0 false); LOp (ONewReceiveFlow 1);
   LNetwork (EvDatagram [Byte.x01; Byte.x2a]); LReceiveDatagram;
   LNetwork (EvStream (mkReceiveStream 3 (mkReader [[Byte.x01; Byte.x00]] true EOF))); LAcceptStream].

Definition ex_datagram (d : list byte) : list slabel := [LNetwork (EvDatagram d); LReceiveDatagram].

Definition ex_after (ls : list slabel) : sconfig stubConn :=
  default ex_start (srun (ex_script ++ ls) ex_start).

Lemma ex_after_reachable ls :
  bool_decide (is_Some (srun (ex_script ++ ls) ex_start)) = true → sreachable (ex_after ls).
Proof.
  intros [c Hc]%bool_decide_eq_true. unfold ex_after. rewrite Hc. simpl.
  exists (newStubConn []), None, true, defaultConfig, (start ex_sess).
  split_and!; [apply defaultConfig_ok|done|by right|]. by eapply srun_steps.
Qed.

Lemma session_never_panics_witness :
  ∃ m, sexec LReceiveDatagram (ex_after [LClose; LNetwork (EvDatagram [])]) = Some m ∧ returns m.
Proof.
  eexists; split; [vm_compute; reflexivity|].
  apply (session_never_panics (ex_after [LClose; LNetwork (EvDatagram [])]) LReceiveDatagram);
    [apply ex_after_reachable; vm_compute; reflexivity|reflexivity|vm_compute; reflexivity].
Defined.

(** An invalid datagram closes the session first; [Close] comes too late. *)
Lemma connection_closed_once_witness :
  conn_closes (calls (s_conn (sc_sess (ex_after (ex_datagram [] ++ [LClose]))))) =
    [(ErrRoQPacketError, "invalid flow ID")].
Proof.
  destruct (connection_closed_once (ex_after (ex_datagram [] ++ [LClose]))) as [Hcc _];
    [apply ex_after_reachable; vm_compute; reflexivity|].
  rewrite Hcc. vm_compute. reflexivity.
Defined.

Lemma close_tears_down_witness :
  ∃ s', Session_close 7 "bye" (sc_sess (ex_after [])) = Ret s' ∧
    conn_closes (calls (s_conn s')) = [(7%Z, "bye")] ∧
    (0 ∈ stream_closes (calls (s_conn s'))) ∧ smap.get 5 (s_sendFlows s') = None ∧
    ∃ f', s_rfs s' !! 0 = Some f' ∧ rf_closed f' = true ∧ rf_packets f' = [[Byte.x2a]].
Proof.
  destruct (close_tears_down (ex_after []) 7 "bye") as
    (s' & es & Hrun & _ & _ & _ & Hcc & _ & Hsend & Hrecv & _);
    [apply ex_after_reachable; vm_compute; reflexivity|vm_compute; reflexivity|].
  exists s'. split; [exact Hrun|]. split; [exact Hcc|].
  edestruct (Hsend 5%Z 0) as (Hg & _ & Hh); [vm_compute; reflexivity|vm_compute; reflexivity|].
  split; [apply Hh; vm_compute; apply list_elem_of_here|]. split; [exact Hg|].
  edestruct (Hrecv 1%Z 0) as [(f' & Hf & Hcl & Hp) _]; [vm_compute; reflexivity|vm_compute; reflexivity|].
  exists f'. split; [exact Hf|]. split; [exact Hcl|]. rewrite Hp. vm_compute. reflexivity.
Defined.

Lemma NewSession_wellformed_witness :
  match NewSession (Some (newStubConn [])) None true [Some (WithReceiveBufferSize 4)] with
  | inl (s, loops) => sess_inv s ∧ LoopDatagrams ∈ loops
  | inr _ => False
  end.
Proof.
  pose proof (NewSession_wellformed (Some (newStubConn [])) None true [Some (WithReceiveBufferSize 4)] [true])
    as Hspec.
  destruct (NewSession (Some (newStubConn [])) None true [Some (WithReceiveBufferSize 4)]) as [[s loops]|err].
  - destruct Hspec as (config & _ & _ & _ & _ & Hinv & _ & _ & _ & _ & Hd & _).
    + constructor; [apply (oa_option _ _ (lo_receive 4))|constructor].
    + intros c [= <-]. reflexivity.
    + split; [exact Hinv|]. by apply Hd.
  - destruct Hspec as [_ [[[=] _]|(_ & [=] & _)]].
    + constructor; [apply (oa_option _ _ (lo_receive 4))|constructor].
    + intros c [= <-]. reflexivity.
Defined.

Lemma NewSendFlow_behaviour_witness :
  ∃ s', NewSendFlow 5 (sc_sess (ex_after [])) = Ret (inr errDuplicateFlowID, s') ∧
    smap.get 5 (s_sendFlows s') = Some 0.
Proof.
  destruct (NewSendFlow_behaviour (ex_after []) 5) as (res & s' & Hrun & _ & Hcase);
    [apply ex_after_reachable; vm_compute; reflexivity|vm_compute; split; [discriminate|reflexivity]|].
  destruct Hcase as [-> Hg]. exists s'. split; [exact Hrun|exact Hg].
Defined.

(** Flow 5 is closed, opened again with a stream, and the first one closed again. *)
Definition ex_reopened : list slabel :=
  [LOp (OCloseSendFlow 0); LOp (ONewSendFlow 5); LOp (ONewSendStream 1 0 false)].

Lemma second_Close_unregisters_new_flow_witness :
  ∃ err s', closeSendFlow 0 (sc_sess (ex_after ex_reopened)) = Ret (err, s') ∧
    smap.get 5 (s_sendFlows s') = None ∧
    ∃ s'' f, Session_close ErrRoQNoError "" s' = Ret s'' ∧ s_sfs s'' !! 1 = Some f ∧
      (1 ∉ stream_closes (calls (s_conn s''))).
Proof.
  edestruct (second_Close_unregisters_new_flow (ex_after ex_reopened) 0 1) as (err & s' & Hrun & Hg & _ & Hcl);
    [apply ex_after_reachable; vm_compute; reflexivity|vm_compute; reflexivity|vm_compute; reflexivity|
     vm_compute; reflexivity|vm_compute; reflexivity|vm_compute; discriminate|].
  exists err, s'. split; [exact Hrun|]. split; [exact Hg|].
  destruct (Hcl ErrRoQNoError "") as (s'' & Hrun2 & Hf & Hh). exists s''. eexists.
  split; [exact Hrun2|]. split; [exact Hf|]. apply Hh; clear Hg Hcl Hrun2 Hf Hh;
    vm_compute in Hrun; injection Hrun as <- <-.
  - vm_compute. apply list_elem_of_here.
  - apply (bool_decide_unpack _). vm_compute. exact I.
  - intros k r f Hk. vm_compute in Hk. destruct k as [|[[]|[]|]|]; discriminate.
Defined.

(** Closing the session does not tear down all flows: a flow in the buffer
    of unknown flows is not closed. Its context is not cancelled, and a stream that
    reaches it after the shutdown is read, not cancelled. *)
Theorem unknown_flow_survives_close :
  ∃ s f, Session_close ErrRoQNoError "" (sc_sess (ex_after (ex_datagram [Byte.x07; Byte.x2a]))) = Ret s ∧
    s_closedErr s ≠ None ∧ flow_for 7 s = Some f ∧ rf_closed f = false ∧ rf_ctxDone f = false ∧
    ∃ s' f', handleUniStream (mkReceiveStream 9 (mkReader [bytes [7; 1; 43]%Z] true EOF)) s = Ret (true, s') ∧
      flow_for 7 s' = Some f' ∧ rf_packets f' = [[Byte.x2a]; [Byte.x2b]] ∧ s_effects s' = s_effects s.
Proof.
  eexists _, _. split; [vm_compute; reflexivity|]. split; [vm_compute; discriminate|].
  split; [vm_compute; reflexivity|]. split; [reflexivity|]. split; [reflexivity|].
  eexists _, _. split; [vm_compute; reflexivity|]. split; [vm_compute; reflexivity|].
  split; vm_compute; reflexivity.
Qed.

(** The check of [NewSendFlow] and its insertion are not atomic. A call that
    found the session open and inserts its flow after a concurrent [Close] has run
    succeeds: the closed session has a registered flow that is open, which
    nothing will close. [NewReceiveFlow] has the same race: its flow stays open,
    and a [Read] on it would block for good. *)
Theorem flow_creation_races_close :
  ∃ s, Session_close ErrRoQNoError "" ex_sess = Ret s ∧ Session_isClosed ex_sess = None ∧
    (∃ r s' f, NewSendFlow_insert 5 s = Ret (inl r, s') ∧ s_closedErr s' ≠ None ∧
       smap.get 5 (s_sendFlows s') = Some r ∧ s_sfs s' !! r = Some f ∧ sf_closedErr f = None) ∧
    (∃ r s' f, NewReceiveFlow_insert 5 s = Ret (inl r, s') ∧ s_closedErr s' ≠ None ∧
       s_rfs s' !! r = Some f ∧ app_Read r SelPacket [] s' = Ret None ∧
       Session_close ErrRoQNoError "" s' = Ret s').
Proof.
  eexists. split; [vm_compute; reflexivity|]. split; [reflexivity|]. split.
  - eexists _, _, _. split; [vm_compute; reflexivity|]. split; [discriminate|].
    split; [vm_compute; reflexivity|]. split; reflexivity.
  - eexists _, _, _. split; [vm_compute; reflexivity|]. split; [discriminate|].
    split; [reflexivity|]. split; [vm_compute; reflexivity|]. vm_compute; reflexivity.
Qed.

(** Events can be recorded after the qlog producer was closed. [Close] closes
    it once its goroutines have returned, because nothing can record another event
    then; but a write to a stream of the session still records one. *)
Theorem event_after_recorder_closed :
  let t := mkTrace 0 (λ _, true) in
  let config := mkConfig 16 16 discardLogger (Some t) false 0 in
  ∃ s s' e, srun [LOp (ONewSendFlow 5); LOp (ONewSendStream 0 0 false); LClose; LCloseReturn]
      (mkConfigS (newSession (newStubConn []) None true config) [] [] 0 []) =
      Some (mkConfigS s [] [] 0 [None]) ∧
    last (s_effects s) = Some ECloseRecorder ∧
    run_op (OWriteStream 0 [Byte.x2a]) s = Ret s' ∧ s_effects s' = s_effects s ++ [ERecord e].
Proof.
  intros t config. eexists _, _, _. split; [vm_compute; reflexivity|]. split; [reflexivity|].
  split; [vm_compute; reflexivity|]. reflexivity.
Qed.
End witnesses.
