(* ===== verification/QUICGo.v ===== *)
(** * quic_connection.go: quic-go as the connection

    [QuicConn] is the part of quic-go's [quic.Conn], [quic.SendStream] and
    [quic.ReceiveStream] the adapters call, on a state [Q]; it is not part of this
    repository. [QUICGoConnection] wraps it and implements the interfaces of
    Connection.v. Given that quic-go's calls do what they document
    ([QuicConnLaws]), the adapter satisfies [ConnectionLaws], so that every theorem
    about the library holds on top of it. *)

From S2P Require Import Prelude GoErrors IO Varint QlogEvent Qlogger Options SyncMap Connection.
From S2P Require Import RTPSendStream SendFlow PacketBuffer Deadline ReceiveFlow.

(** Send streams are named by handles, with their stream IDs; a receive stream is
    its stream ID and the bytes it delivers. *)
Class QuicConn (Q : Type) := {
  quic_handle : conn_event → Q → Q;
  quic_SendDatagram : list byte → Q → option goerror * Q;
  quic_ReceiveDatagram : bool → Q → option ((list byte + goerror) * Q);
  quic_OpenUniStreamSync : Q → (nat + goerror) * Q;
  quic_AcceptUniStream : bool → Q → option (((Z * reader) + goerror) * Q);
  quic_Read_waits : Z → Q → bool;
  quic_CloseWithError : Z → string → Q → option goerror * Q;
  quic_QlogTrace : Q → option Trace;
  quic_StreamID : nat → Z;
  quic_Write : nat → list byte → Q → (Z * option goerror) * Q;
  quic_Close : nat → Q → option goerror * Q;
  quic_CancelWrite : nat → Z → Q → Q
}.

(** Stream IDs are varints, and the calls that send are logged; a write accepts a
    prefix; only [io.EOF] comes together with data. *)
Class QuicConnLaws (Q : Type) `{!QuicConn Q} := {
  quic_calls : Q → list call;
  quic_StreamID_ok h : varint_ok (quic_StreamID h);
  quic_calls_handle ev c : quic_calls (quic_handle ev c) = quic_calls c;
  quic_calls_ReceiveDatagram ctx c res c' : quic_ReceiveDatagram ctx c = Some (res, c') →
    quic_calls c' = quic_calls c;
  quic_calls_AcceptUniStream ctx c res c' : quic_AcceptUniStream ctx c = Some (res, c') →
    quic_calls c' = quic_calls c ∧ ∀ s, res = inl s → rd_wf s.2;
  quic_calls_SendDatagram p c e c' : quic_SendDatagram p c = (e, c') →
    quic_calls c' = quic_calls c ++ [CSendDatagram p];
  quic_calls_Open c res c' : quic_OpenUniStreamSync c = (res, c') → quic_calls c' = quic_calls c ++
    [COpenUniStream (match res with inl h => Some h | inr _ => None end)];
  quic_calls_CloseWithError code reason c e c' : quic_CloseWithError code reason c = (e, c') →
    quic_calls c' = quic_calls c ++ [CCloseWithError code reason];
  quic_calls_Write h p c n e c' : quic_Write h p c = ((n, e), c') →
    (0 ≤ n ≤ Z.of_nat (length p))%Z ∧ quic_calls c' = quic_calls c ++ [CWrite h p n];
  quic_calls_Close h c e c' : quic_Close h c = (e, c') → quic_calls c' = quic_calls c ++ [CClose h];
  quic_calls_CancelWrite h code c :
    quic_calls (quic_CancelWrite h code c) = quic_calls c ++ [CCancelWrite h code]
}.

(** Calls whose context is cancelled return. *)
Class QuicConnReturns (Q : Type) `{!QuicConn Q} := {
  quic_datagrams_left : Q → nat;
  quic_streams_left : Q → nat;
  quic_ReceiveDatagram_returns c : ∃ res c', quic_ReceiveDatagram true c = Some (res, c') ∧
    ∀ d, res = inl d → quic_datagrams_left c' < quic_datagrams_left c;
  quic_AcceptUniStream_returns c : ∃ res c', quic_AcceptUniStream true c = Some (res, c') ∧
    ∀ s, res = inl s → quic_streams_left c' < quic_streams_left c
}.

(** ** The adapters *)

Record QUICGoConnection (Q : Type) := mkQUICGoConnection { qc_conn : Q }.
Arguments mkQUICGoConnection {Q} _.
Arguments qc_conn {Q} _.

Definition NewQUICGoConnection {Q} (conn : Q) : QUICGoConnection Q := mkQUICGoConnection conn.

Section adapters.
Context {Q : Type} `{!QuicConn Q}.
Implicit Types (c : QUICGoConnection Q).

(** The adapters of streams keep the stream; [ID] converts to [int64], and error
    codes, which are [uint64] like [quic.StreamErrorCode], pass through. *)
Definition QUICGoSendStream_ID (h : nat) : Z := int64 (quic_StreamID h).

Definition QUICGoSendStream_Write (h : nat) (b : list byte) c : (Z * option goerror) * QUICGoConnection Q :=
  let '(res, q) := quic_Write h b (qc_conn c) in (res, mkQUICGoConnection q).

Definition QUICGoSendStream_Close (h : nat) c : option goerror * QUICGoConnection Q :=
  let '(err, q) := quic_Close h (qc_conn c) in (err, mkQUICGoConnection q).

Definition QUICGoSendStream_CancelWrite (h : nat) (code : Z) c : QUICGoConnection Q :=
  mkQUICGoConnection (quic_CancelWrite h code (qc_conn c)).

Definition NewQUICGoReceiveStream (s : Z * reader) : ReceiveStream :=
  mkReceiveStream (int64 s.1) s.2.

Definition QUICGo_SendDatagram (payload : list byte) c : option goerror * QUICGoConnection Q :=
  let '(err, q) := quic_SendDatagram payload (qc_conn c) in (err, mkQUICGoConnection q).

Definition QUICGo_ReceiveDatagram (ctxDone : bool) c
    : option ((list byte + goerror) * QUICGoConnection Q) :=
  '(res, q) ← quic_ReceiveDatagram ctxDone (qc_conn c); Some (res, mkQUICGoConnection q).

Definition QUICGo_OpenUniStreamSync c : (nat + goerror) * QUICGoConnection Q :=
  match quic_OpenUniStreamSync (qc_conn c) with
  | (inr err, q) => (inr err, mkQUICGoConnection q)
  | (inl s, q) => (inl s, mkQUICGoConnection q)
  end.

Definition QUICGo_AcceptUniStream (ctxDone : bool) c
    : option ((ReceiveStream + goerror) * QUICGoConnection Q) :=
  '(res, q) ← quic_AcceptUniStream ctxDone (qc_conn c);
  match res with
  | inr err => Some (inr err, mkQUICGoConnection q)
  | inl s => Some (inl (NewQUICGoReceiveStream s), mkQUICGoConnection q)
  end.

Definition QUICGo_QlogTrace c : option Trace := quic_QlogTrace (qc_conn c).

Definition QUICGo_CloseWithError (code : Z) (reason : string) c : option goerror * QUICGoConnection Q :=
  let '(err, q) := quic_CloseWithError code reason (qc_conn c) in (err, mkQUICGoConnection q).

(** [QUICGoSendStream] has no [SetPriority] and no [SetIncremental]. *)
#[export] Instance quicgo_connection : Connection (QUICGoConnection Q) := {|
  conn_handle ev c := mkQUICGoConnection (quic_handle ev (qc_conn c));
  SendDatagram := QUICGo_SendDatagram;
  ReceiveDatagram := QUICGo_ReceiveDatagram;
  OpenUniStreamSync := QUICGo_OpenUniStreamSync;
  AcceptUniStream := QUICGo_AcceptUniStream;
  Read_waits id c := quic_Read_waits (uint64 id) (qc_conn c);
  CloseWithError := QUICGo_CloseWithError;
  SendStream_ID := QUICGoSendStream_ID;
  SendStream_Write := QUICGoSendStream_Write;
  SendStream_Close := QUICGoSendStream_Close;
  SendStream_CancelWrite := QUICGoSendStream_CancelWrite;
  is_PrioritySendStream h := false;
  SetPriority h p c := c;
  SetIncremental h b c := c
|}.
End adapters.

Section correctness.
Context {Q : Type} `{QuicConnLaws Q}.

#[export] Program Instance quicgo_laws : ConnectionLaws (QUICGoConnection Q) := {|
  calls c := quic_calls (qc_conn c)
|}.
Next Obligation. intros ev c. apply quic_calls_handle. Qed.
Next Obligation.
  intros ctx c res c'. simpl. unfold QUICGo_ReceiveDatagram. destruct (quic_ReceiveDatagram _ _) as [[]|] eqn:Hr; [|done].
  intros [= <- <-]. by eapply quic_calls_ReceiveDatagram.
Qed.
Next Obligation.
  intros ctx c res c'. simpl. unfold QUICGo_AcceptUniStream.
  destruct (quic_AcceptUniStream _ _) as [[[s|e] q]|] eqn:Hr; [| |done]; apply quic_calls_AcceptUniStream in Hr as [Hc Hwf];
    intros [= <- <-]; (split; [done|]); [|done]. intros rs [= <-]. by apply Hwf.
Qed.
Next Obligation.
  intros p c e c'. simpl. unfold QUICGo_SendDatagram. destruct (quic_SendDatagram _ _) eqn:Hs.
  intros [= <- <-]. by eapply quic_calls_SendDatagram.
Qed.
Next Obligation.
  intros c res c'. simpl. unfold QUICGo_OpenUniStreamSync.
  destruct (quic_OpenUniStreamSync _) as [[h|e] q] eqn:Hs; intros [= <- <-];
    apply (quic_calls_Open _ _ _ Hs).
Qed.
Next Obligation.
  intros code reason c e c'. simpl. unfold QUICGo_CloseWithError. destruct (quic_CloseWithError _ _ _) eqn:Hs.
  intros [= <- <-]. by eapply quic_calls_CloseWithError.
Qed.
Next Obligation.
  intros h p c n e c'. simpl. unfold QUICGoSendStream_Write. destruct (quic_Write _ _ _) as [[n0 e0] q] eqn:Hs.
  intros [= <- <- <-]. by eapply quic_calls_Write.
Qed.
Next Obligation.
  intros h c e c'. simpl. unfold QUICGoSendStream_Close. destruct (quic_Close _ _) eqn:Hs.
  intros [= <- <-]. by eapply quic_calls_Close.
Qed.
Next Obligation. intros h code c. simpl. apply quic_calls_CancelWrite. Qed.
Next Obligation. done. Qed.
Next Obligation. done. Qed.

#[export] Program Instance quicgo_returns `{!QuicConnReturns Q} : ConnectionReturns (QUICGoConnection Q) := {|
  datagrams_left c := quic_datagrams_left (qc_conn c);
  streams_left c := quic_streams_left (qc_conn c)
|}.
Next Obligation.
  intros R c. simpl. unfold QUICGo_ReceiveDatagram.
  destruct (quic_ReceiveDatagram_returns (qc_conn c)) as (res & q & -> & Hl). by eexists _, _.
Qed.
Next Obligation.
  intros R c. simpl. unfold QUICGo_AcceptUniStream.
  destruct (quic_AcceptUniStream_returns (qc_conn c)) as (res & q & -> & Hl).
  destruct res as [s|e]; eexists _, _; (split; [done|]); [|done]. intros rs _. by apply (Hl s).
Qed.
End correctness.

(** ** Properties *)

Section properties.
Context `{!QuicVarint} {Q : Type} `{QuicConnLaws Q}.

(** The stream ID of an event survives the conversions to [int64] and back. *)
Lemma uint64_StreamID h : uint64 (QUICGoSendStream_ID h) = quic_StreamID h.
Proof.
  unfold QUICGoSendStream_ID. pose proof (quic_StreamID_ok h) as Hh. unfold varint_ok in Hh.
  rewrite int64_small, uint64_small by lia. done.
Qed.

(** [NewSendStream] on quic-go. The priority and the incremental flag are
    ignored, as documented: whatever they are, the only call on the connection is
    the one that opens the stream. If it fails the flow is unchanged and its error
    is returned; otherwise the flow has one more stream, which has sent nothing and
    carries the flow ID, and the qlog event, if there is a qlogger, reports the ID
    the stream has on the QUIC connection. *)
Theorem quicgo_NewSendStream (priority : Z) (incremental : bool) (f : SendFlow)
    (streams : list RTPSendStream) (c : QUICGoConnection Q) (Hopen : sf_closedErr f = None) :
  ∃ res f' streams' c' es, NewSendStream priority incremental f streams c = (res, f', streams', c', es) ∧
    match quic_OpenUniStreamSync (qc_conn c) with
    | (inr err, q) => res = inr err ∧ f' = f ∧ streams' = streams ∧ qc_conn c' = q ∧ es = []
    | (inl h, q) => res = inl (length streams) ∧ sf_streams f' = sf_streams f ++ [length streams] ∧
        streams' = streams ++ [mkRTPSendStream h (sf_id f) (sf_flowID f) (sf_qlog f) false [] []] ∧
        qc_conn c' = q ∧ calls c' = calls c ++ [COpenUniStream (Some h)] ∧
        es = record (sf_qlog f) (λ _, StreamOpened (sf_id f) (quic_StreamID h))
    end.
Proof.
  unfold NewSendStream, NewSendStream_open, isClosed. rewrite Hopen. simpl.
  unfold QUICGo_OpenUniStreamSync. destruct (quic_OpenUniStreamSync (qc_conn c)) as [[h|err] q] eqn:Ho.
  - eexists _, _, _, _, _. split; [done|]. split_and!; try done; simpl.
    + by rewrite (quic_calls_Open _ _ _ Ho).
    + unfold record. destruct (sf_qlog f); [|done]. by rewrite uint64_StreamID.
  - by eexists _, _, _, _, _.
Qed.
End properties.

Section witnesses.
Import RFC9000.

(** The connection of the tests in the place of quic-go's. *)
#[local] Instance stub_quic : QuicConn stubConn := {|
  quic_handle := conn_handle;
  quic_SendDatagram := SendDatagram;
  quic_ReceiveDatagram := ReceiveDatagram;
  quic_OpenUniStreamSync := OpenUniStreamSync;
  quic_AcceptUniStream ctx c := '(res, c) ← AcceptUniStream ctx c;
    Some (match res with inl rs => inl (rs_ID rs, rs_reader rs) | inr err => inr err end, c);
  quic_Read_waits := Read_waits;
  quic_CloseWithError := CloseWithError;
  quic_QlogTrace _ := None;
  quic_StreamID h := (Z.of_nat h mod 2 ^ 62)%Z;
  quic_Write := SendStream_Write;
  quic_Close := SendStream_Close;
  quic_CancelWrite := SendStream_CancelWrite
|}.

#[local] Instance stub_quic_laws : QuicConnLaws stubConn.
Proof.
  refine {| quic_calls := stub_calls |}.
  - intros h. apply Z.mod_pos_bound. done.
  - apply (@calls_handle _ _ stub_laws).
  - apply (@calls_ReceiveDatagram _ _ stub_laws).
  - intros ctx c res c'. cbn [quic_AcceptUniStream stub_quic].
    destruct (AcceptUniStream ctx c) as [[[rs|e] c1]|] eqn:Hr; [| |done];
      apply (@calls_AcceptUniStream _ _ stub_laws) in Hr as [Hc Hwf]; intros [= <- <-]; (split; [exact Hc|]); [|done].
    intros s [= <-]. by apply Hwf.
  - apply (@calls_SendDatagram _ _ stub_laws).
  - apply (@calls_Open _ _ stub_laws).
  - apply (@calls_CloseWithError _ _ stub_laws).
  - apply (@calls_Write _ _ stub_laws).
  - apply (@calls_Close _ _ stub_laws).
  - apply (@calls_CancelWrite _ _ stub_laws).
Defined.

Lemma quicgo_NewSendStream_witness :
  ∃ f' streams' c' es, NewSendStream 7 true ex_send_flow ex_sf_streams (NewQUICGoConnection ex_failing) =
      (inl 2, f', streams', c', es) ∧ sf_streams f' = [0; 1; 2] ∧ calls c' = [COpenUniStream (Some 10)].
Proof.
  destruct (quicgo_NewSendStream 7 true ex_send_flow ex_sf_streams (NewQUICGoConnection ex_failing) eq_refl)
    as (res & f' & streams' & c' & es & Hrun & -> & Hs & _ & _ & Hc & _).
  exists f', streams', c', es. split; [exact Hrun|]. split; [exact Hs|exact Hc].
Defined.
End witnesses.
