(* ===== verification/Tracer.v ===== *)
(** * qlog/qlog.go: the tracer of a connection

    [DefaultConnectionTracer] asks quic-go for a trace with the schemas of QUIC and
    of RoQ. quic-go's qlog package is not part of the repository: [QuicQlog] is the
    function that is called, on the value of the QLOGDIR environment variable, and
    [QuicQlogLaws] what it documents. *)

From S2P Require Import Prelude QlogEvent Qlogger Options Connection Session QUICGo.

Class QuicQlog (ConnectionID : Type) := {
  quicqlog_EventSchema : string;
  DefaultConnectionTracerWithSchemas :
    option string → bool → ConnectionID → list string → option Trace
}.

(** No trace without QLOGDIR; a trace has the schemas it was made with. *)
Class QuicQlogLaws (ConnectionID : Type) `{!QuicQlog ConnectionID} := {
  tracer_disabled isClient connID schemas :
    DefaultConnectionTracerWithSchemas None isClient connID schemas = None;
  tracer_supports dir isClient connID schemas t schema :
    DefaultConnectionTracerWithSchemas dir isClient connID schemas = Some t →
    schema ∈ schemas → SupportsSchemas t schema = true
}.

Definition DefaultConnectionTracer `{!QuicQlog ConnectionID} (qlogdir : option string)
    (isClient : bool) (connID : ConnectionID) : option Trace :=
  DefaultConnectionTracerWithSchemas qlogdir isClient connID [quicqlog_EventSchema; EventSchema].

(** A session on quic-go whose connection was made with [DefaultConnectionTracer]
    logs its events into the trace of the connection, with the options for packet
    data of its configuration, unless QLOGDIR is not set. *)
Theorem default_tracer_logs_events `{QuicQlogLaws ConnectionID} `{!QuicConn Q} (dir : option string)
    (isClient : bool) (connID : ConnectionID) (c : QUICGoConnection Q) (acc : bool) (config : sessionConfig)
    (Htrace : QUICGo_QlogTrace c = DefaultConnectionTracer dir isClient connID)
    (Hown : qlogTrace config = None) :
  s_qlog (newSession c (Some (QUICGo_QlogTrace c)) acc config) =
    match DefaultConnectionTracer dir isClient connID with
    | Some _ => Some (mkQlogger (qlogPacketData config) (qlogPacketDataLimit config))
    | None => None
    end ∧
  (dir = None → s_qlog (newSession c (Some (QUICGo_QlogTrace c)) acc config) = None).
Proof.
  simpl. unfold newQlogger. rewrite Hown, Htrace. split.
  - destruct (DefaultConnectionTracer dir isClient connID) as [t|] eqn:Ht; [|done].
    unfold DefaultConnectionTracer in Ht. eapply tracer_supports in Ht as ->; [done|].
    apply elem_of_cons. right. by apply list_elem_of_singleton.
  - intros ->. unfold DefaultConnectionTracer. by rewrite tracer_disabled.
Qed.

Section witnesses.
#[local] Instance ex_quicqlog : QuicQlog nat := {|
  quicqlog_EventSchema := "urn:ietf:params:qlog:events:quic-12";
  DefaultConnectionTracerWithSchemas dir isClient connID schemas :=
    _ ← dir; Some (mkTrace (Z.of_nat connID) (λ schema, bool_decide (schema ∈ schemas)))
|}.

#[local] Instance ex_quicqlog_laws : QuicQlogLaws nat.
Proof.
  split; [done|]. intros [dir|] isClient connID schemas t schema; [|done].
  intros [= <-] Hin. simpl. by apply bool_decide_eq_true.
Defined.

(** The connection is its trace. *)
#[local] Instance ex_traced : QuicConn (option Trace) := {|
  quic_handle _ q := q;
  quic_SendDatagram _ q := (None, q);
  quic_ReceiveDatagram _ q := None;
  quic_OpenUniStreamSync q := (inl 0, q);
  quic_AcceptUniStream _ q := None;
  quic_Read_waits _ _ := false;
  quic_CloseWithError _ _ q := (None, q);
  quic_QlogTrace q := q;
  quic_StreamID _ := 0%Z;
  quic_Write _ b q := ((Z.of_nat (length b), None), q);
  quic_Close _ q := (None, q);
  quic_CancelWrite _ _ q := q
|}.

Lemma default_tracer_logs_events_witness :
  s_qlog (newSession (NewQUICGoConnection (DefaultConnectionTracer (Some "/tmp") true 3))
    (Some (QUICGo_QlogTrace (NewQUICGoConnection (DefaultConnectionTracer (Some "/tmp") true 3))))
    true defaultConfig) = Some (mkQlogger false 0).
Proof.
  destruct (default_tracer_logs_events (Some "/tmp") true 3
    (NewQUICGoConnection (DefaultConnectionTracer (Some "/tmp") true 3)) true defaultConfig)
    as [Hq _]; [reflexivity|reflexivity|].
  rewrite Hq. reflexivity.
Defined.
End witnesses.
