(* ===== verification/EndToEnd.v ===== *)
(** * From sender to receiver

    How the packets an application sends on a flow, as datagrams or on a stream,
    reach the flow with the same ID of the session at the other end. The theorems
    join the send path (SendFlow.v, RTPSendStream.v) with the receive path
    (Session.v, ReadStream.v): all they share is the bytes on the wire. *)

From S2P Require Import Prelude GoErrors IO Varint QlogEvent Qlogger Options SyncMap Connection.
From S2P Require Import RTPSendStream SendFlow PacketBuffer Deadline ReceiveFlow ReadStream.
From S2P Require Import ReceiveFlowBuffer Session SessionSpec SessionSteps.

(** What a packet does to the queue of its flow: the flow is open and has room, or
    the packet is dropped; a flow that does not exist yet is created with room for
    [size] packets. *)
Definition queue_after {C} (s : Session C) (id : Z) (ps : list (list byte)) : list (list byte) :=
  match flow_for id s with
  | Some f => if rf_closed f then rf_packets f else take (pb_cap (rf_buffer f)) (rf_packets f ++ ps)
  | None => take (Z.to_nat (s_receiveBufferSize s)) ps
  end.

Section properties.
Context `{QuicVarintLaws, !GoPool, !GoMapOrder} {C : Type} `{ConnectionLaws C}.
Implicit Types (s : Session C).

Lemma flow_for_emit es s id : flow_for id (emit es s) = flow_for id s.
Proof. done. Qed.

(** The queue of the flow [receiveFlow] returns. *)
Lemma receiveFlow_queue id s r s1 f : sess_inv s → receiveFlow id s = Ret (r, s1) →
  s_rfs s1 !! r = Some f →
  ∀ ps, (if rf_closed f then rf_packets f else take (pb_cap (rf_buffer f)) (rf_packets f ++ ps)) =
    queue_after s id ps.
Proof.
  intros Hinv Hrun Hr ps. destruct (receiveFlow_spec id s Hinv)
    as (r' & f' & s' & Hrun' & Hinv' & Href & Hr' & Hid & Hcase).
  rewrite Hrun in Hrun'. injection Hrun' as <- <-. rewrite Hr in Hr'. injection Hr' as <-.
  unfold queue_after, flow_for. destruct (flow_ref id s) as [r0|] eqn:Hr0.
  - subst s1. rewrite Hr0 in Href. injection Href as ->. simpl. by rewrite Hr.
  - destruct Hcase as (Hf & _). pose proof Hinv as [[Hsz _ _ _ _ _ _] _].
    destruct (newReceiveFlow_ok id _ (s_qlog s) (Some (s_logger s)) Hsz)
      as (? & Hf' & _ & Hp & _ & Hcl & _ & _ & _ & Hcap & _).
    rewrite Hf in Hf'. injection Hf' as <-. rewrite Hcl, Hp, <- Hcap, Nat2Z.id. done.
Qed.

Lemma queue_after_emit es s id ps : queue_after (emit es s) id ps = queue_after s id ps.
Proof. done. Qed.

(** The queues after the flow of [id] became [f']. *)
Lemma packets_for_step es es1 id s r s1 f' : sess_inv s → receiveFlow id (emit es s) = Ret (r, s1) →
  sess_inv s1 → flow_ref id s1 = Some r →
  let s' := emit es1 (set_rf r f' s1) in
  packets_for id s' = rf_packets f' ∧
  ∀ id', id' ≠ id → packets_for id' s' = packets_for id' s ∨
    (packets_for id' s' = [] ∧ flow_ref id s = None ∧ next_evicted s = Some id').
Proof.
  intros Hinv Hrun Hinv1 Href s'. pose proof Hinv1 as [Ht1 _].
  assert (∀ id', packets_for id' s' = packets_for id' (set_rf r f' s1)) as Hs' by done.
  split; [|intros id' Hne]; rewrite Hs'; unfold packets_for; rewrite (flow_for_set_rf s1 id) by done.
  - by rewrite decide_True.
  - rewrite decide_False by done.
    destruct (receiveFlow_others id id' (emit es s) r s1 (sess_inv_emit es s Hinv) Hrun Hne)
      as [->|(-> & ? & ?)]; [by left|by right].
Qed.

(** A datagram with a flow ID is queued behind the minimal encoding of the ID. *)
Lemma HandleDatagram_queue d s id n : sess_inv s → quicvarint_Parse d = inl (id, n) →
  ∃ k s', quicvarint_Len id = Ret k ∧ HandleDatagram d s = Ret s' ∧
    packets_for id s' = queue_after s id [drop k d].
Proof.
  intros Hinv Hp. destruct (HandleDatagram_spec d s id n Hinv Hp)
    as (k & es & r & f & f' & s1 & Hk & _ & Hrf & Hinv1 & Href & Hr & Hrun & Hpush & _).
  destruct (packets_for_step es [] id s r s1 f' Hinv Hrf Hinv1 Href) as [Hpk _]. rewrite emit_nil in Hpk.
  exists k, (set_rf r f' s1). split_and!; try done. rewrite Hpk. destruct Hpush as [-> _].
  rewrite <- (queue_after_emit es). eapply receiveFlow_queue; [by apply sess_inv_emit|done..].
Qed.

(** C6: a datagram goes to the flow its ID names: its payload is appended to the
    queue of the registered flow, of the flow buffered for the ID, or of a new
    one, if that flow is open and has room, and is dropped otherwise. The queue of
    every other flow stays as it is, except that the oldest unknown flow is given
    up when a new one needs its place. The payload starts [quicvarint.Len]
    of the ID into the datagram, which is where the ID ends if it has its minimal
    encoding. A datagram without a valid ID closes the session with
    [ErrRoQPacketError]. *)
Theorem HandleDatagram_routes (d : list byte) (s : Session C) (Hinv : sess_inv s) :
  match quicvarint_Parse d with
  | inl (id, n) => ∃ k s', quicvarint_Len id = Ret k ∧ k ≤ n ∧ HandleDatagram d s = Ret s' ∧
      sess_inv s' ∧ s_closedErr s' = s_closedErr s ∧ s_conn s' = s_conn s ∧
      packets_for id s' = queue_after s id [drop k d] ∧
      ∀ id', id' ≠ id → packets_for id' s' = packets_for id' s ∨
        (packets_for id' s' = [] ∧ flow_ref id s = None ∧ next_evicted s = Some id')
  | inr _ => ∃ s', HandleDatagram d s = Ret s' ∧ sess_inv s' ∧
      (s_closedErr s = None → shut_down ErrRoQPacketError "invalid flow ID" s s') ∧
      (s_closedErr s ≠ None → s' = s)
  end.
Proof.
  destruct (quicvarint_Parse d) as [[id n]|e] eqn:Hp.
  2:{ unfold HandleDatagram. rewrite Hp. by apply Session_close_inv. }
  destruct (HandleDatagram_spec d s id n Hinv Hp)
    as (k & es & r & f & f' & s1 & Hk & Hkn & Hrf & Hinv1 & Href & Hr & Hrun & Hpush & _ & Hinv').
  destruct (packets_for_step es [] id s r s1 f' Hinv Hrf Hinv1 Href) as [Hpk Hoth].
  rewrite emit_nil in Hpk, Hoth. apply receiveFlow_keeps in Hrf as Hkeep.
  exists k, (set_rf r f' s1). split_and!; try done; try apply Hkeep.
  rewrite Hpk. destruct Hpush as [-> _].
  rewrite <- (queue_after_emit es). eapply receiveFlow_queue; [by apply sess_inv_emit|done..].
Qed.

(** C5: datagram round trip. What a sender's [SendFlow] hands to the connection
    for a packet, [HandleDatagram] of the receiving session puts unchanged at the
    end of the queue of the flow with the same ID, if that flow is open and has
    room. *)
Theorem datagram_roundtrip {C' : Type} `{!Connection C', !ConnectionLaws C'}
    (packet : list byte) (streams : list RTPSendStream) (sf : SendFlow) (c : C') (s : Session C)
    (Hsf : sf_inv streams sf) (Hopen : sf_closedErr sf = None) (Hinv : sess_inv s)
    (Hroom : match flow_for (sf_id sf) s with
             | Some f => rf_closed f = false ∧ length (rf_packets f) < pb_cap (rf_buffer f)
             | None => (0 < s_receiveBufferSize s)%Z
             end) :
  ∃ err c' es d s', SendFlow_WriteRTPBytes packet sf c = (err, c', es) ∧
    datagrams (calls c') = datagrams (calls c) ++ [d] ∧ HandleDatagram d s = Ret s' ∧
    packets_for (sf_id sf) s' = packets_for (sf_id sf) s ++ [packet].
Proof.
  destruct Hsf as (Ha & Hid & _). destruct (Append_ok _ Hid) as (e & He & Hl & Hp).
  rewrite He in Ha. simpl in Ha. injection Ha as Hf.
  unfold SendFlow_WriteRTPBytes, WriteRTPBytes_send, isClosed. rewrite Hopen, <- Hf.
  destruct (SendDatagram (e ++ packet) c) as [err c'] eqn:Hs. apply calls_SendDatagram in Hs.
  eexists err, c', _, (e ++ packet).
  destruct (HandleDatagram_spec _ s _ _ Hinv (Hp packet))
    as (k & es & r & f & f' & s1 & Hk & _ & Hrf & Hinv1 & Href & Hr & Hrun & Hpush & _).
  rewrite Hl in Hk. injection Hk as <-. rewrite drop_app_length in Hpush.
  exists (set_rf r f' s1). split_and!; [done| |done|].
  { rewrite Hs. unfold datagrams. by rewrite omap_app. }
  destruct (packets_for_step es [] _ s r s1 f' Hinv Hrf Hinv1 Href) as [Hpk _].
  rewrite emit_nil in Hpk. rewrite Hpk. destruct Hpush as [-> _].
  rewrite (receiveFlow_queue _ _ _ _ _ (sess_inv_emit es s Hinv) Hrf Hr [packet]), queue_after_emit.
  unfold queue_after, packets_for. destruct (flow_for (sf_id sf) s) as [f0|]; simpl.
  - destruct Hroom as [-> Hroom]. rewrite take_ge; [done|]. rewrite length_app. simpl. lia.
  - by rewrite take_ge by (simpl; lia).
Qed.

(** The flow of [id], if there is one, is open. *)
Definition flow_open s (id : Z) : Prop :=
  match flow_for id s with Some f => rf_ctxDone f = false | None => True end.

(** The room that is left in the queue for [id]. *)
Definition room s (id : Z) : nat :=
  match flow_for id s with
  | Some f => pb_cap (rf_buffer f) - length (rf_packets f)
  | None => Z.to_nat (s_receiveBufferSize s)
  end.

Lemma receiveFlow_open id s r s1 f : sess_inv s → receiveFlow id s = Ret (r, s1) →
  s_rfs s1 !! r = Some f → flow_open s id → rf_ctxDone f = false ∧ rf_inv [] f.
Proof.
  intros Hinv Hrun Hr Hopen. destruct (receiveFlow_spec id s Hinv)
    as (r' & f' & s' & Hrun' & Hinv' & Href & Hr' & Hid & Hcase).
  rewrite Hrun in Hrun'. injection Hrun' as <- <-. rewrite Hr in Hr'. injection Hr' as <-.
  pose proof Hinv' as [Ht' _]. pose proof (ti_rf _ _ _ Ht' Hr) as Hfi.
  split; [|done]. unfold flow_open, flow_for in Hopen. destruct (flow_ref id s) as [r0|] eqn:Hr0.
  - subst s1. rewrite Hr0 in Href. injection Href as ->. simpl in Hopen. by rewrite Hr in Hopen.
  - destruct Hcase as (Hf & _). pose proof Hinv as [[Hsz _ _ _ _ _ _] _].
    destruct (newReceiveFlow_ok id _ (s_qlog s) (Some (s_logger s)) Hsz) as (? & Hf' & _ & _ & _ & _ & Hctx & _).
    rewrite Hf in Hf'. by injection Hf' as <-.
Qed.

(** [queue_after] with enough room. *)
Lemma queue_after_room s id ps : sess_inv s → flow_open s id → length ps ≤ room s id →
  queue_after s id ps = packets_for id s ++ ps.
Proof.
  intros [Ht _]. unfold flow_open, room, queue_after, packets_for, flow_for.
  destruct (flow_ref id s) as [r|] eqn:Hr; simpl; [|intros _ Hroom; by rewrite take_ge].
  destruct (flow_ref_lookup s id r Ht Hr) as (f & Hf & _ & Hfi). rewrite Hf. simpl.
  intros Hopen Hroom. destruct (rf_closed f) eqn:Hcl; [by rewrite (rf_inv_ctx _ _ Hfi) in Hopen|].
  destruct (decide (ps = [])) as [->|Hne].
  - rewrite app_nil_r, take_ge; [done|]. rewrite rf_packets_length. apply Hfi.
  - rewrite take_ge; [done|]. rewrite length_app. destruct ps; simpl in *; [done|lia].
Qed.

(** A stream that carries a flow ID and frames. *)
Lemma handleUniStream_frames id enc packets rs s :
  sess_inv s → rd_wf (rs_reader rs) →
  (∀ rest, quicvarint_Parse (enc ++ rest) = inl (id, length enc)) →
  rd_data (rs_reader rs) = enc ++ concat (frame <$> packets) →
  Forall (λ p, varint_ok (Z.of_nat (length p))) packets → flow_open s id →
  ∃ s', handleUniStream rs s = Ret (true, s') ∧ sess_inv s' ∧ packets_for id s' = queue_after s id packets.
Proof.
  intros Hinv Hwf Henc Hdata Hok Hopen. unfold handleUniStream.
  destruct (quicvarint_Read (rs_reader rs)) as [res r'] eqn:Hread.
  apply Read_ok in Hread; [|done]. rewrite Hdata, Henc, drop_app_length in Hread.
  destruct Hread as [-> (Hd & He & Hw)].
  destruct (HandleUniStream_spec id (mkReceiveStream (rs_ID rs) r') s Hinv Hw)
    as (es & r & f & f' & s1 & es1 & Hrf & Hinv1 & Href & Hr & Hrun & Hrs & _ & _ & Hinv').
  exists (emit es1 (set_rf r f' s1)). split_and!; try done.
  destruct (packets_for_step es es1 id s r s1 f' Hinv Hrf Hinv1 Href) as [-> _].
  destruct (receiveFlow_open id (emit es s) r s1 f (sess_inv_emit es s Hinv) Hrf Hr Hopen) as [Hctx Hfi].
  destruct (readStream_open [] (mkReceiveStream (rs_ID rs) r') f Hfi Hctx Hw)
    as (f'' & es' & Hrs' & _ & _ & Hp & _).
  rewrite Hrs in Hrs'. injection Hrs' as <- _. simpl in Hp. rewrite Hd, delivered_frames in Hp by done.
  rewrite Hp, <- (queue_after_emit es s), <- (receiveFlow_queue _ _ _ _ _ (sess_inv_emit es s Hinv) Hrf Hr).
  destruct (rf_closed f) eqn:Hcl; [|done]. by rewrite (rf_inv_ctx _ _ Hfi) in Hctx.
Qed.

(** C2: stream round trip. Whatever parts of its writes the connection accepts
    and whichever fail, once nothing is pending the bytes a sender's stream has put
    on the wire, delivered in any chunks to the receiving session, append to the
    queue of the flow with the same ID exactly the accepted packets, whole and in
    order, as far as there is room: a subsequence of the packets written that
    contains all that were reported as sent, and is all of them if every call
    succeeded. *)
Theorem stream_roundtrip {C' : Type} `{!Connection C', !ConnectionLaws C'}
    (h : nat) (id : Z) (idBytes : list byte) (q : option qlogger) (packets : list (list byte))
    (st : RTPSendStream) (c : C') (rs : ReceiveStream) (s : Session C)
    (Hid : varint_ok id) (Hbytes : quicvarint_Append [] id = Ret idBytes)
    (Hst : newRTPSendStream h id idBytes q = inl st) (Hh : wire h (calls c) = [])
    (Hok : Forall (λ p, varint_ok (Z.of_nat (length p))) packets)
    (Hinv : sess_inv s) (Hopen : flow_open s id) (Hwf : rd_wf (rs_reader rs)) :
  ∃ results st' c' accepted, WriteAll packets st c = Ret (results, st', c') ∧
    reported_sent results packets `sublist_of` accepted ∧ accepted `sublist_of` packets ∧
    (Forall (λ r, snd r = None) results → accepted = packets ∧ pending st' = []) ∧
    (accepted ≠ [] → pending st' = [] → rd_data (rs_reader rs) = wire h (calls c') →
     length accepted ≤ room s id →
     ∃ s', handleUniStream rs s = Ret (true, s') ∧
       packets_for id s' = packets_for id s ++ accepted).
Proof.
  injection Hst as <-. set (st := mkRTPSendStream _ _ _ _ _ _ _).
  destruct (WriteAll_bytes packets st c Hok)
    as (results & st' & c' & acc & Hrun & (Hs1 & _) & Hlen & Hrep & Hsub & _ & Hb & Hpend0).
  exists results, st', c', acc. split_and!; try done.
  { intros Hall. split; [by eapply reported_all_accepted|by apply Hpend0; [|left]]. }
  intros Hne Hpend Hdata Hroom.
  unfold sent_bytes in Hb. rewrite Hs1, Hpend, app_nil_r in Hb. simpl in Hb.
  rewrite Hh, decide_False in Hb by done. simpl in Hb. unfold flow_prefix in Hb. simpl in Hb.
  destruct (Append_ok id Hid) as (e & He & _ & Hp). rewrite He in Hbytes. injection Hbytes as <-.
  rewrite Hb in Hdata. destruct (handleUniStream_frames id e acc rs s Hinv Hwf Hp Hdata)
    as (s' & Hhu & _ & Hq); [|done|].
  { apply Forall_forall. intros p Hin. rewrite Forall_forall in Hok. apply Hok.
    by eapply sublist_subseteq. }
  exists s'. split; [done|]. rewrite Hq. by apply queue_after_room.
Qed.

(** Asking for a flow changes no queue. *)
Lemma NewReceiveFlow_packets id s r s' : sess_inv s → NewReceiveFlow id s = Ret (inl r, s') →
  ∀ id', packets_for id' s' = packets_for id' s.
Proof.
  intros Hinv Hrun id'. destruct (NewReceiveFlow_spec id s Hinv) as (res & s1 & Hrun' & Hinv' & Hcase).
  rewrite Hrun in Hrun'. injection Hrun' as <- <-.
  destruct (s_closedErr s); [by destruct Hcase|].
  destruct (smap.get id (s_receiveFlows s)) eqn:Hg; [by destruct Hcase|].
  destruct Hcase as (r2 & new & f & [= <-] & Hm & Hu & Hfs & Hr & Hid & Hf).
  pose proof Hinv as [Ht _]. pose proof Hinv' as [Ht' _].
  unfold packets_for. destruct (decide (id' = id)) as [->|Hne].
  - unfold flow_for at 1, flow_ref. rewrite Hm, smap.get_set, decide_True by done. simpl. rewrite Hr.
    destruct (flow_for id s) as [f0|]; [by destruct Hf as [-> _]|]. destruct Hf as [_ Hf].
    destruct (newReceiveFlow_inv _ _ _ _ _ Hf) as [_ Hp]. done.
  - unfold flow_for, flow_ref. rewrite Hm, smap.get_set, decide_False by done.
    assert (fb_buffer (s_receiveFlowBuffer s') !! id' = fb_buffer (s_receiveFlowBuffer s) !! id') as ->.
    { apply option_eq. intros r0. rewrite <- !(elem_of_unknown_flows _ _ _ _ (ti_unknown _ Ht)),
        <- (elem_of_unknown_flows _ _ _ _ (ti_unknown _ Ht')), Hu.
      unfold fifo_remove. rewrite list_elem_of_filter. naive_solver. }
    fold (flow_ref id' s). destruct (flow_ref id' s) as [r0|] eqn:Hr0; [simpl|done].
    destruct (flow_ref_lookup s id' r0 Ht Hr0) as (f0 & Hf0 & _). rewrite Hfs, Hf0.
    by rewrite (lookup_app_l_Some _ _ _ _ Hf0).
Qed.

(** C37: a flow ID may be encoded in more bytes than it needs; RFC 9000 allows it.
    [HandleDatagram] accepts every such ID, but skips only as many bytes as the minimal
    encoding has: the packet is queued with the rest of the encoding of the ID in front
    of it, and arrives unchanged only if the encoding is minimal. On a stream the same
    encoding is skipped whole, and the packet arrives unchanged. *)
Theorem nonminimal_flow_id_leaks (enc : list byte) (id : Z) (k : nat) (packet : list byte)
    (rs : ReceiveStream) (s : Session C)
    (Henc : quicvarint_Parse enc = inl (id, length enc)) (Hlen : quicvarint_Len id = Ret k)
    (Hinv : sess_inv s) (Hopen : flow_open s id) (Hroom : 0 < room s id)
    (Hok : varint_ok (Z.of_nat (length packet))) (Hwf : rd_wf (rs_reader rs))
    (Hdata : rd_data (rs_reader rs) = enc ++ frame packet) :
  (∃ s', HandleDatagram (enc ++ packet) s = Ret s' ∧
     packets_for id s' = packets_for id s ++ [drop k enc ++ packet] ∧
     (drop k enc ++ packet = packet ↔ k = length enc)) ∧
  (∃ s', handleUniStream rs s = Ret (true, s') ∧ packets_for id s' = packets_for id s ++ [packet]).
Proof.
  assert (∀ rest, quicvarint_Parse (enc ++ rest) = inl (id, length enc)) as Hp.
  { intros rest. pose proof (Parse_app enc id (length enc) rest Henc) as Ha. by rewrite firstn_all in Ha. }
  destruct (Len_least _ _ _ Henc) as (k' & Hk' & Hle). rewrite Hlen in Hk'. injection Hk' as <-. split.
  - destruct (HandleDatagram_queue (enc ++ packet) s id _ Hinv (Hp packet)) as (k' & s' & Hk' & Hrun & Hq).
    rewrite Hlen in Hk'. injection Hk' as <-. exists s'. split; [done|].
    rewrite Hq, queue_after_room, drop_app_le by (done || simpl; lia). split; [done|].
    split; [|intros ->; by rewrite drop_all].
    intros Heq%(f_equal length). rewrite length_app, length_drop in Heq. lia.
  - destruct (handleUniStream_frames id enc [packet] rs s Hinv Hwf Hp) as (s' & Hrun & _ & Hq);
      [by rewrite Hdata; simpl; rewrite app_nil_r|by constructor|done|].
    exists s'. split; [done|]. rewrite Hq. by apply queue_after_room.
Qed.

(** C24: packets that arrive before the application asks for their flow are not
    lost: while they wait the buffered flow takes them like a registered one, and
    [NewReceiveFlow] hands out that flow with its queue, so that [Read] returns
    them; no other queue changes. *)
Theorem early_packets_kept (id : Z) (enc packet : list byte) (s : Session C)
    (Hinv : sess_inv s) (Hs : s_closedErr s = None) (Hunreg : smap.get id (s_receiveFlows s) = None)
    (Hid : varint_ok id) (Henc : quicvarint_Append [] id = Ret enc)
    (Hopen : flow_open s id) (Hroom : 0 < room s id) :
  ∃ s1 r s2 f, HandleDatagram (enc ++ packet) s = Ret s1 ∧ NewReceiveFlow id s1 = Ret (inl r, s2) ∧
    s_rfs s2 !! r = Some f ∧ rf_packets f = packets_for id s ++ [packet] ∧
    smap.get id (s_receiveFlows s2) = Some r ∧ (id ∉ (unknown_flows (s_receiveFlowBuffer s2)).*1) ∧
    (∀ id', packets_for id' s2 = packets_for id' s1).
Proof.
  destruct (Append_ok _ Hid) as (e & He & Hl & Hp). rewrite He in Henc. injection Henc as <-. simpl.
  destruct (HandleDatagram_spec _ s _ _ Hinv (Hp packet))
    as (k & es & r & f & f' & s0 & Hk & _ & Hrf & Hinv0 & Href & Hr & Hrun & Hpush & _ & Hinv1).
  rewrite Hl in Hk. injection Hk as <-. rewrite drop_app_length in Hpush.
  destruct (packets_for_step es [] _ s r s0 f' Hinv Hrf Hinv0 Href) as [Hpk _].
  rewrite emit_nil in Hpk. set (s1 := set_rf r f' s0) in *.
  assert (packets_for id s1 = packets_for id s ++ [packet]) as Hq.
  { rewrite Hpk. destruct Hpush as [-> _].
    rewrite (receiveFlow_queue _ _ _ _ _ (sess_inv_emit es s Hinv) Hrf Hr [packet]), queue_after_emit.
    by apply queue_after_room. }
  assert (s_closedErr s1 = None ∧ smap.get id (s_receiveFlows s1) = None) as [Hcl1 Hun1].
  { apply receiveFlow_tables in Hrf as (Htab & Hcl). simpl in *. rewrite Htab, Hcl. done. }
  destruct (NewReceiveFlow_spec id s1 Hinv1) as (res & s2 & Hnew & Hinv2 & Hcase).
  rewrite Hcl1, Hun1 in Hcase. destruct Hcase as (r2 & new & f2 & -> & Hm & Hu & Hfs & Hr2 & Hid2 & Hf2).
  assert (flow_for id s1 = Some f') as Hff.
  { unfold s1. rewrite (flow_for_set_rf s0 id) by (done || apply Hinv0). by rewrite decide_True. }
  rewrite Hff in Hf2. destruct Hf2 as [-> ->].
  exists s1, r2, s2, f'. split_and!; try done.
  - by rewrite <- Hq, Hpk.
  - rewrite Hm, smap.get_set. by rewrite decide_True.
  - rewrite Hu. intros ([k ?] & -> & Hin)%list_elem_of_fmap. unfold fifo_remove in Hin.
    apply list_elem_of_filter in Hin as [Hne _]. by apply Hne.
  - by eapply NewReceiveFlow_packets.
Qed.
End properties.

Section witnesses.
Import RFC9000.
#[local] Existing Instance lifo_pool.
#[local] Existing Instance ascending_order.

(** A receiving session that has been asked for nothing yet. *)
Definition ex_receiver : Session stubConn := newSession (newStubConn []) None true defaultConfig.

Lemma ex_receiver_inv : sess_inv ex_receiver.
Proof. apply newSession_inv; [apply defaultConfig_ok|reflexivity]. Qed.

Lemma HandleDatagram_routes_witness :
  ∃ k s', RFC9000.Len 7 = Ret k ∧ HandleDatagram [Byte.x07; Byte.x2a] ex_receiver = Ret s' ∧
    packets_for 7 s' = [[Byte.x2a]].
Proof.
  destruct (HandleDatagram_routes [Byte.x07; Byte.x2a] ex_receiver ex_receiver_inv)
    as (k & s' & Hk & _ & Hrun & _ & _ & _ & Hp & _).
  exists k, s'. split; [exact Hk|]. split; [exact Hrun|]. vm_compute in Hk. injection Hk as <-.
  etransitivity; [exact Hp|]. vm_compute. reflexivity.
Defined.

Lemma datagram_roundtrip_witness :
  ∃ err c' es d s', SendFlow_WriteRTPBytes [Byte.x2a; Byte.x2b] ex_send_flow (newStubConn []) = (err, c', es) ∧
    datagrams (calls c') = [d] ∧ HandleDatagram d ex_receiver = Ret s' ∧
    packets_for 1000 s' = [[Byte.x2a; Byte.x2b]].
Proof.
  destruct (datagram_roundtrip [Byte.x2a; Byte.x2b] ex_sf_streams ex_send_flow (newStubConn []) ex_receiver)
    as (err & c' & es & d & s' & Hw & Hd & Hh & Hp);
    [apply ex_send_flow_inv|reflexivity|apply ex_receiver_inv|vm_compute; reflexivity|].
  exists err, c', es, d, s'. split; [exact Hw|]. split; [exact Hd|]. split; [exact Hh|].
  etransitivity; [exact Hp|]. vm_compute. reflexivity.
Defined.

(** The bytes of two packets on a stream of flow 1000, in two chunks. *)
Definition ex_rs : ReceiveStream :=
  mkReceiveStream 3 (mkReader [bytes [67; 232; 2]%Z; bytes [10; 11; 1; 12]%Z] true EOF).

Lemma stream_roundtrip_witness :
  ∃ results st' c' s', WriteAll [bytes [10; 11]%Z; bytes [12]%Z] ex_stream (newStubConn []) =
      Ret (results, st', c') ∧
    handleUniStream ex_rs ex_receiver = Ret (true, s') ∧
    packets_for 1000 s' = [bytes [10; 11]%Z; bytes [12]%Z].
Proof.
  destruct (stream_roundtrip 0 1000 (bytes [67; 232]%Z) None [bytes [10; 11]%Z; bytes [12]%Z] ex_stream
    (newStubConn []) ex_rs ex_receiver) as (results & st' & c' & acc & Hrun & _ & _ & Hall & Hrt).
  - vm_compute. split; [discriminate|reflexivity].
  - reflexivity.
  - reflexivity.
  - reflexivity.
  - repeat constructor; vm_compute; done.
  - apply ex_receiver_inv.
  - vm_compute. exact I.
  - intros _. reflexivity.
  - exists results, st', c'. pose proof Hrun as Hrun'. vm_compute in Hrun'. injection Hrun' as <- <- <-.
    destruct Hall as [-> _]; [repeat constructor|].
    destruct Hrt as (s' & Hh & Hp); [discriminate|reflexivity|vm_compute; reflexivity|vm_compute; lia|].
    exists s'. split; [exact Hrun|]. split; [exact Hh|]. etransitivity; [exact Hp|]. vm_compute. reflexivity.
Defined.

Lemma early_packets_kept_witness :
  ∃ s1 r s2 f, HandleDatagram [Byte.x07; Byte.x2a] ex_receiver = Ret s1 ∧
    NewReceiveFlow 7 s1 = Ret (inl r, s2) ∧ s_rfs s2 !! r = Some f ∧ rf_packets f = [[Byte.x2a]].
Proof.
  destruct (early_packets_kept 7 [Byte.x07] [Byte.x2a] ex_receiver ex_receiver_inv)
    as (s1 & r & s2 & f & Hd & Hn & Hr & Hp & _);
    [reflexivity|reflexivity|vm_compute; split; [discriminate|reflexivity]|reflexivity|vm_compute; exact I
    |vm_compute; lia|].
  exists s1, r, s2, f. split; [exact Hd|]. split; [exact Hn|]. split; [exact Hr|].
  etransitivity; [exact Hp|]. vm_compute. reflexivity.
Defined.

(** Flow 1 in two bytes; the packet [42] is queued as [1, 42] if it is a datagram. *)
Lemma nonminimal_flow_id_leaks_witness :
  (∃ s', HandleDatagram (bytes [64; 1; 42]%Z) ex_receiver = Ret s' ∧ packets_for 1 s' = [bytes [1; 42]%Z]) ∧
  ∃ s', handleUniStream (mkReceiveStream 3 (mkReader [bytes [64; 1; 1; 42]%Z] true EOF)) ex_receiver =
      Ret (true, s') ∧ packets_for 1 s' = [bytes [42]%Z].
Proof.
  destruct (nonminimal_flow_id_leaks (bytes [64; 1]%Z) 1 1 (bytes [42]%Z)
    (mkReceiveStream 3 (mkReader [bytes [64; 1; 1; 42]%Z] true EOF)) ex_receiver)
    as [(s1 & Hd & Hp1 & _) (s2 & Hs & Hp2)].
  - reflexivity.
  - reflexivity.
  - apply ex_receiver_inv.
  - vm_compute. exact I.
  - vm_compute. lia.
  - vm_compute. split; [discriminate|reflexivity].
  - intros _. reflexivity.
  - reflexivity.
  - split.
    + exists s1. split; [exact Hd|]. etransitivity; [exact Hp1|]. vm_compute. reflexivity.
    + exists s2. split; [exact Hs|]. etransitivity; [exact Hp2|]. vm_compute. reflexivity.
Defined.
End witnesses.
