(* ===== verification/Delivery.v ===== *)
(** * What arrives at a session, and the queue of a flow

    A session receives datagrams one after the other in [receiveDatagrams], and
    hands each stream to a [handleUniStream] goroutine; the goroutines of the streams
    run concurrently with each other and with [receiveDatagrams], so that what they
    queue comes in between ([interleaves]). [gstep] is a step of one of these
    goroutines in SessionConcurrent.v. When the connection has datagrams and streams
    for one flow, any sequence of such steps comes to an end, and when no goroutine can
    go on, an interleaving of the packets of the datagrams and of each of the streams
    is in the queue of the flow, as long as there was room. *)

From S2P Require Import Prelude GoErrors IO Varint QlogEvent Qlogger Options SyncMap Connection.
From S2P Require Import RTPSendStream SendFlow PacketBuffer Deadline ReceiveFlow ReadStream.
From S2P Require Import ReceiveFlowBuffer Session SessionSpec SessionMoves SessionSteps SessionConcurrent.
From S2P Require Import SessionShutdown EndToEnd.

(** ** Interleavings *)

Section interleavings.
Context {A : Type}.
Implicit Types (l xs : list A) (ls : list (list A)).

(** [l] is made of the lists [ls], each of them in its order. *)
Inductive interleaves : list (list A) → list A → Prop :=
  | interleaves_nil ls : Forall (λ xs, xs = []) ls → interleaves ls []
  | interleaves_cons ls ls' x xs l : ls ≡ₚ (x :: xs) :: ls' → interleaves (xs :: ls') l → interleaves ls (x :: l).

#[export] Instance interleaves_perm : Proper ((≡ₚ) ==> (=) ==> iff) interleaves.
Proof.
  assert (∀ ls1 ls2 l, ls1 ≡ₚ ls2 → interleaves ls1 l → interleaves ls2 l) as Hp.
  { intros ls1 ls2 l Hp Hi. inversion Hi; subst.
    - apply interleaves_nil. by rewrite <- Hp.
    - eapply interleaves_cons; [by rewrite <- Hp|done]. }
  intros ls1 ls2 Hls l ? <-. split; apply Hp; [done|by symmetry].
Qed.

(** Nothing is lost, and each list is still in its order. *)
Lemma interleaves_concat ls l : interleaves ls l → l ≡ₚ concat ls.
Proof.
  induction 1 as [ls Hls|ls ls' x xs l Hp _ IH].
  - induction Hls as [|xs ls -> _ IH]; [done|]. by rewrite concat_cons.
  - rewrite Hp, IH. simpl. done.
Qed.

Lemma interleaves_sublist ls l xs : interleaves ls l → xs ∈ ls → xs `sublist_of` l.
Proof.
  intros Hi. revert xs. induction Hi as [ls Hls|ls ls' x ys l Hp _ IH]; intros xs Hin.
  - rewrite Forall_forall in Hls. by rewrite (Hls xs Hin).
  - rewrite Hp in Hin. apply elem_of_cons in Hin as [->|Hin].
    + apply sublist_skip, IH, list_elem_of_here.
    + apply sublist_cons, IH. by apply list_elem_of_further.
Qed.

(** Empty lists do not matter. *)
Lemma interleaves_skip ls l : interleaves ([] :: ls) l ↔ interleaves ls l.
Proof.
  split.
  - intros Hi. remember ([] :: ls) as ls0 eqn:E. assert (ls0 ≡ₚ [] :: ls) as Hp by (by rewrite E). clear E.
    revert ls Hp. induction Hi as [ls0 Hls|ls0 ls' x xs l Hp0 _ IH]; intros ls Hp.
    + apply interleaves_nil. rewrite Hp in Hls. by apply Forall_cons in Hls as [_ ?].
    + rewrite Hp in Hp0. assert ((x :: xs) ∈ ls) as Hin.
      { assert ((x :: xs) ∈ [] :: ls) as Hin by (rewrite Hp0; apply list_elem_of_here). by apply elem_of_cons in Hin as [?|?]. }
      apply elem_of_Permutation in Hin as [ls2 Hls2]. rewrite Hls2 in Hp0 |- *.
      eapply interleaves_cons; [done|]. apply IH.
      rewrite (Permutation_swap (x :: xs) []) in Hp0. apply (Permutation_cons_inv (a := x :: xs)) in Hp0.
      rewrite <- Hp0. by rewrite Permutation_swap.
  - intros Hi. induction Hi as [ls Hls|ls ls' x xs l Hp _ IH]; [by apply interleaves_nil; constructor|].
    eapply (interleaves_cons _ ([] :: ls')); [rewrite Hp; by rewrite Permutation_swap|].
    by rewrite Permutation_swap.
Qed.

Lemma interleaves_one xs l : interleaves [xs] l ↔ l = xs.
Proof.
  split.
  - intros Hi. remember [xs] as ls eqn:E. assert (ls ≡ₚ [xs]) as Hp by (by rewrite E). clear E.
    revert xs Hp. induction Hi as [ls Hls|ls ls' x xs' l Hp0 _ IH]; intros xs Hp.
    + rewrite Hp in Hls. apply Forall_cons in Hls as [-> _]. done.
    + rewrite Hp0 in Hp. apply Permutation_singleton_r in Hp as [= <- ->]. by rewrite (IH xs').
  - intros ->. induction xs as [|x xs IH]; [by apply interleaves_nil; constructor|]. by eapply interleaves_cons.
Qed.
End interleavings.

(** ** One flow of a session *)

Section receiving.
Context `{QuicVarintLaws, !GoPool, !GoMapOrder} {C : Type} `{ConnectionLaws C}.
Implicit Types (s : Session C).

(** The room in the flow [receiveFlow] returns. *)
Lemma receiveFlow_room id s r s1 f : sess_inv s → receiveFlow id s = Ret (r, s1) →
  s_rfs s1 !! r = Some f → pb_cap (rf_buffer f) - length (rf_packets f) = room s id.
Proof.
  intros Hinv Hrun Hr. destruct (receiveFlow_spec id s Hinv)
    as (r' & f' & s' & Hrun' & Hinv' & Href & Hr' & Hid & Hcase).
  rewrite Hrun in Hrun'. injection Hrun' as <- <-. rewrite Hr in Hr'. injection Hr' as <-.
  unfold room, flow_for. destruct (flow_ref id s) as [r0|] eqn:Hr0.
  - subst s1. rewrite Hr0 in Href. injection Href as ->. simpl. by rewrite Hr.
  - destruct Hcase as (Hf & _). pose proof Hinv as [[Hsz _ _ _ _ _ _] _].
    destruct (newReceiveFlow_ok id _ (s_qlog s) (Some (s_logger s)) Hsz)
      as (? & Hf' & _ & Hp & _ & _ & _ & _ & _ & Hcap & _).
    rewrite Hf in Hf'. injection Hf' as <-. rewrite Hp, <- Hcap, Nat2Z.id. simpl. lia.
Qed.

Lemma receiveFlow_conn id s r s1 : receiveFlow id s = Ret (r, s1) →
  s_conn s1 = s_conn s ∧ s_ctxDone s1 = s_ctxDone s.
Proof.
  unfold receiveFlow. destruct (smap.get id _); [by intros [= <- <-]|].
  intros ([[[r0 b] fs] es] & _ & [= <- <-])%bind_ret_inv. done.
Qed.

(** The session is open, and so is the flow for [id], whose queue is [ps] and has room
    for [n] more packets. *)
Record receiver (id : Z) (ps : list (list byte)) (n : nat) s : Prop := {
  rc_inv : sess_inv s;
  rc_open : s_closedErr s = None;
  rc_flow : flow_open s id;
  rc_packets : packets_for id s = ps;
  rc_room : n ≤ room s id
}.

Lemma receiver_ctx id ps n s : receiver id ps n s → s_ctxDone s = false.
Proof. intros [[_ Hst] Ho _ _ _]. unfold status_inv in Hst. rewrite Ho in Hst. apply Hst. Qed.

Lemma receiver_conn id ps n s c : receiver id ps n s → calls c = calls (s_conn s) → receiver id ps n (set_conn c s).
Proof.
  intros [Hinv Ho Hf Hp Hr] Hc. split; try done.
  destruct (set_conn_moves s c (proj1 Hinv) Hc) as [Ht Hq]. by apply quiet_sess in Hq as [? _].
Qed.

(** The flow [r] for [id], which is [f], becomes [f'], which has taken [qs]. *)
Lemma receiver_set_rf id ps qs n es r f f' s : receiver id ps (length qs + n) s → flow_ref id s = Some r →
  s_rfs s !! r = Some f → sess_inv (emit es (set_rf r f' s)) →
  rf_packets f' = (if rf_closed f then rf_packets f else take (pb_cap (rf_buffer f)) (rf_packets f ++ qs)) →
  pb_cap (rf_buffer f') = pb_cap (rf_buffer f) → rf_ctxDone f' = rf_ctxDone f →
  receiver id (ps ++ qs) n (emit es (set_rf r f' s)).
Proof.
  intros [Hinv Ho Hf Hp Hr] Href Hlk Hinv' Hpk Hcap Hctx.
  assert (flow_for id s = Some f) as Hff by (unfold flow_for; by rewrite Href).
  assert (flow_for id (emit es (set_rf r f' s)) = Some f') as Hff'.
  { rewrite flow_for_emit, (flow_for_set_rf s id) by (done || apply Hinv). by rewrite decide_True. }
  pose proof (queue_after_room s id qs Hinv Hf ltac:(lia)) as Hq. unfold queue_after in Hq. rewrite Hff, <- Hpk, Hp in Hq.
  split; try done.
  - unfold flow_open in *. rewrite Hff' in *. rewrite Hff in Hf. congruence.
  - unfold packets_for. by rewrite Hff'.
  - unfold room in *. rewrite Hff'. rewrite Hff in Hr. rewrite Hcap, Hq, length_app.
    unfold packets_for in Hp. rewrite Hff in Hp. simpl in Hp. rewrite <- Hp. lia.
Qed.

(** Looking the flow up. *)
Lemma receiver_lookup id ps n es s : receiver id ps n s → ∃ r s', receiveFlow id (emit es s) = Ret (r, s') ∧
  receiver id ps n s' ∧ flow_ref id s' = Some r ∧ (∀ r0, flow_ref id s = Some r0 → r0 = r) ∧
  s_conn s' = s_conn s.
Proof.
  intros [Hinv Ho Hf Hp Hr]. pose proof (sess_inv_emit es s Hinv) as Hinve.
  destruct (receiveFlow_spec id (emit es s) Hinve) as (r & f & s' & Hrun & Hinv' & Href & Hlk & _ & Hcase).
  exists r, s'. split; [done|].
  assert (flow_for id s' = Some f) as Hff by (unfold flow_for; by rewrite Href).
  destruct (receiveFlow_open id (emit es s) r s' f Hinve Hrun Hlk Hf) as [Hctx Hfi].
  pose proof (receiveFlow_room id (emit es s) r s' f Hinve Hrun Hlk) as Hrm.
  change (room (emit es s) id) with (room s id) in Hrm.
  pose proof (receiveFlow_queue _ _ _ _ _ Hinve Hrun Hlk []) as Hq.
  rewrite queue_after_emit, queue_after_room, !app_nil_r in Hq by (done || simpl; lia).
  assert (rf_packets f = packets_for id s) as Hpk.
  { rewrite <- Hq. destruct (rf_closed f); [done|]. rewrite take_ge; [done|]. rewrite rf_packets_length. apply Hfi. }
  apply receiveFlow_keeps in Hrun as (Hce & _ & Hcn). split_and!; try done.
  - split; try done.
    + by rewrite Hce.
    + unfold flow_open. by rewrite Hff.
    + unfold packets_for at 1. rewrite Hff. simpl. congruence.
    + unfold room. rewrite Hff. lia.
  - intros r0 Hr0. change (flow_ref id (emit es s)) with (flow_ref id s) in Hcase. rewrite Hr0 in Hcase. subst s'.
    change (flow_ref id (emit es s)) with (flow_ref id s) in Href. congruence.
Qed.

(** What the tasks of the goroutines do to the flow. *)
Definition received id ps n r s s' : Prop :=
  receiver id ps n s' ∧ flow_ref id s' = Some r ∧ s_conn s' = s_conn s.

Lemma receiver_same id ps n es r f f' s : receiver id ps n s → flow_ref id s = Some r →
  s_rfs s !! r = Some f → tables_inv (emit es (set_rf r f' s)) → quiet s (emit es (set_rf r f' s)) →
  rf_buffer f' = rf_buffer f → rf_ctxDone f' = rf_ctxDone f → received id ps n r s (emit es (set_rf r f' s)).
Proof.
  intros Hrc Href Hlk Ht Hq Hb Hctx. split; [|done]. rewrite <- (app_nil_r ps).
  eapply receiver_set_rf; try done.
  - by destruct (quiet_sess _ _ (rc_inv _ _ _ _ Hrc) Ht Hq).
  - assert (rf_packets f' = rf_packets f) as -> by (unfold rf_packets; by rewrite Hb).
    by destruct (flow_pushed_nil [] f (ti_rf _ _ _ (proj1 (rc_inv _ _ _ _ Hrc)) Hlk) ).
  - by rewrite Hb.
Qed.

Lemma receiver_flow id ps n r s : receiver id ps n s → flow_ref id s = Some r →
  ∃ f, s_rfs s !! r = Some f ∧ rf_inv [] f ∧ rf_ctxDone f = false.
Proof.
  intros Hrc Href. pose proof (rc_inv _ _ _ _ Hrc) as [Ht _].
  destruct (flow_ref_lookup s id r Ht Href) as (f & Hlk & _ & Hfi). exists f. split_and!; try done.
  pose proof (rc_flow _ _ _ _ Hrc) as Hf. unfold flow_open, flow_for in Hf. by rewrite Href in Hf; simpl in Hf; rewrite Hlk in Hf.
Qed.

Lemma receiver_deliver id enc ps n p r s : varint_ok id → quicvarint_Append [] id = Ret enc →
  receiver id ps (S n) s → flow_ref id s = Some r →
  ∃ s', HandleDatagram_deliver id (enc ++ p) r s = Ret s' ∧ received id (ps ++ [p]) n r s s'.
Proof.
  intros Hid Henc Hrc Href. destruct (receiver_flow _ _ _ _ _ Hrc Href) as (f & Hlk & Hfi & _).
  destruct (Append_ok _ Hid) as (e & He & Hl & Hp). rewrite He in Henc. injection Henc as <-. simpl.
  destruct (HandleDatagram_deliver_moves id _ (e ++ p) r s (proj1 (rc_inv _ _ _ _ Hrc)) (lookup_lt_Some _ _ _ Hlk) (Hp p))
    as (s' & Hrun & Ht & Hq). exists s'. split; [done|].
  revert Hrun. unfold HandleDatagram_deliver, deref. rewrite Hlk. bind_simpl.
  destruct (pool_Get (rf_buffer f)) as [b pb] eqn:Hget. rewrite Hl. bind_simpl.
  rewrite slice_from_ok, Nat2Z.id by (rewrite length_app; lia). bind_simpl. rewrite drop_app_length.
  destruct (push_filled [] f b pb p Hfi Hget) as (Hb & _ & _ & _ & f' & Hpush & _ & Hpk & Hcap & _ & Hctx & _).
  rewrite buf_fill, Hpush by done. bind_simpl. intros [= <-]. split; [|done].
  rewrite <- (emit_nil (set_rf r f' s)). eapply receiver_set_rf; try done.
  rewrite emit_nil. by destruct (quiet_sess _ _ (rc_inv _ _ _ _ Hrc) Ht Hq).
Qed.

Lemma receiver_register id ps n rs r s : receiver id ps n s → flow_ref id s = Some r →
  ∃ s', flow_register rs r s = Ret (true, s') ∧ received id ps n r s s'.
Proof.
  intros Hrc Href. destruct (receiver_flow _ _ _ _ _ Hrc Href) as (f & Hlk & Hfi & Hctx).
  destruct (flow_register_moves rs r s (proj1 (rc_inv _ _ _ _ Hrc)) (lookup_lt_Some _ _ _ Hlk)) as (ok & s' & Hrun & Ht & Hq).
  revert Hrun. unfold flow_register, deref, register. rewrite Hlk. bind_simpl. rewrite Hctx. intros [= <- <-].
  eexists. split; [done|]. by eapply receiver_same.
Qed.

Lemma receiver_unregister id ps n rs r s : receiver id ps n s → flow_ref id s = Some r →
  ∃ s', flow_unregister rs r s = Ret s' ∧ received id ps n r s s'.
Proof.
  intros Hrc Href. destruct (receiver_flow _ _ _ _ _ Hrc Href) as (f & Hlk & Hfi & Hctx).
  destruct (flow_unregister_moves rs r s (proj1 (rc_inv _ _ _ _ Hrc)) (lookup_lt_Some _ _ _ Hlk)) as (s' & Hrun & Ht & Hq).
  revert Hrun. unfold flow_unregister, deref. rewrite Hlk. bind_simpl. intros [= <-].
  eexists. split; [done|]. rewrite <- (emit_nil (set_rf _ _ _)) in *. by eapply receiver_same.
Qed.

Lemma receiver_frame id ps n sid rd p rest r s : receiver id ps (S n) s → flow_ref id s = Some r → rd_wf rd →
  varint_ok (Z.of_nat (length p)) → rd_data rd = frame p ++ rest →
  ∃ rd' s', flow_readFrame sid rd r s = Ret (Some rd', s') ∧ rd_wf rd' ∧ rd_data rd' = rest ∧
    received id (ps ++ [p]) n r s s'.
Proof.
  intros Hrc Href Hwf Hok Hdata. destruct (receiver_flow _ _ _ _ _ Hrc Href) as (f & Hlk & Hfi & _).
  destruct (flow_readFrame_moves sid rd r s (proj1 (rc_inv _ _ _ _ Hrc)) (lookup_lt_Some _ _ _ Hlk) Hwf)
    as (next & s' & Hrun & Ht & Hq & _).
  pose proof (readStream_iter_spec [] sid rd f Hfi Hwf) as Hit. rewrite Hdata in Hit.
  destruct (frame_eq p Hok) as (enc & _ & Hfr & Hp). rewrite Hfr, <- app_assoc, Hp in Hit. cbv zeta in Hit.
  rewrite drop_app_length, bool_decide_false in Hit by (rewrite length_app; lia).
  rewrite Nat2Z.id, !take_app_length, drop_app_length in Hit. simpl in Hit.
  destruct Hit as (rd' & f' & Hit & (Hd' & _ & Hwf') & _ & Hpk & Hcap & _ & Hctx & _).
  revert Hrun. unfold flow_readFrame, deref. rewrite Hlk. bind_simpl. rewrite Hit. bind_simpl. intros [= <- <-].
  eexists rd', _. split; [done|]. split; [done|]. split; [done|]. split; [|done].
  eapply (receiver_set_rf id ps [p]); try done. by destruct (quiet_sess _ _ (rc_inv _ _ _ _ Hrc) Ht Hq).
Qed.

Lemma receiver_end id ps n sid rd r s : receiver id ps n s → flow_ref id s = Some r → rd_wf rd →
  rd_data rd = [] → ∃ s', flow_readFrame sid rd r s = Ret (None, s') ∧ received id ps n r s s'.
Proof.
  intros Hrc Href Hwf Hdata. destruct (receiver_flow _ _ _ _ _ Hrc Href) as (f & Hlk & Hfi & _).
  destruct (flow_readFrame_moves sid rd r s (proj1 (rc_inv _ _ _ _ Hrc)) (lookup_lt_Some _ _ _ Hlk) Hwf)
    as (next & s' & Hrun & Ht & Hq & _).
  pose proof (readStream_iter_spec [] sid rd f Hfi Hwf) as Hit. rewrite Hdata in Hit.
  destruct Parse_nil as [e He]. rewrite He in Hit.
  revert Hrun. unfold flow_readFrame, deref. rewrite Hlk. bind_simpl. rewrite Hit. bind_simpl. intros [= <- <-].
  eexists. split; [done|]. by eapply receiver_same.
Qed.
End receiving.

(** ** The goroutines of a session that receives one flow *)

Section goroutines.
Context `{!QuicVarint, !GoPool, !GoMapOrder} {C : Type} `{!Connection C}.

(** The steps of the receive loops and of the handlers of streams. *)
Definition goroutine (l : xlabel) : bool :=
  match l with XReceiveDatagram | XAcceptStream | XHandler _ | XTask _ => true | _ => false end.

Definition gstep (c c' : xconfig C) : Prop := ∃ l, goroutine l = true ∧ xexec l c = Some (Ret c').

(** No goroutine can go on: there is nothing to receive, and those that are left wait
    for more bytes of their streams. *)
Definition resting (c : xconfig C) : Prop := ∀ l, goroutine l = true → xexec l c = None.

(** Both receive loops run, and nothing else. *)
Definition receiving (s : Session C) : xconfig C := xinit s [LoopDatagrams; LoopUniStreams].
End goroutines.

(** Whether a goroutine can go on is decidable. *)
Section enabled.
Context `{!QuicVarint, !GoPool, !GoMapOrder} {C : Type} `{!Connection C}.
Implicit Types (c : xconfig C).

Definition goroutines c : list xlabel :=
  [XReceiveDatagram; XAcceptStream] ++ (XTask <$> seq 0 (length (xc_tasks c))) ++
  (XHandler <$> seq 0 (length (xc_handlers c))).

Lemma goroutines_enabled l c m : goroutine l = true → xexec l c = Some m → l ∈ goroutines c.
Proof.
  intros Hl He. unfold goroutines. rewrite !elem_of_app, !list_elem_of_fmap. destruct l; try done.
  - right. left. exists i. split; [done|]. cbn [xexec] in He. apply elem_of_seq. simpl.
    destruct (xc_tasks c !! i) eqn:Hi; [|done]. apply lookup_lt_Some in Hi. lia.
  - left. apply list_elem_of_here.
  - left. apply list_elem_of_further, list_elem_of_here.
  - right. right. exists i. split; [done|]. cbn [xexec] in He. apply elem_of_seq. simpl.
    destruct (xc_handlers c !! i) eqn:Hi; [|done]. apply lookup_lt_Some in Hi. lia.
Qed.

Lemma resting_or_not c : resting c ∨ ∃ l m, goroutine l = true ∧ xexec l c = Some m.
Proof.
  destruct (decide (Forall (λ l, xexec l c = None) (filter goroutine (goroutines c)))) as [Hall|Hnot].
  - left. intros l Hl. destruct (xexec l c) as [m|] eqn:He; [|done]. rewrite Forall_forall in Hall.
    rewrite <- He. apply Hall, list_elem_of_filter. split; [by rewrite Hl|]. by eapply goroutines_enabled.
  - right. apply not_Forall_Exists, Exists_exists in Hnot as (l & [Hl _]%list_elem_of_filter & Hne); [|apply _].
    destruct (xexec l c) as [m|] eqn:He; [|done]. exists l, m. split; [by apply Is_true_true|done].
Qed.
End enabled.

Section schedules.
Context `{QuicVarintLaws, !GoPool, !GoMapOrder} {C : Type} `{ConnectionLaws C}.
Implicit Types (s : Session C) (c : xconfig C).
Context (id : Z) (enc : list byte) (Hid : varint_ok id) (Henc : quicvarint_Append [] id = Ret enc).
(** The queue at the start, and the packets that arrive. *)
Context (before : list (list byte)) (goal : list (list (list byte))).

(** *** The queue while lists of packets are pending *)

Definition queueing (P : list (list (list byte))) s : Prop :=
  ∃ l, receiver id (before ++ l) (length (concat P)) s ∧ ∀ l', interleaves P l' → interleaves goal (l ++ l').

Lemma queueing_perm P P' s s' : P' ≡ₚ P → (∀ ps n, receiver id ps n s → receiver id ps n s') →
  queueing P s → queueing P' s'.
Proof.
  intros HP Hs (l & Hr & Hl). exists l. split.
  - rewrite HP. by apply Hs.
  - intros l'. rewrite HP. apply Hl.
Qed.

Lemma queueing_skip P s : queueing ([] :: P) s → queueing P s.
Proof. intros (l & Hr & Hl). exists l. split; [done|]. intros l' Hi. by apply Hl, interleaves_skip. Qed.

Lemma queueing_take p xs P s s' : (∀ ps n, receiver id ps (S n) s → receiver id (ps ++ [p]) n s') →
  queueing ((p :: xs) :: P) s → queueing (xs :: P) s'.
Proof.
  intros Hs (l & Hr & Hl). exists (l ++ [p]). split.
  - rewrite app_assoc. by apply Hs.
  - intros l' Hi. rewrite <- app_assoc. apply Hl. by eapply interleaves_cons.
Qed.

Lemma queueing_receiver P s : queueing P s → ∃ ps n, receiver id ps n s.
Proof. intros (l & Hr & _). eauto. Qed.

(** *** Where the packets are *)

Record stages := mkStages {
  sg_left : list (list byte);                                   (* datagrams that have not been received *)
  sg_cur : list (list byte);                                    (* the datagram that is being handled *)
  sg_loop : list (owner * task);                                (* the task of receiveDatagrams *)
  sg_streams : list (ReceiveStream * list (list byte));         (* streams that have not been accepted *)
  sg_handlers : list (ReceiveStream * list (list byte));        (* handlers that have not begun *)
  sg_jobs : list (task * list (list byte))                      (* tasks of handlers *)
}.

Definition sg_pending (g : stages) : list (list (list byte)) :=
  (sg_cur g ++ sg_left g) :: ((sg_jobs g).*2 ++ (sg_handlers g).*2 ++ (sg_streams g).*2).

(** An upper bound of the steps that are left. *)
Definition steps_left (g : stages) : nat :=
  2 * length (sg_left g) + length (sg_cur g) + sum_list_with (λ j, task_size j.1) (sg_jobs g) +
  sum_list_with (λ x, length (rd_data (rs_reader x.1)) + 4) (sg_handlers g) +
  sum_list_with (λ x, length (rd_data (rs_reader x.1)) + 5) (sg_streams g).

Definition loop_ok s (ts : list (owner * task)) (cur : list (list byte)) : Prop :=
  ts = [] ∧ cur = [] ∨
  ∃ p r, ts = [(ByLoop, TDeliver id (enc ++ p) r)] ∧ cur = [p] ∧ flow_ref id s = Some r.

Definition packets_ok (l : list (list byte)) : Prop := Forall (λ p, varint_ok (Z.of_nat (length p))) l.

Definition stream_carries (x : ReceiveStream * list (list byte)) : Prop :=
  rd_wf (rs_reader x.1) ∧ rd_data (rs_reader x.1) = stream_bytes enc x.2 ∧ packets_ok x.2.

(** A task of a handler, and the packets it still has to queue. *)
Definition job_ok s (j : task * list (list byte)) : Prop :=
  packets_ok j.2 ∧
  match j.1 with
  | TRegister rs r =>
      flow_ref id s = Some r ∧ rd_wf (rs_reader rs) ∧ rd_data (rs_reader rs) = concat (frame <$> j.2)
  | TReadFrame _ rd r => flow_ref id s = Some r ∧ rd_wf rd ∧ rd_data rd = concat (frame <$> j.2)
  | TUnregister _ r => flow_ref id s = Some r ∧ j.2 = []
  | _ => False
  end.

Definition by_handler (j : task * list (list byte)) : owner * task := (ByHandler, j.1).

Record at_stages (g : stages) c : Prop := {
  sg_closer : xc_closer c = None;
  sg_loops : xc_loops c = [LoopDatagrams; LoopUniStreams];
  sg_tasks : xc_tasks c ≡ₚ sg_loop g ++ (by_handler <$> sg_jobs g);
  sg_loop_ok : loop_ok (xc_sess c) (sg_loop g) (sg_cur g);
  sg_jobs_ok : Forall (job_ok (xc_sess c)) (sg_jobs g);
  sg_running : xc_handlers c ≡ₚ (sg_handlers g).*1;
  sg_handlers_ok : Forall stream_carries (sg_handlers g);
  sg_streams_ok : Forall stream_carries (sg_streams g);
  sg_conn : delivering (app enc <$> sg_left g) (sg_streams g).*1 (s_conn (xc_sess c));
  sg_queue : queueing (sg_pending g) (xc_sess c)
}.

(** The flow stays the same. *)
Definition ref_kept s s' : Prop := ∀ r, flow_ref id s = Some r → flow_ref id s' = Some r.

Lemma jobs_kept s s' js : ref_kept s s' → Forall (job_ok s) js → Forall (job_ok s') js.
Proof.
  intros Hk Hj. eapply Forall_impl; [done|]. intros [t l] [? Ht]. split; [done|]. simpl in *.
  destruct t; try done; destruct Ht; auto.
Qed.

Lemma loop_kept s s' ts cur : ref_kept s s' → loop_ok s ts cur → loop_ok s' ts cur.
Proof. intros Hk [?|(p & r & ? & ? & ?)]; [by left|right]. exists p, r. auto. Qed.

Lemma received_kept ps n r s s' : flow_ref id s = Some r → received id ps n r s s' → ref_kept s s'.
Proof. intros Hr (_ & Hr' & _) r0 Hr0. congruence. Qed.

Lemma loop_idle_stages g c : at_stages g c → sg_loop g = [] → loop_busy c = false.
Proof.
  intros Hg Hl. apply loop_busy_false; [|apply Hg]. unfold loop_idle.
  rewrite (sg_tasks g c Hg), Hl. simpl. apply Forall_fmap, Forall_true. by intros [].
Qed.

(** What a step of a goroutine does: it returns, the packets move on, and there are
    fewer steps left. *)
Definition moves_on g (m : outcome (xconfig C)) : Prop :=
  ∃ c' g', m = Ret c' ∧ at_stages g' c' ∧ steps_left g' < steps_left g.

(** A flow is looked up by a goroutine that goes on with it. *)
Lemma queueing_lookup P es s : queueing P s → ∃ r s', receiveFlow id (emit es s) = Ret (r, s') ∧
  flow_ref id s' = Some r ∧ ref_kept s s' ∧ s_conn s' = s_conn s ∧ queueing P s'.
Proof.
  intros (l & Hr & Hl). destruct (receiver_lookup id _ _ es _ Hr) as (r & s' & Hrun & Hr' & Href & Hk & Hcn).
  exists r, s'. split_and!; try done; [intros r0 Hr0; by rewrite (Hk r0 Hr0)|]. by exists l.
Qed.

Lemma queueing_conn P s cn : calls cn = calls (s_conn s) → queueing P s → queueing P (set_conn cn s).
Proof. intros Hc (l & Hr & Hl). exists l. split; [by apply receiver_conn|done]. Qed.

Lemma queueing_ctx P s : queueing P s → s_ctxDone s = false.
Proof. intros (l & Hr & _). by eapply receiver_ctx. Qed.

Lemma Parse_flow_id rest : quicvarint_Parse (enc ++ rest) = inl (id, length enc).
Proof. destruct (Append_ok _ Hid) as (e & He & _ & Hp). rewrite He in Henc. injection Henc as <-. apply Hp. Qed.

Lemma receive_advances g c m : at_stages g c → xexec XReceiveDatagram c = Some m → moves_on g m.
Proof.
  intros Hg He. pose proof Hg as [Hcl Hl Hts Hlo Hjo Hh Hho Hso Hcn Hq]. cbn [xexec] in He.
  rewrite Hl, decide_True in He by (apply list_elem_of_here).
  destruct Hlo as [[Hlp Hcur]|(p & r & Hlp & _)].
  2:{ exfalso. revert He. unfold loop_busy. destruct (existsb _ _) eqn:Hex; [done|]. exfalso. apply not_true_iff_false in Hex.
    apply Hex, existsb_exists. exists (ByLoop, TDeliver id (enc ++ p) r). split; [|done].
    apply list_elem_of_In. rewrite Hts, Hlp. apply list_elem_of_here. }
  rewrite (loop_idle_stages g c Hg Hlp) in He. clear Hg.
  unfold conn_ReceiveDatagram in He. rewrite (queueing_ctx _ _ Hq) in He.
  inversion Hcn as [ds rss cn Hnone Hsome _ _ E1 E2 E3]. subst ds rss cn.
  destruct g as [[|p left] cur lts ss hs js]; cbn [sg_left sg_cur sg_loop sg_streams sg_handlers sg_jobs] in *; subst.
  { by rewrite Hnone in He. }
  destruct (Hsome (enc ++ p) (fmap (M:=list) (app enc) left) eq_refl) as (c1 & Hrd & Hcn1). rewrite Hrd in He.
  cbn [mbind option_bind] in He. unfold begin_datagram in He. rewrite Parse_flow_id in He.
  apply (queueing_conn _ _ _ (calls_ReceiveDatagram _ _ _ _ Hrd)) in Hq.
  injection He as <-. unfold HandleDatagram_lookup. cbn [xc_sess xwith_sess]. set (es := record _ _).
  destruct (queueing_lookup _ es _ Hq) as (r & s' & -> & Href & Hk & Hcn' & Hq'). bind_simpl.
  eexists _, (mkStages left [p] [(ByLoop, TDeliver id (enc ++ p) r)] ss hs js). split; [done|].
  split; [|unfold steps_left; simpl; lia]. split; try done; simpl in *.
  - rewrite Hts. by rewrite Permutation_app_comm.
  - right. by exists p, r.
  - by eapply jobs_kept.
  - by rewrite Hcn'.
Qed.

Lemma accept_advances g c m : at_stages g c → xexec XAcceptStream c = Some m → moves_on g m.
Proof.
  intros [Hcl Hl Hts Hlo Hjo Hh Hho Hso Hcn Hq] He. cbn [xexec] in He.
  rewrite Hl, decide_True in He by (apply list_elem_of_further, list_elem_of_here).
  unfold conn_AcceptUniStream in He. rewrite (queueing_ctx _ _ Hq) in He.
  inversion Hcn as [ds rss cn _ _ Hnone Hsome E1 E2 E3]. subst ds rss cn.
  destruct g as [left cur lts [|[rs l] ss] hs js]; cbn [sg_left sg_cur sg_loop sg_streams sg_handlers sg_jobs] in *.
  { by rewrite Hnone in He. }
  destruct (Hsome rs ss.*1 eq_refl) as (c1 & Hacc & Hcn1). rewrite Hacc in He.
  cbn [mbind option_bind] in He. injection He as <-.
  apply (queueing_conn _ _ c1) in Hq; [|by destruct (calls_AcceptUniStream _ _ _ _ Hacc)].
  apply Forall_cons in Hso as [Hrs Hso].
  eexists _, (mkStages left cur lts ss (hs ++ [(rs, l)]) js). split; [done|].
  split; [|unfold steps_left; simpl; rewrite sum_list_with_app; simpl; lia]. split; try done; simpl in *.
  - by rewrite Hh, fmap_app.
  - apply Forall_app. split; [done|]. by apply Forall_singleton.
  - eapply queueing_perm; [|by intros|exact Hq]. unfold sg_pending. simpl. rewrite fmap_app. simpl. solve_Permutation.
Qed.

(** The order of handlers and tasks does not matter. *)
Lemma sum_with_perm {A} (f : A → nat) (l l' : list A) : l ≡ₚ l' → sum_list_with f l = sum_list_with f l'.
Proof. induction 1; simpl; lia. Qed.

Lemma pick_one {A B} (f : A → B) (l : list B) (xs : list A) i y : l !! i = Some y → l ≡ₚ f <$> xs →
  ∃ x xs', xs ≡ₚ x :: xs' ∧ y = f x ∧ delete i l ≡ₚ f <$> xs'.
Proof.
  intros Hi Hp. assert (y ∈ f <$> xs) as (x & -> & Hx)%list_elem_of_fmap by (rewrite <- Hp; by eapply list_elem_of_lookup_2).
  apply elem_of_Permutation in Hx as [xs' Hxs]. exists x, xs'. split_and!; try done.
  rewrite (delete_Permutation _ _ _ Hi), Hxs, fmap_cons in Hp. by apply Permutation_cons_inv in Hp.
Qed.

Lemma stages_reorder left cur lts ss hs hs' js js' c : hs ≡ₚ hs' → js ≡ₚ js' →
  at_stages (mkStages left cur lts ss hs js) c → at_stages (mkStages left cur lts ss hs' js') c ∧
  steps_left (mkStages left cur lts ss hs' js') = steps_left (mkStages left cur lts ss hs js).
Proof.
  intros Hhs Hjs [Hcl Hl Hts Hlo Hjo Hh Hho Hso Hcn Hq]. simpl in *. split.
  - split; simpl; try done.
    + by rewrite Hts, Hjs.
    + by rewrite <- Hjs.
    + by rewrite Hh, Hhs.
    + by rewrite <- Hhs.
    + eapply queueing_perm; [|by intros|exact Hq]. unfold sg_pending. simpl. by rewrite Hhs, Hjs.
  - unfold steps_left. simpl. by rewrite (sum_with_perm _ _ _ Hhs), (sum_with_perm _ _ _ Hjs).
Qed.

Lemma queueing_emit P es s : queueing P s → queueing P (emit es s).
Proof.
  intros (l & [Hinv Ho Hf Hp Hr] & Hl). exists l. split; [|done]. split; try done. by apply sess_inv_emit.
Qed.

Lemma begin_handler_advances i g c m : at_stages g c → xexec (XHandler i) c = Some m → moves_on g m.
Proof.
  intros Hg He. cbn [xexec] in He. destruct (xc_handlers c !! i) as [rs|] eqn:Hi; [|done].
  cbn [mbind option_bind] in He. destruct (handler_blocked _ rs); [done|].
  destruct g as [left cur lts ss hs js].
  destruct (pick_one fst _ hs i rs Hi (sg_running _ _ Hg)) as ([rs0 l] & hs' & Hhs & -> & Hdel).
  destruct (stages_reorder left cur lts ss hs _ js js c Hhs (reflexivity _) Hg) as [Hg' Hsteps]. clear Hg.
  destruct Hg' as [Hcl Hl Hts Hlo Hjo Hh Hho Hso Hcn Hq]. simpl in *.
  apply Forall_cons in Hho as [(Hwf & Hdata & Hpk) Hho]. simpl in *.
  destruct (quicvarint_Read (rs_reader rs0)) as [res rd'] eqn:Hread. apply Read_ok in Hread; [|done].
  rewrite Hdata in Hread. unfold stream_bytes in Hdata, Hread. case_decide as Hnil.
  - subst l. destruct Parse_nil as [err Herr]. rewrite Herr in Hread. destruct Hread as [e' ->]. injection He as <-.
    eexists _, (mkStages left cur lts ss hs' js). split; [done|].
    split; [|rewrite <- Hsteps; unfold steps_left; simpl; lia]. split; try done; simpl.
    apply queueing_emit, queueing_skip. eapply queueing_perm; [|by intros|exact Hq].
    unfold sg_pending. simpl. solve_Permutation.
  - rewrite Parse_flow_id, drop_app_length in Hread. destruct Hread as [-> (Hd & _ & Hw)]. injection He as <-.
    unfold begin_stream, HandleUniStream_lookup. set (es := record _ _).
    destruct (queueing_lookup _ es _ Hq) as (r & s' & Hrun & Href & Hk & Hcn' & Hq'). cbn [xc_sess xwith_goroutines].
    rewrite Hrun. bind_simpl.
    eexists _, (mkStages left cur lts ss hs' ((TRegister (mkReceiveStream (rs_ID rs0) rd') r, l) :: js)).
    split; [done|]. split.
    2:{ rewrite <- Hsteps. unfold steps_left. simpl. rewrite Hd, Hdata, length_app. lia. }
    split; try done; simpl.
    + rewrite Hts. simpl. solve_Permutation.
    + by eapply loop_kept.
    + apply Forall_cons. split; [by split|]. by eapply jobs_kept.
    + by rewrite Hcn'.
    + eapply queueing_perm; [|by intros|exact Hq']. unfold sg_pending. simpl. solve_Permutation.
Qed.

(** The task of [receiveDatagrams] goes on. *)
Lemma deliver_advances g c p r (T : option task → list (owner * task)) m : at_stages g c →
  sg_loop g = [(ByLoop, TDeliver id (enc ++ p) r)] → T None ≡ₚ by_handler <$> sg_jobs g →
  ('(next, s, (newS, newR, newT)) ← run_task (TDeliver id (enc ++ p) r) (xc_sess c);
   Ret (xwith_late newS newR newT (xwith_tasks (T next) (xwith_sess s c)))) = m → moves_on g m.
Proof.
  intros [Hcl Hl Hts Hlo Hjo Hh Hho Hso Hcn Hq] Hlp HT <-.
  destruct g as [left cur lts ss hs js]; cbn [sg_left sg_cur sg_loop sg_streams sg_handlers sg_jobs] in *. subst lts.
  destruct Hlo as [[? _]|(p0 & r0 & [= Hp <-] & -> & Href)]; [done|]. apply app_inv_head in Hp as <-.
  unfold sg_pending in Hq. simpl in Hq. destruct Hq as (l & Hr & Hi). cbn [run_task].
  destruct (receiver_deliver id enc _ _ p r _ Hid Henc Hr Href) as (s' & -> & Hrec). bind_simpl.
  pose proof (received_kept _ _ _ _ _ Href Hrec) as Hk. destruct Hrec as (Hr' & Href' & Hcn').
  eexists _, (mkStages left [] [] ss hs js). split; [done|]. split; [|unfold steps_left; simpl; lia].
  split; try done; simpl.
  - by left.
  - by eapply jobs_kept.
  - by rewrite Hcn'.
  - exists (l ++ [p]). rewrite app_assoc. split; [exact Hr'|]. intros l' Hl'. rewrite <- app_assoc.
    apply Hi. by eapply interleaves_cons.
Qed.

(** The task of a handler goes on: it queues the first of its packets, or none. *)
Lemma job_runs s j P : job_ok s j → queueing (j.2 :: P) s →
  ∃ next s' l', run_task j.1 s = Ret (next, s', ([], [], [])) ∧
    ref_kept s s' ∧ s_conn s' = s_conn s ∧ queueing (l' :: P) s' ∧
    match next with
    | Some t => job_ok s' (t, l') ∧ task_size t < task_size j.1
    | None => l' = [] ∧ 0 < task_size j.1
    end.
Proof.
  destruct j as [t l]. intros [Hpk Hok] (l0 & Hr & Hi). cbn [fst snd] in *. destruct t; try done; cbn [run_task].
  - destruct Hok as (Href & Hwf & Hdata).
    destruct (receiver_register id _ _ rs r s Hr Href) as (s' & -> & Hrec). bind_simpl.
    eexists _, _, l. split; [done|]. split; [by eapply received_kept|]. destruct Hrec as (Hr' & Href' & Hcn).
    split_and!; try done; [by exists l0|simpl; lia].
  - destruct Hok as (Href & Hwf & Hdata). destruct l as [|p l].
    + destruct (receiver_end id _ _ (rs_ID rs) rd r s Hr Href Hwf Hdata) as (s' & -> & Hrec). bind_simpl.
      eexists _, _, []. split; [done|]. split; [by eapply received_kept|]. destruct Hrec as (Hr' & Href' & Hcn).
      split_and!; try done; [by exists l0|simpl; lia].
    + apply Forall_cons in Hpk as [Hp Hpk]. rewrite fmap_cons, concat_cons in Hdata.
      destruct (receiver_frame id _ _ (rs_ID rs) rd p _ r s Hr Href Hwf Hp Hdata) as (rd' & s' & -> & Hwf' & Hd' & Hrec).
      bind_simpl. eexists _, _, l. split; [done|]. split; [by eapply received_kept|].
      destruct Hrec as (Hr' & Href' & Hcn). split_and!; try done.
      * exists (l0 ++ [p]). rewrite app_assoc. split; [exact Hr'|]. intros l' Hl'. rewrite <- app_assoc.
        apply Hi. by eapply interleaves_cons.
      * simpl. rewrite Hdata, Hd', length_app. pose proof (frame_nonempty p Hp). lia.
  - destruct Hok as [Href ->]. destruct (receiver_unregister id _ _ rs r s Hr Href) as (s' & -> & Hrec). bind_simpl.
    eexists _, _, []. split; [done|]. split; [by eapply received_kept|]. destruct Hrec as (Hr' & Href' & Hcn).
    split_and!; try done; [by exists l0|simpl; lia].
Qed.

Lemma job_advances left cur lts ss hs js c t l (T : option task → list (owner * task)) m :
  at_stages (mkStages left cur lts ss hs ((t, l) :: js)) c →
  (∀ next, T next ≡ₚ match next with Some t => [(ByHandler, t)] | None => [] end ++ lts ++ (by_handler <$> js)) →
  ('(next, s, (newS, newR, newT)) ← run_task t (xc_sess c);
   Ret (xwith_late newS newR newT (xwith_tasks (T next) (xwith_sess s c)))) = m →
  moves_on (mkStages left cur lts ss hs ((t, l) :: js)) m.
Proof.
  intros [Hcl Hl Hts Hlo Hjo Hh Hho Hso Hcn Hq] HT <-. simpl in *. apply Forall_cons in Hjo as [Hj Hjo].
  unfold sg_pending in Hq. simpl in Hq.
  set (P := (cur ++ left) :: (js.*2 ++ hs.*2 ++ ss.*2)).
  destruct (job_runs _ (t, l) P Hj) as (next & s' & l' & Hrun & Hk & Hcn' & Hq' & Hnext).
  { eapply queueing_perm; [|by intros|exact Hq]. unfold P. by rewrite Permutation_swap. }
  cbn [fst] in Hrun. rewrite Hrun. bind_simpl. destruct next as [t'|].
  - destruct Hnext as [Hj' Hless]. eexists _, (mkStages left cur lts ss hs ((t', l') :: js)). split; [done|].
    split; [|unfold steps_left; simpl; simpl in Hless; lia]. split; try done; simpl.
    + rewrite HT. solve_Permutation.
    + by eapply loop_kept.
    + apply Forall_cons. split; [done|]. by eapply jobs_kept.
    + by rewrite Hcn'.
    + eapply queueing_perm; [|by intros|exact Hq']. unfold P, sg_pending. simpl. by rewrite Permutation_swap.
  - destruct Hnext as [-> Hless]. eexists _, (mkStages left cur lts ss hs js). split; [done|].
    split; [|unfold steps_left; simpl; simpl in Hless; lia]. split; try done; simpl.
    + by rewrite HT.
    + by eapply loop_kept.
    + by eapply jobs_kept.
    + by rewrite Hcn'.
    + by apply queueing_skip.
Qed.

Lemma task_goes_on i g c m : at_stages g c → xexec (XTask i) c = Some m → moves_on g m.
Proof.
  intros Hg He. cbn [xexec] in He. destruct (xc_tasks c !! i) as [[who t]|] eqn:Hi; [|done].
  cbn [mbind option_bind] in He. destruct (task_blocked _ t); [done|]. injection He as He.
  pose proof (sg_tasks _ _ Hg) as Hts. pose proof (delete_Permutation _ _ _ Hi) as Hdel.
  set (T := λ next, match next with Some t => <[i := (who, t)]> (xc_tasks c) | None => delete i (xc_tasks c) end).
  assert (∀ next, T next ≡ₚ match next with Some t => [(who, t)] | None => [] end ++ delete i (xc_tasks c)) as HT.
  { intros [t'|]; simpl; [|done]. apply list_elem_of_split_length in Hi as (l1 & l2 & -> & ->).
    rewrite insert_app_r_alt, Nat.sub_diag, delete_middle by done. simpl. solve_Permutation. }
  assert ((who, t) ∈ sg_loop g ++ (by_handler <$> sg_jobs g)) as Hin by (rewrite <- Hts; by eapply list_elem_of_lookup_2).
  apply elem_of_app in Hin as [Hin|Hin].
  - destruct (sg_loop_ok _ _ Hg) as [[E _]|(p & r & E & _)]; [rewrite E in Hin; by apply not_elem_of_nil in Hin|].
    rewrite E in Hin, Hts. apply list_elem_of_singleton in Hin as [= -> ->].
    apply (deliver_advances g c p r T m Hg E); [|exact He]. rewrite HT. simpl.
    rewrite Hdel in Hts. simpl in Hts. by apply Permutation_cons_inv in Hts.
  - destruct g as [left cur lts ss hs js]. apply list_elem_of_fmap in Hin as ([t0 l] & [= -> ->] & Hin). cbn [fst] in *.
    apply elem_of_Permutation in Hin as [js' Hjs].
    destruct (stages_reorder left cur lts ss hs hs js _ c (reflexivity _) Hjs Hg) as [Hg' Hsteps].
    destruct (job_advances left cur lts ss hs js' c t0 l T m Hg') as (c' & g' & -> & Hg2 & Hless); [|exact He|].
    + intros next. rewrite HT. destruct next as [t'|]; simpl; [f_equiv|]; simpl in Hts;
        rewrite Hdel, Hjs, fmap_cons, <- Permutation_middle in Hts; by apply Permutation_cons_inv in Hts.
    + exists c', g'. split_and!; try done. by rewrite <- Hsteps.
Qed.

(** Every step of a goroutine returns, and there are fewer steps left. *)
Lemma goroutine_advances l g c m : at_stages g c → goroutine l = true → xexec l c = Some m → moves_on g m.
Proof.
  intros Hg Hl He. destruct l; try done.
  - by eapply task_goes_on.
  - by eapply receive_advances.
  - by eapply accept_advances.
  - by eapply begin_handler_advances.
Qed.

Lemma goroutines_advance k g c c' : at_stages g c → nsteps gstep k c c' →
  ∃ g', at_stages g' c' ∧ k + steps_left g' ≤ steps_left g.
Proof.
  intros Hg Hk. revert g Hg. induction Hk as [|k c1 c2 c3 (l & Hl & He) _ IH]; intros g Hg; [by exists g|].
  destruct (goroutine_advances l g c1 _ Hg Hl He) as (c' & g2 & [= <-] & Hg2 & Hless).
  destruct (IH g2 Hg2) as (g3 & Hg3 & ?). exists g3. split; [done|lia].
Qed.

Lemma goroutines_rest n g c : at_stages g c → steps_left g < n → ∃ c', rtc gstep c c' ∧ resting c'.
Proof.
  revert g c. induction n as [|n IH]; intros g c Hg Hn; [lia|].
  destruct (resting_or_not c) as [?|(l & m & Hl & He)]; [by exists c; split; [apply rtc_refl|]|].
  destruct (goroutine_advances l g c m Hg Hl He) as (c1 & g1 & -> & Hg1 & Hless).
  destruct (IH g1 c1 Hg1) as (c' & Hrun & ?); [lia|]. exists c'. split; [|done].
  eapply rtc_l; [by exists l|done].
Qed.

(** When no goroutine can go on, all packets are in the queue. *)
Lemma resting_task c i who t : resting c → xc_tasks c !! i = Some (who, t) → task_blocked (xc_sess c) t = true.
Proof.
  intros Hrest Hi. specialize (Hrest (XTask i) eq_refl). cbn [xexec] in Hrest. rewrite Hi in Hrest.
  cbn [mbind option_bind] in Hrest. by destruct (task_blocked _ t).
Qed.

Lemma resting_loop g c : at_stages g c → resting c → sg_cur g ++ sg_left g = [].
Proof.
  intros Hg Hrest. pose proof Hg as [Hcl Hl Hts Hlo _ _ _ _ Hcn Hq].
  destruct Hlo as [[Hlp ->]|(p & r & Hlp & _)].
  2:{ exfalso. assert ((ByLoop, TDeliver id (enc ++ p) r) ∈ xc_tasks c) as [i Hi]%list_elem_of_lookup
        by (rewrite Hts, Hlp; apply list_elem_of_here).
    by apply (resting_task c i _ _ Hrest) in Hi. }
  simpl. specialize (Hrest XReceiveDatagram eq_refl). cbn [xexec] in Hrest.
  rewrite Hl, decide_True, (loop_idle_stages g c Hg Hlp) in Hrest by (apply list_elem_of_here).
  unfold conn_ReceiveDatagram in Hrest. rewrite (queueing_ctx _ _ Hq) in Hrest.
  inversion Hcn as [ds rss cn _ Hsome _ _ E1 E2 E3]. subst ds rss cn. destruct (sg_left g) as [|p left]; [done|].
  destruct (Hsome (enc ++ p) (fmap (M:=list) (app enc) left) eq_refl) as (c1 & Hrd & _). rewrite Hrd in Hrest.
  cbn [mbind option_bind] in Hrest. unfold begin_datagram in Hrest. by rewrite Parse_flow_id in Hrest.
Qed.

Lemma resting_streams g c : at_stages g c → resting c → sg_streams g = [].
Proof.
  intros [Hcl Hl Hts Hlo _ _ _ _ Hcn Hq] Hrest. specialize (Hrest XAcceptStream eq_refl). cbn [xexec] in Hrest.
  rewrite Hl, decide_True in Hrest by (apply list_elem_of_further, list_elem_of_here).
  unfold conn_AcceptUniStream in Hrest. rewrite (queueing_ctx _ _ Hq) in Hrest.
  inversion Hcn as [ds rss cn _ _ _ Hsome E1 E2 E3]. subst ds rss cn.
  destruct (sg_streams g) as [|[rs l] ss]; [done|].
  destruct (Hsome rs ss.*1 eq_refl) as (c1 & Hacc & _). by rewrite Hacc in Hrest.
Qed.

Lemma resting_handlers g c : at_stages g c → resting c → Forall (λ x, x.2 = []) (sg_handlers g).
Proof.
  intros [_ _ _ _ _ Hh Hho _ _ _] Hrest. apply Forall_forall. intros [rs l] Hin. simpl.
  rewrite Forall_forall in Hho. destruct (Hho _ Hin) as (_ & Hdata & _). simpl in Hdata.
  assert (rs ∈ xc_handlers c) as [i Hi]%list_elem_of_lookup by (rewrite Hh; apply list_elem_of_fmap; by exists (rs, l)).
  specialize (Hrest (XHandler i) eq_refl). cbn [xexec] in Hrest. rewrite Hi in Hrest. cbn [mbind option_bind] in Hrest.
  destruct (handler_blocked (xc_sess c) rs) eqn:Hb; [|by destruct (quicvarint_Read _) as [[] ?]].
  unfold handler_blocked, stream_bytes in *. rewrite Hdata in Hb. case_decide; [done|]. by rewrite Parse_flow_id in Hb.
Qed.

Lemma resting_jobs g c : at_stages g c → resting c → Forall (λ j, j.2 = []) (sg_jobs g).
Proof.
  intros [_ _ Hts _ Hjo _ _ _ _ _] Hrest. apply Forall_forall. intros [t l] Hin. simpl.
  rewrite Forall_forall in Hjo. destruct (Hjo _ Hin) as [Hpk Hok]. simpl in Hpk, Hok.
  assert ((ByHandler, t) ∈ xc_tasks c) as [i Hi]%list_elem_of_lookup.
  { rewrite Hts. apply elem_of_app. right. apply list_elem_of_fmap. by exists (t, l). }
  apply (resting_task c i _ _ Hrest) in Hi. destruct t; try done. destruct Hok as (_ & _ & Hdata).
  destruct l as [|p l]; [done|]. exfalso. apply Forall_cons in Hpk as [Hp _].
  cbn [task_blocked] in Hi. apply andb_prop in Hi as [Hfr _]. apply negb_true_iff in Hfr.
  unfold frame_ready in Hfr. rewrite Hdata, fmap_cons, concat_cons in Hfr.
  destruct (frame_eq p Hp) as (e & _ & Hfe & Hparse). rewrite Hfe, <- app_assoc, Hparse, drop_app_length in Hfr.
  apply bool_decide_eq_false in Hfr. rewrite length_app in Hfr. lia.
Qed.

Lemma resting_queue g c : at_stages g c → resting c →
  ∃ l, interleaves goal l ∧ packets_for id (xc_sess c) = before ++ l.
Proof.
  intros Hg Hrest. destruct (sg_queue g c Hg) as (l & Hr & Hl). exists l. split; [|apply Hr].
  rewrite <- (app_nil_r l). apply Hl, interleaves_nil. unfold sg_pending.
  rewrite (resting_streams g c Hg Hrest). apply Forall_cons. split; [by eapply resting_loop|].
  apply Forall_app. split; [apply Forall_fmap; by eapply resting_jobs|].
  apply Forall_app. split; [apply Forall_fmap; by eapply resting_handlers|by constructor].
Qed.
End schedules.

(** The streams [rss] carry the packets of [groups], one group each. *)
Definition carries `{!QuicVarint} (enc : list byte) (rss : list ReceiveStream) (groups : list (list (list byte))) : Prop :=
  Forall2 (λ rs ps, rd_wf (rs_reader rs) ∧ rd_data (rs_reader rs) = stream_bytes enc ps) rss groups.

(** What the goroutines of a session make of datagrams with the packets [ps] and
    streams with the packets [groups]: every sequence of their steps is finite, no
    step panics, it can always be completed, and when it can go no further an
    interleaving of all the packets is in the queue. *)
Definition delivers `{!QuicVarint, !GoPool, !GoMapOrder} {C} `{!Connection C} (id : Z)
    (before : list (list byte)) (goal : list (list (list byte))) (c0 : xconfig C) : Prop :=
  ∃ bound, ∀ k c, nsteps gstep k c0 c → k ≤ bound ∧
    (∀ l m, goroutine l = true → xexec l c = Some m → returns m) ∧
    (∃ c', rtc gstep c c' ∧ resting c') ∧
    (resting c → ∃ l, interleaves goal l ∧ packets_for id (xc_sess c) = before ++ l).

Section delivery.
Context `{QuicVarintLaws, !GoPool, !GoMapOrder} {C : Type} `{ConnectionLaws C}.
Implicit Types (s : Session C).

Lemma receiving_stages id enc ps rss groups s : packets_ok (concat groups) → carries enc rss groups →
  receiver id (packets_for id s) (length (concat (ps :: groups))) s →
  delivering (app enc <$> ps) rss (s_conn s) →
  ∃ g, at_stages id enc (packets_for id s) (ps :: groups) g (receiving s).
Proof.
  intros Hok Hc Hr Hcn. exists (mkStages ps [] [] (zip rss groups) [] []).
  pose proof (Forall2_length _ _ _ Hc) as Hlen. split; simpl; try done.
  - by left.
  - apply Forall_lookup. intros i [rs l] Hi. apply lookup_zip_with_Some in Hi as (? & ? & [= -> ->] & Hrs & Hl).
    destruct (Forall2_lookup_lr _ _ _ _ _ _ Hc Hrs Hl). split_and!; try done. simpl.
    apply Forall_forall. intros p Hp. unfold packets_ok in Hok. rewrite Forall_forall in Hok. apply Hok.
    apply list_elem_of_In, in_concat. exists x0.
    split; apply list_elem_of_In; [by eapply list_elem_of_lookup_2|done].
  - by rewrite fst_zip by lia.
  - unfold queueing, sg_pending. simpl. rewrite snd_zip by lia. exists []. by rewrite app_nil_r.
Qed.

Lemma schedules_deliver id enc ps rss groups s : varint_ok id → quicvarint_Append [] id = Ret enc →
  packets_ok (concat groups) → carries enc rss groups → sess_inv s → s_closedErr s = None → flow_open s id →
  length (concat (ps :: groups)) ≤ room s id → delivering (app enc <$> ps) rss (s_conn s) →
  delivers id (packets_for id s) (ps :: groups) (receiving s).
Proof.
  intros Hid Henc Hok Hc Hinv Hop Hf Hroom Hcn.
  destruct (receiving_stages id enc ps rss groups s Hok Hc) as [g Hg]; [by split|done|].
  exists (steps_left g). intros k c Hk.
  destruct (goroutines_advance id enc Hid Henc _ _ k g _ c Hg Hk) as (g' & Hg' & Hle). split_and!; [lia| | |].
  - intros l m Hl He. destruct (goroutine_advances id enc Hid Henc _ _ l g' c m Hg' Hl He) as (c' & _ & -> & _). by exists c'.
  - exact (goroutines_rest id enc Hid Henc _ _ _ g' c Hg' (Nat.lt_succ_diag_r _)).
  - intros Hrest. by eapply resting_queue.
Qed.
End delivery.

(** ** Queues only grow *)

Section kept.
Context `{QuicVarintLaws, !GoPool, !GoMapOrder} {C : Type} `{ConnectionLaws C}.
Implicit Types (s : Session C) (r : nat).

(** Flow number [r] has lost no packet, and is not reopened. *)
Definition kept r s s' : Prop := ∀ f, s_rfs s !! r = Some f →
  ∃ f', s_rfs s' !! r = Some f' ∧ rf_packets f `prefix_of` rf_packets f' ∧
    (rf_closed f = true → rf_closed f' = true).

Lemma kept_same r s s' : s_rfs s' = s_rfs s → kept r s s'.
Proof. intros Hs f Hr. exists f. by rewrite Hs. Qed.

Lemma kept_trans r s1 s2 s3 : kept r s1 s2 → kept r s2 s3 → kept r s1 s3.
Proof.
  intros H12 H23 f (f2 & (f3 & ? & ? & ?)%H23 & ? & ?)%H12. exists f3. split; [done|].
  split; [by etrans|auto].
Qed.

Lemma kept_app r s s' new : s_rfs s' = s_rfs s ++ new → kept r s s'.
Proof. intros Hs f Hr. exists f. rewrite Hs. split; [by apply lookup_app_l_Some|done]. Qed.

Lemma kept_set_rf r s r0 f0 f0' es : s_rfs s !! r0 = Some f0 → rf_packets f0 `prefix_of` rf_packets f0' →
  (rf_closed f0 = true → rf_closed f0' = true) → kept r s (emit es (set_rf r0 f0' s)).
Proof.
  intros Hr0 Hp Hcl f Hr. simpl. destruct (decide (r = r0)) as [->|Hne].
  - rewrite list_lookup_insert_eq by (by eapply lookup_lt_Some). exists f0'.
    rewrite Hr0 in Hr. by injection Hr as <-.
  - rewrite list_lookup_insert_ne by done. by exists f.
Qed.

Lemma kept_receiveFlow r id s r0 s1 : sess_inv s → receiveFlow id s = Ret (r0, s1) → kept r s s1.
Proof.
  intros Hinv Hrun. destruct (receiveFlow_spec id s Hinv) as (r' & f & s' & Hrun' & _ & _ & _ & _ & Hcase).
  rewrite Hrun in Hrun'. injection Hrun' as <- <-.
  destruct (flow_ref id s); [subst; by apply kept_same|].
  destruct Hcase as (_ & b & es & -> & _). by eapply kept_app.
Qed.

Lemma take_prefix (ps qs : list (list byte)) n : length ps ≤ n → ps `prefix_of` take n (ps ++ qs).
Proof. intros. rewrite take_app_ge by done. by apply prefix_app_r. Qed.

Lemma rf_packets_cap f : rf_inv [] f → length (rf_packets f) ≤ pb_cap (rf_buffer f).
Proof. intros Hf. rewrite rf_packets_length. apply Hf. Qed.

Lemma kept_close r code reason s s' : sess_inv s → Session_close code reason s = Ret s' → kept r s s'.
Proof.
  intros Hinv Hrun. destruct (Session_close_inv code reason s Hinv) as (s2 & Hrun2 & _ & Hopen & Hcl).
  rewrite Hrun in Hrun2. injection Hrun2 as <-. destruct (s_closedErr s); [by rewrite Hcl; [apply kept_same|]|].
  destruct (Hopen eq_refl) as (_ & _ & _ & _ & _ & _ & _ & _ & _ & es & _ & Hreg & Hother).
  intros f Hr. destruct (smap.get (rf_id f) (s_receiveFlows s)) as [r0|] eqn:Hg.
  - destruct (decide (r0 = r)) as [->|Hne].
    + destruct (Hreg _ r f Hg Hr) as [(f' & ? & (_ & _ & Hp & Hc & _)) _]. exists f'. by rewrite Hp.
    + exists f. rewrite Hother; [done|]. intros k Hk. apply Hne.
      destruct (ti_receive s (proj1 Hinv) k r Hk) as (f2 & Hr2 & Hid). congruence.
  - exists f. rewrite Hother; [done|]. intros k Hk.
    destruct (ti_receive s (proj1 Hinv) k r Hk) as (f2 & Hr2 & Hid). congruence.
Qed.

Lemma kept_HandleDatagram r d s s' : sess_inv s → HandleDatagram d s = Ret s' → kept r s s'.
Proof.
  intros Hinv Hrun. destruct (quicvarint_Parse d) as [[id n]|e] eqn:Hp.
  2:{ unfold HandleDatagram in Hrun. rewrite Hp in Hrun. by eapply kept_close. }
  destruct (HandleDatagram_spec d s id n Hinv Hp)
    as (k & es & r0 & f & f' & s1 & _ & _ & Hrf & Hinv1 & Href & Hr0 & Hrun' & Hpush & _).
  rewrite Hrun in Hrun'. injection Hrun' as ->. apply (kept_trans _ _ (emit es s)); [by apply kept_same|].
  apply (kept_trans _ _ s1); [eapply kept_receiveFlow; [|exact Hrf]; by apply sess_inv_emit|].
  rewrite <- (emit_nil (set_rf _ _ _)). destruct Hpush as (Hpk & _ & _ & _ & _ & Hcl & _).
  eapply kept_set_rf; [exact Hr0| |by rewrite Hcl].
  rewrite Hpk. destruct (rf_closed f); [done|]. apply take_prefix, rf_packets_cap. by eapply ti_rf; [apply Hinv1|].
Qed.

Lemma kept_HandleUniStream r id rs s b s' : sess_inv s → rd_wf (rs_reader rs) →
  HandleUniStreamWithFlowID id rs s = Ret (b, s') → kept r s s'.
Proof.
  intros Hinv Hwf Hrun. destruct (HandleUniStream_spec id rs s Hinv Hwf)
    as (es & r0 & f & f' & s1 & es1 & Hrf & Hinv1 & Href & Hr0 & Hrun' & Hrs & _ & Hcl & _).
  rewrite Hrun in Hrun'. injection Hrun' as -> ->. apply (kept_trans _ _ (emit es s)); [by apply kept_same|].
  apply (kept_trans _ _ s1); [eapply kept_receiveFlow; [|exact Hrf]; by apply sess_inv_emit|].
  eapply kept_set_rf; [exact Hr0| |by rewrite Hcl].
  assert (rf_inv [] f) as Hfi by (by eapply ti_rf; [apply Hinv1|]).
  destruct (rf_ctxDone f) eqn:Hd.
  { rewrite readStream_closed in Hrs by done. by injection Hrs as <- _. }
  destruct (readStream_open [] rs f Hfi Hd Hwf) as (f2 & es2 & Hrs2 & _ & _ & Hp & _).
  rewrite Hrs in Hrs2. injection Hrs2 as <- _. rewrite Hp. by apply take_prefix, rf_packets_cap.
Qed.

Lemma kept_handleUniStream r rs s b s' : sess_inv s → rd_wf (rs_reader rs) →
  handleUniStream rs s = Ret (b, s') → kept r s s'.
Proof.
  intros Hinv Hwf. unfold handleUniStream.
  destruct (quicvarint_Read (rs_reader rs)) as [res r'] eqn:Hr. apply Read_ok in Hr; [|done].
  destruct (quicvarint_Parse _) as [[v n]|e].
  - destruct Hr as [-> (_ & _ & Hwf')]. by apply kept_HandleUniStream.
  - destruct Hr as [e' ->]. intros [= <- <-]. by apply kept_same.
Qed.

Lemma kept_NewReceiveFlow r id s res s' : sess_inv s → NewReceiveFlow id s = Ret (res, s') → kept r s s'.
Proof.
  intros Hinv Hrun. destruct (NewReceiveFlow_spec id s Hinv) as (res2 & s2 & Hrun2 & _ & Hcase).
  rewrite Hrun in Hrun2. injection Hrun2 as <- <-.
  destruct (s_closedErr s); [destruct Hcase as [_ ->]; by apply kept_same|].
  destruct (smap.get id _); [destruct Hcase as [_ ->]; by apply kept_same|].
  destruct Hcase as (r0 & new & f & _ & _ & _ & Hfs & _). by eapply kept_app.
Qed.

(** The flow [NewReceiveFlow] returns has the queue for its ID. *)
Lemma NewReceiveFlow_lookup id s r s' : sess_inv s → NewReceiveFlow id s = Ret (inl r, s') →
  ∃ f, s_rfs s' !! r = Some f ∧ packets_for id s' = rf_packets f.
Proof.
  intros Hinv Hrun. destruct (NewReceiveFlow_spec id s Hinv) as (res & s1 & Hrun' & _ & Hcase).
  rewrite Hrun in Hrun'. injection Hrun' as <- <-.
  destruct (s_closedErr s); [by destruct Hcase|].
  destruct (smap.get id (s_receiveFlows s)); [by destruct Hcase|].
  destruct Hcase as (r2 & new & f & [= <-] & Hm & _ & _ & Hr & _). exists f. split; [done|].
  unfold packets_for, flow_for, flow_ref. rewrite Hm, smap.get_set, decide_True by done. simpl. by rewrite Hr.
Qed.

Lemma kept_closeReceiveFlow r r0 s err s' : sess_inv s → closeReceiveFlow r0 s = Ret (err, s') → kept r s s'.
Proof.
  intros [Ht _] Hrun. assert (∃ f, s_rfs s !! r0 = Some f) as [f Hr0].
  { unfold closeReceiveFlow, deref in Hrun. destruct (s_rfs s !! r0); [eauto|done]. }
  destruct (closeReceiveFlow_spec r0 f s Ht Hr0) as (f' & es & Hrun' & (_ & _ & Hp & Hcl & _) & _).
  rewrite Hrun in Hrun'. injection Hrun' as _ ->. eapply kept_set_rf; [done| |done]. by rewrite Hp.
Qed.

Lemma kept_app_SetReadDeadline r r0 t now s s' : app_SetReadDeadline r0 t now s = Ret s' → kept r s s'.
Proof.
  unfold app_SetReadDeadline, deref, ReceiveFlow_SetReadDeadline.
  destruct (s_rfs s !! r0) as [f|] eqn:Hr0; [|done]. simpl.
  destruct (SetReadDeadline t now (rf_deadline f)) as [d|]; [|done]. simpl. intros [= <-].
  rewrite <- (emit_nil (set_rf _ _ _)). by eapply kept_set_rf.
Qed.

Lemma kept_run_op r o s s' : sess_inv s → op_ok o s = true →
  match o with ORead r0 _ _ => r0 ≠ r | _ => True end → run_op o s = Ret s' → kept r s s'.
Proof.
  intros Hinv Hok Hne Hrun. pose proof (send_ops_rfs o s s' Hrun) as Hrfs.
  destruct o as [id|id|r0 p|r0 p i|r0 p|r0|r0 code|r0|r0 pr buf|r0 t now|r0|d|id rs];
    try (by apply kept_same); simpl in Hrun, Hok.
  - destruct (NewReceiveFlow id s) as [[res s1]|] eqn:Hn; [|done]. injection Hrun as <-.
    by eapply kept_NewReceiveFlow.
  - unfold app_Read in Hrun. destruct (deref (s_rfs s) r0) as [f|]; [|done].
    cbn [mbind outcome_bind fmap outcome_fmap option_bind] in Hrun.
    destruct (ReceiveFlow.Read 1 pr buf f) as [[res f']|]; injection Hrun as <-; [|by apply kept_same].
    intros f2 Hr. exists f2. simpl. by rewrite list_lookup_insert_ne.
  - by eapply kept_app_SetReadDeadline.
  - destruct (closeReceiveFlow r0 s) as [[err s1]|] eqn:Hc; [|done]. injection Hrun as <-.
    by eapply kept_closeReceiveFlow.
  - by eapply kept_HandleDatagram.
  - destruct (HandleUniStreamWithFlowID id rs s) as [[b s1]|] eqn:Hh; [|done]. injection Hrun as <-.
    apply andb_prop in Hok as [Hok _].
    eapply kept_HandleUniStream; [done| |done]. by apply rd_wf_bool.
Qed.

(** A step of the session that does not read the flow. *)
Lemma kept_sexec r l (c c' : sconfig C) : sc_inv c →
  match l with LOp (ORead r0 _ _) => r0 ≠ r | _ => True end →
  sexec l c = Some (Ret c') → kept r (sc_sess c) (sc_sess c').
Proof.
  destruct c as [s loops hs n ret]. intros Hc Hne He. pose proof (ci_sess _ Hc) as Hinv. simpl in Hinv.
  destruct l; cbn [sexec] in He.
  - destruct (op_ok o s) eqn:Hok; [|done]. destruct (run_op o s) as [s1|] eqn:Hrun; [|done].
    injection He as <-. by eapply kept_run_op.
  - injection He as <-. by apply kept_same.
  - case_decide; [|done]. destruct (conn_ReceiveDatagram s) as [[res s1]|] eqn:Hr; [|done].
    cbn [mbind option_bind] in He. assert (kept r s s1 ∧ sess_inv s1) as [Hk1 Hinv1].
    { split; [|by destruct (conn_ReceiveDatagram_moves s res s1 (proj1 Hinv) Hr); eapply quiet_sess].
      revert Hr. unfold conn_ReceiveDatagram. destruct (ReceiveDatagram _ _) as [[]|]; [|done].
      intros [= <- <-]. by apply kept_same. }
    destruct res as [d|err]; [|by injection He as <-].
    destruct (HandleDatagram d s1) as [s2|] eqn:Hrun; [|done]. injection He as <-.
    eapply kept_trans; [done|]. by eapply kept_HandleDatagram.
  - case_decide; [|done]. unfold conn_AcceptUniStream in He. destruct (AcceptUniStream _ _) as [[res c1]|]; [|done].
    injection He as <-. destruct res; by apply kept_same.
  - destruct (hs !! i) as [rs|] eqn:Hi; [|done]. cbn [mbind option_bind] in He. destruct (Read_waits _ _); [done|].
    destruct (handleUniStream rs s) as [[b s1]|] eqn:Hrun; [|done].
    injection He as <-. eapply kept_handleUniStream; [done| |done].
    pose proof (ci_handlers _ Hc) as Hh. exact (Forall_lookup_1 _ _ _ _ Hh Hi).
  - destruct (Session_close _ _ s) as [s1|] eqn:Hrun; [|done]. injection He as <-. by eapply kept_close.
  - destruct n, loops, hs; try done. unfold Close_finish in He.
    destruct (s_qlogClosed s), (s_qlog s); injection He as <-; by apply kept_same.
Qed.
End kept.
