(* ===== verification/Media.v ===== *)
(** * The interfaces of the media packages the example programs use

    The programs under examples/ connect the library to pion's packages rtp,
    jitterbuffer, ivfreader, ivfwriter and h264writer, which are not part of this
    repository. Each class lists the operations the programs call; the laws are what
    they rely on. [FrameReader] and [rtpWriter] are interfaces of the programs
    themselves. *)

From S2P Require Import Prelude GoErrors Varint.

(** [rtp.Packet] with [Marshal] and [Unmarshal]. *)
Class RTP (Pkt : Type) := {
  Marshal : Pkt → list byte + goerror;
  Unmarshal : list byte → Pkt + goerror
}.

(** No slice is so long that its length does not fit into 62 bits. *)
Class RTPLaws (Pkt : Type) `{!RTP Pkt} : Prop := {
  Marshal_len p buf : Marshal p = inl buf → varint_ok (Z.of_nat (length buf))
}.

(** [rtp.Packetizer]: the packets of a frame, and the state for the next one. *)
Class Packetizer (Pkt P : Type) := {
  Packetize : list byte → Z → P → list Pkt * P
}.

(** [FrameReader] of sender.go. *)
Class FrameReader (R : Type) := {
  FrameReader_Read : R → (list byte * option goerror) * R
}.

(** [io.WriteCloser] *)
Class WriteCloser (W : Type) := {
  Writer_Write : list byte → W → (Z * option goerror) * W;
  Writer_Close : W → option goerror * W
}.

(** [rtpWriter] of file_writer.go, which ivfwriter and h264writer implement. *)
Class RTPWriter (Pkt W : Type) := {
  WriteRTP : Pkt → W → option goerror * W;
  RTPWriter_Close : W → option goerror * W
}.

(** [jitterbuffer.JitterBuffer]: [Pop] may return a nil packet without an error. *)
Class JitterBuffer (Pkt J : Type) := {
  JB_New : J;
  JB_Push : Pkt → J → J;
  JB_Pop : J → (option Pkt + goerror) * J
}.

(** A [Pop] that succeeds takes one of finitely many packets out of the buffer. *)
Class JitterBufferLaws (Pkt J : Type) `{!JitterBuffer Pkt J} := {
  JB_held : J → nat;
  JB_Pop_held j p j' : JB_Pop j = (inl p, j') → JB_held j' < JB_held j
}.

(** ** Reading frames *)

(** Successive reads return [frames] and then the error [err]. *)
Inductive reads {R : Type} `{!FrameReader R} : R → list (list byte) → goerror → R → Prop :=
  | reads_end rd frame err rd' :
      FrameReader_Read rd = ((frame, Some err), rd') → reads rd [] err rd'
  | reads_frame rd frame rd1 frames err rd' :
      FrameReader_Read rd = ((frame, None), rd1) → reads rd1 frames err rd' →
      reads rd (frame :: frames) err rd'.

(** The packets of successive frames. *)
Fixpoint packetize_all {Pkt P : Type} `{!Packetizer Pkt P} (frames : list (list byte)) (pk : P)
    : list (list Pkt) :=
  match frames with
  | [] => []
  | frame :: frames =>
      let '(packets, pk) := Packetize frame 1 pk in packets :: packetize_all frames pk
  end.

(** The bytes of a packet that can be marshalled. *)
Definition marshalled {Pkt : Type} `{!RTP Pkt} (p : Pkt) : list byte :=
  match Marshal p with inl buf => buf | inr _ => [] end.

(** ** Concrete instances for runs *)

(** A reader of frames from a list. *)
Record frameList := mkFrames { fl_frames : list (list byte); fl_err : goerror }.

#[export] Instance frameList_reader : FrameReader frameList := {|
  FrameReader_Read l := match fl_frames l with
                        | [] => (([], Some (fl_err l)), l)
                        | frame :: frames => ((frame, None), mkFrames frames (fl_err l))
                        end
|}.

Lemma frameList_reads frames err :
  reads (mkFrames frames err) frames err (mkFrames [] err).
Proof. induction frames; econstructor; simpl; done. Qed.

(** Packets with a sequence number of one byte ahead of the payload. *)
Record samplePacket := mkSample { sp_seq : byte; sp_payload : list byte }.

#[export] Instance sample_rtp : RTP samplePacket := {|
  Marshal p := if decide (Z.of_nat (length (sp_payload p)) < 65535)%Z then inl (sp_seq p :: sp_payload p)
               else inr (EOther "packet too large");
  Unmarshal buf := match buf with
                   | seq :: payload => inl (mkSample seq payload)
                   | [] => inr ErrUnexpectedEOF
                   end
|}.

#[export] Instance sample_rtp_laws : RTPLaws samplePacket.
Proof.
  split. intros p buf. simpl. case_decide as Hl; [|done]. intros [= <-].
  unfold varint_ok. simpl length. lia.
Qed.

(** A packetizer that makes a packet of every two bytes. *)
Fixpoint sample_packets (seq : Z) (frame : list byte) : list samplePacket * Z :=
  match frame with
  | [] => ([], seq)
  | [b] => ([mkSample (byte_of seq) [b]], seq + 1)%Z
  | b1 :: b2 :: frame =>
      let '(ps, next) := sample_packets (seq + 1) frame in
      (mkSample (byte_of seq) [b1; b2] :: ps, next)
  end.

#[export] Instance sample_packetizer : Packetizer samplePacket Z := {|
  Packetize frame _ seq := sample_packets seq frame
|}.
