(* ===== verification/InteropSender.v ===== *)
(** * examples/interop: sending a video

    sender.go and ivf_frame_reader.go. [send] reads frames, packetizes them and sends
    the packets in one of three modes: each as a datagram, each frame on a stream of
    its own, or all on a single stream. The loop has fuel; it is shown to return once
    the reader reports an error. A deferred call runs where the function returns,
    last one first.

    The calls of [send] on the session are those of Session.v, with nothing else
    running on the session between them; what other goroutines do to a session is in
    SessionSteps.v. *)

From S2P Require Import Prelude GoErrors IO Varint QlogEvent Qlogger Options SyncMap Connection.
From S2P Require Import RTPSendStream SendFlow PacketBuffer Deadline ReceiveFlow ReadStream.
From S2P Require Import ReceiveFlowBuffer Session SessionSpec SessionMoves SessionSteps SessionConcurrent.
From S2P Require Import SessionRaces EndToEnd Delivery Media.

(** ** sender.go *)

(** [type mode int]: any integer of the command line. *)
Definition mode := Z.
Definition datagramMode : mode := 0%Z.
Definition streamPerFrameMode : mode := 1%Z.
Definition singleStreamMode : mode := 2%Z.

Record sender (C : Type) := mkSender { snd_session : Session C }.
Arguments mkSender {C} _.
Arguments snd_session {C} _.

Definition newSender {C} (conn : option C) (connTrace : option (option Trace))
    : (sender C * list loop) + goerror :=
  match NewSession conn connTrace true [] with
  | inr err => inr err
  | inl (session, loops) => inl (mkSender session, loops)
  end.

Section sender.
Context `{!QuicVarint, !GoPool, !GoMapOrder} {C : Type} `{!Connection C}.
Context {Pkt P R : Type} `{!RTP Pkt, !Packetizer Pkt P, !FrameReader R}.
Implicit Types (s : Session C).

Fixpoint sendDatagrams (flow : nat) (packets : list Pkt) s : outcome (option goerror * Session C) :=
  match packets with
  | [] => Ret (None, s)
  | pkt :: packets =>
      match Marshal pkt with
      | inr err => Ret (Some err, s)
      | inl buf =>
          '(err, s) ← app_WriteDatagram flow buf s;
          match err with
          | Some err => Ret (Some err, s)
          | None => sendDatagrams flow packets s
          end
      end
  end.

(** A nil stream is dereferenced by its first write. *)
Fixpoint sendStream (stream : option nat) (packets : list Pkt) s
    : outcome (option goerror * Session C) :=
  match packets with
  | [] => Ret (None, s)
  | pkt :: packets =>
      match Marshal pkt with
      | inr err => Ret (Some err, s)
      | inl buf =>
          '((_, err), s) ← match stream with
                           | Some st => app_WriteStream st buf s
                           | None => Panic PanicNilDereference
                           end;
          match err with
          | Some err => Ret (Some err, s)
          | None => sendStream stream packets s
          end
      end
  end.

(** The [switch] of [send]: a mode that is none of the three sends nothing. *)
Definition send_packets (sendMode : mode) (flow : nat) (singleStream : option nat)
    (packets : list Pkt) s : outcome (option goerror * Session C) :=
  if decide (sendMode = datagramMode) then sendDatagrams flow packets s
  else if decide (sendMode = streamPerFrameMode) then
    '(res, s) ← app_NewSendStream flow 0 false s;
    match res with
    | inr err => Ret (Some err, s)
    | inl stream =>
        '(err, s) ← sendStream (Some stream) packets s;
        match err with
        | Some err => Ret (Some err, s)
        | None => app_CloseStream stream s
        end
    end
  else if decide (sendMode = singleStreamMode) then sendStream singleStream packets s
  else Ret (None, s).

(** The loop of [send]; the result is [None] as long as it runs. *)
Fixpoint send_loop (fuel : nat) (sendMode : mode) (flow : nat) (singleStream : option nat)
    (reader : R) (packetizer : P) s : outcome (option (option goerror) * R * P * Session C) :=
  match fuel with
  | 0 => Ret (None, reader, packetizer, s)
  | S fuel =>
      let '((frame, err), reader) := FrameReader_Read reader in
      match err with
      | Some err =>
          if is_EOF err then Ret (Some None, reader, packetizer, s)
          else Ret (Some (Some err), reader, packetizer, s)
      | None =>
          let '(packets, packetizer) := Packetize frame 1 packetizer in
          '(err, s) ← send_packets sendMode flow singleStream packets s;
          match err with
          | Some err => Ret (Some (Some err), reader, packetizer, s)
          | None => send_loop fuel sendMode flow singleStream reader packetizer s
          end
      end
  end.

(** The calls deferred by [send]: the flow, and then the single stream. *)
Definition send_deferred (flow : nat) (singleStream : option nat) s : outcome (Session C) :=
  '(_, s) ← closeSendFlow flow s;
  match singleStream with
  | Some st => '(_, s) ← app_CloseStream st s; Ret s
  | None => Ret s
  end.

Definition send (fuel : nat) (flowID : Z) (reader : R) (packetizer : P) (sendMode : mode)
    (snd : sender C) : outcome (option (option goerror) * R * P * sender C) :=
  '(res, s) ← NewSendFlow flowID (snd_session snd);
  match res with
  | inr err => Ret (Some (Some err), reader, packetizer, mkSender s)
  | inl flow =>
      '(res, s) ← (if decide (sendMode = singleStreamMode) then
                     '(res, s) ← app_NewSendStream flow 0 false s;
                     Ret (match res with inl st => inl (Some st) | inr err => inr err end, s)
                   else Ret (inl None, s));
      match res with
      | inr err => Ret (Some (Some err), reader, packetizer, mkSender s)
      | inl singleStream =>
          '(done, reader, packetizer, s) ←
            send_loop fuel sendMode flow singleStream reader packetizer s;
          match done with
          | None => Ret (None, reader, packetizer, mkSender s)
          | Some err =>
              s ← send_deferred flow singleStream s;
              Ret (Some err, reader, packetizer, mkSender s)
          end
      end
  end.

(** [Close], once the goroutines of the session have returned. *)
Definition sender_Close (snd : sender C) : outcome (option goerror * sender C) :=
  '(err, s) ← Session_Close (snd_session snd); Ret (err, mkSender s).
End sender.

(** ** ivf_frame_reader.go *)

(** [ivfreader]: the header of a file, and the frames after it. *)
Class IVFReader (V : Type) := {
  ParseNextFrame : V → (list byte * option goerror) * V
}.
Class IVFFile (IO H V : Type) := {
  ivfreader_NewWith : IO → (V * H) + goerror
}.

Record ivfFrameReader (H V : Type) := mkIVFFrameReader { ivf_header : H; ivf_reader : V }.
Arguments mkIVFFrameReader {H V} _ _.
Arguments ivf_header {H V} _.
Arguments ivf_reader {H V} _.

Definition newIVFFrameReader {IO H V : Type} `{!IVFFile IO H V} (r : IO)
    : ivfFrameReader H V + goerror :=
  match ivfreader_NewWith r with
  | inr err => inr err
  | inl (ivf, header) => inl (mkIVFFrameReader header ivf)
  end.

Definition ivfFrameReader_Read {H V : Type} `{!IVFReader V} (r : ivfFrameReader H V)
    : (list byte * option goerror) * ivfFrameReader H V :=
  let '((frame, err), ivf) := ParseNextFrame (ivf_reader r) in
  ((frame, err), mkIVFFrameReader (ivf_header r) ivf).

#[export] Instance ivf_FrameReader {H V : Type} `{!IVFReader V} : FrameReader (ivfFrameReader H V) :=
  {| FrameReader_Read := ivfFrameReader_Read |}.

(** ** What [send] does *)

Section correctness.
Context `{QuicVarintLaws, !GoPool, !GoMapOrder} {C : Type} `{ConnectionLaws C}.
Context {Pkt P R : Type} `{RTPLaws Pkt, !Packetizer Pkt P, !FrameReader R}.
Implicit Types (s : Session C).

(** The flow [send] created is in use. [base] is the log of the connection when it
    was created: the streams opened since are those of the flow. [n] streams existed
    at some earlier point. *)
Record sending (id : Z) (enc : list byte) (flow : nat) (base : list call) (n : nat) s : Prop := {
  sd_inv : sess_inv s;
  sd_reg : smap.get id (s_sendFlows s) = Some flow;
  sd_enc : quicvarint_Append [] id = Ret enc;
  sd_opened f : s_sfs s !! flow = Some f →
    opened (calls (s_conn s)) = opened base ++ sf_handles f (s_streams s);
  sd_len : n ≤ length (s_streams s)
}.

Lemma sending_flow id enc flow base n s : sending id enc flow base n s →
  ∃ f, s_sfs s !! flow = Some f ∧ sf_id f = id ∧ sf_closedErr f = None ∧ sf_flowID f = enc ∧
    varint_ok id ∧ sf_inv (s_streams s) f.
Proof.
  intros [[Ht Hst] Hreg Henc _ _]. destruct (ti_send s Ht _ _ Hreg) as (f & Hf & Hid & Ho).
  pose proof (ti_sf _ _ _ Ht Hf) as Hfi. exists f. split_and!; try done.
  - destruct Hfi as (Ha & _). rewrite Hid in Ha. congruence.
  - destruct Hfi as (_ & ? & _). by rewrite <- Hid.
Qed.

Lemma streams_grow_length ss ss' : streams_grow ss ss' → length ss ≤ length ss'.
Proof.
  intros Hg. destruct (decide (length ss' < length ss)) as [Hlt|]; [|lia].
  apply lookup_lt_is_Some_2 in Hlt as [st (st' & Hst & _)%Hg]. apply lookup_lt_Some in Hst. lia.
Qed.

Lemma sf_handles_grow f ss ss' : sf_inv ss f → streams_grow ss ss' →
  sf_handles f ss' = sf_handles f ss.
Proof.
  intros (_ & _ & Hs) Hg. unfold sf_handles.
  induction Hs as [|r refs (st & Hr & _) _ IH]; simpl; [done|].
  destruct (Hg r st Hr) as (st' & -> & Hsame & _). rewrite Hr. simpl. rewrite Hsame. by f_equal.
Qed.

(** The calls in [ks] send no datagram and open no stream. *)
Definition plain (ks : list call) : Prop := datagrams ks = [] ∧ opened ks = [].

Lemma plain_writes h ks : stream_writes h ks → plain ks ∧ ∀ h', h' ≠ h → wire h' ks = [].
Proof.
  induction 1 as [|k ks (p & n & ->) _ [[IH1 IH2] IH3]]; [done|]. split; [done|].
  intros h' Hh. unfold wire in *. simpl. rewrite IH3 by done. by rewrite decide_False.
Qed.

Lemma plain_closes hs : plain (CClose <$> hs) ∧ ∀ h, wire h (CClose <$> hs) = [].
Proof. unfold plain. by induction hs as [|h hs [[? ?] ?]]. Qed.

(** A step that only makes calls on the streams of the flow. *)
Lemma sending_plain id enc flow base n s s' ks : sending id enc flow base n s → sess_inv s' →
  s_sendFlows s' = s_sendFlows s → s_sfs s' = s_sfs s → streams_grow (s_streams s) (s_streams s') →
  calls (s_conn s') = calls (s_conn s) ++ ks → opened ks = [] → sending id enc flow base n s'.
Proof.
  intros Hs Hinv Hm Hf Hg Hc Hk. destruct (sending_flow _ _ _ _ _ _ Hs) as (f & Hr & _ & _ & _ & _ & Hfi).
  destruct Hs as [_ Hreg Henc Hop Hn]. split; [done|by rewrite Hm|done| |].
  2:{ by etrans; [|apply streams_grow_length]. }
  rewrite Hf. intros f' Hr'. rewrite Hr in Hr'. injection Hr' as <-.
  rewrite Hc, opened_app, Hk, app_nil_r, (Hop f Hr). by rewrite (sf_handles_grow f _ _ Hfi Hg).
Qed.

Lemma app_WriteDatagram_sending id enc flow base n buf s : sending id enc flow base n s →
  ∃ err s', app_WriteDatagram flow buf s = Ret (err, s') ∧ sending id enc flow base n s' ∧
    calls (s_conn s') = calls (s_conn s) ++ [CSendDatagram (enc ++ buf)].
Proof.
  intros Hs. destruct (sending_flow _ _ _ _ _ _ Hs) as (f & Hr & _ & Ho & Henc & _).
  destruct (app_WriteDatagram_inv flow buf s) as (err & s' & Hrun & Hinv' & _);
    [apply Hs|by eapply lookup_lt_Some|]. exists err, s'. split; [done|]. revert Hrun.
  unfold app_WriteDatagram, deref, SendFlow_WriteRTPBytes, WriteRTPBytes_send, isClosed. rewrite Hr. simpl. rewrite Ho, Henc.
  destruct (SendDatagram _ _) as [e c'] eqn:Hd. apply calls_SendDatagram in Hd. simpl.
  intros [= <- <-]. split; [|done]. eapply sending_plain; try done. simpl. apply streams_grow_refl.
Qed.

(** Stream number [st] is [h], and has put [ps] on the wire, behind [w]. *)
Definition carrying (enc : list byte) (st h : nat) (w : list byte) (ps : list (list byte)) s : Prop :=
  ∃ x, s_streams s !! st = Some x ∧ stream x = h ∧ flowIDBytes x = enc ∧ pending x = [] ∧
    sentFlowID x = bool_decide (ps ≠ []) ∧ wire h (calls (s_conn s)) = w ++ stream_bytes enc ps.

Lemma app_WriteStream_sending id enc flow base n st h w ps buf s : sending id enc flow base n s →
  carrying enc st h w ps s → varint_ok (Z.of_nat (length buf)) →
  ∃ k err s' ks, app_WriteStream st buf s = Ret ((k, err), s') ∧ sending id enc flow base n s' ∧
    calls (s_conn s') = calls (s_conn s) ++ ks ∧ stream_writes h ks ∧
    (err = None → carrying enc st h w (ps ++ [buf]) s').
Proof.
  intros Hs (x & Hx & Hh & Hb & Hp & Hsent & Hw) Hl.
  destruct (app_WriteStream_inv st buf s) as ([k err] & s' & Hrun & Hinv' & _);
    [apply Hs|by eapply lookup_lt_Some|done|]. exists k, err, s'. revert Hrun.
  unfold app_WriteStream, deref. rewrite Hx. simpl.
  destruct (WriteRTPBytes_framed buf x (s_conn s) Hl Hp) as (res & x' & c' & evs & Hrun & Hsame & _ & Hf).
  rewrite Hrun. simpl. apply WriteRTPBytes_calls in Hrun as (ks & Hc & Hks). rewrite Hh in Hks.
  intros [= -> <-]. destruct (plain_writes _ _ Hks) as [[_ ?] _].
  assert (streams_grow (s_streams s) (<[st := x']> (s_streams s))) by (by eapply streams_grow_insert).
  exists ks. split; [done|]. split; [by eapply sending_plain|]. split; [done|]. split; [done|].
  intros ->. destruct Hsame as (Hst & _ & Hfb & _). destruct Hf as (Hsb & Hsf & Hnone & _).
  destruct (Hnone eq_refl) as [Hp' _]. exists x'. simpl.
  rewrite list_lookup_insert_eq by (by eapply lookup_lt_Some). split_and!; try done; try congruence.
  - rewrite Hsf. by rewrite bool_decide_true by (by destruct ps).
  - unfold sent_bytes in Hsb. rewrite Hp', Hp, !app_nil_r, Hst, Hh, Hw in Hsb. rewrite Hsb, stream_bytes_snoc, <- app_assoc.
    unfold flow_prefix. rewrite Hsent, Hb. by destruct ps.
Qed.

Lemma app_NewSendStream_sending id enc flow base n s : sending id enc flow base n s →
  ∃ res s' ks, app_NewSendStream flow 0 false s = Ret (res, s') ∧ sending id enc flow base n s' ∧
    calls (s_conn s') = calls (s_conn s) ++ ks ∧ datagrams ks = [] ∧ (∀ h, wire h ks = []) ∧
    match res with
    | inr _ => opened ks = []
    | inl st => ∃ h ks2, ks = COpenUniStream (Some h) :: ks2 ∧ opened ks = [h] ∧
        carrying enc st h (wire h (calls (s_conn s))) [] s'
    end.
Proof.
  intros Hs. destruct (sending_flow _ _ _ _ _ _ Hs) as (f & Hr & Hid & Ho & Henc & _ & Hfi).
  destruct (app_NewSendStream_inv flow 0 false s) as (res & s' & Hrun & Hinv' & _);
    [apply Hs|by eapply lookup_lt_Some|]. revert Hrun.
  unfold app_NewSendStream, deref, NewSendStream, NewSendStream_open, NewSendStream_append, isClosed.
  rewrite Hr. simpl. rewrite Ho.
  destruct (OpenUniStreamSync (s_conn s)) as [[h|e] c1] eqn:Hopen; apply calls_Open in Hopen.
  2:{ intros [= <- <-]. eexists _, _, [COpenUniStream None]. split; [done|].
      split; [|by split_and!]. eapply sending_plain; try done; simpl; [|apply streams_grow_refl].
      by rewrite list_insert_id. }
  set (x := mkRTPSendStream h (sf_id f) (sf_flowID f) (sf_qlog f) false [] []).
  set (f' := set_sf_streams (sf_streams f ++ [length (s_streams s)]) f).
  destruct (if is_PrioritySendStream h then _ else _) as [c2 log] eqn:Hprio. simpl.
  assert (∃ ks2, calls c2 = calls (s_conn s) ++ COpenUniStream (Some h) :: ks2 ∧ plain ks2 ∧
    ∀ h', wire h' ks2 = []) as (ks2 & Hc2 & [Hp1 Hp2] & Hw2).
  { destruct (is_PrioritySendStream h) eqn:Hpr; injection Hprio as <- <-.
    - rewrite calls_SetIncremental, calls_SetPriority, Hopen, <- !app_assoc by done. simpl. by eexists.
    - rewrite Hopen. by exists []. }
  intros [= <- <-]. eexists _, _, (COpenUniStream (Some h) :: ks2). split; [done|].
  assert (opened (COpenUniStream (Some h) :: ks2) = [h]) as Hoh 
    by (change (h :: opened ks2 = [h]); by rewrite Hp2).
  split; [|split_and!; try done].
  - destruct Hs as [_ Hreg Henc' Hop Hn]. split; [done..| |]; simpl; [|rewrite length_app; lia].
    rewrite list_lookup_insert_eq by (by eapply lookup_lt_Some). intros ? [= <-].
    rewrite Hc2, opened_app, Hoh, (Hop f Hr), <- app_assoc. f_equal. unfold sf_handles. simpl.
    rewrite omap_app. simpl. rewrite lookup_app_r, Nat.sub_diag by done. simpl. f_equal.
    symmetry. apply (sf_handles_grow f); [done|]. by apply streams_grow_prefix, prefix_app_r.
  - exists h, ks2. split_and!; try done. exists x. simpl.
    rewrite lookup_app_r, Nat.sub_diag by done. split_and!; try done.
    rewrite Hc2, wire_app. unfold wire at 2. simpl. fold (wire h ks2). by rewrite Hw2.
Qed.

Lemma app_CloseStream_sending id enc flow base n st s : sending id enc flow base n s →
  st < length (s_streams s) →
  ∃ err s' h, app_CloseStream st s = Ret (err, s') ∧ sending id enc flow base n s' ∧
    calls (s_conn s') = calls (s_conn s) ++ [CClose h] ∧ s_streams s' = s_streams s.
Proof.
  intros Hs (x & Hx & Hd)%deref_lt. unfold app_CloseStream. rewrite Hd. simpl.
  destruct (RTPSendStream.Close x (s_conn s)) as [err c'] eqn:Hc. apply calls_Close in Hc.
  eexists _, _, _. split; [done|]. split; [|by split]. eapply sending_plain; try done;
    [|apply streams_grow_refl]. rewrite <- emit_nil. apply sess_inv_conn; [apply Hs| |apply streams_grow_refl].
  by rewrite Hc, conn_closes_app, app_nil_r.
Qed.

(** Every packet could be marshalled. *)
Definition marshal_ok (packets : list Pkt) : Prop := Forall (λ p, Marshal p = inl (marshalled p)) packets.

Lemma marshalled_ok p buf : Marshal p = inl buf → Marshal p = inl (marshalled p) ∧ marshalled p = buf.
Proof. intros Hm. unfold marshalled. by rewrite Hm. Qed.

Lemma marshal_ok_len packets : marshal_ok packets →
  Forall (λ b, varint_ok (Z.of_nat (length b))) (marshalled <$> packets).
Proof. intros Hm. apply Forall_fmap. eapply Forall_impl; [done|]. intros p. apply Marshal_len. Qed.

Lemma sendDatagrams_spec id enc flow base n packets s : sending id enc flow base n s →
  ∃ err s' bufs, sendDatagrams flow packets s = Ret (err, s') ∧ sending id enc flow base n s' ∧
    calls (s_conn s') = calls (s_conn s) ++ (CSendDatagram <$> (app enc <$> bufs)) ∧
    (err = None → marshal_ok packets ∧ bufs = marshalled <$> packets).
Proof.
  revert s. induction packets as [|p packets IH]; intros s Hs; cbn [sendDatagrams].
  { exists None, s, []. rewrite app_nil_r. split_and!; try done. intros _. split; [constructor|done]. }
  destruct (Marshal p) as [buf|e] eqn:Hm.
  2:{ exists (Some e), s, []. by rewrite app_nil_r. }
  apply marshalled_ok in Hm as [Hm <-].
  destruct (app_WriteDatagram_sending _ _ _ _ _ (marshalled p) s Hs) as (err & s1 & -> & Hs1 & Hc1). bind_simpl.
  destruct err as [e|]; [by exists (Some e), s1, [marshalled p]|].
  destruct (IH s1 Hs1) as (err & s' & bufs & -> & Hs' & Hc' & Hok).
  exists err, s', (marshalled p :: bufs). rewrite Hc', Hc1, <- app_assoc. split_and!; try done.
  intros [? ->]%Hok. split; [by constructor|done].
Qed.

Lemma sendStream_spec id enc flow base n st h w ps packets s : sending id enc flow base n s →
  carrying enc st h w ps s →
  ∃ err s' ks, sendStream (Some st) packets s = Ret (err, s') ∧ sending id enc flow base n s' ∧
    calls (s_conn s') = calls (s_conn s) ++ ks ∧ stream_writes h ks ∧
    length (s_streams s) ≤ length (s_streams s') ∧
    (err = None → marshal_ok packets ∧ carrying enc st h w (ps ++ (marshalled <$> packets)) s').
Proof.
  revert ps s. induction packets as [|p packets IH]; intros ps s Hs Hc; cbn [sendStream].
  { exists None, s, []. rewrite app_nil_r. split_and!; try done; [constructor|]. intros _.
    split; [constructor|]. by rewrite app_nil_r. }
  destruct (Marshal p) as [buf|e] eqn:Hm.
  2:{ exists (Some e), s, []. rewrite app_nil_r. split_and!; try done. constructor. }
  pose proof (Marshal_len _ _ Hm) as Hl. apply marshalled_ok in Hm as [Hm <-].
  destruct (app_WriteStream_sending _ _ _ _ _ st h w ps _ s Hs Hc Hl) as (k & err & s1 & ks & Hrun & Hs1 & Hc1 & Hks & Hok).
  assert (length (s_streams s1) = length (s_streams s)) as Hlen.
  { revert Hrun. unfold app_WriteStream. intros (x & _ & Hrun)%bind_ret_inv.
    apply bind_ret_inv in Hrun as ([[[res x'] c'] es] & _ & [= _ <-]). simpl. by rewrite length_insert. }
  rewrite Hrun. bind_simpl. destruct err as [e|].
  { exists (Some e), s1, ks. split_and!; try done. lia. }
  destruct (IH (ps ++ [marshalled p]) s1 Hs1 (Hok eq_refl)) as (err & s' & ks' & -> & Hs' & Hc' & Hks' & Hlen' & Hok').
  exists err, s', (ks ++ ks'). rewrite Hc', Hc1, <- app_assoc. split_and!; try done.
  - by apply Forall_app.
  - lia.
  - intros [? Hcar]%Hok'. rewrite <- app_assoc in Hcar. split; [by constructor|done].
Qed.

(** What goes into datagrams, and onto each stream, for the packets [bss] of
    successive frames. *)
Definition content (m : mode) (bss : list (list (list byte)))
    : list (list byte) * list (list (list byte)) :=
  if decide (m = datagramMode) then (concat bss, [])
  else if decide (m = streamPerFrameMode) then ([], bss)
  else if decide (m = singleStreamMode) then ([], [concat bss])
  else ([], []).

(** In single-stream mode the stream is the only one, and has carried [ps]. *)
Definition single_ok (enc : list byte) (base : list call) (m : mode) (single : option nat) (h : nat)
    (w : list byte) (ps : list (list byte)) s : Prop :=
  m = singleStreamMode → opened (calls (s_conn s)) = opened base ++ [h] ∧
    ∃ st, single = Some st ∧ carrying enc st h w ps s.

(** The packets [bss] of the frames so far have been sent. *)
Definition progress (enc : list byte) (m : mode) (base : list call) (bss : list (list (list byte))) s : Prop :=
  datagrams (calls (s_conn s)) = datagrams base ++ (app enc <$> (content m bss).1) ∧
  ∃ hs, opened (calls (s_conn s)) = opened base ++ hs ∧
    Forall2 (λ h ps, wire h (calls (s_conn s)) = stream_bytes enc ps) hs (content m bss).2.

Lemma datagrams_sent ds : datagrams (CSendDatagram <$> ds) = ds ∧ opened (CSendDatagram <$> ds) = [] ∧
  ∀ h, wire h (CSendDatagram <$> ds) = [].
Proof.
  induction ds as [|d ds (IH1 & IH2 & IH3)]; [done|]. split_and!; [|exact IH2|exact IH3].
  change (d :: datagrams (CSendDatagram <$> ds) = d :: ds). by rewrite IH1.
Qed.

(** A stream that is opened anew has not been used. *)
Lemma fresh_open ks h ks2 : fresh_opens (ks ++ COpenUniStream (Some h) :: ks2) →
  wire h ks = [] ∧ h ∉ opened ks.
Proof.
  intros Hf. specialize (Hf ks h ks2 eq_refl). split; [by apply wire_unused|].
  intros (k & Hk & Ho)%list_elem_of_omap. rewrite Forall_forall in Hf. specialize (Hf k Hk).
  destruct k as [| [h'|] | | | | | |]; simplify_eq/=.
Qed.

Lemma wires_quiet enc hs groups ks ks' : (∀ h, h ∈ hs → wire h ks' = []) →
  Forall2 (λ h ps, wire h ks = stream_bytes enc ps) hs groups →
  Forall2 (λ h ps, wire h (ks ++ ks') = stream_bytes enc ps) hs groups.
Proof.
  intros Hq Hf. induction Hf as [|h ps hs groups Hh _ IH]; constructor.
  - rewrite wire_app, Hq, app_nil_r by set_solver. done.
  - apply IH. set_solver.
Qed.

(** One of the three modes of the program. *)
Definition known_mode (m : mode) : Prop :=
  m = datagramMode ∨ m = streamPerFrameMode ∨ m = singleStreamMode.

(** What sending the packets of a frame does: the flow stays in use, and if there
    is no error the packets have joined those of the frames before. *)
Definition frame_sent (id : Z) (enc : list byte) (flow : nat) (base : list call) (n : nat) (m : mode)
    (single : option nat) (h : nat) (w : list byte) (ps : list (list byte)) (packets : list Pkt) s
    (out : outcome (option goerror * Session C)) : Prop :=
  ∃ err s' ks, out = Ret (err, s') ∧ sending id enc flow base n s' ∧
    calls (s_conn s') = calls (s_conn s) ++ ks ∧
    (err = None → single_ok enc base m single h w (ps ++ (marshalled <$> packets)) s' ∧
     (known_mode m → marshal_ok packets) ∧
     (fresh_opens (calls (s_conn s')) → ∀ bss,
      (m = singleStreamMode → w = [] ∧ ps = concat bss) →
      progress enc m base bss s → progress enc m base (bss ++ [marshalled <$> packets]) s')).

Lemma send_packets_datagram id enc flow base n single h w ps packets s : sending id enc flow base n s →
  frame_sent id enc flow base n datagramMode single h w ps packets s (sendDatagrams flow packets s).
Proof.
  intros Hs. destruct (sendDatagrams_spec id enc flow base n packets s Hs)
    as (err & s' & bufs & -> & Hs' & Hc & Hok).
  eexists err, s', _. split; [done|]. split; [done|]. split; [done|].
  intros He. destruct (Hok He) as [Hmok ->]. split; [done|]. split; [done|].
  intros _ bss _ (Hd & hs & Ho & Hw).
  destruct (datagrams_sent (app enc <$> (marshalled <$> packets))) as (Hd' & Ho' & Hw').
  unfold progress. rewrite Hc, datagrams_app, Hd, Hd', opened_app, Ho', Ho. split.
  - simpl. rewrite concat_app, !fmap_app, <- app_assoc. simpl. by rewrite app_nil_r.
  - exists hs. rewrite app_nil_r. split; [done|]. simpl in *. by inversion Hw.
Qed.

Lemma send_packets_perFrame id enc flow base n single h w ps packets s : sending id enc flow base n s →
  frame_sent id enc flow base n streamPerFrameMode single h w ps packets s
    (send_packets streamPerFrameMode flow single packets s).
Proof.
  intros Hs. unfold send_packets. rewrite decide_False, decide_True by done.
  destruct (app_NewSendStream_sending id enc flow base n s Hs)
    as (res & s1 & ks1 & -> & Hs1 & Hc1 & Hd1 & Hw1 & Hres). bind_simpl.
  destruct res as [st|e]; [|by exists (Some e), s1, ks1].
  destruct Hres as (h1 & ks2 & -> & Ho1 & Hcar).
  destruct (sendStream_spec id enc flow base n st h1 _ [] packets s1 Hs1 Hcar)
    as (err & s2 & ks3 & -> & Hs2 & Hc2 & Hks3 & _ & Hok). bind_simpl. destruct err as [e|].
  { eexists (Some e), s2, _. rewrite Hc2, Hc1, <- app_assoc. by split_and!. }
  destruct (Hok eq_refl) as [Hmok (x & Hx & _ & _ & _ & _ & Hwx)]. simpl in Hwx.
  destruct (app_CloseStream_sending id enc flow base n st s2 Hs2) as (err & s' & h3 & -> & Hs' & Hc3 & _);
    [by eapply lookup_lt_Some|].
  eexists err, s', _. split; [done|]. split; [done|]. split; [by rewrite Hc3, Hc2, Hc1, <- !app_assoc|].
  intros _. split; [done|]. split; [done|]. intros Hf bss _ (Hd & hs & Ho & Hw).
  rewrite Hc3, Hc2, Hc1, <- !app_assoc in Hf. apply fresh_open in Hf as [Hfw Hfo].
  destruct (plain_writes _ _ Hks3) as [[Hd3 Ho3] Hoth].
  unfold progress. rewrite Hc3, !datagrams_app, !opened_app, Hc2, !datagrams_app, !opened_app,
    Hc1, !datagrams_app, !opened_app, Hd1, Hd3, Ho1, Ho3, Hd, Ho.
  simpl. rewrite !app_nil_r. split; [done|]. exists (hs ++ [h1]). split; [by rewrite app_assoc|].
  apply Forall2_app.
  - rewrite <- !app_assoc. apply wires_quiet; [|done]. intros h' Hin.
    rewrite !wire_app, Hoth, Hw1; [done|]. intros ->. apply Hfo. rewrite Ho. apply elem_of_app. by right.
  - constructor; [|constructor]. rewrite <- Hc1, <- Hc2, wire_app, Hwx, Hfw. simpl. by rewrite app_nil_r.
Qed.

Lemma send_packets_single id enc flow base n single h w ps packets s : sending id enc flow base n s →
  single_ok enc base singleStreamMode single h w ps s →
  frame_sent id enc flow base n singleStreamMode single h w ps packets s (sendStream single packets s).
Proof.
  intros Hs Hsingle. destruct (Hsingle eq_refl) as (Ho' & st & -> & Hcar).
  destruct (sendStream_spec id enc flow base n st h w ps packets s Hs Hcar)
    as (err & s' & ks & -> & Hs' & Hc & Hks & _ & Hok).
  exists err, s', ks. split; [done|]. split; [done|]. split; [done|].
  intros [Hmok Hcar']%Hok. destruct (plain_writes _ _ Hks) as [[Hd3 Ho3] _].
  split. { intros _. rewrite Hc, opened_app, Ho3, app_nil_r. eauto. }
  split; [done|]. intros _ bss Hb (Hd & hs & Ho & Hw). destruct (Hb eq_refl) as (-> & ->).
  rewrite Ho' in Ho. apply app_inv_head in Ho as <-.
  unfold progress. rewrite Hc, datagrams_app, opened_app, Hd, Ho', Hd3, Ho3, !app_nil_r. split; [done|].
  exists [h]. split; [done|]. constructor; [|constructor]. rewrite <- Hc.
  destruct Hcar' as (x & _ & _ & _ & _ & _ & ->). rewrite concat_app. simpl. by rewrite app_nil_r.
Qed.

Lemma send_packets_spec id enc flow base n m single h w ps packets s : sending id enc flow base n s →
  single_ok enc base m single h w ps s →
  frame_sent id enc flow base n m single h w ps packets s (send_packets m flow single packets s).
Proof.
  intros Hs Hsingle. destruct (decide (m = datagramMode)) as [->|Hm0].
  { by apply send_packets_datagram. }
  destruct (decide (m = streamPerFrameMode)) as [->|Hm1]; [by apply send_packets_perFrame|].
  unfold send_packets. rewrite !decide_False by done.
  destruct (decide (m = singleStreamMode)) as [->|Hm2]; [by apply send_packets_single|].
  exists None, s, []. rewrite app_nil_r. split_and!; try done. intros _.
  split; [by intros ?|]. split; [by intros [?|[?|?]]|].
  intros _ bss _. unfold progress, content. by rewrite !decide_False.
Qed.

(** The marshalled packets of each frame. *)
Definition frame_bufs (frames : list (list byte)) (pk : P) : list (list (list byte)) :=
  (λ packets : list Pkt, marshalled <$> packets) <$> packetize_all frames pk.

Lemma send_loop_spec fuel id enc flow base n m single h w ps (rd : R) frames e rd' (pk : P) s :
  reads rd frames e rd' → sending id enc flow base n s → single_ok enc base m single h w ps s →
  length frames < fuel →
  ∃ res rd2 pk2 s' ks, send_loop fuel m flow single rd pk s = Ret (Some res, rd2, pk2, s') ∧
    sending id enc flow base n s' ∧ calls (s_conn s') = calls (s_conn s) ++ ks ∧
    (res = None → e = EOF ∧ (known_mode m → Forall marshal_ok (packetize_all (Pkt := Pkt) frames pk)) ∧
     (fresh_opens (calls (s_conn s')) → ∀ bss, (m = singleStreamMode → w = [] ∧ ps = concat bss) →
      progress enc m base bss s →
      progress enc m base (bss ++ frame_bufs frames pk) s')).
Proof.
  intros Hr. revert fuel pk s ps.
  induction Hr as [rd frame err rd' Hrd|rd frame rd1 frames err rd' Hrd _ IH];
    intros fuel pk s ps Hs Hsi Hfuel; (destruct fuel as [|fuel]; [simpl in Hfuel; lia|]);
    unfold frame_bufs; cbn [send_loop packetize_all]; rewrite Hrd.
  { destruct (is_EOF err) eqn:He; eexists _, _, _, s, []; rewrite app_nil_r; (split; [done|]);
      split_and!; try done. intros _. apply is_EOF_spec in He. split; [done|]. split; [by constructor|].
    intros _ bss _. by rewrite app_nil_r. }
  destruct (Packetize frame 1 pk) as [packets pk1] eqn:Hpk.
  destruct (send_packets_spec id enc flow base n m single h w ps packets s Hs Hsi)
    as (err1 & s1 & ks1 & -> & Hs1 & Hc1 & Hok1). bind_simpl. destruct err1 as [e1|].
  { by eexists _, _, _, s1, ks1. }
  destruct (Hok1 eq_refl) as (Hsi1 & Hm1 & Hpg1).
  destruct (IH fuel pk1 s1 _ Hs1 Hsi1) as (res & rd2 & pk2 & s' & ks & -> & Hs' & Hc' & Hok);
    [simpl in Hfuel; lia|].
  eexists res, rd2, pk2, s', (ks1 ++ ks). split; [done|]. split; [done|].
  split; [by rewrite Hc', Hc1, <- app_assoc|].
  intros (He & Hm & Hpg)%Hok. split; [done|]. split; [intros; constructor; auto|].
  intros Hf bss Hb Hp. rewrite fmap_cons, cons_middle, app_assoc. apply (Hpg Hf).
  - intros Hm2. destruct (Hb Hm2) as [? ->]. split; [done|]. rewrite concat_app. simpl. by rewrite app_nil_r.
  - apply Hpg1; [|done|done]. eapply fresh_opens_prefix; [|done]. rewrite Hc'. by apply prefix_app_r.
Qed.

Lemma NewSendFlow_conn id s res s' : NewSendFlow id s = Ret (res, s') →
  s_conn s' = s_conn s ∧ s_streams s' = s_streams s.
Proof.
  unfold NewSendFlow, NewSendFlow_insert. destruct (Session_isClosed s); [by intros [= <- <-]|].
  intros (f & _ & Hrun)%bind_ret_inv. destruct (smap.getOrInsert _ _ _) as [[v ins] m].
  destruct ins; by injection Hrun as <- <-.
Qed.

(** The new flow is in use. *)
Lemma NewSendFlow_sending id enc s : sess_inv s → varint_ok id → quicvarint_Append [] id = Ret enc →
  s_closedErr s = None → smap.get id (s_sendFlows s) = None →
  ∃ s', NewSendFlow id s = Ret (inl (length (s_sfs s)), s') ∧
    sending id enc (length (s_sfs s)) (calls (s_conn s)) 0 s' ∧ s_conn s' = s_conn s.
Proof.
  intros Hinv Hid Henc Hop Hfree. destruct (NewSendFlow_spec id s Hinv Hid) as (res & s' & Hrun & Hinv' & Hcase).
  rewrite Hop, Hfree in Hcase. destruct Hcase as (r & f & -> & Hsfs & -> & Hfid & _ & Hst & Hm).
  destruct (NewSendFlow_conn _ _ _ _ Hrun) as [Hc Hss]. exists s'. split; [done|]. split; [|done].
  split; [done| |done| |lia].
  - by rewrite Hm, smap.get_set, decide_True.
  - rewrite Hsfs, lookup_app_r, Nat.sub_diag by done. intros ? [= <-]. unfold sf_handles.
    by rewrite Hst, Hc, app_nil_r.
Qed.

Lemma stream_closes_CClose hs : stream_closes (CClose <$> hs) = hs.
Proof. induction hs as [|h hs IH]; [done|]. change (h :: stream_closes (CClose <$> hs) = h :: hs). by rewrite IH. Qed.

(** [s'] is [s] with some streams closed. *)
Lemma progress_closes enc m base bss s s' hs : calls (s_conn s') = calls (s_conn s) ++ (CClose <$> hs) →
  progress enc m base bss s → progress enc m base bss s'.
Proof.
  intros Hc (Hd & hs0 & Ho & Hw). destruct (plain_closes hs) as [[Hd' Ho'] Hw'].
  unfold progress. rewrite Hc, datagrams_app, opened_app, Hd', Ho', !app_nil_r. split; [done|].
  exists hs0. split; [done|]. by apply wires_quiet.
Qed.

(** The deferred calls close the flow with all its streams. *)
Lemma send_deferred_spec id enc flow base n single s : sending id enc flow base n s →
  (∀ st, single = Some st → st < n) →
  ∃ s' f hs, send_deferred flow single s = Ret s' ∧ sess_inv s' ∧
    calls (s_conn s') = calls (s_conn s) ++ (CClose <$> hs) ∧
    smap.get id (s_sendFlows s') = None ∧ s_sfs s' !! flow = Some f ∧ sf_closedErr f = Some errClosed ∧
    opened (calls (s_conn s)) `sublist_of` opened base ++ hs.
Proof.
  intros Hs Hsi. destruct (sending_flow _ _ _ _ _ _ Hs) as (f & Hr & Hid & _ & _ & _ & Hfi).
  pose proof (sd_inv _ _ _ _ _ _ Hs) as Hinv. pose proof Hinv as [Ht _]. unfold send_deferred.
  destruct (closeSendFlow_inv flow s Hinv) as (err & s1 & Hrun & Hinv1 & _); [by eapply lookup_lt_Some|].
  destruct (closeSendFlow_spec flow f s Ht Hr) as (errs & c1 & Hrun' & Heach).
  rewrite Hrun in Hrun'. injection Hrun' as _ Hs1. rewrite Hrun. bind_simpl.
  destruct (close_each_calls _ _ _ _ Heach) as [Hc1 _].
  assert (opened (calls (s_conn s)) = opened base ++ sf_handles f (s_streams s)) as Ho by (by apply Hs).
  assert (∀ s', s_sendFlows s' = s_sendFlows s1 → s_sfs s' = s_sfs s1 →
    smap.get id (s_sendFlows s') = None ∧
    s_sfs s' !! flow = Some (set_sf_closedErr (Some errClosed) f)) as Hend.
  { intros s' -> ->. rewrite Hs1. simpl. rewrite <- Hid, smap.get_delete, decide_True by done.
    split; [done|]. apply list_lookup_insert_eq. by eapply lookup_lt_Some. }
  destruct single as [st|].
  2:{ destruct (Hend s1 eq_refl eq_refl). exists s1, (set_sf_closedErr (Some errClosed) f), (sf_handles f (s_streams s)).
      rewrite Ho. split_and!; try done. rewrite Hs1. simpl. by rewrite Hc1. }
  assert (st < length (s_streams s1)) as (x & Hx & Hd)%deref_lt 
    by (rewrite Hs1; simpl; pose proof (sd_len _ _ _ _ _ _ Hs); specialize (Hsi st eq_refl); lia).
  unfold app_CloseStream. rewrite Hd. simpl.
  destruct (RTPSendStream.Close x (s_conn s1)) as [e c2] eqn:Hc2. apply calls_Close in Hc2. simpl.
  set (s2 := set_send c2 (s_sendFlows s1) (s_sfs s1) (s_streams s1) s1).
  destruct (Hend s2 eq_refl eq_refl). exists s2, (set_sf_closedErr (Some errClosed) f), (sf_handles f (s_streams s) ++ [stream x]).
  split; [done|]. split.
  { unfold s2. rewrite <- emit_nil. apply sess_inv_conn; [done| |apply streams_grow_refl].
    by rewrite Hc2, conn_closes_app, app_nil_r. }
  rewrite Ho. split_and!; try done.
  - simpl. rewrite Hc2, Hs1. simpl. by rewrite Hc1, fmap_app, app_assoc.
  - rewrite app_assoc. by apply sublist_inserts_r.
Qed.

Lemma sending_len id enc flow base n s : sending id enc flow base n s →
  sending id enc flow base (length (s_streams s)) s.
Proof. by intros [? ? ? ? _]. Qed.

(** How a call of [send] that got to its loop ends. *)
Definition send_done (id : Z) (enc : list byte) (m : mode) (flow : nat) (base : list call)
    (frames : list (list byte)) (e : goerror) (pk : P) (res : option goerror) s' : Prop :=
  smap.get id (s_sendFlows s') = None ∧
  (∃ f, s_sfs s' !! flow = Some f ∧ sf_closedErr f = Some errClosed) ∧
  (∀ h, h ∈ opened (calls (s_conn s')) → h ∈ opened base ∨ h ∈ stream_closes (calls (s_conn s'))) ∧
  (res = None → e = EOF ∧ (known_mode m → Forall marshal_ok (packetize_all (Pkt := Pkt) frames pk)) ∧
   (fresh_opens (calls (s_conn s')) → progress enc m base (frame_bufs frames pk) s')).

Lemma send_run fuel id enc flow base n m single h w (rd : R) frames e rd' (pk : P) s :
  reads rd frames e rd' → sending id enc flow base n s → single_ok enc base m single h w [] s →
  (∀ st, single = Some st → st < n) → length frames < fuel →
  (fresh_opens (calls (s_conn s)) → (m = singleStreamMode → w = []) ∧ progress enc m base [] s) →
  ∃ res rd2 pk2 s1 s' ks, send_loop fuel m flow single rd pk s = Ret (Some res, rd2, pk2, s1) ∧
    send_deferred flow single s1 = Ret s' ∧ sess_inv s' ∧ calls (s_conn s') = calls (s_conn s) ++ ks ∧
    send_done id enc m flow base frames e pk res s'.
Proof.
  intros Hr Hs Hsi Hst Hfuel Hstart.
  destruct (send_loop_spec fuel id enc flow base n m single h w [] rd frames e rd' pk s Hr Hs Hsi Hfuel)
    as (res & rd2 & pk2 & s1 & ks & Hrun & Hs1 & Hc1 & Hok).
  destruct (send_deferred_spec id enc flow base n single s1 Hs1 Hst)
    as (s' & f & hs & Hdef & Hinv' & Hc' & Hm & Hf & Hcl & Hsub).
  exists res, rd2, pk2, s1, s', (ks ++ (CClose <$> hs)). split_and!; try done.
  { by rewrite Hc', Hc1, app_assoc. }
  assert (calls (s_conn s) `prefix_of` calls (s_conn s')) as Hpre.
  { rewrite Hc', Hc1, <- app_assoc. by apply prefix_app_r. }
  split; [done|]. split; [eauto|]. split.
  - intros h'. rewrite Hc', opened_app, stream_closes_app, stream_closes_CClose.
    destruct (plain_closes hs) as [[_ ->] _]. rewrite app_nil_r. intros Hin.
    eapply sublist_subseteq in Hin; [|exact Hsub]. apply elem_of_app in Hin as [?|?]; [by left|].
    right. apply elem_of_app. by right.
  - intros (He & Hmo & Hpg)%Hok. split; [done|]. split; [done|]. intros Hf'.
    destruct Hstart as [Hw Hp0]; [by eapply fresh_opens_prefix|].
    eapply progress_closes; [exact Hc'|]. apply (Hpg ltac:(eapply fresh_opens_prefix; [|done];
      rewrite Hc'; by apply prefix_app_r) []); [|done]. intros Hm2. by split; [apply Hw|].
Qed.

(** [send] on a session on which the flow can be created. *)
Lemma send_spec fuel id enc m (rd : R) frames e rd' (pk : P) s : sess_inv s → varint_ok id →
  quicvarint_Append [] id = Ret enc → s_closedErr s = None → smap.get id (s_sendFlows s) = None →
  reads rd frames e rd' → length frames < fuel →
  ∃ res rd2 pk2 s' ks, send fuel id rd pk m (mkSender s) = Ret (Some res, rd2, pk2, mkSender s') ∧
    sess_inv s' ∧ calls (s_conn s') = calls (s_conn s) ++ ks ∧
    (m = singleStreamMode ∧ res ≠ None ∧ smap.get id (s_sendFlows s') = Some (length (s_sfs s)) ∧
       opened ks = [] ∨
     send_done id enc m (length (s_sfs s)) (calls (s_conn s)) frames e pk res s').
Proof.
  intros Hinv Hid Henc Hop Hfree Hr Hfuel. unfold send. simpl.
  destruct (NewSendFlow_sending id enc s Hinv Hid Henc Hop Hfree) as (s1 & -> & Hs1 & Hc1). bind_simpl.
  destruct (decide (m = singleStreamMode)) as [->|Hm]; bind_simpl.
  - destruct (app_NewSendStream_sending _ _ _ _ _ s1 Hs1) as (res & s2 & ks2 & -> & Hs2 & Hc2 & Hd2 & Hw2 & Hres).
    bind_simpl. rewrite Hc1 in Hc2. destruct res as [st|err].
    2:{ eexists _, _, _, s2, ks2. split; [done|]. split; [apply Hs2|]. split; [done|]. left.
        split_and!; try done. apply Hs2. }
    destruct Hres as (h & ks3 & -> & Ho3 & Hcar). rewrite Hc1 in Hcar.
    assert (opened (calls (s_conn s2)) = opened (calls (s_conn s)) ++ [h]) as Ho2 by (by rewrite Hc2, opened_app, Ho3).
    destruct (send_run fuel id enc _ _ _ singleStreamMode (Some st) h (wire h (calls (s_conn s))) rd frames e rd' pk s2 Hr
      (sending_len _ _ _ _ _ _ Hs2)) as (res & rd2 & pk2 & s3 & s' & ks & -> & Hdef & Hinv' & Hc' & Hdone).
    + intros _. split; [exact Ho2|]. by exists st.
    + intros ? [= <-]. destruct Hcar as (x & Hx & _). by eapply lookup_lt_Some.
    + done.
    + rewrite Hc2. intros [Hfw _]%fresh_open. split; [done|].
      split; [by rewrite Hc2, datagrams_app, Hd2|].
      exists [h]. split; [done|]. constructor; [|constructor]. destruct Hcar as (x & _ & _ & _ & _ & _ & ->).
      by rewrite Hfw.
    + bind_simpl. rewrite Hdef. bind_simpl. eexists _, _, _, s', _. split; [done|]. split; [done|].
      split; [by rewrite Hc', Hc2, <- app_assoc|]. by right.
  - destruct (send_run fuel id enc _ _ _ m None 0 [] rd frames e rd' pk s1 Hr Hs1)
      as (res & rd2 & pk2 & s3 & s' & ks & -> & Hdef & Hinv' & Hc' & Hdone).
    + by intros ?.
    + done.
    + done.
    + intros _. split; [done|]. unfold progress, content. rewrite Hc1, (decide_False (P := m = singleStreamMode)) by done.
      split; [by repeat case_decide; rewrite ?app_nil_r|]. exists []. rewrite app_nil_r. split; [done|].
      repeat case_decide; constructor.
    + bind_simpl. rewrite Hdef. bind_simpl. eexists _, _, _, s', ks. split; [done|]. split; [done|].
      split; [by rewrite Hc', Hc1|]. by right.
Qed.
End correctness.

(** ** Properties *)

Section properties.
Context `{QuicVarintLaws, !GoPool, !GoMapOrder} {C : Type} `{ConnectionLaws C}.
Context {Pkt P R : Type} `{RTPLaws Pkt, !Packetizer Pkt P, !FrameReader R}.

Lemma content_all m bss : known_mode m → (content m bss).1 ++ concat (content m bss).2 = concat bss.
Proof.
  intros [->|[->| ->]]; unfold content; simpl; by rewrite ?app_nil_r.
Qed.

Lemma frame_bufs_ok (frames : list (list byte)) (pk : P) :
  Forall marshal_ok (packetize_all (Pkt := Pkt) frames pk) →
  Forall (λ b, varint_ok (Z.of_nat (length b))) (concat (frame_bufs (Pkt := Pkt) frames pk)).
Proof.
  unfold frame_bufs. induction 1 as [|packets pss Hp _ IH]; simpl; [done|].
  apply Forall_app. split; [by apply marshal_ok_len|done].
Qed.

(** The streams [rss] deliver what the connection put on the wire for [hs]. *)
Definition arriving (ks : list call) (rss : list ReceiveStream) (hs : list nat) : Prop :=
  Forall2 (λ rs h, rd_wf (rs_reader rs) ∧ rd_data (rs_reader rs) = wire h ks) rss hs.

Lemma arriving_carries enc ks rss (streams : list (nat * list (list byte))) :
  arriving ks rss streams.*1 →
  Forall (λ x, wire x.1 ks = stream_bytes enc x.2) streams → carries enc rss streams.*2.
Proof.
  intros Ha Hs. unfold arriving, carries in *. rewrite Forall2_fmap_r in *.
  revert rss Ha. induction Hs as [|x xs Hx _ IH]; intros rss Ha; inversion Ha as [|rs ? rss' ? [? ?]]; subst;
    constructor; [|by apply IH]. simpl. split; [done|]. congruence.
Qed.

(** The packets whose order a mode keeps: those of each frame if each frame has a
    stream of its own, and otherwise all of them. *)
Definition ordered_groups (m : mode) (bss : list (list (list byte))) : list (list (list byte)) :=
  if decide (m = streamPerFrameMode) then bss else [concat bss].

Lemma ordered_groups_content m bss l : known_mode m →
  interleaves ((content m bss).1 :: (content m bss).2) l → interleaves (ordered_groups m bss) l.
Proof. by intros [->|[->| ->]]; unfold content, ordered_groups; simpl; rewrite ?interleaves_skip. Qed.

Lemma delivers_groups {C' : Type} `{!Connection C'} id before goal goal' (c : xconfig C') :
  (∀ l, interleaves goal l → interleaves goal' l) → delivers id before goal c → delivers id before goal' c.
Proof.
  intros Hg [bound Hd]. exists bound. intros k c' Hk. destruct (Hd k c' Hk) as (? & ? & ? & Hr). split_and!; try done.
  intros (l & Hi & Hp)%Hr. eauto.
Qed.

(** What a successful [send] leaves to the receiver. *)
Lemma progress_arrives {C' : Type} `{!Connection C', !ConnectionLaws C'} id enc m (base ks : list call)
    bss (s : Session C) (rs : Session C') rss hs (c' : C') :
  varint_ok id → quicvarint_Append [] id = Ret enc → known_mode m →
  calls (s_conn s) = base ++ ks → progress enc m base bss s →
  Forall (λ b, varint_ok (Z.of_nat (length b))) (concat bss) →
  sess_inv rs → s_closedErr rs = None → flow_open rs id → length (concat bss) ≤ room rs id →
  hs ≡ₚ opened ks → arriving (calls (s_conn s)) rss hs → has_arrived (datagrams ks) rss (s_conn rs) c' →
  delivers id (packets_for id rs) (ordered_groups m bss) (receiving (set_conn c' rs)).
Proof.
  intros Hid Henc Hm Hc (Hd & hs0 & Ho & Hw) Hok Hinv Hrc Hop Hroom Hhs Ha [Hcc Hdl].
  rewrite Hc, datagrams_app in Hd. apply app_inv_head in Hd.
  rewrite Hc, opened_app in Ho. apply app_inv_head in Ho. pose proof (Forall2_length _ _ _ Hw) as Hl.
  assert (∃ order, order ≡ₚ zip hs0 (content m bss).2 ∧ hs = order.*1) as (order & Hperm & ->).
  { rewrite Ho, <- (fst_zip hs0 (content m bss).2) in Hhs by lia.
    apply Permutation_map_inv in Hhs as (order & -> & ?). by exists order. }
  assert (Forall (λ x, wire x.1 (calls (s_conn s)) = stream_bytes enc x.2) order) as Hord.
  { rewrite Hperm. clear -Hw. induction Hw; simpl; constructor; done. }
  assert (order.*2 ≡ₚ (content m bss).2) as Hgr by (by rewrite Hperm, snd_zip by lia).
  rewrite <- (content_all m bss Hm) in Hok, Hroom. apply Forall_app in Hok as [_ Hok].
  apply (delivers_groups id _ ((content m bss).1 :: order.*2)).
  { intros l. rewrite Hgr. by apply ordered_groups_content. }
  assert (receiver id (packets_for id rs) (length ((content m bss).1 ++ concat (content m bss).2)) rs) as Hr by (by split).
  apply (receiver_conn _ _ _ _ c') in Hr as [Hinv' _ _ _ _]; [|done].
  apply (schedules_deliver id enc (content m bss).1 rss order.*2 (set_conn c' rs)); try done.
  - unfold packets_ok. by rewrite Hgr.
  - by eapply arriving_carries.
  - rewrite concat_cons, length_app, Hgr, <- length_app. done.
  - by rewrite <- Hd.
Qed.

(** The calls made on the connection between two states of a session. *)
Definition calls_since (s s' : Session C) : list call :=
  drop (length (calls (s_conn s))) (calls (s_conn s')).

(** What an interleaving of the groups looks like. *)
Lemma sublist_concat {A} (xs : list A) xss : xs ∈ xss → xs `sublist_of` concat xss.
Proof.
  intros (l1 & l2 & ->)%list_elem_of_split. rewrite concat_app, concat_cons.
  by apply sublist_inserts_l, sublist_inserts_r.
Qed.

Lemma ordered_groups_order m bss l : interleaves (ordered_groups m bss) l →
  l ≡ₚ concat bss ∧ Forall (λ bs, bs `sublist_of` l) bss ∧ (m ≠ streamPerFrameMode → l = concat bss).
Proof.
  unfold ordered_groups. rewrite Forall_forall. case_decide as Hm.
  - intros Hi. split_and!; [by apply interleaves_concat| |done].
    intros bs Hin. by eapply interleaves_sublist.
  - intros ->%interleaves_one. split_and!; [done| |done]. intros bs. apply sublist_concat.
Qed.

(** C18: the three modes of the sender deliver. If [send] returns without an error, its
    datagrams and streams carry every packet of every frame of the video. Let a
    receiving session with room for them get these datagrams and streams, the streams
    in any order: however its receive loops and the concurrent handlers of the streams
    take turns, they come to rest after a bounded number of steps, none of which
    panics, and then the queue of the flow has grown by exactly these packets. Packets
    on one stream, and datagrams, are in the order in which they were sent: with a
    stream per frame the packets of a frame are in order, but those of other frames
    may be in between; in the other two modes all packets are in the order of the
    video. *)
Theorem send_delivers {C' : Type} `{!Connection C', !ConnectionLaws C'} (fuel : nat) (flowID : Z)
    (rd : R) (frames : list (list byte)) (rd' : R) (pk : P) (m : mode) (s : Session C) (rs : Session C')
    (Hinv : sess_inv s) (Hid : varint_ok flowID) (Hop : s_closedErr s = None)
    (Hfree : smap.get flowID (s_sendFlows s) = None) (Hm : known_mode m)
    (Hreads : reads rd frames EOF rd') (Hfuel : length frames < fuel)
    (Hrinv : sess_inv rs) (Hrc : s_closedErr rs = None) (Hropen : flow_open rs flowID)
    (Hroom : length (concat (frame_bufs (Pkt := Pkt) frames pk)) ≤ room rs flowID) :
  let video := frame_bufs (Pkt := Pkt) frames pk in
  ∃ res rd2 pk2 s' ks, send (Pkt := Pkt) fuel flowID rd pk m (mkSender s) =
      Ret (Some res, rd2, pk2, mkSender s') ∧ calls (s_conn s') = calls (s_conn s) ++ ks ∧
    (res = None → fresh_opens (calls (s_conn s')) → ∀ hs rss c', hs ≡ₚ opened ks →
       arriving (calls (s_conn s')) rss hs → has_arrived (datagrams ks) rss (s_conn rs) c' →
       delivers flowID (packets_for flowID rs) (ordered_groups m video) (receiving (set_conn c' rs))) ∧
    ∀ l, interleaves (ordered_groups m video) l → l ≡ₚ concat video ∧
      Forall (λ frame_packets, frame_packets `sublist_of` l) video ∧
      (m ≠ streamPerFrameMode → l = concat video).
Proof.
  destruct (Append_ok _ Hid) as (enc & Henc & _). specialize (Henc []).
  destruct (send_spec fuel flowID enc m rd frames EOF rd' pk s Hinv Hid Henc Hop Hfree Hreads Hfuel)
    as (res & rd2 & pk2 & s' & ks & Hrun & _ & Hc & Hcase).
  exists res, rd2, pk2, s', ks. split; [done|]. split; [done|]. split; [|by apply ordered_groups_order].
  intros Hres Hfresh hs rss c' Hhs Ha Hhas.
  destruct Hcase as [(_ & ? & _)|(_ & _ & _ & Hok)]; [done|]. destruct (Hok Hres) as (_ & Hmo & Hpg).
  eapply progress_arrives; try done; [by apply Hpg|]. by apply frame_bufs_ok, Hmo.
Qed.

(** C25: [send] always comes to an end. Whichever calls on the connection fail, once
    the reader has returned its last frame [send] returns, after at most one more
    iteration than there are frames, and without a panic. On a closed session, or if
    the flow exists, it reports that and makes no call; otherwise, unless the stream
    of the single-stream mode could not be opened, it leaves the flow closed and
    unregistered and every stream it opened closed. In that one case the flow is left
    registered. It returns no error only if the reader ended with [io.EOF]. *)
Theorem send_returns (fuel : nat) (flowID : Z) (rd : R) (frames : list (list byte)) (err : goerror)
    (rd' : R) (pk : P) (m : mode) (s : Session C)
    (Hinv : sess_inv s) (Hid : varint_ok flowID)
    (Hreads : reads rd frames err rd') (Hfuel : length frames < fuel) :
  ∃ res rd2 pk2 s', send (Pkt := Pkt) fuel flowID rd pk m (mkSender s) =
      Ret (Some res, rd2, pk2, mkSender s') ∧
    sess_inv s' ∧ calls (s_conn s) `prefix_of` calls (s_conn s') ∧
    match s_closedErr s, smap.get flowID (s_sendFlows s) with
    | Some e, _ => res = Some (ESession e) ∧ s' = s
    | None, Some _ => res = Some errDuplicateFlowID ∧ s_conn s' = s_conn s ∧ s_sendFlows s' = s_sendFlows s
    | None, None =>
        (m = singleStreamMode ∧ res ≠ None ∧ opened (calls_since s s') = [] ∧
           smap.get flowID (s_sendFlows s') = Some (length (s_sfs s))) ∨
        ((res = None → err = EOF) ∧ smap.get flowID (s_sendFlows s') = None ∧
           (∃ f, s_sfs s' !! length (s_sfs s) = Some f ∧ sf_closedErr f = Some errClosed) ∧
           ∀ h, h ∈ opened (calls (s_conn s')) →
             h ∈ opened (calls (s_conn s)) ∨ h ∈ stream_closes (calls (s_conn s')))
    end.
Proof.
  destruct (NewSendFlow_spec flowID s Hinv Hid) as (res & s1 & Hrun & Hinv1 & Hcase).
  destruct (NewSendFlow_conn _ _ _ _ Hrun) as [Hc1 _].
  destruct (s_closedErr s) as [e|] eqn:Hop.
  { destruct Hcase as [-> ->]. unfold send. simpl. rewrite Hrun. bind_simpl. by eexists _, _, _, s. }
  destruct (smap.get flowID (s_sendFlows s)) as [r|] eqn:Hfree.
  { destruct Hcase as [-> Hm]. unfold send. simpl. rewrite Hrun. bind_simpl.
    eexists _, _, _, s1. split_and!; try done. by rewrite Hc1. }
  destruct (Append_ok _ Hid) as (enc & Henc & _). specialize (Henc []).
  destruct (send_spec fuel flowID enc m rd frames err rd' pk s Hinv Hid Henc Hop Hfree Hreads Hfuel)
    as (res' & rd2 & pk2 & s' & ks & Hsend & Hinv' & Hc & Hdone).
  exists res', rd2, pk2, s'. split; [done|]. split; [done|]. unfold calls_since.
  rewrite Hc, drop_app_length. split; [by apply prefix_app_r|]. rewrite <- Hc.
  destruct Hdone as [(? & ? & ? & ?)|(? & ? & ? & Hok)]; [by left|right].
  split_and!; try done. intros Hres. by destruct (Hok Hres).
Qed.
End properties.

Section witnesses.
Import RFC9000.
#[local] Existing Instance lifo_pool.
#[local] Existing Instance ascending_order.

(** A video of two frames, which make three packets. *)
Definition ex_frames : list (list byte) := [bytes [10; 11; 12]%Z; bytes [13]%Z].

Definition ex_sent (m : mode) : outcome (option (option goerror) * frameList * Z * sender stubConn) :=
  send (Pkt := samplePacket) 3 7 (mkFrames ex_frames EOF) 0%Z m (mkSender ex_receiver).

(** A stream that delivers the bytes [d] and ends. *)
Definition ex_stream_of (d : list byte) : ReceiveStream := mkReceiveStream 3 (mkReader [d] true EOF).

(** The streams of the two frames, in the other order. *)
Definition ex_streams : list ReceiveStream :=
  [ex_stream_of (bytes [7; 2; 2; 13]%Z); ex_stream_of (bytes [7; 3; 0; 10; 11; 2; 1; 12]%Z)].

(** The receiving session when they have arrived. *)
Definition ex_receiving : xconfig stubConn :=
  receiving (set_conn (ex_arrived [] ex_streams (newStubConn [])) ex_receiver).

Lemma send_delivers_witness :
  ∃ rd2 pk2 s', ex_sent streamPerFrameMode = Ret (Some None, rd2, pk2, mkSender s') ∧
    opened (calls (s_conn s')) = [0; 1] ∧
    ∃ c l, rtc gstep ex_receiving c ∧ packets_for 7 (xc_sess c) = l ∧
      l ≡ₚ [bytes [0; 10; 11]; bytes [1; 12]; bytes [2; 13]]%Z ∧ [bytes [0; 10; 11]; bytes [1; 12]]%Z `sublist_of` l.
Proof.
  destruct (send_delivers (Pkt := samplePacket) 3 7 (mkFrames ex_frames EOF) ex_frames (mkFrames [] EOF) 0%Z
    streamPerFrameMode ex_receiver ex_receiver) as (res & rd2 & pk2 & s' & ks & Hrun & Hc & Hok & Hord).
  - apply ex_receiver_inv.
  - vm_compute. split; [discriminate|reflexivity].
  - reflexivity.
  - reflexivity.
  - right. left. reflexivity.
  - apply frameList_reads.
  - vm_compute. lia.
  - apply ex_receiver_inv.
  - reflexivity.
  - vm_compute. exact I.
  - vm_compute. lia.
  - pose proof Hrun as Hrun'. vm_compute in Hrun'. injection Hrun' as <- <- <- <-.
    simpl in Hc. subst ks. destruct Hok
      with (hs := [1; 0]) (rss := ex_streams) (c' := ex_arrived [] ex_streams (newStubConn [])) as [bound Hd].
    + reflexivity.
    + apply fresh_opens_test. vm_compute. reflexivity.
    + apply Permutation_swap.
    + vm_compute. repeat constructor.
    + apply (ex_arrived_has []). repeat constructor.
    + eexists _, _, _. split; [exact Hrun|]. split; [reflexivity|].
      destruct (Hd 0 _ (nsteps_O _ _)) as (_ & _ & (c & Hsteps & Hrest) & _).
      destruct (rtc_nsteps_1 _ _ Hsteps) as [k Hk].
      destruct (Hd k c Hk) as (_ & _ & _ & Hq). destruct (Hq Hrest) as (l & Hi & Hp).
      destruct (Hord l Hi) as (Hl & Hsub & _). exists c, l. split; [exact Hsteps|]. split; [exact Hp|].
      split; [exact Hl|]. exact (Forall_inv Hsub).
Defined.

(** The packets of the second frame may come between those of the first. *)
Example frames_may_interleave :
  (λ c, packets_for 7 (xc_sess c)) <$>
    xrun [XAcceptStream; XAcceptStream; XHandler 1; XTask 0; XTask 0; XHandler 0; XTask 1; XTask 1; XTask 0] ex_receiving =
  Some [bytes [0; 10; 11]; bytes [2; 13]; bytes [1; 12]]%Z.
Proof. vm_compute. reflexivity. Qed.

Lemma send_returns_witness :
  ∃ res rd2 pk2 s', ex_sent singleStreamMode = Ret (Some res, rd2, pk2, mkSender s') ∧
    smap.get 7 (s_sendFlows s') = None ∧ stream_closes (calls (s_conn s')) = [0; 0].
Proof.
  destruct (send_returns (Pkt := samplePacket) 3 7 (mkFrames ex_frames EOF) ex_frames EOF (mkFrames [] EOF) 0%Z
    singleStreamMode ex_receiver) as (res & rd2 & pk2 & s' & Hrun & _ & _ & Hcase).
  - apply ex_receiver_inv.
  - vm_compute. split; [discriminate|reflexivity].
  - apply frameList_reads.
  - vm_compute. lia.
  - exists res, rd2, pk2, s'. split; [exact Hrun|].
    pose proof Hrun as Hrun'. vm_compute in Hrun'. injection Hrun' as <- <- <- <-.
    destruct Hcase as [(_ & Hne & _)|(_ & Hm & _)]; [congruence|]. split; [exact Hm|reflexivity].
Defined.
End witnesses.
