(* ===== verification/FileWriter.v ===== *)
(** * examples/interop/file_writer.go: writing received packets to a file

    A [fileWriter] puts the packets it is given into a jitter buffer and passes on to
    the media writer what the buffer releases. The loop of [Write] runs until [Pop]
    fails; it has fuel, and one iteration more than the buffer holds packets is
    shown to be enough. *)

From S2P Require Import Prelude GoErrors Varint Media.

(** [ivfwriter] and [h264writer]: opening a file, or writing to an [io.Writer]. *)
Class MediaWriters (IO W : Type) := {
  ivfwriter_New : string → W + goerror;
  h264writer_New : string → W + goerror;
  ivfwriter_NewWith : IO → W + goerror;
  h264writer_NewWith : IO → W
}.

Record fileWriter (J W : Type) := mkFileWriter { fw_buffer : J; fw_writer : W }.
Arguments mkFileWriter {J W} _ _.
Arguments fw_buffer {J W} _.
Arguments fw_writer {J W} _.

(** [wrapper] forwards to the writer it holds, so that it has no [Close]. *)
Record wrapper (IO : Type) := mkWrapper { wrapped : IO }.
Arguments mkWrapper {IO} _.
Arguments wrapped {IO} _.

Definition wrapper_Write {IO : Type} `{!WriteCloser IO} (buf : list byte) (w : wrapper IO)
    : (Z * option goerror) * wrapper IO :=
  let '(res, inner) := Writer_Write buf (wrapped w) in (res, mkWrapper inner).

Section fileWriter.
Context {Pkt J W IO : Type} `{!RTP Pkt, !JitterBuffer Pkt J, !RTPWriter Pkt W}.

Definition newFileWriter `{!MediaWriters (wrapper IO) W} (filename codec : string)
    : fileWriter J W + goerror :=
  if decide (codec = "vp8") then
    match ivfwriter_New filename with
    | inl w => inl (mkFileWriter JB_New w)
    | inr err => inr err
    end
  else if decide (codec = "h264") then
    match h264writer_New filename with
    | inl w => inl (mkFileWriter JB_New w)
    | inr err => inr err
    end
  else inr (EOther "unknown codec").

Definition newIVFWriterWith `{!MediaWriters (wrapper IO) W} (writer : IO) (codec : string)
    : fileWriter J W + goerror :=
  let wr := mkWrapper writer in
  if decide (codec = "vp8") then
    match ivfwriter_NewWith wr with
    | inl w => inl (mkFileWriter JB_New w)
    | inr err => inr err
    end
  else if decide (codec = "h264") then inl (mkFileWriter JB_New (h264writer_NewWith wr))
  else inr (EOther "unknown codec").

(** The loop of [Write]; [len] is [len(buf)]. [None] while it runs. *)
Fixpoint drain (fuel : nat) (len : Z) (w : fileWriter J W)
    : option ((Z * option goerror) * fileWriter J W) :=
  match fuel with
  | 0 => None
  | S fuel =>
      let '(res, j) := JB_Pop (fw_buffer w) in
      let w := mkFileWriter j (fw_writer w) in
      match res with
      | inr _ => Some ((len, None), w)
      | inl None => drain fuel len w
      | inl (Some p) =>
          let '(err, wr) := WriteRTP p (fw_writer w) in
          let w := mkFileWriter (fw_buffer w) wr in
          match err with
          | Some err => Some ((len, Some err), w)
          | None => drain fuel len w
          end
      end
  end.

Definition fileWriter_Write (fuel : nat) (buf : list byte) (w : fileWriter J W)
    : option ((Z * option goerror) * fileWriter J W) :=
  (* copy into a slice of the same length *)
  let c := take (length buf) buf in
  let n := Z.of_nat (length c) in
  if decide (n ≠ Z.of_nat (length buf)) then Some ((n, Some (EOther "copy error")), w)
  else
    match Unmarshal c with
    | inr err => Some ((Z.of_nat (length buf), Some err), w)
    | inl pkt =>
        drain fuel (Z.of_nat (length buf)) (mkFileWriter (JB_Push pkt (fw_buffer w)) (fw_writer w))
    end.

Definition fileWriter_Close (w : fileWriter J W) : option goerror * fileWriter J W :=
  let '(err, wr) := RTPWriter_Close (fw_writer w) in (err, mkFileWriter (fw_buffer w) wr).
End fileWriter.

(** ** What [Write] does *)

(** Successive calls of [Pop] succeed with these packets; nil packets are left out. *)
Inductive pops {Pkt J : Type} `{!JitterBuffer Pkt J} : J → list Pkt → J → Prop :=
  | pops_none j : pops j [] j
  | pops_nil j j1 ps j' : JB_Pop j = (inl None, j1) → pops j1 ps j' → pops j ps j'
  | pops_packet j p j1 ps j' : JB_Pop j = (inl (Some p), j1) → pops j1 ps j' → pops j (p :: ps) j'.

(** Writing the packets one after the other succeeds. *)
Inductive writes {Pkt W : Type} `{!RTPWriter Pkt W} : W → list Pkt → W → Prop :=
  | writes_none w : writes w [] w
  | writes_packet w p w1 ps w' : WriteRTP p w = (None, w1) → writes w1 ps w' → writes w (p :: ps) w'.

Section correctness.
Context {Pkt J W : Type} `{!RTP Pkt, !JitterBuffer Pkt J, !JitterBufferLaws Pkt J, !RTPWriter Pkt W}.
Implicit Types (w : fileWriter J W).

(** The loop ends, having written what it popped: either until [Pop] failed, or
    until a packet could not be written. *)
Definition drained (err : option goerror) w w' : Prop :=
  ∃ ps j wr, pops (fw_buffer w) ps j ∧ writes (fw_writer w) ps wr ∧
    match err with
    | None => (∃ e, JB_Pop j = (inr e, fw_buffer w')) ∧ fw_writer w' = wr
    | Some e => ∃ p, JB_Pop j = (inl (Some p), fw_buffer w') ∧ WriteRTP p wr = (Some e, fw_writer w')
    end.

Lemma drain_spec fuel len w : JB_held (fw_buffer w) < fuel →
  ∃ err w', drain fuel len w = Some ((len, err), w') ∧ drained err w w'.
Proof.
  revert w. induction fuel as [|fuel IH]; intros [j wr] Hfuel; [lia|]. simpl in *.
  destruct (JB_Pop j) as [[[p|]|e] j1] eqn:Hpop.
  - apply JB_Pop_held in Hpop as Hlt. destruct (WriteRTP p wr) as [[e|] wr1] eqn:Hw.
    { eexists _, _. split; [done|]. exists [], j, wr. split; [constructor|]. split; [constructor|].
      by exists p. }
    destruct (IH (mkFileWriter j1 wr1)) as (err & w' & -> & ps & j' & wr' & Hp & Hwr & Herr);
      [simpl; lia|].
    exists err, w'. split; [done|]. exists (p :: ps), j', wr'. split; [by econstructor|].
    split; [by econstructor|done].
  - apply JB_Pop_held in Hpop as Hlt.
    destruct (IH (mkFileWriter j1 wr)) as (err & w' & -> & ps & j' & wr' & Hp & Hwr & Herr); [simpl; lia|].
    exists err, w'. split; [done|]. exists ps, j', wr'. split; [by eapply pops_nil|done].
  - eexists _, _. split; [done|]. exists [], j, wr. split; [constructor|]. split; [constructor|].
    simpl. eauto.
Qed.

(** Enough fuel for [Write]. *)
Definition write_fuel (buf : list byte) w : nat :=
  match Unmarshal buf with
  | inl pkt => S (JB_held (JB_Push pkt (fw_buffer w)))
  | inr _ => 0
  end.

Lemma fileWriter_Write_total buf w : is_Some (fileWriter_Write (write_fuel buf w) buf w).
Proof.
  unfold fileWriter_Write, write_fuel. rewrite take_ge, decide_False by (done || lia).
  destruct (Unmarshal buf) as [pkt|e]; [|done].
  destruct (drain_spec (S (JB_held (JB_Push pkt (fw_buffer w)))) (Z.of_nat (length buf))
    (mkFileWriter (JB_Push pkt (fw_buffer w)) (fw_writer w))) as (err & w' & Hd & _); [simpl; lia|].
  rewrite Hd. done.
Qed.

(** C36: [Write] of a [fileWriter] comes to an end, after at most one more iteration
    than the jitter buffer holds packets, and reports the whole slice as written.
    A slice that is no RTP packet is refused and changes nothing; a packet is pushed
    into the buffer, and the packets the buffer then releases are written in that
    order, until [Pop] fails, which is no error of [Write], or until one of them
    cannot be written, whose error is returned. *)
Theorem fileWriter_Write_terminates (buf : list byte) (w : fileWriter J W) (fuel : nat)
    (Hfuel : ∀ pkt, Unmarshal buf = inl pkt → JB_held (JB_Push pkt (fw_buffer w)) < fuel) :
  ∃ err w', fileWriter_Write fuel buf w = Some ((Z.of_nat (length buf), err), w') ∧
    match Unmarshal buf with
    | inr e => err = Some e ∧ w' = w
    | inl pkt => drained err (mkFileWriter (JB_Push pkt (fw_buffer w)) (fw_writer w)) w'
    end.
Proof.
  unfold fileWriter_Write. rewrite take_ge, decide_False by (done || lia).
  destruct (Unmarshal buf) as [pkt|e]; [|eauto]. apply drain_spec. simpl. auto.
Qed.
End correctness.

(** A [fileWriter] is an [io.WriteCloser]. *)
#[export] Instance fileWriter_WriteCloser {Pkt J W : Type} `{!RTP Pkt, !JitterBuffer Pkt J,
    !JitterBufferLaws Pkt J, !RTPWriter Pkt W} : WriteCloser (fileWriter J W) := {|
  Writer_Write buf w := default ((0%Z, None), w) (fileWriter_Write (write_fuel buf w) buf w);
  Writer_Close := fileWriter_Close
|}.

(** ** A run *)

Section witnesses.
(** A jitter buffer that releases a packet once it holds two more, and a writer that
    keeps a list. *)
#[local] Instance delay_buffer : JitterBuffer samplePacket (list samplePacket) := {|
  JB_New := [];
  JB_Push p j := j ++ [p];
  JB_Pop j := match j with
              | p :: (_ :: _ :: _) as j' => (inl (Some p), tail j)
              | _ => (inr (EOther "not enough packets"), j)
              end
|}.

#[local] Program Instance delay_buffer_laws : JitterBufferLaws samplePacket (list samplePacket) := {|
  JB_held := length
|}.
Next Obligation.
  intros j p j'. simpl. destruct j as [|p0 [|p1 [|p2 j]]]; try done. intros [= _ <-]. simpl. lia.
Qed.

#[local] Instance list_writer : RTPWriter samplePacket (list samplePacket) := {|
  WriteRTP p w := (None, w ++ [p]);
  RTPWriter_Close w := (None, w)
|}.

Lemma fileWriter_Write_terminates_witness :
  ∃ err w', fileWriter_Write (Pkt := samplePacket) 4 (bytes [9; 42]%Z)
      (mkFileWriter [mkSample Byte.x01 []; mkSample Byte.x02 []] []) = Some ((2%Z, err), w') ∧
    fw_writer w' = [mkSample Byte.x01 []].
Proof.
  destruct (fileWriter_Write_terminates (Pkt := samplePacket) (bytes [9; 42]%Z)
    (mkFileWriter [mkSample Byte.x01 []; mkSample Byte.x02 []] []) 4) as (err & w' & Hrun & _).
  - intros pkt [= <-]. vm_compute. lia.
  - exists err, w'. split; [exact Hrun|]. vm_compute in Hrun. injection Hrun as _ <-. reflexivity.
Defined.
End witnesses.
