(* ===== verification/InteropReceiver.v ===== *)
(** * examples/interop/receiver.go: copying a flow to a writer

    [receive] creates a receive flow and runs [io.Copy] from it. The loop of
    [io.Copy] is [receive_iter], one iteration from one [Read] to the next; a [Read]
    that has to wait makes it [None]. [receive] runs the iterations one after the
    other, and [rexec] lets the goroutines of the session and the rest of the
    application run between them. *)

From S2P Require Import Prelude GoErrors IO Varint QlogEvent Qlogger Options SyncMap Connection.
From S2P Require Import RTPSendStream SendFlow PacketBuffer Deadline ReceiveFlow ReadStream.
From S2P Require Import ReceiveFlowBuffer Session SessionSpec SessionMoves SessionSteps EndToEnd Delivery Media.

Record receiver (C : Type) := mkReceiver { rcv_session : Session C }.
Arguments mkReceiver {C} _.
Arguments rcv_session {C} _.

Definition newReceiver {C} (conn : option C) (connTrace : option (option Trace))
    : (receiver C * list loop) + goerror :=
  match NewSession conn connTrace true [] with
  | inr err => inr err
  | inl (session, loops) => inl (mkReceiver session, loops)
  end.

(** The size of the buffer [io.Copy] allocates, which its documentation leaves open;
    32 KiB at present. *)
Class GoCopyBuffer := { copyBufSize : nat }.
Definition copyBuf `{!GoCopyBuffer} : list byte := replicate copyBufSize Byte.x00.

Lemma length_copyBuf `{!GoCopyBuffer} : length copyBuf = copyBufSize.
Proof. apply length_replicate. Qed.

(** A call of [receive]: in its loop, with the flow, the buffer and the bytes
    written so far, or returned. *)
Inductive rcv_state :=
  | RcvCopying (flow : nat) (buf : list byte) (written : Z)
  | RcvReturned (err : option goerror).

Section receiver.
Context `{!QuicVarint, !GoPool, !GoMapOrder, !GoCopyBuffer} {C : Type} `{!Connection C}.
Context {W : Type} `{!WriteCloser W}.
Implicit Types (s : Session C).

(** The body of the loop of [io.Copy] after [Read] has returned [nr] and [er]: the
    bytes written, and the error it breaks with, if it does. *)
Definition copy_body (buf : list byte) (nr : Z) (er : option goerror) (written : Z) (w : W)
    : Z * option (option goerror) * W :=
  let '(written, ew, w) :=
    if decide (0 < nr)%Z then
      let '((nw, ew), w) := Writer_Write (take (Z.to_nat nr) buf) w in
      let '(nw, ew) :=
        if decide (nw < 0 ∨ nr < nw)%Z then
          (0%Z, match ew with None => Some (EOther "invalid write result") | Some e => Some e end)
        else (nw, ew) in
      let written := (written + nw)%Z in
      match ew with
      | Some e => (written, Some e, w)
      | None => if decide (nr ≠ nw) then (written, Some ErrShortWrite, w) else (written, None, w)
      end
    else (written, None, w) in
  match ew with
  | Some e => (written, Some (Some e), w)
  | None =>
      match er with
      | Some e => (written, Some (if is_EOF e then None else Some e), w)
      | None => (written, None, w)
      end
  end.

(** The calls [receive] deferred: the writer is closed first. *)
Definition receive_deferred (flow : nat) (w : W) s : outcome (W * Session C) :=
  let '(_, w) := Writer_Close w in
  '(_, s) ← closeReceiveFlow flow s;
  Ret (w, s).

(** One iteration; [None] as long as [Read] blocks. *)
Definition receive_iter (prefer : select_case) (flow : nat) (buf : list byte) (written : Z) (w : W) s
    : outcome (option (rcv_state * W * Session C)) :=
  res ← app_Read flow prefer buf s;
  match res with
  | None => Ret None
  | Some ((nr, er, buf), s) =>
      let '(written, brk, w) := copy_body buf nr er written w in
      match brk with
      | None => Ret (Some (RcvCopying flow buf written, w, s))
      | Some err =>
          '(w, s) ← receive_deferred flow w s;
          Ret (Some (RcvReturned err, w, s))
      end
  end.

Definition receive_start (flowID : Z) s : outcome (rcv_state * Session C) :=
  '(res, s) ← NewReceiveFlow flowID s;
  match res with
  | inr err => Ret (RcvReturned (Some err), s)
  | inl flow => Ret (RcvCopying flow copyBuf 0, s)
  end.

(** The loop with nothing else running, until it returns or blocks. *)
Fixpoint receive_loop (fuel : nat) (prefer : select_case) (st : rcv_state) (w : W) s
    : outcome (rcv_state * W * Session C) :=
  match fuel, st with
  | S fuel, RcvCopying flow buf written =>
      res ← receive_iter prefer flow buf written w s;
      match res with
      | None => Ret (st, w, s)
      | Some (st, w, s) => receive_loop fuel prefer st w s
      end
  | _, _ => Ret (st, w, s)
  end.

Definition receive (fuel : nat) (prefer : select_case) (flowID : Z) (w : W) (r : receiver C)
    : outcome (rcv_state * W * receiver C) :=
  '(st, s) ← receive_start flowID (rcv_session r);
  '(st, w, s) ← receive_loop fuel prefer st w s;
  Ret (st, w, mkReceiver s).

Definition receiver_Close (r : receiver C) : outcome (option goerror * receiver C) :=
  '(err, s) ← Session_Close (rcv_session r); Ret (err, mkReceiver s).

(** ** Interleaving with the session *)

(** A [receive] call in progress, and what it has given to [Write] so far. *)
Record rconfig := mkRConfig {
  rc_state : rcv_state;
  rc_writer : W;
  rc_given : list (list byte);
  rc_sc : sconfig C
}.

Inductive rlabel :=
  | RIter (prefer : select_case)   (* an iteration of io.Copy *)
  | RSession (l : slabel).         (* a step of the session or of the application *)

(** The packet an iteration would hand to [Write]. *)
Definition next_given (flow : nat) (prefer : select_case) (buf : list byte) s : list (list byte) :=
  match app_Read flow prefer buf s with
  | Ret (Some ((nr, _, buf), _)) => if decide (0 < nr)%Z then [take (Z.to_nat nr) buf] else []
  | _ => []
  end.

Definition set_sc_sess s (c : sconfig C) : sconfig C :=
  mkConfigS s (sc_loops c) (sc_handlers c) (sc_closing c) (sc_returned c).

(** The flow is read by this call alone. *)
Definition reads_flow (flow : nat) (l : slabel) : bool :=
  match l with LOp (ORead r _ _) => bool_decide (r = flow) | _ => false end.

Definition rexec (l : rlabel) (c : rconfig) : option (outcome rconfig) :=
  match l, rc_state c with
  | RIter prefer, RcvCopying flow buf written =>
      match receive_iter prefer flow buf written (rc_writer c) (sc_sess (rc_sc c)) with
      | Panic p => Some (Panic p)
      | Ret None => None
      | Ret (Some (st, w, s)) =>
          Some (Ret (mkRConfig st w (rc_given c ++ next_given flow prefer buf (sc_sess (rc_sc c)))
                      (set_sc_sess s (rc_sc c))))
      end
  | RSession l, RcvCopying flow _ _ =>
      if reads_flow flow l then None
      else match sexec l (rc_sc c) with
           | None => None
           | Some res => Some (sc ← res; Ret (mkRConfig (rc_state c) (rc_writer c) (rc_given c) sc))
           end
  | _, RcvReturned _ => None
  end.

Definition rstep (c c' : rconfig) : Prop := ∃ l, rexec l c = Some (Ret c').

(** A sequence of steps. *)
Fixpoint rrun (ls : list rlabel) (c : rconfig) : option rconfig :=
  match ls with
  | [] => Some c
  | l :: ls => match rexec l c with Some (Ret c) => rrun ls c | _ => None end
  end.

(** [receive] with the goroutines of the session and of the application running as
    [sched] says; a step that is not possible at its time is skipped. *)
Fixpoint receive_under (sched : list rlabel) (c : rconfig) : outcome rconfig :=
  match sched with
  | [] => Ret c
  | l :: sched =>
      match rexec l c with
      | None => receive_under sched c
      | Some res => c ← res; receive_under sched c
      end
  end.

Lemma rrun_steps ls c c' : rrun ls c = Some c' → rtc rstep c c'.
Proof.
  revert c. induction ls as [|l ls IH]; intros c; simpl; [by intros [= <-]|].
  destruct (rexec l c) as [[c1|]|] eqn:He; try done. intros Hrun.
  eapply rtc_l; [by exists l|by apply IH].
Qed.
End receiver.
Arguments rconfig C W : clear implicits.

(** ** What an iteration does *)

Section correctness.
Context `{QuicVarintLaws, !GoPool, !GoMapOrder, !GoCopyBuffer} {C : Type} `{ConnectionLaws C}.
Context {W : Type} `{!WriteCloser W}.
Implicit Types (s : Session C) (w : W).

(** The packets that make [io.Copy] call [Write]. *)
Definition nonempty (ps : list (list byte)) : list (list byte) := filter (λ p, p ≠ []) ps.

(** An empty packet is no reason to write, any other is written whole. *)
Definition wrote_packet (p : list byte) w w' : Prop :=
  if decide (p = []) then w' = w else Writer_Write p w = ((Z.of_nat (length p), None), w').

(** Why a call of [receive] returns [e]: the deadline, a packet larger than the
    buffer, the end of a closed flow, or the writer. *)
Definition return_reason (f : ReceiveFlow) (e : goerror) w w' : Prop :=
  (deadlineExpired (rf_deadline f) = true ∧ e = ErrDeadlineExceeded ∧ w' = w) ∨
  (∃ p ps, rf_packets f = p :: ps ∧ copyBufSize < length p ∧ e = ErrShortBuffer ∧ w' = w) ∨
  (rf_packets f = [] ∧ rf_closed f = true ∧ deadlineExpired (rf_deadline f) = false ∧
     e = ContextCanceled ∧ w' = w) ∨
  (∃ p ps nw ew, rf_packets f = p :: ps ∧ p ≠ [] ∧ Writer_Write p w = ((nw, ew), w') ∧
     (ew ≠ None ∨ nw ≠ Z.of_nat (length p))).

Lemma copy_body_none buf er n w :
  copy_body buf 0 er n w =
    (n, match er with Some e => Some (if is_EOF e then None else Some e) | None => None end, w).
Proof. unfold copy_body. rewrite decide_False by lia. by destruct er. Qed.

Lemma copy_body_error buf e n w : is_EOF e = false → copy_body buf 0 (Some e) n w = (n, Some (Some e), w).
Proof. intros He. by rewrite copy_body_none, He. Qed.

Lemma copy_body_packet p buf n w : p ≠ [] →
  ∃ n' brk w', copy_body (p ++ buf) (Z.of_nat (length p)) None n w = (n', brk, w') ∧
    match brk with
    | None => Writer_Write p w = ((Z.of_nat (length p), None), w')
    | Some err => err ≠ None ∧ ∃ nw ew, Writer_Write p w = ((nw, ew), w') ∧
        (ew ≠ None ∨ nw ≠ Z.of_nat (length p))
    end.
Proof.
  intros Hp. assert (0 < length p) by (destruct p; simpl; [done|lia]).
  unfold copy_body. rewrite decide_True, Nat2Z.id, take_app_length by lia.
  destruct (Writer_Write p w) as [[nw ew] w'] eqn:Hw.
  destruct (decide (nw < 0 ∨ Z.of_nat (length p) < nw)%Z) as [Hbad|Hok].
  - destruct ew as [e|]; eexists _, _, w'; (split; [done|]); (split; [done|]); eexists _, _;
      (split; [done|]); [by left|right; lia].
  - destruct ew as [e|].
    { eexists _, _, w'. split; [done|]. split; [done|]. eexists _, _. split; [done|]. by left. }
    case_decide as Hn; eexists _, _, w'; (split; [done|]).
    + split; [done|]. eexists _, _. split; [done|]. right. lia.
    + by replace nw with (Z.of_nat (length p)) by lia.
Qed.

Lemma receive_deferred_spec flow f w s : sess_inv s → s_rfs s !! flow = Some f →
  ∃ f' s', receive_deferred flow w s = Ret (snd (Writer_Close w), s') ∧ sess_inv s' ∧ stable s s' ∧
    s_rfs s' !! flow = Some f' ∧ rf_closed f' = true ∧ rf_packets f' = rf_packets f.
Proof.
  intros Hinv Hr. unfold receive_deferred. destruct (Writer_Close w) as [e w'].
  destruct (closeReceiveFlow_inv flow s Hinv) as (err & s' & Hrun & Hinv' & Hst); [by eapply lookup_lt_Some|].
  destruct (closeReceiveFlow_spec flow f s (proj1 Hinv) Hr) as (f' & es & Hrun' & (_ & _ & Hp & Hcl & _) & _).
  rewrite Hrun in Hrun'. injection Hrun' as _ Hs'. rewrite Hrun. bind_simpl. exists f', s'.
  split_and!; try done. rewrite Hs'. simpl. apply list_lookup_insert_eq. by eapply lookup_lt_Some.
Qed.

(** What an iteration makes of the flow it reads from. *)
Definition iter_post (flow : nat) (f : ReceiveFlow) (buf : list byte) w s
    (given : list (list byte)) (res : option (rcv_state * W * Session C)) : Prop :=
  match res with
  | None => rf_packets f = [] ∧ rf_closed f = false ∧ deadlineExpired (rf_deadline f) = false
  | Some (RcvCopying flow' buf' _, w', s') => flow' = flow ∧ length buf' = length buf ∧
      sess_inv s' ∧ stable s s' ∧ ∃ p ps f', rf_packets f = p :: ps ∧ s_rfs s' !! flow = Some f' ∧
        rf_packets f' = ps ∧ rf_closed f' = rf_closed f ∧ rf_deadline f' = rf_deadline f ∧
        wrote_packet p w w' ∧ given = nonempty [p]
  | Some (RcvReturned err, w', s') => sess_inv s' ∧ stable s s' ∧
      (∃ f', s_rfs s' !! flow = Some f' ∧ rf_closed f' = true) ∧ given `prefix_of` nonempty (rf_packets f) ∧
      ∃ e w1, err = Some e ∧ return_reason f e w w1 ∧ w' = snd (Writer_Close w1)
  end.

Lemma app_Read_run flow prefer buf f s : s_rfs s !! flow = Some f →
  app_Read flow prefer buf s = Ret (match ReceiveFlow.Read 1 prefer buf f with
    | Some (res, f') => Some (res, set_rf flow f' s) | None => None end).
Proof.
  intros Hr. unfold app_Read, deref. rewrite Hr. bind_simpl.
  by destruct (ReceiveFlow.Read 1 prefer buf f) as [[res f']|].
Qed.

(** The iteration breaks out of the loop. *)
Lemma receive_iter_return prefer flow buf n w s f f1 nr er buf1 n' err w1 :
  sess_inv s → s_rfs s !! flow = Some f → sess_inv (set_rf flow f1 s) →
  ReceiveFlow.Read 1 prefer buf f = Some ((nr, er, buf1), f1) →
  copy_body buf1 nr er n w = (n', Some (Some err), w1) → return_reason f err w w1 →
  next_given flow prefer buf s `prefix_of` nonempty (rf_packets f) →
  ∃ res, receive_iter prefer flow buf n w s = Ret res ∧
    iter_post flow f buf w s (next_given flow prefer buf s) res.
Proof.
  intros Hinv Hr Hinv1 Hread Hbody Hreason Hgiven. unfold receive_iter.
  rewrite (app_Read_run flow prefer buf f s Hr), Hread. bind_simpl. rewrite Hbody.
  destruct (receive_deferred_spec flow f1 w1 (set_rf flow f1 s) Hinv1)
    as (f' & s' & -> & Hinv' & Hst & Hr' & Hcl & _).
  { simpl. apply list_lookup_insert_eq. by eapply lookup_lt_Some. }
  bind_simpl. eexists; split; [done|]. split; [done|]. split; [done|]. split; [by exists f'|]. split; [done|].
  by exists err, w1.
Qed.

(** What [Read] leaves behind, and what [io.Copy] then writes. *)
Lemma receive_read prefer flow buf s f nr er buf1 f1 : sess_inv s → s_rfs s !! flow = Some f →
  ReceiveFlow.Read 1 prefer buf f = Some ((nr, er, buf1), f1) →
  next_given flow prefer buf s = (if decide (0 < nr)%Z then [take (Z.to_nat nr) buf1] else []) ∧
  sess_inv (set_rf flow f1 s) ∧ stable s (set_rf flow f1 s).
Proof.
  intros Hinv Hr Hrd. destruct (app_Read_inv flow prefer buf s Hinv) as (rr & Hrr & Hrinv);
    [by eapply lookup_lt_Some|].
  unfold next_given. rewrite (app_Read_run flow prefer buf f s Hr), Hrd in *.
  injection Hrr as <-. split; [done|]. by eapply Hrinv.
Qed.

(** The iteration goes on with the next packet. *)
Lemma receive_iter_continue prefer flow buf n w s f f1 p ps n' w' :
  sess_inv s → s_rfs s !! flow = Some f → length p ≤ length buf →
  ReceiveFlow.Read 1 prefer buf f = Some ((Z.of_nat (length p), None, p ++ drop (length p) buf), f1) →
  rf_packets f = p :: ps → rf_packets f1 = ps → rf_closed f1 = rf_closed f →
  rf_deadline f1 = rf_deadline f → next_given flow prefer buf s = nonempty [p] →
  copy_body (p ++ drop (length p) buf) (Z.of_nat (length p)) None n w = (n', None, w') →
  wrote_packet p w w' →
  ∃ res, receive_iter prefer flow buf n w s = Ret res ∧
    iter_post flow f buf w s (next_given flow prefer buf s) res.
Proof.
  intros Hinv Hr Hl Hread Hps Hps1 Hcl1 Hdl1 Hgiven Hbody Hw.
  destruct (receive_read _ _ _ _ _ _ _ _ _ Hinv Hr Hread) as (_ & Hinv1 & Hst1).
  unfold receive_iter. rewrite (app_Read_run flow prefer buf f s Hr), Hread.
  bind_simpl. rewrite Hbody. eexists; split; [done|]. split; [done|].
  split; [rewrite length_app, length_drop; lia|]. split; [done|]. split; [done|].
  exists p, ps, f1. split_and!; try done. simpl. apply list_lookup_insert_eq. by eapply lookup_lt_Some.
Qed.

Lemma receive_iter_spec prefer flow buf n w s f : sess_inv s → s_rfs s !! flow = Some f →
  length buf = copyBufSize →
  ∃ res, receive_iter prefer flow buf n w s = Ret res ∧
    iter_post flow f buf w s (next_given flow prefer buf s) res.
Proof.
  intros Hinv Hr Hbuf. pose proof (ti_rf _ _ _ (proj1 Hinv) Hr) as Hfi.
  pose proof (Read_spec [] 0 prefer buf f Hfi) as Hread.
  pose proof (λ nr er buf1 f1, receive_read prefer flow buf s f nr er buf1 f1 Hinv Hr) as Hnext.
  destruct (deadlineExpired (rf_deadline f)) eqn:Hdl.
  { destruct (Hnext _ _ _ _ Hread) as (Hg & Hinv1 & _).
    eapply receive_iter_return; [done..|by apply copy_body_error|by left|].
    rewrite Hg, decide_False by lia. apply prefix_nil. }
  destruct (rf_packets f) as [|p ps] eqn:Hps.
  { destruct (rf_closed f) eqn:Hcl.
    - destruct (Hnext _ _ _ _ Hread) as (Hg & Hinv1 & _).
      eapply receive_iter_return; [done..|by apply copy_body_error|by right; right; left|].
      rewrite Hg, decide_False by lia. apply prefix_nil.
    - unfold receive_iter. rewrite (app_Read_run flow prefer buf f s Hr), Hread. bind_simpl.
      by eexists. }
  destruct Hread as (f1 & Hread & Hfi1 & Hps1 & Hcl1 & _ & Hdl1 & _). unfold read_packet in Hread.
  case_decide as Hshort; destruct (Hnext _ _ _ _ Hread) as (Hg & Hinv1 & _).
  { eapply receive_iter_return; [done..|by apply copy_body_error| |].
    - right. left. exists p, ps. by rewrite <- Hbuf.
    - rewrite Hg, decide_False by lia. apply prefix_nil. }
  assert (next_given flow prefer buf s = nonempty [p]) as Hgiven.
  { rewrite Hg. destruct p as [|b p]; [done|]. rewrite decide_True by (simpl; lia).
    by rewrite Nat2Z.id, take_app_length. }
  destruct (decide (p = [])) as [->|Hp].
  { eapply (receive_iter_continue _ _ _ _ _ _ _ f1 [] ps); [done|done|simpl; lia|done..|apply (copy_body_none _ None)|done]. }
  destruct (copy_body_packet p (drop (length p) buf) n w Hp) as (n' & [err|] & w' & Hbody & Hbrk).
  2:{ eapply (receive_iter_continue _ _ _ _ _ _ _ f1 p ps); [done|done|lia|done..|]. unfold wrote_packet. by rewrite decide_False. }
  destruct Hbrk as [Herr (nw & ew & Hw & Hbad)]. destruct err as [err|]; [|done].
  eapply receive_iter_return; [done..| |].
  - right. right. right. by exists p, ps, nw, ew.
  - rewrite Hgiven, Hps. unfold nonempty. rewrite !filter_cons_True by done. apply prefix_cons, prefix_nil.
Qed.

Lemma receive_start_inv id s flow buf n s' :
  receive_start id s = Ret (RcvCopying flow buf n, s') → NewReceiveFlow id s = Ret (inl flow, s') ∧ buf = copyBuf.
Proof.
  unfold receive_start. intros ([[r|e] s0] & Hnew & Hres)%bind_ret_inv; [|done].
  injection Hres as -> <- _ ->. done.
Qed.

(** ** The loop on a closed flow *)

(** Successive writes take whole packets. *)
Inductive wrote : W → list (list byte) → W → Prop :=
  | wrote_nil w : wrote w [] w
  | wrote_cons w p w1 ps w' : wrote_packet p w w1 → wrote w1 ps w' → wrote w (p :: ps) w'.

Lemma receive_loop_spec prefer flow buf n w s f ps : sess_inv s → s_rfs s !! flow = Some f →
  length buf = copyBufSize → rf_closed f = true → rf_packets f = ps →
  ∃ dn todo f1 e w1 w2 s', ps = dn ++ todo ∧ rf_packets f1 = todo ∧ rf_closed f1 = true ∧
    rf_deadline f1 = rf_deadline f ∧
    receive_loop (S (length ps)) prefer (RcvCopying flow buf n) w s =
      Ret (RcvReturned (Some e), snd (Writer_Close w2), s') ∧
    sess_inv s' ∧ wrote w dn w1 ∧ return_reason f1 e w1 w2 ∧
    ∃ f', s_rfs s' !! flow = Some f' ∧ rf_closed f' = true.
Proof.
  revert buf n w s f. induction ps as [|p ps IH]; intros buf n w s f Hinv Hr Hbuf Hcl Hps;
    destruct (receive_iter_spec prefer flow buf n w s f Hinv Hr Hbuf) as (res & Hrun & Hpost);
    cbn [receive_loop]; rewrite Hrun; bind_simpl; (destruct res as [[[[flow' buf' n'|err] w'] s']|];
      [| |by destruct Hpost as (_ & ? & _); congruence]).
  - destruct Hpost as (_ & _ & _ & _ & p & ps & f' & Hp & _). congruence.
  - destruct Hpost as (Hinv' & _ & Hf' & _ & e & w1 & -> & Hreason & ->).
    exists [], [], f, e, w, w1, s'. split_and!; try done. constructor.
  - destruct Hpost as (-> & Hbuf' & Hinv' & _ & p' & ps' & f' & Hp & Hr' & Hps' & Hcl' & Hdl' & Hw & _).
    rewrite Hps in Hp. injection Hp as <- <-.
    destruct (IH buf' n' w' s' f') as (dn & todo & f1 & e & w1 & w2 & s2 & -> & Ht & Hc & Hd & Hloop & Hi & Hwr & Hre & Hf2);
      [done|done|congruence|congruence|done|].
    exists (p :: dn), todo, f1, e, w1, w2, s2. split_and!; try done; [congruence|]. by econstructor.
  - destruct Hpost as (Hinv' & _ & Hf' & _ & e & w1 & -> & Hreason & ->).
    exists [], (p :: ps), f, e, w, w1, s'. split_and!; try done. constructor.
Qed.

(** ** Interleaved with the session *)

Definition rc_inv (c : rconfig C W) : Prop := sc_inv (rc_sc c) ∧
  match rc_state c with
  | RcvCopying flow buf _ => length buf = copyBufSize ∧ flow < length (s_rfs (sc_sess (rc_sc c)))
  | RcvReturned _ => True
  end.

(** The packets that are queued for the call, and will be written. *)
Definition waiting (c : rconfig C W) : list (list byte) :=
  match rc_state c with
  | RcvCopying flow _ _ => nonempty (default [] (rf_packets <$> s_rfs (sc_sess (rc_sc c)) !! flow))
  | RcvReturned _ => []
  end.

Lemma nonempty_prefix ps qs : ps `prefix_of` qs → nonempty ps `prefix_of` nonempty qs.
Proof. intros [rest ->]. unfold nonempty. rewrite filter_app. by apply prefix_app_r. Qed.

Lemma sc_inv_set_sess s (c : sconfig C) : sc_inv c → sess_inv s → stable (sc_sess c) s →
  sc_inv (set_sc_sess s c).
Proof. intros Hc Hs Hst. destruct c. by eapply sc_inv_step. Qed.

(** What a step does to the packets given to the writer and those that wait. *)
Definition in_order (c c' : rconfig C W) : Prop :=
  match rc_state c' with
  | RcvCopying _ _ _ => rc_given c ++ waiting c `prefix_of` rc_given c' ++ waiting c'
  | RcvReturned err => err ≠ None ∧ rc_given c' `prefix_of` rc_given c ++ waiting c
  end.

Lemma rexec_iter_spec prefer (c : rconfig C W) m : rc_inv c → rexec (RIter prefer) c = Some m →
  ∃ c', m = Ret c' ∧ rc_inv c' ∧ in_order c c'.
Proof.
  destruct c as [[flow buf n|err] w given sc]; intros [Hsc Hst] He; [|done]. simpl in *.
  destruct Hst as [Hbuf (f & Hr & _)%deref_lt]. pose proof (ci_sess _ Hsc) as Hinv.
  destruct (receive_iter_spec prefer flow buf n w (sc_sess sc) f Hinv Hr Hbuf) as (res & Hrun & Hpost).
  rewrite Hrun in He. destruct res as [[[[flow' buf' n'|err] w'] s']|]; [| |done]; injection He as <-.
  - destruct Hpost as (-> & Hb & Hinv' & Hstab & p & ps & f' & Hp & Hr' & Hp' & _ & _ & _ & Hg).
    eexists; split; [done|]. split.
    + split; simpl; [by apply sc_inv_set_sess|]. split; [congruence|by eapply lookup_lt_Some].
    + unfold in_order, waiting. simpl. rewrite Hr, Hr', Hg. simpl. rewrite Hp, Hp', <- app_assoc.
      unfold nonempty. rewrite <- filter_app. done.
  - destruct Hpost as (Hinv' & Hstab & _ & Hg & e & w1 & -> & _). eexists; split; [done|]. split.
    + split; simpl; [by apply sc_inv_set_sess|done].
    + unfold in_order, waiting. simpl. split; [done|]. rewrite Hr. simpl. by apply prefix_app.
Qed.

(** The step creates no send flow whose ID has no encoding. *)
Definition rlabel_fits (l : rlabel) : bool :=
  match l with RIter _ => true | RSession l => label_fits l end.

Lemma rexec_cases l (c : rconfig C W) m : rc_inv c → rexec l c = Some m →
  (∃ c', m = Ret c' ∧ rc_inv c' ∧ in_order c c') ∨ rlabel_fits l = false ∧ m = Panic PanicVarintRange.
Proof.
  destruct l as [prefer|l]; [by intros; left; eapply rexec_iter_spec|].
  destruct c as [[flow buf n|err] w given sc]; intros [Hsc Hst] He; [|done]. simpl in *.
  destruct Hst as [Hbuf (f & Hr & _)%deref_lt]. destruct (reads_flow flow l) eqn:Hreads; [done|].
  destruct (sexec l sc) as [res|] eqn:Hex; [|done]. injection He as <-.
  destruct (sexec_cases l sc res Hsc Hex) as [(sc' & -> & Hsc' & _)|[? ->]]; [left|by right]. bind_simpl.
  destruct (kept_sexec flow l sc sc' Hsc) with (f := f) as (f' & Hr' & Hpre & _); [|done..|].
  { destruct l as [[]| | | | | |]; try done. simpl in Hreads. by apply bool_decide_eq_false in Hreads. }
  eexists; split; [done|]. split.
  - split; [done|]. simpl. split; [done|by eapply lookup_lt_Some].
  - unfold in_order, waiting. simpl. rewrite Hr, Hr'. simpl. by apply prefix_app, nonempty_prefix.
Qed.

Lemma receive_under_spec sched (c : rconfig C W) : Forall rlabel_fits sched → rc_inv c →
  ∃ c', receive_under sched c = Ret c' ∧ rc_inv c' ∧ rtc rstep c c'.
Proof.
  intros Hfits. revert c. induction Hfits as [|l sched Hfit _ IH]; intros c Hinv; simpl.
  { exists c. split; [done|]. split; [done|apply rtc_refl]. }
  destruct (rexec l c) as [res|] eqn:He; [|by apply IH].
  destruct (rexec_cases l c res Hinv He) as [(c1 & -> & Hinv1 & _)|[Hf _]]; [|by rewrite Hf in Hfit]. bind_simpl.
  destruct (IH c1 Hinv1) as (c' & Hrun & Hinv' & Hsteps). exists c'. split; [done|]. split; [done|].
  eapply rtc_l; [by exists l|done].
Qed.

Lemma rsteps_returned (c c' : rconfig C W) err : rc_state c = RcvReturned err → rtc rstep c c' → c' = c.
Proof.
  intros Hst Hsteps. inversion Hsteps as [|? c1 ? [l Hex] _]; [done|]. unfold rexec in Hex.
  rewrite Hst in Hex. by destruct l.
Qed.

Lemma rsteps_spec (c c' : rconfig C W) : rc_inv c → rtc rstep c c' → rc_inv c' ∧
  ∃ all, rc_given c ++ waiting c `prefix_of` all ∧ rc_given c' `prefix_of` all ∧
    match rc_state c' with
    | RcvCopying _ _ _ => all = rc_given c' ++ waiting c'
    | RcvReturned err => rc_state c = RcvReturned err ∨ err ≠ None
    end.
Proof.
  intros Hinv Hsteps. revert Hinv. induction Hsteps as [c|c c1 c' [l Hex] Hrest IH]; intros Hinv.
  { split; [done|]. exists (rc_given c ++ waiting c). split; [done|]. split; [by apply prefix_app_r|].
    destruct (rc_state c); [done|by left]. }
  destruct (rexec_cases l c _ Hinv Hex) as [(c2 & [= <-] & Hinv1 & Hord)|[_ ?]]; [|done].
  destruct (IH Hinv1) as (Hinv' & all & Hall & Hgiv & Hend). split; [done|].
  unfold in_order in Hord. destruct (rc_state c1) as [flow buf n|err] eqn:Hst1.
  - exists all. split; [by etrans|]. split; [done|].
    destruct (rc_state c') as [|err']; [done|]. right. by destruct Hend as [?|?].
  - destruct Hord as [Herr Hpre]. rewrite (rsteps_returned _ _ _ Hst1 Hrest).
    exists (rc_given c ++ waiting c). split; [done|]. split; [done|]. rewrite Hst1. by right.
Qed.
End correctness.

(** ** Properties *)

Section properties.
Context `{QuicVarintLaws, !GoPool, !GoMapOrder, !GoCopyBuffer} {C : Type} `{ConnectionLaws C}.
Context {W : Type} `{!WriteCloser W}.

(** C22: [receive] hands every packet of its flow to the writer, in order. Whatever
    the goroutines of the session and the rest of the application do between the
    iterations of [io.Copy], as long as nobody else reads the flow: no step panics
    (unless the application creates a send flow with an ID that has no encoding, where
    [NewSendFlow] panics), and what the writer has been given is a prefix of one sequence of packets, which
    starts with those that were queued before [receive] was called and, while the
    call runs, continues with the ones given to the writer and the ones that wait:
    none is lost, duplicated, split or reordered. Packets without a byte are
    skipped. The call never returns a nil error. *)
Theorem receive_in_order (sc : sconfig C) (flowID : Z) (flow : nat) (w : W) (s : Session C)
    (c : rconfig C W) (Hreach : sreachable sc)
    (Hstart : receive_start flowID (sc_sess sc) = Ret (RcvCopying flow copyBuf 0, s))
    (Hsteps : rtc rstep (mkRConfig (RcvCopying flow copyBuf 0) w [] (set_sc_sess s sc)) c) :
  (∀ l m, rexec l c = Some m → (∃ c', m = Ret c') ∨ rlabel_fits l = false ∧ m = Panic PanicVarintRange) ∧
  ∃ all, nonempty (packets_for flowID (sc_sess sc)) `prefix_of` all ∧ rc_given c `prefix_of` all ∧
    match rc_state c with
    | RcvCopying _ _ _ => all = rc_given c ++ waiting c
    | RcvReturned err => err ≠ None
    end.
Proof.
  apply sreachable_inv in Hreach as Hsc. pose proof (ci_sess _ Hsc) as Hinv.
  destruct (receive_start_inv _ _ _ _ _ _ Hstart) as [Hnew _].
  pose proof (NewReceiveFlow_packets _ _ _ _ Hinv Hnew flowID) as Hpk.
  destruct (run_op_inv (ONewReceiveFlow flowID) (sc_sess sc) Hinv eq_refl eq_refl) as (s2 & Hop & Hinv2 & Hst2).
  simpl in Hop. rewrite Hnew in Hop. injection Hop as <-.
  destruct (NewReceiveFlow_lookup _ _ _ _ Hinv Hnew) as (f & Hr & Hf).
  set (c0 := mkRConfig _ _ _ _) in Hsteps. assert (rc_inv c0) as Hinv0.
  { split; simpl; [by apply sc_inv_set_sess|]. split; [apply length_copyBuf|by eapply lookup_lt_Some]. }
  destruct (rsteps_spec c0 c Hinv0 Hsteps) as ([Hsc' Hst'] & all & Hall & Hgiven & Hend).
  split.
  { intros l m Hex. destruct (rexec_cases l c m) as [(c' & -> & _)|?]; [by split|done|left; by exists c'|by right]. }
  exists all. unfold waiting in Hall. simpl in Hall. rewrite Hr in Hall. simpl in Hall.
  rewrite <- Hpk, Hf. split; [done|]. split; [done|]. destruct (rc_state c); [done|]. by destruct Hend.
Qed.

(** The writer takes whatever it is given. *)
Definition accepting : Prop := ∀ p (w : W), ∃ w', Writer_Write p w = ((Z.of_nat (length p), None), w').

(** C26: once its flow is closed [receive] comes to an end, after at most one more
    iteration than there are packets in the queue, and never with a nil error; it
    leaves the flow closed and the writer closed after its last write. If the
    deadline has not expired, every packet fits into the buffer of [io.Copy] and the
    writer takes what it is given, all queued packets are written, each whole, and
    the error is [context.Canceled]. *)
Theorem receive_returns (prefer : select_case) (flow : nat) (buf : list byte) (n : Z) (w : W)
    (s : Session C) (f : ReceiveFlow) (Hinv : sess_inv s) (Hr : s_rfs s !! flow = Some f)
    (Hbuf : length buf = copyBufSize) (Hcl : rf_closed f = true) :
  ∃ e w1 w2 s' done, receive_loop (S (length (rf_packets f))) prefer (RcvCopying flow buf n) w s =
      Ret (RcvReturned (Some e), snd (Writer_Close w2), s') ∧
    sess_inv s' ∧ (∃ f', s_rfs s' !! flow = Some f' ∧ rf_closed f' = true) ∧
    done `prefix_of` rf_packets f ∧ wrote w done w1 ∧
    (deadlineExpired (rf_deadline f) = false → Forall (λ p, length p ≤ copyBufSize) (rf_packets f) →
     accepting → e = ContextCanceled ∧ done = rf_packets f ∧ w2 = w1).
Proof.
  destruct (receive_loop_spec prefer flow buf n w s f (rf_packets f) Hinv Hr Hbuf Hcl eq_refl)
    as (dn & todo & f1 & e & w1 & w2 & s' & Hps & Htodo & Hcl1 & Hdl1 & Hloop & Hinv' & Hw & Hre & Hf').
  exists e, w1, w2, s', dn. split_and!; try done. { rewrite Hps. by apply prefix_app_r. }
  intros Hdl Hsmall Hacc. rewrite Hps in Hsmall |- *. apply Forall_app in Hsmall as [_ Hsmall].
  destruct Hre as [(? & _)|[(p & ps & Hp & Hlong & _)|[(Hnil & _ & _ & -> & ->)|(p & ps & nw & ew & Hp & Hne & Hwr & Hbad)]]].
  - congruence.
  - rewrite <- Htodo, Hp in Hsmall. apply Forall_cons in Hsmall as [? _]. lia.
  - by rewrite <- Htodo, Hnil, app_nil_r.
  - destruct (Hacc p w1) as (w' & Hw'). rewrite Hwr in Hw'. injection Hw' as -> -> _. by destruct Hbad.
Qed.
End properties.

Section witnesses.
Import RFC9000.
#[local] Existing Instance lifo_pool.
#[local] Existing Instance ascending_order.
#[local] Instance small_buffer : GoCopyBuffer := {| copyBufSize := 16 |}.

(** A writer that keeps what it is given. *)
#[local] Instance log_writer : WriteCloser (list (list byte)) := {|
  Writer_Write p w := ((Z.of_nat (length p), None), w ++ [p]);
  Writer_Close w := (None, w)
|}.

Definition ex_idle : sconfig stubConn := mkConfigS ex_receiver [] [] 0 [].

Lemma ex_idle_reachable : sreachable ex_idle.
Proof.
  exists (newStubConn []), None, true, defaultConfig, []. split; [apply defaultConfig_ok|].
  split; [reflexivity|]. split; [left; reflexivity|]. apply rtc_refl.
Qed.

Definition ex_started : Session stubConn :=
  match receive_start 7 ex_receiver with Ret (_, s) => s | Panic _ => ex_receiver end.

(** Two packets arrive, one of them is written, and a third arrives. *)
Definition ex_rlabels : list rlabel :=
  [RSession (LOp (OHandleDatagram (bytes [7; 42]%Z))); RSession (LOp (OHandleDatagram (bytes [7; 43; 44]%Z)));
   RIter SelPacket; RSession (LOp (OHandleDatagram (bytes [7; 45]%Z)))].

Definition ex_rstart : rconfig stubConn (list (list byte)) :=
  mkRConfig (RcvCopying 0 copyBuf 0) [] [] (set_sc_sess ex_started ex_idle).

Definition ex_receiving : rconfig stubConn (list (list byte)) := default ex_rstart (rrun ex_rlabels ex_rstart).

Lemma receive_in_order_witness :
  rc_given ex_receiving = [bytes [42]]%Z ∧ ∃ all, rc_given ex_receiving `prefix_of` all ∧
    all = [bytes [42]; bytes [43; 44]; bytes [45]]%Z.
Proof.
  split; [vm_compute; reflexivity|].
  destruct (receive_in_order ex_idle 7 0 [] ex_started ex_receiving ex_idle_reachable)
    as [_ (all & _ & Hg & Hend)].
  - vm_compute. reflexivity.
  - apply (rrun_steps ex_rlabels). vm_compute. reflexivity.
  - exists all. split; [exact Hg|]. vm_compute in Hend. exact Hend.
Defined.

(** Two packets arrive, and the session is closed. *)
Definition ex_clabels : list rlabel :=
  [RSession (LOp (OHandleDatagram (bytes [7; 42]%Z))); RSession (LOp (OHandleDatagram (bytes [7; 43]%Z)));
   RSession LClose].

Definition ex_closing : Session stubConn := sc_sess (rc_sc (default ex_rstart (rrun ex_clabels ex_rstart))).

Lemma ex_closing_inv : sess_inv ex_closing.
Proof.
  assert (rc_inv ex_rstart) as Hinv.
  { split; [|split; [reflexivity|vm_compute; lia]]. apply sc_inv_set_sess.
    - apply sreachable_inv, ex_idle_reachable.
    - destruct (run_op_inv (ONewReceiveFlow 7) ex_receiver ex_receiver_inv eq_refl eq_refl) as (s' & Hrun & Hs' & _).
      vm_compute in Hrun. injection Hrun as <-. exact Hs'.
    - done. }
  destruct (rsteps_spec ex_rstart (default ex_rstart (rrun ex_clabels ex_rstart)) Hinv) as [[Hsc _] _].
  { apply (rrun_steps ex_clabels). vm_compute. reflexivity. }
  apply Hsc.
Qed.

Lemma receive_returns_witness :
  ∃ f e w' s', s_rfs ex_closing !! 0 = Some f ∧
    receive_loop 3 SelPacket (RcvCopying 0 copyBuf 0) [] ex_closing = Ret (RcvReturned (Some e), w', s') ∧
    e = ContextCanceled ∧ w' = [bytes [42]; bytes [43]]%Z.
Proof.
  eexists. destruct (receive_returns (W := list (list byte)) SelPacket 0 copyBuf 0 [] ex_closing
    (default (mkReceiveFlow 0 (mkPacketBuffer 0 [] true [] []) true ∅ true newDeadline None discardLogger)
       (s_rfs ex_closing !! 0)) ex_closing_inv)
    as (e & w1 & w2 & s' & dn & Hloop & _ & _ & _ & _ & Hok).
  - vm_compute. reflexivity.
  - reflexivity.
  - vm_compute. reflexivity.
  - exists e, (snd (Writer_Close w2)), s'. split; [vm_compute; reflexivity|]. split; [exact Hloop|].
    destruct Hok as (-> & _ & _).
    + vm_compute. reflexivity.
    + vm_compute. repeat constructor.
    + intros p w. eexists. reflexivity.
    + split; [reflexivity|]. vm_compute in Hloop. injection Hloop as <- _. reflexivity.
Defined.
End witnesses.
