(* ===== verification/InteropMain.v ===== *)
(** * examples/interop/main.go: the command-line program

    The program parses its flags, connects, and runs the sender or the receiver.
    What it calls of the operating system, of crypto/tls and of quic-go are the
    operations of the class [Env], on a state [E] that stands for the world; a nil
    pointer is [None], and writing through one is a panic. *)

From S2P Require Import Prelude GoErrors IO Varint QlogEvent Qlogger Options SyncMap Connection.
From S2P Require Import RTPSendStream SendFlow PacketBuffer Deadline ReceiveFlow ReadStream.
From S2P Require Import ReceiveFlowBuffer Session SessionSpec SessionSteps EndToEnd Delivery Media.
From S2P Require Import QUICGo InteropSender FileWriter InteropReceiver.

(** ** Flags *)

Record flags := mkFlags {
  Server : bool;
  Send : bool;
  Cert : string;
  Key : string;
  Addr : string;
  Destination : string;
  Source : string;
  Codec : string;
  Mode : mode
}.

(** The flags set on the command line, and the lookups of package flag. *)
Inductive flag_value := FlagBool (b : bool) | FlagInt (z : Z) | FlagString (s : string).

Definition flag_Bool (name : string) (value : bool) (args : gmap string flag_value) : bool :=
  match args !! name with Some (FlagBool b) => b | _ => value end.
Definition flag_Int (name : string) (value : Z) (args : gmap string flag_value) : Z :=
  match args !! name with Some (FlagInt z) => z | _ => value end.
Definition flag_String (name : string) (value : string) (args : gmap string flag_value) : string :=
  match args !! name with Some (FlagString s) => s | _ => value end.

Definition parseFlags (args : gmap string flag_value) : flags :=
  let server := flag_Bool "server" false args in
  let send := flag_Bool "send" false args in
  let sendMode := flag_Int "mode" datagramMode args in
  let destination := flag_String "destination" "" args in
  let source := flag_String "source" "" args in
  let codec := flag_String "codec" "vp8" args in
  let cert := flag_String "cert" "localhost.pem" args in
  let key := flag_String "key" "localhost-key.pem" args in
  let addr := flag_String "addr" "localhost:8080" args in
  mkFlags server send cert key addr destination source codec sendMode.

(** ** The world *)

(** [tls.Config], with certificates of type [Crt] and a key log [K]. *)
Record tlsConfig (Crt K : Type) := mkTLS {
  Certificates : list Crt;
  NextProtos : list string;
  KeyLogWriter : option K;
  InsecureSkipVerify : bool
}.
Arguments mkTLS {Crt K} _ _ _ _.
Arguments Certificates {Crt K} _.
Arguments NextProtos {Crt K} _.
Arguments KeyLogWriter {Crt K} _.
Arguments InsecureSkipVerify {Crt K} _.

(** [quic.Config] as the programs fill it in. *)
Record quicConfig := mkQuicConfig {
  InitialStreamReceiveWindow : Z;
  MaxStreamReceiveWindow : Z;
  InitialConnectionReceiveWindow : Z;
  MaxConnectionReceiveWindow : Z;
  MaxIncomingStreams : Z;
  MaxIncomingUniStreams : Z;
  EnableDatagrams : bool;
  Tracer_Default : bool              (* qlog.DefaultConnectionTracer *)
}.

(** Certificates and keys. *)
Class TLSEnv (E Crt PrivateKey : Type) := {
  LoadX509KeyPair : string → string → E → (Crt + goerror) * E;
  rsa_GenerateKey : Z → E → (PrivateKey + goerror) * E;
  (* of a self-signed certificate with this serial number *)
  CreateCertificate : Z → PrivateKey → E → (list byte + goerror) * E;
  MarshalPKCS1PrivateKey : PrivateKey → list byte;
  pem_EncodeToMemory : string → list byte → list byte;
  tls_X509KeyPair : list byte → list byte → Crt + goerror
}.

(** Connections of quic-go. *)
Class QuicEnv (E Crt K L C : Type) := {
  quic_ListenAddr : string → tlsConfig Crt K → quicConfig → E → (L + goerror) * E;
  Listener_Accept : L → E → (C + goerror) * E;
  quic_DialAddr : string → tlsConfig Crt K → quicConfig → E → (C + goerror) * E
}.

(** Files and processes; [Cmd] is a command with its arguments. *)
Abbreviation Cmd := (list string).
Class OSEnv (E K Pipe : Type) := {
  os_Getenv : string → E → string;
  os_Create : string → E → (K + goerror) * E;
  File_Close : K → E → E;
  Cmd_StdoutPipe : Cmd → E → (Pipe + goerror) * E;
  Cmd_StdinPipe : Cmd → E → (Pipe + goerror) * E;
  Cmd_Start : Cmd → E → option goerror * E;
  Cmd_Wait : Cmd → E → option goerror * E;
  Process_Kill : Cmd → E → option goerror * E
}.

(** ** Connecting *)

Section connect.
Context {E Crt PrivateKey K L C : Type} `{!TLSEnv E Crt PrivateKey, !QuicEnv E Crt K L C}.

(** A [*tls.Config] and an error. *)
Abbreviation tls_result := (option (tlsConfig Crt K) * option goerror)%type.

Definition generateTLSConfigWithCertAndKey (certFile keyFile : string) (keyLog : option K) (e : E)
    : tls_result * E :=
  let '(cert, e) := LoadX509KeyPair certFile keyFile e in
  match cert with
  | inr err => ((None, Some err), e)
  | inl cert => ((Some (mkTLS [cert] ["roq-09"] keyLog false), None), e)
  end.

Definition generateTLSConfigWithNewCert (keyLog : option K) (e : E) : tls_result * E :=
  let '(key, e) := rsa_GenerateKey 1024 e in
  match key with
  | inr err => ((None, Some err), e)
  | inl key =>
      let '(certDER, e) := CreateCertificate 1 key e in
      match certDER with
      | inr err => ((None, Some err), e)
      | inl certDER =>
          let keyPEM := pem_EncodeToMemory "RSA PRIVATE KEY" (MarshalPKCS1PrivateKey key) in
          let certPEM := pem_EncodeToMemory "CERTIFICATE" certDER in
          match tls_X509KeyPair certPEM keyPEM with
          | inr err => ((None, Some err), e)
          | inl tlsCert => ((Some (mkTLS [tlsCert] ["roq-09"] keyLog false), None), e)
          end
      end
  end.

Definition generateTLSConfig (certFile keyFile : string) (keyLog : option K) (e : E) : tls_result * E :=
  let '((tlsConfig, err), e) := generateTLSConfigWithCertAndKey certFile keyFile keyLog e in
  match err with
  | Some _ => generateTLSConfigWithNewCert keyLog e
  | None => ((tlsConfig, err), e)
  end.

(** [&quic.Config] with datagrams and the tracer. *)
Definition datagramConfig : quicConfig := mkQuicConfig 0 0 0 0 0 0 true true.

(** [tlsConfig.InsecureSkipVerify = true] *)
Definition skipVerify (c : option (tlsConfig Crt K)) : outcome (tlsConfig Crt K) :=
  match c with
  | Some c => Ret (mkTLS (Certificates c) (NextProtos c) (KeyLogWriter c) true)
  | None => Panic PanicNilDereference
  end.

Definition connect (f : flags) (keyLog : option K) (e : E) : outcome ((C + goerror) * E) :=
  if Server f then
    let '((tlsConfig, err), e) := generateTLSConfig (Cert f) (Key f) keyLog e in
    tlsConfig ← skipVerify tlsConfig;
    match err with
    | Some err => Ret (inr err, e)
    | None =>
        let '(listener, e) := quic_ListenAddr (Addr f) tlsConfig datagramConfig e in
        match listener with
        | inr err => Ret (inr err, e)
        | inl listener => Ret (Listener_Accept listener e)
        end
    end
  else Ret (quic_DialAddr (Addr f) (mkTLS [] ["roq-09"] keyLog true) datagramConfig e).
End connect.

(** ** Running *)

Section run.
Context `{!QuicVarint, !GoPool, !GoMapOrder, !GoCopyBuffer}.
Context {E Crt PrivateKey K L Q Pipe : Type} `{!QuicConn Q}.
Context `{!TLSEnv E Crt PrivateKey, !QuicEnv E Crt K L Q, !OSEnv E K Pipe}.
Context {Pkt P Hdr V J W : Type} `{!RTP Pkt, !Packetizer Pkt P, !IVFReader V, !IVFFile Pipe Hdr V}.
Context `{!JitterBuffer Pkt J, !JitterBufferLaws Pkt J, !RTPWriter Pkt W, !MediaWriters (wrapper Pipe) W}.

(** The command that produces the video. *)
Definition ffmpeg (f : flags) : Cmd :=
  if decide (String.length (Source f) = 0) then
    ["ffmpeg"; "-v"; "debug"; "-re"; "-f"; "lavfi"; "-i"; "testsrc=duration=10"; "-g"; "30"; "-b:v"; "1M";
     "-f"; "ivf"; "-"]
  else ["ffmpeg"; "-v"; "debug"; "-re"; "-i"; Source f; "-b:v"; "1M"; "-f"; "ivf"; "-"].

Definition ffplay : Cmd := ["ffplay"; "-v"; "debug"; "-"].

(** The connection, with its adapter and its trace. *)
Definition quicgo (conn : Q) : option (QUICGoConnection Q) * option (option Trace) :=
  let c := NewQUICGoConnection conn in (Some c, Some (QUICGo_QlogTrace c)).

(** [runSender]: the error it returns, [None] while it sends, and the sender, if it
    was created. [newPacketizer] is [rtp.NewPacketizer(1200, 96, 1, ...)] with a VP8
    payloader and a random sequencer. *)
Definition runSender (fuel : nat) (newPacketizer : P) (f : flags) (conn : Q) (e : E)
    : outcome (option (option goerror) * option (sender (QUICGoConnection Q)) * E) :=
  match newSender (quicgo conn).1 (quicgo conn).2 with
  | inr err => Ret (Some (Some err), None, e)
  | inl (s, _) =>
      let cmd := ffmpeg f in
      let '(reader, e) := Cmd_StdoutPipe cmd e in
      match reader with
      | inr err => Ret (Some (Some err), Some s, e)
      | inl reader =>
          let '(err, e) := Cmd_Start cmd e in
          match err with
          | Some err => Ret (Some (Some err), Some s, e)
          | None =>
              match newIVFFrameReader (H := Hdr) (V := V) reader with
              | inr err => Ret (Some (Some err), Some s, e)
              | inl fr =>
                  '(res, _, _, s) ← send (Pkt := Pkt) fuel 0 fr newPacketizer (Mode f) s;
                  match res with
                  | None => Ret (None, Some s, e)
                  | Some (Some _) =>
                      let '(err, e) := Process_Kill cmd e in Ret (Some err, Some s, e)
                  | Some None =>
                      '(err, s) ← sender_Close s;
                      match err with
                      | Some err => Ret (Some (Some err), Some s, e)
                      | None => let '(err, e) := Cmd_Wait cmd e in Ret (Some err, Some s, e)
                      end
                  end
              end
          end
      end
  end.

(** The writer of [runReceiver], and whether ffplay was started. *)
Definition openWriter (f : flags) (e : E) : (fileWriter J W + goerror) * bool * E :=
  if decide (0 < String.length (Destination f)) then
    (newFileWriter (IO := Pipe) (Destination f) (Codec f), false, e)
  else
    let '(stdout, e) := Cmd_StdinPipe ffplay e in
    match stdout with
    | inr err => (inr err, false, e)
    | inl stdout =>
        let '(err, e) := Cmd_Start ffplay e in
        match err with
        | Some err => (inr err, false, e)
        | None => (newIVFWriterWith stdout (Codec f), true, e)
        end
    end.

(** Where a call of [runReceiver] is: it could not create the receiver, it is in
    [receive], or it has run its deferred calls up to [r.Close], which waits for the
    goroutines of the session. *)
Inductive run_state :=
  | RunFailed (err : goerror)
  | RunReceiving (c : rconfig (QUICGoConnection Q) (fileWriter J W))
  | RunClosing (err : option goerror) (sc : sconfig (QUICGoConnection Q)).

(** The deferred calls: ffplay is killed, if it was started, and the session closed. *)
Definition run_deferred (started : bool) (err : option goerror) (sc : sconfig (QUICGoConnection Q)) (e : E)
    : outcome (run_state * E) :=
  let e := if started then snd (Process_Kill ffplay e) else e in
  match sexec LClose sc with
  | Some res => sc ← res; Ret (RunClosing err sc, e)
  | None => Ret (RunClosing err sc, e)
  end.

Definition runReceiver (sched : list rlabel) (f : flags) (conn : Q) (e : E) : outcome (run_state * E) :=
  match newReceiver (quicgo conn).1 (quicgo conn).2 with
  | inr err => Ret (RunFailed err, e)
  | inl (r, loops) =>
      let sc := mkConfigS (rcv_session r) loops [] 0 [] in
      let '(writer, started, e) := openWriter f e in
      match writer with
      | inr err => run_deferred started (Some err) sc e
      | inl writer =>
          '(st, s) ← receive_start 0 (rcv_session r);
          c ← receive_under sched (mkRConfig st writer [] (set_sc_sess s sc));
          match rc_state c with
          | RcvCopying _ _ _ => Ret (RunReceiving c, e)
          | RcvReturned err => run_deferred started err (rc_sc c) e
          end
      end
  end.

Definition getSSLKeyLog (e : E) : (option K + goerror) * E :=
  let filename := os_Getenv "SSLKEYLOGFILE" e in
  if decide (String.length filename = 0) then (inl None, e)
  else
    let '(f, e) := os_Create filename e in
    match f with
    | inr err => (inr err, e)
    | inl f => (inl (Some f), e)
    end.

(** What [setupAndRun] gets to: an error before it runs, or the sender or receiver. *)
Inductive setup_state :=
  | SetupFailed (err : goerror)
  | Sending (res : option (option goerror)) (s : option (sender (QUICGoConnection Q)))
  | Receiving (st : run_state).

(** The error [setupAndRun] has returned; [None] while it runs. *)
Definition setup_result (st : setup_state) : option (option goerror) :=
  match st with
  | SetupFailed err => Some (Some err)
  | Sending res _ => res
  | Receiving (RunFailed err) => Some (Some err)
  | Receiving (RunReceiving _) => None
  | Receiving (RunClosing err _) => Some err
  end.

(** [marshalFlags] is [json.Marshal] of the flags, which are logged. *)
Definition setupAndRun (fuel : nat) (sched : list rlabel) (newPacketizer : P)
    (marshalFlags : flags → string + goerror) (args : gmap string flag_value) (e : E)
    : outcome (setup_state * E) :=
  let f := parseFlags args in
  let '(keyLog, e) := getSSLKeyLog e in
  match keyLog with
  | inr err => Ret (SetupFailed err, e)
  | inl keyLog =>
      match marshalFlags f with
      | inr err => Ret (SetupFailed err, e)
      | inl _ =>
          '(conn, e) ← connect f keyLog e;
          '(st, e) ← match conn with
                     | inr err => Ret (SetupFailed err, e)
                     | inl conn =>
                         if Send f then
                           '(res, s, e) ← runSender fuel newPacketizer f conn e; Ret (Sending res s, e)
                         else '(st, e) ← runReceiver sched f conn e; Ret (Receiving st, e)
                     end;
          (* the deferred Close of the key log *)
          let e := match keyLog with
                   | Some k => match setup_result st with Some _ => File_Close k e | None => e end
                   | None => e
                   end in
          Ret (st, e)
      end
  end.

(** [main]: the exit status, once it is known. [log.Fatal] exits with 1. *)
Definition main_exit (st : setup_state) : option nat :=
  match setup_result st with
  | None => None
  | Some (Some _) => Some 1
  | Some None => Some 0
  end.
End run.

(** ** A buffered writer *)

(** [bufio.Writer] and [io.Closer]. *)
Class BufioWriter (B : Type) := {
  Bufio_Write : list byte → B → (Z * option goerror) * B;
  Bufio_Flush : B → option goerror * B
}.
Class Closer (K : Type) := { Closer_Close : K → option goerror * K }.

Record bufferedWriteCloser (B K : Type) := mkBuffered { bwc_Writer : B; bwc_Closer : K }.
Arguments mkBuffered {B K} _ _.
Arguments bwc_Writer {B K} _.
Arguments bwc_Closer {B K} _.

Definition NewBufferedWriteCloser {B K} (writer : B) (closer : K) : bufferedWriteCloser B K :=
  mkBuffered writer closer.

Section buffered.
Context {B K : Type} `{!BufioWriter B, !Closer K}.

(** The record separator goes ahead of the bytes. *)
Definition bufferedWriteCloser_Write (p : list byte) (h : bufferedWriteCloser B K)
    : (Z * option goerror) * bufferedWriteCloser B K :=
  let '(res, b) := Bufio_Write ([Byte.x1e] ++ p) (bwc_Writer h) in (res, mkBuffered b (bwc_Closer h)).

Definition bufferedWriteCloser_Close (h : bufferedWriteCloser B K)
    : option goerror * bufferedWriteCloser B K :=
  let '(err, b) := Bufio_Flush (bwc_Writer h) in
  match err with
  | Some err => (Some err, mkBuffered b (bwc_Closer h))
  | None => let '(err, k) := Closer_Close (bwc_Closer h) in (err, mkBuffered b k)
  end.

#[export] Instance buffered_WriteCloser : WriteCloser (bufferedWriteCloser B K) := {|
  Writer_Write := bufferedWriteCloser_Write;
  Writer_Close := bufferedWriteCloser_Close
|}.
End buffered.

(** ** Properties *)

Section properties.
Context {E Crt PrivateKey K L C : Type} `{!TLSEnv E Crt PrivateKey, !QuicEnv E Crt K L C}.

(** The ways to a configuration for the server. *)
Lemma generateTLSConfig_spec cert key (k : option K) (e : E) :
  ∃ cfg err e', generateTLSConfig cert key k e = ((cfg, err), e') ∧
    match cfg with
    | Some c => err = None ∧ NextProtos c = ["roq-09"] ∧ KeyLogWriter c = k ∧ length (Certificates c) = 1
    | None => err ≠ None
    end.
Proof.
  unfold generateTLSConfig, generateTLSConfigWithCertAndKey, generateTLSConfigWithNewCert.
  destruct (LoadX509KeyPair cert key e) as [[crt|err] e1]; [by eexists (Some _), _, _|].
  destruct (rsa_GenerateKey 1024 e1) as [[pk|err2] e2]; [|by eexists None, _, _].
  destruct (CreateCertificate 1 pk e2) as [[der|err3] e3]; [|by eexists None, _, _].
  destruct (tls_X509KeyPair _ _); [by eexists (Some _), _, _|by eexists None, _, _].
Qed.

(** [connect] writes to the TLS configuration before it looks at the error. As
    a server it panics exactly if no configuration could be made, neither from the
    files nor with a new certificate, instead of returning that error; in all other
    cases it returns. The configuration it listens or dials with offers the protocol
    roq-09, logs keys to the given writer and does not verify the peer. *)
Theorem connect_nil_config (f : flags) (keyLog : option K) (e : E) :
  (connect f keyLog e = Panic PanicNilDereference ↔
     Server f = true ∧ (generateTLSConfig (Cert f) (Key f) keyLog e).1.1 = None) ∧
  ((generateTLSConfig (Cert f) (Key f) keyLog e).1.1 = None ↔
     (generateTLSConfig (Cert f) (Key f) keyLog e).1.2 ≠ None) ∧
  (∀ res e', connect f keyLog e = Ret (inl res, e') →
     ∃ cfg, NextProtos cfg = ["roq-09"] ∧ KeyLogWriter cfg = keyLog ∧ InsecureSkipVerify cfg = true ∧
       if Server f then ∃ e1 l e2, quic_ListenAddr (Addr f) cfg datagramConfig e1 = (inl l, e2) ∧
         Listener_Accept l e2 = (inl res, e')
       else quic_DialAddr (Addr f) cfg datagramConfig e = (inl res, e')).
Proof.
  unfold connect.
  destruct (generateTLSConfig_spec (Cert f) (Key f) keyLog e) as (cfg & err & e1 & -> & Hcfg). simpl.
  destruct (Server f) eqn:Hs; simpl.
  2:{ split_and!; [by split; [|intros [? _]]|by destruct cfg; [destruct Hcfg as [-> _]|]|]. intros res e' [= Hd].
      by exists (mkTLS [] ["roq-09"] keyLog true). }
  destruct cfg as [c|]; simpl.
  2:{ split_and!; [by split|by split|done]. }
  destruct Hcfg as (-> & Hn & Hk & _).
  destruct (quic_ListenAddr (Addr f) _ datagramConfig e1) as [[l|err] e2] eqn:Hl.
  - split_and!; [by split; [|intros [_ ?]]|done|]. intros res e' [= Ha].
    exists (mkTLS (Certificates c) (NextProtos c) (KeyLogWriter c) true). split_and!; try done.
    by exists e1, l, e2.
  - split_and!; [by split; [|intros [_ ?]]|done|done].
Qed.
End properties.

Section receiving.
Context `{QuicVarintLaws, !GoPool, !GoMapOrder, !GoCopyBuffer}.
Context {E K Q Pipe Pkt J W : Type} `{QuicConnLaws Q} `{!OSEnv E K Pipe, !RTP Pkt}.
Context `{!JitterBuffer Pkt J, !JitterBufferLaws Pkt J, !RTPWriter Pkt W, !MediaWriters (wrapper Pipe) W}.

(** The session has been closed, once, and [Close] waits for the goroutines. *)
Definition closing (sc : sconfig (QUICGoConnection Q)) : Prop :=
  sc_inv sc ∧ 0 < sc_closing sc ∧
  ∃ err, s_closedErr (sc_sess sc) = Some err ∧
    conn_closes (calls (s_conn (sc_sess sc))) = [(code err, reason err)].

Lemma LClose_closing (sc : sconfig (QUICGoConnection Q)) : sc_inv sc →
  ∃ sc', sexec LClose sc = Some (Ret sc') ∧ closing sc'.
Proof.
  intros Hsc. destruct (sexec LClose sc) as [res|] eqn:Hex; [|by destruct sc].
  destruct (sexec_spec LClose sc res Hsc eq_refl Hex) as (sc' & -> & Hsc' & _).
  exists sc'. split; [done|]. split; [done|]. assert (0 < sc_closing sc') as Hcl.
  { destruct sc as [s loops hs n ret]. simpl in Hex. destruct (Session_close _ _ s); [|done].
    injection Hex as <-. simpl. lia. }
  split; [done|]. pose proof (ci_closing _ Hsc' (or_introl Hcl)) as Hne.
  destruct (ci_sess _ Hsc') as [_ Hst]. unfold status_inv in Hst.
  destruct (s_closedErr (sc_sess sc')) as [err'|]; [|done]. exists err'. by destruct Hst as (_ & ? & _).
Qed.

Lemma run_deferred_spec started err (sc : sconfig (QUICGoConnection Q)) (e : E) : sc_inv sc →
  ∃ sc' e', run_deferred (J := J) (W := W) started err sc e = Ret (RunClosing err sc', e') ∧ closing sc'.
Proof.
  intros Hsc. unfold run_deferred. destruct (LClose_closing sc Hsc) as (sc' & -> & Hcl). bind_simpl.
  by eexists sc', _.
Qed.

(** C19: whatever path [runReceiver] takes, and whatever the goroutines of the
    session do meanwhile, it does not panic (nobody creates a send flow whose ID has no
    encoding), and it leaves only after closing the
    session: the connection has been closed exactly once, with the error of the
    session. It never reports success: the error is one of opening the writer, or the
    one [receive] ends with, which is not nil. *)
Theorem runReceiver_closes_session (sched : list rlabel) (f : flags) (conn : Q) (e : E)
    (Hfits : Forall rlabel_fits sched) (Hconn : conn_closes (calls (NewQUICGoConnection conn)) = []) :
  ∃ st e', runReceiver (J := J) (W := W) sched f conn e = Ret (st, e') ∧
    match st with
    | RunFailed _ => False
    | RunReceiving c => rc_inv c
    | RunClosing err sc => err ≠ None ∧ closing sc
    end.
Proof.
  unfold runReceiver, newReceiver, NewSession. simpl.
  set (s := newSession (NewQUICGoConnection conn) _ true defaultConfig).
  set (sc := mkConfigS s (start s) [] 0 []).
  assert (sreachable sc) as Hreach.
  { eexists _, _, true, defaultConfig, _. split; [apply defaultConfig_ok|]. split; [exact Hconn|].
    split; [by right|]. apply rtc_refl. }
  apply sreachable_inv in Hreach as Hsc. pose proof (ci_sess _ Hsc) as Hinv.
  destruct (openWriter f e) as [[writer started] e1]. destruct writer as [writer|err].
  2:{ destruct (run_deferred_spec started (Some err) sc e1 Hsc) as (sc' & e' & -> & Hcl).
      by eexists (RunClosing _ _), _. }
  destruct (NewReceiveFlow_spec 0 s Hinv) as (res & s1 & Hnew & Hinv1 & Hcase).
  destruct Hcase as (r & new & fl & -> & _ & _ & _ & Hr & _).
  destruct (run_op_inv (ONewReceiveFlow 0) s Hinv eq_refl eq_refl) as (s2 & Hop & _ & Hst2).
  simpl in Hop. unfold receive_start. rewrite Hnew in *. injection Hop as <-. bind_simpl.
  set (c0 := mkRConfig _ _ _ _). assert (rc_inv c0) as Hinv0.
  { split; simpl; [by apply sc_inv_set_sess|]. split; [apply length_copyBuf|by eapply lookup_lt_Some]. }
  destruct (receive_under_spec sched c0 Hfits Hinv0) as (c & -> & Hc & Hsteps). bind_simpl.
  destruct (rsteps_spec c0 c Hinv0 Hsteps) as (_ & all & _ & _ & Hend).
  destruct (rc_state c) as [flow buf n|err]; [by eexists (RunReceiving c), _|].
  destruct (run_deferred_spec started err (rc_sc c) e1 (proj1 Hc)) as (sc' & e' & -> & Hcl).
  eexists (RunClosing _ _), _. split; [done|]. split; [|done]. by destruct Hend.
Qed.
End receiving.

(** The buffered writer reports one byte more than it was given, the
    separator it adds, which [io.Writer] forbids: [io.Copy] takes it for an invalid
    write and stops at the first packet. *)
Theorem bufferedWriteCloser_overcounts {B K : Type} `{!BufioWriter B, !Closer K} (p rest : list byte) (n : Z)
    (h : bufferedWriteCloser B K) (b : B) (Hp : p ≠ [])
    (Hw : Bufio_Write (Byte.x1e :: p) (bwc_Writer h) = ((Z.of_nat (S (length p)), None), b)) :
  (bufferedWriteCloser_Write p h).1 = ((Z.of_nat (length p) + 1)%Z, None) ∧
  (copy_body (p ++ rest) (Z.of_nat (length p)) None n h).1 = (n, Some (Some (EOther "invalid write result"))).
Proof.
  assert (bufferedWriteCloser_Write p h = (((Z.of_nat (length p) + 1)%Z, None), mkBuffered b (bwc_Closer h))) as Hr.
  { unfold bufferedWriteCloser_Write. simpl app. rewrite Hw. do 2 f_equal. f_equal. lia. }
  rewrite Hr. split; [done|]. unfold copy_body. rewrite decide_True, Nat2Z.id, take_app_length
    by (destruct p; simpl; [done|lia]).
  change (Writer_Write p h) with (bufferedWriteCloser_Write p h). rewrite Hr, decide_True by lia.
  simpl. by rewrite Z.add_0_r.
Qed.

(** ** Runs *)

Section witnesses.
Import RFC9000.
#[local] Existing Instance lifo_pool.
#[local] Existing Instance ascending_order.
#[local] Existing Instance stub_quic.
#[local] Existing Instance stub_quic_laws.
#[local] Existing Instance delay_buffer.
#[local] Existing Instance delay_buffer_laws.
#[local] Existing Instance list_writer.
#[local] Existing Instance small_buffer.

(** A world in which every call succeeds, and a log of the processes. Reading the
    output of ffmpeg returns the frames [ex_frames]. *)
#[local] Instance ex_os : OSEnv (list string) unit frameList := {|
  os_Getenv _ _ := "";
  os_Create _ e := (inl tt, e);
  File_Close _ e := e;
  Cmd_StdoutPipe _ e := (inl (mkFrames ex_frames EOF), e);
  Cmd_StdinPipe _ e := (inl (mkFrames [] EOF), e);
  Cmd_Start c e := (None, e ++ ["start"]);
  Cmd_Wait c e := (None, e ++ ["wait"]);
  Process_Kill c e := (None, e ++ ["kill"])
|}.

#[local] Instance ex_ivf : IVFReader frameList := {| ParseNextFrame := FrameReader_Read |}.
#[local] Instance ex_ivf_file : IVFFile frameList unit frameList := {| ivfreader_NewWith l := inl (l, tt) |}.

#[local] Instance ex_writers : MediaWriters (wrapper frameList) (list samplePacket) := {|
  ivfwriter_New _ := inl [];
  h264writer_New _ := inl [];
  ivfwriter_NewWith _ := inl [];
  h264writer_NewWith _ := []
|}.

Definition ex_flags (dest codec : string) (m : mode) : flags :=
  mkFlags false true "" "" "localhost:8080" dest "" codec m.

(** A packet arrives and is written, and the session is closed: ffplay is killed. *)
Lemma runReceiver_closes_session_witness :
  ∃ err sc, runReceiver (J := list samplePacket) (W := list samplePacket)
      [RSession (LNetwork (EvDatagram (bytes [0; 1; 42]%Z))); RSession LReceiveDatagram; RIter SelPacket; RSession LClose; RIter SelPacket]
      (ex_flags "" "vp8" datagramMode) (newStubConn []) [] = Ret (RunClosing err sc, ["start"; "kill"]) ∧
    err ≠ None ∧ conn_closes (calls (s_conn (sc_sess sc))) = [(0%Z, "")].
Proof.
  destruct (runReceiver_closes_session (J := list samplePacket) (W := list samplePacket)
    [RSession (LNetwork (EvDatagram (bytes [0; 1; 42]%Z))); RSession LReceiveDatagram; RIter SelPacket; RSession LClose; RIter SelPacket]
    (ex_flags "" "vp8" datagramMode) (newStubConn []) []) as (st & e' & Hrun & Hst).
  - repeat constructor.
  - reflexivity.
  - pose proof Hrun as Hrun'. vm_compute in Hrun'. injection Hrun' as <- <-.
    destruct Hst as [Herr (_ & _ & err & Hcl & Hcc)]. eexists _, _. split; [exact Hrun|].
    split; [exact Herr|]. reflexivity.
Defined.

(** A buffer that takes everything. *)
#[local] Instance ex_bufio : BufioWriter (list byte) := {|
  Bufio_Write p b := ((Z.of_nat (length p), None), b ++ p);
  Bufio_Flush b := (None, [])
|}.
#[local] Instance ex_closer : Closer unit := {| Closer_Close k := (None, k) |}.

Lemma bufferedWriteCloser_overcounts_witness :
  (bufferedWriteCloser_Write [Byte.x2a] (NewBufferedWriteCloser [] tt)).1 = (2%Z, None) ∧
  (copy_body [Byte.x2a] 1 None 0 (NewBufferedWriteCloser ([] : list byte) tt)).1 =
    (0%Z, Some (Some (EOther "invalid write result"))).
Proof.
  apply (bufferedWriteCloser_overcounts [Byte.x2a] [] 0 (NewBufferedWriteCloser [] tt) [Byte.x1e; Byte.x2a]).
  - discriminate.
  - reflexivity.
Defined.

(** [runSender] does not tell when sending has failed. Here the stream refuses
    the first write; [send] returns that error, but [runSender] returns the result of
    killing ffmpeg, nil, so that the program exits with status 0, and it does so
    without closing the session. *)
Theorem runSender_hides_error :
  ∃ snd, runSender (Pkt := samplePacket) (Hdr := unit) (V := frameList) 3 0%Z (ex_flags "" "vp8" singleStreamMode)
      (newStubConn [(0%Z, Some (EOther "write failed"))]) [] = Ret (Some None, Some snd, ["start"; "kill"]) ∧
    wire 0 (calls (s_conn (snd_session snd))) = [] ∧ s_closedErr (snd_session snd) = None ∧
    conn_closes (calls (s_conn (snd_session snd))) = [] ∧
    main_exit (J := list samplePacket) (W := list samplePacket) (Sending (Some None) (Some snd)) = Some 0.
Proof. eexists. split; [vm_compute; reflexivity|]. vm_compute. done. Qed.
End witnesses.
