(* ===== verification/SaveToDisk.v ===== *)
(** * examples/savetodisk/main.go: saving a video

    The program accepts one connection and writes the packets of flow 0 to a file.
    [save_iter] is an iteration of its loop, from one [Read] to the next; the steps of
    the session run between the iterations, as in InteropReceiver.v. A call of
    [panic] with an error is a result of its own, because the deferred calls run then
    too. *)

From S2P Require Import Prelude GoErrors IO Varint QlogEvent Qlogger Options SyncMap Connection.
From S2P Require Import RTPSendStream SendFlow PacketBuffer Deadline ReceiveFlow ReadStream.
From S2P Require Import ReceiveFlowBuffer Session SessionSpec SessionSteps QUICGo EndToEnd Delivery.
From S2P Require Import Media InteropSender FileWriter InteropReceiver InteropMain.

(** How [main] ends. *)
Inductive main_end := MainReturned | MainPanicked (err : goerror).

Section save.
Context `{!QuicVarint, !GoPool, !GoMapOrder}.
Context {E Crt K L Q Pkt W : Type} `{!QuicConn Q, !RTP Pkt, !RTPWriter Pkt W}.
Context {PrivateKey : Type} `{!TLSEnv E Crt PrivateKey, !QuicEnv E Crt K L Q}.
Implicit Types (s : Session (QUICGoConnection Q)).

Definition save_generateTLSConfigWithCertAndKey (certFile keyFile : string) (e : E)
    : (tlsConfig Crt K + goerror) * E :=
  let '(cert, e) := LoadX509KeyPair certFile keyFile e in
  match cert with
  | inr err => (inr err, e)
  | inl cert => (inl (mkTLS [cert] ["roq-09"] None false), e)
  end.

(** [make([]byte, 4096)] *)
Definition saveBuf : list byte := replicate (Z.to_nat 4096) Byte.x00.

(** An iteration: [None] while [Read] blocks, else how [main] ends if it does. *)
Definition save_iter (prefer : select_case) (flow : nat) (w : W) s
    : outcome (option (option main_end * W * Session (QUICGoConnection Q))) :=
  res ← app_Read flow prefer saveBuf s;
  match res with
  | None => Ret None
  | Some ((n, err, buf), s) =>
      match err with
      | Some _ => Ret (Some (Some MainReturned, w, s))
      | None =>
          match Unmarshal (take (Z.to_nat n) buf) with
          | inr err => Ret (Some (Some (MainPanicked err), w, s))
          | inl pkt =>
              let '(err, w) := WriteRTP pkt w in
              match err with
              | Some err => Ret (Some (Some (MainPanicked err), w, s))
              | None => Ret (Some (None, w, s))
              end
          end
      end
  end.

(** [main] in its loop, with the session and its goroutines, or at its end. *)
Inductive save_state :=
  | Saving (w : W) (sc : sconfig (QUICGoConnection Q))
  | SaveEnds (res : main_end) (w : option W) (sc : sconfig (QUICGoConnection Q)).

(** The deferred calls: the file, the flow and the session are closed, as far as
    they have been opened; [Close] of the session then waits for the goroutines. *)
Definition save_deferred (flow : option nat) (w : option W) (sc : sconfig (QUICGoConnection Q)) (res : main_end)
    : outcome save_state :=
  let w := match w with Some w => Some (snd (RTPWriter_Close w)) | None => None end in
  s ← match flow with
      | Some flow => '(_, s) ← closeReceiveFlow flow (sc_sess sc); Ret s
      | None => Ret (sc_sess sc)
      end;
  s ← Session_close ErrRoQNoError "" s;
  Ret (SaveEnds res w (mkConfigS s (sc_loops sc) (sc_handlers sc) (S (sc_closing sc)) (sc_returned sc))).

(** The loop, with the other goroutines running as [sched] says. *)
Fixpoint save_under (sched : list rlabel) (flow : nat) (w : W) (sc : sconfig (QUICGoConnection Q))
    : outcome save_state :=
  match sched with
  | [] => Ret (Saving w sc)
  | RIter prefer :: sched =>
      res ← save_iter prefer flow w (sc_sess sc);
      match res with
      | None => save_under sched flow w sc
      | Some (None, w, s) => save_under sched flow w (set_sc_sess s sc)
      | Some (Some ended, w, s) => save_deferred (Some flow) (Some w) (set_sc_sess s sc) ended
      end
  | RSession l :: sched =>
      match sexec l sc with
      | None => save_under sched flow w sc
      | Some res => sc ← res; save_under sched flow w sc
      end
  end.

(** [main] once it has a connection; [output] is the result of [ivfwriter.New]. *)
Definition save_run (sched : list rlabel) (output : W + goerror) (conn : Q)
    : outcome (save_state + goerror) :=
  match NewSession (quicgo conn).1 (quicgo conn).2 true [] with
  | inr err => Ret (inr err)
  | inl (session, loops) =>
      let sc := mkConfigS session loops [] 0 [] in
      '(flow, s) ← NewReceiveFlow 0 session;
      let sc := set_sc_sess s sc in
      match flow with
      | inr err => inl <$> save_deferred None None sc (MainPanicked err)
      | inl flow =>
          match output with
          | inr err => inl <$> save_deferred (Some flow) None sc (MainPanicked err)
          | inl w => inl <$> save_under sched flow w sc
          end
      end
  end.

(** The whole of [main]: an error before there is a session is a panic. *)
Definition save_main (sched : list rlabel) (output : W + goerror) (cert key addr : string) (e : E)
    : outcome (save_state + goerror) :=
  let '(tls, e) := save_generateTLSConfigWithCertAndKey cert key e in
  match tls with
  | inr err => Ret (inr err)
  | inl tls =>
      let '(listener, e) := quic_ListenAddr addr tls datagramConfig e in
      match listener with
      | inr err => Ret (inr err)
      | inl listener =>
          let '(conn, e) := Listener_Accept listener e in
          match conn with
          | inr err => Ret (inr err)
          | inl conn => save_run sched output conn
          end
      end
  end.
End save.

Section correctness.
Context `{QuicVarintLaws, !GoPool, !GoMapOrder}.
Context {Q Pkt W : Type} `{QuicConnLaws Q, !RTP Pkt, !RTPWriter Pkt W}.
Implicit Types (s : Session (QUICGoConnection Q)) (sc : sconfig (QUICGoConnection Q)) (w : W).

Lemma app_Read_length flow prefer buf s res s' : app_Read flow prefer buf s = Ret (Some (res, s')) →
  length (s_rfs s') = length (s_rfs s).
Proof.
  unfold app_Read. destruct (deref _ flow) as [f|]; [|done]. bind_simpl.
  destruct (ReceiveFlow.Read 1 prefer buf f) as [[r f']|]; [|done].
  cbn [mbind option_bind]. intros [= _ <-]. simpl. apply length_insert.
Qed.

Lemma save_iter_spec prefer flow w s : sess_inv s → flow < length (s_rfs s) →
  ∃ res, save_iter prefer flow w s = Ret res ∧
    ∀ st w' s', res = Some (st, w', s') → sess_inv s' ∧ stable s s' ∧ length (s_rfs s') = length (s_rfs s).
Proof.
  intros Hinv Hlt. destruct (app_Read_inv flow prefer saveBuf s Hinv Hlt) as (rr & Hrun & Hres).
  unfold save_iter. rewrite Hrun. bind_simpl. destruct rr as [[[[n err] buf] s1]|]; [|by eexists].
  destruct (Hres _ _ eq_refl) as [Hinv1 Hst1].
  pose proof (app_Read_length _ _ _ _ _ _ Hrun) as Hlen.
  destruct err; [by eexists; split; [done|]; intros ??? [= <- <- <-]|].
  destruct (Unmarshal _); [|by eexists; split; [done|]; intros ??? [= <- <- <-]].
  destruct (WriteRTP _ _) as [[e|] w1]; (by eexists; split; [done|]; intros ??? [= <- <- <-]).
Qed.

Lemma save_deferred_spec flow (w : option W) sc res : sc_inv sc →
  (∀ r, flow = Some r → r < length (s_rfs (sc_sess sc))) →
  ∃ (w' : option W) sc', save_deferred flow w sc res = Ret (SaveEnds res w' sc') ∧ closing sc'.
Proof.
  intros Hsc Hflow. pose proof (ci_sess _ Hsc) as Hinv. unfold save_deferred.
  set (w' := match w with Some _ => _ | None => _ end).
  assert (∃ s1, (match flow with
      | Some flow => '(_, s) ← closeReceiveFlow flow (sc_sess sc); Ret s
      | None => Ret (sc_sess sc)
      end) = Ret s1 ∧ sess_inv s1 ∧ stable (sc_sess sc) s1) as (s1 & -> & Hinv1 & Hst1).
  { destruct flow as [r|]; [|by eexists].
    destruct (closeReceiveFlow_inv r (sc_sess sc) Hinv (Hflow r eq_refl)) as (err & s1 & -> & ? & ?). by eexists. }
  bind_simpl. destruct (LClose_closing (set_sc_sess s1 sc)) as (sc' & Hrun & Hcl);
    [by apply sc_inv_set_sess|].
  cbn [sexec set_sc_sess] in Hrun. destruct (Session_close ErrRoQNoError "" s1) as [s2|]; [|done].
  injection Hrun as <-. bind_simpl. by eexists _, _.
Qed.

(** A flow stays where it is. *)
Lemma sexec_flow l flow sc sc' : sc_inv sc → sexec l sc = Some (Ret sc') →
  flow < length (s_rfs (sc_sess sc)) → flow < length (s_rfs (sc_sess sc')).
Proof.
  intros Hsc Hex Hlt. destruct (decide (reads_flow flow l = true)) as [Hrd|Hrd].
  - destruct l as [[| | | | | | | |r pr buf| | | |]| | | | | |]; try done. destruct sc as [s loops hs n ret].
    cbn [sexec run_op] in Hex. destruct (op_ok _ s); [|done].
    destruct (app_Read r pr buf s) as [[[res s1]|]|] eqn:Hread; simplify_eq/=; [|done].
    by rewrite (app_Read_length _ _ _ _ _ _ Hread).
  - apply lookup_lt_is_Some_2 in Hlt as [f Hf].
    destruct (kept_sexec flow l sc sc' Hsc) with (f := f) as (f' & Hf' & _); [|done..|by eapply lookup_lt_Some].
    destruct l as [[]| | | | | |]; try done. simpl in Hrd. intros ->. apply Hrd. by apply bool_decide_eq_true.
Qed.

Definition save_ok (st : save_state (Q := Q) (W := W)) : Prop :=
  match st with
  | Saving _ sc => sc_inv sc
  | SaveEnds _ _ sc => closing sc
  end.

Lemma save_under_spec sched flow w sc : Forall rlabel_fits sched → sc_inv sc → flow < length (s_rfs (sc_sess sc)) →
  ∃ st, save_under sched flow w sc = Ret st ∧ save_ok st.
Proof.
  intros Hfits. revert w sc. induction Hfits as [|[prefer|l] sched Hfit _ IH]; intros w sc Hsc Hlt; simpl; [by eexists|..].
  - destruct (save_iter_spec prefer flow w (sc_sess sc) (ci_sess _ Hsc) Hlt) as (res & -> & Hres). bind_simpl.
    destruct res as [[[[ended|] w1] s1]|]; [| |by apply IH];
      destruct (Hres _ _ _ eq_refl) as (Hinv1 & Hst1 & Hlen); pose proof (sc_inv_set_sess s1 sc Hsc Hinv1 Hst1).
    + destruct (save_deferred_spec (Some flow) (Some w1) (set_sc_sess s1 sc) ended) as (w' & sc' & -> & Hcl);
        [done|by intros ? [= <-]; simpl; rewrite Hlen|]. by eexists.
    + apply IH; [done|]. simpl. by rewrite Hlen.
  - destruct (sexec l sc) as [res|] eqn:Hex; [|by apply IH].
    destruct (sexec_spec l sc res Hsc (Is_true_true_1 _ Hfit) Hex) as (sc1 & -> & Hsc1 & _). bind_simpl.
    apply IH; [done|]. exact (sexec_flow l flow sc sc1 Hsc Hex Hlt).
Qed.

(** Once savetodisk has a session it ends, by an error of [Read], of the file
    or of a packet, only after closing the session: the connection is closed exactly
    once, also when the end is a panic with an error, and no call of the library
    panics, whatever the peer sends and the goroutines do (nobody creates a send flow
    whose ID has no encoding). *)
Theorem save_closes_session (sched : list rlabel) (output : W + goerror) (conn : Q)
    (Hfits : Forall rlabel_fits sched) (Hconn : conn_closes (calls (NewQUICGoConnection conn)) = []) :
  ∃ st, save_run sched output conn = Ret (inl st) ∧ save_ok st ∧
    (∀ err, output = inr err → ∃ ow sc, st = SaveEnds (MainPanicked err) ow sc).
Proof.
  unfold save_run, NewSession. simpl.
  set (s := newSession (NewQUICGoConnection conn) _ true defaultConfig).
  set (sc := mkConfigS s (start s) [] 0 []).
  assert (sc_inv sc) as Hsc.
  { apply sreachable_inv. eexists _, _, true, defaultConfig, _. split; [apply defaultConfig_ok|].
    split; [exact Hconn|]. split; [by right|]. apply rtc_refl. }
  pose proof (ci_sess _ Hsc) as Hinv.
  destruct (NewReceiveFlow_spec 0 s Hinv) as (res & s1 & Hnew & Hinv1 & Hcase).
  destruct Hcase as (r & new & fl & -> & _ & _ & _ & Hr & _). rewrite Hnew. bind_simpl.
  destruct (run_op_inv (ONewReceiveFlow 0) s Hinv eq_refl eq_refl) as (s2 & Hop & _ & Hst2).
  simpl in Hop. rewrite Hnew in Hop. injection Hop as <-.
  pose proof (sc_inv_set_sess s1 sc Hsc Hinv1 Hst2) as Hsc1. apply lookup_lt_Some in Hr.
  destruct output as [w|err].
  - destruct (save_under_spec sched r w (set_sc_sess s1 sc) Hfits Hsc1 Hr) as (st & -> & Hok). by exists st.
  - destruct (save_deferred_spec (Some r) None (set_sc_sess s1 sc) (MainPanicked err) Hsc1)
      as (w' & sc' & -> & Hcl); [by intros ? [= <-]|].
    eexists; split; [done|]. split; [done|]. intros ? [= <-]. by eexists _, _.
Qed.
End correctness.

Section witnesses.
Import RFC9000.
#[local] Existing Instance lifo_pool.
#[local] Existing Instance ascending_order.
#[local] Existing Instance stub_quic.
#[local] Existing Instance stub_quic_laws.
#[local] Existing Instance list_writer.

(** A packet is saved, the next one is empty and cannot be parsed. *)
Definition ex_saving : list rlabel :=
  [RSession (LNetwork (EvDatagram (bytes [0; 5; 42]%Z))); RSession LReceiveDatagram; RIter SelPacket;
   RSession (LNetwork (EvDatagram (bytes [0]%Z))); RSession LReceiveDatagram; RIter SelPacket].

Lemma save_closes_session_witness :
  ∃ sc, save_run (Pkt := samplePacket) ex_saving (inl []) (newStubConn []) =
      Ret (inl (SaveEnds (MainPanicked ErrUnexpectedEOF) (Some [mkSample Byte.x05 [Byte.x2a]]) sc)) ∧
    closing sc.
Proof.
  destruct (save_closes_session (Pkt := samplePacket) (W := list samplePacket) ex_saving (inl []) (newStubConn []))
    as (st & Hrun & Hok & _).
  - repeat constructor.
  - reflexivity.
  - pose proof Hrun as Hrun'. vm_compute in Hrun'. injection Hrun' as <-.
    eexists. split; [exact Hrun|]. exact Hok.
Defined.
End witnesses.
