(* ===== verification/PlayFromDisk.v ===== *)
(** * examples/playfromdisk/main.go: playing a video file

    The program sends each frame of an IVF file on a stream of its own, one per tick.
    The interval of the ticker and the advance of the RTP timestamps are computed in
    floating point: [spec_float] of the Standard Library has the IEEE 754 operations,
    in single ([f32]) and double ([f64]) precision. What Go leaves open, the
    conversion of a float that does not fit into the integer, is a parameter. *)

From Stdlib Require Import SpecFloat.
From S2P Require Import Prelude GoErrors IO Varint QlogEvent Qlogger Options SyncMap Connection.
From S2P Require Import RTPSendStream SendFlow PacketBuffer Deadline ReceiveFlow ReadStream.
From S2P Require Import ReceiveFlowBuffer Session SessionSpec SessionSteps QUICGo EndToEnd Delivery.
From S2P Require Import Media InteropSender FileWriter InteropReceiver InteropMain SaveToDisk.

(** ** Timing *)

(** [float32(n)] and [float64(n)] of an integer, and arithmetic on them. *)
Definition f32_of (n : Z) : spec_float := binary_normalize 24 128 n 0 false.
Definition f64_of (n : Z) : spec_float := binary_normalize 53 1024 n 0 false.
Definition f32_div := SFdiv 24 128.
Definition f32_mul := SFmul 24 128.
Definition f64_div := SFdiv 53 1024.
Definition f64_mul := SFmul 53 1024.
Definition f64_add := SFadd 53 1024.

(** The integer part, if there is one. *)
Definition SF_trunc (x : spec_float) : option Z :=
  match x with
  | S754_zero _ => Some 0%Z
  | S754_finite sign m e =>
      let a := if decide (0 ≤ e)%Z then (Z.pos m * 2 ^ e)%Z else (Z.pos m / 2 ^ (- e))%Z in
      Some (if sign then (- a)%Z else a)
  | S754_infinity _ | S754_nan => None
  end.

(** Conversions of a float that does not fit are implementation-specific. *)
Class GoFloatConv := {
  int64_overflow : spec_float → Z;
  uint32_overflow : spec_float → Z
}.

(** [int64(x)] and [uint32(x)] *)
Definition int64_of `{!GoFloatConv} (x : spec_float) : Z :=
  match SF_trunc x with
  | Some z => if decide (- 2 ^ 63 ≤ z < 2 ^ 63)%Z then z else int64_overflow x
  | None => int64_overflow x
  end.
Definition uint32_of `{!GoFloatConv} (x : spec_float) : Z :=
  match SF_trunc x with
  | Some z => if decide (0 ≤ z < 2 ^ 32)%Z then z else uint32_overflow x
  | None => uint32_overflow x
  end.

(** Durations are nanoseconds. *)
Definition Millisecond : Z := 1000000.
Definition Second : Z := 1000000000.
Definition clockRate : Z := 90000.

(** [d.Seconds()] *)
Definition Duration_Seconds (d : Z) : spec_float :=
  f64_add (f64_of (Z.quot d Second)) (f64_div (f64_of (Z.rem d Second)) (f64_of Second)).

(** The interval between frames, from the time base of the file. *)
Definition sampleDuration `{!GoFloatConv} (num den : Z) : Z :=
  int64 (Millisecond * int64_of (f32_mul (f32_div (f32_of num) (f32_of den)) (f32_of 1000))).

(** The advance of the RTP timestamp from frame to frame. *)
Definition samples `{!GoFloatConv} (d : Z) : Z := uint32_of (f64_mul (Duration_Seconds d) (f64_of clockRate)).

(** [time.NewTicker(d)] *)
Definition NewTicker (d : Z) : outcome Z := if decide (d ≤ 0)%Z then Panic PanicTicker else Ret d.

(** ** The program *)

(** The header of an IVF file. *)
Record IVFHeader := mkIVFHeader { FourCC : string; TimebaseDenominator : Z; TimebaseNumerator : Z }.

(** The payloader for a codec. *)
Inductive payloader := AV1Payloader | VP9Payloader | VP8Payloader.

Definition payloader_of (fourCC : string) : option payloader :=
  if decide (fourCC = "AV01") then Some AV1Payloader
  else if decide (fourCC = "VP90") then Some VP9Payloader
  else if decide (fourCC = "VP80") then Some VP8Payloader
  else None.

(** [math.MaxInt32] *)
Definition MaxInt32 : Z := 2 ^ 31 - 1.

Section play.
Context `{!QuicVarint, !GoPool, !GoMapOrder, !GoFloatConv}.
Context {E Crt K L Q File Pkt P V : Type} `{!QuicConn Q, !QuicEnv E Crt K L Q}.
Context `{!RTP Pkt, !Packetizer Pkt P, !IVFReader V, !IVFFile File IVFHeader V}.
Implicit Types (s : Session (QUICGoConnection Q)).

Definition playConfig : quicConfig :=
  mkQuicConfig MaxInt32 MaxInt32 MaxInt32 MaxInt32 MaxInt32 MaxInt32 true true.

(** The packets of a frame, on its stream; [Some err] is a panic. *)
Fixpoint play_packets (stream : nat) (packets : list Pkt) s
    : outcome (option goerror * Session (QUICGoConnection Q)) :=
  match packets with
  | [] => Ret (None, s)
  | pkt :: packets =>
      match Marshal pkt with
      | inr err => Ret (Some err, s)
      | inl buf =>
          '((_, err), s) ← app_WriteStream stream buf s;
          match err with
          | Some err => Ret (Some err, s)
          | None => play_packets stream packets s
          end
      end
  end.

(** The loop; [None] while it runs. *)
Fixpoint play_loop (fuel : nat) (flow : nat) (sampleDuration : Z) (ivf : V) (packetizer : P) s
    : outcome (option main_end * Session (QUICGoConnection Q)) :=
  match fuel with
  | 0 => Ret (None, s)
  | S fuel =>
      let '((frame, ivfErr), ivf) := ParseNextFrame ivf in
      match ivfErr with
      | Some err =>
          if errors_Is err EOF then Ret (Some MainReturned, s) else Ret (Some (MainPanicked err), s)
      | None =>
          '(res, s) ← app_NewSendStream flow 0 false s;
          match res with
          | inr err => Ret (Some (MainPanicked err), s)
          | inl stream =>
              let '(packets, packetizer) := Packetize frame (samples sampleDuration) packetizer in
              '(err, s) ← play_packets stream packets s;
              match err with
              | Some err => Ret (Some (MainPanicked err), s)
              | None =>
                  '(_, s) ← app_CloseStream stream s;
                  play_loop fuel flow sampleDuration ivf packetizer s
              end
          end
      end
  end.

(** [main] once it has a connection. The deferred [Close] of the session runs at the
    end; it is given here once the goroutines of the session have returned. *)
Definition play_run (fuel : nat) (header : IVFHeader) (ivf : V) (packetizer : P) (conn : Q)
    : outcome (option main_end * Session (QUICGoConnection Q) + goerror) :=
  match NewSession (quicgo conn).1 (quicgo conn).2 true [] with
  | inr err => Ret (inr err)
  | inl (session, _) =>
      '(flow, s) ← NewSendFlow 0 session;
      '(res, s) ← match flow with
                  | inr err => Ret (Some (MainPanicked err), s)
                  | inl flow =>
                      d ← NewTicker (sampleDuration (TimebaseNumerator header) (TimebaseDenominator header));
                      play_loop fuel flow d ivf packetizer s
                  end;
      match res with
      | None => Ret (inl (None, s))
      | Some _ => '(_, s) ← Session_Close s; Ret (inl (res, s))
      end
  end.

(** The whole of [main]: the file is opened twice, once for the codec and once for the
    frames. [newPacketizer] is [rtp.NewPacketizer(1200, 96, 1, ...)]. *)
Definition play_main (fuel : nat) (open1 open2 : File + goerror) (newPacketizer : payloader → P)
    (addr : string) (e : E) : outcome (option main_end * Session (QUICGoConnection Q) + goerror) :=
  match open1 with
  | inr err => Ret (inr err)
  | inl file =>
      match ivfreader_NewWith file with
      | inr err => Ret (inr err)
      | inl (_, header) =>
          match payloader_of (FourCC header) with
          | None => Ret (inr (EOther ("Unable to handle FourCC " +:+ FourCC header)))
          | Some payloader =>
              let packetizer := newPacketizer payloader in
              match open2 with
              | inr err => Ret (inr err)
              | inl file =>
                  match ivfreader_NewWith file with
                  | inr err => Ret (inr err)
                  | inl (ivf, header) =>
                      let '(conn, e) := quic_DialAddr addr (mkTLS [] ["roq-09"] None true) playConfig e in
                      match conn with
                      | inr err => Ret (inr err)
                      | inl conn => play_run fuel header ivf packetizer conn
                      end
                  end
              end
          end
      end
  end.
End play.

(** ** What the program does *)

Section correctness.
Context `{QuicVarintLaws, !GoPool, !GoMapOrder, !GoFloatConv}.
Context {Q Pkt P V : Type} `{QuicConnLaws Q} `{RTPLaws Pkt, !Packetizer Pkt P, !IVFReader V}.
Implicit Types (s : Session (QUICGoConnection Q)).

(** Reading the frames of a file. *)
#[local] Instance ivf_frames : FrameReader V := {| FrameReader_Read := ParseNextFrame |}.

Lemma play_packets_sendStream stream (packets : list Pkt) s :
  play_packets stream packets s = sendStream (Some stream) packets s.
Proof.
  revert s. induction packets as [|p packets IH]; intros s; simpl; [done|].
  destruct (Marshal p) as [buf|]; [|done].
  destruct (app_WriteStream stream buf s) as [[[n [err|]] s1]|]; [done|apply IH|done].
Qed.

(** The loop returns with the last frame, whatever the connection does. *)
Lemma play_loop_spec fuel id enc flow base n d (ivf : V) frames err ivf' (pk : P) s :
  reads ivf frames err ivf' → sending id enc flow base n s → length frames < fuel →
  ∃ res s', play_loop (Pkt := Pkt) fuel flow d ivf pk s = Ret (Some res, s') ∧
    sending id enc flow base n s' ∧ (res = MainReturned → errors_Is err EOF = true).
Proof.
  intros Hr. revert fuel pk s. induction Hr as [rd frame err rd' Hrd|rd frame rd1 frames err rd' Hrd _ IH];
    intros fuel pk s Hs Hfuel; (destruct fuel as [|fuel]; [simpl in Hfuel; lia|]); cbn [play_loop];
    simpl in Hrd; rewrite Hrd.
  { destruct (errors_Is err EOF); by eexists _, s. }
  destruct (app_NewSendStream_sending id enc flow base n s Hs)
    as (res & s1 & ks1 & -> & Hs1 & _ & _ & _ & Hres). bind_simpl.
  destruct res as [st|e]; [|by eexists _, s1]. destruct Hres as (h & ks2 & _ & _ & Hcar).
  destruct (Packetize frame (samples d) pk) as [packets pk1]. rewrite play_packets_sendStream.
  destruct (sendStream_spec id enc flow base n st h _ [] packets s1 Hs1 Hcar)
    as (e & s2 & ks3 & -> & Hs2 & _ & _ & Hlen & _). bind_simpl.
  destruct e as [e|]; [by eexists _, s2|].
  destruct (app_CloseStream_sending id enc flow base n st s2 Hs2) as (e & s3 & h3 & -> & Hs3 & _).
  { destruct Hcar as (x & Hx & _). apply lookup_lt_Some in Hx. lia. }
  bind_simpl. apply IH; [done|]. simpl in Hfuel. lia.
Qed.

Lemma Session_Close_closes s : sess_inv s → s_closedErr s = None →
  ∃ err s', Session_Close s = Ret (err, s') ∧ sess_inv s' ∧
    s_closedErr s' = Some (mkSessionError ErrRoQNoError "") ∧
    conn_closes (calls (s_conn s')) = [(ErrRoQNoError, "")].
Proof.
  intros Hinv Hop. unfold Session_Close.
  destruct (Session_close_inv ErrRoQNoError "" s Hinv) as (s1 & -> & Hinv1 & Hsd & _). bind_simpl.
  destruct (Hsd Hop) as (Hcl & _). destruct (Close_finish_spec s1 Hinv1) as (s' & Hf & Hinv' & Hst & _).
  rewrite Hf. eexists _, s'. split; [done|]. split; [done|]. destruct Hst as [Hcl' _]; [by rewrite Hcl|].
  rewrite Hcl', Hcl. split; [done|]. destruct Hinv' as [_ Hst']. unfold status_inv in Hst'.
  rewrite Hcl', Hcl in Hst'. apply Hst'.
Qed.

(** Once playfromdisk has a session and the interval between the frames is
    positive, it comes to an end: it returns after the last frame of the file, after
    at most one more tick than there are frames, or panics with the error of a call
    that failed, and in both cases has closed the session and with it the
    connection, once. It returns normally only at the end of the file. *)
Theorem play_ends (fuel : nat) (header : IVFHeader) (ivf : V) (frames : list (list byte)) (err : goerror)
    (ivf' : V) (pk : P) (conn : Q) (Hconn : conn_closes (calls (NewQUICGoConnection conn)) = [])
    (Hticker : (0 < sampleDuration (TimebaseNumerator header) (TimebaseDenominator header))%Z)
    (Hreads : reads ivf frames err ivf') (Hfuel : length frames < fuel) :
  ∃ res s', play_run (Pkt := Pkt) fuel header ivf pk conn = Ret (inl (Some res, s')) ∧
    sess_inv s' ∧ conn_closes (calls (s_conn s')) = [(ErrRoQNoError, "")] ∧
    (res = MainReturned → errors_Is err EOF = true).
Proof.
  unfold play_run, NewSession. simpl.
  set (s := newSession (NewQUICGoConnection conn) _ true defaultConfig).
  assert (sess_inv s) as Hinv by (apply newSession_inv; [apply defaultConfig_ok|exact Hconn]).
  assert (varint_ok 0) as Hid by (by split). destruct (Append_ok _ Hid) as (enc & Henc & _).
  destruct (NewSendFlow_sending 0 enc s Hinv Hid (Henc []) eq_refl eq_refl) as (s1 & -> & Hs1 & _). bind_simpl.
  unfold NewTicker. rewrite decide_False by lia. bind_simpl.
  destruct (play_loop_spec fuel 0 enc _ _ _ (sampleDuration (TimebaseNumerator header) (TimebaseDenominator header))
    ivf frames err ivf' pk s1 Hreads Hs1 Hfuel) as (res & s2 & -> & Hs2 & Hret). bind_simpl.
  assert (s_closedErr s2 = None) as Hop.
  { destruct (s_closedErr s2) eqn:Hcl; [|done]. destruct Hs2 as [[_ Hst] Hreg _ _ _].
    unfold status_inv in Hst. rewrite Hcl in Hst. destruct Hst as (_ & _ & Hnone & _). by rewrite Hnone in Hreg. }
  destruct (Session_Close_closes s2 (sd_inv _ _ _ _ _ _ Hs2) Hop) as (e & s' & -> & ? & ? & ?). bind_simpl.
  by eexists res, s'.
Qed.
End correctness.

(** ** The timing of the frames *)

Section timing.
Context `{!GoFloatConv}.

(** The advance of the timestamp for a whole number of milliseconds. *)
Definition samples_ok (k : nat) : bool :=
  match SF_trunc (f64_mul (Duration_Seconds (Millisecond * Z.of_nat k)) (f64_of clockRate)) with
  | Some z => bool_decide (90 * Z.of_nat k - 1 ≤ z ≤ 90 * Z.of_nat k)%Z
  | None => false
  end.

Lemma samples_ok_all : forallb samples_ok (seq 1 1000) = true.
Proof. vm_compute. reflexivity. Qed.

(** For intervals of up to one second the timestamp advances by the 90 ticks
    of every millisecond, or by one less: the product of floats may come out just
    below the integer, and is truncated. *)
Theorem samples_bounds (k : nat) (Hk : 1 ≤ k ≤ 1000) :
  (90 * Z.of_nat k - 1 ≤ samples (Millisecond * Z.of_nat k) ≤ 90 * Z.of_nat k)%Z.
Proof.
  pose proof samples_ok_all as Hall. rewrite forallb_forall in Hall.
  specialize (Hall k). rewrite in_seq in Hall. specialize (Hall ltac:(lia)). unfold samples_ok in Hall.
  unfold samples, uint32_of. destruct (SF_trunc _) as [z|]; [|done]. apply bool_decide_eq_true in Hall.
  rewrite decide_True by lia. done.
Qed.

(** The program cuts the interval of the frames down to milliseconds. A file of
    30 frames per second plays at an interval of 33 ms with 2970 ticks of the 90 kHz
    clock between frames, where 33.3 ms and 3000 are right; at 9 ms the advance is
    809, not 810; and a file with a time base of less than a millisecond, such as
    1/90000, makes [time.NewTicker] panic. *)
Theorem play_timing_truncates :
  sampleDuration 1 30 = (33 * Millisecond)%Z ∧ samples (sampleDuration 1 30) = 2970%Z ∧
  samples (9 * Millisecond) = 809%Z ∧
  NewTicker (sampleDuration 1 90000) = Panic PanicTicker.
Proof. vm_compute. done. Qed.
End timing.

Section witnesses.
Import RFC9000.
#[local] Existing Instance lifo_pool.
#[local] Existing Instance ascending_order.
#[local] Existing Instance stub_quic.
#[local] Existing Instance stub_quic_laws.
#[local] Existing Instance ex_ivf.
#[local] Instance zero_conv : GoFloatConv := {| int64_overflow _ := 0%Z; uint32_overflow _ := 0%Z |}.

Lemma play_ends_witness :
  ∃ res s', play_run (Pkt := samplePacket) 3 (mkIVFHeader "VP80" 30 1) (mkFrames ex_frames EOF) 0%Z
      (newStubConn []) = Ret (inl (Some res, s')) ∧
    res = MainReturned ∧ conn_closes (calls (s_conn s')) = [(ErrRoQNoError, "")] ∧
    opened (calls (s_conn s')) = [0; 1].
Proof.
  destruct (play_ends (Pkt := samplePacket) 3 (mkIVFHeader "VP80" 30 1) (mkFrames ex_frames EOF) ex_frames EOF
    (mkFrames [] EOF) 0%Z (newStubConn [])) as (res & s' & Hrun & _ & Hcc & _).
  - reflexivity.
  - vm_compute. reflexivity.
  - apply frameList_reads.
  - vm_compute. lia.
  - exists res, s'. split; [exact Hrun|]. pose proof Hrun as Hrun'. vm_compute in Hrun'.
    injection Hrun' as <- <-. split; [reflexivity|]. split; [exact Hcc|]. reflexivity.
Defined.

Lemma samples_bounds_witness : (2969 ≤ samples (33 * Millisecond) ≤ 2970)%Z.
Proof. apply (samples_bounds 33). lia. Defined.
End witnesses.
